(* ===== verification/_CoqProject ===== *)
-Q . S2P
Prelude.v
Replay.v
Text.v
Types.v
IpAddr.v
Hex.v
Json.v
Wire.v
Tls.v
VoiceTypes.v
VoiceConfig.v
VoiceCrypto.v
VoiceCodec.v
VoiceWorker.v
VoiceStream.v
VoiceCall.v
VoiceHandle.v
ClientModel.v
RealtimeTypes.v
Projection.v
StateStore.v
StateReceiver.v
SyncMachine.v
RealtimeTransport.v
RealtimeTls.v
Connector.v
Connection.v
Engine.v
Supervisor.v
OwnerTask.v
HttpTypes.v
HttpClient.v
HttpRefresh.v
HttpDiscovery.v
HttpApi.v
HttpGroups.v
HttpChannels.v
HttpUsers.v
HttpRbac.v
HttpModeration.v
HttpAdmin.v
HttpVoice.v
HttpAuth.v
HttpEndpoints.v
HttpSession.v
HttpMetadata.v
SdkTypes.v
HttpPins.v
SdkProgram.v
SdkVoice.v
VoiceReuse.v
SdkClient.v
SdkPool.v
SdkProgress.v
SdkShutdown.v
SdkOutcomes.v
SdkTransports.v
SdkDrops.v
SdkStale.v
TestKit.v
Redaction.v
Hosts.v
HostRuns.v
HostRelays.v
HostPasses.v
