(* ===== verification/Prelude.v ===== *)
(** * Verification of the ZephyrVox client SDK

    The program is a Rust client for a voice chat server, in six crates under src/crates:
    zephyrvox-types and zephyrvox-wire (the shared data and the wire contract),
    zephyrvox-voice (encrypted media over UDP), zephyrvox-realtime (the WebSocket control
    connection and the projected state), zephyrvox-http (the typed HTTP client) and
    zephyrvox-sdk (the client a host uses, which ties the others together). A host logs in
    over HTTP, opens a control connection that starts from an HTTP snapshot, and joins a
    voice channel by an HTTP request whose answer configures a UDP worker; the control
    connection owns the authority for that voice session.

    Everything is a shallow embedding. A fallible function returns [result]; a method on
    [&mut self] is a state transition in the monad [se] of this file; an index out of
    range is the [None] of [panic_or]. Machine integers are [Z] with their range as a
    hypothesis or an invariant and their wrap-around written out. Texts are their UTF-8
    bytes, or [string] where only equality matters.

    ** Files

    Shared: this file (results, the state-and-error monad, byte slices, machine
    integers), Text (the text operations of the standard library), Hex, IpAddr (the
    standard parser and printer of addresses), Json (what is read of a JSON value).

    zephyrvox-types, zephyrvox-wire: Types (identifiers with their invariants, media and
    metadata), ClientModel (snapshots, events and the projected state), Wire (constants,
    headers, response envelope, server cards).

    zephyrvox-voice: VoiceTypes, VoiceConfig (negotiated configuration, key cache),
    VoiceCrypto (key derivation, nonces, sealing), VoiceCodec (packets), Replay (the
    128-packet window and its specification by sets), VoiceWorker (worker.rs and how its
    handles stop it), VoiceStream (what host and server are given of each other's media),
    VoiceCall (two workers and a server between them), VoiceHandle (session.rs: starting, receiving, waiting). A turn of the worker's loop is
    a function of its state and one input, which says what the [select!] saw.

    zephyrvox-realtime: RealtimeTypes (errors, frames and their parser, commands),
    RealtimeTransport (configuration, limits, addressing, close codes), Connector (the
    TLS handshake and message translation), RealtimeTls (its copy of the certificate reader
    and verifier, against that of zephyrvox-http), Projection (state/projection.rs), StateStore and StateReceiver
    (state.rs), SyncMachine (sync.rs), Connection (connection.rs; commands are processes
    whose lock sections are steps), Engine (engine/socket.rs), Supervisor (the run of
    a socket generation and the reconnecting owner of engine.rs) and OwnerTask (the steps
    of the commands among those of the owner).

    zephyrvox-http: HttpTypes (requests, options, responses), Tls (the certificate reader
    and verifier), HttpDiscovery and HttpMetadata (discovery.rs, transport.rs), HttpPins
    (the requests of one transport, which share the cell of its verifier), HttpClient (credentials and client state),
    HttpRefresh (requests and refreshes as concurrent processes), HttpApi (the effect the
    endpoints run in, over the interfaces [Sender] and [Session]), one file per endpoint
    group (HttpAuth, HttpUsers, HttpGroups, HttpChannels, HttpVoice, HttpRbac,
    HttpModeration, HttpAdmin), HttpEndpoints (what they share) and HttpSession (the
    client core implements the interfaces; one call of it alone is a run of HttpRefresh).

    zephyrvox-sdk: SdkTypes (data, error texts, provider.rs), SdkProgram (asynchronous
    programs as trees, pools of them, and rely-guarantee reasoning), SdkVoice (voice.rs,
    voice_api.rs and the client state), VoiceReuse (joining again with a cached key),
    SdkClient (client.rs, events.rs, lifecycle.rs), SdkPool (all operations running together, and the rely of each), SdkProgress,
    SdkShutdown, SdkOutcomes and SdkTransports (their properties), SdkDrops (what dropped
    calls leave behind), SdkStale (what a replaced voice handle still does). Of its examples: Hosts (interoperability.rs and headless.rs, programs
    over the operations of two clients), HostRuns, HostRelays and HostPasses (what they
    establish). The operations of the other crates that the SDK calls are named,
    not inlined: SdkVoice states the answers of each call, and theorems hold for all
    answers of those types.

    All crates: Redaction (what printing shows of the types that hold secrets, as one
    class; the requests themselves are in HttpTypes).

    zephyrvox-testkit: TestKit (the fixture loader and the fake transports; the fake HTTP
    transport is an instance of the interface that the client core is verified against).

    ** What the theorems show

    Voice: the packet codec is a round trip and accepts only canonical packets; the
    replay window is its specification by sets; no nonce is used twice by one worker (two
    workers of one session repeat them); the worker and its handle keep their lifecycle,
    with the one interleaving that breaks it; what it publishes is what the specification
    of the replay window lets through of the server's packets; what it writes is what it
    confirms to the senders; a call through a forwarding server delivers the confirmed sends; a consumer is told of every frame, received or missed; a stop
    that has returned has stopped.
    State: events are applied atomically and keep the projection well formed; ordered
    receivers respect snapshot boundaries; synchronization hands over from replay to live
    events in order with a bounded queue; the state of a live connection is the fold of
    its events over its snapshot. Connections: command replies reach their command once,
    and the loss of a socket completes all of them, also with the real owner task; a frame of
    the state stream is absorbed, illegal, or repaired by a snapshot; the owner makes no more
    turns than its policy allows; the verifiers accept exactly the pinned authority, and
    agree; a reported pin failure is one. HTTP: refreshes are single flights that never overwrite a login
    and clear only what the server rejects, the active pair is the stored one as long as no
    section of the credential gate is dropped half-way, a
    request is retried at most once, and every mutation carries its options and idempotency
    key. SDK: a shutdown that is not dropped is final
    under every interleaving, the client never deadlocks and waits for no traffic with a mutex
    in hand, no voice worker is leaked while
    the voice gate is free, and what join, leave and the relay achieve on every path. Hosts:
    the two-client check always cleans up, its success means that media was forwarded, and
    it succeeds against a healthy server, which composes the operations from discovery
    to shutdown.

    Theorems of kind error show behaviour that looks unintended: a status that is stuck
    after a close race, nonces repeated when a session is joined again, events lost between
    a replacement and the next poll, a completed refresh that stays in its gate, rejoining
    after a mere resynchronization, a stale loss that stops the current session, a lost
    session kept over a reconnect, a dropped leave that forgets its session, a dropped
    shutdown that is never finished, a dropped refresh that loses the session, a replaced handle that ends the session in use, and pin failures that reach another request than the
    one whose peer was refused. Those that are not listed as properties are lemmas of the
    same standing in their files.

    ** Fuel and bounds

    [StateStore.try_recv] loops while snapshots are replaced between its statements; its
    fuel bounds these replacements, and one turn is enough in a store that nobody moves.
    [StateReceiver.recv], the engines and the workers consume explicit input sequences
    instead, and [SdkClient.relay_realtime_events] takes the number of its turns, and their results are stated for all of them. The digit and address printers
    have fuel for the widest value of their type, and [Text.trim_front] for the length of
    its text. The patience of
    [Hosts.wait_for_user_presence] bounds how often the state changes within its time-out;
    its theorems hold for every bound. Everything else is structural. [world_ok] bounds the number of snapshot
    replacements by the width of the generation counter.

    ** What is assumed

    Code outside the repository is a class: [UrlLib], [UrlEdit] and [UrlLaws] (url),
    [CryptoLib] and [CryptoLaws] (aes-gcm, hkdf), [Sha256Lib] and [RustlsLib] (sha2,
    rustls), [DialLib] (tungstenite), [Broadcast] and [MediaQueue] (tokio's channels),
    [JsonValue], [FromJson], [JsonWriter], [BodyDecoder], [AuthCodec], [PayloadDecoders],
    [FrameDecoders] and [FrameEncoders] (serde), [Base64Lib], [CredentialStore] (the
    host's store) and [Transport] (the host's HTTP transport). Each has a small instance,
    in a module whose name starts with Toy, with which the theorems are run on concrete
    inputs.

    ** Not modelled

    The crate roots (re-exports), the progress lines of the example hosts, derived [Debug] implementations of
    types without secrets, plain getters (they are the
    fields of the records), event-stream wrappers around tokio's channels, and the
    sockets, clocks and executors themselves, which appear as inputs, answers and
    schedules. Time-outs appear as the input that they fire. *)

From stdpp Require Export prelude gmap strings list.
From Stdlib Require Export ZArith Lia.

#[global] Open Scope Z_scope.

Declare Scope rust_scope.
Delimit Scope rust_scope with rust.
#[global] Open Scope rust_scope.

(** ** Definitions *)

(** Rust's [Result<A, E>]. *)
Inductive result (E A : Type) : Type :=
| Ok (a : A)
| Err (e : E).

Arguments Ok {E A} a.
Arguments Err {E A} e.

(** The [?] operator: the first error leaves the function. *)
Definition result_bind {E A B : Type} (r : result E A) (k : A → result E B) : result E B :=
  match r with
  | Ok a => k a
  | Err e => Err e
  end.

Notation "'let?' x ':=' r 'in' k" := (result_bind r (λ x, k))
  (at level 10, x pattern at level 0, r at level 200, k at level 200,
   format "'[' 'let?'  x  ':='  r  'in'  '/' k ']'") : rust_scope.

(** [Result::map]. *)
Definition result_map {E A B : Type} (f : A → B) (r : result E A) : result E B :=
  match r with
  | Ok a => Ok (f a)
  | Err e => Err e
  end.

(** [Result::map_err]. *)
Definition map_err {E F A : Type} (f : E → F) (r : result E A) : result F A :=
  match r with
  | Ok a => Ok a
  | Err e => Err (f e)
  end.

(** [Option::ok_or]. *)
Definition ok_or {E A : Type} (e : E) (o : option A) : result E A :=
  match o with
  | Some a => Ok a
  | None => Err e
  end.

(** [Result::is_ok]. *)
Definition is_ok {E A : Type} (r : result E A) : bool :=
  match r with
  | Ok _ => true
  | Err _ => false
  end.

(** [Option<Result<A, E>>::transpose]. *)
Definition transpose {E A : Type} (o : option (result E A)) : result E (option A) :=
  match o with
  | None => Ok None
  | Some (Ok a) => Ok (Some a)
  | Some (Err e) => Err e
  end.

(** Code that mutates state through [&mut] and may fail: the state reached is
    kept on the error path, as it is in Rust. *)
Definition se (S E A : Type) : Type := S → result E A * S.

Definition se_ret {S E A : Type} (a : A) : se S E A := λ s, (Ok a, s).

Definition se_raise {S E A : Type} (e : E) : se S E A := λ s, (Err e, s).

Definition se_lift {S E A : Type} (r : result E A) : se S E A := λ s, (r, s).

Definition se_get {S E A : Type} (f : S → A) : se S E A := λ s, (Ok (f s), s).

Definition se_modify {S E : Type} (f : S → S) : se S E unit := λ s, (Ok tt, f s).

Definition se_bind {S E A B : Type} (m : se S E A) (k : A → se S E B) : se S E B :=
  λ s, match m s with
       | (Ok a, s') => k a s'
       | (Err e, s') => (Err e, s')
       end.

Notation "'let!' x ':=' m 'in' k" := (se_bind m (λ x, k))
  (at level 10, x pattern at level 0, m at level 200, k at level 200,
   format "'[' 'let!'  x  ':='  m  'in'  '/' k ']'") : rust_scope.

(** Code that may panic: [None] is the panic, and an early return with an error
    is [Some (Err e)]. *)
Definition panic_or (E A : Type) : Type := option (result E A).

Notation "'let^' x ':=' r 'in' k" :=
  (match r with Ok x => k | Err e => Some (Err e) end)
  (at level 10, x pattern at level 0, r at level 200, k at level 200,
   format "'[' 'let^'  x  ':='  r  'in'  '/' k ']'") : rust_scope.

Notation "'let*' x ':=' o 'in' k" :=
  (match o with Some x => k | None => None end)
  (at level 10, x pattern at level 0, o at level 200, k at level 200,
   format "'[' 'let*'  x  ':='  o  'in'  '/' k ']'") : rust_scope.

(** [&l\[a..b\]], which panics when the bounds are out of range. *)
Definition get_slice {A} (a b : nat) (l : list A) : option (list A) :=
  if bool_decide (a ≤ b ≤ length l)%nat then Some (take (b - a) (drop a l)) else None.

(** [buffer\[a..a + src.len()\].copy_from_slice(src)] on a buffer it fits in. *)
Definition copy_at {A} (a : nat) (src buffer : list A) : list A :=
  take a buffer ++ src ++ drop (a + length src) buffer.

(** Machine integers are kept as [Z] with the range written out. *)
Definition u8_max : Z := 2 ^ 8 - 1.
Definition u16_max : Z := 2 ^ 16 - 1.
Definition u64_max : Z := 2 ^ 64 - 1.
Definition i64_max : Z := 2 ^ 63 - 1.
Definition u128_max : Z := 2 ^ 128 - 1.

Definition is_u8 (z : Z) : Prop := 0 ≤ z ≤ u8_max.
Definition is_u16 (z : Z) : Prop := 0 ≤ z ≤ u16_max.
Definition is_u64 (z : Z) : Prop := 0 ≤ z ≤ u64_max.

(** [wrapping_add] on [u16] and on [u64]. *)
Definition wrapping_add_u16 (a b : Z) : Z := (a + b) mod 2 ^ 16.
Definition wrapping_add_u64 (a b : Z) : Z := (a + b) mod 2 ^ 64.

(** [saturating_add] on an unsigned integer whose largest value is [m]. *)
Definition saturating_add (m a b : Z) : Z := Z.min m (a + b).

(** Bytes are integers in [0, 256). *)
Abbreviation byte_list := (list Z) (only parsing).

Definition bytes_ok (l : byte_list) : Prop := Forall (λ b, 0 ≤ b < 256) l.

(** [slice::len] as a [usize]. *)
Definition len {A : Type} (l : list A) : Z := Z.of_nat (length l).

(** [&l[a..b]] where the bounds are in range. *)
Definition slice {A : Type} (a b : nat) (l : list A) : list A := take (b - a) (drop a l).

(** [to_be_bytes] of an [n]-byte unsigned integer. *)
Fixpoint to_be_bytes (n : nat) (z : Z) : byte_list :=
  match n with
  | O => []
  | S m => (z / 256 ^ Z.of_nat m) mod 256 :: to_be_bytes m z
  end.

(** [from_be_bytes]. *)
Definition from_be_bytes (l : byte_list) : Z := fold_left (λ acc b, 256 * acc + b) l 0.

(** ** Tactics *)

(** Case analysis on the scrutinee of the first [match] of the goal or of a
    hypothesis, keeping its equation. *)
Ltac case_step :=
  match goal with
  | |- context [match ?x with _ => _ end] => destruct x eqn:?
  | H : context [match ?x with _ => _ end] |- _ => destruct x eqn:?
  end.

(** Splits every boolean test into its proposition. *)
Ltac to_props :=
  repeat match goal with
  | H : (_ && _)%bool = true |- _ => apply andb_true_iff in H as [? ?]
  | H : (_ && _)%bool = false |- _ => apply andb_false_iff in H
  | H : (_ || _)%bool = true |- _ => apply orb_true_iff in H
  | H : (_ || _)%bool = false |- _ => apply orb_false_iff in H as [? ?]
  | H : negb _ = true |- _ => apply negb_true_iff in H
  | H : negb _ = false |- _ => apply negb_false_iff in H
  | H : (_ =? _) = true |- _ => apply Z.eqb_eq in H
  | H : (_ =? _) = false |- _ => apply Z.eqb_neq in H
  | H : (_ <? _) = true |- _ => apply Z.ltb_lt in H
  | H : (_ <? _) = false |- _ => apply Z.ltb_ge in H
  | H : (_ <=? _) = true |- _ => apply Z.leb_le in H
  | H : (_ <=? _) = false |- _ => apply Z.leb_gt in H
  | H : bool_decide _ = true |- _ => apply bool_decide_eq_true in H
  | H : bool_decide _ = false |- _ => apply bool_decide_eq_false in H
  end.

(** Arithmetic over lengths. *)
Create Rewrite HintDb lens.
#[export] Hint Rewrite @length_app @length_take @length_drop @length_replicate
  @length_map @length_cons @length_nil : lens.

Ltac len_lia := unfold len in *; autorewrite with lens in *; simpl in *; lia.

(** ** Lemmas *)

(** Results *)

Lemma result_bind_ok {E A B} (r : result E A) (k : A → result E B) b :
  result_bind r k = Ok b ↔ ∃ a, r = Ok a ∧ k a = Ok b.
Proof. destruct r; naive_solver. Qed.

Lemma map_err_ok {E F A} (f : E → F) (r : result E A) a :
  map_err f r = Ok a ↔ r = Ok a.
Proof. destruct r; naive_solver. Qed.

Lemma ok_or_ok {E A} (e : E) (o : option A) a : ok_or e o = Ok a ↔ o = Some a.
Proof. destruct o; naive_solver. Qed.

Lemma se_bind_ok {S E A B} (m : se S E A) (k : A → se S E B) s b s' :
  se_bind m k s = (Ok b, s') ↔ ∃ a s1, m s = (Ok a, s1) ∧ k a s1 = (Ok b, s').
Proof. unfold se_bind. destruct (m s) as [[a|e] s1]; naive_solver. Qed.

(** Lengths and slices *)

Lemma len_nonneg {A} (l : list A) : 0 ≤ len l.
Proof. unfold len. lia. Qed.

Lemma len_app {A} (l k : list A) : len (l ++ k) = len l + len k.
Proof. len_lia. Qed.

Lemma len_cons {A} (x : A) (l : list A) : len (x :: l) = 1 + len l.
Proof. len_lia. Qed.

Lemma length_slice {A} a b (l : list A) :
  (b ≤ length l)%nat → length (slice a b l) = (b - a)%nat.
Proof. unfold slice. intros. len_lia. Qed.

Lemma get_slice_some {A} a b (l : list A) :
  (a ≤ b ≤ length l)%nat → get_slice a b l = Some (slice a b l).
Proof. intros. unfold get_slice. by rewrite bool_decide_eq_true_2. Qed.

Lemma get_slice_mid {A} (pre mid post : list A) a b :
  a = length pre → b = (length pre + length mid)%nat →
  get_slice a b (pre ++ mid ++ post) = Some mid.
Proof.
  intros -> ->. rewrite get_slice_some by len_lia. unfold slice.
  rewrite drop_app_length, Nat.add_comm, Nat.add_sub. by rewrite take_app_length.
Qed.

Lemma get_slice_suffix {A} (pre post : list A) a b :
  a = length pre → b = length (pre ++ post) → get_slice a b (pre ++ post) = Some post.
Proof.
  intros -> ->. pose proof (get_slice_mid pre post []) as H. rewrite app_nil_r in H.
  apply H; [done|]. by rewrite length_app.
Qed.

Lemma get_slice_inv {A} a b (l s : list A) :
  get_slice a b l = Some s → s = slice a b l ∧ (a ≤ b ≤ length l)%nat.
Proof. unfold get_slice. case_bool_decide; [|done]. by intros [= <-]. Qed.

(** Consecutive slices join. *)
Lemma slice_join {A} a b c (l : list A) :
  (a ≤ b ≤ c)%nat → slice a b l ++ slice b c l = slice a c l.
Proof.
  intros Hab. unfold slice.
  replace (drop b l) with (drop (b - a) (drop a l)) by (rewrite drop_drop; f_equal; lia).
  replace (c - a)%nat with ((b - a) + (c - b))%nat by lia.
  generalize (drop a l) (b - a)%nat (c - b)%nat. clear. intros l n m.
  revert n. induction l as [|x l IH]; intros [|n]; simpl; rewrite ?take_nil; try done.
  by rewrite IH.
Qed.

Lemma slice_one {A} i (l : list A) x : l !! i = Some x → slice i (S i) l = [x].
Proof.
  intros H. unfold slice. rewrite (drop_S _ _ _ H).
  by replace (S i - i)%nat with 1%nat by lia.
Qed.

Lemma slice_suffix {A} a (l : list A) : slice a (length l) l = drop a l.
Proof. unfold slice. apply take_ge. rewrite length_drop. lia. Qed.

(** Filling a zeroed buffer field by field is concatenating the fields. *)
Lemma copy_at_spec {A} a (src pre old post : list A) :
  a = length pre → length src = length old →
  copy_at a src (pre ++ old ++ post) = pre ++ src ++ post.
Proof.
  intros -> Hl. unfold copy_at. rewrite take_app_length, Hl, <- drop_drop, drop_app_length.
  by rewrite drop_app_length.
Qed.

Lemma slice_app_l {A} a b (l k : list A) :
  (b ≤ length l)%nat → slice a b (l ++ k) = slice a b l.
Proof.
  intros. unfold slice. destruct (decide (a ≤ length l)%nat).
  - rewrite drop_app_le by lia. rewrite take_app_le; [done | len_lia].
  - replace (b - a)%nat with 0%nat by lia. done.
Qed.

Lemma slice_app_r {A} a b (l k : list A) :
  (length l ≤ a)%nat → slice a b (l ++ k) = slice (a - length l) (b - length l) k.
Proof.
  intros. unfold slice. rewrite drop_app_ge by lia. f_equal. lia.
Qed.

Lemma slice_all {A} n (l : list A) : length l = n → slice 0 n l = l.
Proof. intros <-. unfold slice. rewrite drop_0, Nat.sub_0_r. apply take_ge. lia. Qed.

Lemma bytes_ok_slice a b l : bytes_ok l → bytes_ok (slice a b l).
Proof. intros. unfold slice. by apply Forall_take, Forall_drop. Qed.

Lemma bytes_ok_pair a b : 0 ≤ a < 256 → 0 ≤ b < 256 → bytes_ok [a; b].
Proof. intros. apply Forall_cons; split; [done|]. by apply Forall_singleton. Qed.

(** Big-endian integers *)

Lemma length_to_be_bytes n z : length (to_be_bytes n z) = n.
Proof. induction n; simpl; congruence. Qed.

#[export] Hint Rewrite length_to_be_bytes : lens.

Lemma to_be_bytes_ok n z : bytes_ok (to_be_bytes n z).
Proof.
  induction n; constructor; [|done]. apply Z.mod_pos_bound. lia.
Qed.

Lemma from_be_bytes_acc l acc :
  fold_left (λ a b, 256 * a + b) l acc = acc * 256 ^ len l + from_be_bytes l.
Proof.
  unfold from_be_bytes. revert acc. induction l as [|x l IH]; intros acc; simpl.
  - unfold len. simpl. lia.
  - rewrite IH, (IH (256 * 0 + x)), len_cons, Z.pow_add_r by (pose proof (len_nonneg l); lia).
    lia.
Qed.

Lemma from_be_bytes_cons x l :
  from_be_bytes (x :: l) = x * 256 ^ len l + from_be_bytes l.
Proof.
  unfold from_be_bytes at 1. simpl. rewrite from_be_bytes_acc. lia.
Qed.

Lemma from_be_bytes_range l : bytes_ok l → 0 ≤ from_be_bytes l < 256 ^ len l.
Proof.
  induction 1 as [|x l Hx Hl IH]; [unfold len, from_be_bytes; simpl; lia|].
  rewrite from_be_bytes_cons, len_cons, Z.pow_add_r by (pose proof (len_nonneg l); lia).
  nia.
Qed.

Lemma from_to_be_bytes n z : from_be_bytes (to_be_bytes n z) = z mod 256 ^ Z.of_nat n.
Proof.
  induction n as [|n IH]; [by rewrite Z.mod_1_r|].
  simpl to_be_bytes. rewrite from_be_bytes_cons, IH. unfold len.
  rewrite length_to_be_bytes, Nat2Z.inj_succ, Z.pow_succ_r by lia.
  rewrite (Z.mul_comm 256), Z.rem_mul_r by lia. lia.
Qed.

(** The round trip for values in the range of the integer type. *)
Lemma from_to_be_bytes_small n z :
  0 ≤ z < 256 ^ Z.of_nat n → from_be_bytes (to_be_bytes n z) = z.
Proof. intros. by rewrite from_to_be_bytes, Z.mod_small. Qed.

Lemma to_from_be_bytes_gen l n z : bytes_ok l → n = length l →
  to_be_bytes n (z * 256 ^ len l + from_be_bytes l) = l.
Proof.
  intros Hl. revert n z. induction Hl as [|x l Hx Hl IH]; intros n z ->; [done|].
  pose proof (from_be_bytes_range l Hl) as Hr. simpl.
  rewrite from_be_bytes_cons, len_cons, Z.pow_add_r by (pose proof (len_nonneg l); lia).
  change (256 ^ 1) with 256. replace (256 ^ Z.of_nat (length l)) with (256 ^ len l) by done.
  replace (z * (256 * 256 ^ len l) + (x * 256 ^ len l + from_be_bytes l))
    with ((z * 256 + x) * 256 ^ len l + from_be_bytes l) by lia.
  f_equal; [|by apply IH].
  rewrite Z.div_add_l, Z.div_small, Z.add_0_r by lia.
  rewrite Z.add_comm, Z.mod_add by lia. by apply Z.mod_small.
Qed.

Lemma to_from_be_bytes l : bytes_ok l → to_be_bytes (length l) (from_be_bytes l) = l.
Proof. intros Hl. by apply (to_from_be_bytes_gen l (length l) 0). Qed.

Lemma to_from_be_bytes_len n l :
  bytes_ok l → length l = n → to_be_bytes n (from_be_bytes l) = l.
Proof. intros Hl <-. by apply to_from_be_bytes. Qed.

(** Testing bits of a masked shift, the form [u64] shifts take. *)
Lemma testbit_mod_pow2 x n i :
  0 ≤ n → 0 ≤ i → Z.testbit (x mod 2 ^ n) i = if i <? n then Z.testbit x i else false.
Proof.
  intros. destruct (Z.ltb_spec i n).
  - by apply Z.mod_pow2_bits_low.
  - by apply Z.mod_pow2_bits_high.
Qed.

(** Reachability: an invariant of every step holds along every run. *)
Lemma rtc_invariant {A} (R : relation A) (P : A → Prop) x y :
  (∀ a b, P a → R a b → P b) → rtc R x y → P x → P y.
Proof. intros Hstep. induction 1; eauto. Qed.
