(* ===== verification/Replay.v ===== *)
(** The 128-packet replay window of the UDP voice transport
    (crates/zephyrvox-voice/src/replay.rs), and its refinement of the abstract
    promise "a sequence is accepted once, and only while it is less than 128
    behind the highest one". *)

From S2P Require Import Prelude.

(** ** The window as the code keeps it: a high-water mark and two [u64] words *)

Record ReplayWindow := mkReplayWindow {
  high : Z;
  bits0 : Z;
  bits1 : Z;
}.

(** [#[derive(Default)]]. *)
Definition ReplayWindow_default : ReplayWindow := mkReplayWindow 0 0 0.

(** [x << s] and [x >> s] on [u64], for a shift below 64. *)
Definition shl64 (x s : Z) : Z := Z.shiftl x s mod 2 ^ 64.
Definition shr64 (x s : Z) : Z := Z.shiftr x s.

(** [self.bits[word as usize]] for the two words of the array. *)
Definition word_of (w : ReplayWindow) (word : Z) : Z :=
  if word =? 0 then bits0 w else bits1 w.

Definition set_word (w : ReplayWindow) (word v : Z) : ReplayWindow :=
  if word =? 0 then mkReplayWindow (high w) v (bits1 w)
  else mkReplayWindow (high w) (bits0 w) v.

Definition would_accept (w : ReplayWindow) (sequence : Z) : bool :=
  if sequence =? 0 then false
  else if high w <? sequence then true
  else
    let offset := high w - sequence in
    if 128 <=? offset then false
    else
      let word := offset / 64 in
      let bit := offset mod 64 in
      Z.land (word_of w word) (shl64 1 bit) =? 0.

(** The [unreachable!] branch of the match is the [None] of the result. *)
Definition shift_left (w : ReplayWindow) (shift : Z) : option ReplayWindow :=
  if shift =? 0 then Some w
  else if shift <? 64 then
    Some (mkReplayWindow (high w) (shl64 (bits0 w) shift)
            (Z.lor (shl64 (bits1 w) shift) (shr64 (bits0 w) (64 - shift))))
  else if shift <? 128 then
    Some (mkReplayWindow (high w) 0 (shl64 (bits0 w) (shift - 64)))
  else None.

(** [None] stands for the panic of [shift_left]. *)
Definition accept (w : ReplayWindow) (sequence : Z) : option (bool * ReplayWindow) :=
  if negb (would_accept w sequence) then Some (false, w)
  else if high w <? sequence then
    let shift := sequence - high w in
    match (if 128 <=? shift then Some (mkReplayWindow (high w) 0 0) else shift_left w shift) with
    | Some shifted =>
        Some (true, mkReplayWindow sequence (Z.lor (bits0 shifted) 1) (bits1 shifted))
    | None => None
    end
  else
    let offset := high w - sequence in
    let word := offset / 64 in
    Some (true, set_word w word (Z.lor (word_of w word) (shl64 1 (offset mod 64)))).

(** The worker feeds the window one sequence after the other. *)
Fixpoint accept_run (w : ReplayWindow) (sequences : list Z) : option (list bool * ReplayWindow) :=
  match sequences with
  | [] => Some ([], w)
  | s :: rest =>
      match accept w s with
      | Some (b, w1) =>
          match accept_run w1 rest with
          | Some (bs, w2) => Some (b :: bs, w2)
          | None => None
          end
      | None => None
      end
  end.

(** ** The abstract specification: the set of sequences accepted so far *)

Record Spec := mkSpec {
  spec_high : Z;
  spec_seen : gset Z;
}.

Definition spec_init : Spec := mkSpec 0 ∅.

Definition spec_accepts (s : Spec) (sequence : Z) : bool :=
  bool_decide (sequence ≠ 0 ∧ sequence ∉ spec_seen s ∧ spec_high s - sequence < 128).

Definition spec_accept (s : Spec) (sequence : Z) : bool * Spec :=
  if spec_accepts s sequence
  then (true, mkSpec (Z.max (spec_high s) sequence) ({[sequence]} ∪ spec_seen s))
  else (false, s).

Fixpoint spec_run (s : Spec) (sequences : list Z) : list bool * Spec :=
  match sequences with
  | [] => ([], s)
  | x :: rest =>
      let '(b, s1) := spec_accept s x in
      let '(bs, s2) := spec_run s1 rest in
      (b :: bs, s2)
  end.

(** The sequences of a run that were accepted, in order. *)
Definition accepted (sequences : list Z) (verdicts : list bool) : list Z :=
  fst <$> filter (λ p, p.2 = true) (zip sequences verdicts).

(** Bit [o] of the 128-bit bitmap: the packet [o] below the high-water mark. *)
Definition bit_at (w : ReplayWindow) (o : Z) : bool :=
  if o <? 64 then Z.testbit (bits0 w) o else Z.testbit (bits1 w) (o - 64).

(** The coupling invariant. *)
Record window_rel (w : ReplayWindow) (s : Spec) : Prop := {
  rel_high : high w = spec_high s;
  rel_high_range : is_u64 (high w);
  rel_bits0 : 0 ≤ bits0 w < 2 ^ 64;
  rel_bits1 : 0 ≤ bits1 w < 2 ^ 64;
  rel_seen_range : ∀ x, x ∈ spec_seen s → 0 < x ≤ spec_high s;
  rel_bits : ∀ o, 0 ≤ o < 128 → bit_at w o = bool_decide (spec_high s - o ∈ spec_seen s);
}.

(** ** Bit lemmas *)

Lemma shl64_range x s : 0 ≤ shl64 x s < 2 ^ 64.
Proof. apply Z.mod_pos_bound. lia. Qed.

Lemma shl64_testbit x s i :
  0 ≤ s → 0 ≤ i < 64 → Z.testbit (shl64 x s) i = Z.testbit x (i - s).
Proof.
  intros. unfold shl64. rewrite Z.mod_pow2_bits_low by lia. apply Z.shiftl_spec. lia.
Qed.

Lemma shr64_testbit x s i : 0 ≤ i → Z.testbit (shr64 x s) i = Z.testbit x (i + s).
Proof. intros. by apply Z.shiftr_spec. Qed.

Lemma testbit_u64_high x i : 0 ≤ x < 2 ^ 64 → 64 ≤ i → Z.testbit x i = false.
Proof.
  intros Hx Hi. rewrite <- (Z.mod_small x (2 ^ 64)) by lia. by apply Z.mod_pow2_bits_high.
Qed.

Lemma lor_u64_range x y :
  0 ≤ x < 2 ^ 64 → 0 ≤ y < 2 ^ 64 → 0 ≤ Z.lor x y < 2 ^ 64.
Proof.
  intros Hx Hy. split; [by apply Z.lor_nonneg; lia|].
  destruct (decide (Z.lor x y = 0)) as [->|Hne]; [lia|].
  assert (0 < Z.lor x y) by (pose proof (proj2 (Z.lor_nonneg x y)); lia).
  apply Z.log2_lt_pow2; [done|]. rewrite Z.log2_lor by lia.
  apply Z.max_lub_lt.
  - destruct (decide (x = 0)) as [->|]; [done|]. apply Z.log2_lt_pow2; lia.
  - destruct (decide (y = 0)) as [->|]; [done|]. apply Z.log2_lt_pow2; lia.
Qed.

Lemma shr64_range x s : 0 ≤ x < 2 ^ 64 → 0 ≤ s → 0 ≤ shr64 x s < 2 ^ 64.
Proof.
  intros Hx Hs. unfold shr64. rewrite Z.shiftr_div_pow2 by done.
  assert (0 < 2 ^ s) by (apply Z.pow_pos_nonneg; lia).
  split; [apply Z.div_pos; lia|]. apply Z.div_lt_upper_bound; [lia|]. nia.
Qed.

Lemma shl64_one_testbit b i : 0 ≤ b < 64 → 0 ≤ i < 64 → Z.testbit (shl64 1 b) i = (i =? b).
Proof.
  intros. rewrite shl64_testbit by lia. destruct (Z.eqb_spec i b) as [->|].
  - by rewrite Z.sub_diag.
  - destruct (Z.ltb_spec i b); [by apply Z.testbit_neg_r; lia|].
    apply Z.bits_above_log2; [lia|]. simpl. lia.
Qed.

(** A one-bit mask picks one bit. *)
Lemma land_one_bit x b :
  0 ≤ x < 2 ^ 64 → 0 ≤ b < 64 → (Z.land x (shl64 1 b) =? 0) = negb (Z.testbit x b).
Proof.
  intros Hx Hb. destruct (Z.testbit x b) eqn:Ht; simpl.
  - apply Z.eqb_neq. intros H0. apply (f_equal (λ z, Z.testbit z b)) in H0.
    rewrite Z.land_spec, shl64_one_testbit, Ht, Z.eqb_refl, Z.bits_0 in H0 by lia. done.
  - apply Z.eqb_eq, Z.bits_inj'. intros i Hi. rewrite Z.land_spec, Z.bits_0.
    destruct (Z.ltb_spec i 64).
    + rewrite shl64_one_testbit by lia. destruct (Z.eqb_spec i b) as [->|]; [by rewrite Ht|].
      by rewrite andb_false_r.
    + by rewrite (testbit_u64_high x) by lia.
Qed.

Lemma div64_cases o : 0 ≤ o < 128 →
  (o < 64 ∧ o / 64 = 0 ∧ o mod 64 = o) ∨ (64 ≤ o ∧ o / 64 = 1 ∧ o mod 64 = o - 64).
Proof. intros. Z.to_euclidean_division_equations. lia. Qed.

(** ** The window operations on the bitmap *)

Lemma would_accept_bit w sequence :
  0 ≤ bits0 w < 2 ^ 64 → 0 ≤ bits1 w < 2 ^ 64 → 0 ≤ sequence ≤ high w →
  high w - sequence < 128 → sequence ≠ 0 →
  would_accept w sequence = negb (bit_at w (high w - sequence)).
Proof.
  intros H0 H1 Hs Ho Hne. unfold would_accept, bit_at, word_of.
  destruct (Z.eqb_spec sequence 0); [done|].
  destruct (Z.ltb_spec (high w) sequence); [lia|].
  destruct (Z.leb_spec 128 (high w - sequence)); [lia|].
  destruct (div64_cases (high w - sequence)) as [(Hlt & -> & ->)|(Hge & -> & ->)]; [lia| |].
  - destruct (Z.ltb_spec (high w - sequence) 64); [|lia]. by apply land_one_bit; lia.
  - destruct (Z.ltb_spec (high w - sequence) 64); [lia|]. by apply land_one_bit; lia.
Qed.

(** Shifting moves every bit [shift] places away from the high-water mark. *)
Lemma shift_left_spec w shift :
  0 ≤ bits0 w < 2 ^ 64 → 0 ≤ bits1 w < 2 ^ 64 → 0 < shift < 128 →
  ∃ w', shift_left w shift = Some w' ∧ high w' = high w ∧
    0 ≤ bits0 w' < 2 ^ 64 ∧ 0 ≤ bits1 w' < 2 ^ 64 ∧
    ∀ o, 0 ≤ o < 128 → bit_at w' o = if o <? shift then false else bit_at w (o - shift).
Proof.
  intros H0 H1 Hs. unfold shift_left.
  destruct (Z.eqb_spec shift 0); [lia|].
  destruct (Z.ltb_spec shift 64); [|destruct (Z.ltb_spec shift 128); [|lia]];
    eexists; (split; [done|]); simpl; (split; [done|]).
  - split; [apply shl64_range|]. split.
    { apply lor_u64_range; [apply shl64_range|apply shr64_range; lia]. }
    intros o Ho. unfold bit_at; simpl.
    destruct (Z.ltb_spec o 64).
    + rewrite shl64_testbit by lia. destruct (Z.ltb_spec o shift).
      * by apply Z.testbit_neg_r; lia.
      * destruct (Z.ltb_spec (o - shift) 64); [done|lia].
    + rewrite Z.lor_spec, shl64_testbit, shr64_testbit by lia.
      destruct (Z.ltb_spec o shift); [lia|].
      destruct (Z.ltb_spec (o - shift) 64).
      * rewrite (Z.testbit_neg_r _ (o - 64 - shift)) by lia. simpl. f_equal. lia.
      * rewrite (testbit_u64_high (bits0 w)) by lia.
        rewrite orb_false_r. f_equal. lia.
  - split; [lia|]. split; [apply shl64_range|].
    intros o Ho. unfold bit_at; simpl.
    destruct (Z.ltb_spec o 64).
    + rewrite Z.bits_0. destruct (Z.ltb_spec o shift); [done|lia].
    + rewrite shl64_testbit by lia. destruct (Z.ltb_spec o shift).
      * by apply Z.testbit_neg_r; lia.
      * destruct (Z.ltb_spec (o - shift) 64); [f_equal; lia|lia].
Qed.

(** Setting the bit of an offset changes that bit only. *)
Lemma set_bit_spec w o :
  0 ≤ bits0 w < 2 ^ 64 → 0 ≤ bits1 w < 2 ^ 64 → 0 ≤ o < 128 →
  let w' := set_word w (o / 64) (Z.lor (word_of w (o / 64)) (shl64 1 (o mod 64))) in
  high w' = high w ∧ 0 ≤ bits0 w' < 2 ^ 64 ∧ 0 ≤ bits1 w' < 2 ^ 64 ∧
  ∀ p, 0 ≤ p < 128 → bit_at w' p = if p =? o then true else bit_at w p.
Proof.
  intros H0 H1 Ho. unfold set_word, word_of.
  destruct (div64_cases o Ho) as [(Hlt & -> & ->)|(Hge & -> & ->)]; simpl;
    (split; [done|]); (split; [|split]);
    try (apply lor_u64_range; [done|apply shl64_range]); try done;
    intros p Hp; unfold bit_at; simpl.
  - destruct (Z.ltb_spec p 64).
    + rewrite Z.lor_spec, shl64_one_testbit by lia.
      destruct (Z.eqb_spec p o); [apply orb_true_r|apply orb_false_r].
    + destruct (Z.eqb_spec p o); [lia|done].
  - destruct (Z.ltb_spec p 64).
    + destruct (Z.eqb_spec p o); [lia|done].
    + rewrite Z.lor_spec, shl64_one_testbit by lia.
      destruct (Z.eqb_spec p o), (Z.eqb_spec (p - 64) (o - 64)); try lia.
      apply orb_false_r.
Qed.

(** ** The refinement *)

Lemma window_rel_default : window_rel ReplayWindow_default spec_init.
Proof.
  constructor; simpl; try done.
  intros o Ho. rewrite bool_decide_eq_false_2 by set_solver.
  unfold bit_at. destruct (o <? 64); apply Z.bits_0.
Qed.

Lemma would_accept_refines w s sequence :
  window_rel w s → is_u64 sequence → would_accept w sequence = spec_accepts s sequence.
Proof.
  intros [Hh Hr H0 H1 Hseen Hbits] [Hs _]. unfold spec_accepts.
  destruct (decide (sequence = 0)) as [->|Hne].
  { by rewrite bool_decide_eq_false_2 by naive_solver. }
  destruct (decide (high w < sequence)).
  { unfold would_accept. destruct (Z.eqb_spec sequence 0); [done|].
    destruct (Z.ltb_spec (high w) sequence); [|lia].
    rewrite bool_decide_eq_true_2; [done|].
    split; [done|]. split; [|lia]. intros Hin%Hseen. lia. }
  destruct (decide (high w - sequence < 128)).
  - rewrite would_accept_bit, Hbits by lia.
    replace (spec_high s - (high w - sequence)) with sequence by lia.
    rewrite <- bool_decide_not. apply bool_decide_ext. rewrite Hh in *. naive_solver.
  - unfold would_accept. destruct (Z.eqb_spec sequence 0); [done|].
    destruct (Z.ltb_spec (high w) sequence); [lia|].
    destruct (Z.leb_spec 128 (high w - sequence)); [|lia].
    by rewrite bool_decide_eq_false_2 by (rewrite <- Hh; lia).
Qed.

(** A sequence above the mark advances the window. *)
Lemma accept_advance w s sequence :
  window_rel w s → is_u64 sequence → high w < sequence →
  ∃ w', accept w sequence = Some (true, w') ∧
    window_rel w' (mkSpec (Z.max (spec_high s) sequence) ({[sequence]} ∪ spec_seen s)).
Proof.
  intros Hrel Hu Hlt. pose proof Hrel as [Hh Hr H0 H1 Hseen Hbits].
  assert (would_accept w sequence = true) as Ha.
  { unfold would_accept. destruct (Z.eqb_spec sequence 0); [destruct Hr; lia|].
    by destruct (Z.ltb_spec (high w) sequence); [|lia]. }
  assert (∃ sh, (if 128 <=? sequence - high w then Some (mkReplayWindow (high w) 0 0)
                 else shift_left w (sequence - high w)) = Some sh ∧
    0 ≤ bits0 sh < 2 ^ 64 ∧ 0 ≤ bits1 sh < 2 ^ 64 ∧
    ∀ o, 0 ≤ o < 128 →
      bit_at sh o = if o <? sequence - high w then false else bit_at w (o - (sequence - high w)))
    as (sh & Hsh & Hb0 & Hb1 & Hbit).
  { destruct (Z.leb_spec 128 (sequence - high w)).
    - eexists; split; [done|]. simpl. split; [lia|]. split; [lia|].
      intros o Ho. destruct (Z.ltb_spec o (sequence - high w)); [|lia].
      unfold bit_at; simpl. destruct (o <? 64); apply Z.bits_0.
    - destruct (shift_left_spec w (sequence - high w)) as (w' & ? & _ & ? & ? & ?); [lia..|].
      eauto. }
  unfold accept. rewrite Ha. simpl. destruct (Z.ltb_spec (high w) sequence); [|lia].
  rewrite Hsh. simpl. eexists; split; [done|].
  constructor; simpl.
  - lia.
  - done.
  - by apply lor_u64_range.
  - done.
  - intros x [->%elem_of_singleton|Hx%Hseen]%elem_of_union; destruct Hr; lia.
  - intros o Ho. rewrite Z.max_r by lia.
    assert (bit_at (mkReplayWindow sequence (Z.lor (bits0 sh) 1) (bits1 sh)) o =
            if o =? 0 then true else bit_at sh o) as ->.
    { unfold bit_at; simpl. destruct (Z.ltb_spec o 64).
      - rewrite Z.lor_spec. destruct (Z.eqb_spec o 0) as [->|].
        + by rewrite orb_true_r.
        + rewrite (Z.bits_above_log2 1) by (simpl; lia). apply orb_false_r.
      - destruct (Z.eqb_spec o 0); [lia|done]. }
    destruct (Z.eqb_spec o 0) as [->|].
    { symmetry. apply bool_decide_eq_true_2. rewrite Z.sub_0_r. set_solver. }
    rewrite Hbit by done. destruct (Z.ltb_spec o (sequence - high w)).
    + symmetry. apply bool_decide_eq_false_2.
      intros [?%elem_of_singleton|Hx%Hseen]%elem_of_union; lia.
    + rewrite Hbits by lia. apply bool_decide_ext.
      replace (spec_high s - (o - (sequence - high w))) with (sequence - o) by lia.
      split; [set_solver|]. intros [?%elem_of_singleton|]%elem_of_union; [lia|done].
Qed.

(** A sequence inside the window sets its bit. *)
Lemma accept_inside w s sequence :
  window_rel w s → is_u64 sequence → sequence ≤ high w → would_accept w sequence = true →
  ∃ w', accept w sequence = Some (true, w') ∧
    window_rel w' (mkSpec (Z.max (spec_high s) sequence) ({[sequence]} ∪ spec_seen s)).
Proof.
  intros Hrel Hu Hle Ha. pose proof Hrel as [Hh Hr H0 H1 Hseen Hbits].
  pose proof Ha as Hsp. rewrite (would_accept_refines w s) in Hsp by done.
  apply bool_decide_eq_true in Hsp as (Hne & Hnin & Hwin).
  unfold accept. rewrite Ha. simpl. destruct (Z.ltb_spec (high w) sequence); [lia|].
  destruct Hu. destruct (set_bit_spec w (high w - sequence)) as (Ehigh & Hb0 & Hb1 & Hbit); [lia..|].
  eexists; split; [done|]. constructor; simpl.
  - rewrite Ehigh. lia.
  - by rewrite Ehigh.
  - done.
  - done.
  - intros x [->%elem_of_singleton|Hx%Hseen]%elem_of_union; lia.
  - intros o Ho. rewrite Hbit by done. rewrite Z.max_l by lia.
    destruct (Z.eqb_spec o (high w - sequence)) as [->|].
    + symmetry. apply bool_decide_eq_true_2. rewrite Hh.
      replace (spec_high s - (spec_high s - sequence)) with sequence by lia. set_solver.
    + rewrite Hbits by done. apply bool_decide_ext.
      split; [set_solver|]. intros [?%elem_of_singleton|]%elem_of_union; [lia|done].
Qed.

(** One step of the window is one step of the specification, and never panics. *)
Lemma accept_refines w s sequence :
  window_rel w s → is_u64 sequence →
  ∃ w', accept w sequence = Some ((spec_accept s sequence).1, w') ∧
        window_rel w' (spec_accept s sequence).2.
Proof.
  intros Hrel Hu. unfold spec_accept.
  rewrite <- (would_accept_refines w s sequence) by done.
  destruct (would_accept w sequence) eqn:Ha; simpl.
  - destruct (decide (high w < sequence)).
    + by apply accept_advance.
    + apply accept_inside; [done..|lia|done].
  - exists w. split; [|done]. unfold accept. by rewrite Ha.
Qed.

Lemma accept_run_refines w s sequences :
  window_rel w s → Forall is_u64 sequences →
  ∃ w', accept_run w sequences = Some ((spec_run s sequences).1, w') ∧
        window_rel w' (spec_run s sequences).2.
Proof.
  intros Hrel Hall. revert w s Hrel. induction Hall as [|x l Hx Hl IH]; intros w s Hrel.
  { by exists w. }
  destruct (accept_refines w s x Hrel Hx) as (w1 & Hacc & Hrel1). simpl. rewrite Hacc. simpl.
  destruct (spec_accept s x) as [b s1]. destruct (IH w1 s1 Hrel1) as (w2 & Hrun & Hrel2).
  rewrite Hrun. simpl. destruct (spec_run s1 l) as [bs s2]. simpl in *. eauto.
Qed.

Lemma accepted_true x l bs : accepted (x :: l) (true :: bs) = x :: accepted l bs.
Proof. reflexivity. Qed.

Lemma accepted_false x l bs : accepted (x :: l) (false :: bs) = accepted l bs.
Proof. reflexivity. Qed.

Lemma spec_run_accepted s sequences :
  NoDup (accepted sequences (spec_run s sequences).1) ∧
  ∀ x, x ∈ accepted sequences (spec_run s sequences).1 → x ∉ spec_seen s ∧ x ≠ 0.
Proof.
  revert s. induction sequences as [|x l IH]; intros s; simpl.
  { split; [constructor|]. intros x Hx. by apply elem_of_nil in Hx. }
  unfold spec_accept. destruct (spec_accepts s x) eqn:Ha; simpl.
  - apply bool_decide_eq_true in Ha as (Hne & Hnin & _).
    specialize (IH (mkSpec (Z.max (spec_high s) x) ({[x]} ∪ spec_seen s))).
    destruct (spec_run _ l) as [bs s2]; simpl in *. rewrite accepted_true.
    destruct IH as [Hnd Hin]. split.
    + constructor; [|done]. intros Hx. apply Hin in Hx as [Hx _]. set_solver.
    + intros y [->|Hy]%elem_of_cons; [done|]. apply Hin in Hy. set_solver.
  - specialize (IH s). destruct (spec_run s l) as [bs s2]; simpl in *.
    by rewrite accepted_false.
Qed.

Lemma spec_run_length s sequences : length (spec_run s sequences).1 = length sequences.
Proof.
  revert s. induction sequences as [|x l IH]; intros s; simpl; [done|].
  destruct (spec_accept s x) as [b s1]. specialize (IH s1).
  destruct (spec_run s1 l). simpl in *. by rewrite IH.
Qed.

Lemma spec_run_high_gen s sequences : 0 ≤ spec_high s →
  spec_high (spec_run s sequences).2 =
  Z.max (spec_high s) (foldr Z.max 0 (accepted sequences (spec_run s sequences).1)).
Proof.
  revert s. induction sequences as [|x l IH]; intros s Hs; simpl.
  { change (accepted [] []) with (@nil Z). simpl. lia. }
  unfold spec_accept. destruct (spec_accepts s x) eqn:Ha; simpl.
  - specialize (IH (mkSpec (Z.max (spec_high s) x) ({[x]} ∪ spec_seen s))).
    destruct (spec_run _ l) as [bs s2]; cbn -[accepted] in *. rewrite accepted_true. simpl. lia.
  - specialize (IH s). destruct (spec_run s l) as [bs s2]; simpl in *.
    rewrite accepted_false. auto.
Qed.

Lemma foldr_max_nonneg l : 0 ≤ foldr Z.max 0 l.
Proof. induction l; simpl; lia. Qed.

(** The high-water mark is the largest accepted sequence. *)
Lemma spec_run_high sequences :
  spec_high (spec_run spec_init sequences).2 =
  foldr Z.max 0 (accepted sequences (spec_run spec_init sequences).1).
Proof.
  rewrite spec_run_high_gen by done. simpl.
  pose proof (foldr_max_nonneg (accepted sequences (spec_run spec_init sequences).1)). lia.
Qed.

(** ** Properties *)

(** C6: on every sequence of [u64] packet numbers the bitmap window of the code
    never reaches the [unreachable!] branch and gives exactly the verdicts of the
    abstract specification, a set of seen sequences with a 128-packet horizon. *)
Theorem replay_window_refines_spec (sequences : list Z) :
  Forall is_u64 sequences →
  ∃ w, accept_run ReplayWindow_default sequences = Some ((spec_run spec_init sequences).1, w) ∧
       high w = foldr Z.max 0 (accepted sequences (spec_run spec_init sequences).1) ∧
       window_rel w (spec_run spec_init sequences).2.
Proof.
  intros Hall.
  destruct (accept_run_refines _ _ sequences window_rel_default Hall) as (w & Hrun & Hrel).
  exists w. split; [done|]. split; [|done]. rewrite (rel_high _ _ Hrel).
  by rewrite spec_run_high by done.
Qed.

Lemma replay_window_refines_spec_witness :
  ∃ w, accept_run ReplayWindow_default [5; 3; 5; 200; 72; 73; 73] =
       Some ([true; true; false; true; false; true; false], w).
Proof.
  destruct (replay_window_refines_spec [5; 3; 5; 200; 72; 73; 73]) as (w & Hrun & _).
  - repeat constructor; vm_compute; congruence.
  - exists w. exact Hrun.
Defined.

(** No packet sequence is ever accepted twice by one window, sequence 0 is
    never accepted, and every accepted sequence was presented. *)
Theorem replay_accepts_at_most_once (sequences : list Z) (verdicts : list bool) (w : ReplayWindow) :
  Forall is_u64 sequences →
  accept_run ReplayWindow_default sequences = Some (verdicts, w) →
  NoDup (accepted sequences verdicts) ∧ 0 ∉ accepted sequences verdicts ∧
  length verdicts = length sequences.
Proof.
  intros Hall Hrun.
  destruct (accept_run_refines _ _ sequences window_rel_default Hall) as (w' & Hrun' & _).
  simplify_eq/=. destruct (spec_run_accepted spec_init sequences) as [Hnd Hin].
  split; [done|]. split; [intros H0; by apply Hin in H0 as [_ ?]|]. apply spec_run_length.
Qed.

Lemma replay_accepts_at_most_once_witness :
  NoDup (accepted [5; 3; 5; 200; 72; 73; 73] [true; true; false; true; false; true; false]).
Proof.
  eapply (replay_accepts_at_most_once [5; 3; 5; 200; 72; 73; 73]).
  - repeat constructor; vm_compute; congruence.
  - vm_compute. reflexivity.
Defined.
