(* ===== verification/Text.v ===== *)
(** Text: Rust's [str] as its UTF-8 bytes, and the standard-library operations
    the program uses on it (decimal parsing and printing, trimming, splitting,
    prefixes), with the hexadecimal digit tables of fixed_ids.rs and
    server_card.rs. *)

From Stdlib Require Ascii String.
From S2P Require Import Prelude.

(** ** Bytes of a string *)

Definition str_bytes (s : string) : byte_list :=
  (λ a, Z.of_N (Ascii.N_of_ascii a)) <$> String.list_ascii_of_string s.

Definition of_bytes (l : byte_list) : string :=
  String.string_of_list_ascii ((λ b, Ascii.ascii_of_N (Z.to_N b)) <$> l).

(** [str::len]: the number of UTF-8 bytes. *)
Definition str_len (s : string) : Z := len (str_bytes s).

(** [str::is_empty]. *)
Definition str_is_empty (s : string) : bool := str_len s =? 0.

(** ** Byte classes *)

Definition in_range (lo hi b : Z) : bool := (lo <=? b) && (b <=? hi).
Definition is_digit (b : Z) : bool := in_range 48 57 b.
Definition is_upper (b : Z) : bool := in_range 65 90 b.
Definition is_lower (b : Z) : bool := in_range 97 122 b.
(** [u8::is_ascii_alphanumeric]. *)
Definition is_alphanumeric (b : Z) : bool := is_upper b || is_lower b || is_digit b.
(** [u8::is_ascii_control]. *)
Definition is_control (b : Z) : bool := (b <=? 31) || (b =? 127).
(** [b'A'..=b'Z' | b'a'..=b'z' | b'0'..=b'9' | b'-' | b'_']. *)
Definition is_base64url (b : Z) : bool := is_alphanumeric b || (b =? 45) || (b =? 95).

(** [u8::to_ascii_lowercase] and [u8::eq_ignore_ascii_case]. *)
Definition to_lower (b : Z) : Z := if is_upper b then b + 32 else b.
Definition to_ascii_lowercase (s : string) : string := of_bytes (to_lower <$> str_bytes s).
Definition eq_ignore_ascii_case (a b : string) : bool :=
  bool_decide (to_lower <$> str_bytes a = to_lower <$> str_bytes b).

(** [.enumerate()] and the first element that fails a test. *)
Fixpoint first_failing (p : Z → bool) (index : Z) (l : byte_list) : option Z :=
  match l with
  | [] => None
  | b :: rest => if p b then first_failing p (index + 1) rest else Some index
  end.

(** ** Decimal integers *)

Fixpoint parse_digits (max acc : Z) (l : byte_list) : option Z :=
  match l with
  | [] => Some acc
  | b :: rest =>
      if negb (is_digit b) then None
      else if max <? acc * 10 then None
      else if max <? acc * 10 + (b - 48) then None
      else parse_digits max (acc * 10 + (b - 48)) rest
  end.

(** [str::parse] for an unsigned integer type whose largest value is [max]. *)
Definition parse_unsigned (max : Z) (l : byte_list) : option Z :=
  match l with
  | [] => None
  | [b] => if (b =? 43) || (b =? 45) then None else parse_digits max 0 l
  | b :: rest => if b =? 43 then parse_digits max 0 rest else parse_digits max 0 l
  end.

Definition parse_u64 (s : string) : option Z := parse_unsigned u64_max (str_bytes s).
Definition parse_u8 (s : string) : option Z := parse_unsigned u8_max (str_bytes s).

(** [str::parse::<i64>]: a minus sign is accepted, down to [i64::MIN]. *)
Definition parse_i64 (s : string) : option Z :=
  match str_bytes s with
  | 45 :: (_ :: _) as rest => Z.opp <$> parse_digits (i64_max + 1) 0 (tail rest)
  | l => parse_unsigned i64_max l
  end.

(** [Display] of an unsigned integer: [fuel] digits are enough below [10 ^ fuel]. *)
Fixpoint digits_of (fuel : nat) (z : Z) : byte_list :=
  match fuel with
  | O => []
  | S f => if z <? 10 then [48 + z] else digits_of f (z / 10) ++ [48 + z mod 10]
  end.

(** Twenty digits hold every [u64]. *)
Definition display_u64 (z : Z) : string := of_bytes (digits_of 20 z).

(** [Display] of a signed integer. *)
Definition display_i64 (z : Z) : string :=
  if z <? 0 then ("-" +:+ display_u64 (- z))%string else display_u64 z.

(** ** Hexadecimal digits *)

(** [lower_hex_value] of fixed_ids.rs. *)
Definition lower_hex_value (b : Z) : option Z :=
  if is_digit b then Some (b - 48)
  else if in_range 97 102 b then Some (b - 97 + 10)
  else None.

(** [HEX\[v\]] of fixed_ids.rs. *)
Definition HEX (v : Z) : Z := if v <? 10 then 48 + v else 97 + (v - 10).

(** [HEX\[byte >> 4\]], [HEX\[byte & 0x0f\]] for every byte. *)
Definition encode_hex (bytes : byte_list) : byte_list :=
  bytes ≫= λ b, [HEX (Z.shiftr b 4); HEX (Z.land b 15)].

(** The loop over [chunks_exact(2)]: the value, or the index of the first
    character that is not a lower-case hex digit. *)
Fixpoint decode_hex (index : Z) (l : byte_list) : result Z byte_list :=
  match l with
  | h :: lo :: rest =>
      let? high := ok_or (index * 2) (lower_hex_value h) in
      let? low := ok_or (index * 2 + 1) (lower_hex_value lo) in
      let? tail := decode_hex (index + 1) rest in
      Ok (Z.lor (Z.shiftl high 4) low :: tail)
  | _ => Ok []
  end.

(** ** Prefixes, suffixes, splitting *)

Fixpoint strip_prefix (p l : byte_list) : option byte_list :=
  match p, l with
  | [], _ => Some l
  | a :: p', b :: l' => if a =? b then strip_prefix p' l' else None
  | _ :: _, [] => None
  end.

Definition strip_suffix (p l : byte_list) : option byte_list :=
  reverse <$> strip_prefix (reverse p) (reverse l).

Definition starts_with (p l : byte_list) : bool :=
  match strip_prefix p l with Some _ => true | None => false end.

Definition contains_byte (c : Z) (l : byte_list) : bool := existsb (Z.eqb c) l.

(** [str::split(c)]: the pieces between separators, empty ones included. *)
Fixpoint split_on (c : Z) (l : byte_list) : list byte_list :=
  match l with
  | [] => [[]]
  | b :: rest =>
      if b =? c then [] :: split_on c rest
      else match split_on c rest with
           | piece :: pieces => (b :: piece) :: pieces
           | [] => [[b]]
           end
  end.

(** ** White space *)

(** The UTF-8 encodings of the characters [char::is_whitespace] accepts. *)
Definition whitespace_utf8 : list byte_list :=
  [[9]; [10]; [11]; [12]; [13]; [32]; [194; 133]; [194; 160]; [225; 154; 128];
   [226; 128; 128]; [226; 128; 129]; [226; 128; 130]; [226; 128; 131]; [226; 128; 132];
   [226; 128; 133]; [226; 128; 134]; [226; 128; 135]; [226; 128; 136]; [226; 128; 137];
   [226; 128; 138]; [226; 128; 168]; [226; 128; 169]; [226; 128; 175]; [226; 129; 159];
   [227; 128; 128]].

(** A white-space character at the front, and what follows it. *)
Fixpoint strip_any (patterns : list byte_list) (l : byte_list) : option byte_list :=
  match patterns with
  | [] => None
  | p :: rest =>
      match strip_prefix p l with
      | Some l' => Some l'
      | None => strip_any rest l
      end
  end.

(** The fuel is the length: every step removes at least one byte. *)
Fixpoint trim_front (fuel : nat) (patterns : list byte_list) (l : byte_list) : byte_list :=
  match fuel with
  | O => l
  | S f =>
      match strip_any patterns l with
      | Some l' => trim_front f patterns l'
      | None => l
      end
  end.

Definition trim_start (l : byte_list) : byte_list :=
  trim_front (length l) whitespace_utf8 l.

(** UTF-8 is self-synchronising, so the last character is found by matching
    the reversed encodings from the end. *)
Definition trim_end (l : byte_list) : byte_list :=
  reverse (trim_front (length l) (reverse <$> whitespace_utf8) (reverse l)).

(** [str::trim]. *)
Definition trim (l : byte_list) : byte_list := trim_end (trim_start l).

(** [str::trim().is_empty()]. *)
Definition is_blank (s : string) : bool := len (trim (str_bytes s)) =? 0.

(** [chars().any(char::is_whitespace)]. *)
Fixpoint has_whitespace (l : byte_list) : bool :=
  match l with
  | [] => false
  | _ :: rest =>
      match strip_any whitespace_utf8 l with
      | Some _ => true
      | None => has_whitespace rest
      end
  end.

Arguments str_bytes : simpl never.
Arguments of_bytes : simpl never.

(** ** Lemmas: bytes of a string *)

Lemma of_str_bytes s : of_bytes (str_bytes s) = s.
Proof.
  unfold of_bytes, str_bytes. rewrite <- list_fmap_compose.
  rewrite (list_fmap_ext _ id).
  - rewrite list_fmap_id. apply String.string_of_list_ascii_of_string.
  - intros _ a _. simpl. by rewrite N2Z.id, Ascii.ascii_N_embedding.
Qed.

Lemma str_of_bytes l : bytes_ok l → str_bytes (of_bytes l) = l.
Proof.
  intros Hl. unfold of_bytes, str_bytes.
  rewrite String.list_ascii_of_string_of_list_ascii.
  induction Hl as [|b l Hb Hl IH]; [done|]. csimpl. rewrite IH. f_equal.
  rewrite Ascii.N_ascii_embedding by lia. lia.
Qed.

Lemma str_bytes_ok s : bytes_ok (str_bytes s).
Proof.
  apply Forall_fmap, Forall_true. intros a. simpl.
  pose proof (Ascii.N_ascii_bounded a). lia.
Qed.

#[global] Instance str_bytes_inj : Inj (=) (=) str_bytes.
Proof. intros s t Heq. by rewrite <- (of_str_bytes s), Heq, of_str_bytes. Qed.

Lemma str_bytes_app a b : str_bytes (a +:+ b) = str_bytes a ++ str_bytes b.
Proof. unfold str_bytes. induction a as [|c a IH]; [done|]. csimpl. by rewrite IH. Qed.

Lemma strip_prefix_app p l : strip_prefix p (p ++ l) = Some l.
Proof. induction p as [|b p IH]; simpl; [by destruct l|]. by rewrite Z.eqb_refl. Qed.

Lemma strip_suffix_app p l : strip_suffix p (l ++ p) = Some l.
Proof.
  unfold strip_suffix. rewrite reverse_app, strip_prefix_app. simpl. by rewrite reverse_involutive.
Qed.

Lemma first_failing_none p i l : first_failing p i l = None ↔ Forall (λ b, p b = true) l.
Proof.
  revert i. induction l as [|b l IH]; intros i; simpl; [by split|].
  destruct (p b) eqn:Hb.
  - rewrite IH. split; [by constructor|by inversion 1].
  - split; [done|inversion 1; congruence].
Qed.

Lemma first_failing_some p i l n : first_failing p i l = Some n ↔
  ∃ pre b post, l = pre ++ b :: post ∧ n = i + len pre ∧
    Forall (λ b, p b = true) pre ∧ p b = false.
Proof.
  revert i. induction l as [|b l IH]; intros i; simpl.
  { split; [done|]. intros (pre & ? & ? & Heq & _). by destruct pre. }
  destruct (p b) eqn:Hb.
  - rewrite IH. split.
    + intros (pre & c & post & -> & -> & ? & ?). exists (b :: pre), c, post.
      split_and!; [done|rewrite len_cons; lia|by constructor|done].
    + intros (pre & c & post & Heq & -> & Hpre & ?). destruct pre as [|b' pre]; simplify_eq/=; [congruence|].
      exists pre, c, post. apply Forall_cons in Hpre as [_ ?].
      split_and!; [done|rewrite len_cons; lia|done|done].
  - split.
    + intros [= <-]. exists [], b, l. split_and!; [done|unfold len; simpl; lia|constructor|done].
    + intros (pre & c & post & Heq & -> & Hpre & ?). destruct pre as [|b' pre]; simplify_eq/=.
      { by rewrite Z.add_0_r. }
      apply Forall_cons in Hpre as [? _]. congruence.
Qed.

(** ** Lemmas: decimal *)

Lemma is_digit_spec b : is_digit b = true ↔ 48 ≤ b ≤ 57.
Proof. unfold is_digit, in_range. rewrite andb_true_iff, !Z.leb_le. lia. Qed.

Lemma digits_of_ok fuel z : 0 ≤ z → Forall (λ b, 48 ≤ b ≤ 57) (digits_of fuel z).
Proof.
  revert z. induction fuel as [|f IH]; intros z Hz; simpl; [constructor|].
  destruct (Z.ltb_spec z 10); [repeat constructor; lia|].
  apply Forall_app. split; [apply IH; by apply Z.div_pos|].
  repeat constructor; pose proof (Z.mod_pos_bound z 10); lia.
Qed.

Lemma parse_digits_app max acc l b :
  parse_digits max acc (l ++ [b]) =
  (parse_digits max acc l) ≫= λ a, parse_digits max a [b].
Proof.
  revert acc. induction l as [|x l IH]; intros acc; [done|].
  cbn [app parse_digits]. destruct (is_digit x); cbn [negb]; [|done].
  destruct (max <? acc * 10); [done|]. destruct (max <? acc * 10 + (x - 48)); [done|].
  apply IH.
Qed.

Lemma parse_digits_of fuel max z :
  0 ≤ z ≤ max → z < 10 ^ Z.of_nat fuel → parse_digits max 0 (digits_of fuel z) = Some z.
Proof.
  revert z. induction fuel as [|f IH]; intros z Hz Hf; [simpl in *; f_equal; lia|].
  assert (∀ a b, 0 ≤ a → 0 ≤ b < 10 → a * 10 + b ≤ max →
    parse_digits max a [48 + b] = Some (a * 10 + b)) as Hone.
  { intros a b Ha Hb Hm. simpl. rewrite (proj2 (is_digit_spec (48 + b))) by lia. simpl.
    destruct (Z.ltb_spec max (a * 10)); [lia|].
    destruct (Z.ltb_spec max (a * 10 + (48 + b - 48))); [lia|]. f_equal. lia. }
  simpl digits_of. destruct (Z.ltb_spec z 10); [by apply (Hone 0); lia|].
  rewrite Nat2Z.inj_succ, Z.pow_succ_r in Hf by lia.
  assert (0 ≤ z / 10 ∧ 0 ≤ z mod 10 < 10 ∧ z / 10 * 10 + z mod 10 = z) as (Hq & Hr & Hz')
    by (Z.to_euclidean_division_equations; lia).
  rewrite parse_digits_app, IH by (Z.to_euclidean_division_equations; lia).
  cbn [mbind option_bind]. rewrite Hone by lia. by f_equal.
Qed.

Lemma digits_of_cons fuel z : 0 ≤ z → (0 < fuel)%nat →
  ∃ b l, digits_of fuel z = b :: l ∧ 48 ≤ b ≤ 57.
Proof.
  intros Hz Hf. pose proof (digits_of_ok fuel z Hz) as Hall.
  destruct (digits_of fuel z) as [|b l] eqn:Heq.
  - destruct fuel; simpl in Heq; [lia|]. case_match; [done|]. by apply app_nil in Heq as [? ?].
  - exists b, l. split; [done|]. by apply Forall_cons in Hall as [? _].
Qed.

(** A sign is only recognised in front of the digits of a printed integer. *)
Lemma parse_unsigned_digits max b l :
  48 ≤ b → parse_unsigned max (b :: l) = parse_digits max 0 (b :: l).
Proof.
  intros Hb. unfold parse_unsigned. destruct l as [|c l].
  - destruct (Z.eqb_spec b 43), (Z.eqb_spec b 45); simpl; [lia..|done].
  - destruct (Z.eqb_spec b 43); [lia|done].
Qed.

Lemma digits_bytes_ok l : Forall (λ b, 48 ≤ b ≤ 57) l → bytes_ok l.
Proof. intros H. eapply Forall_impl; [exact H|]. simpl. lia. Qed.

Lemma parse_display_u64 z : is_u64 z → parse_u64 (display_u64 z) = Some z.
Proof.
  intros [H0 Hm]. unfold parse_u64, display_u64.
  pose proof (digits_of_ok 20 z H0) as Hok.
  rewrite str_of_bytes by by apply digits_bytes_ok.
  destruct (digits_of_cons 20 z) as (b & l & Heq & Hb); [lia..|].
  rewrite Heq, parse_unsigned_digits, <- Heq by lia.
  apply parse_digits_of; [done|]. unfold u64_max in Hm. lia.
Qed.

Lemma parse_digits_range max acc l z :
  0 ≤ acc ≤ max → parse_digits max acc l = Some z → 0 ≤ z ≤ max.
Proof.
  revert acc. induction l as [|b l IH]; intros acc Ha; simpl; [congruence|].
  destruct (is_digit b) eqn:Hd; simpl; [|done]. apply is_digit_spec in Hd.
  destruct (Z.ltb_spec max (acc * 10)); [done|].
  destruct (Z.ltb_spec max (acc * 10 + (b - 48))); [done|]. apply IH. lia.
Qed.

Lemma parse_u64_range s z : parse_u64 s = Some z → is_u64 z.
Proof.
  unfold parse_u64, parse_unsigned, is_u64. intros H.
  repeat case_match; try done; by eapply (parse_digits_range u64_max 0).
Qed.

Lemma display_u64_inj x y : is_u64 x → is_u64 y → display_u64 x = display_u64 y → x = y.
Proof.
  intros Hx Hy Heq. apply (f_equal parse_u64) in Heq.
  rewrite !parse_display_u64 in Heq by done. congruence.
Qed.

(** ** Lemmas: hexadecimal *)

Lemma lower_hex_HEX v : 0 ≤ v < 16 → lower_hex_value (HEX v) = Some v.
Proof.
  intros Hv. unfold lower_hex_value, HEX, is_digit, in_range.
  destruct (Z.ltb_spec v 10).
  - destruct (Z.leb_spec 48 (48 + v)), (Z.leb_spec (48 + v) 57); simpl; try lia. f_equal. lia.
  - destruct (Z.leb_spec 48 (97 + (v - 10))), (Z.leb_spec (97 + (v - 10)) 57); simpl; try lia.
    destruct (Z.leb_spec 97 (97 + (v - 10))), (Z.leb_spec (97 + (v - 10)) 102); simpl; try lia.
    f_equal. lia.
Qed.

Lemma HEX_lower_hex b v : lower_hex_value b = Some v → HEX v = b ∧ 0 ≤ v < 16.
Proof.
  unfold lower_hex_value, HEX, is_digit, in_range. intros H.
  repeat case_match; simplify_eq; to_props; lia.
Qed.

Lemma lor_nibbles h l : 0 ≤ h → 0 ≤ l < 16 → Z.lor (Z.shiftl h 4) l = 16 * h + l.
Proof.
  intros Hh Hl. rewrite Z.shiftl_mul_pow2 by lia.
  pose proof (Z.add_lor_land (h * 2 ^ 4) l).
  enough (Z.land (h * 2 ^ 4) l = 0) by lia.
  apply Z.bits_inj'. intros i Hi. rewrite Z.land_spec, Z.bits_0, Z.mul_pow2_bits by lia.
  destruct (Z.ltb_spec i 4); [by rewrite Z.testbit_neg_r by lia|].
  rewrite (Z.bits_above_log2 l); [by rewrite andb_false_r|lia|].
  destruct (decide (l = 0)) as [->|]; [simpl; lia|].
  apply Z.log2_lt_pow2; [lia|].
  apply (Z.lt_le_trans _ (2 ^ 4)); [lia|]. by apply Z.pow_le_mono_r.
Qed.

Lemma nibble_div b : Z.shiftr b 4 = b / 16 ∧ Z.land b 15 = b mod 16.
Proof.
  change 15 with (Z.ones 4). by rewrite Z.land_ones, Z.shiftr_div_pow2 by lia.
Qed.

Lemma nibbles b : 0 ≤ b < 256 →
  0 ≤ Z.shiftr b 4 < 16 ∧ 0 ≤ Z.land b 15 < 16 ∧
  Z.lor (Z.shiftl (Z.shiftr b 4) 4) (Z.land b 15) = b.
Proof.
  intros Hb. destruct (nibble_div b) as [-> ->].
  assert (0 ≤ b / 16 < 16 ∧ 0 ≤ b mod 16 < 16 ∧ 16 * (b / 16) + b mod 16 = b) as (? & ? & ?)
    by (Z.to_euclidean_division_equations; lia).
  by rewrite lor_nibbles by lia.
Qed.

Lemma join_nibbles h l : 0 ≤ h < 16 → 0 ≤ l < 16 →
  let b := Z.lor (Z.shiftl h 4) l in
  0 ≤ b < 256 ∧ Z.shiftr b 4 = h ∧ Z.land b 15 = l.
Proof.
  intros Hh Hl. simpl. rewrite lor_nibbles by lia.
  destruct (nibble_div (16 * h + l)) as [-> ->].
  split_and!; Z.to_euclidean_division_equations; lia.
Qed.

Lemma length_encode_hex l : length (encode_hex l) = (2 * length l)%nat.
Proof. unfold encode_hex. induction l; csimpl; lia. Qed.

Lemma HEX_byte v : 0 ≤ v < 16 → 0 ≤ HEX v < 256.
Proof. intros. unfold HEX. destruct (v <? 10); lia. Qed.

Lemma encode_hex_ok l : bytes_ok l → bytes_ok (encode_hex l).
Proof.
  induction 1 as [|b l Hb Hl IH]; unfold encode_hex in *; csimpl; [constructor|].
  destruct (nibbles b Hb) as (? & ? & _). repeat constructor; try by apply HEX_byte.
  exact IH.
Qed.

Lemma decode_encode_hex i l : bytes_ok l → decode_hex i (encode_hex l) = Ok l.
Proof.
  intros Hl. revert i. induction Hl as [|b l Hb Hl IH]; intros i; [done|].
  destruct (nibbles b Hb) as (Hh & Hlo & Hj). unfold encode_hex. csimpl.
  rewrite !lower_hex_HEX by done. simpl. fold (encode_hex l). rewrite IH. simpl. by rewrite Hj.
Qed.

(** Decoding accepts canonical text only: it is the encoding of what it returns. *)
Lemma encode_decode_hex n i l bytes :
  length l = (2 * n)%nat → decode_hex i l = Ok bytes →
  encode_hex bytes = l ∧ length bytes = n ∧ bytes_ok bytes.
Proof.
  revert i l bytes. induction n as [|n IH]; intros i l bytes Hlen.
  { destruct l; [|done]. simpl. intros [= <-]. by split_and!; [..|constructor]. }
  destruct l as [|h [|lo l]]; simpl in Hlen; try lia. simpl. intros H.
  apply result_bind_ok in H as (hv & Hh%ok_or_ok%HEX_lower_hex & H).
  apply result_bind_ok in H as (lv & Hlo%ok_or_ok%HEX_lower_hex & H).
  apply result_bind_ok in H as (rest & Hr & [= <-]).
  destruct (IH (i + 1) l rest) as (IHe & IHl & IHok); [lia|done|].
  destruct (join_nibbles hv lv) as (Hb & Hs & Hland); [tauto..|].
  unfold encode_hex in *. csimpl. rewrite Hs, Hland, IHe.
  destruct Hh as [-> _], Hlo as [-> _]. split_and!; [done|lia|by constructor].
Qed.
