(* ===== verification/Types.v ===== *)
(** Identifiers and the shared data model (crates/zephyrvox-types/src): ids.rs,
    fixed_ids.rs, opaque.rs, errors.rs, media.rs, metadata.rs and state.rs.

    A newtype whose constructor is private is the type it wraps, together with
    the predicate ([Snowflake.ok], [Cursor.ok], ...) that its constructors
    establish. *)

From S2P Require Import Prelude Text.

(** ** Errors *)

Inductive IdError :=
| ZeroSnowflake
| SnowflakeOutOfRange (value : Z)
| NegativeSnowflake
| InvalidDecimal (text : string)
| InvalidHexLength (expected actual : Z)
| InvalidHexCharacter (index : Z)
| ZeroIdentifier
| EmptyCursor
| CursorTooLong (max actual : Z)
| InvalidCursorCharacter (index : Z)
| EmptyEtag.

#[global] Instance IdError_eq_dec : EqDecision IdError.
Proof. solve_decision. Defined.

(** The [#[error]] texts of errors.rs. *)
Definition display_id_error (e : IdError) : string :=
  (match e with
   | ZeroSnowflake => "snowflake must be greater than zero"
   | SnowflakeOutOfRange value => "snowflake " +:+ display_u64 value +:+ " exceeds the signed 63-bit range"
   | NegativeSnowflake => "snowflake must not be negative"
   | InvalidDecimal text => "invalid decimal identifier: " +:+ text
   | InvalidHexLength expected actual =>
       "hex value must contain " +:+ display_u64 expected +:+ " characters, got " +:+ display_u64 actual
   | InvalidHexCharacter index =>
       "hex value contains an invalid character at index " +:+ display_u64 index
   | ZeroIdentifier => "identifier must not be all zero"
   | EmptyCursor => "cursor must not be empty"
   | CursorTooLong max actual =>
       "cursor must contain at most " +:+ display_u64 max +:+ " characters, got " +:+ display_u64 actual
   | InvalidCursorCharacter index =>
       "cursor contains an invalid character at index " +:+ display_u64 index
   | EmptyEtag => "ETag must not be empty"
   end)%string.

(** What a self-describing deserializer hands to a visitor. *)
Inductive Token :=
| TStr (s : string)
| TU64 (z : Z)
| TI64 (z : Z)
| TF64
| TOther.

(** [de::Error::custom] of an identifier error or of a fixed message. *)
Inductive DeError :=
| CustomId (e : IdError)
| CustomText (s : string)
| InvalidType.

(** ** ids.rs *)

Module Snowflake.
Definition MAX_SNOWFLAKE : Z := i64_max.

Definition new (value : Z) : result IdError Z :=
  if value =? 0 then Err ZeroSnowflake
  else if MAX_SNOWFLAKE <? value then Err (SnowflakeOutOfRange value)
  else Ok value.

Definition fmt (id : Z) : string := display_u64 id.

Definition from_str (value : string) : result IdError Z :=
  match parse_u64 value with
  | Some number => new number
  | None =>
      match parse_i64 value with
      | Some number => if number <? 0 then Err NegativeSnowflake else Err (InvalidDecimal value)
      | None => Err (InvalidDecimal value)
      end
  end.

Definition serialize (id : Z) : Token := TStr (fmt id).

Definition visit_str (value : string) : result DeError Z := map_err CustomId (from_str value).

Definition visit_u64 (value : Z) : result DeError Z := map_err CustomId (new value).

Definition visit_i64 (value : Z) : result DeError Z :=
  if value <? 0 then Err (CustomId NegativeSnowflake)
  else if value =? 0 then Err (CustomId ZeroSnowflake)
  else map_err CustomId (new value).

Definition visit_f64 : result DeError Z :=
  Err (CustomText "floating-point Snowflakes are not accepted").

(** [deserialize_any]: the visitor methods the type does not define are
    serde's, which reject the value. *)
Definition deserialize (t : Token) : result DeError Z :=
  match t with
  | TStr s => visit_str s
  | TU64 z => visit_u64 z
  | TI64 z => visit_i64 z
  | TF64 => visit_f64
  | TOther => Err InvalidType
  end.

Definition ok (id : Z) : Prop := 0 < id ≤ i64_max.
End Snowflake.

Module Geid.
Definition new (value : Z) : Z := value.
Definition get (id : Z) : Z := id.
Definition fmt (id : Z) : string := display_u64 id.

Definition from_str (value : string) : result IdError Z :=
  match parse_u64 value with
  | Some z => Ok z
  | None => Err (InvalidDecimal value)
  end.

Definition serialize (id : Z) : Token := TStr (fmt id).

Definition visit_i64 (value : Z) : result DeError Z :=
  if value <? 0 then Err (CustomText "negative GEIDs are not accepted") else Ok (new value).

Definition deserialize (t : Token) : result DeError Z :=
  match t with
  | TStr s => map_err CustomId (from_str s)
  | TU64 z => Ok (new z)
  | TI64 z => visit_i64 z
  | TF64 => Err (CustomText "floating-point GEIDs are not accepted")
  | TOther => Err InvalidType
  end.
End Geid.

Module Cursor.
Definition MAX_LENGTH : Z := 256.

Definition new (value : string) : result IdError string :=
  if str_is_empty value then Err EmptyCursor
  else if MAX_LENGTH <? str_len value then Err (CursorTooLong MAX_LENGTH (str_len value))
  else match first_failing is_base64url 0 (str_bytes value) with
       | Some index => Err (InvalidCursorCharacter index)
       | None => Ok value
       end.

Definition from_str (value : string) : result IdError string := new value.

Definition serialize (c : string) : Token := TStr c.

Definition deserialize (t : Token) : result DeError string :=
  match t with
  | TStr s => map_err CustomId (new s)
  | _ => Err InvalidType
  end.

Definition ok (c : string) : Prop :=
  0 < str_len c ≤ 256 ∧ Forall (λ b, is_base64url b = true) (str_bytes c).
End Cursor.

Record Checkpoint := mkCheckpoint {
  Checkpoint_stream_epoch : byte_list;
  Checkpoint_geid : Z;
}.

Module StreamTypeId.
Definition new (value : Z) : Z := value.
Definition get (s : Z) : Z := s.
Definition is_heartbeat (s : Z) : bool := s =? 0.
End StreamTypeId.

(** ** fixed_ids.rs: the three types the macro [fixed_id!] declares share this code *)

Module FixedId.
Definition decode_hex_16 (value : string) : result IdError byte_list :=
  if negb (str_len value =? 32) then Err (InvalidHexLength 32 (str_len value))
  else map_err InvalidHexCharacter (decode_hex 0 (str_bytes value)).

Definition encode_hex_16 (value : byte_list) : string := of_bytes (encode_hex value).

Definition from_bytes (value : byte_list) : result IdError byte_list :=
  if bool_decide (value = replicate 16 0) then Err ZeroIdentifier else Ok value.

Definition to_hex (id : byte_list) : string := encode_hex_16 id.

Definition parse_hex (value : string) : result IdError byte_list :=
  let? bytes := decode_hex_16 value in
  from_bytes bytes.

Definition serialize (id : byte_list) : Token := TStr (to_hex id).

Definition deserialize (t : Token) : result DeError byte_list :=
  match t with
  | TStr s => map_err CustomId (parse_hex s)
  | _ => Err InvalidType
  end.

(** Sixteen bytes, not all zero. *)
Definition ok (id : byte_list) : Prop :=
  length id = 16%nat ∧ bytes_ok id ∧ id ≠ replicate 16 0.
End FixedId.

Abbreviation SessionId := byte_list (only parsing).
Abbreviation ControlConnectionId := byte_list (only parsing).
Abbreviation StreamEpoch := byte_list (only parsing).
Abbreviation VoiceSessionId := byte_list (only parsing).

(** ** opaque.rs *)

Module Etag.
Definition new (value : string) : result IdError string :=
  if str_is_empty value then Err EmptyEtag else Ok value.

Definition serialize (e : string) : Token := TStr e.

Definition deserialize (t : Token) : result DeError string :=
  match t with
  | TStr s => map_err CustomId (new s)
  | _ => Err InvalidType
  end.
End Etag.

(** ** media.rs and metadata.rs *)

Record OutboundMedia := mkOutboundMedia {
  OutboundMedia_stream_type : Z;
  OutboundMedia_payload : byte_list;
}.

Record InboundMedia := mkInboundMedia {
  speaker_id : Z;
  stream_type : Z;
  channel_seq : Z;
  transport_seq : Z;
  payload : byte_list;
}.

Record VoiceEndpoint := mkVoiceEndpoint {
  VoiceEndpoint_host : string;
  VoiceEndpoint_port : Z;
}.

Record CodecCapability := mkCodecCapability {
  CodecCapability_name : string;
  clock_rate : Z;
  channels : Z;
  ptime : list Z;
}.

Record VoiceStreamType := mkVoiceStreamType {
  VoiceStreamType_id : Z;
  VoiceStreamType_name : string;
  mute_kind : string;
}.

Record Metadata := mkMetadata {
  protocol_version : Z;
  voice_endpoint : VoiceEndpoint;
  codecs : list CodecCapability;
  voice_stream_types : list VoiceStreamType;
  features : list string;
}.

(** ** Lemmas *)

Lemma snowflake_new_ok value id : is_u64 value →
  Snowflake.new value = Ok id → id = value ∧ Snowflake.ok id.
Proof.
  unfold Snowflake.new, Snowflake.ok, Snowflake.MAX_SNOWFLAKE, is_u64. intros Hv H.
  repeat case_match; simplify_eq; to_props; lia.
Qed.

Lemma snowflake_new_total value : Snowflake.ok value → Snowflake.new value = Ok value.
Proof.
  unfold Snowflake.new, Snowflake.ok, Snowflake.MAX_SNOWFLAKE. intros H.
  repeat case_match; to_props; lia || done.
Qed.

Lemma snowflake_is_u64 id : Snowflake.ok id → is_u64 id.
Proof. unfold Snowflake.ok, is_u64, i64_max, u64_max. lia. Qed.

Lemma snowflake_from_str_ok s id : Snowflake.from_str s = Ok id → Snowflake.ok id.
Proof.
  unfold Snowflake.from_str. intros H. destruct (parse_u64 s) eqn:Hp.
  - apply parse_u64_range in Hp. by eapply snowflake_new_ok.
  - by repeat case_match.
Qed.

(** The tokens a deserializer can produce carry integers of their width. *)
Definition token_ok (t : Token) : Prop :=
  match t with
  | TU64 z => is_u64 z
  | TI64 z => - 2 ^ 63 ≤ z ≤ i64_max
  | _ => True
  end.

Lemma fixed_to_hex_bytes id : bytes_ok id →
  str_bytes (FixedId.to_hex id) = encode_hex id.
Proof. intros. by apply str_of_bytes, encode_hex_ok. Qed.

Lemma fixed_parse_to_hex id : FixedId.ok id → FixedId.parse_hex (FixedId.to_hex id) = Ok id.
Proof.
  intros (Hlen & Hok & Hnz). unfold FixedId.parse_hex, FixedId.decode_hex_16, str_len.
  rewrite fixed_to_hex_bytes by done. unfold len. rewrite length_encode_hex, Hlen. simpl.
  rewrite decode_encode_hex by done. simpl. unfold FixedId.from_bytes.
  by rewrite bool_decide_eq_false_2.
Qed.

Lemma fixed_parse_hex_ok s id :
  FixedId.parse_hex s = Ok id → FixedId.ok id ∧ FixedId.to_hex id = s.
Proof.
  unfold FixedId.parse_hex, FixedId.decode_hex_16, FixedId.from_bytes. intros H.
  destruct (Z.eqb_spec (str_len s) 32) as [Hl|]; simpl in H; [|done].
  apply result_bind_ok in H as (bytes & Hd%map_err_ok & Hz).
  case_bool_decide; simplify_eq.
  apply (encode_decode_hex 16) in Hd as (He & Hlen & Hok).
  - split; [by split_and!|]. unfold FixedId.to_hex, FixedId.encode_hex_16.
    by rewrite He, of_str_bytes.
  - unfold str_len, len in Hl. lia.
Qed.

Lemma cursor_new_ok s c : Cursor.new s = Ok c ↔ c = s ∧ Cursor.ok s.
Proof.
  unfold Cursor.new, Cursor.ok, str_is_empty, Cursor.MAX_LENGTH.
  pose proof (len_nonneg (str_bytes s)).
  destruct (first_failing is_base64url 0 (str_bytes s)) eqn:Hf.
  - apply first_failing_some in Hf as (pre & b & post & Heq & _ & _ & Hb).
    split; [intros; by repeat case_match|].
    intros (_ & _ & Hall). rewrite Heq in Hall.
    apply Forall_app in Hall as [_ [? _]%Forall_cons]. congruence.
  - apply first_failing_none in Hf.
    unfold str_len in *. repeat case_match; to_props; naive_solver lia.
Qed.

(** ** Properties *)

(** A Snowflake that comes out of deserialization is in the server's positive
    63-bit range, and every Snowflake of that range survives serialization to
    its decimal string. *)
Theorem snowflake_roundtrip (t : Token) (id : Z) :
  token_ok t →
  (Snowflake.deserialize t = Ok id → Snowflake.ok id) ∧
  (Snowflake.ok id → Snowflake.deserialize (Snowflake.serialize id) = Ok id).
Proof.
  intros Ht. split.
  - destruct t as [s|z|z| |]; simpl; try done.
    + intros H%map_err_ok. by eapply snowflake_from_str_ok.
    + intros H%map_err_ok. by eapply snowflake_new_ok.
    + unfold Snowflake.visit_i64. intros H. repeat case_match; try done. to_props.
      apply map_err_ok, snowflake_new_ok in H as [_ ?]; [done|].
      simpl in Ht. unfold is_u64, i64_max, u64_max in *. lia.
  - intros Hid. unfold Snowflake.serialize, Snowflake.fmt. simpl.
    unfold Snowflake.visit_str, Snowflake.from_str.
    rewrite parse_display_u64 by by apply snowflake_is_u64.
    by rewrite snowflake_new_total.
Qed.

Lemma snowflake_roundtrip_witness :
  Snowflake.deserialize (Snowflake.serialize i64_max) = Ok i64_max.
Proof.
  apply (snowflake_roundtrip (TU64 7) i64_max); vm_compute; repeat split; congruence.
Defined.

(** Hexadecimal parsing of 128-bit identifiers accepts exactly the canonical
    lower-case text of the non-zero identifiers: [parse_hex] and [to_hex] are
    inverse of each other. *)
Theorem fixed_id_hex_roundtrip (s : string) (id : byte_list) :
  FixedId.parse_hex s = Ok id ↔ FixedId.ok id ∧ FixedId.to_hex id = s.
Proof.
  split; [apply fixed_parse_hex_ok|]. intros [Hok <-]. by apply fixed_parse_to_hex.
Qed.

(** [Cursor::new] accepts exactly the non-empty unpadded base64url texts of at
    most 256 bytes, and an [InvalidCursorCharacter] names the first byte outside
    that alphabet. *)
Theorem cursor_new_spec (s : string) :
  match Cursor.new s with
  | Ok c => c = s ∧ Cursor.ok s
  | Err EmptyCursor => s = ""%string
  | Err (CursorTooLong max actual) => max = 256 ∧ actual = str_len s ∧ 256 < str_len s
  | Err (InvalidCursorCharacter index) =>
      ∃ pre b post, str_bytes s = pre ++ b :: post ∧ index = len pre ∧
        Forall (λ c, is_base64url c = true) pre ∧ is_base64url b = false
  | Err _ => False
  end.
Proof.
  destruct (Cursor.new s) eqn:Hc; [by apply cursor_new_ok in Hc as [-> ?]|].
  unfold Cursor.new, str_is_empty, Cursor.MAX_LENGTH in Hc.
  destruct (Z.eqb_spec (str_len s) 0) as [H0|]; simplify_eq.
  { apply str_bytes_inj. unfold str_len, len in H0.
    destruct (str_bytes s) eqn:Hs; [done|simpl in H0; lia]. }
  destruct (Z.ltb_spec 256 (str_len s)); simplify_eq; [done|].
  destruct (first_failing is_base64url 0 (str_bytes s)) eqn:Hf; simplify_eq.
  apply first_failing_some in Hf as (pre & b & post & ? & -> & ? & ?).
  exists pre, b, post. by rewrite Z.add_0_l.
Qed.
