(* ===== verification/IpAddr.v ===== *)
(** [std::net::IpAddr]: the parser behind [IpAddr::from_str] and the canonical
    text of [Display], which [normalize_host] of server_card.rs uses. *)

From S2P Require Import Prelude Text.

(** ** Reading numbers *)

(** [char::to_digit(radix)] for radix 10 and 16. *)
Definition to_digit (radix b : Z) : option Z :=
  let v := if is_digit b then Some (b - 48)
           else if in_range 97 102 b then Some (b - 87)
           else if in_range 65 70 b then Some (b - 55)
           else None in
  d ← v; if d <? radix then Some d else None.

Fixpoint read_digits (radix : Z) (max_digits : nat) (count : nat) (acc : Z) (l : byte_list)
    : option (nat * Z * byte_list) :=
  match l with
  | b :: rest =>
      match to_digit radix b with
      | Some d =>
          if bool_decide (max_digits < S count)%nat then None
          else read_digits radix max_digits (S count) (acc * radix + d) rest
      | None => Some (count, acc, l)
      end
  | [] => Some (count, acc, l)
  end.

Definition read_number (radix : Z) (max_digits : nat) (limit : Z) (allow_zero_prefix : bool)
    (l : byte_list) : option (Z * byte_list) :=
  match read_digits radix max_digits 0 0 l with
  | Some (count, value, rest) =>
      if bool_decide (count = O) then None
      else if negb allow_zero_prefix && bool_decide (head l = Some 48)
              && bool_decide (1 < count)%nat then None
      else if limit <? value then None
      else Some (value, rest)
  | None => None
  end.

Definition read_given_char (c : Z) (l : byte_list) : option byte_list :=
  match l with
  | b :: rest => if b =? c then Some rest else None
  | [] => None
  end.

(** [read_separator]: the separator is read in front of every element but the first. *)
Definition read_separator {A} (sep : Z) (index : nat) (p : byte_list → option (A * byte_list))
    (l : byte_list) : option (A * byte_list) :=
  match index with
  | O => p l
  | S _ => rest ← read_given_char sep l; p rest
  end.

(** ** IPv4 *)

Definition read_octet : byte_list → option (Z * byte_list) := read_number 10 3 255 false.

Definition read_ipv4_addr (l : byte_list) : option (byte_list * byte_list) :=
  match read_octet l with
  | Some (a, l) =>
    match read_separator 46 1 read_octet l with
    | Some (b, l) =>
      match read_separator 46 2 read_octet l with
      | Some (c, l) =>
        match read_separator 46 3 read_octet l with
        | Some (d, l) => Some ([a; b; c; d], l)
        | None => None
        end
      | None => None
      end
    | None => None
    end
  | None => None
  end.

(** ** IPv6 *)

(** [read_groups]: [limit] is the length of the slice, [i] the next index. *)
Fixpoint read_groups (fuel : nat) (limit i : nat) (l : byte_list)
    : list Z * bool * byte_list :=
  match fuel with
  | O => ([], false, l)
  | S f =>
      match (if bool_decide (i < limit - 1)%nat
             then read_separator 58 i read_ipv4_addr l else None) with
      | Some ([a; b; c; d], rest) => ([a * 256 + b; c * 256 + d], true, rest)
      | _ =>
          match read_separator 58 i (read_number 16 4 65535 true) l with
          | Some (g, rest) =>
              let '(groups, v4, rest') := read_groups f limit (S i) rest in
              (g :: groups, v4, rest')
          | None => ([], false, l)
          end
      end
  end.

Definition read_ipv6_addr (l : byte_list) : option (list Z * byte_list) :=
  let '(head, head_ipv4, rest) := read_groups 8 8 0 l in
  if bool_decide (length head = 8%nat) then Some (head, rest)
  else if head_ipv4 : bool then None
  else
    match read_given_char 58 rest with
    | Some rest1 =>
        match read_given_char 58 rest1 with
        | Some rest2 =>
            let limit := (8 - (length head + 1))%nat in
            let '(tail, _, rest3) := read_groups limit limit 0 rest2 in
            Some (head ++ replicate (8 - length head - length tail) 0 ++ tail, rest3)
        | None => None
        end
    | None => None
    end.

Inductive IpAddr :=
| V4 (octets : byte_list)
| V6 (segments : list Z).

(** [IpAddr::from_str]: the whole text is one address. *)
Definition ip_from_str (l : byte_list) : option IpAddr :=
  match read_ipv4_addr l with
  | Some (octets, []) => Some (V4 octets)
  | Some (_, _ :: _) => None
  | None =>
      match read_ipv6_addr l with
      | Some (segments, []) => Some (V6 segments)
      | _ => None
      end
  end.

(** ** Display *)

Definition join (sep : byte_list) (l : list byte_list) : byte_list :=
  match l with
  | [] => []
  | x :: rest => x ++ concat ((λ y, sep ++ y) <$> rest)
  end.

Fixpoint hex_of (fuel : nat) (z : Z) : byte_list :=
  match fuel with
  | O => []
  | S f => if z <? 16 then [HEX z] else hex_of f (z / 16) ++ [HEX (z mod 16)]
  end.

Definition display_v4 (octets : byte_list) : byte_list := join [46] (digits_of 3 <$> octets).

(** The first longest run of zero segments, as (start, length). *)
Fixpoint zero_runs (i : nat) (current longest : nat * nat) (l : list Z) : nat * nat :=
  match l with
  | [] => longest
  | z :: rest =>
      if z =? 0 then
        let current := match current.2 with O => (i, 1%nat) | n => (current.1, S n) end in
        zero_runs (S i) current (if bool_decide (longest.2 < current.2)%nat then current else longest)
          rest
      else zero_runs (S i) (O, O) longest rest
  end.

Definition display_groups (l : list Z) : byte_list := join [58] (hex_of 4 <$> l).

Definition display_v6 (segments : list Z) : byte_list :=
  match segments with
  | [0; 0; 0; 0; 0; 65535; ab; cd] =>
      [58; 58; 102; 102; 102; 102; 58] ++ display_v4 [ab / 256; ab mod 256; cd / 256; cd mod 256]
  | _ =>
      let '(start, n) := zero_runs 0 (O, O) (O, O) segments in
      if bool_decide (1 < n)%nat then
        display_groups (take start segments) ++ [58; 58] ++ display_groups (drop (start + n) segments)
      else display_groups segments
  end.

Definition ip_to_string (a : IpAddr) : byte_list :=
  match a with
  | V4 octets => display_v4 octets
  | V6 segments => display_v6 segments
  end.

(** ** The parser on documented examples *)

Example ip_loopback : ip_to_string <$> ip_from_str (str_bytes "::1") = Some (str_bytes "::1").
Proof. vm_compute. reflexivity. Qed.

Example ip_compressed :
  ip_to_string <$> ip_from_str (str_bytes "2001:DB8:0:0:1:0:0:1")
  = Some (str_bytes "2001:db8::1:0:0:1").
Proof. vm_compute. reflexivity. Qed.

Example ip_mapped :
  ip_to_string <$> ip_from_str (str_bytes "::ffff:1.2.3.4") = Some (str_bytes "::ffff:1.2.3.4").
Proof. vm_compute. reflexivity. Qed.

Example ip_leading_zero : ip_from_str (str_bytes "1.2.3.04") = None.
Proof. vm_compute. reflexivity. Qed.

(** ** Lemmas: the text of an address has no white space and is not empty *)

Definition host_byte (b : Z) : Prop := is_digit b = true ∨ 97 ≤ b ≤ 102 ∨ b = 46 ∨ b = 58.

Lemma HEX_host_byte v : 0 ≤ v < 16 → host_byte (HEX v).
Proof.
  intros. unfold host_byte, HEX. rewrite is_digit_spec. destruct (Z.ltb_spec v 10); lia.
Qed.

Definition host_bytes (l : byte_list) : Prop := Forall host_byte l ∧ l ≠ [].

Lemma digits_of_host fuel z : 0 ≤ z → Forall host_byte (digits_of fuel z).
Proof.
  intros Hz. eapply Forall_impl; [by apply digits_of_ok|].
  intros b Hb. left. by apply is_digit_spec.
Qed.

Lemma hex_of_host fuel z : 0 ≤ z → Forall host_byte (hex_of fuel z).
Proof.
  revert z. induction fuel as [|f IH]; intros z Hz; simpl; [constructor|].
  destruct (Z.ltb_spec z 16); [apply Forall_singleton, HEX_host_byte; lia|].
  apply Forall_app. split; [apply IH; by apply Z.div_pos|].
  apply Forall_singleton, HEX_host_byte. by apply Z.mod_pos_bound.
Qed.

Lemma join_host sep l :
  Forall host_byte sep → Forall (Forall host_byte) l → Forall host_byte (join sep l).
Proof.
  intros Hsep Hl. destruct Hl as [|x l Hx Hl]; simpl; [constructor|].
  apply Forall_app. split; [done|]. induction Hl; csimpl; [constructor|].
  apply Forall_app. split; [|done]. by apply Forall_app.
Qed.

Lemma sep_host c : c = 46 ∨ c = 58 → Forall host_byte [c].
Proof. intros. apply Forall_singleton. unfold host_byte. lia. Qed.

Lemma display_v4_host octets : Forall (λ z, 0 ≤ z) octets → Forall host_byte (display_v4 octets).
Proof.
  intros H. apply join_host; [apply sep_host; lia|].
  apply Forall_fmap. eapply Forall_impl; [done|]. intros z. by apply digits_of_host.
Qed.

Lemma display_groups_host l : Forall (λ z, 0 ≤ z) l → Forall host_byte (display_groups l).
Proof.
  intros H. apply join_host; [apply sep_host; lia|].
  apply Forall_fmap. eapply Forall_impl; [done|]. intros z. by apply hex_of_host.
Qed.

Lemma mapped_host ab cd : 0 ≤ ab → 0 ≤ cd → Forall host_byte
  ([58; 58; 102; 102; 102; 102; 58] ++
   display_v4 [ab / 256; ab mod 256; cd / 256; cd mod 256]).
Proof.
  intros. apply Forall_app. split.
  - rewrite !Forall_cons. unfold host_byte. split_and!; try lia. constructor.
  - apply display_v4_host.
    repeat constructor; try (by apply Z.div_pos); by apply Z.mod_pos_bound.
Qed.

Lemma display_v6_host l : Forall (λ z, 0 ≤ z) l → Forall host_byte (display_v6 l).
Proof.
  intros H. unfold display_v6.
  assert (Forall host_byte
    (let '(start, n) := zero_runs 0 (O, O) (O, O) l in
     if bool_decide (1 < n)%nat then
       display_groups (take start l) ++ [58; 58] ++ display_groups (drop (start + n) l)
     else display_groups l)) as Hgen.
  { destruct (zero_runs _ _ _ _) as [start n]. case_bool_decide; [|by apply display_groups_host].
    repeat (apply Forall_app; split).
    - by apply display_groups_host, Forall_take.
    - apply (Forall_app _ [58] [58]). split; apply sep_host; lia.
    - by apply display_groups_host, Forall_drop. }
  repeat first [exact Hgen | case_match]; subst;
    repeat match goal with H : Forall _ (_ :: _) |- _ => apply Forall_cons in H as [? H] end;
    by apply mapped_host.
Qed.

Lemma to_digit_nonneg radix b d : to_digit radix b = Some d → 0 ≤ d.
Proof.
  unfold to_digit, is_digit, in_range. intros H.
  destruct ((48 <=? b) && (b <=? 57)) eqn:H1;
    [|destruct ((97 <=? b) && (b <=? 102)) eqn:H2;
      [|destruct ((65 <=? b) && (b <=? 70)) eqn:H3]]; simpl in H; try done;
    case_match; simplify_eq; to_props; lia.
Qed.

Lemma read_digits_nonneg radix m n acc l c v rest :
  0 ≤ radix → 0 ≤ acc → read_digits radix m n acc l = Some (c, v, rest) → 0 ≤ v.
Proof.
  intros Hr. revert n acc. induction l as [|b l IH]; intros n acc Ha; simpl; [by intros [= _ <- _]|].
  destruct (to_digit radix b) as [d|] eqn:Hd; [|by intros [= _ <- _]].
  case_bool_decide; [done|]. apply IH.
  apply to_digit_nonneg in Hd. nia.
Qed.

Lemma read_number_nonneg radix m lim z l v rest :
  0 ≤ radix → read_number radix m lim z l = Some (v, rest) → 0 ≤ v.
Proof.
  unfold read_number. intros Hr H.
  destruct (read_digits radix m 0 0 l) as [[[c v'] rest']|] eqn:Hd; [|done].
  apply read_digits_nonneg in Hd; [|lia..]. repeat case_match; by simplify_eq.
Qed.

Lemma read_separator_inv {A} sep i (p : byte_list → option (A * byte_list)) l r :
  read_separator sep i p l = Some r → ∃ l', p l' = Some r.
Proof.
  destruct i; simpl; [eauto|]. destruct (read_given_char sep l); simpl; [eauto|done].
Qed.

Lemma read_ipv4_nonneg l o rest :
  read_ipv4_addr l = Some (o, rest) → Forall (λ z, 0 ≤ z) o ∧ length o = 4%nat.
Proof.
  unfold read_ipv4_addr, read_octet. intros H.
  destruct (read_number 10 3 255 false l) as [[a l1]|] eqn:Ha; [|done].
  destruct (read_separator 46 1 _ l1) as [[b l2]|] eqn:Hb; [|done].
  destruct (read_separator 46 2 _ l2) as [[c l3]|] eqn:Hc; [|done].
  destruct (read_separator 46 3 _ l3) as [[d l4]|] eqn:Hd; [|done].
  apply read_separator_inv in Hb as [? Hb], Hc as [? Hc], Hd as [? Hd].
  apply read_number_nonneg in Ha, Hb, Hc, Hd; try lia. simplify_eq. by repeat constructor.
Qed.

Lemma read_groups_nonneg fuel limit i l g v4 rest :
  read_groups fuel limit i l = (g, v4, rest) → Forall (λ z, 0 ≤ z) g.
Proof.
  revert i l g v4 rest. induction fuel as [|f IH]; intros i l g v4 rest; simpl.
  { by intros [= <- _ _]. }
  assert (∀ g v4 rest, match read_separator 58 i (read_number 16 4 65535 true) l with
    | Some (x, rest0) => let '(groups, w, rest') := read_groups f limit (S i) rest0 in
        (x :: groups, w, rest')
    | None => ([], false, l) end = (g, v4, rest) → Forall (λ z, 0 ≤ z) g) as Hrest.
  { intros g' v' r'. destruct (read_separator 58 i _ l) as [[x l1]|] eqn:Hx; [|by intros [= <- _ _]].
    destruct (read_groups f limit (S i) l1) as [[gs w] l2] eqn:Hg. intros [= <- _ _].
    apply read_separator_inv in Hx as [? Hx]. apply read_number_nonneg in Hx; [|lia].
    constructor; eauto. }
  destruct (if bool_decide _ then _ else _) as [[o rest0]|] eqn:Ho; [|apply Hrest].
  case_bool_decide; [|done]. apply read_separator_inv in Ho as [? Ho].
  apply read_ipv4_nonneg in Ho as [Ho Hlen].
  destruct o as [|a [|b [|c [|d [|]]]]]; try done. intros [= <- _ _].
  repeat match goal with H : Forall _ (_ :: _) |- _ => apply Forall_cons in H as [? H] end.
  repeat constructor; lia.
Qed.

(** The canonical text of an address only has digits, a-f, dots and colons. *)
Lemma ip_text_host l a : ip_from_str l = Some a → Forall host_byte (ip_to_string a).
Proof.
  unfold ip_from_str. intros H.
  destruct (read_ipv4_addr l) as [[o [|]]|] eqn:H4; simplify_eq.
  - apply read_ipv4_nonneg in H4 as [? _]. by apply display_v4_host.
  - destruct (read_ipv6_addr l) as [[segs [|]]|] eqn:H6; simplify_eq. simpl.
    apply display_v6_host. unfold read_ipv6_addr in H6.
    destruct (read_groups 8 8 0 l) as [[hd v4] rest] eqn:Hg. apply read_groups_nonneg in Hg.
    case_bool_decide; simplify_eq; [done|]. destruct v4; [done|].
    destruct (read_given_char 58 rest); [|done]. destruct (read_given_char 58 _); [|done].
    destruct (read_groups _ _ 0 _) as [[tl w] r] eqn:Ht. apply read_groups_nonneg in Ht.
    simplify_eq. repeat (apply Forall_app; split); try done. by apply Forall_replicate.
Qed.
