(* ===== verification/Hex.v ===== *)
(** Hexadecimal formatting of counters and times, shared by the request identifiers
    of realtime/src/connection.rs and the idempotency keys of http/src/request.rs. *)

From S2P Require Import Prelude Text IpAddr.

(** [{n:0<width>x}]: at least [width] hexadecimal digits, more when they are needed. *)
Definition pad_hex (width : nat) (z : Z) : byte_list :=
  let digits := hex_of 32 z in replicate (width - length digits) 48 ++ digits.

(** [{n:016x}] of a [u64]. *)
Definition hex16 (z : Z) : byte_list := encode_hex (to_be_bytes 8 z).

(** A lower-case hexadecimal digit. *)
Definition hex_byte (b : Z) : Prop := 48 ≤ b ≤ 57 ∨ 97 ≤ b ≤ 102.

(** ** Lemmas *)

Lemma length_hex_of fuel z : (length (hex_of fuel z) ≤ fuel)%nat.
Proof.
  revert z. induction fuel as [|f IH]; intros z; simpl; [lia|].
  destruct (z <? 16); simpl; [lia|]. rewrite length_app. specialize (IH (z / 16)). simpl. lia.
Qed.

Lemma HEX_hex_byte v : 0 ≤ v < 16 → hex_byte (HEX v).
Proof. intros. unfold HEX, hex_byte. destruct (Z.ltb_spec v 10); lia. Qed.

Lemma hex_of_bytes fuel z : 0 ≤ z → Forall hex_byte (hex_of fuel z).
Proof.
  revert z. induction fuel as [|f IH]; intros z Hz; simpl; [constructor|].
  destruct (Z.ltb_spec z 16); [apply Forall_singleton, HEX_hex_byte; lia|].
  apply Forall_app. split; [apply IH; by apply Z.div_pos|].
  apply Forall_singleton, HEX_hex_byte. by apply Z.mod_pos_bound.
Qed.

Lemma encode_hex_bytes l : bytes_ok l → Forall hex_byte (encode_hex l).
Proof.
  induction 1 as [|b l Hb Hl IH]; unfold encode_hex in *; csimpl; [constructor|].
  destruct (nibbles b Hb) as (? & ? & _). constructor; [by apply HEX_hex_byte|].
  constructor; [by apply HEX_hex_byte|exact IH].
Qed.

Lemma hex16_bytes z : Forall hex_byte (hex16 z).
Proof. apply encode_hex_bytes, to_be_bytes_ok. Qed.

Lemma length_hex16 z : length (hex16 z) = 16%nat.
Proof. unfold hex16. by rewrite length_encode_hex, length_to_be_bytes. Qed.

Lemma hex16_inj x y : is_u64 x → is_u64 y → hex16 x = hex16 y → x = y.
Proof.
  unfold is_u64, u64_max. intros Hx Hy Heq. apply (f_equal (decode_hex 0)) in Heq.
  unfold hex16 in Heq. rewrite !decode_encode_hex in Heq by apply to_be_bytes_ok.
  assert (to_be_bytes 8 x = to_be_bytes 8 y) as Hb by congruence.
  apply (f_equal from_be_bytes) in Hb. clear Heq. rename Hb into Heq.
  rewrite !(from_to_be_bytes_small 8) in Heq by (simpl; lia). done.
Qed.

Lemma pad_hex_bytes w z : 0 ≤ z → Forall hex_byte (pad_hex w z).
Proof.
  intros Hz. apply Forall_app. split; [|by apply hex_of_bytes].
  apply Forall_replicate. unfold hex_byte. lia.
Qed.

(** The value of hexadecimal digits. *)
Definition hex_value (l : byte_list) : Z :=
  fold_left (λ acc b, 16 * acc + default 0 (lower_hex_value b)) l 0.

Lemma hex_of_value fuel z : 0 ≤ z < 16 ^ Z.of_nat fuel → hex_value (hex_of fuel z) = z.
Proof.
  revert z. induction fuel as [|f IH]; intros z Hz; simpl; [unfold hex_value; simpl in *; lia|].
  rewrite Nat2Z.inj_succ, Z.pow_succ_r in Hz by lia.
  assert (∀ v, 0 ≤ v < 16 → default 0 (lower_hex_value (HEX v)) = v) as Hv
    by (intros v H; by rewrite lower_hex_HEX).
  destruct (Z.ltb_spec z 16); unfold hex_value.
  - cbn [fold_left]. rewrite Hv by lia. lia.
  - rewrite fold_left_app. cbn [fold_left]. fold (hex_value (hex_of f (z / 16))).
    pose proof (Z.mod_pos_bound z 16 eq_refl). pose proof (Z.div_mod z 16 ltac:(lia)).
    rewrite Hv by done. rewrite IH; [lia|].
    split; [apply Z.div_pos; lia|apply Z.div_lt_upper_bound; lia].
Qed.

Lemma hex_of_inj fuel z1 z2 :
  0 ≤ z1 < 16 ^ Z.of_nat fuel → 0 ≤ z2 < 16 ^ Z.of_nat fuel → hex_of fuel z1 = hex_of fuel z2 → z1 = z2.
Proof. intros H1 H2 Heq. by rewrite <- (hex_of_value fuel z1 H1), Heq, hex_of_value. Qed.
