(* ===== verification/Json.v ===== *)
(** The interface to [serde_json]: what the program reads of a JSON value. *)

From S2P Require Import Prelude Text.

(** The accessors of [serde_json::Value] the program calls; an object is a map
    from its keys, and [value_string] builds [Value::String]. *)
Class JsonValue (V : Type) := {
  as_object : V → option (gmap string V);
  as_str : V → option string;
  as_array : V → option (list V);
  as_bool : V → option bool;
  as_u64 : V → option Z;
  is_null : V → bool;
}.

(** [Value::get(key)]: [None] when the value is not an object. *)
Definition json_get {V} `{JsonValue V} (key : string) (v : V) : option V :=
  as_object v ≫= lookup key.

(** A value type small enough to evaluate, for the witnesses. *)
Module Toy.
Inductive value :=
| Null
| Bool (b : bool)
| Num (z : Z)
| Str (s : string)
| Arr (l : list value)
| Obj (fields : list (string * value)).

#[export] Instance value_json : JsonValue value := {|
  as_object v := match v with Obj fields => Some (list_to_map fields) | _ => None end;
  as_str v := match v with Str s => Some s | _ => None end;
  as_array v := match v with Arr l => Some l | _ => None end;
  as_bool v := match v with Bool b => Some b | _ => None end;
  as_u64 v := match v with Num z => if (0 <=? z) && (z <=? u64_max) then Some z else None | _ => None end;
  is_null v := match v with Null => true | _ => false end;
|}.
End Toy.
