(* ===== verification/Wire.v ===== *)
(** The wire contract (crates/zephyrvox-wire/src): constants.rs, headers.rs,
    envelope.rs and server_card.rs. *)

From S2P Require Import Prelude Text IpAddr Types Json.

(** ** constants.rs *)

Definition PROTOCOL_VERSION : Z := 1.
Definition MAGIC : byte_list := [90; 86; 88; 49].
Definition MAGIC_TEXT : string := "ZVX1".
Definition OUTER_HEADER_SIZE : Z := 30.
Definition CHANNEL_HEADER_SIZE : Z := 12.
Definition TAG_SIZE : Z := 16.
Definition MAX_PACKET_SIZE : Z := 1200.
Definition MAX_PAYLOAD_ENCRYPTED : Z :=
  MAX_PACKET_SIZE - OUTER_HEADER_SIZE - CHANNEL_HEADER_SIZE - TAG_SIZE.
Definition MAX_PAYLOAD_PLAINTEXT : Z :=
  MAX_PACKET_SIZE - OUTER_HEADER_SIZE - CHANNEL_HEADER_SIZE.
Definition HEARTBEAT_STREAM_TYPE : Z := 0.

Definition max_payload (encrypted : bool) : Z :=
  if encrypted then MAX_PAYLOAD_ENCRYPTED else MAX_PAYLOAD_PLAINTEXT.

Definition is_business_stream_type (stream_type : Z) : bool :=
  negb (stream_type =? HEARTBEAT_STREAM_TYPE).

(** ** headers.rs *)

Definition AUTHORIZATION : string := "Authorization".
Definition IDEMPOTENCY_KEY : string := "Idempotency-Key".
Definition IF_MATCH : string := "If-Match".
Definition ETAG : string := "ETag".
Definition PARENT_IF_MATCH : string := "X-Zephyr-Parent-If-Match".
Definition PARENT_ETAG : string := "X-Zephyr-Parent-ETag".
Definition CONTROL_CONNECTION : string := "X-Zephyr-Control-Connection".
Definition COMMAND_ID : string := "X-Zephyr-Command-ID".
Definition STATE_CURSOR : string := "X-Zephyr-State-Cursor".
Definition STREAM_EPOCH : string := "X-Zephyr-Stream-Epoch".
Definition GEID : string := "X-Zephyr-Geid".
Definition SYNC_REQUIRED : string := "X-Zephyr-Sync-Required".

Definition MIN_IDEMPOTENCY_KEY_LENGTH : Z := 16.
Definition MAX_IDEMPOTENCY_KEY_LENGTH : Z := 64.

Inductive HeaderError :=
| InvalidIdempotencyKeyLength (min max actual : Z)
| InvalidIdempotencyKeyCharacter (index : Z).

Module IdempotencyKey.
Definition new (value : string) : result HeaderError string :=
  if negb ((MIN_IDEMPOTENCY_KEY_LENGTH <=? str_len value)
           && (str_len value <=? MAX_IDEMPOTENCY_KEY_LENGTH)) then
    Err (InvalidIdempotencyKeyLength MIN_IDEMPOTENCY_KEY_LENGTH MAX_IDEMPOTENCY_KEY_LENGTH
           (str_len value))
  else match first_failing is_base64url 0 (str_bytes value) with
       | Some index => Err (InvalidIdempotencyKeyCharacter index)
       | None => Ok value
       end.

Definition from_str (value : string) : result HeaderError string := new value.

Definition ok (key : string) : Prop :=
  16 ≤ str_len key ≤ 64 ∧ Forall (λ b, is_base64url b = true) (str_bytes key).
End IdempotencyKey.

(** ** envelope.rs *)

Record ApiEnvelope (T : Type) := mkApiEnvelope {
  code : Z;
  message : string;
  data : option T;
}.
Arguments mkApiEnvelope {T} _ _ _.
Arguments code {T} _.
Arguments message {T} _.
Arguments data {T} _.

Record ApiError := mkApiError {
  http_status : option Z;
  endpoint : option string;
  ApiError_code : Z;
  ApiError_message : string;
  fields : gmap string string;
  retryable : bool;
}.

Inductive EnvelopeError :=
| Api (e : ApiError)
| MissingSuccessData
| NonEmptySuccessMessage
| DataSerialization (text : string)
| DataDeserialization (text : string).

Module Envelope.
Definition success {T} (d : T) : ApiEnvelope T := mkApiEnvelope 0 "" (Some d).

Definition is_success {T} (e : ApiEnvelope T) : bool := code e =? 0.

Definition map {T U} (f : T → U) (e : ApiEnvelope T) : ApiEnvelope U :=
  mkApiEnvelope (code e) (message e) (f <$> data e).

Section json.
Context {V : Type} `{JsonValue V}.

Definition extract_field_errors (d : option V) : gmap string string :=
  match (v ← d; f ← json_get "fields" v; as_object f) with
  | None => ∅
  | Some fields => omap as_str fields
  end.

(** [to_value] is the [Serialize] implementation of the data's type. *)
Definition into_result {T} (to_value : T → result string V) (e : ApiEnvelope T)
    : result EnvelopeError T :=
  if code e =? 0 then
    if negb (str_is_empty (message e)) then Err NonEmptySuccessMessage
    else ok_or MissingSuccessData (data e)
  else
    let? d := map_err DataSerialization (transpose (to_value <$> data e)) in
    let fields := extract_field_errors d in
    Err (Api (mkApiError None None (code e) (message e) fields false)).

(** [from_value] is the [Deserialize] implementation of the response type;
    a JSON value serializes to itself. *)
Definition into_typed {T} (from_value : V → result string T) (e : ApiEnvelope V)
    : result EnvelopeError T :=
  let? value := into_result Ok e in
  map_err DataDeserialization (from_value value).
End json.

Definition with_http_context (e : ApiError) (http_status : Z) (endpoint : string)
    (retryable : bool) : ApiError :=
  mkApiError (Some http_status) (Some endpoint) (ApiError_code e) (ApiError_message e)
    (fields e) retryable.
End Envelope.

(** ** server_card.rs *)

Inductive TransportScheme := Plain | Tls.

#[global] Instance TransportScheme_eq_dec : EqDecision TransportScheme.
Proof. solve_decision. Defined.

Definition scheme_as_str (s : TransportScheme) : string :=
  match s with Plain => "zephyrvox" | Tls => "zephyrvoxs" end.

Definition is_tls (s : TransportScheme) : bool :=
  match s with Tls => true | Plain => false end.

Inductive ServerCardError :=
| InvalidUrl (text : string)
| UnsupportedScheme (text : string)
| MissingPort
| InvalidHost (text : string)
| MissingVersion
| InvalidVersion (text : string)
| UnsupportedVersion (v : Z)
| DuplicateQuery (text : string)
| UnknownQuery (text : string)
| MissingFingerprint
| UnexpectedFingerprint
| InvalidFingerprint (value : string)
| InvalidPort.

Module Fingerprint.
Definition parse_hex (value : string) : result ServerCardError byte_list :=
  if negb (str_len value =? 64) then Err (InvalidFingerprint value)
  else map_err (λ _, InvalidFingerprint value) (decode_hex 0 (str_bytes value)).

Definition to_hex (f : byte_list) : string := of_bytes (encode_hex f).

(** The loop of [ct_eq]: every pair of bytes is folded into [difference]. *)
Definition ct_eq (a b : byte_list) : bool :=
  fold_left (λ difference p, Z.lor difference (Z.lxor p.1 p.2)) (zip a b) 0 =? 0.

Definition ok (f : byte_list) : Prop := length f = 32%nat ∧ bytes_ok f.
End Fingerprint.

Record ServerCard := mkServerCard {
  scheme : TransportScheme;
  host : string;
  port : Z;
  fingerprint : option byte_list;
  invite : option string;
  ServerCard_protocol_version : Z;
}.

(** One label of a DNS name is refused. *)
Definition bad_label (label : byte_list) : bool :=
  (len label =? 0) || (63 <? len label)
  || starts_with [45] label || (match strip_suffix [45] label with Some _ => true | None => false end)
  || existsb (λ b, negb (is_alphanumeric b || (b =? 45))) label.

Definition normalize_host (h : string) : result ServerCardError string :=
  let l := trim (str_bytes h) in
  let l := match strip_prefix [91] l ≫= strip_suffix [93] with Some inner => inner | None => l end in
  if (len l =? 0) || (253 <? len l) || has_whitespace l then Err (InvalidHost (of_bytes l))
  else match ip_from_str l with
       | Some address => Ok (of_bytes (ip_to_string address))
       | None =>
           if contains_byte 58 l || contains_byte 47 l || contains_byte 92 l
           then Err (InvalidHost (of_bytes l))
           else if existsb bad_label (split_on 46 l) then Err (InvalidHost (of_bytes l))
           else Ok (of_bytes (to_lower <$> l))
       end.

(** The [url] crate: a parsed URL and its accessors, [Url::parse] and the
    [form_urlencoded] serializer. *)
Class UrlLib := {
  Url : Type;
  url_parse : string → result string Url;
  url_scheme : Url → string;
  url_username : Url → string;
  url_password : Url → option string;
  url_fragment : Url → option string;
  url_path : Url → string;
  url_port : Url → option Z;
  url_host_str : Url → option string;
  url_query_pairs : Url → list (string * string);
  url_query : Url → option string;
  url_port_or_known_default : Url → option Z;
  url_as_str : Url → string;
  form_urlencode : list (string * string) → string;
}.

Module Card.
Definition new (h : string) (p : Z) (s : TransportScheme) (fp : option byte_list)
    (inv : option string) : result ServerCardError ServerCard :=
  let? h := normalize_host h in
  if p =? 0 then Err InvalidPort
  else if is_tls s && bool_decide (fp = None) then Err MissingFingerprint
  else if negb (is_tls s) && negb (bool_decide (fp = None)) then Err UnexpectedFingerprint
  else
    let inv := inv ≫= λ i,
      let i := trim (str_bytes i) in
      if negb (len i =? 0) then Some (of_bytes i) else None in
    Ok (mkServerCard s h p fp inv PROTOCOL_VERSION).

(** The variables of the query loop. *)
Record Query := mkQuery {
  q_version : option Z;
  q_fingerprint : option byte_list;
  q_invite : option string;
}.

Fixpoint query_loop (q : Query) (pairs : list (string * string))
    : result ServerCardError Query :=
  match pairs with
  | [] => Ok q
  | (key, value) :: rest =>
      if bool_decide (key = "v"%string) then
        match q_version q with
        | Some _ => Err (DuplicateQuery "v")
        | None =>
            let? v := ok_or (InvalidVersion value) (parse_u8 value) in
            query_loop (mkQuery (Some v) (q_fingerprint q) (q_invite q)) rest
        end
      else if bool_decide (key = "fp"%string) then
        match q_fingerprint q with
        | Some _ => Err (DuplicateQuery "fp")
        | None =>
            let? f := Fingerprint.parse_hex value in
            query_loop (mkQuery (q_version q) (Some f) (q_invite q)) rest
        end
      else if bool_decide (key = "invite"%string) then
        match q_invite q with
        | Some _ => Err (DuplicateQuery "invite")
        | None => query_loop (mkQuery (q_version q) (q_fingerprint q) (Some value)) rest
        end
      else Err (UnknownQuery key)
  end.

Section url.
Context `{UrlLib}.

Definition parse (value : string) : result ServerCardError ServerCard :=
  let? url := map_err InvalidUrl (url_parse value) in
  let? s := (if bool_decide (url_scheme url = "zephyrvox"%string) then Ok Plain
             else if bool_decide (url_scheme url = "zephyrvoxs"%string) then Ok Tls
             else Err (UnsupportedScheme (url_scheme url))) in
  if negb (str_is_empty (url_username url)) || negb (bool_decide (url_password url = None)) then
    Err (InvalidUrl "server cards must not contain user information")
  else if negb (bool_decide (url_fragment url = None)) then
    Err (InvalidUrl "server cards must not contain a fragment")
  else if negb (str_is_empty (url_path url)) && negb (bool_decide (url_path url = "/"%string)) then
    Err (InvalidUrl "server cards must not contain a path")
  else
    let? p := ok_or MissingPort (url_port url) in
    let? h := ok_or (InvalidHost "") (url_host_str url) in
    let? q := query_loop (mkQuery None None None) (url_query_pairs url) in
    let? version := ok_or MissingVersion (q_version q) in
    if negb (version =? PROTOCOL_VERSION) then Err (UnsupportedVersion version)
    else new h p s (q_fingerprint q) (q_invite q).

(** The host as it appears in a URL. *)
Definition bracketed (h : string) : string :=
  if contains_byte 58 (str_bytes h) then ("[" +:+ h +:+ "]")%string else h.

Definition query_of (c : ServerCard) : list (string * string) :=
  [("v"%string, display_u64 (ServerCard_protocol_version c))]
  ++ match fingerprint c with
     | Some f => [("fp"%string, Fingerprint.to_hex f)]
     | None => []
     end
  ++ match invite c with Some i => [("invite"%string, i)] | None => [] end.

Definition render (c : ServerCard) : string :=
  (scheme_as_str (scheme c) +:+ "://" +:+ bracketed (host c) +:+ ":" +:+ display_u64 (port c)
   +:+ "?" +:+ form_urlencode (query_of c))%string.

Definition to_url (c : ServerCard) : result ServerCardError Url :=
  map_err InvalidUrl (url_parse (render c)).
End url.

(** What [new] promises of every card. *)
Record ok (c : ServerCard) : Prop := {
  ok_host : host c ≠ ""%string ∧
    Forall (λ b, is_digit b = true ∨ is_lower b = true ∨ b = 45 ∨ b = 46 ∨ b = 58)
      (str_bytes (host c));
  ok_port : 0 < port c ≤ u16_max;
  ok_fingerprint : scheme c = Tls ↔ fingerprint c ≠ None;
  ok_fingerprint_bytes : ∀ f, fingerprint c = Some f → Fingerprint.ok f;
  ok_invite : invite c ≠ Some ""%string;
  ok_version : ServerCard_protocol_version c = PROTOCOL_VERSION;
}.
End Card.

(** ** Lemmas *)

(** The host grammar, checked by evaluation. *)
Lemma host_checked h :
  h ≠ ""%string →
  forallb (λ b, is_digit b || is_lower b || (b =? 45) || (b =? 46) || (b =? 58)) (str_bytes h) = true →
  h ≠ ""%string ∧ Forall (λ b, is_digit b = true ∨ is_lower b = true ∨ b = 45 ∨ b = 46 ∨ b = 58) (str_bytes h).
Proof.
  intros Hne Hall. split; [done|]. rewrite forallb_forall in Hall. apply Forall_forall.
  intros b Hb%list_elem_of_In%Hall. rewrite !orb_true_iff, !Z.eqb_eq in Hb. tauto.
Qed.

Lemma idempotency_key_new_ok s k :
  IdempotencyKey.new s = Ok k ↔ k = s ∧ IdempotencyKey.ok s.
Proof.
  unfold IdempotencyKey.new, IdempotencyKey.ok,
    MIN_IDEMPOTENCY_KEY_LENGTH, MAX_IDEMPOTENCY_KEY_LENGTH.
  destruct (Z.leb_spec 16 (str_len s)), (Z.leb_spec (str_len s) 64); simpl;
    try (split; [done|lia]).
  destruct (first_failing is_base64url 0 (str_bytes s)) eqn:Hf.
  - apply first_failing_some in Hf as (pre & b & post & Heq & _ & _ & Hb).
    split; [done|]. intros (_ & _ & Hall). rewrite Heq in Hall.
    apply Forall_app in Hall as [_ [? _]%Forall_cons]. congruence.
  - apply first_failing_none in Hf. naive_solver lia.
Qed.

Lemma lxor_zero a b : Z.lxor a b = 0 ↔ a = b.
Proof. apply Z.lxor_eq_0_iff. Qed.

Lemma ct_fold l acc :
  fold_left (λ d (p : Z * Z), Z.lor d (Z.lxor p.1 p.2)) l acc = 0 ↔
  acc = 0 ∧ Forall (λ p, p.1 = p.2) l.
Proof.
  revert acc. induction l as [|[a b] l IH]; intros acc; simpl.
  - split; [by intros ->|tauto].
  - rewrite IH, Z.lor_eq_0_iff, lxor_zero, Forall_cons. simpl. tauto.
Qed.

Lemma zip_all_equal (a b : byte_list) :
  length a = length b → Forall (λ p, p.1 = p.2) (zip a b) → a = b.
Proof.
  revert b. induction a as [|x a IH]; intros [|y b]; simpl; try done.
  intros [= Hlen] [Hxy Hrest]%Forall_cons. simpl in Hxy. subst. f_equal. auto.
Qed.

Lemma ct_eq_spec a b : length a = length b → Fingerprint.ct_eq a b = true ↔ a = b.
Proof.
  intros Hlen. unfold Fingerprint.ct_eq. rewrite Z.eqb_eq, ct_fold. split.
  - intros [_ H]. by apply zip_all_equal.
  - intros ->. split; [done|]. clear Hlen. induction b; simpl; by constructor.
Qed.

Lemma fingerprint_parse_ok s f :
  Fingerprint.parse_hex s = Ok f → Fingerprint.ok f ∧ Fingerprint.to_hex f = s.
Proof.
  unfold Fingerprint.parse_hex. destruct (Z.eqb_spec (str_len s) 64) as [Hl|]; simpl; [|done].
  intros Hd%map_err_ok. apply (encode_decode_hex 32) in Hd as (He & Hlen & Hok).
  - split; [done|]. unfold Fingerprint.to_hex. by rewrite He, of_str_bytes.
  - unfold str_len, len in Hl. lia.
Qed.

Lemma fingerprint_parse_to_hex f :
  Fingerprint.ok f → Fingerprint.parse_hex (Fingerprint.to_hex f) = Ok f.
Proof.
  intros [Hlen Hok]. unfold Fingerprint.parse_hex, Fingerprint.to_hex, str_len.
  rewrite str_of_bytes by by apply encode_hex_ok. unfold len.
  rewrite length_encode_hex, Hlen. simpl. by rewrite decode_encode_hex.
Qed.

(** Hosts *)

Definition canonical_host_byte (b : Z) : Prop :=
  is_digit b = true ∨ is_lower b = true ∨ b = 45 ∨ b = 46 ∨ b = 58.

Lemma to_lower_canonical b :
  is_alphanumeric b || (b =? 45) = true ∨ b = 46 → canonical_host_byte (to_lower b).
Proof.
  unfold canonical_host_byte, to_lower, is_alphanumeric, is_digit, is_lower, is_upper, in_range.
  destruct ((65 <=? b) && (b <=? 90)) eqn:Hu; to_props.
  - rewrite !andb_true_iff, !Z.leb_le. lia.
  - rewrite !orb_true_iff, !andb_true_iff, !Z.leb_le, Z.eqb_eq.
    destruct Hu as [Hu|Hu]; apply Z.leb_gt in Hu; lia.
Qed.

Lemma canonical_byte b : canonical_host_byte b → 0 ≤ b < 256.
Proof.
  unfold canonical_host_byte, is_digit, is_lower, in_range.
  rewrite !andb_true_iff, !Z.leb_le. lia.
Qed.

Lemma host_byte_canonical b : host_byte b → canonical_host_byte b.
Proof.
  unfold canonical_host_byte, host_byte, is_digit, is_lower, in_range.
  rewrite !andb_true_iff, !Z.leb_le. lia.
Qed.

Lemma good_labels l :
  existsb bad_label (split_on 46 l) = false →
  l ≠ [] ∧ Forall (λ b, is_alphanumeric b || (b =? 45) = true ∨ b = 46) l.
Proof.
  assert (∀ l, existsb bad_label (split_on 46 l) = false →
    Forall (λ b, is_alphanumeric b || (b =? 45) = true ∨ b = 46) l) as Hgen.
  { clear l. assert (∀ l, Forall (λ piece, Forall (λ b,
        is_alphanumeric b || (b =? 45) = true) piece) (split_on 46 l) →
        Forall (λ b, is_alphanumeric b || (b =? 45) = true ∨ b = 46) l) as Hin.
    { induction l as [|b l IH]; simpl; [done|]. destruct (Z.eqb_spec b 46) as [->|].
      - intros [_ H]%Forall_cons. constructor; [by right|auto].
      - destruct (split_on 46 l) as [|piece pieces].
        + intros [[? _]%Forall_cons _]%Forall_cons. constructor; [by left|auto].
        + intros [[? ?]%Forall_cons ?]%Forall_cons. constructor; [by left|].
          apply IH. by constructor. }
    intros l Hl. apply Hin. clear Hin. revert Hl. generalize (split_on 46 l).
    induction l0 as [|p ps IH]; simpl; [done|]. intros H. to_props. constructor; [|auto].
    unfold bad_label in *. to_props. apply Forall_forall. intros b Hb.
    destruct (is_alphanumeric b || (b =? 45)) eqn:Hc; [done|]. exfalso.
    assert (existsb (λ b, negb (is_alphanumeric b || (b =? 45))) p = true); [|congruence].
    apply existsb_exists. exists b. rewrite Hc. split; [by apply list_elem_of_In|done]. }
  intros H. split; [|by apply Hgen]. intros ->. done.
Qed.

Lemma read_some_host_nonempty l a : ip_from_str l = Some a → ip_to_string a ≠ [].
Proof.
  assert (∀ z, digits_of 3 z ≠ []) as Hd.
  { intros z. simpl. case_match; [done|]. by intros [_ ?]%app_nil. }
  assert (∀ o rest l, read_ipv4_addr l = Some (o, rest) → display_v4 o ≠ []) as H4.
  { intros o rest l' [_ Hlen]%read_ipv4_nonneg. destruct o; [done|].
    unfold display_v4, join. csimpl. intros [H _]%app_nil. by apply Hd in H. }
  unfold ip_from_str. intros H. destruct (read_ipv4_addr l) as [[o [|]]|] eqn:Hr; simplify_eq.
  - by eapply H4.
  - destruct (read_ipv6_addr l) as [[segs [|]]|] eqn:H6; simplify_eq. simpl.
    assert (segs ≠ []) as Hne.
    { unfold read_ipv6_addr in H6. destruct (read_groups 8 8 0 l) as [[hd v4] r].
      case_bool_decide; simplify_eq; [by destruct segs|]. destruct v4; [done|].
      destruct (read_given_char 58 r); [|done]. destruct (read_given_char 58 _); [|done].
      destruct (read_groups (8 - _) _ 0 _) as [[tl w] r'] eqn:Ht. simplify_eq.
      intros [Hh [Hrep Htl]%app_nil]%app_nil. subst. simpl in Hrep. done. }
    assert (∀ l, l ≠ [] → display_groups l ≠ []) as Hg.
    { intros [|z l'] Hl; [done|]. unfold display_groups, join. cbn [fmap list_fmap].
      intros [Hz _]%app_nil. simpl in Hz. case_match; [done|]. by apply app_nil in Hz as [_ ?]. }
    unfold display_v6. repeat case_match; try by apply Hg; try done.
    all: intros Habs%(f_equal length); rewrite !length_app in Habs; simpl in Habs; lia.
Qed.

Lemma normalize_host_ok h n :
  normalize_host h = Ok n → n ≠ ""%string ∧ Forall canonical_host_byte (str_bytes n).
Proof.
  assert (∀ l, l ≠ [] → Forall canonical_host_byte l →
    of_bytes l ≠ ""%string ∧ Forall canonical_host_byte (str_bytes (of_bytes l))) as Hfin.
  { intros l Hne Hl. assert (bytes_ok l).
    { eapply Forall_impl; [exact Hl|]. apply canonical_byte. }
    split; [|by rewrite str_of_bytes]. intros H0. apply Hne.
    rewrite <- (str_of_bytes l), H0 by done. done. }
  unfold normalize_host. intros H.
  destruct (_ || _ || has_whitespace _) eqn:Hw; [done|].
  destruct (ip_from_str _) as [a|] eqn:Hip; simplify_eq.
  - apply Hfin; [by eapply read_some_host_nonempty|].
    eapply Forall_impl; [by eapply ip_text_host|]. apply host_byte_canonical.
  - destruct (_ || contains_byte 92 _); [done|].
    destruct (existsb bad_label _) eqn:Hb; simplify_eq.
    apply good_labels in Hb as [Hne Hall]. apply Hfin.
    + by intros ?%fmap_nil_inv.
    + apply Forall_fmap. eapply Forall_impl; [exact Hall|]. intros b. apply to_lower_canonical.
Qed.

Lemma card_new_ok h p s fp inv c :
  is_u16 p → (∀ f, fp = Some f → Fingerprint.ok f) →
  Card.new h p s fp inv = Ok c →
  Card.ok c ∧ scheme c = s ∧ port c = p ∧ fingerprint c = fp.
Proof.
  intros [Hp0 Hp1] Hfp H. unfold Card.new in H.
  apply result_bind_ok in H as (n & Hn & H). apply normalize_host_ok in Hn.
  destruct (Z.eqb_spec p 0); [done|].
  destruct (is_tls s && bool_decide (fp = None)) eqn:H1; [done|].
  destruct (negb (is_tls s) && negb (bool_decide (fp = None))) eqn:H2; [done|].
  simplify_eq. split; [|done]. constructor; simpl; try done.
  - lia.
  - destruct s, fp; simpl in *; naive_solver.
  - destruct inv as [i|]; simpl; [|done].
    destruct (Z.eqb_spec (len (trim (str_bytes i))) 0) as [|Hne]; simpl; [done|].
    intros [= H]. apply Hne. destruct (trim (str_bytes i)); done.
Qed.

Lemma query_loop_fingerprint q pairs q' :
  (∀ f, Card.q_fingerprint q = Some f → Fingerprint.ok f) →
  Card.query_loop q pairs = Ok q' →
  ∀ f, Card.q_fingerprint q' = Some f → Fingerprint.ok f.
Proof.
  revert q. induction pairs as [|[k v] rest IH]; intros q Hq H; simpl in H; [by simplify_eq|].
  repeat (case_bool_decide || case_match); try done.
  repeat (case_bool_decide || case_match); try done.
  - apply result_bind_ok in H as (x & _ & H). by refine (IH _ _ H).
  - apply result_bind_ok in H as (x & Hx & H). refine (IH _ _ H). simpl.
    intros f [= <-]. by apply fingerprint_parse_ok in Hx as [? _].
  - by refine (IH _ _ H).
Qed.

(** ** Properties *)

(** [IdempotencyKey::new] accepts exactly the texts of 16 to 64 bytes over
    [A-Za-z0-9_-]; the length error wins over the character error, which names
    the first offending byte. *)
Theorem idempotency_key_new_spec (s : string) :
  match IdempotencyKey.new s with
  | Ok k => k = s ∧ IdempotencyKey.ok s
  | Err (InvalidIdempotencyKeyLength lo hi actual) =>
      lo = 16 ∧ hi = 64 ∧ actual = str_len s ∧ ¬ 16 ≤ str_len s ≤ 64
  | Err (InvalidIdempotencyKeyCharacter index) =>
      16 ≤ str_len s ≤ 64 ∧
      ∃ pre b post, str_bytes s = pre ++ b :: post ∧ index = len pre ∧
        Forall (λ c, is_base64url c = true) pre ∧ is_base64url b = false
  end.
Proof.
  destruct (IdempotencyKey.new s) eqn:Hk; [by apply idempotency_key_new_ok|].
  unfold IdempotencyKey.new, MIN_IDEMPOTENCY_KEY_LENGTH, MAX_IDEMPOTENCY_KEY_LENGTH in Hk.
  destruct (Z.leb_spec 16 (str_len s)), (Z.leb_spec (str_len s) 64); simplify_eq/=;
    try (split_and!; [done..|lia]).
  destruct (first_failing is_base64url 0 (str_bytes s)) eqn:Hf; simplify_eq.
  apply first_failing_some in Hf as (pre & b & post & ? & -> & ? & ?).
  split; [done|]. by exists pre, b, post.
Qed.

(** The comparison of SPKI pins never exits early and still decides equality
    of the two 32-byte digests, and [parse_hex] accepts exactly the 64-character
    lower-case text of a digest. *)
Theorem fingerprint_ct_eq_and_hex (a b : byte_list) (s : string) :
  Fingerprint.ok a → Fingerprint.ok b →
  (Fingerprint.ct_eq a b = true ↔ a = b) ∧
  (Fingerprint.parse_hex s = Ok a ↔ Fingerprint.to_hex a = s).
Proof.
  intros Ha Hb. split.
  - apply ct_eq_spec. by destruct Ha as [-> _], Hb as [-> _].
  - split; [by intros [_ ?]%fingerprint_parse_ok|].
    intros <-. by apply fingerprint_parse_to_hex.
Qed.

Lemma fingerprint_ct_eq_and_hex_witness :
  Fingerprint.ct_eq (replicate 32 7) (replicate 31 7 ++ [8]) = true ↔
  replicate 32 7 = replicate 31 7 ++ [8].
Proof.
  apply (fingerprint_ct_eq_and_hex (replicate 32 7) (replicate 31 7 ++ [8]) "").
  - split; [reflexivity|]. apply Forall_replicate. lia.
  - split; [reflexivity|]. repeat constructor; lia.
Defined.

(** C35: every card that [ServerCard::new] or [ServerCard::parse] returns has a
    non-empty canonical host, a non-zero port, a 32-byte pin exactly when its
    scheme is TLS, no empty invite and protocol version 1. *)
Theorem server_card_invariant `{UrlLib} :
  (∀ url p, url_port url = Some p → is_u16 p) →
  (∀ text c, Card.parse text = Ok c → Card.ok c) ∧
  (∀ h p s fp inv c, is_u16 p → (∀ f, fp = Some f → Fingerprint.ok f) →
     Card.new h p s fp inv = Ok c → Card.ok c).
Proof.
  intros Hport. split; [|intros; by eapply card_new_ok].
  intros text c. unfold Card.parse. intros Hc.
  apply result_bind_ok in Hc as (url & _ & Hc). apply result_bind_ok in Hc as (s & _ & Hc).
  repeat (case_match; [done|]).
  apply result_bind_ok in Hc as (p & Hp%ok_or_ok & Hc).
  apply result_bind_ok in Hc as (h & _ & Hc). apply result_bind_ok in Hc as (q & Hq & Hc).
  apply result_bind_ok in Hc as (v & _ & Hc). case_match; [done|].
  eapply card_new_ok in Hc as [? _]; [done|by eapply Hport|].
  refine (query_loop_fingerprint _ _ _ _ Hq). by intros f.
Qed.

(** A URL library that knows one card text, for the witness. *)
Definition toy_url_lib : UrlLib := {|
  Url := string;
  url_parse s := Ok s;
  url_scheme _ := "zephyrvox"%string;
  url_username _ := ""%string;
  url_password _ := None;
  url_fragment _ := None;
  url_path _ := "/"%string;
  url_port _ := Some 7788;
  url_host_str _ := Some "[2001:DB8::1]"%string;
  url_query_pairs _ := [("v"%string, "1"%string); ("invite"%string, " abc "%string)];
  url_query _ := Some "v=1&invite=+abc+"%string;
  url_port_or_known_default _ := Some 7788;
  url_as_str s := s;
  form_urlencode _ := "v=1&invite=abc"%string;
|}.

Lemma server_card_invariant_witness :
  ∃ c, @Card.parse toy_url_lib "zephyrvox://[2001:DB8::1]:7788?v=1&invite=+abc+" = Ok c ∧
    host c = "2001:db8::1"%string ∧ invite c = Some "abc"%string ∧ Card.ok c.
Proof.
  eexists. split; [vm_compute; reflexivity|]. split; [reflexivity|]. split; [reflexivity|].
  refine (proj1 (@server_card_invariant toy_url_lib _)
            "zephyrvox://[2001:DB8::1]:7788?v=1&invite=+abc+"%string _ _).
  - intros url p [= <-]. vm_compute. split; congruence.
  - vm_compute. reflexivity.
Defined.
