(* ===== verification/Tls.v ===== *)
(** Certificate pinning: the DER reader, the SPKI digest and the certificate verifier of
    the HTTP transport (crates/zephyrvox-http/src/tls_pin.rs).

    [usize] is 64 bits wide; an index or slice expression that is out of range panics,
    which is the [None] of [panic_or]. *)

From S2P Require Import Prelude Text Wire.

(** ** The reader *)

(** The loop over the bytes of a long length: [checked_shl] drops the bits that leave
    the word, [checked_add] does not. *)
Fixpoint read_length (acc : Z) (l : byte_list) : option Z :=
  match l with
  | [] => Some acc
  | b :: rest =>
      let shifted := (acc * 256) mod 2 ^ 64 in
      if u64_max <? shifted + b then None else read_length (shifted + b) rest
  end.

(** [checked_add] on [usize]. *)
Definition checked_add (a b : Z) : option Z := if u64_max <? a + b then None else Some (a + b).

(** The tag, and the offsets of the content and of what follows. *)
Definition read_tlv (input : byte_list) (offset : Z) : option (Z * Z * Z * Z) :=
  tag ← input !! Z.to_nat offset;
  length_byte ← input !! Z.to_nat (offset + 1);
  header ← (if Z.land length_byte 128 =? 0 then Some (length_byte, offset + 2)
            else
              let length_bytes := Z.land length_byte 127 in
              if (length_bytes =? 0) || (8 <? length_bytes) then None
              else
                bytes ← get_slice (Z.to_nat (offset + 2)) (Z.to_nat (offset + 2 + length_bytes)) input;
                length ← read_length 0 bytes;
                Some (length, offset + 2 + length_bytes));
  let '(length, content_start) := header in
  content_end ← checked_add content_start length;
  if len input <? content_end then None
  else Some (tag, content_start, content_end, content_end).

(** The loop over the five fields before the key. *)
Fixpoint skip_fields (n : nat) (tbs : byte_list) (offset : Z) : option Z :=
  match n with
  | O => Some offset
  | S n =>
      '(_, _, _, next) ← read_tlv tbs offset;
      skip_fields n tbs next
  end.

(** The [sha2] crate. *)
Class Sha256Lib := { sha256 : byte_list → byte_list }.

Section spki.
Context `{Sha256Lib}.

Definition index_slice (a b : Z) (l : byte_list) : option byte_list :=
  get_slice (Z.to_nat a) (Z.to_nat b) l.

Definition spki_sha256 (certificate : byte_list) : panic_or unit byte_list :=
  let^ (tag, certificate_start, certificate_end, certificate_next) := ok_or tt (read_tlv certificate 0) in
  if negb (tag =? 48) || negb (certificate_next =? len certificate) then Some (Err tt)
  else
    let* content := index_slice certificate_start certificate_end certificate in
    let^ (tag, tbs_start, tbs_end, _) := ok_or tt (read_tlv content 0) in
    if negb (tag =? 48) then Some (Err tt)
    else
      let* tbs := index_slice (certificate_start + tbs_start) (certificate_start + tbs_end) certificate in
      let^ (tag, _, _, next) := ok_or tt (read_tlv tbs 0) in
      let offset := if tag =? 160 then next else 0 in
      let^ offset := ok_or tt (skip_fields 5 tbs offset) in
      let^ (_, _, _, spki_next) := ok_or tt (read_tlv tbs offset) in
      let* spki := index_slice offset spki_next tbs in
      Some (Ok (sha256 spki)).
End spki.

(** ** The verifier *)

Inductive TlsVerificationFailure :=
| PinMismatch (expected actual : byte_list)
| InvalidCertificate.

Inductive TlsError :=
| BadEncoding
| ApplicationVerificationFailure
| RustlsError (text : string).

(** What the verifier asks of rustls: the parsed leaf, its name, and its chain to the
    one root that is the leaf itself. *)
Class RustlsLib := {
  ParsedCertificate : Type;
  parse_certificate : byte_list → result string ParsedCertificate;
  verify_server_name : ParsedCertificate → string → result string unit;
  add_root : byte_list → result string unit;
  verify_chain : ParsedCertificate → byte_list → list byte_list → Z → result string unit;
}.

(** [record_failure] of the HTTP client, which keeps the last failure. The verifier is
    stated for any. *)
Definition record_last (failure : TlsVerificationFailure) (recorded : option TlsVerificationFailure) : option TlsVerificationFailure :=
  Some failure.

Section verifier.
Context `{Sha256Lib, RustlsLib} (record_failure : TlsVerificationFailure → option TlsVerificationFailure → option TlsVerificationFailure).

(** [.inspect_err(|_| self.record_failure(InvalidCertificate))?]. *)
Definition inspected {A} (r : result string A) : se (option TlsVerificationFailure) TlsError A := λ recorded,
  match r with
  | Ok a => (Ok a, recorded)
  | Err text => (Err (RustlsError text), record_failure InvalidCertificate recorded)
  end.

(** The checks after the pin. *)
Definition verify_trusted (end_entity : byte_list) (intermediates : list byte_list)
    (server_name : string) (now : Z) : se (option TlsVerificationFailure) TlsError unit :=
  let! certificate := inspected (parse_certificate end_entity) in
  let! _ := inspected (verify_server_name certificate server_name) in
  let! _ := inspected (add_root end_entity) in
  inspected (verify_chain certificate end_entity intermediates now).

Definition verify_server_cert (expected end_entity : byte_list) (intermediates : list byte_list)
    (server_name : string) (now : Z) (recorded : option TlsVerificationFailure)
    : option (result TlsError unit * option TlsVerificationFailure) :=
  let* digest := spki_sha256 end_entity in
  Some match digest with
       | Err _ => (Err BadEncoding, record_failure InvalidCertificate recorded)
       | Ok actual =>
           if negb (Fingerprint.ct_eq actual expected) then
             (Err ApplicationVerificationFailure,
              record_failure (PinMismatch expected actual) recorded)
           else verify_trusted end_entity intermediates server_name now recorded
       end.
End verifier.

(** ** The format *)

(** A definite-length TLV: a tag, a short or long length, the content. *)
Inductive tlv (tag : Z) (content : byte_list) : byte_list → Prop :=
| tlv_short : len content < 128 → tlv tag content (tag :: len content :: content)
| tlv_long k :
    (1 ≤ k ≤ 8)%nat → len content < 256 ^ Z.of_nat k →
    tlv tag content (tag :: (128 + Z.of_nat k) :: to_be_bytes k (len content) ++ content).

(** What precedes the key in a certificate body: the optional version, which alone has
    the tag 0xa0, and five fields. *)
Inductive fields : nat → byte_list → Prop :=
| fields_nil : fields 0 []
| fields_cons n tag content field rest :
    tlv tag content field → fields n rest → fields (S n) (field ++ rest).

Definition tag_of (l : byte_list) : option Z := l !! 0%nat.

Inductive before_key : byte_list → Prop :=
| with_version content version rest :
    tlv 160 content version → fields 5 rest → before_key (version ++ rest)
| without_version rest : fields 5 rest → tag_of rest ≠ Some 160 → before_key rest.

(** A certificate whose key has the encoding [spki]. *)
Inductive certificate_with_key (spki : byte_list) : byte_list → Prop :=
| certificate_key pre tag key post tbs signature certificate :
    before_key pre → tlv tag key spki → tlv 48 (pre ++ spki ++ post) tbs →
    tlv 48 (tbs ++ signature) certificate → certificate_with_key spki certificate.

(** ** The reader reads exactly the format *)

Lemma byte_check (P : Z → bool) b :
  forallb P (seqZ 0 256) = true → 0 ≤ b < 256 → P b = true.
Proof. intros Hall Hb. rewrite forallb_forall in Hall. apply Hall, list_elem_of_In, elem_of_seqZ. lia. Qed.

(** The form of a length byte. *)
Lemma length_byte_form b : 0 ≤ b < 256 →
  if Z.land b 128 =? 0 then b < 128 else b = 128 + Z.land b 127 ∧ 0 ≤ Z.land b 127 < 128.
Proof.
  intros Hb.
  pose proof (byte_check (λ b, if Z.land b 128 =? 0 then b <? 128
    else (b =? 128 + Z.land b 127) && (0 <=? Z.land b 127) && (Z.land b 127 <? 128)) b eq_refl Hb) as Hc.
  simpl in Hc. destruct (Z.land b 128 =? 0); to_props; lia.
Qed.

Lemma short_byte_form b : 0 ≤ b < 128 → Z.land b 128 = 0.
Proof.
  intros Hb. pose proof (length_byte_form b ltac:(lia)) as Hf.
  destruct (Z.eqb_spec (Z.land b 128) 0); [done|lia].
Qed.

Lemma long_byte_form k : 0 ≤ k < 128 → Z.land (128 + k) 128 ≠ 0 ∧ Z.land (128 + k) 127 = k.
Proof.
  intros Hk. pose proof (length_byte_form (128 + k) ltac:(lia)) as Hf.
  destruct (Z.eqb_spec (Z.land (128 + k) 128) 0); lia.
Qed.

(** Up to eight bytes the length does not overflow. *)
Lemma read_length_ok l acc :
  bytes_ok l → 0 ≤ acc → (acc + 1) * 256 ^ len l ≤ 2 ^ 64 →
  read_length acc l = Some (acc * 256 ^ len l + from_be_bytes l).
Proof.
  intros Hl. revert acc. induction Hl as [|b l Hb Hl IH]; intros acc Hacc Hsmall; simpl.
  - unfold len, from_be_bytes. simpl. f_equal. lia.
  - pose proof (from_be_bytes_range l Hl) as Hr. pose proof (len_nonneg l) as Hn.
    rewrite len_cons, Z.pow_add_r in Hsmall by lia.
    assert (1 ≤ 256 ^ len l) as Hone by lia.
    rewrite Z.mod_small by nia. unfold u64_max.
    destruct (Z.ltb_spec (2 ^ 64 - 1) (acc * 256 + b)); [nia|].
    rewrite IH by nia. rewrite from_be_bytes_cons, len_cons, Z.pow_add_r by lia. f_equal. lia.
Qed.

Lemma tlv_len tag content body : tlv tag content body → 2 ≤ len body ∧ len content ≤ len body.
Proof.
  pose proof (len_nonneg content).
  intros [Hc|k Hk Hc]; rewrite !len_cons, ?len_app; [lia|].
  pose proof (len_nonneg (to_be_bytes k (len content))). lia.
Qed.

(** The byte of a TLV at a position, in its context. *)
Lemma lookup_in_context (pre body post : byte_list) (k : nat) (offset : Z) b :
  offset = len pre + Z.of_nat k → body !! k = Some b →
  (pre ++ body ++ post) !! Z.to_nat offset = Some b.
Proof.
  intros -> Hb. replace (Z.to_nat (len pre + Z.of_nat k)) with (length pre + k)%nat by len_lia.
  rewrite lookup_app_r by lia. replace (length pre + k - length pre)%nat with k by lia.
  by apply lookup_app_l_Some.
Qed.

(** The end of the reader, once the length is known. *)
Lemma content_bounds (input : byte_list) (tag length start : Z) :
  0 ≤ start → 0 ≤ length → start + length ≤ len input → len input ≤ u64_max →
  (content_end ← checked_add start length;
   if len input <? content_end then None else Some (tag, start, content_end, content_end))
  = Some (tag, start, start + length, start + length).
Proof.
  intros. unfold checked_add. destruct (Z.ltb_spec u64_max (start + length)); [lia|]. csimpl.
  by destruct (Z.ltb_spec (len input) (start + length)); [lia|].
Qed.

Lemma read_tlv_short pre tag content post :
  len content < 128 → len (pre ++ (tag :: len content :: content) ++ post) ≤ u64_max →
  read_tlv (pre ++ (tag :: len content :: content) ++ post) (len pre)
  = Some (tag, len pre + 2, len pre + 2 + len content, len pre + 2 + len content).
Proof.
  intros Hc Hsmall. pose proof (len_nonneg pre). pose proof (len_nonneg content).
  pose proof (len_nonneg post). unfold read_tlv.
  rewrite (lookup_in_context pre _ post 0 (len pre) tag) by (done || lia).
  rewrite (lookup_in_context pre _ post 1 (len pre + 1) (len content)) by (done || lia). csimpl.
  rewrite short_byte_form by lia. csimpl.
  apply content_bounds; len_lia.
Qed.

Lemma read_tlv_long pre tag k content post :
  let body := tag :: (128 + Z.of_nat k) :: to_be_bytes k (len content) ++ content in
  (1 ≤ k ≤ 8)%nat → len content < 256 ^ Z.of_nat k → len (pre ++ body ++ post) ≤ u64_max →
  let start := len pre + 2 + Z.of_nat k in
  read_tlv (pre ++ body ++ post) (len pre) = Some (tag, start, start + len content, start + len content).
Proof.
  intros body Hk Hc Hsmall start. pose proof (len_nonneg pre). pose proof (len_nonneg content).
  pose proof (len_nonneg post).
  assert (len body = 2 + Z.of_nat k + len content) as Hlen by (unfold body; len_lia).
  assert (get_slice (Z.to_nat (len pre + 2)) (Z.to_nat (len pre + 2 + Z.of_nat k))
    (pre ++ body ++ post) = Some (to_be_bytes k (len content))) as Hslice.
  { replace (pre ++ body ++ post)
      with ((pre ++ [tag; 128 + Z.of_nat k]) ++ to_be_bytes k (len content) ++ (content ++ post))
      by (unfold body; simpl; by rewrite <- !app_assoc).
    apply get_slice_mid; len_lia. }
  pose proof (lookup_in_context pre body post 0 (len pre) tag ltac:(lia) eq_refl) as Htag.
  pose proof (lookup_in_context pre body post 1 (len pre + 1) (128 + Z.of_nat k) ltac:(lia) eq_refl) as Hbyte.
  clearbody body. unfold read_tlv. rewrite Htag, Hbyte. csimpl.
  destruct (long_byte_form (Z.of_nat k)) as [Hne ->]; [lia|].
  rewrite (proj2 (Z.eqb_neq _ _) Hne), (proj2 (Z.eqb_neq (Z.of_nat k) 0)), (proj2 (Z.ltb_ge 8 _)) by lia.
  csimpl. rewrite Hslice. csimpl.
  rewrite read_length_ok; [|apply to_be_bytes_ok|lia|].
  2: { unfold len at 1. rewrite length_to_be_bytes, Z.mul_1_l.
       transitivity (256 ^ 8); [|done]. apply Z.pow_le_mono_r; lia. }
  rewrite from_to_be_bytes_small, Z.mul_0_l, Z.add_0_l by lia. csimpl.
  rewrite !len_app in Hsmall. apply content_bounds; rewrite ?len_app; lia.
Qed.

(** The reader on a TLV in its context. *)
Lemma read_tlv_at pre tag content body post :
  tlv tag content body → len (pre ++ body ++ post) ≤ u64_max →
  read_tlv (pre ++ body ++ post) (len pre)
  = Some (tag, len pre + len body - len content, len pre + len body, len pre + len body).
Proof.
  intros [Hc|k Hk Hc] Hsmall.
  - rewrite read_tlv_short by done.
    assert (len (tag :: len content :: content) = 2 + len content) as -> by len_lia.
    by replace (len pre + (2 + len content) - len content) with (len pre + 2) by lia;
      rewrite Z.add_assoc.
  - rewrite read_tlv_long by done.
    assert (len (tag :: (128 + Z.of_nat k) :: to_be_bytes k (len content) ++ content)
            = 2 + Z.of_nat k + len content) as -> by len_lia.
    by replace (len pre + (2 + Z.of_nat k + len content) - len content)
      with (len pre + 2 + Z.of_nat k) by lia; rewrite !Z.add_assoc.
Qed.

(** Two bytes at a position split the input there. *)
Lemma split_at_header (input : byte_list) (offset : nat) tag b :
  input !! offset = Some tag → input !! (offset + 1)%nat = Some b →
  ∃ pre rest, input = pre ++ tag :: b :: rest ∧ offset = length pre.
Proof.
  intros (pre & after & -> & ->)%list_elem_of_split_length Hb. exists pre.
  rewrite lookup_app_r in Hb by lia. replace (length pre + 1 - length pre)%nat with 1%nat in Hb by lia.
  destruct after as [|x rest]; [done|]. injection Hb as ->. by exists rest.
Qed.

(** A prefix of known length. *)
Lemma split_prefix (l : byte_list) n : (0 ≤ n ≤ len l) → ∃ a b, l = a ++ b ∧ len a = n.
Proof.
  intros Hn. exists (take (Z.to_nat n) l), (drop (Z.to_nat n) l).
  split; [by rewrite take_drop|len_lia].
Qed.

(** The end of a successful read. *)
Lemma content_bounds_inv (input : byte_list) (tag length start : Z) r :
  (content_end ← checked_add start length;
   if len input <? content_end then None else Some (tag, start, content_end, content_end)) = Some r →
  start + length ≤ len input ∧ r = (tag, start, start + length, start + length).
Proof.
  unfold checked_add. destruct (Z.ltb_spec u64_max (start + length)); [done|]. csimpl.
  destruct (Z.ltb_spec (len input) (start + length)); [done|]. by intros [= <-].
Qed.

(** What a long read has read. *)
Lemma long_tlv_inv pre tag' k rest r tag start stop next :
  bytes_ok rest → 1 ≤ k ≤ 8 →
  (header ← (bytes ← get_slice (Z.to_nat (len pre + 2)) (Z.to_nat (len pre + 2 + k))
                       (pre ++ tag' :: 128 + k :: rest);
             length ← read_length 0 bytes; Some (length, len pre + 2 + k));
   r header) = Some (tag, start, stop, next) →
  (∀ length, r (length, len pre + 2 + k) =
     (content_end ← checked_add (len pre + 2 + k) length;
      if len (pre ++ tag' :: 128 + k :: rest) <? content_end then None
      else Some (tag', len pre + 2 + k, content_end, content_end))) →
  ∃ body content post,
    pre ++ tag' :: 128 + k :: rest = pre ++ body ++ post ∧ tlv tag content body ∧
    start = len pre + len body - len content ∧ stop = len pre + len body ∧ next = stop.
Proof.
  intros Hrest Hk Hread Hr.
  destruct (get_slice _ _ _) as [bytes|] eqn:Hs; [|done]. csimpl in Hread.
  pose proof (get_slice_inv _ _ _ _ Hs) as [_ Hbounds].
  destruct (split_prefix rest k) as (bs & rest' & -> & Hlen); [len_lia|].
  assert (bytes = bs) as ->.
  { pose proof (get_slice_mid (pre ++ [tag'; 128 + k]) bs rest'
      (Z.to_nat (len pre + 2)) (Z.to_nat (len pre + 2 + k))) as Hm.
    rewrite <- app_assoc in Hm. simpl in Hm. rewrite Hm in Hs by len_lia. by simplify_eq. }
  apply Forall_app in Hrest as [Hbs Hrest]. pose proof (from_be_bytes_range bs Hbs) as Hrange.
  rewrite read_length_ok in Hread; [|done|lia|].
  2: { rewrite Hlen, Z.mul_1_l. transitivity (256 ^ 8); [|done]. apply Z.pow_le_mono_r; lia. }
  csimpl in Hread. rewrite Z.mul_0_l, Z.add_0_l in Hread. rewrite Hr in Hread.
  apply content_bounds_inv in Hread as [Hle Heq]. injection Heq as -> -> -> ->.
  destruct (split_prefix rest' (from_be_bytes bs)) as (content & post & -> & Hcontent); [len_lia|].
  assert (k = Z.of_nat (length bs)) as Hkl by (rewrite <- Hlen; done).
  exists (tag' :: 128 + k :: to_be_bytes (length bs) (len content) ++ content), content, post.
  split; [|split_and!; [rewrite Hkl; constructor; [lia|]| | |]; try done; len_lia].
  simpl. rewrite Hcontent, to_from_be_bytes by done. by rewrite <- app_assoc.
Qed.

(** The length byte of a successful read: short, or the number of length bytes. *)
Lemma read_tlv_inv input offset tag start stop next :
  bytes_ok input → 0 ≤ offset → read_tlv input offset = Some (tag, start, stop, next) →
  ∃ pre body content post,
    input = pre ++ body ++ post ∧ offset = len pre ∧ tlv tag content body ∧
    start = len pre + len body - len content ∧ stop = len pre + len body ∧ next = stop.
Proof.
  intros Hin Hoff. unfold read_tlv.
  destruct (input !! Z.to_nat offset) as [tag'|] eqn:Ht; [|done]. csimpl.
  destruct (input !! Z.to_nat (offset + 1)) as [b|] eqn:Hb; [|done]. csimpl.
  replace (Z.to_nat (offset + 1)) with (Z.to_nat offset + 1)%nat in Hb by lia.
  destruct (split_at_header _ _ _ _ Ht Hb) as (pre & rest & -> & Hpre). clear Ht Hb.
  assert (offset = len pre) as -> by (unfold len; lia). clear Hpre.
  apply Forall_app in Hin as [_ Hin]. apply Forall_cons in Hin as [_ Hin].
  apply Forall_cons in Hin as [Hb Hrest]. pose proof (length_byte_form b Hb) as Hform.
  destruct (Z.eqb_spec (Z.land b 128) 0) as [Hz|Hz].
  - csimpl. intros [Hle Heq]%content_bounds_inv. simplify_eq.
    destruct (split_prefix rest b) as (content & post & -> & Hlen); [len_lia|].
    exists pre, (tag' :: len content :: content), content, post. subst b.
    split_and!; try done; [by constructor| |]; len_lia.
  - destruct ((Z.land b 127 =? 0) || (8 <? Z.land b 127)) eqn:Hk; [done|].
    destruct Hform as [Hform Hrange]. set (k := Z.land b 127) in *. clearbody k. to_props.
    subst b. intros Hread. destruct (long_tlv_inv pre tag' k rest _ tag start stop next Hrest
      ltac:(lia) Hread (λ _, eq_refl)) as (body & content & post & Heq & Htlv).
    by exists pre, body, content, post.
Qed.

(** The content of a TLV, sliced out of its context. *)
Lemma tlv_content tag content body : tlv tag content body → ∃ header, body = header ++ content.
Proof. intros [|]; [by exists [tag; len content]|eexists (tag :: _ :: _); done]. Qed.

Lemma index_slice_mid (pre mid post : byte_list) a b :
  a = len pre → b = len pre + len mid → index_slice a b (pre ++ mid ++ post) = Some mid.
Proof. intros -> ->. unfold index_slice. apply get_slice_mid; len_lia. Qed.

Lemma slice_content pre tag content body post :
  tlv tag content body →
  index_slice (len pre + len body - len content) (len pre + len body) (pre ++ body ++ post) = Some content.
Proof.
  intros [header ->]%tlv_content.
  replace (pre ++ (header ++ content) ++ post) with ((pre ++ header) ++ content ++ post)
    by (by rewrite <- !app_assoc).
  apply index_slice_mid; len_lia.
Qed.

(** The fields before the key. *)
Lemma skip_fields_at n pre body post :
  fields n body → len (pre ++ body ++ post) ≤ u64_max →
  skip_fields n (pre ++ body ++ post) (len pre) = Some (len pre + len body).
Proof.
  intros Hfields. revert pre. induction Hfields as [|n tag content field rest Htlv Hfields IH];
    intros pre Hsmall; simpl skip_fields.
  - f_equal. len_lia.
  - replace (pre ++ (field ++ rest) ++ post) with (pre ++ field ++ (rest ++ post)) in *
      by (by rewrite <- !app_assoc).
    rewrite (read_tlv_at _ _ _ _ _ Htlv Hsmall). csimpl.
    specialize (IH (pre ++ field)). rewrite <- !app_assoc in IH. rewrite <- len_app, IH by done.
    f_equal. len_lia.
Qed.

Lemma skip_fields_inv n input offset offset' :
  bytes_ok input → 0 ≤ offset → skip_fields n input offset = Some offset' →
  (n = 0%nat ∧ offset' = offset) ∨
  ∃ pre body post, input = pre ++ body ++ post ∧ offset = len pre ∧ fields n body ∧
                   offset' = len pre + len body.
Proof.
  intros Hin. revert offset. induction n as [|n IH]; intros offset Hoff; simpl; [by left; simplify_eq|].
  destruct (read_tlv input offset) as [[[[tag start] stop] next]|] eqn:Hread; [|done]. csimpl.
  intros Hskip. right.
  destruct (read_tlv_inv _ _ _ _ _ _ Hin Hoff Hread)
    as (pre & field & content & post & Heq & -> & Htlv & _ & -> & ->).
  pose proof (len_nonneg field). pose proof (len_nonneg pre).
  destruct (IH (len pre + len field) ltac:(lia) Hskip) as
    [[-> ->]|(pre' & body & post' & Heq' & Hlen & Hfields & ->)].
  - exists pre, (field ++ []), post. split_and!; [by rewrite app_nil_r|done| |len_lia].
    eapply fields_cons; [done|constructor].
  - assert (pre' = pre ++ field ∧ body ++ post' = post) as [-> <-].
    { apply app_inj_1; [len_lia|]. rewrite <- app_assoc. congruence. }
    exists pre, (field ++ body), post'. split_and!; [by rewrite <- !app_assoc|done| |len_lia].
    by eapply fields_cons.
Qed.

(** A TLV that fills its input. *)
Lemma read_tlv_first (body content post : byte_list) tag :
  tlv tag content body → len (body ++ post) ≤ u64_max →
  read_tlv (body ++ post) 0 = Some (tag, len body - len content, len body, len body).
Proof. exact (read_tlv_at [] tag content body post). Qed.

Lemma read_tlv_first_inv input tag start stop next :
  bytes_ok input → read_tlv input 0 = Some (tag, start, stop, next) →
  ∃ body content post,
    input = body ++ post ∧ tlv tag content body ∧
    start = len body - len content ∧ stop = len body ∧ next = len body.
Proof.
  intros Hin Hread. destruct (read_tlv_inv _ _ _ _ _ _ Hin (Z.le_refl 0) Hread)
    as (pre & body & content & post & -> & Hlen & Htlv & -> & -> & ->).
  destruct pre; [|len_lia]. exists body, content, post. split_and!; len_lia || done.
Qed.

(** The body of a certificate, sliced out of the whole. *)
Lemma slice_body (certificate content tbs body rest : byte_list) tag1 tag2 :
  tlv tag1 content certificate → content = body ++ rest → tlv tag2 tbs body →
  index_slice (len certificate - len content) (len certificate) certificate = Some content ∧
  index_slice (len certificate - len content + (len body - len tbs))
    (len certificate - len content + len body) certificate = Some tbs.
Proof.
  intros Hc -> Hb. pose proof (slice_content [] _ _ _ [] Hc) as Hs. rewrite app_nil_r in Hs.
  split; [exact Hs|]. destruct (tlv_content _ _ _ Hc) as [header ->].
  rewrite <- (slice_content header _ _ _ rest Hb). f_equal; len_lia.
Qed.

(** The position of the key. *)
Lemma before_key_offset pre post :
  before_key pre → len (pre ++ post) ≤ u64_max →
  ∃ tag start stop next,
    read_tlv (pre ++ post) 0 = Some (tag, start, stop, next) ∧
    skip_fields 5 (pre ++ post) (if tag =? 160 then next else 0) = Some (len pre).
Proof.
  intros [content version rest Hv Hf|rest Hf Htag] Hsmall.
  - rewrite <- !app_assoc in *. rewrite (read_tlv_first _ _ _ _ Hv Hsmall).
    eexists _, _, _, _. split; [reflexivity|]. cbn [Z.eqb Pos.eqb].
    rewrite (skip_fields_at 5 version rest post Hf Hsmall), len_app. done.
  - pose proof (skip_fields_at 5 [] rest post Hf Hsmall) as Hskip. inversion Hf as [|n tag content field rest' Ht Hr]; subst.
    rewrite <- (app_assoc field) in *. rewrite (read_tlv_first _ _ _ _ Ht Hsmall).
    eexists _, _, _, _. split; [reflexivity|]. cbn [Z.eqb Pos.eqb].
    destruct (Z.eqb_spec tag 160) as [->|_]; [|exact Hskip].
    destruct Htag. by destruct Ht.
Qed.

Lemma before_key_inv input tag start stop next offset :
  bytes_ok input → read_tlv input 0 = Some (tag, start, stop, next) →
  skip_fields 5 input (if tag =? 160 then next else 0) = Some offset →
  ∃ pre post, input = pre ++ post ∧ before_key pre ∧ offset = len pre.
Proof.
  intros Hin Hread Hskip.
  destruct (read_tlv_first_inv _ _ _ _ _ Hin Hread) as (body & content & post & -> & Htlv & _ & _ & ->).
  destruct (Z.eqb_spec tag 160) as [->|Hne]; apply skip_fields_inv in Hskip; try done; try len_lia.
  - destruct Hskip as [[? _]|(pre & rest & post' & Heq & Hlen & Hf & ->)]; [done|].
    assert (body = pre ∧ post = rest ++ post') as [<- ->] by (apply app_inj_1; [len_lia|done]).
    exists (body ++ rest), post'. split_and!; [by rewrite app_assoc| |len_lia]. by eapply with_version.
  - destruct Hskip as [[? _]|(pre & rest & post' & Heq & Hlen & Hf & ->)]; [done|].
    destruct pre; [|len_lia]. exists rest, post'. split_and!; [done| |done].
    apply without_version; [done|]. simpl in Heq. intros Htag. apply Hne.
    assert (tag_of (rest ++ post') = Some 160) as Hrest by (by apply lookup_app_l_Some).
    rewrite <- Heq in Hrest. destruct Htlv; by injection Hrest.
Qed.

Section reader.
Context `{Sha256Lib}.

Lemma spki_complete spki certificate :
  certificate_with_key spki certificate → len certificate ≤ u64_max →
  spki_sha256 certificate = Some (Ok (sha256 spki)).
Proof.
  intros [pre tag key post tbs signature cert Hpre Hkey Htbs Hcert] Hsmall.
  destruct (slice_body _ _ _ _ _ _ _ Hcert eq_refl Htbs) as [Hs1 Hs2].
  pose proof (tlv_len _ _ _ Hcert) as [_ Hl1]. pose proof (tlv_len _ _ _ Htbs) as [_ Hl2].
  pose proof (read_tlv_first _ _ [] _ Hcert) as Hr1. rewrite app_nil_r in Hr1.
  pose proof (read_tlv_first _ _ signature _ Htbs) as Hr2.
  pose proof (len_nonneg signature). rewrite len_app in Hl1.
  unfold spki_sha256. rewrite Hr1 by done. cbn [ok_or]. rewrite !Z.eqb_refl. cbn [negb orb].
  rewrite Hs1, Hr2 by (rewrite len_app; lia). cbn [ok_or Z.eqb Pos.eqb negb].
  rewrite Hs2. destruct (before_key_offset pre (spki ++ post) Hpre) as (t & start & stop & next & Hr & Hskip); [lia|].
  rewrite Hr. cbn [ok_or]. rewrite Hskip. cbn [ok_or].
  rewrite (read_tlv_at pre tag key spki post Hkey) by lia. cbn [ok_or].
  by rewrite index_slice_mid by lia.
Qed.

Lemma spki_sound certificate :
  bytes_ok certificate →
  match spki_sha256 certificate with
  | None => False
  | Some (Err _) => True
  | Some (Ok digest) => ∃ spki, certificate_with_key spki certificate ∧ digest = sha256 spki
  end.
Proof.
  intros Hin. unfold spki_sha256.
  destruct (read_tlv certificate 0) as [[[[tag start] stop] next]|] eqn:Hread; [|done]. cbn [ok_or].
  destruct (read_tlv_first_inv _ _ _ _ _ Hin Hread) as (body & content & post & -> & Hc & -> & -> & ->).
  destruct (Z.eqb_spec tag 48) as [->|_]; [|done].
  destruct (Z.eqb_spec (len body) (len (body ++ post))) as [Hlen|_]; [|done]. cbn [negb orb].
  destruct post; [rewrite app_nil_r in *|len_lia]. clear Hread Hlen.
  pose proof (slice_content [] _ _ _ [] Hc) as Hs. rewrite app_nil_r in Hs.
  change (index_slice (len body - len content) (len body) body = Some content) in Hs. rewrite Hs. clear Hs.
  pose proof Hin as Hcontent. destruct (tlv_content _ _ _ Hc) as [header Hbody]. rewrite Hbody in Hcontent.
  apply Forall_app in Hcontent as [_ Hcontent].
  destruct (read_tlv content 0) as [[[[tag start] stop] next]|] eqn:Hread; [|done]. cbn [ok_or].
  destruct (read_tlv_first_inv _ _ _ _ _ Hcontent Hread) as (tbody & tbs & sig & -> & Ht & -> & -> & ->).
  destruct (Z.eqb_spec tag 48) as [->|_]; [|done]. cbn [negb].
  destruct (slice_body _ _ _ _ _ _ _ Hc eq_refl Ht) as [_ ->].
  apply Forall_app in Hcontent as [Htbs _]. destruct (tlv_content _ _ _ Ht) as [theader Htbody].
  rewrite Htbody in Htbs. apply Forall_app in Htbs as [_ Htbs].
  destruct (read_tlv tbs 0) as [[[[tag start] stop] next]|] eqn:Hread'; [|done]. cbn [ok_or].
  destruct (skip_fields 5 tbs _) as [offset|] eqn:Hskip; [|done]. cbn [ok_or].
  destruct (before_key_inv _ _ _ _ _ _ Htbs Hread' Hskip) as (pre & post & -> & Hpre & ->).
  destruct (read_tlv (pre ++ post) (len pre)) as [[[[ktag kstart] kstop] knext]|] eqn:Hkey; [|done]. cbn [ok_or].
  destruct (read_tlv_inv _ _ _ _ _ _ Htbs (len_nonneg pre) Hkey)
    as (pre' & spki & key & post' & Heq & Hlen & Hk & _ & -> & ->).
  assert (pre = pre' ∧ post = spki ++ post') as [<- ->] by (apply app_inj_1; [len_lia|done]).
  rewrite index_slice_mid by lia. exists spki. split; [|done]. by econstructor.
Qed.
End reader.

(** ** The verifier decides exactly *)

Section verdict.
Context `{Sha256Lib, RustlsLib} (record_failure : TlsVerificationFailure → option TlsVerificationFailure → option TlsVerificationFailure).

(** The checks of rustls, all passed. *)
Definition trusted (end_entity : byte_list) (intermediates : list byte_list) (server_name : string)
    (now : Z) : Prop :=
  ∃ certificate, parse_certificate end_entity = Ok certificate ∧
    verify_server_name certificate server_name = Ok tt ∧ add_root end_entity = Ok tt ∧
    verify_chain certificate end_entity intermediates now = Ok tt.

Lemma inspected_cases {A} (r : result string A) recorded :
  (∃ a, r = Ok a ∧ inspected record_failure r recorded = (Ok a, recorded)) ∨
  (∃ text, r = Err text ∧ inspected record_failure r recorded
                          = (Err (RustlsError text), record_failure InvalidCertificate recorded)).
Proof. destruct r; [left|right]; by eexists. Qed.

(** The branch in which a check of rustls has failed with [t]. *)
Local Ltac refuted t :=
  right; exists t; split; [done|]; intros (? & ? & ? & ? & ?); simplify_eq; congruence.

Lemma verify_trusted_cases end_entity intermediates server_name now recorded :
  let verdict := verify_trusted record_failure end_entity intermediates server_name now recorded in
  (verdict = (Ok tt, recorded) ∧ trusted end_entity intermediates server_name now) ∨
  (∃ text, verdict = (Err (RustlsError text), record_failure InvalidCertificate recorded) ∧
           ¬ trusted end_entity intermediates server_name now).
Proof.
  unfold verify_trusted, trusted, se_bind.
  destruct (inspected_cases (parse_certificate end_entity) recorded) as [(c & Hc & ->)|(t & Hc & ->)];
    [|refuted t].
  destruct (inspected_cases (verify_server_name c server_name) recorded) as [([] & Hn & ->)|(t & Hn & ->)];
    [|refuted t].
  destruct (inspected_cases (add_root end_entity) recorded) as [([] & Hr & ->)|(t & Hr & ->)];
    [|refuted t].
  destruct (inspected_cases (verify_chain c end_entity intermediates now) recorded)
    as [([] & Hv & ->)|(t & Hv & ->)]; [left|refuted t].
  split; [done|]. by exists c.
Qed.
End verdict.

(** The digest of an arbitrary certificate, with the identity as the hash: the bytes
    of the key itself. *)
Lemma spki_unique spki spki' certificate :
  len certificate ≤ u64_max →
  certificate_with_key spki certificate → certificate_with_key spki' certificate → spki = spki'.
Proof.
  intros Hsmall H1 H2. pose (identity := {| sha256 := λ l, l |}).
  pose proof (spki_complete (H:=identity) _ _ H1 Hsmall) as E1.
  pose proof (spki_complete (H:=identity) _ _ H2 Hsmall) as E2. rewrite E1 in E2. by injection E2.
Qed.

(** The reader finds exactly the key. *)
Lemma spki_exact `{Sha256Lib} (certificate : byte_list) :
  bytes_ok certificate → len certificate ≤ u64_max →
  (∃ r, spki_sha256 certificate = Some r ∧
     ∀ digest, r = Ok digest ↔ ∃ spki, certificate_with_key spki certificate ∧ digest = sha256 spki) ∧
  (∀ spki spki', certificate_with_key spki certificate → certificate_with_key spki' certificate →
     spki = spki').
Proof.
  intros Hin Hsmall. split; [|intros spki spki'; by apply spki_unique].
  pose proof (spki_sound certificate Hin) as Hsound.
  destruct (spki_sha256 certificate) as [r|] eqn:Hr; [|done]. exists r. split; [done|].
  intros digest. split; [by intros ->|].
  intros (spki & Hspki & ->). rewrite (spki_complete spki) in Hr by done. by simplify_eq.
Qed.

(** The verdict of the verifier, and what it records. *)
Lemma verifier_exact `{Sha256Lib, RustlsLib}
    (record_failure : TlsVerificationFailure → option TlsVerificationFailure → option TlsVerificationFailure)
    (expected end_entity : byte_list) (intermediates : list byte_list) (server_name : string) (now : Z)
    (recorded : option TlsVerificationFailure) :
  (∀ l, length (sha256 l) = 32%nat) → length expected = 32%nat →
  bytes_ok end_entity → len end_entity ≤ u64_max →
  ∃ r recorded',
    verify_server_cert record_failure expected end_entity intermediates server_name now recorded
      = Some (r, recorded') ∧
    (r = Ok tt ↔ (∃ spki, certificate_with_key spki end_entity ∧ sha256 spki = expected) ∧
                 trusted end_entity intermediates server_name now) ∧
    (r = Ok tt → recorded' = recorded) ∧
    (∀ e, r = Err e → ∃ failure, recorded' = record_failure failure recorded ∧
       match failure with
       | PinMismatch pin actual =>
           pin = expected ∧
           ∃ spki, certificate_with_key spki end_entity ∧ actual = sha256 spki ∧ actual ≠ expected
       | InvalidCertificate =>
           ∀ spki, certificate_with_key spki end_entity → sha256 spki = expected
       end).
Proof.
  intros Hlen Hexp Hin Hsmall. unfold verify_server_cert.
  destruct (spki_exact end_entity Hin Hsmall) as [([actual|[]] & -> & Hr) Hone].
  2: { eexists _, _. split; [done|]. split_and!; [|done|].
       - split; [done|]. intros [(spki & Hspki & _) _].
         by discriminate (proj2 (Hr (sha256 spki)) (ex_intro _ spki (conj Hspki eq_refl))).
       - intros e _. eexists. split; [done|]. intros spki Hspki.
         by discriminate (proj2 (Hr (sha256 spki)) (ex_intro _ spki (conj Hspki eq_refl))). }
  destruct (proj1 (Hr actual) eq_refl) as (spki & Hspki & ->).
  assert (∀ spki', certificate_with_key spki' end_entity → spki' = spki) as Hkey by eauto.
  pose proof (ct_eq_spec (sha256 spki) expected ltac:(by rewrite Hlen, Hexp)) as Hct.
  destruct (Fingerprint.ct_eq (sha256 spki) expected); simpl.
  - pose proof (proj1 Hct eq_refl) as Hpin.
    destruct (verify_trusted_cases record_failure end_entity intermediates server_name now recorded)
      as [[-> Ht]|(text & -> & Ht)]; eexists _, _; (split; [done|]).
    + split_and!; [|done|done]. split; [|done]. eauto.
    + split_and!; [|done|].
      * split; [done|]. by intros [_ ?].
      * intros e _. eexists. split; [done|]. by intros spki' ->%Hkey.
  - assert (sha256 spki ≠ expected) as Hne by (by intros ?%Hct).
    eexists _, _. split; [done|]. split_and!; [|done|].
    + split; [done|]. by intros [(spki' & ->%Hkey & ?) _].
    + intros e _. eexists. split; [done|]. split; [done|]. eauto.
Qed.

(** ** Handshakes *)

(** What a server presents in a handshake. *)
Record Peer := mkPeer {
  peer_leaf : byte_list;
  peer_chain : list byte_list;
  peer_name : string;
  peer_now : Z;
}.

Section handshakes.
Context `{Sha256Lib, RustlsLib}.

(** Why the verifier refuses a peer, if it does. *)
Definition refusal (pin : byte_list) (peer : Peer) : option TlsVerificationFailure :=
  match verify_server_cert record_last pin (peer_leaf peer) (peer_chain peer) (peer_name peer) (peer_now peer) None with
  | Some (Err _, recorded) => recorded
  | _ => None
  end.

(** What a refusal says is so. *)
Definition refusal_true (pin leaf : byte_list) (f : TlsVerificationFailure) : Prop :=
  match f with
  | PinMismatch expected actual =>
      expected = pin ∧ ∃ spki, certificate_with_key spki leaf ∧ actual = sha256 spki ∧ actual ≠ pin
  | InvalidCertificate => ∀ spki, certificate_with_key spki leaf → sha256 spki = pin
  end.

(** The verdict does not depend on what was recorded. *)
Lemma verify_recorded pin leaf chain name now recorded :
  verify_server_cert record_last pin leaf chain name now recorded
  = match verify_server_cert record_last pin leaf chain name now None with
    | Some (Ok u, _) => Some (Ok u, recorded)
    | verdict => verdict
    end.
Proof.
  unfold verify_server_cert, verify_trusted, se_bind, inspected, record_last.
  repeat (case_match; simplify_eq/=; try done).
Qed.

(** A handshake is accepted and leaves the cell alone, or refused with its own reason. *)
Lemma handshake_cases pin peer recorded :
  (∀ l, length (sha256 l) = 32%nat) → length pin = 32%nat → bytes_ok (peer_leaf peer) → len (peer_leaf peer) ≤ u64_max →
  let verdict := verify_server_cert record_last pin (peer_leaf peer) (peer_chain peer) (peer_name peer) (peer_now peer) recorded in
  (verdict = Some (Ok tt, recorded) ∧ refusal pin peer = None) ∨
  ∃ e f, verdict = Some (Err e, Some f) ∧ refusal pin peer = Some f ∧ refusal_true pin (peer_leaf peer) f.
Proof.
  intros Hsha Hpin Hb Hl. cbv zeta. rewrite verify_recorded. unfold refusal.
  destruct (verifier_exact record_last pin (peer_leaf peer) (peer_chain peer) (peer_name peer) (peer_now peer) None)
    as (r & recorded' & -> & _ & Hok & Herr); [done..|].
  destruct r as [[]|e]; [by left|right]. destruct (Herr e eq_refl) as (f & -> & Hf). by exists e, f.
Qed.

End handshakes.

(** ** Properties *)

(** The pin is taken from the certificate's key and nothing else. For every byte
    string the reader of the leaf certificate returns without a panic; it finds a key
    exactly when the string is a certificate of the format, with any definite length
    form of up to eight bytes, and then the digest is that of the complete encoding of
    its one key. *)
Theorem spki_digest_exact `{Sha256Lib} (certificate : byte_list) :
  bytes_ok certificate → len certificate ≤ u64_max →
  (∃ r, spki_sha256 certificate = Some r ∧
     ∀ digest, r = Ok digest ↔ ∃ spki, certificate_with_key spki certificate ∧ digest = sha256 spki) ∧
  (∀ spki spki', certificate_with_key spki certificate → certificate_with_key spki' certificate →
     spki = spki').
Proof. apply spki_exact. Qed.

(** C38: nothing is trusted without the pin. The verifier accepts a leaf exactly when its
    key has the digest of the card and rustls accepts the certificate itself, the
    server name, and the chain to the leaf as the only root; then it records nothing.
    Every refusal is recorded, as a pin mismatch exactly when the leaf is a
    certificate with another key. *)
Theorem pinned_verifier_exact `{Sha256Lib, RustlsLib}
    (record_failure : TlsVerificationFailure → option TlsVerificationFailure → option TlsVerificationFailure)
    (expected end_entity : byte_list) (intermediates : list byte_list) (server_name : string) (now : Z)
    (recorded : option TlsVerificationFailure) :
  (∀ l, length (sha256 l) = 32%nat) → length expected = 32%nat →
  bytes_ok end_entity → len end_entity ≤ u64_max →
  ∃ r recorded',
    verify_server_cert record_failure expected end_entity intermediates server_name now recorded
      = Some (r, recorded') ∧
    (r = Ok tt ↔ (∃ spki, certificate_with_key spki end_entity ∧ sha256 spki = expected) ∧
                 trusted end_entity intermediates server_name now) ∧
    (r = Ok tt → recorded' = recorded) ∧
    (∀ e, r = Err e → ∃ failure, recorded' = record_failure failure recorded ∧
       match failure with
       | PinMismatch pin actual =>
           pin = expected ∧
           ∃ spki, certificate_with_key spki end_entity ∧ actual = sha256 spki ∧ actual ≠ expected
       | InvalidCertificate =>
           ∀ spki, certificate_with_key spki end_entity → sha256 spki = expected
       end).
Proof. apply verifier_exact. Qed.

(** ** A concrete certificate *)

Module ToyTls.
#[export] Instance sha : Sha256Lib := {| sha256 l := replicate 32 (from_be_bytes l mod 256) |}.

#[export] Instance rustls : RustlsLib := {|
  ParsedCertificate := unit;
  parse_certificate _ := Ok tt;
  verify_server_name _ name := if bool_decide (name = "example.org"%string) then Ok tt else Err "name"%string;
  add_root _ := Ok tt;
  verify_chain _ _ _ now := if now <? 100 then Ok tt else Err "expired"%string;
|}.

Definition spki : byte_list := [48; 1; 7].

(** A version, five empty fields, the key, and a signature of one byte; the outer
    length is in the long form. *)
Definition certificate : byte_list :=
  [48; 129; 21; 48; 18; 160; 3; 2; 1; 2; 2; 0; 2; 0; 2; 0; 2; 0; 2; 0; 48; 1; 7; 9].
End ToyTls.

#[local] Existing Instance ToyTls.sha.
#[local] Existing Instance ToyTls.rustls.

Example toy_digest : spki_sha256 ToyTls.certificate = Some (Ok (sha256 ToyTls.spki)).
Proof. vm_compute. reflexivity. Qed.

Lemma toy_bytes_ok : bytes_ok ToyTls.certificate.
Proof. repeat constructor; lia. Qed.

Lemma spki_digest_exact_witness :
  ∃ key, certificate_with_key key ToyTls.certificate ∧ sha256 ToyTls.spki = sha256 key.
Proof.
  destruct (spki_digest_exact ToyTls.certificate toy_bytes_ok ltac:(vm_compute; congruence))
    as [(r & Hr & Hexact) _].
  apply (proj1 (Hexact (sha256 ToyTls.spki))). rewrite toy_digest in Hr. congruence.
Defined.

Lemma pinned_verifier_exact_witness :
  ∃ r recorded',
    verify_server_cert record_last (sha256 ToyTls.spki) ToyTls.certificate [] "example.org" 5 None
      = Some (r, recorded') ∧
    (r = Ok tt → recorded' = None).
Proof.
  destruct (pinned_verifier_exact record_last (sha256 ToyTls.spki) ToyTls.certificate []
    "example.org" 5 None) as (r & recorded' & Hv & _ & Hok & _);
    [done|done|exact toy_bytes_ok|vm_compute; congruence|].
  exists r, recorded'. by split.
Defined.
