(* ===== verification/VoiceTypes.v ===== *)
(** Shared data of the UDP voice transport (crates/zephyrvox-voice/src): the
    errors of error.rs, the lifecycle of lifecycle.rs, the control packets of
    decode.rs. *)

From S2P Require Import Prelude Text Types.

(** ** decode.rs: revocation reasons *)

Inductive RevocationReason :=
| Replaced
| Revoked
| Unknown (value : Z).

#[global] Instance RevocationReason_eq_dec : EqDecision RevocationReason.
Proof. solve_decision. Defined.

Definition from_wire (value : Z) : RevocationReason :=
  if value =? 1 then Replaced
  else if value =? 2 then Revoked
  else Unknown value.

Definition as_wire (r : RevocationReason) : Z :=
  match r with
  | Replaced => 1
  | Revoked => 2
  | Unknown value => value
  end.

Inductive PacketControl :=
| Heartbeat
| Revocation (r : RevocationReason).

#[global] Instance PacketControl_eq_dec : EqDecision PacketControl.
Proof. solve_decision. Defined.

(** ** error.rs *)

Inductive PacketError :=
| Truncated
| Oversized
| InvalidMagic
| PacketUnsupportedVersion (v : Z)
| InvalidFlags
| WrongSession
| SequenceZero
| AuthenticationFailed
| InvalidControlPacket
| InvalidSpeaker
| UnknownStreamType (t : Z)
| PayloadTooLarge (actual maximum : Z)
| HeartbeatStream.

#[global] Instance PacketError_eq_dec : EqDecision PacketError.
Proof. solve_decision. Defined.

(** The [io::Error] of [Transport] is kept as its text. *)
Inductive VoiceError :=
| Configuration (text : string)
| Endpoint (text : string)
| Transport (io_error : string)
| Packet (e : PacketError)
| KeyUnavailable
| ProtocolVersionMismatch (expected actual : Z)
| QueueFull
| MediaLagged (missed : Z)
| Closed
| NotActive
| SequenceExhausted
| VoiceRevoked (r : RevocationReason).

#[global] Instance VoiceError_eq_dec : EqDecision VoiceError.
Proof. solve_decision. Defined.

(** ** lifecycle.rs *)

Inductive VoiceStatus :=
| Idle
| Joining
| Active
| Disconnecting
| Disconnected
| StatusRevoked (r : RevocationReason).

#[global] Instance VoiceStatus_eq_dec : EqDecision VoiceStatus.
Proof. solve_decision. Defined.

Definition is_terminal (s : VoiceStatus) : bool :=
  match s with Disconnected | StatusRevoked _ => true | _ => false end.

Definition is_active (s : VoiceStatus) : bool :=
  match s with Active => true | _ => false end.

(** ** Lemmas *)

Lemma from_as_wire_known r : r ≠ Unknown 1 → r ≠ Unknown 2 → from_wire (as_wire r) = r.
Proof.
  intros H1 H2. destruct r as [| |v]; [done..|]. unfold from_wire, as_wire.
  destruct (Z.eqb_spec v 1) as [->|]; [done|]. by destruct (Z.eqb_spec v 2) as [->|].
Qed.

Lemma as_from_wire v : as_wire (from_wire v) = v.
Proof.
  unfold from_wire. destruct (Z.eqb_spec v 1) as [->|]; [done|].
  by destruct (Z.eqb_spec v 2) as [->|].
Qed.
