(* ===== verification/VoiceConfig.v ===== *)
(** Negotiated voice configuration and session keys
    (crates/zephyrvox-voice/src/config.rs). *)

From stdpp Require Import sorting.
From S2P Require Import Prelude Text IpAddr Types Wire VoiceTypes.

(** ** Session keys *)

Module SessionKey.
Definition from_bytes (bytes : byte_list) : byte_list := bytes.

Definition from_slice (bytes : byte_list) : result VoiceError byte_list :=
  if len bytes =? 32 then Ok (from_bytes bytes)
  else Err (Configuration "voice session key must be exactly 32 bytes").

Definition ok (key : byte_list) : Prop := length key = 32%nat ∧ bytes_ok key.
End SessionKey.

(** The cache is shared behind a mutex: every operation is one critical
    section, a function of the map it protects. *)
Abbreviation SessionKeyCache := (gmap (list Z) (list Z)) (only parsing).

Module KeyCache.
Definition new : SessionKeyCache := ∅.
Definition insert (keys : SessionKeyCache) (session_id key : byte_list) : SessionKeyCache :=
  <[session_id := key]> keys.
Definition get (keys : SessionKeyCache) (session_id : byte_list) : option byte_list :=
  keys !! session_id.
Definition remove (keys : SessionKeyCache) (session_id : byte_list)
    : option byte_list * SessionKeyCache :=
  (keys !! session_id, delete session_id keys).
Definition clear (keys : SessionKeyCache) : SessionKeyCache := ∅.
Definition cache_len (keys : SessionKeyCache) : Z := Z.of_nat (size keys).
Definition is_empty (keys : SessionKeyCache) : bool := cache_len keys =? 0.
End KeyCache.

(** ** Configuration *)

Record VoiceSessionConfig := mkVoiceSessionConfig {
  cfg_endpoint : VoiceEndpoint;
  cfg_session_id : byte_list;
  cfg_protocol_version : Z;
  cfg_encrypted : bool;
  cfg_max_payload : Z;
  cfg_expires_at : Z;
  cfg_session_key : option byte_list;
  cfg_allowed_stream_types : option (list Z);
}.

Definition max_payload_for (encrypted : bool) : Z := max_payload encrypted.

(** [IpAddr::is_unspecified]. *)
Definition is_unspecified (a : IpAddr) : bool :=
  match a with
  | V4 octets => forallb (Z.eqb 0) octets
  | V6 segments => forallb (Z.eqb 0) segments
  end.

Definition validate_endpoint (e : VoiceEndpoint) : result VoiceError unit :=
  if is_blank (VoiceEndpoint_host e) || (VoiceEndpoint_port e =? 0) then
    Err (Configuration "voice endpoint must have a host and non-zero port")
  else if match ip_from_str (str_bytes (VoiceEndpoint_host e)) with
          | Some address => is_unspecified address
          | None => false
          end then
    Err (Configuration "voice endpoint must not be a wildcard address")
  else Ok tt.

(** The text of the payload-limit error. *)
Definition payload_limit_text (encrypted : bool) : string :=
  ("voice payload limit must be between 1 and " +:+ display_u64 (max_payload_for encrypted)
   +:+ " bytes")%string.

Definition new_with_protocol_version (endpoint : VoiceEndpoint) (session_id : byte_list)
    (protocol_version : Z) (encrypted : bool) (max_payload expires_at : Z)
    (session_key : option byte_list) : result VoiceError VoiceSessionConfig :=
  let? _ := validate_endpoint endpoint in
  if negb (protocol_version =? PROTOCOL_VERSION) then
    Err (ProtocolVersionMismatch PROTOCOL_VERSION protocol_version)
  else if (max_payload =? 0) || (max_payload_for encrypted <? max_payload) then
    Err (Configuration (payload_limit_text encrypted))
  else if expires_at <=? 0 then
    Err (Configuration "voice session expiry must be positive")
  else if negb encrypted && negb (bool_decide (session_key = None)) then
    Err (Configuration "plaintext sessions must not carry a session key")
  else
    Ok (mkVoiceSessionConfig endpoint session_id protocol_version encrypted max_payload expires_at
          session_key None).

Definition config_new (endpoint : VoiceEndpoint) (session_id : byte_list) (encrypted : bool)
    (max_payload expires_at : Z) (session_key : option byte_list)
    : result VoiceError VoiceSessionConfig :=
  new_with_protocol_version endpoint session_id PROTOCOL_VERSION encrypted max_payload expires_at
    session_key.

(** [dedup_by_key]: consecutive equal elements are reduced to the first. *)
Fixpoint dedup_adjacent (l : list Z) : list Z :=
  match l with
  | x :: ((y :: _) as rest) => if x =? y then dedup_adjacent rest else x :: dedup_adjacent rest
  | _ => l
  end.

Definition with_stream_types (c : VoiceSessionConfig) (stream_types : list Z)
    : result VoiceError VoiceSessionConfig :=
  let values := dedup_adjacent (merge_sort (≤) stream_types) in
  if (len values =? 0) || existsb StreamTypeId.is_heartbeat values then
    Err (Configuration "voice stream types must contain business types only")
  else
    Ok (mkVoiceSessionConfig (cfg_endpoint c) (cfg_session_id c) (cfg_protocol_version c)
          (cfg_encrypted c) (cfg_max_payload c) (cfg_expires_at c) (cfg_session_key c)
          (Some values)).

(** The cache is optional, shared with other sessions. *)
Definition resolve_key (c : VoiceSessionConfig) (cache : option SessionKeyCache)
    : result VoiceError (option byte_list) :=
  if negb (cfg_encrypted c) then Ok None
  else
    match cfg_session_key c with
    | Some key => Ok (Some key)
    | None =>
        match cache ≫= λ keys, KeyCache.get keys (cfg_session_id c) with
        | Some key => Ok (Some key)
        | None => Err KeyUnavailable
        end
    end.

Definition cache_inline_key (c : VoiceSessionConfig) (cache : option SessionKeyCache)
    : option SessionKeyCache :=
  match cache, cfg_session_key c with
  | Some keys, Some key => Some (KeyCache.insert keys (cfg_session_id c) key)
  | _, _ => cache
  end.

(** ** The invariant of a configuration *)

Record config_ok (c : VoiceSessionConfig) : Prop := {
  config_port : VoiceEndpoint_port (cfg_endpoint c) ≠ 0;
  config_version : cfg_protocol_version c = PROTOCOL_VERSION;
  config_payload : 0 < cfg_max_payload c ≤ max_payload (cfg_encrypted c);
  config_expiry : 0 < cfg_expires_at c;
  config_plain_key : cfg_encrypted c = false → cfg_session_key c = None;
  config_streams : ∀ ts, cfg_allowed_stream_types c = Some ts →
    ts ≠ [] ∧ 0 ∉ ts ∧ NoDup ts;
}.

(** ** Lemmas *)

Lemma elem_of_dedup_adjacent x l : x ∈ dedup_adjacent l ↔ x ∈ l.
Proof.
  induction l as [|y l IH]; [done|]. destruct l as [|z l]; [done|].
  change (dedup_adjacent (y :: z :: l)) with
    (if y =? z then dedup_adjacent (z :: l) else y :: dedup_adjacent (z :: l)).
  destruct (Z.eqb_spec y z) as [->|]; rewrite ?elem_of_cons, IH, !elem_of_cons; tauto.
Qed.

Lemma NoDup_dedup_adjacent l : StronglySorted (≤) l → NoDup (dedup_adjacent l).
Proof.
  induction l as [|y l IH]; [constructor|]. intros [Hs Hall]%StronglySorted_inv.
  destruct l as [|z l]; [by apply NoDup_singleton|].
  change (dedup_adjacent (y :: z :: l)) with
    (if y =? z then dedup_adjacent (z :: l) else y :: dedup_adjacent (z :: l)).
  destruct (Z.eqb_spec y z) as [->|Hne]; [by apply IH|].
  constructor; [|by apply IH]. rewrite elem_of_dedup_adjacent. intros Hin.
  apply Forall_cons in Hall as [Hyz Hall].
  apply StronglySorted_inv in Hs as [_ Hz]. apply elem_of_cons in Hin as [?|Hin]; [done|].
  rewrite Forall_forall in Hz. specialize (Hz y Hin). lia.
Qed.

Lemma new_with_protocol_version_ok e sid v enc mp exp key c :
  0 ≤ mp → new_with_protocol_version e sid v enc mp exp key = Ok c →
  config_ok c ∧ cfg_session_id c = sid ∧ cfg_encrypted c = enc ∧ cfg_session_key c = key ∧
  cfg_allowed_stream_types c = None.
Proof.
  intros Hmp H. unfold new_with_protocol_version, max_payload_for in H.
  apply result_bind_ok in H as ([] & He & H).
  assert (VoiceEndpoint_port e ≠ 0).
  { unfold validate_endpoint in He. destruct (is_blank _); [done|]. simpl in He.
    by destruct (Z.eqb_spec (VoiceEndpoint_port e) 0). }
  repeat (case_match; [done|]). simplify_eq. to_props.
  split; [|done]. constructor; simpl; try done; try lia.
  intros ->. destruct key; [|done]. match goal with H : _ ∨ _ |- _ => destruct H end; done.
Qed.

Lemma with_stream_types_ok c ts c' :
  config_ok c → with_stream_types c ts = Ok c' →
  config_ok c' ∧ (∀ t, (∃ ts', cfg_allowed_stream_types c' = Some ts' ∧ t ∈ ts') ↔ t ∈ ts).
Proof.
  intros [] H. unfold with_stream_types in H.
  destruct (_ || _) eqn:Hv; [done|]. simplify_eq. to_props.
  assert (∀ t, t ∈ dedup_adjacent (merge_sort (≤) ts) ↔ t ∈ ts) as Hin.
  { intros t. rewrite elem_of_dedup_adjacent. by rewrite merge_sort_Permutation. }
  split.
  - constructor; simpl; try done. intros ts' [= <-]. split_and!.
    + intros He. rewrite He in *. done.
    + intros Hz. assert (existsb StreamTypeId.is_heartbeat
        (dedup_adjacent (merge_sort (≤) ts)) = true); [|congruence].
      apply existsb_exists. exists 0. split; [by apply list_elem_of_In|done].
    + apply NoDup_dedup_adjacent, StronglySorted_merge_sort; apply _.
  - intros t. simpl. rewrite <- Hin. naive_solver.
Qed.
