(* ===== verification/VoiceCrypto.v ===== *)
(** Packet protection (crates/zephyrvox-voice/src/crypto.rs). The AEAD and the
    key derivation are the crates aes-gcm and hkdf: the operations are the class
    [CryptoLib], what the transport relies on is the class [CryptoLaws]. *)

From S2P Require Import Prelude Text Types Wire VoiceTypes.

Class CryptoLib := {
  (** The cipher type [Aes256Gcm]. *)
  Cipher : Type;
  (** [Hkdf::<Sha256>::new(Some(salt), ikm)] and [expand(info, &mut \[0; n\])]. *)
  hkdf_expand : byte_list → byte_list → byte_list → nat → option byte_list;
  (** [Aes256Gcm::new_from_slice]. *)
  new_from_slice : byte_list → option Cipher;
  (** [encrypt(nonce, Payload { msg, aad })] and [decrypt]. *)
  aead_encrypt : Cipher → byte_list → byte_list → byte_list → option byte_list;
  aead_decrypt : Cipher → byte_list → byte_list → byte_list → option byte_list;
}.

Class CryptoLaws (L : CryptoLib) := {
  (** HKDF-SHA256 produces up to 8160 bytes. *)
  hkdf_expand_some salt ikm info n : Z.of_nat n ≤ 8160 →
    ∃ out, hkdf_expand salt ikm info n = Some out ∧ length out = n;
  (** AES-256 accepts 32-byte keys. *)
  new_from_slice_some key : length key = 32%nat → is_Some (new_from_slice key);
  (** Messages below the AES-GCM limit are encrypted; the tag is 16 bytes. *)
  encrypt_some c nonce msg aad : len msg < 2 ^ 36 → is_Some (aead_encrypt c nonce msg aad);
  encrypt_length c nonce msg aad ct :
    aead_encrypt c nonce msg aad = Some ct → len ct = len msg + TAG_SIZE;
  encrypt_bytes c nonce msg aad ct :
    bytes_ok msg → aead_encrypt c nonce msg aad = Some ct → bytes_ok ct;
  (** Decryption inverts encryption, and a message it returns encrypts to the
      ciphertext it was given: the tag is recomputed and compared. *)
  decrypt_encrypt c nonce msg aad ct :
    aead_encrypt c nonce msg aad = Some ct → aead_decrypt c nonce ct aad = Some msg;
  encrypt_decrypt c nonce msg aad ct :
    bytes_ok ct → aead_decrypt c nonce ct aad = Some msg →
    aead_encrypt c nonce msg aad = Some ct ∧ bytes_ok msg;
}.

Definition C2S_INFO : byte_list := str_bytes "zephyrvox-voice-c2s-v1".
Definition S2C_INFO : byte_list := str_bytes "zephyrvox-voice-s2c-v1".

Section crypto.
Context `{L : CryptoLib}.

Record DirectionKeys := mkDirectionKeys {
  c2s : Cipher;
  s2c : Cipher;
}.

(** [None] is the panic of one of the two [expect] calls. *)
Definition derive_cipher (session_id master_key info : byte_list) : option Cipher :=
  let* material := hkdf_expand session_id master_key info 32 in
  new_from_slice material.

Definition derive_direction_keys (session_id master_key : byte_list) : option DirectionKeys :=
  let* c := derive_cipher session_id master_key C2S_INFO in
  let* s := derive_cipher session_id master_key S2C_INFO in
  Some (mkDirectionKeys c s).

Definition nonce_for (sequence : Z) : byte_list :=
  copy_at 4 (to_be_bytes 8 sequence) (replicate 12 0).

Definition seal (cipher : Cipher) (sequence : Z) (header plaintext : byte_list)
    : result PacketError byte_list :=
  if sequence =? 0 then Err SequenceZero
  else ok_or AuthenticationFailed (aead_encrypt cipher (nonce_for sequence) plaintext header).

Definition open (cipher : Cipher) (sequence : Z) (header ciphertext : byte_list)
    : result PacketError byte_list :=
  if sequence =? 0 then Err SequenceZero
  else ok_or AuthenticationFailed (aead_decrypt cipher (nonce_for sequence) ciphertext header).
End crypto.

(** ** Lemmas *)

Lemma nonce_for_eq sequence : nonce_for sequence = replicate 4 0 ++ to_be_bytes 8 sequence.
Proof. reflexivity. Qed.

Lemma nonce_for_inj a b : is_u64 a → is_u64 b → nonce_for a = nonce_for b → a = b.
Proof.
  unfold is_u64, u64_max. rewrite !nonce_for_eq. intros Ha Hb Heq%app_inv_head.
  apply (f_equal from_be_bytes) in Heq.
  rewrite !from_to_be_bytes_small in Heq by (change (256 ^ Z.of_nat 8) with (2 ^ 64); lia).
  done.
Qed.

Section laws.
Context `{Laws : CryptoLaws}.

(** The two [expect] calls never panic. *)
Lemma derive_direction_keys_total session_id master_key :
  is_Some (derive_direction_keys session_id master_key).
Proof.
  assert (∀ info, is_Some (derive_cipher session_id master_key info)) as Hd.
  { intros info. unfold derive_cipher.
    destruct (hkdf_expand_some session_id master_key info 32) as (out & -> & Hlen); [lia|].
    by apply new_from_slice_some. }
  unfold derive_direction_keys.
  destruct (Hd C2S_INFO) as [c ->], (Hd S2C_INFO) as [s ->]. eauto.
Qed.

Lemma seal_some cipher sequence header plaintext :
  sequence ≠ 0 → len plaintext < 2 ^ 36 →
  ∃ ct, seal cipher sequence header plaintext = Ok ct ∧ len ct = len plaintext + TAG_SIZE.
Proof.
  intros Hs Hl. unfold seal. destruct (Z.eqb_spec sequence 0); [done|].
  destruct (encrypt_some cipher (nonce_for sequence) plaintext header Hl) as [ct Hct].
  exists ct. rewrite Hct. split; [done|]. by eapply encrypt_length.
Qed.

Lemma open_seal cipher sequence header plaintext ct :
  seal cipher sequence header plaintext = Ok ct → open cipher sequence header ct = Ok plaintext.
Proof.
  unfold seal, open. destruct (Z.eqb_spec sequence 0); [done|].
  intros Hct%ok_or_ok. by rewrite (decrypt_encrypt _ _ _ _ _ Hct).
Qed.

Lemma seal_open cipher sequence header plaintext ct :
  bytes_ok ct → open cipher sequence header ct = Ok plaintext →
  seal cipher sequence header plaintext = Ok ct ∧ bytes_ok plaintext.
Proof.
  unfold seal, open. destruct (Z.eqb_spec sequence 0); [done|].
  intros Hb Hd%ok_or_ok. destruct (encrypt_decrypt _ _ _ _ _ Hb Hd) as [-> ?]. done.
Qed.
End laws.

(** ** A cipher small enough to evaluate, for the witnesses

    The "ciphertext" is the message followed by a 16-byte check value that depends
    on key, nonce and header: it satisfies the laws and is not secret. *)
Module Toy.
Definition mix (l : byte_list) (acc : Z) : Z :=
  fold_left (λ a b, (a * 31 + b + 7) mod 256) l acc.

Definition tag (key nonce msg aad : byte_list) : byte_list :=
  replicate 16 (mix aad (mix msg (mix nonce (mix key 0)))).

Definition encrypt (key nonce msg aad : byte_list) : option byte_list :=
  Some (msg ++ tag key nonce msg aad).

Definition decrypt (key nonce ct aad : byte_list) : option byte_list :=
  if bool_decide (16 ≤ length ct)%nat then
    let msg := take (length ct - 16) ct in
    if bool_decide (drop (length ct - 16) ct = tag key nonce msg aad) then Some msg else None
  else None.

#[export] Instance lib : CryptoLib := {|
  Cipher := list Z;
  hkdf_expand salt ikm info n :=
    if Z.of_nat n <=? 8160 then Some (replicate n (mix info (mix ikm (mix salt 0)))) else None;
  new_from_slice key := if bool_decide (length key = 32%nat) then Some key else None;
  aead_encrypt := encrypt;
  aead_decrypt := decrypt;
|}.

Lemma mix_range l acc : 0 ≤ acc < 256 → 0 ≤ mix l acc < 256.
Proof.
  unfold mix. revert acc. induction l; intros acc H; simpl; [done|].
  apply IHl. by apply Z.mod_pos_bound.
Qed.

#[global] Instance laws : CryptoLaws lib.
Proof.
  constructor; simpl.
  - intros salt ikm info n Hn. destruct (Z.leb_spec (Z.of_nat n) 8160); [|lia].
    eexists. split; [done|].
    apply length_replicate.
  - intros key ->. by eexists.
  - intros. by eexists.
  - unfold encrypt, tag. intros c nonce msg aad ct [= <-]. rewrite len_app. done.
  - unfold encrypt. intros c nonce msg aad ct Hm Heq.
    apply (inj Some) in Heq as <-. apply Forall_app. split; [done|].
    apply Forall_replicate. repeat apply mix_range. lia.
  - unfold encrypt, decrypt. intros c nonce msg aad ct [= <-].
    assert (length (msg ++ tag c nonce msg aad) - 16 = length msg)%nat as Hl.
    { rewrite length_app. unfold tag. rewrite length_replicate. lia. }
    rewrite Hl, take_app_length, drop_app_length.
    rewrite !bool_decide_eq_true_2; [done..|].
    rewrite length_app. unfold tag. rewrite length_replicate. lia.
  - unfold encrypt, decrypt. intros c nonce msg aad ct Hb H.
    case_bool_decide; [|done]. case_bool_decide as Htag; [|done]. simplify_eq.
    rewrite <- Htag, take_drop. split; [done|]. by apply Forall_take.
Qed.
End Toy.
