(* ===== verification/VoiceCodec.v ===== *)
(** The UDP voice packet codec (crates/zephyrvox-voice/src/codec.rs and
    decode.rs): a 30-byte outer header, authenticated as additional data, and a
    body of a 12-byte channel header and a payload, sealed when the session is
    encrypted. *)

From S2P Require Import Prelude Text Types Wire VoiceTypes VoiceConfig VoiceCrypto.

Record DecodedPacket := mkDecodedPacket {
  pkt_session_id : byte_list;
  pkt_transport_seq : Z;
  pkt_stream_type : Z;
  pkt_channel_seq : Z;
  pkt_flags : Z;
  pkt_speaker_id : option Z;
  pkt_payload : byte_list;
  pkt_control : option PacketControl;
}.

Section codec.
Context `{L : CryptoLib}.

Record PacketCodec := mkPacketCodec {
  codec_session_id : byte_list;
  codec_encrypted : bool;
  codec_max_payload : Z;
  codec_keys : option DirectionKeys;
  codec_allowed : list bool;
}.

(** [allowed_stream_types\[t as usize\]]: the array has 256 entries and the
    index is a [u8]. *)
Definition allowed_at (allowed : list bool) (t : Z) : bool := nth (Z.to_nat t) allowed false.

Definition allowed_table (stream_types : option (list Z)) : list bool :=
  let allowed := <[Z.to_nat HEARTBEAT_STREAM_TYPE := false]> (replicate 256 true) in
  match stream_types with
  | None => allowed
  | Some ts => foldl (λ a t, <[Z.to_nat t := true]> a) (replicate 256 false) ts
  end.

(** The codec and the cache after the inline key was stored. *)
Definition from_config (config : VoiceSessionConfig) (cache : option (gmap (list Z) (list Z)))
    : option (result VoiceError PacketCodec * option (gmap (list Z) (list Z))) :=
  let cache := cache_inline_key config cache in
  match resolve_key config cache with
  | Err e => Some (Err e, cache)
  | Ok key =>
      let* keys :=
        match key with
        | None => Some None
        | Some k => Some <$> derive_direction_keys (cfg_session_id config) k
        end in
      Some (Ok (mkPacketCodec (cfg_session_id config) (cfg_encrypted config)
                  (cfg_max_payload config) keys
                  (allowed_table (cfg_allowed_stream_types config))), cache)
  end.

Definition validate_media_values (allowed : list bool) (max_payload : Z)
    (stream_type payload_length : Z) : result PacketError unit :=
  if StreamTypeId.is_heartbeat stream_type then Err HeartbeatStream
  else if negb (is_business_stream_type (StreamTypeId.get stream_type))
          || negb (allowed_at allowed (StreamTypeId.get stream_type)) then
    Err (UnknownStreamType (StreamTypeId.get stream_type))
  else if max_payload <? payload_length then Err (PayloadTooLarge payload_length max_payload)
  else Ok tt.

Definition validate_media (codec : PacketCodec) (stream_type payload_length : Z)
    : result PacketError unit :=
  validate_media_values (codec_allowed codec) (codec_max_payload codec) stream_type payload_length.

(** The header and body buffers of [encode_body], filled field by field. *)
Definition outer_header (session_id : byte_list) (transport_seq : Z) : byte_list :=
  let header := replicate (Z.to_nat OUTER_HEADER_SIZE) 0 in
  let header := copy_at 0 MAGIC header in
  let header := <[4%nat := PROTOCOL_VERSION]> header in
  let header := copy_at 6 session_id header in
  copy_at 22 (to_be_bytes 8 transport_seq) header.

Definition channel_body (stream_type channel_seq speaker_id : Z) (payload : byte_list)
    : byte_list :=
  let body := replicate (Z.to_nat CHANNEL_HEADER_SIZE + length payload) 0 in
  let body := <[0%nat := StreamTypeId.get stream_type]> body in
  let body := copy_at 1 (to_be_bytes 2 channel_seq) body in
  let body := copy_at 4 (to_be_bytes 8 speaker_id) body in
  copy_at (Z.to_nat CHANNEL_HEADER_SIZE) payload body.

Definition direction_key (keys : DirectionKeys) (client_to_server : bool) : Cipher :=
  if client_to_server then c2s keys else s2c keys.

Definition encode_body (codec : PacketCodec) (transport_seq stream_type channel_seq speaker_id : Z)
    (payload : byte_list) (client_to_server : bool) : result PacketError byte_list :=
  if transport_seq =? 0 then Err SequenceZero
  else
    let header := outer_header (codec_session_id codec) transport_seq in
    let body := channel_body stream_type channel_seq speaker_id payload in
    let? body :=
      (if codec_encrypted codec then
         let? keys := ok_or AuthenticationFailed (codec_keys codec) in
         seal (direction_key keys client_to_server) transport_seq header body
       else Ok body) in
    let total := OUTER_HEADER_SIZE + len body in
    if MAX_PACKET_SIZE <? total then Err Oversized
    else Ok (header ++ body).

Definition encode_media (codec : PacketCodec) (transport_seq channel_seq stream_type : Z)
    (payload : byte_list) : result PacketError byte_list :=
  let? _ := validate_media codec stream_type (len payload) in
  encode_body codec transport_seq stream_type channel_seq 0 payload true.

Definition encode_heartbeat (codec : PacketCodec) (transport_seq : Z)
    : result PacketError byte_list :=
  encode_body codec transport_seq (StreamTypeId.new HEARTBEAT_STREAM_TYPE) 0 0 [] true.

Definition encode_server_media (codec : PacketCodec)
    (transport_seq channel_seq stream_type speaker_id : Z) (payload : byte_list)
    : result PacketError byte_list :=
  let? _ := validate_media codec stream_type (len payload) in
  encode_body codec transport_seq stream_type channel_seq speaker_id payload false.

Definition encode_revocation (codec : PacketCodec) (transport_seq : Z) (reason : RevocationReason)
    : result PacketError byte_list :=
  encode_body codec transport_seq (StreamTypeId.new HEARTBEAT_STREAM_TYPE) 0 0 [as_wire reason]
    false.

(** The second half of [decode_direction], once the body is in the clear. *)
Definition decode_channel (codec : PacketCodec) (session_id : byte_list) (transport_seq : Z)
    (body : byte_list) (client_to_server : bool) : panic_or PacketError DecodedPacket :=
  if len body <? CHANNEL_HEADER_SIZE then Some (Err Truncated)
  else
    let* b0 := body !! 0%nat in
    let stream_type := StreamTypeId.new b0 in
    let* b1 := body !! 1%nat in
    let* b2 := body !! 2%nat in
    let channel_seq := from_be_bytes [b1; b2] in
    let* flags := body !! 3%nat in
    if negb (flags =? 0) then Some (Err InvalidFlags)
    else
      let* speaker_bytes := get_slice 4 12 body in
      let speaker_raw := from_be_bytes speaker_bytes in
      let* payload := get_slice (Z.to_nat CHANNEL_HEADER_SIZE) (length body) body in
      if StreamTypeId.is_heartbeat stream_type then
        if negb (channel_seq =? 0) || negb (speaker_raw =? 0) || (1 <? len payload)
           || (client_to_server && negb (len payload =? 0)) then
          Some (Err InvalidControlPacket)
        else
          let* control :=
            (if len payload =? 0 then Some Heartbeat
             else let* p0 := payload !! 0%nat in Some (Revocation (from_wire p0))) in
          Some (Ok (mkDecodedPacket session_id transport_seq stream_type channel_seq flags None
                      payload (Some control)))
      else if negb (is_business_stream_type (StreamTypeId.get stream_type))
              || negb (allowed_at (codec_allowed codec) (StreamTypeId.get stream_type)) then
        Some (Err (UnknownStreamType (StreamTypeId.get stream_type)))
      else
        let^ speaker_id :=
          (if client_to_server then
             if negb (speaker_raw =? 0) then Err InvalidSpeaker else Ok None
           else result_map Some (map_err (λ _, InvalidSpeaker) (Snowflake.new speaker_raw))) in
        if codec_max_payload codec <? len payload then
          Some (Err (PayloadTooLarge (len payload) (codec_max_payload codec)))
        else
          Some (Ok (mkDecodedPacket session_id transport_seq stream_type channel_seq flags
                      speaker_id payload None)).

Definition decode_direction (codec : PacketCodec) (datagram : byte_list) (client_to_server : bool)
    : panic_or PacketError DecodedPacket :=
  if len datagram <? OUTER_HEADER_SIZE + CHANNEL_HEADER_SIZE then Some (Err Truncated)
  else if MAX_PACKET_SIZE <? len datagram then Some (Err Oversized)
  else
    let* magic := get_slice 0 4 datagram in
    if negb (bool_decide (magic = MAGIC)) then Some (Err InvalidMagic)
    else
      let* version := datagram !! 4%nat in
      if negb (version =? PROTOCOL_VERSION) then Some (Err (PacketUnsupportedVersion version))
      else
        let* flags := datagram !! 5%nat in
        if negb (flags =? 0) then Some (Err InvalidFlags)
        else
          let* sid := get_slice 6 22 datagram in
          let^ session_id := map_err (λ _, WrongSession) (FixedId.from_bytes sid) in
          if negb (bool_decide (session_id = codec_session_id codec)) then Some (Err WrongSession)
          else
            let* seq_bytes := get_slice 22 30 datagram in
            let transport_seq := from_be_bytes seq_bytes in
            if transport_seq =? 0 then Some (Err SequenceZero)
            else
              let* header := get_slice 0 (Z.to_nat OUTER_HEADER_SIZE) datagram in
              let* rest := get_slice (Z.to_nat OUTER_HEADER_SIZE) (length datagram) datagram in
              let^ body :=
                (if codec_encrypted codec then
                   if len datagram <? OUTER_HEADER_SIZE + CHANNEL_HEADER_SIZE + TAG_SIZE then
                     Err Truncated
                   else
                     let? keys := ok_or AuthenticationFailed (codec_keys codec) in
                     open (direction_key keys client_to_server) transport_seq header rest
                 else Ok rest) in
              decode_channel codec session_id transport_seq body client_to_server.

Definition decode_server (codec : PacketCodec) (datagram : byte_list)
    : panic_or PacketError DecodedPacket :=
  decode_direction codec datagram false.

Definition decode_client (codec : PacketCodec) (datagram : byte_list)
    : panic_or PacketError DecodedPacket :=
  decode_direction codec datagram true.

(** What [from_config] establishes of a codec. *)
Record codec_ok (codec : PacketCodec) : Prop := {
  codec_sid : FixedId.ok (codec_session_id codec);
  codec_keyed : codec_encrypted codec = true → codec_keys codec ≠ None;
  codec_limit : 0 < codec_max_payload codec ≤ max_payload (codec_encrypted codec);
  codec_table : length (codec_allowed codec) = 256%nat;
  codec_no_heartbeat : allowed_at (codec_allowed codec) 0 = false;
}.
End codec.

Arguments PacketCodec _ : clear implicits.

(** ** Layout lemmas *)

Lemma outer_header_eq sid seq : length sid = 16%nat →
  outer_header sid seq = MAGIC ++ [PROTOCOL_VERSION; 0] ++ sid ++ to_be_bytes 8 seq.
Proof.
  intros Hl. do 16 (destruct sid as [|? sid]; [done|]). destruct sid; [reflexivity|done].
Qed.

Lemma channel_body_eq st ch sp payload :
  channel_body st ch sp payload =
  [st] ++ to_be_bytes 2 ch ++ [0] ++ to_be_bytes 8 sp ++ payload.
Proof.
  unfold channel_body. change (Z.to_nat CHANNEL_HEADER_SIZE) with 12%nat.
  rewrite replicate_add. unfold StreamTypeId.get.
  assert (copy_at 4 (to_be_bytes 8 sp) (copy_at 1 (to_be_bytes 2 ch)
    (<[0%nat:=st]> (replicate 12 0 ++ replicate (length payload) 0))) =
    ([st] ++ to_be_bytes 2 ch ++ [0] ++ to_be_bytes 8 sp) ++ replicate (length payload) 0 ++ [])
    as ->.
  { by rewrite app_nil_r. }
  rewrite copy_at_spec; [by rewrite app_nil_r|done|by rewrite length_replicate].
Qed.

Lemma len_channel_body st ch sp payload : len (channel_body st ch sp payload) = 12 + len payload.
Proof. rewrite channel_body_eq. rewrite !len_app. unfold len. simpl. lia. Qed.

Lemma channel_body_ok st ch sp payload :
  0 ≤ st < 256 → bytes_ok payload → bytes_ok (channel_body st ch sp payload).
Proof.
  intros Hst Hp. rewrite channel_body_eq. unfold bytes_ok.
  rewrite !Forall_app, !Forall_singleton. split_and!; try lia; try done; apply to_be_bytes_ok.
Qed.

(** The first four fields of the channel header. *)
Lemma channel_body_fields st ch sp payload :
  let body := channel_body st ch sp payload in
  ∃ b1 b2, to_be_bytes 2 ch = [b1; b2] ∧
    body !! 0%nat = Some st ∧ body !! 1%nat = Some b1 ∧ body !! 2%nat = Some b2 ∧
    body !! 3%nat = Some 0 ∧ get_slice 4 12 body = Some (to_be_bytes 8 sp) ∧
    get_slice 12 (length body) body = Some payload.
Proof.
  cbv zeta. rewrite channel_body_eq. do 2 eexists. split; [reflexivity|].
  split_and!; try reflexivity.
  pose proof (get_slice_suffix ([st] ++ to_be_bytes 2 ch ++ [0] ++ to_be_bytes 8 sp) payload 12) as H.
  rewrite <- !app_assoc in H. by apply H.
Qed.

(** A body whose fourth byte is zero is the body built from its fields. *)
Lemma channel_body_inv body b0 b1 b2 :
  bytes_ok body → (12 ≤ length body)%nat →
  body !! 0%nat = Some b0 → body !! 1%nat = Some b1 → body !! 2%nat = Some b2 →
  body !! 3%nat = Some 0 →
  channel_body b0 (from_be_bytes [b1; b2]) (from_be_bytes (slice 4 12 body)) (drop 12 body) = body.
Proof.
  intros Hok Hlen H0 H1 H2 H3. rewrite channel_body_eq.
  assert (to_be_bytes 2 (from_be_bytes [b1; b2]) = [b1; b2]) as ->.
  { apply (to_from_be_bytes [b1; b2]).
    apply bytes_ok_pair; [apply (Forall_lookup_1 _ _ _ _ Hok H1)|].
    apply (Forall_lookup_1 _ _ _ _ Hok H2). }
  rewrite (to_from_be_bytes_len 8) by (apply bytes_ok_slice || rewrite length_slice; done || lia).
  rewrite <- (slice_one _ _ _ H0), <- (slice_one _ _ _ H3).
  change [b1; b2] with ([b1] ++ [b2]). rewrite <- (slice_one _ _ _ H1), <- (slice_one _ _ _ H2).
  rewrite <- (slice_suffix 12), <- !app_assoc, !slice_join by lia.
  by rewrite slice_suffix, drop_0.
Qed.

Lemma length_outer_header sid seq : length sid = 16%nat → length (outer_header sid seq) = 30%nat.
Proof. intros Hl. rewrite outer_header_eq by done. rewrite !length_app, Hl. reflexivity. Qed.

(** The fields of the outer header of a datagram. *)
Lemma outer_header_fields sid seq body : length sid = 16%nat →
  let d := outer_header sid seq ++ body in
  get_slice 0 4 d = Some MAGIC ∧ d !! 4%nat = Some PROTOCOL_VERSION ∧ d !! 5%nat = Some 0 ∧
  get_slice 6 22 d = Some sid ∧ get_slice 22 30 d = Some (to_be_bytes 8 seq) ∧
  get_slice 0 30 d = Some (outer_header sid seq) ∧ get_slice 30 (length d) d = Some body.
Proof.
  intros Hl. cbv zeta. pose proof (length_outer_header sid seq Hl) as Hh.
  split_and!.
  6:{ apply (get_slice_mid [] (outer_header sid seq) body); [done|]. by rewrite Hh. }
  6:{ apply get_slice_suffix; [by rewrite Hh|done]. }
  all: rewrite outer_header_eq by done; rewrite <- !app_assoc; try reflexivity.
  - pose proof (get_slice_mid (MAGIC ++ [PROTOCOL_VERSION; 0]) sid (to_be_bytes 8 seq ++ body) 6 22) as H.
    rewrite <- !app_assoc in H. apply H; [reflexivity|by rewrite Hl].
  - pose proof (get_slice_mid (MAGIC ++ [PROTOCOL_VERSION; 0] ++ sid) (to_be_bytes 8 seq) body 22 30) as H.
    rewrite <- !app_assoc in H. apply H; rewrite !length_app, Hl; reflexivity.
Qed.

(** A datagram whose header fields are as the codec writes them is the encoding. *)
Lemma outer_header_inv (d : byte_list) :
  bytes_ok d → (30 ≤ length d)%nat → slice 0 4 d = MAGIC → d !! 4%nat = Some PROTOCOL_VERSION →
  d !! 5%nat = Some 0 →
  outer_header (slice 6 22 d) (from_be_bytes (slice 22 30 d)) = slice 0 30 d.
Proof.
  intros Hok Hlen Hm H4 H5. rewrite outer_header_eq by (rewrite length_slice; lia).
  rewrite (to_from_be_bytes_len 8) by (apply bytes_ok_slice || rewrite length_slice; done || lia).
  rewrite <- Hm. change [PROTOCOL_VERSION; 0] with ([PROTOCOL_VERSION] ++ [0]).
  rewrite <- (slice_one _ _ _ H4), <- (slice_one _ _ _ H5).
  by rewrite <- !app_assoc, !slice_join by lia.
Qed.

Lemma be_u64 a (l : byte_list) :
  bytes_ok l → (a + 8 ≤ length l)%nat → is_u64 (from_be_bytes (slice a (a + 8) l)).
Proof.
  intros Hok Hl. pose proof (from_be_bytes_range _ (bytes_ok_slice a (a + 8) l Hok)) as R.
  unfold len in R. rewrite length_slice in R by lia.
  replace (a + 8 - a)%nat with 8%nat in R by lia. change (256 ^ Z.of_nat 8) with (2 ^ 64) in R.
  unfold is_u64, u64_max. lia.
Qed.

(** ** Decoding what was encoded *)

Section codec_lemmas.
Context `{Laws : CryptoLaws}.
Implicit Types codec : PacketCodec L.

(** What the decoder makes of the fields of a packet. *)
Definition classify codec (sid : byte_list) (seq st ch sp : Z) (payload : byte_list) (dir : bool)
    : result PacketError DecodedPacket :=
  if st =? 0 then
    if negb (ch =? 0) || negb (sp =? 0) || (1 <? len payload)
       || (dir && negb (len payload =? 0))
    then Err InvalidControlPacket
    else Ok (mkDecodedPacket sid seq st ch 0 None payload
               (Some (match payload with [] => Heartbeat | p0 :: _ => Revocation (from_wire p0) end)))
  else if negb (allowed_at (codec_allowed codec) st) then Err (UnknownStreamType st)
  else
    let? speaker :=
      (if dir then if negb (sp =? 0) then Err InvalidSpeaker else Ok None
       else result_map Some (map_err (λ _, InvalidSpeaker) (Snowflake.new sp))) in
    if codec_max_payload codec <? len payload then
      Err (PayloadTooLarge (len payload) (codec_max_payload codec))
    else Ok (mkDecodedPacket sid seq st ch 0 speaker payload None).

Lemma decode_channel_body codec sid seq st ch sp payload dir :
  is_u16 ch → is_u64 sp →
  decode_channel codec sid seq (channel_body st ch sp payload) dir =
  Some (classify codec sid seq st ch sp payload dir).
Proof.
  unfold is_u16, is_u64, u16_max, u64_max. intros Hch Hsp.
  destruct (channel_body_fields st ch sp payload) as (b1 & b2 & Hb & H0 & H1 & H2 & H3 & Hs & Hp).
  unfold decode_channel. pose proof (len_nonneg payload).
  destruct (Z.ltb_spec (len (channel_body st ch sp payload)) CHANNEL_HEADER_SIZE) as [Hlt|_].
  { rewrite len_channel_body in Hlt. unfold CHANNEL_HEADER_SIZE in Hlt. lia. }
  rewrite H0, H1, H2, H3. simpl (negb (0 =? 0)). cbv iota. rewrite Hs.
  change (Z.to_nat CHANNEL_HEADER_SIZE) with 12%nat. rewrite Hp.
  rewrite <- Hb, !from_to_be_bytes_small by (simpl; lia).
  unfold StreamTypeId.new, StreamTypeId.get, StreamTypeId.is_heartbeat, is_business_stream_type,
    HEARTBEAT_STREAM_TYPE, classify.
  destruct (st =? 0) eqn:Hst; simpl.
  - destruct (_ || _ || _ || _); [done|]. by destruct payload.
  - destruct (allowed_at (codec_allowed codec) st); simpl; [|done].
    destruct dir; [destruct (sp =? 0); simpl; [|done]|destruct (Snowflake.new sp); simpl; [|done]];
      by destruct (codec_max_payload codec <? len payload).
Qed.

(** The body of a datagram and the clear text it carries. *)
Definition sealed codec (seq : Z) (dir : bool) (header clear : byte_list)
    : result PacketError byte_list :=
  if codec_encrypted codec then
    let? keys := ok_or AuthenticationFailed (codec_keys codec) in
    seal (direction_key keys dir) seq header clear
  else Ok clear.

Lemma encode_body_ok codec seq st ch sp payload dir d :
  encode_body codec seq st ch sp payload dir = Ok d ↔
  seq ≠ 0 ∧ ∃ body,
    sealed codec seq dir (outer_header (codec_session_id codec) seq)
      (channel_body st ch sp payload) = Ok body ∧
    30 + len body ≤ 1200 ∧ d = outer_header (codec_session_id codec) seq ++ body.
Proof.
  unfold encode_body, OUTER_HEADER_SIZE, MAX_PACKET_SIZE.
  destruct (Z.eqb_spec seq 0); [split; [done|tauto]|]. fold (sealed codec seq dir
    (outer_header (codec_session_id codec) seq) (channel_body st ch sp payload)).
  destruct (sealed _ _ _ _ _) as [body|] eqn:Hb; simpl; [|split; [done|naive_solver]].
  destruct (Z.ltb_spec 1200 (30 + len body)); split; try done; naive_solver lia.
Qed.

(** The clear text of a body accepted by [decode_direction]. *)
Definition unsealed codec (seq : Z) (dir : bool) (d_len : Z) (header rest : byte_list)
    : result PacketError byte_list :=
  if codec_encrypted codec then
    if d_len <? OUTER_HEADER_SIZE + CHANNEL_HEADER_SIZE + TAG_SIZE then Err Truncated
    else
      let? keys := ok_or AuthenticationFailed (codec_keys codec) in
      open (direction_key keys dir) seq header rest
  else Ok rest.

Lemma unsealed_sealed codec seq dir header clear body :
  length header = 30%nat → 12 ≤ len clear →
  sealed codec seq dir header clear = Ok body →
  len clear ≤ len body ∧ unsealed codec seq dir (30 + len body) header body = Ok clear.
Proof.
  unfold sealed, unsealed, OUTER_HEADER_SIZE, CHANNEL_HEADER_SIZE, TAG_SIZE.
  intros Hh Hc. destruct (codec_encrypted codec); [|by intros [= ->]].
  destruct (codec_keys codec) as [keys|]; simpl; [|done]. intros Hs.
  pose proof (open_seal _ _ _ _ _ Hs) as Ho.
  assert (len body = len clear + 16) as Hl.
  { unfold seal in Hs. destruct (seq =? 0); [done|]. apply ok_or_ok in Hs.
    by apply encrypt_length in Hs. }
  destruct (Z.ltb_spec (30 + len body) (30 + 12 + 16)); [lia|]. split; [lia|done].
Qed.

Lemma decode_encoded codec seq st ch sp payload dir d :
  FixedId.ok (codec_session_id codec) → is_u64 seq → is_u16 ch → is_u64 sp →
  encode_body codec seq st ch sp payload dir = Ok d →
  decode_direction codec d dir =
  Some (classify codec (codec_session_id codec) seq st ch sp payload dir).
Proof.
  intros (Hl & Hb & Hnz) Hu Hch Hsp (Hseq & body & Hs & Hmax & ->)%encode_body_ok.
  destruct (outer_header_fields (codec_session_id codec) seq body Hl)
    as (F0 & F4 & F5 & Fs & Fq & Fh & Fr).
  pose proof (length_outer_header (codec_session_id codec) seq Hl) as Hhl.
  pose proof (len_nonneg payload) as Hpl.
  assert (12 ≤ len (channel_body st ch sp payload)) as Hcl by (rewrite len_channel_body; lia).
  destruct (unsealed_sealed codec seq dir _ _ _ Hhl Hcl Hs) as [Hle Huns].
  assert (len (outer_header (codec_session_id codec) seq ++ body) = 30 + len body) as Hd.
  { rewrite len_app. unfold len at 1. rewrite Hhl. done. }
  unfold decode_direction, OUTER_HEADER_SIZE, CHANNEL_HEADER_SIZE, MAX_PACKET_SIZE. rewrite Hd.
  destruct (Z.ltb_spec (30 + len body) (30 + 12)); [lia|].
  destruct (Z.ltb_spec 1200 (30 + len body)); [lia|].
  rewrite F0, F4, F5, Fs, bool_decide_eq_true_2, !Z.eqb_refl by done. cbn [negb].
  unfold FixedId.from_bytes. rewrite bool_decide_eq_false_2 by done. cbn [map_err].
  rewrite bool_decide_eq_true_2 by done. cbn [negb]. rewrite Fq.
  unfold is_u64, u64_max in Hu.
  rewrite from_to_be_bytes_small by (change (256 ^ Z.of_nat 8) with (2 ^ 64); lia).
  destruct (Z.eqb_spec seq 0); [done|].
  change (Z.to_nat 30) with 30%nat. rewrite Fh, Fr.
  unfold unsealed, OUTER_HEADER_SIZE, CHANNEL_HEADER_SIZE in Huns. rewrite Huns. by apply decode_channel_body.
Qed.

(** Indexing and slicing never panic: the length was checked before. *)
Lemma decode_channel_total codec sid seq body dir :
  is_Some (decode_channel codec sid seq body dir).
Proof.
  unfold decode_channel, CHANNEL_HEADER_SIZE.
  destruct (Z.ltb_spec (len body) 12) as [|Hlen]; [by eexists|].
  assert (12 ≤ length body)%nat as Hl by (unfold len in Hlen; lia).
  destruct (lookup_lt_is_Some_2 body 0) as [b0 ->]; [lia|].
  destruct (lookup_lt_is_Some_2 body 1) as [b1 ->]; [lia|].
  destruct (lookup_lt_is_Some_2 body 2) as [b2 ->]; [lia|].
  destruct (lookup_lt_is_Some_2 body 3) as [b3 ->]; [lia|].
  destruct (negb (b3 =? 0)); [by eexists|].
  change (Z.to_nat 12) with 12%nat. rewrite !get_slice_some by lia.
  destruct (StreamTypeId.is_heartbeat _).
  - destruct (_ || _ || _ || _); [by eexists|].
    by destruct (slice 12 (length body) body); eexists.
  - destruct (_ || _); [by eexists|].
    destruct (if dir then _ else _); [|by eexists]. case_match; by eexists.
Qed.

Lemma decode_direction_total codec d dir : is_Some (decode_direction codec d dir).
Proof.
  unfold decode_direction, OUTER_HEADER_SIZE, CHANNEL_HEADER_SIZE.
  destruct (Z.ltb_spec (len d) (30 + 12)) as [|Hlen]; [by eexists|].
  assert (42 ≤ length d)%nat as Hl by (unfold len in Hlen; lia).
  destruct (MAX_PACKET_SIZE <? len d); [by eexists|].
  change (Z.to_nat 30) with 30%nat. rewrite !get_slice_some by lia.
  destruct (negb _); [by eexists|].
  destruct (lookup_lt_is_Some_2 d 4) as [v ->]; [lia|].
  destruct (lookup_lt_is_Some_2 d 5) as [f ->]; [lia|].
  destruct (negb (v =? _)); [by eexists|]. destruct (negb (f =? 0)); [by eexists|].
  destruct (map_err _ _) as [sid|]; [|by eexists].
  destruct (negb _); [by eexists|]. destruct (_ =? 0); [by eexists|].
  destruct (if codec_encrypted codec then _ else _); [|by eexists]. apply decode_channel_total.
Qed.

Lemma decode_channel_inv codec sid seq body dir p :
  bytes_ok body → decode_channel codec sid seq body dir = Some (Ok p) →
  ∃ st ch sp payload, body = channel_body st ch sp payload ∧ 0 ≤ st < 256 ∧ is_u16 ch ∧
    is_u64 sp ∧ bytes_ok payload ∧ classify codec sid seq st ch sp payload dir = Ok p.
Proof.
  intros Hok H. pose proof H as Hd. unfold decode_channel, CHANNEL_HEADER_SIZE in Hd.
  destruct (Z.ltb_spec (len body) 12) as [|Hlen]; [done|].
  assert (12 ≤ length body)%nat as Hl by (unfold len in Hlen; lia).
  destruct (body !! 0%nat) as [b0|] eqn:H0; [|done].
  destruct (body !! 1%nat) as [b1|] eqn:H1; [|done].
  destruct (body !! 2%nat) as [b2|] eqn:H2; [|done].
  destruct (body !! 3%nat) as [b3|] eqn:H3; [|done].
  destruct (Z.eqb_spec b3 0) as [->|]; [|done]. clear Hd.
  pose proof (channel_body_inv body b0 b1 b2 Hok Hl H0 H1 H2 H3) as Hb.
  pose proof (Forall_lookup_1 _ _ _ _ Hok H0) as R0.
  pose proof (Forall_lookup_1 _ _ _ _ Hok H1) as R1.
  pose proof (Forall_lookup_1 _ _ _ _ Hok H2) as R2.
  assert (is_u16 (from_be_bytes [b1; b2])) as Hch.
  { pose proof (from_be_bytes_range [b1; b2]) as R. change (256 ^ len [b1; b2]) with 65536 in R.
    unfold is_u16, u16_max. specialize (R (bytes_ok_pair _ _ R1 R2)). lia. }
  assert (is_u64 (from_be_bytes (slice 4 12 body))) as Hsp.
  { apply (be_u64 4); [done|lia]. }
  rewrite <- Hb in H. rewrite decode_channel_body in H by done.
  do 4 eexists. split; [symmetry; exact Hb|]. split_and!; try done; try (simpl in R0; lia).
  - by apply Forall_drop.
  - congruence.
Qed.

Lemma decode_direction_inv codec d dir p :
  bytes_ok d → decode_direction codec d dir = Some (Ok p) →
  ∃ seq st ch sp payload,
    encode_body codec seq st ch sp payload dir = Ok d ∧ is_u64 seq ∧ 0 ≤ st < 256 ∧
    is_u16 ch ∧ is_u64 sp ∧ bytes_ok payload ∧
    classify codec (codec_session_id codec) seq st ch sp payload dir = Ok p.
Proof.
  intros Hok H. unfold decode_direction, OUTER_HEADER_SIZE, CHANNEL_HEADER_SIZE,
    MAX_PACKET_SIZE in H.
  destruct (Z.ltb_spec (len d) (30 + 12)) as [|Hlen]; [done|].
  destruct (Z.ltb_spec 1200 (len d)) as [|Hmax]; [done|].
  assert (42 ≤ length d)%nat as Hl by (unfold len in Hlen; lia).
  change (Z.to_nat 30) with 30%nat in H. rewrite !get_slice_some in H by lia.
  case_bool_decide as Hm; [|done]. simpl in H.
  destruct (d !! 4%nat) as [v|] eqn:H4; [|done].
  destruct (Z.eqb_spec v PROTOCOL_VERSION) as [->|]; [|done]. cbn [negb] in H.
  destruct (d !! 5%nat) as [f|] eqn:H5; [|done].
  destruct (Z.eqb_spec f 0) as [->|]; [|done]. cbn [negb] in H.
  unfold FixedId.from_bytes in H. case_bool_decide as Hz; [done|]. cbn [map_err] in H.
  case_bool_decide as Hsid; [|done]. cbn [negb] in H.
  destruct (Z.eqb_spec (from_be_bytes (slice 22 30 d)) 0) as [|Hseq]; [done|].
  pose proof (outer_header_inv d Hok ltac:(lia) Hm H4 H5) as Hhdr.
  assert (d = slice 0 30 d ++ slice 30 (length d) d) as Hsplit.
  { rewrite slice_join by lia. by rewrite slice_all. }
  rewrite <- Hhdr in H. rewrite Hsid in Hhdr, H.
  assert (is_u64 (from_be_bytes (slice 22 30 d))) as Hu by (apply (be_u64 22); [done|lia]).
  set (seq := from_be_bytes (slice 22 30 d)) in *.
  destruct (if codec_encrypted codec then _ else _) as [clear|] eqn:Hclear; [|done].
  assert (sealed codec seq dir (outer_header (codec_session_id codec) seq) clear
          = Ok (slice 30 (length d) d) ∧ bytes_ok clear) as [Hsealed Hcok].
  { unfold sealed. destruct (codec_encrypted codec).
    - destruct (len d <? 30 + 12 + TAG_SIZE); [done|].
      destruct (codec_keys codec) as [keys|]; simpl in *; [|done].
      apply seal_open; [by apply bytes_ok_slice|done].
    - simplify_eq. split; [done|by apply bytes_ok_slice]. }
  apply decode_channel_inv in H as (st & ch & sp & payload & -> & ? & ? & ? & ? & Hcl); [|done].
  exists seq, st, ch, sp, payload. split_and!; try done; try lia.
  - apply encode_body_ok. split; [done|]. eexists. split; [exact Hsealed|].
    rewrite Hhdr. split; [|done]. unfold len in *. rewrite length_slice by lia. lia.
Qed.

Lemma validate_media_ok codec st n :
  validate_media codec st n = Ok tt ↔
  st ≠ 0 ∧ allowed_at (codec_allowed codec) st = true ∧ n ≤ codec_max_payload codec.
Proof.
  unfold validate_media, validate_media_values, StreamTypeId.is_heartbeat,
    is_business_stream_type, HEARTBEAT_STREAM_TYPE, StreamTypeId.get.
  destruct (Z.eqb_spec st 0); simpl; [naive_solver|].
  destruct (allowed_at _ st); simpl; [|naive_solver].
  destruct (Z.ltb_spec (codec_max_payload codec) n); naive_solver lia.
Qed.

(** Every packet whose payload fits the session is encoded, in at most 1200 bytes. *)
Lemma encode_body_total codec seq st ch sp payload dir :
  codec_ok codec → seq ≠ 0 → len payload ≤ codec_max_payload codec →
  ∃ d, encode_body codec seq st ch sp payload dir = Ok d ∧
    len d = 42 + len payload + (if codec_encrypted codec then TAG_SIZE else 0) ∧
    len d ≤ MAX_PACKET_SIZE.
Proof.
  intros [(Hl & _) Hkeys [Hp0 Hp1] _ _] Hseq Hlen.
  pose proof (length_outer_header (codec_session_id codec) seq Hl) as Hhl.
  assert (∃ body, sealed codec seq dir (outer_header (codec_session_id codec) seq)
      (channel_body st ch sp payload) = Ok body ∧
      len body = 12 + len payload + (if codec_encrypted codec then TAG_SIZE else 0))
    as (body & Hb & Hbl).
  { unfold sealed. destruct (codec_encrypted codec) eqn:Henc.
    - destruct (codec_keys codec) as [keys|]; [|by destruct (Hkeys eq_refl)]. simpl.
      destruct (seal_some (direction_key keys dir) seq
        (outer_header (codec_session_id codec) seq) (channel_body st ch sp payload))
        as (ct & -> & Hct); [done| |].
      + rewrite len_channel_body. change (max_payload true) with 1142 in Hp1. lia.
      + exists ct. split; [done|]. rewrite Hct, len_channel_body. lia.
    - eexists; split; [done|]. rewrite len_channel_body. lia. }
  exists (outer_header (codec_session_id codec) seq ++ body).
  assert (30 + len body ≤ 1200) as Hmax.
  { destruct (codec_encrypted codec); unfold max_payload, MAX_PAYLOAD_ENCRYPTED,
      MAX_PAYLOAD_PLAINTEXT, MAX_PACKET_SIZE, OUTER_HEADER_SIZE, CHANNEL_HEADER_SIZE, TAG_SIZE in *;
      lia. }
  split; [apply encode_body_ok; eauto|].
  rewrite len_app. unfold len at 1 4. rewrite Hhl. unfold MAX_PACKET_SIZE. lia.
Qed.
End codec_lemmas.

(** ** Building a codec *)

Lemma allowed_table_spec ts t :
  (∀ l, ts = Some l → Forall (λ t, 0 ≤ t < 256) l ∧ 0 ∉ l) → 0 ≤ t < 256 →
  length (allowed_table ts) = 256%nat ∧
  allowed_at (allowed_table ts) t = match ts with
                                    | None => negb (t =? 0)
                                    | Some l => bool_decide (t ∈ l)
                                    end.
Proof.
  intros Hts Ht. unfold allowed_table, allowed_at. destruct ts as [l|].
  - destruct (Hts l eq_refl) as [Hall _]. clear Hts.
    assert (∀ base, length base = 256%nat →
      length (foldl (λ a t, <[Z.to_nat t := true]> a) base l) = 256%nat ∧
      nth (Z.to_nat t) (foldl (λ a t, <[Z.to_nat t := true]> a) base l) false =
      nth (Z.to_nat t) base false || bool_decide (t ∈ l)) as Hgen.
    { induction Hall as [|x l Hx Hl IH]; intros base Hb; cbn [foldl].
      - split; [done|]. rewrite bool_decide_eq_false_2 by set_solver. by rewrite orb_false_r.
      - destruct (IH (<[Z.to_nat x:=true]> base)) as [IH1 IH2]; [by rewrite length_insert|].
        split; [done|]. rewrite IH2. rewrite !nth_lookup.
        destruct (decide (x = t)) as [->|Hne].
        + rewrite list_lookup_insert_eq by lia. cbn [default].
          rewrite (bool_decide_eq_true_2 (t ∈ t :: l)) by set_solver. by rewrite orb_true_r.
        + rewrite list_lookup_insert_ne by lia. f_equal. apply bool_decide_ext. set_solver. }
    destruct (Hgen (replicate 256 false)) as [H1 H2]; [done|]. split; [done|]. rewrite H2.
    rewrite nth_lookup, lookup_replicate_2 by lia. done.
  - split; [done|]. change (Z.to_nat HEARTBEAT_STREAM_TYPE) with 0%nat. rewrite nth_lookup.
    destruct (Z.eqb_spec t 0) as [->|]; [done|].
    rewrite list_lookup_insert_ne, lookup_replicate_2 by lia. done.
Qed.

Section from_config.
Context `{Laws : CryptoLaws}.

Lemma resolve_key_plain config cache k :
  cfg_encrypted config = true → resolve_key config cache = Ok k → k ≠ None.
Proof.
  unfold resolve_key. intros ->. simpl. intros H. by repeat case_match; simplify_eq.
Qed.

Lemma from_config_total config cache :
  ∃ r, from_config config cache = Some (r, cache_inline_key config cache) ∧
    match resolve_key config (cache_inline_key config cache) with
    | Err e => r = Err e
    | Ok _ => ∃ codec, r = Ok codec
    end.
Proof.
  unfold from_config. destruct (resolve_key _ _) as [[k|]|e]; [|by eauto..].
  destruct (derive_direction_keys_total (cfg_session_id config) k) as [keys ->]. simpl. eauto.
Qed.

Lemma from_config_ok config cache codec cache' :
  config_ok config → FixedId.ok (cfg_session_id config) →
  (∀ ts, cfg_allowed_stream_types config = Some ts → Forall (λ t, 0 ≤ t < 256) ts) →
  from_config config cache = Some (Ok codec, cache') →
  codec_ok codec ∧ codec_encrypted codec = cfg_encrypted config ∧
  codec_session_id codec = cfg_session_id config.
Proof.
  intros Hcfg Hsid Hts H. unfold from_config in H.
  destruct (resolve_key _ _) as [key|] eqn:Hk; [|done].
  assert (∀ t, 0 ≤ t < 256 → length (allowed_table (cfg_allowed_stream_types config)) = 256%nat ∧
    allowed_at (allowed_table (cfg_allowed_stream_types config)) t =
    match cfg_allowed_stream_types config with
    | None => negb (t =? 0) | Some l => bool_decide (t ∈ l) end) as Htab.
  { intros t Ht. apply allowed_table_spec; [|done]. intros l Hl. split; [by apply Hts|].
    by apply (config_streams _ Hcfg l Hl). }
  destruct (match key with None => Some None | Some k => _ end) as [keys|] eqn:Hkeys; [|done].
  simplify_eq. split; [|done]. constructor; simpl; try done.
  - intros Henc. apply resolve_key_plain in Hk; [|done].
    destruct key as [k|]; [|done]. destruct (derive_direction_keys _ k); by simplify_eq/=.
  - by apply config_payload.
  - by apply (Htab 0).
  - destruct (Htab 0) as [_ ->]; [lia|].
    destruct (cfg_allowed_stream_types config) as [l|] eqn:Hl; [|done].
    apply bool_decide_eq_false_2. by apply (config_streams _ Hcfg l Hl).
Qed.
End from_config.

(** ** Properties *)

(** C7: whatever the codec encodes, the peer's decoder returns: media with its
    stream type, channel sequence, payload and (from the server) speaker, an
    empty heartbeat, and a revocation with its reason byte. *)
Theorem codec_roundtrip `{CryptoLaws} (codec : PacketCodec _) (seq ch st speaker : Z)
    (payload d : byte_list) (reason : RevocationReason) :
  codec_ok codec → is_u64 seq → is_u16 ch → Snowflake.ok speaker →
  let sid := codec_session_id codec in
  (encode_media codec seq ch st payload = Ok d →
   decode_client codec d = Some (Ok (mkDecodedPacket sid seq st ch 0 None payload None))) ∧
  (encode_server_media codec seq ch st speaker payload = Ok d →
   decode_server codec d = Some (Ok (mkDecodedPacket sid seq st ch 0 (Some speaker) payload None))) ∧
  (encode_heartbeat codec seq = Ok d →
   decode_client codec d = Some (Ok (mkDecodedPacket sid seq 0 0 0 None [] (Some Heartbeat)))) ∧
  (encode_revocation codec seq reason = Ok d →
   decode_server codec d = Some (Ok (mkDecodedPacket sid seq 0 0 0 None [as_wire reason]
     (Some (Revocation (from_wire (as_wire reason))))))).
Proof.
  intros Hok Hseq Hch Hsp sid. pose proof (codec_sid _ Hok) as Hsid.
  assert (is_u16 0 ∧ is_u64 0) as [H16 H64] by (vm_compute; repeat split; congruence).
  unfold encode_media, encode_server_media, encode_heartbeat, encode_revocation, decode_client,
    decode_server. split_and!; intros He.
  1,2: apply result_bind_ok in He as ([] & (Hst & Hal & Hle)%validate_media_ok & He).
  all: apply decode_encoded in He; try done; try by apply snowflake_is_u64.
  all: rewrite He; unfold classify; try done.
  all: destruct (Z.eqb_spec st 0); [done|]; rewrite Hal; simpl; rewrite ?snowflake_new_total by done;
    simpl; by destruct (Z.ltb_spec (codec_max_payload codec) (len payload)); [lia|].
Qed.

(** A plaintext and an encrypted codec over the toy cipher. *)
Definition toy_codec (encrypted : bool) : PacketCodec Toy.lib :=
  mkPacketCodec (replicate 16 1) encrypted (max_payload encrypted)
    (if encrypted then Some (mkDirectionKeys (L := Toy.lib) (replicate 32 5) (replicate 32 6)) else None)
    (allowed_table None).

Lemma toy_sid_ok : FixedId.ok (replicate 16 1).
Proof. split; [done|]. split; [|done]. apply (Forall_replicate _ 16%nat). lia. Qed.

Lemma toy_codec_ok encrypted : codec_ok (toy_codec encrypted).
Proof.
  constructor; simpl; try done.
  - apply toy_sid_ok.
  - by intros ->.
  - by destruct encrypted.
Qed.

Definition toy_datagram : byte_list :=
  match encode_server_media (toy_codec true) 9 65535 1 77 [1; 2; 3] with
  | Ok d => d
  | Err _ => []
  end.

Lemma codec_roundtrip_witness :
  decode_server (toy_codec true) toy_datagram =
  Some (Ok (mkDecodedPacket (replicate 16 1) 9 1 65535 0 (Some 77) [1; 2; 3] None)).
Proof.
  pose proof (codec_roundtrip (toy_codec true) 9 65535 1 77 [1; 2; 3] toy_datagram Replaced
    (toy_codec_ok true)) as H.
  destruct H as (_ & H & _).
  - vm_compute. split; congruence.
  - vm_compute. split; congruence.
  - vm_compute. split; congruence.
  - apply H. vm_compute. reflexivity.
Defined.

(** The decoder is total: no datagram makes an index or slice expression of
    [decode_direction] panic, in either direction and with or without
    encryption. *)
Theorem decode_never_panics `{L : CryptoLib} (codec : PacketCodec _) (datagram : byte_list) :
  is_Some (decode_server codec datagram) ∧ is_Some (decode_client codec datagram).
Proof. split; apply decode_direction_total. Qed.

(** Packets are not malleable: a datagram the decoder accepts from the server
    is byte for byte the encoding of the packet it returns, whose sequence is not
    zero and whose media is allowed by the negotiation. *)
Theorem decode_server_canonical `{CryptoLaws} (codec : PacketCodec _) (d : byte_list)
    (p : DecodedPacket) :
  bytes_ok d → codec_ok codec → decode_server codec d = Some (Ok p) →
  pkt_session_id p = codec_session_id codec ∧ pkt_transport_seq p ≠ 0 ∧ pkt_flags p = 0 ∧
  match pkt_control p, pkt_speaker_id p with
  | None, Some speaker =>
      Snowflake.ok speaker ∧
      encode_server_media codec (pkt_transport_seq p) (pkt_channel_seq p) (pkt_stream_type p) speaker
        (pkt_payload p) = Ok d
  | Some (Revocation reason), None => encode_revocation codec (pkt_transport_seq p) reason = Ok d
  | Some Heartbeat, None =>
      encode_body codec (pkt_transport_seq p) HEARTBEAT_STREAM_TYPE 0 0 [] false = Ok d
  | _, _ => False
  end.
Proof.
  intros Hd Hok (seq & st & ch & sp & payload & He & Hseq & Hst & Hch & Hsp & Hpl & Hcl)
    %decode_direction_inv; [|done].
  pose proof (proj1 (proj1 (encode_body_ok _ _ _ _ _ _ _ _) He)) as Hnz.
  unfold classify in Hcl. destruct (Z.eqb_spec st 0) as [->|Hst0].
  - destruct (_ || _ || _ || _) eqn:Hc in Hcl; [done|]. simplify_eq. simpl. to_props. subst.
    split_and!; try done. destruct payload as [|p0 [|p1 payload]]; [done| |].
    + unfold encode_revocation. by rewrite as_from_wire.
    + rewrite !len_cons in *. pose proof (len_nonneg payload). lia.
  - destruct (allowed_at _ _) eqn:Hal; simpl in Hcl; [|done].
    destruct (Snowflake.new sp) as [speaker|] eqn:Hsf; simpl in Hcl; [|done].
    apply snowflake_new_ok in Hsf as [-> Hsf]; [|done].
    destruct (Z.ltb_spec (codec_max_payload codec) (len payload)); simplify_eq. simpl.
    split_and!; try done. unfold encode_server_media.
    by rewrite (proj2 (validate_media_ok codec st (len payload))).
Qed.

Definition toy_plain_datagram : byte_list :=
  outer_header (replicate 16 1) 9 ++ channel_body 1 4 77 [1; 2].

Lemma toy_plain_datagram_ok : bytes_ok toy_plain_datagram.
Proof.
  apply Forall_forall. intros x Hx. vm_compute in Hx.
  repeat (apply elem_of_cons in Hx as [->|Hx]; [lia|]). by apply elem_of_nil in Hx.
Qed.

Lemma decode_server_canonical_witness :
  encode_server_media (toy_codec false) 9 4 1 77 [1; 2] = Ok toy_plain_datagram.
Proof.
  pose proof (decode_server_canonical (toy_codec false) toy_plain_datagram
    (mkDecodedPacket (replicate 16 1) 9 1 4 0 (Some 77) [1; 2] None)
    toy_plain_datagram_ok (toy_codec_ok false)) as H.
  destruct H as (_ & _ & _ & _ & He).
  - vm_compute. reflexivity.
  - exact He.
Defined.

(** Every packet that fits the negotiated payload limit is encoded, in a
    datagram of the expected length and of at most 1200 bytes; sequence zero, the
    heartbeat stream, an unregistered stream and an oversized payload are refused
    with their own error, in the order of the checks. *)
Theorem encode_media_spec `{CryptoLaws} (codec : PacketCodec _) (seq ch st : Z) (payload : byte_list) :
  codec_ok codec →
  match encode_media codec seq ch st payload with
  | Ok d =>
      seq ≠ 0 ∧ st ≠ 0 ∧ allowed_at (codec_allowed codec) st = true ∧
      len payload ≤ codec_max_payload codec ∧
      len d = 42 + len payload + (if codec_encrypted codec then TAG_SIZE else 0) ∧
      len d ≤ MAX_PACKET_SIZE
  | Err HeartbeatStream => st = 0
  | Err (UnknownStreamType t) => t = st ∧ st ≠ 0 ∧ allowed_at (codec_allowed codec) st = false
  | Err (PayloadTooLarge actual maximum) =>
      actual = len payload ∧ maximum = codec_max_payload codec ∧ maximum < actual ∧ st ≠ 0
  | Err SequenceZero => seq = 0 ∧ validate_media codec st (len payload) = Ok tt
  | Err _ => False
  end.
Proof.
  intros Hok. unfold encode_media.
  destruct (validate_media codec st (len payload)) as [[]|e] eqn:Hv; simpl.
  - pose proof Hv as (Hst & Hal & Hle)%validate_media_ok.
    destruct (decide (seq = 0)) as [->|Hseq]; [done|].
    destruct (encode_body_total codec seq st ch 0 payload true) as (d & -> & ? & ?); done.
  - unfold validate_media, validate_media_values, StreamTypeId.is_heartbeat,
      is_business_stream_type, HEARTBEAT_STREAM_TYPE, StreamTypeId.get in Hv.
    destruct (Z.eqb_spec st 0); [by simplify_eq|]. simpl in Hv.
    destruct (allowed_at _ st) eqn:Hal; simpl in Hv; [|by simplify_eq].
    destruct (Z.ltb_spec (codec_max_payload codec) (len payload)); by simplify_eq.
Qed.

Lemma encode_media_spec_witness :
  match encode_media (toy_codec true) 1 0 1 (replicate 1142 0) with
  | Ok d => len d ≤ MAX_PACKET_SIZE
  | Err _ => False
  end.
Proof.
  pose proof (encode_media_spec (toy_codec true) 1 0 1 (replicate 1142 0) (toy_codec_ok true)) as H.
  destruct (encode_media (toy_codec true) 1 0 1 (replicate 1142 0)) eqn:He; [apply H|].
  exfalso. vm_compute in He. discriminate He.
Defined.

(** Key resolution never downgrades: building a codec for an encrypted
    negotiation either finds the inline key or the cached key of that session or
    fails with [KeyUnavailable]; on success the codec is encrypted and keyed, an
    inline key replaces the cached one, and no other entry of the cache changes. *)
Theorem from_config_no_downgrade `{CryptoLaws} (config : VoiceSessionConfig)
    (cache : option (gmap (list Z) (list Z))) :
  config_ok config → FixedId.ok (cfg_session_id config) →
  (∀ ts, cfg_allowed_stream_types config = Some ts → Forall (λ t, 0 ≤ t < 256) ts) →
  ∃ r cache', from_config config cache = Some (r, cache') ∧
    (∀ keys, cache = Some keys → ∃ keys', cache' = Some keys' ∧
       keys' = match cfg_session_key config with
               | Some k => <[cfg_session_id config := k]> keys
               | None => keys
               end) ∧
    match r with
    | Ok codec => codec_ok codec ∧ codec_encrypted codec = cfg_encrypted config ∧
        (cfg_encrypted config = true → codec_keys codec ≠ None)
    | Err e => e = KeyUnavailable ∧ cfg_encrypted config = true ∧ cfg_session_key config = None ∧
        ∀ keys, cache = Some keys → keys !! cfg_session_id config = None
    end.
Proof.
  intros Hcfg Hsid Hts. destruct (from_config_total config cache) as (r & Hr & Hres).
  exists r, (cache_inline_key config cache). split; [done|]. split.
  { intros keys ->. unfold cache_inline_key. destruct (cfg_session_key config); eauto. }
  destruct r as [codec|e].
  - apply from_config_ok in Hr as (Hok & Henc & _); [|done..].
    split_and!; [done..|]. rewrite <- Henc. by apply codec_keyed.
  - unfold resolve_key, cache_inline_key in Hres.
    destruct (cfg_encrypted config); simpl in Hres; [|by destruct Hres].
    destruct (cfg_session_key config); simpl in Hres; [by destruct cache, Hres|].
    destruct cache as [keys|]; simpl in Hres.
    + unfold KeyCache.get in Hres. destruct (keys !! _) eqn:Hk; [by destruct Hres|].
      simplify_eq. split_and!; try done. by intros ? [= <-].
    + simplify_eq. by split_and!.
Qed.

Definition toy_config (key : option byte_list) : VoiceSessionConfig :=
  mkVoiceSessionConfig (mkVoiceEndpoint "voice.example" 9000) (replicate 16 1) 1 true 1000 5 key None.

Lemma toy_config_ok key : config_ok (toy_config key).
Proof. by constructor. Qed.

Lemma from_config_no_downgrade_witness :
  ∃ r cache', from_config (L := Toy.lib) (toy_config None) (Some ∅) = Some (r, cache') ∧
    match r with Ok _ => False | Err e => e = KeyUnavailable end.
Proof.
  destruct (from_config_no_downgrade (L := Toy.lib) (toy_config None) (Some ∅) (toy_config_ok None))
    as (r & cache' & Hr & _ & Hres).
  - apply toy_sid_ok.
  - done.
  - exists r, cache'. split; [exact Hr|].
    assert (from_config (L := Toy.lib) (toy_config None) (Some ∅)
            = Some (Err KeyUnavailable, Some ∅)) as Hval by reflexivity.
    rewrite Hval in Hr. injection Hr as <- _. apply Hres.
Defined.
