(* ===== verification/VoiceWorker.v ===== *)
(** The UDP voice worker (crates/zephyrvox-voice/src/worker.rs) and the session
    handle in front of it (session.rs).

    The worker task owns the sequences, the replay window and the socket; the
    state it shares with the handles is [Inner]. What the asynchronous world
    does — which branch of [select!] fires, whether a write succeeds, what the
    socket receives, the time — is an [Input]; a step of the loop is a function of
    the state and one input, and [None] is a panic.

    The key cache is shared by all sessions of a client. Here it is the cache as one worker
    and its handles leave it, under no other session's hand; SdkVoice and SdkPool have the
    cache of the client, from which any worker may drop its key at any time. *)

From Stdlib Require Import Sorted.
From S2P Require Import Prelude Text Types Wire VoiceTypes VoiceConfig VoiceCrypto VoiceCodec Replay.

(** Seconds. *)
Definition HEARTBEAT_INTERVAL : Z := 15.
Definition RECEIVE_BUFFER_SIZE : Z := MAX_PACKET_SIZE + 256.
Definition MEDIA_QUEUE_CAPACITY : Z := 128.

Inductive Termination :=
| Close
| Disconnect
| Revoke (r : RevocationReason).

(** The state shared by the handles and the worker. [media_tx] is the broadcast
    sender (present or taken), [published] the frames sent through it. *)
Record Inner := mkInner {
  inner_session_id : byte_list;
  inner_max_payload : Z;
  inner_allowed : list bool;
  status : VoiceStatus;
  media_tx : bool;
  published : list InboundMedia;
  key_cache : option (gmap (list Z) (list Z));
}.

(** The locals of [run]. [attempted] is the history of the packets handed to the
    socket: transport sequence, stream type, channel sequence, and whether the
    write succeeded. *)
Record Attempt := mkAttempt {
  at_sequence : Z;
  at_stream : Z;
  at_channel : Z;
  at_packet : byte_list;
  at_written : bool;
}.

Record Locals := mkLocals {
  transport_sequence : Z;
  channel_sequences : gmap Z Z;
  replay : ReplayWindow;
  last_outbound : Z;
  attempted : list Attempt;
}.

(** ** Shared state *)

Definition set_status (i : Inner) (s : VoiceStatus) : Inner :=
  mkInner (inner_session_id i) (inner_max_payload i) (inner_allowed i) s (media_tx i) (published i)
    (key_cache i).

Definition publish_status (i : Inner) (s : VoiceStatus) : Inner :=
  if bool_decide (status i = s) then i else set_status i s.

Definition close_media (i : Inner) : Inner :=
  mkInner (inner_session_id i) (inner_max_payload i) (inner_allowed i) (status i) false (published i)
    (key_cache i).

Definition remove_cached_key (i : Inner) : Inner :=
  match key_cache i with
  | Some keys =>
      mkInner (inner_session_id i) (inner_max_payload i) (inner_allowed i) (status i) (media_tx i)
        (published i) (Some (KeyCache.remove keys (inner_session_id i)).2)
  | None => i
  end.

(** [finish]: the key of this session leaves the cache. What other sessions do to the cache
    is not part of the worker. *)
Definition finish (i : Inner) (s : VoiceStatus) : Inner :=
  publish_status (close_media (remove_cached_key i)) s.

(** [media_tx.send(frame)]. *)
Definition publish_frame (i : Inner) (f : InboundMedia) : Inner :=
  mkInner (inner_session_id i) (inner_max_payload i) (inner_allowed i) (status i) (media_tx i)
    (published i ++ [f]) (key_cache i).

(** ** Sending *)

Definition reserve_transport_sequence : se Locals VoiceError Z := λ w,
  if transport_sequence w =? u64_max then (Err SequenceExhausted, w)
  else (Ok (transport_sequence w),
        mkLocals (transport_sequence w + 1) (channel_sequences w) (replay w) (last_outbound w)
          (attempted w)).

(** [*channel_sequences.entry(t).or_insert(0)]. *)
Definition channel_entry (t : Z) : se Locals VoiceError Z := λ w,
  let channels := match channel_sequences w !! t with
                  | Some _ => channel_sequences w
                  | None => <[t := 0]> (channel_sequences w)
                  end in
  (Ok (default 0 (channels !! t)),
   mkLocals (transport_sequence w) channels (replay w) (last_outbound w) (attempted w)).

(** [socket.send(&packet).await]: [None] is success, [Some e] the I/O error. *)
Definition socket_send (sequence stream channel : Z) (packet : byte_list) (io : option string)
    : se Locals VoiceError unit := λ w,
  (match io with None => Ok tt | Some e => Err (Transport e) end,
   mkLocals (transport_sequence w) (channel_sequences w) (replay w) (last_outbound w)
     (attempted w ++ [mkAttempt sequence stream channel packet (bool_decide (io = None))])).

Definition set_channel (t v : Z) (w : Locals) : Locals :=
  mkLocals (transport_sequence w) (<[t := v]> (channel_sequences w)) (replay w) (last_outbound w)
    (attempted w).

Definition set_last_outbound (now : Z) (w : Locals) : Locals :=
  mkLocals (transport_sequence w) (channel_sequences w) (replay w) now (attempted w).

Definition set_replay (r : ReplayWindow) (w : Locals) : Locals :=
  mkLocals (transport_sequence w) (channel_sequences w) r (last_outbound w) (attempted w).

Section worker.
Context `{L : CryptoLib}.

Definition send_media (codec : PacketCodec L) (stream_type : Z) (payload : byte_list)
    (io : option string) (now : Z) : se Locals VoiceError unit :=
  let! _ := se_lift (map_err Packet (validate_media codec stream_type (len payload))) in
  let! channel_sequence := channel_entry (StreamTypeId.get stream_type) in
  let! sequence := reserve_transport_sequence in
  let! packet :=
    se_lift (map_err Packet (encode_media codec sequence channel_sequence stream_type payload)) in
  let! _ := socket_send sequence stream_type channel_sequence packet io in
  let! _ := se_modify (set_channel (StreamTypeId.get stream_type)
                         (wrapping_add_u16 channel_sequence 1)) in
  se_modify (set_last_outbound now).

Definition send_heartbeat (codec : PacketCodec L) (io : option string) (now : Z)
    : se Locals VoiceError unit :=
  let! sequence := reserve_transport_sequence in
  let! packet := se_lift (map_err Packet (encode_heartbeat codec sequence)) in
  let! _ := socket_send sequence HEARTBEAT_STREAM_TYPE 0 packet io in
  se_modify (set_last_outbound now).

Definition status_after_stop (changed_ok : bool) (stop : option Termination) : VoiceStatus :=
  if negb changed_ok then Disconnected
  else match stop with
       | Some Close | Some Disconnect | None => Disconnected
       | Some (Revoke reason) => StatusRevoked reason
       end.

(** The biased [select!] around a write: the stop signal wins before the write
    is started or while it is pending, or the write completes. *)
Inductive Race :=
| StopFirst (changed_ok : bool) (stop : option Termination)
| StopDuring (changed_ok : bool) (stop : option Termination)
| Written (io : option string).

(** The state in which a pending write was abandoned: as when it fails. *)
Definition abandoned : option string := Some "cancelled"%string.

(** [handle_command]: whether the worker lives, the state, and the result sent
    to the caller ([None]: the response channel is dropped). *)
Definition handle_command (i : Inner) (codec : PacketCodec L) (w : Locals)
    (stream_type : Z) (payload : byte_list) (race : Race) (now : Z)
    : bool * Inner * Locals * option (result VoiceError unit) :=
  match race with
  | StopFirst ok stop => (false, finish i (status_after_stop ok stop), w, None)
  | StopDuring ok stop =>
      (false, finish i (status_after_stop ok stop),
       (send_media codec stream_type payload abandoned now w).2, None)
  | Written io =>
      let '(result, w) := send_media codec stream_type payload io now w in
      let terminal := match result with
                      | Err (Transport _) | Err SequenceExhausted => true
                      | _ => false
                      end in
      if terminal then (false, finish i Disconnected, w, Some result)
      else (true, i, w, Some result)
  end.

(** [handle_inbound]: whether the worker lives. *)
Definition handle_inbound (i : Inner) (codec : PacketCodec L) (w : Locals) (datagram : byte_list)
    : option (bool * Inner * Locals) :=
  let* decoded := decode_server codec datagram in
  match decoded with
  | Err _ => Some (true, i, w)
  | Ok packet =>
      let* (fresh, window) := accept (replay w) (pkt_transport_seq packet) in
      let w := set_replay window w in
      if negb fresh then Some (true, i, w)
      else
        match pkt_control packet with
        | Some Heartbeat => Some (true, i, w)
        | Some (Revocation reason) => Some (false, finish i (StatusRevoked reason), w)
        | None =>
            match pkt_speaker_id packet with
            | None => Some (true, i, w)
            | Some speaker =>
                let frame := mkInboundMedia speaker (pkt_stream_type packet)
                               (pkt_channel_seq packet) (pkt_transport_seq packet)
                               (pkt_payload packet) in
                Some (true, if media_tx i then publish_frame i frame else i, w)
            end
        end
  end.

(** What one iteration of the loop's [select!] sees. *)
Inductive Input :=
| StopChanged (changed_ok : bool) (stop : option Termination)
| CommandsClosed
| Command (stream_type : Z) (payload : byte_list) (race : Race) (now : Z)
| Datagram (bytes : byte_list)
| ReceiveError
| Tick (now : Z) (race : Race).

Definition loop_body (i : Inner) (codec : PacketCodec L) (w : Locals) (input : Input)
    : option (bool * Inner * Locals) :=
  match input with
  | StopChanged ok stop =>
      if negb ok then Some (false, finish i Disconnected, w)
      else match stop with
           | Some termination =>
               let s := match termination with
                        | Close | Disconnect => Disconnected
                        | Revoke reason => StatusRevoked reason
                        end in
               Some (false, finish i s, w)
           | None => Some (true, i, w)
           end
  | CommandsClosed => Some (false, finish i Disconnected, w)
  | Command stream_type payload race now =>
      let '(alive, i, w, _) := handle_command i codec w stream_type payload race now in
      Some (alive, i, w)
  | Datagram bytes => handle_inbound i codec w bytes
  | ReceiveError => Some (false, finish i Disconnected, w)
  | Tick now race =>
      if HEARTBEAT_INTERVAL <=? now - last_outbound w then
        match race with
        | StopFirst ok stop => Some (false, finish i (status_after_stop ok stop), w)
        | StopDuring ok stop =>
            Some (false, finish i (status_after_stop ok stop),
                  (send_heartbeat codec abandoned now w).2)
        | Written io =>
            match send_heartbeat codec io now w with
            | (Err _, w) => Some (false, finish i Disconnected, w)
            | (Ok _, w) => Some (true, i, w)
            end
        end
      else Some (true, i, w)
  end.

(** The loop: it ends at the first input after which the worker does not live. *)
Fixpoint run_loop (i : Inner) (codec : PacketCodec L) (w : Locals) (inputs : list Input)
    : option (bool * Inner * Locals) :=
  match inputs with
  | [] => Some (true, i, w)
  | input :: rest =>
      let* (alive, i, w) := loop_body i codec w input in
      if alive : bool then run_loop i codec w rest else Some (false, i, w)
  end.

Definition initial_locals (now : Z) : Locals := mkLocals 1 ∅ ReplayWindow_default now [].

(** [run]: the first heartbeat, the status, then the loop. The second component
    is what [started_tx] reports. *)
Definition run (i : Inner) (codec : PacketCodec L) (first_write : option string) (now : Z)
    (inputs : list Input) : option (bool * Inner * Locals) * result VoiceError unit :=
  match send_heartbeat codec first_write now (initial_locals now) with
  | (Err e, w) => (Some (false, finish i Disconnected, w), Err e)
  | (Ok _, w) => (run_loop (publish_status i Active) codec w inputs, Ok tt)
  end.

(** [VoiceSession::start] up to the spawn: the shared state and the codec. *)
Definition start (config : VoiceSessionConfig) (cache : option (gmap (list Z) (list Z)))
    : option (result VoiceError (Inner * PacketCodec L)) :=
  let* (codec, cache) := from_config config cache in
  match codec with
  | Err e => Some (Err e)
  | Ok codec =>
      Some (Ok (mkInner (cfg_session_id config) (cfg_max_payload config) (codec_allowed codec)
                  Joining true [] cache, codec))
  end.
End worker.

(** ** The public handle *)

(** Where the bounded command queue stands when [try_send] is called. *)
Inductive QueueState := QueueOpen | QueueFullState | QueueClosed.

(** [VoiceSession::send] up to the command queue: [Ok] when the command is admitted. *)
Definition session_send (i : Inner) (queue : QueueState) (stream_type : Z) (payload : byte_list)
    : result VoiceError unit :=
  match status i with
  | StatusRevoked reason => Err (VoiceRevoked reason)
  | Disconnected => Err Closed
  | Idle | Joining | Disconnecting => Err NotActive
  | Active =>
      let? _ := map_err Packet (validate_media_values (inner_allowed i) (inner_max_payload i)
                                  stream_type (len payload)) in
      match queue with
      | QueueOpen => Ok tt
      | QueueFullState => Err QueueFull
      | QueueClosed => Err Closed
      end
  end.

(** [connect_socket]: what bind and connect give for each resolved address. *)
Record Address := mkAddress {
  remote : string;
  remote_is_ipv4 : bool;
  bind_error : option string;
  connect_error : option string;
}.

Definition local_address (a : Address) : string :=
  if remote_is_ipv4 a then "0.0.0.0:0" else "[::]:0".

Fixpoint try_addresses (last_error : option string) (addresses : list Address)
    : result VoiceError (string * string) :=
  match addresses with
  | [] => Err (Endpoint (default "voice endpoint resolved to no addresses"%string last_error))
  | a :: rest =>
      match bind_error a with
      | Some e => try_addresses (Some e) rest
      | None =>
          match connect_error a with
          | None => Ok (local_address a, remote a)
          | Some e => try_addresses (Some e) rest
          end
      end
  end.

Definition connect_socket (addresses : result string (list Address))
    : result VoiceError (string * string) :=
  let? addresses := map_err Endpoint addresses in
  try_addresses None addresses.

(** ** Handles and worker together

    [VoiceSession::request_termination] is several atomic actions on the shared
    state, interleaved with the worker's and with other handles'. *)

Inductive HandlePc :=
| HandleStart (t : Termination)
| HandleChecked (t : Termination)
| HandlePublished (t : Termination)
| HandleWaiting
| HandleReturned (r : result VoiceError unit).

Record Joint := mkJoint {
  j_inner : Inner;
  (** [None] once the task has ended, and with it the receiver of [stop_tx]. *)
  j_worker : option Locals;
  j_stop : option Termination;
  j_handles : list HandlePc;
}.

(** Values of the types of the code: stream types are [u8], buffers are bytes. *)
Definition input_ok (input : Input) : Prop :=
  match input with
  | Command stream_type _ _ _ => 0 ≤ stream_type < 256
  | Datagram bytes => bytes_ok bytes
  | _ => True
  end.

(** A stop input shows the value in the stop channel. *)
Definition sees_stop (stop : option Termination) (input : Input) : Prop :=
  match input with
  | StopChanged ok seen | Command _ _ (StopFirst ok seen | StopDuring ok seen) _
  | Tick _ (StopFirst ok seen | StopDuring ok seen) => ok = true ∧ seen = stop ∧ stop ≠ None
  | _ => True
  end.

Inductive joint_step `{L : CryptoLib} (codec : PacketCodec L) : Joint → Joint → Prop :=
| joint_worker i w stop hs input alive i' w' :
    input_ok input → sees_stop stop input → loop_body i codec w input = Some (alive, i', w') →
    joint_step codec (mkJoint i (Some w) stop hs)
      (mkJoint i' (if alive then Some w' else None) stop hs)
| joint_already_stopped i wk stop hs k t :
    hs !! k = Some (HandleStart t) → is_terminal (status i) = true →
    joint_step codec (mkJoint i wk stop hs) (mkJoint i wk stop (<[k := HandleReturned (Ok tt)]> hs))
| joint_check i wk stop hs k t :
    hs !! k = Some (HandleStart t) → is_terminal (status i) = false →
    joint_step codec (mkJoint i wk stop hs) (mkJoint i wk stop (<[k := HandleChecked t]> hs))
| joint_publish i wk stop hs k t :
    hs !! k = Some (HandleChecked t) →
    joint_step codec (mkJoint i wk stop hs)
      (mkJoint (match t with Revoke _ => i | _ => publish_status i Disconnecting end) wk stop
         (<[k := HandlePublished t]> hs))
| joint_send_stop i w stop hs k t :
    hs !! k = Some (HandlePublished t) →
    joint_step codec (mkJoint i (Some w) stop hs)
      (mkJoint i (Some w) (Some t) (<[k := HandleWaiting]> hs))
| joint_send_stop_closed i stop hs k t :
    hs !! k = Some (HandlePublished t) →
    joint_step codec (mkJoint i None stop hs)
      (mkJoint i None stop (<[k := HandleReturned (Err Closed)]> hs))
| joint_stopped i wk stop hs k :
    hs !! k = Some HandleWaiting → is_terminal (status i) = true →
    joint_step codec (mkJoint i wk stop hs) (mkJoint i wk stop (<[k := HandleReturned (Ok tt)]> hs)).

(** ** The invariant of the sending side *)

(** The packets of stream [t] the socket accepted. *)
Definition written (t : Z) (l : list Attempt) : Z :=
  len (filter (λ a, at_stream a = t ∧ at_written a = true) l).

(** The relay on the other side reads the packet back with the same numbers. *)
Definition packet_ok `{L : CryptoLib} (codec : PacketCodec L) (a : Attempt) : Prop :=
  len (at_packet a) ≤ MAX_PACKET_SIZE ∧
  ∃ p, decode_client codec (at_packet a) = Some (Ok p) ∧
    pkt_transport_seq p = at_sequence a ∧ pkt_stream_type p = at_stream a ∧
    pkt_channel_seq p = at_channel a.

Record locals_ok `{L : CryptoLib} (codec : PacketCodec L) (w : Locals) : Prop := {
  l_seq : 1 ≤ transport_sequence w ≤ u64_max;
  l_sorted : StronglySorted Z.lt (at_sequence <$> attempted w);
  l_below : Forall (λ a, 1 ≤ at_sequence a < transport_sequence w) (attempted w);
  l_channels : ∀ t, t ≠ 0 → default 0 (channel_sequences w !! t) = written t (attempted w) mod 2 ^ 16;
  l_numbered : ∀ l1 a l2, attempted w = l1 ++ a :: l2 → at_stream a ≠ 0 →
    at_channel a = written (at_stream a) l1 mod 2 ^ 16;
  l_packets : Forall (packet_ok codec) (attempted w);
}.

Lemma written_app t l k : written t (l ++ k) = written t l + written t k.
Proof. unfold written. by rewrite filter_app, len_app. Qed.

Lemma written_one t a :
  written t [a] = if bool_decide (at_stream a = t ∧ at_written a = true) then 1 else 0.
Proof.
  unfold written. case_bool_decide.
  - by rewrite filter_cons_True.
  - by rewrite filter_cons_False.
Qed.

Lemma StronglySorted_snoc l x :
  StronglySorted Z.lt l → Forall (λ y, y < x) l → StronglySorted Z.lt (l ++ [x]).
Proof.
  induction 1 as [|y l Hs IH Hy]; intros Hx; simpl; [repeat constructor|].
  apply Forall_cons in Hx as [Hyx Hx]. constructor; [auto|].
  apply Forall_app. split; [done|by apply Forall_singleton].
Qed.

Lemma app_cons_snoc {A} (l l1 l2 : list A) x y :
  l ++ [x] = l1 ++ y :: l2 → (l2 = [] ∧ l1 = l ∧ y = x) ∨ ∃ l2', l2 = l2' ++ [x] ∧ l = l1 ++ y :: l2'.
Proof.
  destruct l2 as [|z l2] using rev_ind; intros H.
  - apply app_inj_tail in H as [-> ->]. by left.
  - right. exists l2. rewrite app_comm_cons, app_assoc in H. by apply app_inj_tail in H as [-> ->].
Qed.

Section send_lemmas.
Context `{Laws : CryptoLaws}.
Implicit Types codec : PacketCodec L.

(** Handing one packet to the socket, with the next transport sequence. *)
Lemma push_attempt codec w st ch packet io channels last :
  locals_ok codec w → transport_sequence w < u64_max →
  (st ≠ 0 → ch = written st (attempted w) mod 2 ^ 16) →
  packet_ok codec (mkAttempt (transport_sequence w) st ch packet (bool_decide (io = None))) →
  (∀ t, t ≠ 0 → default 0 (channels !! t) =
     (written t (attempted w) + if bool_decide (st = t ∧ io = @None string) then 1 else 0) mod 2 ^ 16) →
  locals_ok codec (mkLocals (transport_sequence w + 1) channels (replay w) last
    (attempted w ++ [mkAttempt (transport_sequence w) st ch packet (bool_decide (io = None))])).
Proof.
  intros [Hs Hsort Hbelow Hch Hnum Hp] Hlt Hst Hpkt Hchannels. constructor; simpl.
  - lia.
  - rewrite fmap_app. apply StronglySorted_snoc; [done|].
    apply Forall_fmap. eapply Forall_impl; [exact Hbelow|]. simpl. lia.
  - apply Forall_app. split; [|apply Forall_singleton; simpl; lia].
    eapply Forall_impl; [exact Hbelow|]. simpl. lia.
  - intros t Ht. rewrite written_app, written_one, Hchannels by done. simpl.
    do 2 f_equal. repeat case_bool_decide; naive_solver.
  - intros l1 a l2 [(-> & -> & ->)|(l2' & -> & Heq)]%app_cons_snoc Hne.
    + by apply Hst.
    + by eapply Hnum.
  - apply Forall_app. split; [done|by apply Forall_singleton].
Qed.

Lemma channel_entry_spec codec w t :
  locals_ok codec w → t ≠ 0 →
  ∃ w', channel_entry t w = (Ok (written t (attempted w) mod 2 ^ 16), w') ∧ locals_ok codec w' ∧
    attempted w' = attempted w ∧ transport_sequence w' = transport_sequence w ∧
    replay w' = replay w.
Proof.
  intros Hw Ht. pose proof (l_channels _ _ Hw) as Hch. unfold channel_entry.
  assert (default 0 ((match channel_sequences w !! t with
                      | Some _ => channel_sequences w
                      | None => <[t := 0]> (channel_sequences w)
                      end) !! t) = written t (attempted w) mod 2 ^ 16) as ->.
  { rewrite <- Hch by done. destruct (channel_sequences w !! t) eqn:Hl; [by rewrite Hl|].
    by rewrite lookup_insert_eq. }
  eexists. split; [done|]. split; [|by split_and!].
  destruct Hw. constructor; simpl; try done. intros u Hu. rewrite <- Hch by done.
  destruct (channel_sequences w !! t) eqn:Hl; [done|].
  destruct (decide (t = u)) as [->|]; [by rewrite lookup_insert_eq, Hl|].
  by rewrite lookup_insert_ne.
Qed.

Lemma reserve_spec codec w :
  locals_ok codec w →
  reserve_transport_sequence w =
    if transport_sequence w =? u64_max then (Err SequenceExhausted, w)
    else (Ok (transport_sequence w),
          mkLocals (transport_sequence w + 1) (channel_sequences w) (replay w) (last_outbound w)
            (attempted w)).
Proof. reflexivity. Qed.

(** A written media packet: its numbers, and the state it leaves. *)
Lemma send_media_ok codec st payload io now w r w' :
  codec_ok codec → 0 ≤ st < 256 → locals_ok codec w →
  send_media codec st payload io now w = (r, w') →
  locals_ok codec w' ∧ replay w' = replay w ∧
  match r with
  | Ok _ => io = None ∧ ∃ a, attempted w' = attempted w ++ [a] ∧ at_written a = true ∧
      at_sequence a = transport_sequence w ∧ at_stream a = st
  | Err (Transport e) => io = Some e
  | Err SequenceExhausted => transport_sequence w = u64_max ∧ attempted w' = attempted w
  | Err (Packet e) => attempted w' = attempted w ∧ transport_sequence w' = transport_sequence w
  | Err _ => False
  end.
Proof.
  intros Hcodec Hst Hw H. unfold send_media, se_bind, se_lift, se_modify in H.
  destruct (validate_media codec st (len payload)) as [[]|e] eqn:Hv; cbn [map_err] in H; [|by simplify_eq].
  pose proof Hv as (Hst0 & Hal & Hle)%validate_media_ok. unfold StreamTypeId.get in H.
  destruct (channel_entry_spec codec w st Hw Hst0) as (w1 & Hce & Hw1 & Ha1 & Hs1 & Hr1).
  rewrite Hce, (reserve_spec codec w1 Hw1) in H.
  destruct (Z.eqb_spec (transport_sequence w1) u64_max) as [Hmax|Hmax].
  { simplify_eq. split_and!; try done; congruence. }
  pose proof (l_seq _ _ Hw1) as Hrange.
  set (ch := written st (attempted w) mod 2 ^ 16) in *.
  assert (is_u16 ch) as Hch.
  { unfold ch, is_u16, u16_max. pose proof (Z.mod_pos_bound (written st (attempted w)) (2 ^ 16)). lia. }
  destruct (encode_body_total codec (transport_sequence w1) st ch 0 payload true)
    as (d & He & _ & Hd); [done|lia|done|].
  assert (encode_media codec (transport_sequence w1) ch st payload = Ok d) as Hem.
  { unfold encode_media. by rewrite Hv. }
  rewrite Hem in H. cbn [map_err socket_send] in H.
  assert (packet_ok codec (mkAttempt (transport_sequence w1) st ch d (bool_decide (io = None)))) as Hpkt.
  { split; [done|]. apply decode_encoded in He; [|by apply codec_sid|split; lia|done|done].
    unfold classify in He. destruct (Z.eqb_spec st 0); [done|]. rewrite Hal in He. simpl in He.
    destruct (Z.ltb_spec (codec_max_payload codec) (len payload)); [lia|].
    eexists. split; [exact He|]. by split_and!. }
  assert (written st (attempted w1) mod 2 ^ 16 = ch) as Hcount by by rewrite Ha1.
  destruct io as [e|]; cbn in H; simplify_eq.
  - split; [|done]. apply (push_attempt codec w1 st _ d (Some e)); try done; [lia|].
    intros t Ht. rewrite bool_decide_eq_false_2 by naive_solver.
    rewrite Z.add_0_r. by apply (l_channels codec w1 Hw1).
  - split; [|split; [exact Hr1|]].
    + apply (push_attempt codec w1 st _ d None); try done; [lia|].
      intros t Ht. unfold wrapping_add_u16. destruct (decide (st = t)) as [<-|Hne].
      * simpl. rewrite lookup_insert_eq, bool_decide_eq_true_2 by done. simpl.
        rewrite <- Hcount. by rewrite Zplus_mod_idemp_l.
      * simpl. rewrite lookup_insert_ne by done. rewrite bool_decide_eq_false_2 by naive_solver.
        rewrite Z.add_0_r. by apply (l_channels codec w1 Hw1).
    + split; [done|]. eexists. split; [by rewrite Ha1|]. simpl. by split_and!.
Qed.

Lemma send_heartbeat_ok codec io now w r w' :
  codec_ok codec → locals_ok codec w → send_heartbeat codec io now w = (r, w') →
  locals_ok codec w' ∧ replay w' = replay w ∧ (r = Ok tt → io = None).
Proof.
  intros Hcodec Hw H. unfold send_heartbeat, se_bind, se_lift, se_modify in H.
  rewrite (reserve_spec codec w Hw) in H.
  destruct (Z.eqb_spec (transport_sequence w) u64_max) as [Hmax|Hmax]; [by simplify_eq|].
  pose proof (l_seq _ _ Hw) as Hrange.
  destruct (encode_body_total codec (transport_sequence w) 0 0 0 [] true)
    as (d & He & _ & Hd); [done|lia|destruct (codec_limit _ Hcodec); unfold len; simpl; lia|].
  assert (encode_heartbeat codec (transport_sequence w) = Ok d) as Hem by done.
  rewrite Hem in H. cbn [map_err socket_send] in H.
  assert (locals_ok codec (mkLocals (transport_sequence w + 1) (channel_sequences w) (replay w)
    (match io with None => now | Some _ => last_outbound w end)
    (attempted w ++ [mkAttempt (transport_sequence w) 0 0 d (bool_decide (io = None))]))).
  { apply (push_attempt codec w 0 0 d io); try done; [lia| |].
    - split; [done|]. apply decode_encoded in He; [|by apply codec_sid|split; lia|done|done].
      eexists. split; [exact He|]. by split_and!.
    - intros t Ht. rewrite bool_decide_eq_false_2 by naive_solver.
      rewrite Z.add_0_r. by apply (l_channels codec w Hw). }
  destruct io; cbn in H; simplify_eq; by split_and!.
Qed.

Lemma initial_locals_ok codec now : locals_ok codec (initial_locals now).
Proof.
  constructor; simpl; try by constructor.
  by intros [|??] ?? ?.
Qed.
End send_lemmas.

(** ** The invariant of the whole session *)

(** A frame is the projection of a packet. *)
Definition frame_of (p : DecodedPacket) (f : InboundMedia) : Prop :=
  pkt_control p = None ∧ pkt_speaker_id p = Some (speaker_id f) ∧
  pkt_stream_type p = stream_type f ∧ pkt_channel_seq p = channel_seq f ∧
  pkt_transport_seq p = transport_seq f ∧ pkt_payload p = payload f.

Record session_ok `{L : CryptoLib} (codec : PacketCodec L) (alive : bool) (i : Inner) (w : Locals)
    : Prop := {
  s_locals : locals_ok codec w;
  s_window : ∃ s, window_rel (replay w) s ∧ NoDup (transport_seq <$> published i) ∧
    Forall (λ f, transport_seq f ∈ spec_seen s) (published i);
  s_alive : alive = true → is_terminal (status i) = false ∧ media_tx i = true;
  s_dead : alive = false → is_terminal (status i) = true ∧ media_tx i = false ∧
    ∀ keys, key_cache i = Some keys → keys !! inner_session_id i = None;
}.

Lemma finish_spec i s :
  status (finish i s) = s ∧ media_tx (finish i s) = false ∧ published (finish i s) = published i ∧
  inner_session_id (finish i s) = inner_session_id i ∧
  (∀ keys, key_cache (finish i s) = Some keys → keys !! inner_session_id i = None) ∧
  (∀ keys, key_cache i = Some keys →
     key_cache (finish i s) = Some (delete (inner_session_id i) keys)).
Proof.
  unfold finish, publish_status, close_media, remove_cached_key.
  destruct i as [sid mp al st mt pub [keys|]]; simpl; case_bool_decide; simpl; split_and!; try done.
  all: intros ks Hks; simplify_eq/=; try done; by rewrite lookup_delete_eq.
Qed.

Lemma status_after_stop_terminal ok stop : is_terminal (status_after_stop ok stop) = true.
Proof. unfold status_after_stop. by repeat case_match. Qed.

Section session_lemmas.
Context `{Laws : CryptoLaws}.
Implicit Types codec : PacketCodec L.

Lemma finish_ok codec i w w' s :
  session_ok codec true i w → is_terminal s = true → locals_ok codec w' → replay w' = replay w →
  session_ok codec false (finish i s) w'.
Proof.
  intros [_ Hwin _ _] Ht Hl Hr. destruct (finish_spec i s) as (Hs & Hm & Hp & Hid & Hk & _).
  constructor; try done.
  - by rewrite Hr, Hp.
  - intros _. rewrite Hs, Hid. by split_and!.
Qed.

Lemma keep_ok codec i w w' :
  session_ok codec true i w → locals_ok codec w' → replay w' = replay w →
  session_ok codec true i w'.
Proof. intros [_ Hwin Ha _] Hl Hr. constructor; try done. by rewrite Hr. Qed.

Lemma set_replay_ok codec w r : locals_ok codec w → locals_ok codec (set_replay r w).
Proof. intros []. by constructor. Qed.

Lemma handle_command_ok codec i w st payload race now alive i' w' res :
  codec_ok codec → 0 ≤ st < 256 → session_ok codec true i w →
  handle_command i codec w st payload race now = (alive, i', w', res) →
  session_ok codec alive i' w' ∧ published i' = published i.
Proof.
  intros Hc Hst Hok H. pose proof (s_locals _ _ _ _ Hok) as Hl. destruct race as [ok stop|ok stop|io];
    simpl in H.
  - simplify_eq. split; [|by apply finish_spec].
    eapply finish_ok; [exact Hok|apply status_after_stop_terminal|done..].
  - simplify_eq. split; [|by apply finish_spec].
    destruct (send_media codec st payload abandoned now w) as [r w1] eqn:Hs. simpl.
    apply send_media_ok in Hs as (? & ? & _); [|done..].
    eapply finish_ok; [exact Hok|apply status_after_stop_terminal|done..].
  - destruct (send_media codec st payload io now w) as [r w1] eqn:Hs.
    apply send_media_ok in Hs as (Hw1 & Hr1 & _); [|done..].
    destruct (match r with Ok _ => false | Err _ => _ end) eqn:Ht in H; simplify_eq.
    + split; [|by apply finish_spec]. by eapply finish_ok; [exact Hok|..].
    + split; [|done]. by eapply keep_ok; [exact Hok|..].
Qed.

(** One received datagram: never a panic, at most one frame. *)
Lemma handle_inbound_ok codec i w d :
  bytes_ok d → session_ok codec true i w →
  ∃ alive i' w', handle_inbound i codec w d = Some (alive, i', w') ∧
    session_ok codec alive i' w' ∧ attempted w' = attempted w ∧
    (published i' = published i ∨
     ∃ p f, decode_server codec d = Some (Ok p) ∧ frame_of p f ∧
       published i' = published i ++ [f]).
Proof.
  intros Hd Hok. pose proof Hok as [Hl (s & Hrel & Hnd & Hseen) Ha _]. unfold handle_inbound.
  destruct (decode_direction_total codec d false) as [dec Hdec].
  assert (decode_server codec d = Some dec) as Hds by done. rewrite Hds.
  destruct dec as [p|e]; [|by do 3 eexists; split; [done|]; split_and!; [..|by left]].
  pose proof Hdec as (seq & st & ch & sp & pl & _ & Hseq & _ & _ & _ & _ & Hcl)
    %decode_direction_inv; [|done].
  assert (pkt_transport_seq p = seq) as Hpseq.
  { unfold classify in Hcl. destruct (st =? 0); [by case_match; simplify_eq|].
    case_match; [done|]. apply result_bind_ok in Hcl as (? & _ & Hcl). by case_match; simplify_eq. }
  destruct (accept_refines (replay w) s (pkt_transport_seq p)) as (win & Hacc & Hrel');
    [done|by rewrite Hpseq|].
  rewrite Hacc. unfold spec_accept in Hrel' |- *.
  assert (∀ i' s', window_rel win s' → published i' = published i →
    (∀ x, x ∈ spec_seen s → x ∈ spec_seen s') →
    status i' = status i → media_tx i' = media_tx i →
    session_ok codec true i' (set_replay win w)) as Hquiet.
  { intros i' s' Hw' Hp Hsub Hst Hm. constructor; [by apply set_replay_ok| |by rewrite Hst, Hm|done].
    exists s'. rewrite Hp. split_and!; [done..|]. eapply Forall_impl; [exact Hseen|]. simpl. auto. }
  destruct (spec_accepts s (pkt_transport_seq p)) eqn:Hfresh; cbn [fst snd negb] in *; cycle 1.
  { do 3 eexists. split; [done|]. split_and!; [|done|by left]. by eapply (Hquiet i s). }
  apply bool_decide_eq_true in Hfresh as (_ & Hnew & _).
  assert (∀ x, x ∈ spec_seen s → x ∈ spec_seen (mkSpec (Z.max (spec_high s) (pkt_transport_seq p))
    ({[pkt_transport_seq p]} ∪ spec_seen s))) as Hsub by set_solver.
  pose proof (Hquiet i _ Hrel' eq_refl Hsub eq_refl eq_refl) as Hq.
  destruct (pkt_control p) as [[|reason]|] eqn:Hctl.
  - do 3 eexists. split; [done|]. by split_and!; [..|left].
  - do 3 eexists. split; [done|]. split_and!; [|done|left; by apply finish_spec].
    by apply (finish_ok codec i (set_replay win w)); [..|apply set_replay_ok|].
  - destruct (pkt_speaker_id p) as [speaker|] eqn:Hspk; cycle 1.
    { do 3 eexists. split; [done|]. by split_and!; [..|left]. }
    destruct Ha as [Hact Hm]; [done|]. rewrite Hm. do 3 eexists. split; [done|]. split_and!.
    + constructor; simpl; [by apply set_replay_ok| |by rewrite Hact|done].
      eexists. split; [exact Hrel'|]. rewrite fmap_app. simpl. split.
      * apply NoDup_app. split_and!; [done| |apply NoDup_singleton].
        intros x Hx ->%list_elem_of_singleton. apply Hnew.
        apply list_elem_of_fmap in Hx as (f & -> & Hf). by eapply Forall_forall in Hseen.
      * apply Forall_app. split; [|apply Forall_singleton; simpl; set_solver].
        eapply Forall_impl; [exact Hseen|]. simpl. set_solver.
    + done.
    + right. do 2 eexists. split; [done|]. split; [|done]. by split_and!.
Qed.

(** One iteration of the loop. *)
Lemma loop_body_ok codec i w input :
  codec_ok codec → input_ok input → session_ok codec true i w →
  ∃ alive i' w', loop_body i codec w input = Some (alive, i', w') ∧
    session_ok codec alive i' w' ∧
    (published i' = published i ∨
     ∃ d p f, input = Datagram d ∧ decode_server codec d = Some (Ok p) ∧ frame_of p f ∧
       published i' = published i ++ [f]).
Proof.
  intros Hc Hin Hok. pose proof (s_locals _ _ _ _ Hok) as Hl.
  assert (∀ s w', is_terminal s = true → locals_ok codec w' → replay w' = replay w →
    session_ok codec false (finish i s) w' ∧ (published (finish i s) = published i ∨
     ∃ d p f, input = Datagram d ∧ decode_server codec d = Some (Ok p) ∧ frame_of p f ∧
       published (finish i s) = published i ++ [f])) as Hfin.
  { intros s w' ???. split; [by apply (finish_ok codec i w)|]. left. by apply finish_spec. }
  destruct input as [ok stop| |st payload race now|d| |now race]; simpl in *.
  - destruct ok; simpl; [destruct stop as [t|]|]; do 3 eexists; (split; [done|]).
    + apply Hfin; [by destruct t|done..].
    + by split; [|left].
    + by apply Hfin.
  - do 3 eexists. split; [done|]. by apply Hfin.
  - destruct (handle_command i codec w st payload race now) as [[[a i'] w'] res] eqn:Hcmd.
    apply handle_command_ok in Hcmd as [? ?]; [|done..].
    do 3 eexists. split; [done|]. by split; [|left].
  - destruct (handle_inbound_ok codec i w d) as (a & i' & w' & -> & ? & _ & Hp); [done..|].
    do 3 eexists. split; [done|]. split; [done|]. destruct Hp as [?|(p & f & ? & ? & ?)]; [by left|].
    right. by exists d, p, f.
  - do 3 eexists. split; [done|]. by apply Hfin.
  - destruct (HEARTBEAT_INTERVAL <=? now - last_outbound w); cycle 1.
    { do 3 eexists. split; [done|]. by split; [|left]. }
    destruct race as [ok stop|ok stop|io].
    + do 3 eexists. split; [done|]. by apply Hfin; [apply status_after_stop_terminal|..].
    + destruct (send_heartbeat codec abandoned now w) as [r w1] eqn:Hs.
      apply send_heartbeat_ok in Hs as (? & ? & _); [|done..].
      do 3 eexists. split; [done|]. by apply Hfin; [apply status_after_stop_terminal|..].
    + destruct (send_heartbeat codec io now w) as [r w1] eqn:Hs.
      apply send_heartbeat_ok in Hs as (? & ? & _); [|done..].
      destruct r; do 3 eexists; (split; [done|]); [|by apply Hfin].
      split; [by apply (keep_ok codec i w)|by left].
Qed.

Lemma run_loop_ok codec i w inputs :
  codec_ok codec → Forall input_ok inputs → session_ok codec true i w →
  ∃ alive i' w', run_loop i codec w inputs = Some (alive, i', w') ∧ session_ok codec alive i' w' ∧
    Forall (λ f, f ∈ published i ∨ ∃ d p, Datagram d ∈ inputs ∧
      decode_server codec d = Some (Ok p) ∧ frame_of p f) (published i').
Proof.
  intros Hc Hin. revert i w. induction Hin as [|input inputs Hi Hin IH]; intros i w Hok; simpl.
  { do 3 eexists. split; [done|]. split; [done|]. apply Forall_forall. by left. }
  destruct (loop_body_ok codec i w input) as (a & i1 & w1 & -> & Hok1 & Hp1); [done..|].
  assert (Forall (λ f, f ∈ published i ∨ ∃ d p, Datagram d ∈ input :: inputs ∧
      decode_server codec d = Some (Ok p) ∧ frame_of p f) (published i1)) as Hstep.
  { destruct Hp1 as [->|(d & p & f & -> & ? & ? & ->)]; [apply Forall_forall; by left|].
    apply Forall_app. split; [apply Forall_forall; by left|]. apply Forall_singleton. right.
    exists d, p. by split_and!; [left|..]. }
  destruct a; [|by do 3 eexists].
  destruct (IH i1 w1 Hok1) as (a2 & i2 & w2 & -> & Hok2 & Hp2). do 3 eexists. split; [done|].
  split; [done|]. apply Forall_forall. intros f Hf. rewrite Forall_forall in Hp2, Hstep.
  destruct (Hp2 f Hf) as [Hold|(d & p & ? & ? & ?)]; [by apply Hstep|].
  right. exists d, p. by split_and!; [right|..].
Qed.
End session_lemmas.

Section run_lemmas.
Context `{Laws : CryptoLaws}.
Implicit Types codec : PacketCodec L.

(** The shared state [start] hands to the task. *)
Definition fresh (i : Inner) : Prop := status i = Joining ∧ media_tx i = true ∧ published i = [].

Lemma start_session_ok codec i w :
  fresh i → locals_ok codec w → replay w = ReplayWindow_default →
  session_ok codec true (publish_status i Active) w.
Proof.
  intros (Hs & Hm & Hp) Hw Hr. unfold publish_status.
  rewrite bool_decide_eq_false_2 by by rewrite Hs. constructor; simpl; try done.
  exists spec_init. rewrite Hr, Hp. split; [apply window_rel_default|]. split; constructor.
Qed.

Lemma run_ok codec i first_write now inputs :
  codec_ok codec → Forall input_ok inputs → fresh i →
  ∃ alive i' w' started, run i codec first_write now inputs = (Some (alive, i', w'), started) ∧
    session_ok codec alive i' w' ∧ (started = Ok tt ↔ first_write = None) ∧
    Forall (λ f, ∃ d p, Datagram d ∈ inputs ∧ decode_server codec d = Some (Ok p) ∧ frame_of p f)
      (published i').
Proof.
  intros Hc Hin Hfresh. unfold run.
  destruct (send_heartbeat codec first_write now (initial_locals now)) as [r w] eqn:Hs.
  assert (r = Ok tt ↔ first_write = None) as Hstarted.
  { unfold send_heartbeat, se_bind, se_lift, se_modify in Hs.
    rewrite (reserve_spec codec _ (initial_locals_ok codec now)) in Hs.
    destruct (encode_body_total codec 1 0 0 0 [] true) as (d & He & _ & _); [done|done| |].
    { destruct (codec_limit _ Hc). unfold len. simpl. lia. }
    cbn [initial_locals transport_sequence] in Hs. change (1 =? u64_max) with false in Hs.
    assert (encode_heartbeat codec 1 = Ok d) as Hem by done.
    cbv iota in Hs. rewrite Hem in Hs. by destruct first_write; cbn in Hs; simplify_eq. }
  apply send_heartbeat_ok in Hs as (Hw & Hr & _); [|done|apply initial_locals_ok].
  pose proof (start_session_ok codec i w Hfresh Hw Hr) as Hok.
  destruct r as [[]|e].
  - destruct (run_loop_ok codec _ w inputs Hc Hin Hok) as (a & i' & w' & -> & Hok' & Hpub).
    do 4 eexists. split; [done|]. split_and!; [done|done|].
    eapply Forall_impl; [exact Hpub|]. simpl. intros f [Hold|?]; [|done]. exfalso.
    unfold publish_status in Hold. destruct Hfresh as (? & ? & Hp).
    case_bool_decide; simpl in Hold; rewrite Hp in Hold; by apply elem_of_nil in Hold.
  - do 4 eexists. split; [done|].
    destruct (finish_spec i Disconnected) as (Hst & Hm & Hp & Hid & Hk & _).
    destruct Hfresh as (? & ? & Hnil). split_and!; [|done|by rewrite Hp, Hnil].
    constructor; [done| |done|].
    + exists spec_init. rewrite Hr, Hp, Hnil. split; [apply window_rel_default|]. split; constructor.
    + intros _. rewrite Hst, Hid. by split_and!.
Qed.

Lemma sorted_NoDup l : StronglySorted Z.lt l → NoDup l.
Proof.
  induction 1 as [|x l Hs IH Hx]; constructor; [|done]. intros Hin.
  rewrite Forall_forall in Hx. specialize (Hx x Hin). lia.
Qed.

(** What the shared state is in every interleaving. *)
Definition joint_ok codec (j : Joint) : Prop :=
  match j_worker j with
  | Some w => session_ok codec true (j_inner j) w
  | None => media_tx (j_inner j) = false ∧
      (∀ keys, key_cache (j_inner j) = Some keys → keys !! inner_session_id (j_inner j) = None) ∧
      (is_terminal (status (j_inner j)) = true ∨ status (j_inner j) = Disconnecting)
  end.

Lemma joint_step_ok codec j j' :
  codec_ok codec → joint_ok codec j → joint_step codec j j' → joint_ok codec j'.
Proof.
  intros Hc Hok Hstep. unfold joint_ok in *. destruct Hstep; simpl in *; try done.
  - destruct (loop_body_ok codec i w input) as (a & i1 & w1 & Hb & Hok1 & _); [done..|].
    rewrite Hb in *. simplify_eq. destruct alive; [done|].
    destruct (s_dead _ _ _ _ Hok1 eq_refl) as (? & ? & ?). split_and!; [done..|by left].
  - destruct t as [| |r]; try done; destruct wk as [w|]; unfold publish_status;
      case_bool_decide; try done.
    1,3: destruct Hok as [? ? Ha _]; constructor; simpl; try done; intros _; split; [done|by apply Ha].
    all: destruct Hok as (? & ? & ?); simpl; split_and!; [done..|by right].
Qed.
End run_lemmas.

(** ** Properties *)

(** C3: no AES-GCM nonce is used twice by one worker of a voice session. Whatever the socket,
    the callers and the clock do, the transport sequences of the packets handed to
    the socket strictly increase from 1 and never wrap, so that the nonces are
    distinct; per stream, packets are numbered by the count of the packets
    already written, modulo 2^16; every packet is at most 1200 bytes and its peer
    reads back the numbers it was given. *)
Theorem voice_nonces_never_repeat `{CryptoLaws} (codec : PacketCodec _) (i : Inner)
    (first_write : option string) (now : Z) (inputs : list Input) :
  codec_ok codec → Forall input_ok inputs → fresh i →
  ∃ alive i' w started, run i codec first_write now inputs = (Some (alive, i', w), started) ∧
    NoDup ((λ a, nonce_for (at_sequence a)) <$> attempted w) ∧
    StronglySorted Z.lt (at_sequence <$> attempted w) ∧
    Forall (λ a, 1 ≤ at_sequence a < u64_max) (attempted w) ∧
    Forall (packet_ok codec) (attempted w) ∧
    ∀ l1 a l2, attempted w = l1 ++ a :: l2 → at_stream a ≠ 0 →
      at_channel a = written (at_stream a) l1 mod 2 ^ 16.
Proof.
  intros Hc Hin Hf. destruct (run_ok codec i first_write now inputs Hc Hin Hf)
    as (alive & i' & w & started & Hrun & [[Hs Hsort Hbelow _ Hnum Hp] _ _ _] & _).
  exists alive, i', w, started. split; [done|].
  assert (Forall (λ a, 1 ≤ at_sequence a < u64_max) (attempted w)) as Hr.
  { eapply Forall_impl; [exact Hbelow|]. simpl. lia. }
  split_and!; try done.
  rewrite (list_fmap_compose at_sequence nonce_for). apply (NoDup_fmap_2_strong nonce_for).
  - intros x y Hx Hy Heq. rewrite Forall_forall in Hr.
    apply list_elem_of_fmap in Hx as (a & -> & Ha), Hy as (b & -> & Hb).
    pose proof (Hr a Ha). pose proof (Hr b Hb). simpl in *.
    by apply nonce_for_inj; [split; lia..|].
  - by apply sorted_NoDup.
Qed.

Definition toy_inner : Inner :=
  mkInner (replicate 16 1) 1142 (allowed_table None) Joining true [] (Some ∅).

Lemma voice_nonces_never_repeat_witness :
  ∃ alive i' w started,
    run toy_inner (toy_codec true) None 0
      [Command 1 [7] (Written None) 1; Command 1 [8] (Written (Some "refused"%string)) 2] =
    (Some (alive, i', w), started) ∧
    (at_sequence <$> attempted w) = [1; 2; 3] ∧ alive = false ∧
    NoDup ((λ a, nonce_for (at_sequence a)) <$> attempted w).
Proof.
  destruct (voice_nonces_never_repeat (toy_codec true) toy_inner None 0
    [Command 1 [7] (Written None) 1; Command 1 [8] (Written (Some "refused"%string)) 2])
    as (alive & i' & w & started & Hrun & Hnd & _).
  - apply toy_codec_ok.
  - apply Forall_cons. split; [split; lia|]. apply Forall_singleton. split; lia.
  - split; [reflexivity|]. split; reflexivity.
  - exists alive, i', w, started. split; [exact Hrun|].
    assert (at_sequence <$> attempted w = [1; 2; 3] ∧ alive = false) as [Hseq Ha].
    { assert (match run toy_inner (toy_codec true) None 0
          [Command 1 [7] (Written None) 1; Command 1 [8] (Written (Some "refused"%string)) 2] with
        | (Some (a, _, w), _) => (at_sequence <$> attempted w, a)
        | _ => ([], true)
        end = ([1; 2; 3], false)) as Heq by (vm_compute; reflexivity).
      rewrite Hrun in Heq. injection Heq as -> ->. split; reflexivity. }
    split; [exact Hseq|]. split; [exact Ha|]. exact Hnd.
Defined.

(** C12: the worker of a session never panics, and it stops cleanly: while it lives
    the status is not terminal; when it ends the status is terminal, the media
    channel is closed and the session's key is no longer cached. Every frame it
    publishes is the projection of a media packet it received and authenticated,
    and no transport sequence is published twice. *)
Theorem voice_worker_lifecycle `{CryptoLaws} (codec : PacketCodec _) (i : Inner)
    (first_write : option string) (now : Z) (inputs : list Input) :
  codec_ok codec → Forall input_ok inputs → fresh i →
  ∃ alive i' w started, run i codec first_write now inputs = (Some (alive, i', w), started) ∧
    (started = Ok tt ↔ first_write = None) ∧
    is_terminal (status i') = negb alive ∧ media_tx i' = alive ∧
    (alive = false → ∀ keys, key_cache i' = Some keys → keys !! inner_session_id i' = None) ∧
    NoDup (transport_seq <$> published i') ∧
    Forall (λ f, ∃ d p, Datagram d ∈ inputs ∧ decode_server codec d = Some (Ok p) ∧ frame_of p f)
      (published i').
Proof.
  intros Hc Hin Hf. destruct (run_ok codec i first_write now inputs Hc Hin Hf)
    as (alive & i' & w & started & Hrun & [_ (s & _ & Hnd & _) Ha Hd] & Hst & Hpub).
  exists alive, i', w, started. split; [done|]. split; [done|].
  destruct alive.
  - destruct Ha as [-> ->]; [done|]. by split_and!.
  - destruct Hd as (-> & -> & ?); [done|]. by split_and!.
Qed.

Definition toy_revocation : byte_list :=
  match encode_revocation (toy_codec false) 3 Replaced with Ok d => d | Err _ => [] end.

Lemma toy_revocation_ok : bytes_ok toy_revocation.
Proof.
  apply Forall_forall. intros x Hx. vm_compute in Hx.
  repeat (apply elem_of_cons in Hx as [->|Hx]; [lia|]). by apply elem_of_nil in Hx.
Qed.

Lemma voice_worker_lifecycle_witness :
  ∃ i' w,
    (run toy_inner (toy_codec false) None 0
      [Datagram toy_plain_datagram; Datagram toy_plain_datagram; Datagram toy_revocation]).1 =
    Some (false, i', w) ∧
    is_terminal (status i') = true ∧ NoDup (transport_seq <$> published i').
Proof.
  destruct (voice_worker_lifecycle (toy_codec false) toy_inner None 0
    [Datagram toy_plain_datagram; Datagram toy_plain_datagram; Datagram toy_revocation])
    as (alive & i' & w & started & Hrun & _ & Ht & _ & _ & Hnd & _).
  - apply toy_codec_ok.
  - apply Forall_cons. split; [exact toy_plain_datagram_ok|].
    apply Forall_cons. split; [exact toy_plain_datagram_ok|].
    apply Forall_singleton. exact toy_revocation_ok.
  - split; [reflexivity|]. split; reflexivity.
  - assert (alive = false) as ->.
    { assert (match (run toy_inner (toy_codec false) None 0
        [Datagram toy_plain_datagram; Datagram toy_plain_datagram; Datagram toy_revocation]).1 with
        | Some (a, _, _) => a | None => true end = false) as Heq by (vm_compute; reflexivity).
      rewrite Hrun in Heq. exact Heq. }
    exists i', w. split; [rewrite Hrun; reflexivity|]. split; [exact Ht|exact Hnd].
Defined.

(** In every interleaving of a session's worker with any number of handles, the
    status is not terminal while the worker lives, and once it has ended the media
    channel is closed, the key is not cached, and the status is terminal or
    [Disconnecting]. *)
Theorem voice_session_interleavings `{CryptoLaws} (codec : PacketCodec _) (i : Inner) (w : Locals)
    (handles : list HandlePc) (j : Joint) :
  codec_ok codec → session_ok codec true i w →
  rtc (joint_step codec) (mkJoint i (Some w) None handles) j →
  match j_worker j with
  | Some _ => is_terminal (status (j_inner j)) = false ∧ media_tx (j_inner j) = true
  | None => media_tx (j_inner j) = false ∧
      (∀ keys, key_cache (j_inner j) = Some keys → keys !! inner_session_id (j_inner j) = None) ∧
      (is_terminal (status (j_inner j)) = true ∨ status (j_inner j) = Disconnecting)
  end.
Proof.
  intros Hc Hok Hrun.
  assert (joint_ok codec j) as Hj.
  { eapply (rtc_invariant (joint_step codec) (joint_ok codec)); [|exact Hrun|exact Hok].
    intros a b Ha Hab. by eapply joint_step_ok. }
  unfold joint_ok in Hj. destruct (j_worker j); [by apply (s_alive _ _ _ _ Hj)|done].
Qed.

Definition toy_active : Inner := publish_status toy_inner Active.

Lemma toy_active_ok : session_ok (toy_codec false) true toy_active (initial_locals 0).
Proof. by apply start_session_ok; [|apply initial_locals_ok|]. Qed.

Lemma voice_session_interleavings_witness :
  media_tx (finish toy_active Disconnected) = false.
Proof.
  refine (proj1 (voice_session_interleavings (toy_codec false) toy_active (initial_locals 0) []
    (mkJoint (finish toy_active Disconnected) None None [])
    (toy_codec_ok false) toy_active_ok _)).
  apply rtc_once.
  exact (joint_worker (toy_codec false) toy_active (initial_locals 0) None [] ReceiveError false
    (finish toy_active Disconnected) (initial_locals 0) I I eq_refl).
Defined.

(** [close] races with the worker. From every running session a schedule leads
    to a state where the worker has ended, [close] has returned [Closed] and the
    status is [Disconnecting]; the terminal status was overwritten, and in no later
    state is it terminal, so a caller of [wait_until_stopped] never returns. *)
Theorem close_race_strands_status `{CryptoLaws} (codec : PacketCodec _) (i : Inner) (w : Locals)
    (waiters : list HandlePc) :
  session_ok codec true i w →
  ∃ j, rtc (joint_step codec) (mkJoint i (Some w) None (HandleStart Close :: waiters)) j ∧
    j_worker j = None ∧ head (j_handles j) = Some (HandleReturned (Err Closed)) ∧
    ∀ j', rtc (joint_step codec) j j' →
      status (j_inner j') = Disconnecting ∧ j_worker j' = None.
Proof.
  intros Hok. destruct (s_alive _ _ _ _ Hok eq_refl) as [Hnt _].
  set (dead := publish_status (finish i Disconnected) Disconnecting).
  exists (mkJoint dead None None (HandleReturned (Err Closed) :: waiters)).
  assert (status dead = Disconnecting) as Hdead.
  { unfold dead, publish_status. by case_bool_decide. }
  split; [|split; [done|split; [done|]]].
  - eapply rtc_l; [by apply (joint_check codec i (Some w) None _ 0 Close)|]. simpl.
    eapply rtc_l; [by apply (joint_worker codec i w None _ ReceiveError false
      (finish i Disconnected) w)|]. simpl.
    eapply rtc_l; [by apply (joint_publish codec _ None None _ 0 Close)|]. simpl.
    eapply rtc_l; [by apply (joint_send_stop_closed codec _ None _ 0 Close)|]. apply rtc_refl.
  - intros j' Hrun.
    eapply (rtc_invariant (joint_step codec)
      (λ j, status (j_inner j) = Disconnecting ∧ j_worker j = None)); [|exact Hrun|done].
    intros a b [Hs Hw] Hstep. destruct Hstep; simpl in *; try done.
    destruct t; try done; unfold publish_status; by case_bool_decide.
Qed.

Lemma close_race_strands_status_witness :
  ∃ j, j_worker j = None ∧
    rtc (joint_step (toy_codec false))
      (mkJoint toy_active (Some (initial_locals 0)) None [HandleStart Close; HandleWaiting]) j.
Proof.
  destruct (close_race_strands_status (toy_codec false) toy_active (initial_locals 0) [HandleWaiting])
    as (j & Hrun & Hw & _).
  - exact toy_active_ok.
  - exists j. split; [exact Hw|exact Hrun].
Defined.

(** The outcome of one media command: an unregistered stream or an oversized
    payload changes nothing that reaches the wire and keeps the worker alive; an
    exhausted sequence or a failed write ends it with [Disconnected], the result
    still being reported; only a completed write advances the stream's counter. *)
Theorem handle_command_outcomes `{CryptoLaws} (codec : PacketCodec _) (i : Inner) (w : Locals)
    (st : Z) (pl : byte_list) (io : option string) (now : Z) :
  codec_ok codec → 0 ≤ st < 256 → session_ok codec true i w →
  ∃ alive i' w' result,
    handle_command i codec w st pl (Written io) now = (alive, i', w', Some result) ∧
    match result with
    | Ok _ => alive = true ∧ i' = i ∧ io = None ∧
        ∃ a, attempted w' = attempted w ++ [a] ∧ at_written a = true ∧
          at_sequence a = transport_sequence w ∧ at_stream a = st
    | Err (Packet e) => alive = true ∧ i' = i ∧ attempted w' = attempted w ∧
        transport_sequence w' = transport_sequence w
    | Err (Transport e) => alive = false ∧ status i' = Disconnected ∧ io = Some e
    | Err SequenceExhausted => alive = false ∧ status i' = Disconnected ∧
        transport_sequence w = u64_max ∧ attempted w' = attempted w
    | Err _ => False
    end.
Proof.
  intros Hc Hst Hok. simpl. destruct (send_media codec st pl io now w) as [r w'] eqn:Hs.
  apply send_media_ok in Hs as (_ & _ & Hr); [|done|done|by apply Hok].
  destruct (finish_spec i Disconnected) as [Hd _].
  destruct r as [[]|[]]; simpl; try done; do 4 eexists; (split; [reflexivity|]); naive_solver.
Qed.

Lemma handle_command_outcomes_witness :
  ∃ alive i' w' result,
    handle_command toy_active (toy_codec false) (initial_locals 0) 1 [7] (Written None) 3 =
      (alive, i', w', Some result) ∧ result = Ok tt ∧ alive = true.
Proof.
  destruct (handle_command_outcomes (toy_codec false) toy_active (initial_locals 0) 1 [7] None 3)
    as (alive & i' & w' & result & Hrun & Hres).
  - apply toy_codec_ok.
  - lia.
  - exact toy_active_ok.
  - exists alive, i', w', result. split; [exact Hrun|].
    vm_compute in Hrun. injection Hrun as <- _ _ <-. split; reflexivity.
Defined.
