(* ===== verification/VoiceStream.v ===== *)
(** What host and server are given of each other's media
    (crates/zephyrvox-voice/src: codec.rs, decode.rs, replay.rs, worker.rs together). The
    network reorders, repeats, loses and invents datagrams; the worker publishes what the
    abstract replay window lets through. What it writes is what it confirms to the senders,
    in order and numbered. *)

From Stdlib Require Import Sorted.
From S2P Require Import Prelude Text Types Wire VoiceTypes VoiceConfig VoiceCrypto VoiceCodec Replay VoiceWorker.

(** A media packet as the server numbers it. *)
Record ServerPacket := mkServerPacket {
  sp_sequence : Z;
  sp_channel : Z;
  sp_stream : Z;
  sp_speaker : Z;
  sp_payload : byte_list;
}.

Definition frame_for (p : ServerPacket) : InboundMedia :=
  mkInboundMedia (sp_speaker p) (sp_stream p) (sp_channel p) (sp_sequence p) (sp_payload p).

(** What a datagram is: a packet of the server, the server's revocation, or something
    that does not authenticate. *)
Inductive Arrival :=
| ArrivedMedia (p : ServerPacket)
| ArrivedRevocation (sequence : Z) (reason : RevocationReason)
| ArrivedForgery.

Definition packet_range (p : ServerPacket) : Prop :=
  is_u64 (sp_sequence p) ∧ is_u16 (sp_channel p) ∧ Snowflake.ok (sp_speaker p).

Definition arrives `{L : CryptoLib} (codec : PacketCodec L) (a : Arrival) (d : byte_list) : Prop :=
  match a with
  | ArrivedMedia p => packet_range p ∧
      encode_server_media codec (sp_sequence p) (sp_channel p) (sp_stream p) (sp_speaker p) (sp_payload p) = Ok d
  | ArrivedRevocation sequence reason => is_u64 sequence ∧ encode_revocation codec sequence reason = Ok d
  | ArrivedForgery => ∃ e, decode_server codec d = Some (Err e)
  end.

(** The specification: the frames that the window by sets lets through, up to the first
    revocation that it does. *)
Fixpoint delivered (s : Spec) (arrivals : list Arrival) : list InboundMedia :=
  match arrivals with
  | [] => []
  | ArrivedMedia p :: rest =>
      let '(fresh, s) := spec_accept s (sp_sequence p) in
      if fresh : bool then frame_for p :: delivered s rest else delivered s rest
  | ArrivedRevocation sequence _ :: rest =>
      let '(fresh, s) := spec_accept s sequence in
      if fresh : bool then [] else delivered s rest
  | ArrivedForgery :: rest => delivered s rest
  end.

Definition datagrams (inputs : list Input) : list byte_list :=
  omap (λ input, match input with Datagram d => Some d | _ => None end) inputs.

(** ** Lemmas *)

Section stream.
Context `{Laws : CryptoLaws}.
Implicit Types (codec : PacketCodec L) (i : Inner) (w : Locals) (p : ServerPacket).

Lemma decode_media codec p d :
  codec_ok codec → arrives codec (ArrivedMedia p) d →
  decode_server codec d = Some (Ok (mkDecodedPacket (codec_session_id codec) (sp_sequence p) (sp_stream p)
    (sp_channel p) 0 (Some (sp_speaker p)) (sp_payload p) None)).
Proof.
  intros Hok ((Hseq & Hch & Hsp) & He). unfold encode_server_media, decode_server in *.
  apply result_bind_ok in He as ([] & (Hst & Hal & Hle)%validate_media_ok & He).
  apply decode_encoded in He; [|by apply codec_sid|done|done|by apply snowflake_is_u64]. rewrite He. unfold classify.
  destruct (Z.eqb_spec (sp_stream p) 0); [done|]. rewrite Hal. cbn. rewrite snowflake_new_total by done. cbn.
  destruct (Z.ltb_spec (codec_max_payload codec) (len (sp_payload p))); [lia|done].
Qed.

Lemma decode_revocation codec sequence reason d :
  codec_ok codec → arrives codec (ArrivedRevocation sequence reason) d →
  ∃ payload reason', decode_server codec d = Some (Ok (mkDecodedPacket (codec_session_id codec) sequence 0 0 0 None payload
    (Some (Revocation reason')))).
Proof.
  intros Hok (Hseq & He). unfold encode_revocation, decode_server in *.
  assert (is_u16 0 ∧ is_u64 0) as [H16 H64] by (vm_compute; repeat split; congruence).
  apply decode_encoded in He; [|by apply codec_sid|done|done|done]. rewrite He. by do 2 eexists.
Qed.

Lemma send_media_replay codec st payload io now w : replay (send_media codec st payload io now w).2 = replay w.
Proof.
  unfold send_media, se_bind, se_lift, se_modify, channel_entry, reserve_transport_sequence, socket_send.
  repeat (case_match; simplify_eq/=; try done).
Qed.

Lemma send_heartbeat_replay codec io now w : replay (send_heartbeat codec io now w).2 = replay w.
Proof.
  unfold send_heartbeat, se_bind, se_lift, se_modify, reserve_transport_sequence, socket_send.
  repeat (case_match; simplify_eq/=; try done).
Qed.

Lemma finish_published i s : published (finish i s) = published i.
Proof. by apply finish_spec. Qed.

(** An input that is no datagram publishes nothing and leaves the window. *)
Lemma other_input codec i w input alive i' w' :
  (∀ d, input ≠ Datagram d) → loop_body i codec w input = Some (alive, i', w') →
  published i' = published i ∧ (alive = true → i' = i ∧ replay w' = replay w).
Proof.
  intros Hne. destruct input as [ok stop| |t payload race now|d| |now race]; cbn -[send_media send_heartbeat]; [..|by destruct (Hne d)| |].
  - repeat case_match; intros; simplify_eq/=; rewrite ?finish_published; done.
  - intros; simplify_eq/=. by rewrite ?finish_published.
  - destruct race as [ok stop|ok stop|io]; cbn -[send_media send_heartbeat]; [intros; simplify_eq/=; by rewrite ?finish_published..|].
    pose proof (send_media_replay codec t payload io now w) as Hr. destruct (send_media codec t payload io now w) as [r w1].
    cbn in Hr. match goal with |- context [if ?b then _ else _] => destruct b end; intros; simplify_eq/=; by rewrite ?finish_published.
  - intros; simplify_eq/=. by rewrite ?finish_published.
  - case_match; [|by intros; simplify_eq/=]. destruct race as [ok stop|ok stop|io]; cbn -[send_media send_heartbeat]; [intros; simplify_eq/=; by rewrite ?finish_published..|].
    pose proof (send_heartbeat_replay codec io now w) as Hr. destruct (send_heartbeat codec io now w) as [[[]|e] w1]; cbn in Hr;
      intros; simplify_eq/=; by rewrite ?finish_published.
Qed.

(** One datagram against the specification; [stop]: the worker ends. *)
Lemma inbound_delivers codec i w s a d :
  codec_ok codec → arrives codec a d → window_rel (replay w) s → media_tx i = true →
  ∃ alive i' w' s' l, handle_inbound i codec w d = Some (alive, i', w') ∧ published i' = published i ++ l ∧
    (∀ rest, delivered s (a :: rest) = l ++ (if alive then delivered s' rest else [])) ∧
    (alive = true → window_rel (replay w') s' ∧ media_tx i' = true).
Proof.
  intros Hok Ha Hw Hm. unfold handle_inbound. destruct a as [p|sequence reason|].
  - rewrite (decode_media codec p d Hok Ha). cbn [pkt_transport_seq pkt_control pkt_speaker_id].
    destruct Ha as [(Hseq & _ & _) _]. destruct (accept_refines (replay w) s (sp_sequence p) Hw Hseq) as (window & -> & Hw').
    cbn [delivered]. destruct (spec_accept s (sp_sequence p)) as [fresh s']. cbn [fst snd] in *.
    destruct fresh; cbn [negb]; rewrite ?Hm; do 3 eexists; exists s'.
    + exists [frame_for p]. by split_and!.
    + exists []. by split_and!; [|rewrite app_nil_r|..].
  - destruct (decode_revocation codec sequence reason d Hok Ha) as (payload & reason' & ->).
    cbn [pkt_transport_seq pkt_control pkt_speaker_id].
    destruct Ha as [Hseq _]. destruct (accept_refines (replay w) s sequence Hw Hseq) as (window & -> & Hw').
    cbn [delivered]. destruct (spec_accept s sequence) as [fresh s']. cbn [fst snd] in *.
    destruct fresh; cbn [negb]; do 3 eexists; exists s', []; rewrite app_nil_r.
    + by split_and!; [|apply finish_published|..].
    + by split_and!.
  - destruct Ha as [e ->]. do 3 eexists. exists s, []. rewrite app_nil_r. by split_and!.
Qed.

(** The whole loop: it delivers what arrived before its end. *)
Lemma loop_delivers codec inputs : ∀ arrivals i w s alive i' w',
  codec_ok codec → Forall2 (arrives codec) arrivals (datagrams inputs) → window_rel (replay w) s → media_tx i = true →
  run_loop i codec w inputs = Some (alive, i', w') →
  ∃ before, before `prefix_of` arrivals ∧ published i' = published i ++ delivered s before ∧
    (alive = true → before = arrivals).
Proof.
  induction inputs as [|input inputs IH]; intros arrivals i w s alive i' w' Hok Harr Hw Hm Hrun.
  { apply Forall2_nil_inv_r in Harr as ->. injection Hrun as <- <- <-. exists []. cbn. by rewrite app_nil_r. }
  cbn [run_loop] in Hrun. destruct (loop_body i codec w input) as [[[a i1] w1]|] eqn:Hb; [|done]. cbn in Hrun.
  assert ((∃ d, input = Datagram d) ∨ ∀ d, input ≠ Datagram d) as [[d ->]|Hne] by (destruct input; eauto).
  - cbn in Harr. apply Forall2_cons_inv_r in Harr as (arrival & arrivals' & Ha & Harr & ->).
    destruct (inbound_delivers codec i w s arrival d Hok Ha Hw Hm) as (b & i2 & w2 & s' & l & Hin & Hp & Hd & Hlive).
    cbn in Hb. rewrite Hin in Hb. injection Hb as <- <- <-. destruct b.
    + destruct (Hlive eq_refl) as [Hw' Hm']. destruct (IH _ _ _ _ _ _ _ Hok Harr Hw' Hm' Hrun) as (before & Hpre & Hpub & Hall).
      exists (arrival :: before). split; [by apply prefix_cons|]. rewrite Hd, Hpub, Hp, <- app_assoc. split; [done|].
      intros Hal. by rewrite Hall.
    + injection Hrun as <- <- <-. exists [arrival]. split; [by apply prefix_cons, prefix_nil|]. rewrite Hd, Hp, app_nil_r.
      by split.
  - destruct (other_input codec i w input a i1 w1) as [Hp Hlive]; [done..|].
    assert (Forall2 (arrives codec) arrivals (datagrams inputs)) as Harr'.
    { destruct input as [| | |d| |]; try exact Harr. by destruct (Hne d). }
    destruct a.
    + destruct (Hlive eq_refl) as [-> Hr]. rewrite <- Hr in Hw. by apply (IH _ _ w1 s alive i' w').
    + injection Hrun as <- <- <-. exists []. split; [apply prefix_nil|]. cbn. by rewrite app_nil_r.
Qed.

(** In order, and with nothing else: everything is delivered. *)
Lemma delivered_sorted packets : ∀ s,
  StronglySorted Z.lt (spec_high s :: (sp_sequence <$> packets)) → 0 ≤ spec_high s →
  (∀ x, x ∈ spec_seen s → x ≤ spec_high s) →
  delivered s (ArrivedMedia <$> packets) = frame_for <$> packets.
Proof.
  induction packets as [|p packets IH]; intros s Hs Hz Hseen; [done|]. cbn [fmap list_fmap delivered] in *.
  apply StronglySorted_inv in Hs as [Hs Hlt]. apply Forall_cons in Hlt as [Hlt _].
  unfold spec_accept. assert (spec_accepts s (sp_sequence p) = true) as ->.
  { unfold spec_accepts. apply bool_decide_eq_true_2. split; [lia|]. split; [|lia]. intros Hin%Hseen. lia. }
  cbn. f_equal. apply IH; cbn [spec_high spec_seen].
  - by rewrite Z.max_r by lia.
  - lia.
  - intros x Hx. apply elem_of_union in Hx as [->%elem_of_singleton|Hx]; [lia|]. apply Hseen in Hx. lia.
Qed.
End stream.

(** ** What the server is given *)

(** The media packet that the server reads off an attempt, if it was written: stream,
    channel number and payload. *)
Definition heard_packet `{L : CryptoLib} (codec : PacketCodec L) (a : Attempt) : option (Z * Z * byte_list) :=
  if at_written a then
    match decode_client codec (at_packet a) with
    | Some (Ok p) =>
        if StreamTypeId.is_heartbeat (pkt_stream_type p) then None
        else Some (pkt_stream_type p, pkt_channel_seq p, pkt_payload p)
    | _ => None
    end
  else None.

Definition heard `{L : CryptoLib} (codec : PacketCodec L) (attempts : list Attempt) : list (Z * Z * byte_list) :=
  omap (heard_packet codec) attempts.

(** The sends whose callers are told that they succeeded. *)
Definition confirmed_by `{L : CryptoLib} (i : Inner) (codec : PacketCodec L) (w : Locals) (input : Input)
    : list (Z * byte_list) :=
  match input with
  | Command stream payload race now =>
      match (handle_command i codec w stream payload race now).2 with
      | Some (Ok _) => [(stream, payload)]
      | _ => []
      end
  | _ => []
  end.

Fixpoint confirmed `{L : CryptoLib} (i : Inner) (codec : PacketCodec L) (w : Locals) (inputs : list Input)
    : list (Z * byte_list) :=
  match inputs with
  | [] => []
  | input :: rest =>
      confirmed_by i codec w input ++
      match loop_body i codec w input with
      | Some (true, i, w) => confirmed i codec w rest
      | _ => []
      end
  end.

(** The specification: frames in order, each stream numbered from 0 modulo 2^16; [before]
    are the streams of earlier frames. *)
Fixpoint numbered (before : list Z) (frames : list (Z * byte_list)) : list (Z * Z * byte_list) :=
  match frames with
  | [] => []
  | (stream, payload) :: rest =>
      (stream, len (filter (λ t, t = stream) before) mod 2 ^ 16, payload) :: numbered (before ++ [stream]) rest
  end.

Section sending.
Context `{Laws : CryptoLaws}.
Implicit Types (codec : PacketCodec L) (i : Inner) (w : Locals).

Lemma heard_app codec l k : heard codec (l ++ k) = heard codec l ++ heard codec k.
Proof. apply omap_app. Qed.

Lemma heard_unwritten codec l a : at_written a = false → heard codec (l ++ [a]) = heard codec l.
Proof. intros Ha. rewrite heard_app. cbn. unfold heard_packet. by rewrite Ha, app_nil_r. Qed.

(** What was written on a stream is what was heard on it. *)
Lemma written_heard codec t l :
  t ≠ 0 → Forall (packet_ok codec) l →
  written t l = len (filter (λ u, u = t) (heard codec l).*1.*1).
Proof.
  intros Ht. induction 1 as [|a l (_ & p & Hd & _ & Hst & _) Hl IH]; [done|].
  change (a :: l) with ([a] ++ l) at 1. rewrite written_app, written_one, IH. cbn [heard omap list_omap]. unfold heard_packet at 1. rewrite Hd.
  unfold StreamTypeId.is_heartbeat, StreamTypeId.get, HEARTBEAT_STREAM_TYPE. rewrite Hst.
  destruct (at_written a); cbn [andb]; [|by rewrite bool_decide_eq_false_2 by naive_solver].
  destruct (Z.eqb_spec (at_stream a) 0) as [H0|H0].
  - by rewrite bool_decide_eq_false_2 by naive_solver.
  - cbn [fmap list_fmap fst]. rewrite filter_cons. case_bool_decide; case_decide; try naive_solver.
    rewrite len_cons. unfold heard. lia.
Qed.

(** A send that succeeds is heard, with the next number of its stream; one that fails is not. *)
Lemma send_media_heard codec st payload io now w r w' :
  codec_ok codec → 0 ≤ st < 256 → locals_ok codec w →
  send_media codec st payload io now w = (r, w') →
  heard codec (attempted w') = heard codec (attempted w) ++
    match r with Ok _ => [(st, written st (attempted w) mod 2 ^ 16, payload)] | Err _ => [] end.
Proof.
  intros Hcodec Hst Hw H. unfold send_media, se_bind, se_lift, se_modify in H.
  destruct (validate_media codec st (len payload)) as [[]|e] eqn:Hv; cbn [map_err] in H; [|simplify_eq; by rewrite app_nil_r].
  pose proof Hv as (Hst0 & Hal & Hle)%validate_media_ok. unfold StreamTypeId.get in H.
  destruct (channel_entry_spec codec w st Hw Hst0) as (w1 & Hce & Hw1 & Ha1 & Hs1 & Hr1).
  rewrite Hce, (reserve_spec codec w1 Hw1) in H.
  destruct (Z.eqb_spec (transport_sequence w1) u64_max) as [Hmax|Hmax]; [simplify_eq; by rewrite Ha1, app_nil_r|].
  set (ch := written st (attempted w) mod 2 ^ 16) in *.
  destruct (encode_media codec (transport_sequence w1) ch st payload) as [d|e] eqn:He; cbn [map_err socket_send] in H;
    [|simplify_eq; cbn; by rewrite Ha1, app_nil_r].
  destruct io as [e|]; cbn in H; simplify_eq; cbn [attempted set_channel set_last_outbound].
  - rewrite heard_unwritten by done. by rewrite Ha1, app_nil_r.
  - rewrite heard_app, Ha1. f_equal. cbn. unfold heard_packet. cbn [at_written at_packet].
    unfold encode_media in He. rewrite Hv in He. cbn in He. unfold decode_client.
    apply decode_encoded in He; [|by apply codec_sid|pose proof (l_seq _ _ Hw1); split; lia| |by vm_compute].
    + rewrite He. unfold classify. destruct (Z.eqb_spec st 0); [done|]. rewrite Hal. cbn.
      destruct (Z.ltb_spec (codec_max_payload codec) (len payload)); [lia|]. cbn.
      unfold StreamTypeId.is_heartbeat, StreamTypeId.get, HEARTBEAT_STREAM_TYPE. by destruct (Z.eqb_spec st 0).
    + unfold ch, is_u16, u16_max. pose proof (Z.mod_pos_bound (written st (attempted w)) (2 ^ 16)). lia.
Qed.

Lemma send_heartbeat_heard codec io now w r w' :
  codec_ok codec → locals_ok codec w → send_heartbeat codec io now w = (r, w') →
  heard codec (attempted w') = heard codec (attempted w).
Proof.
  intros Hcodec Hw H. pose proof (send_heartbeat_ok codec io now w r w' Hcodec Hw H) as (Hw' & _).
  unfold send_heartbeat, se_bind, se_lift, se_modify in H. rewrite (reserve_spec codec w Hw) in H.
  destruct (Z.eqb_spec (transport_sequence w) u64_max); [by simplify_eq|].
  destruct (encode_heartbeat codec (transport_sequence w)) as [d|e]; cbn [map_err socket_send] in H; [|by simplify_eq].
  assert (∃ a, attempted w' = attempted w ++ [a] ∧ at_stream a = 0) as (a & Ha & Hst) by (destruct io; cbn in H; simplify_eq; by eexists).
  pose proof (l_packets _ _ Hw') as Hp. rewrite Ha in Hp. apply Forall_app in Hp as [_ (_ & p & Hd & _ & Hps & _)%Forall_singleton].
  rewrite Ha, heard_app. cbn. unfold heard_packet. rewrite Hd, Hps, Hst. by destruct (at_written a); rewrite app_nil_r.
Qed.

(** One input: what is confirmed is heard. *)
Lemma input_heard codec i w input alive i' w' :
  codec_ok codec → input_ok input → locals_ok codec w → loop_body i codec w input = Some (alive, i', w') →
  heard codec (attempted w') = heard codec (attempted w) ++
    ((λ '(st, payload), (st, written st (attempted w) mod 2 ^ 16, payload)) <$> confirmed_by i codec w input).
Proof.
  intros Hc Hin Hw. destruct input as [ok stop| |st payload race now|d| |now race]; cbn -[send_media send_heartbeat handle_inbound].
  - repeat case_match; intros; simplify_eq/=; by rewrite app_nil_r.
  - intros; simplify_eq/=. by rewrite app_nil_r.
  - destruct race as [ok stop|ok stop|io]; cbn -[send_media send_heartbeat]; [intros; simplify_eq/=; by rewrite app_nil_r|..].
    + destruct (send_media codec st payload abandoned now w) as [r w1] eqn:Hs. intros; simplify_eq/=.
      rewrite (send_media_heard codec st payload abandoned now w r w') by done.
      assert (∀ u, r ≠ Ok u) as Hr.
      { apply send_media_ok in Hs as (_ & _ & Hr); [|done..]. destruct r; naive_solver. }
      by destruct r as [u|e]; [by destruct (Hr u)|].
    + destruct (send_media codec st payload io now w) as [r w1] eqn:Hs.
      match goal with |- context [if ?b then _ else _] => destruct b end; intros; simplify_eq/=;
        rewrite (send_media_heard codec st payload io now w r w') by done; by destruct r.
  - unfold handle_inbound. intros Hb. rewrite app_nil_r. repeat (case_match; simplify_eq/=; try done).
  - intros; simplify_eq/=. by rewrite app_nil_r.
  - case_match; [|by intros; simplify_eq/=; rewrite app_nil_r].
    destruct race as [ok stop|ok stop|io]; cbn -[send_media send_heartbeat]; [intros; simplify_eq/=; by rewrite app_nil_r|..].
    + destruct (send_heartbeat codec abandoned now w) as [r w1] eqn:Hs. intros; simplify_eq/=.
      by rewrite app_nil_r, (send_heartbeat_heard codec abandoned now w r w').
    + destruct (send_heartbeat codec io now w) as [r w1] eqn:Hs.
      destruct r; intros; simplify_eq/=; rewrite app_nil_r; by eapply send_heartbeat_heard.
Qed.

(** Only media that the codec validates is confirmed. *)
Lemma confirmed_by_valid codec i w input st payload :
  (st, payload) ∈ confirmed_by i codec w input → validate_media codec st (len payload) = Ok tt.
Proof.
  destruct input as [| |st' payload' race now| | |]; cbn -[send_media]; try by intros ?%elem_of_nil.
  destruct race as [ok stop|ok stop|io]; cbn -[send_media]; try by intros ?%elem_of_nil.
  destruct (send_media codec st' payload' io now w) as [r w1] eqn:Hs.
  match goal with |- context [if ?b then _ else _] => destruct b end; cbn; destruct r as [u|e]; try by intros ?%elem_of_nil.
  all: intros [= -> ->]%list_elem_of_singleton; unfold send_media, se_bind, se_lift in Hs.
  all: by destruct (validate_media codec st' (len payload')) as [[]|] eqn:Hv.
Qed.

Lemma confirmed_valid codec inputs : ∀ i w,
  Forall (λ '(st, payload), validate_media codec st (len payload) = Ok tt) (confirmed i codec w inputs).
Proof.
  induction inputs as [|input inputs IH]; intros i w; cbn [confirmed]; [constructor|].
  apply Forall_app. split.
  - apply Forall_forall. intros [st payload]. apply confirmed_by_valid.
  - destruct (loop_body i codec w input) as [[[[] i1] w1]|]; [apply IH|constructor|constructor].
Qed.

Lemma confirmed_by_one codec i w input :
  confirmed_by i codec w input = [] ∨ ∃ st payload, confirmed_by i codec w input = [(st, payload)].
Proof. unfold confirmed_by. repeat case_match; eauto. Qed.

Lemma loop_heard codec inputs : ∀ i w alive i' w',
  codec_ok codec → Forall input_ok inputs → session_ok codec true i w →
  run_loop i codec w inputs = Some (alive, i', w') →
  heard codec (attempted w') = heard codec (attempted w) ++
    numbered (heard codec (attempted w)).*1.*1 (confirmed i codec w inputs).
Proof.
  induction inputs as [|input inputs IH]; intros i w alive i' w' Hc Hin Hok Hrun.
  { injection Hrun as <- <- <-. cbn. by rewrite app_nil_r. }
  apply Forall_cons in Hin as [Hi Hin]. pose proof (s_locals _ _ _ _ Hok) as Hw. cbn [run_loop confirmed] in *.
  destruct (loop_body_ok codec i w input Hc Hi Hok) as (a & i1 & w1 & Hb & Hok1 & _). rewrite Hb in *. cbn in Hrun.
  pose proof (input_heard codec i w input a i1 w1 Hc Hi Hw Hb) as Hstep.
  assert (heard codec (attempted w') = heard codec (attempted w1) ++
    numbered (heard codec (attempted w1)).*1.*1 (if a then confirmed i1 codec w1 inputs else [])) as ->.
  { destruct a; [by eapply IH|]. injection Hrun as <- <- <-. cbn. by rewrite app_nil_r. }
  rewrite Hstep.
  destruct (confirmed_by_one codec i w input) as [Hn|(st & payload & Hone)].
  - rewrite Hn. cbn. rewrite app_nil_r. by destruct a.
  - pose proof (confirmed_by_valid codec i w input st payload) as Hst.
    rewrite Hone in *. cbn. rewrite <- app_assoc, !fmap_app. cbn.
    rewrite <- (written_heard codec st (attempted w)); [by destruct a| |apply (l_packets _ _ Hw)].
    by apply (validate_media_ok codec st (len payload)), Hst, list_elem_of_singleton.
Qed.
End sending.

(** ** Whole runs *)

Lemma stream_delivered `{Laws : CryptoLaws} (codec : PacketCodec L) (i : Inner) (now : Z)
    (inputs : list Input) (arrivals : list Arrival) :
  codec_ok codec → fresh i → Forall input_ok inputs → Forall2 (arrives codec) arrivals (datagrams inputs) →
  ∃ alive i' w, run i codec None now inputs = (Some (alive, i', w), Ok tt) ∧
    (∃ before, before `prefix_of` arrivals ∧ published i' = delivered spec_init before ∧
       (alive = true → before = arrivals)) ∧
    ∀ packets, arrivals = ArrivedMedia <$> packets → StronglySorted Z.lt (0 :: (sp_sequence <$> packets)) →
      alive = true → published i' = frame_for <$> packets.
Proof.
  intros Hok Hfresh Hin Harr. destruct (run_ok codec i None now inputs Hok Hin Hfresh)
    as (alive & i' & w & started & Hrun & _ & Hst & _).
  assert (started = Ok tt) as -> by by apply Hst. exists alive, i', w. split; [done|].
  destruct Hfresh as (Hs & Hm & Hp).
  assert (∃ before, before `prefix_of` arrivals ∧ published i' = delivered spec_init before ∧
    (alive = true → before = arrivals)) as Hdel.
  { unfold run in Hrun. pose proof (send_heartbeat_replay codec None now (initial_locals now)) as Hr.
    destruct (send_heartbeat codec None now (initial_locals now)) as [[[]|e] w1]; [|done]. cbn in Hr.
    injection Hrun as Hrun. eapply (loop_delivers codec inputs arrivals _ w1 spec_init) in Hrun; [|done..| |].
    - destruct Hrun as (before & Hpre & Hpub & Hall). exists before. split; [done|]. split; [|done].
      rewrite Hpub. unfold publish_status. by case_bool_decide; cbn; rewrite Hp.
    - rewrite Hr. apply window_rel_default.
    - unfold publish_status. by case_bool_decide. }
  split; [done|]. intros packets -> Hsorted Hal. destruct Hdel as (before & _ & -> & Hall). rewrite Hall by done.
  apply delivered_sorted; [done|done|]. cbn. set_solver.
Qed.

Lemma confirmed_heard `{Laws : CryptoLaws} (codec : PacketCodec L) (i : Inner) (now : Z) (inputs : list Input) :
  codec_ok codec → fresh i → Forall input_ok inputs →
  ∃ alive i' w, run i codec None now inputs = (Some (alive, i', w), Ok tt) ∧
    heard codec (attempted w) =
      numbered [] (confirmed (publish_status i Active) codec (send_heartbeat codec None now (initial_locals now)).2 inputs).
Proof.
  intros Hc Hfresh Hin. destruct (run_ok codec i None now inputs Hc Hin Hfresh) as (alive & i' & w & started & Hrun & _ & Hst & _).
  assert (started = Ok tt) as -> by by apply Hst. exists alive, i', w. split; [done|].
  unfold run in Hrun. destruct (send_heartbeat codec None now (initial_locals now)) as [r w1] eqn:Hs.
  pose proof (send_heartbeat_ok codec None now _ r w1 Hc (initial_locals_ok codec now) Hs) as (Hw1 & Hr1 & _).
  pose proof (send_heartbeat_heard codec None now _ r w1 Hc (initial_locals_ok codec now) Hs) as Hh.
  destruct r as [[]|e]; [|done]. injection Hrun as Hrun. cbn [snd].
  rewrite (loop_heard codec inputs (publish_status i Active) w1 alive i' w), Hh; try done.
  by apply start_session_ok.
Qed.

(** ** Properties *)

(** C13: the host hears what the server sent. The network may reorder, repeat and lose the
    server's datagrams and invent others, and the worker may do anything else in between:
    what it publishes is what the window by sets lets through of the packets that arrived
    before it ended, as the server numbered and wrote them. Packets that arrive in the
    order of their numbers, whatever is missing between them, are all published. *)
Theorem media_stream_refines_window `{Laws : CryptoLaws} (codec : PacketCodec L) (i : Inner) (now : Z)
    (inputs : list Input) (arrivals : list Arrival) :
  codec_ok codec → fresh i → Forall input_ok inputs → Forall2 (arrives codec) arrivals (datagrams inputs) →
  ∃ alive i' w, run i codec None now inputs = (Some (alive, i', w), Ok tt) ∧
    (∃ before, before `prefix_of` arrivals ∧ published i' = delivered spec_init before ∧
       (alive = true → before = arrivals)) ∧
    ∀ packets, arrivals = ArrivedMedia <$> packets → StronglySorted Z.lt (0 :: (sp_sequence <$> packets)) →
      alive = true → published i' = frame_for <$> packets.
Proof. apply stream_delivered. Qed.

(** Packets 2, 1, 2 again, a forgery, and packets 200 and 5. *)
Definition toy_packet (sequence : Z) : ServerPacket := mkServerPacket sequence 0 1 9 [sequence].
Definition toy_media (sequence : Z) : byte_list :=
  match encode_server_media (toy_codec true) sequence 0 1 9 [sequence] with Ok d => d | Err _ => [] end.
Definition toy_arrivals : list Arrival :=
  [ArrivedMedia (toy_packet 2); ArrivedMedia (toy_packet 1); ArrivedMedia (toy_packet 2); ArrivedForgery;
   ArrivedMedia (toy_packet 200); ArrivedMedia (toy_packet 5)].
Definition toy_inputs : list Input :=
  [Datagram (toy_media 2); Datagram (toy_media 1); Command 1 [7] (Written None) 3; Datagram (toy_media 2);
   Datagram [1; 2; 3]; Datagram (toy_media 200); Tick 4 (Written None); Datagram (toy_media 5)].

Lemma media_stream_refines_window_witness :
  ∃ alive i' w, run toy_inner (toy_codec true) None 0 toy_inputs = (Some (alive, i', w), Ok tt) ∧
    transport_seq <$> published i' = [2; 1; 200].
Proof.
  destruct (media_stream_refines_window (toy_codec true) toy_inner 0 toy_inputs toy_arrivals)
    as (alive & i' & w & Hrun & (before & _ & Hpub & Hall) & _).
  - apply toy_codec_ok.
  - split; [reflexivity|]. split; reflexivity.
  - repeat constructor; vm_compute; try (split; discriminate); repeat constructor; discriminate.
  - repeat constructor; try (vm_compute; repeat split; discriminate); try (vm_compute; reflexivity).
    vm_compute. eexists. reflexivity.
  - exists alive, i', w. split; [exact Hrun|].
    assert (alive = true) as ->.
    { assert (match run toy_inner (toy_codec true) None 0 toy_inputs with (Some (a, _, _), _) => a | _ => false end = true)
        as Heq by (vm_compute; reflexivity). by rewrite Hrun in Heq. }
    rewrite Hpub, Hall by reflexivity. vm_compute. reflexivity.
Defined.

(** C15: a confirmed send is a sent frame. Whatever the socket, the host, the clock and the
    network do, the media that the server can read off the datagrams of a worker is
    exactly the frames whose senders were told that they succeeded: each once, in the
    order of the sends, with its payload, and numbered on its stream from zero modulo
    2^16. A send that failed, or got no answer, never reached the network whole. *)
Theorem confirmed_sends_are_sent `{Laws : CryptoLaws} (codec : PacketCodec L) (i : Inner) (now : Z) (inputs : list Input) :
  codec_ok codec → fresh i → Forall input_ok inputs →
  ∃ alive i' w, run i codec None now inputs = (Some (alive, i', w), Ok tt) ∧
    heard codec (attempted w) =
      numbered [] (confirmed (publish_status i Active) codec (send_heartbeat codec None now (initial_locals now)).2 inputs).
Proof. apply confirmed_heard. Qed.

(** Two streams, a frame that is refused, and a write that fails before a last frame. *)
Definition toy_sends : list Input :=
  [Command 1 [7] (Written None) 3; Command 0 [1] (Written None) 4; Command 2 [9] (Written None) 5;
   Command 1 [8] (Written None) 6; Command 1 [6] (Written (Some "unreachable"%string)) 7; Command 1 [5] (Written None) 8].

Lemma confirmed_sends_are_sent_witness :
  ∃ alive i' w, run toy_inner (toy_codec true) None 0 toy_sends = (Some (alive, i', w), Ok tt) ∧
    heard (toy_codec true) (attempted w) = [(1, 0, [7]); (2, 0, [9]); (1, 1, [8])].
Proof.
  destruct (confirmed_sends_are_sent (toy_codec true) toy_inner 0 toy_sends) as (alive & i' & w & Hrun & Hheard).
  - apply toy_codec_ok.
  - split; [reflexivity|]. split; reflexivity.
  - repeat constructor; vm_compute; try discriminate; reflexivity.
  - exists alive, i', w. split; [exact Hrun|]. rewrite Hheard. vm_compute. reflexivity.
Defined.
