(* ===== verification/VoiceCall.v ===== *)
(** A call: two voice workers and a server that forwards between them
    (crates/zephyrvox-voice/src: worker.rs and codec.rs at both ends). The server reads the
    datagrams of the speaker and gives each media frame, under a number of its own, to the
    listener; the network may lose what it sends. *)

From Stdlib Require Import Sorted.
From S2P Require Import Prelude Text Types Wire VoiceTypes VoiceConfig VoiceCrypto VoiceCodec Replay VoiceWorker VoiceStream.

(** ** The server *)

(** The packets for the listener: frame by frame what was heard of the speaker, with the
    server's own transport numbers. *)
Definition forwarded (speaker : Z) (numbers : list Z) (frames : list (Z * Z * byte_list)) : list ServerPacket :=
  zip_with (λ number '(stream, channel, payload), mkServerPacket number channel stream speaker payload) numbers frames.

(** The ends of a call have negotiated the same media. *)
Record compatible `{L : CryptoLib} (speaking listening : PacketCodec L) : Prop := {
  same_streams : codec_allowed listening = codec_allowed speaking;
  same_limit : codec_max_payload listening = codec_max_payload speaking;
}.

(** Numbers that a server may use: increasing, and within their field. *)
Definition server_numbers (numbers : list Z) : Prop :=
  StronglySorted Z.lt (0 :: numbers) ∧ Forall is_u64 numbers.

(** ** Lemmas *)

Lemma numbered_media frames : ∀ before,
  (λ '(stream, _, payload), (stream, payload)) <$> numbered before frames = frames.
Proof. induction frames as [|[stream payload] frames IH]; intros before; cbn; [done|]. by rewrite IH. Qed.

Lemma numbered_in frames : ∀ before stream channel payload,
  (stream, channel, payload) ∈ numbered before frames → (stream, payload) ∈ frames ∧ is_u16 channel.
Proof.
  induction frames as [|[st pl] frames IH]; intros before stream channel payload; cbn; [by intros ?%elem_of_nil|].
  intros [[= -> -> ->]|Hin]%elem_of_cons.
  - split; [by left|]. unfold is_u16, u16_max. pose proof (Z.mod_pos_bound (len (filter (λ t, t = st) before)) (2 ^ 16)). lia.
  - apply IH in Hin as [? ?]. split; [by right|done].
Qed.

Lemma forwarded_in speaker numbers frames p :
  p ∈ forwarded speaker numbers frames →
  sp_sequence p ∈ numbers ∧ (sp_stream p, sp_channel p, sp_payload p) ∈ frames ∧ sp_speaker p = speaker.
Proof.
  unfold forwarded. intros (k & number & [[st ch] pl] & -> & Hn & Hf)%elem_of_lookup_zip_with. cbn.
  split_and!; [by eapply list_elem_of_lookup_2|by eapply list_elem_of_lookup_2|done].
Qed.

Lemma forwarded_sequences speaker numbers frames :
  length numbers = length frames → sp_sequence <$> forwarded speaker numbers frames = numbers.
Proof.
  revert frames. induction numbers as [|n numbers IH]; intros [|[[st ch] pl] frames]; try done.
  intros [= Hl]. cbn. f_equal. by apply IH.
Qed.

Lemma forwarded_media speaker numbers frames :
  length numbers = length frames →
  (λ p, (sp_stream p, sp_channel p, sp_payload p)) <$> forwarded speaker numbers frames = frames.
Proof.
  revert frames. induction numbers as [|n numbers IH]; intros [|[[st ch] pl] frames]; try done.
  intros [= Hl]. cbn. f_equal. by apply IH.
Qed.

Lemma sorted_sublist l k : l `sublist_of` k → StronglySorted Z.lt k → StronglySorted Z.lt l.
Proof.
  induction 1 as [|x l k Hlk IH|x l k Hlk IH]; [done| |]; intros [Hs Hx]%StronglySorted_inv.
  - constructor; [by apply IH|]. eapply Forall_forall. intros y Hy. rewrite Forall_forall in Hx. apply Hx.
    by eapply elem_of_sublist.
  - by apply IH.
Qed.

Section call.
Context `{Laws : CryptoLaws}.

(** The listener's codec can carry what the speaker's codec has validated. *)
Lemma forwarded_encodable (speaking listening : PacketCodec L) p :
  codec_ok listening → compatible speaking listening → packet_range p → sp_sequence p ≠ 0 →
  validate_media speaking (sp_stream p) (len (sp_payload p)) = Ok tt →
  ∃ d, arrives listening (ArrivedMedia p) d.
Proof.
  intros Hok [Hs Hl] Hp Hseq Hv.
  assert (validate_media listening (sp_stream p) (len (sp_payload p)) = Ok tt) as Hv'.
  { unfold validate_media in *. by rewrite Hs, Hl. }
  pose proof Hv' as (_ & _ & Hle)%validate_media_ok.
  destruct (encode_body_total listening (sp_sequence p) (sp_stream p) (sp_channel p) (sp_speaker p) (sp_payload p) false)
    as (d & Hd & _); [done..|].
  exists d. split; [done|]. unfold encode_server_media. by rewrite Hv'.
Qed.
End call.

(** ** Properties *)

(** C14: a call from end to end. Whatever the speaker's host does, and whichever of the
    server's packets the network loses, the listener's host is given exactly the frames
    that arrived, in the order of the sends, under the speaker's name; and if none is lost, these
    are exactly the frames whose sends were confirmed to the speaker's host. The server can
    always forward: what the speaker's side has validated fits the listener's codec. *)
Theorem call_delivers_confirmed_sends `{Laws : CryptoLaws} (speaking listening : PacketCodec L) (i j : Inner)
    (now : Z) (inputs : list Input) (speaker : Z) (numbers : list Z) :
  codec_ok speaking → codec_ok listening → compatible speaking listening → fresh i → fresh j →
  Forall input_ok inputs → Snowflake.ok speaker → server_numbers numbers →
  ∃ alive i' w, run i speaking None now inputs = (Some (alive, i', w), Ok tt) ∧
    let sends := confirmed (publish_status i Active) speaking (send_heartbeat speaking None now (initial_locals now)).2 inputs in
    let packets := forwarded speaker numbers (heard speaking (attempted w)) in
    length numbers = length sends →
    Forall (λ p, ∃ d, arrives listening (ArrivedMedia p) d) packets ∧
    ∀ later inputs' arrived, Forall input_ok inputs' → arrived `sublist_of` packets →
      Forall2 (arrives listening) (ArrivedMedia <$> arrived) (datagrams inputs') →
      ∃ alive' j' w', run j listening None later inputs' = (Some (alive', j', w'), Ok tt) ∧
        (alive' = true →
           published j' = frame_for <$> arrived ∧
           (arrived = packets → (λ f, (speaker_id f, stream_type f, payload f)) <$> published j'
                                = (λ '(stream, payload), (speaker, stream, payload)) <$> sends)).
Proof.
  intros Hspeak Hlisten Hcomp Hi Hj Hin Hsp [Hsorted Hu64].
  destruct (confirmed_heard speaking i now inputs Hspeak Hi Hin) as (alive & i' & w & Hrun & Hheard).
  exists alive, i', w. split; [done|]. set (w0 := (send_heartbeat speaking None now (initial_locals now)).2) in *.
  pose proof (confirmed_valid speaking inputs (publish_status i Active) w0) as Hvalid.
  set (sends := confirmed (publish_status i Active) speaking w0 inputs) in *. rewrite Hheard. cbv zeta. intros Hlen.
  assert (length numbers = length (numbered [] sends)) as Hlen'.
  { by rewrite Hlen, <- (numbered_media sends []), length_fmap at 1. }
  split.
  - apply Forall_forall. intros p (Hnum & Hframe & Hspk)%forwarded_in. apply numbered_in in Hframe as [Hframe Hch].
    apply (forwarded_encodable speaking); [done..| | |].
    + split_and!; [by apply (proj1 (Forall_forall _ _) Hu64)|done|by rewrite Hspk].
    + apply StronglySorted_inv in Hsorted as [_ Hpos]. pose proof (proj1 (Forall_forall _ _) Hpos _ Hnum). lia.
    + exact (proj1 (Forall_forall _ _) Hvalid _ Hframe).
  - intros later inputs' arrived Hin' Hsub Harr.
    destruct (stream_delivered listening j later inputs' (ArrivedMedia <$> arrived) Hlisten Hj Hin' Harr)
      as (alive' & j' & w' & Hrun' & _ & Hall). exists alive', j', w'. split; [done|]. intros Halive.
    assert (published j' = frame_for <$> arrived) as Hpub.
    { apply Hall; [done| |done]. eapply sorted_sublist; [|exact Hsorted]. apply sublist_skip.
      rewrite <- (forwarded_sequences speaker numbers (numbered [] sends)) by done. by apply fmap_sublist. }
    split; [done|]. intros ->. rewrite Hpub, <- list_fmap_compose.
    rewrite <- (numbered_media sends []) at 2. rewrite <- (forwarded_media speaker numbers (numbered [] sends)) at 2 by done.
    rewrite <- !list_fmap_compose. apply list_fmap_ext. intros k p Hp. cbn.
    apply list_elem_of_lookup_2, forwarded_in in Hp as (_ & _ & ->). done.
Qed.

(** Three frames on two streams, and a listener that misses the second. *)
Definition toy_forwarded : list ServerPacket :=
  [mkServerPacket 4 0 1 9 [7]; mkServerPacket 5 0 2 9 [9]; mkServerPacket 9 1 1 9 [8]].
Definition toy_received : list Input :=
  omap (λ p, match encode_server_media (toy_codec true) (sp_sequence p) (sp_channel p) (sp_stream p) (sp_speaker p) (sp_payload p) with
             | Ok d => Some (Datagram d) | Err _ => None end) (filter (λ p, sp_stream p = 1) toy_forwarded).

Lemma call_delivers_confirmed_sends_witness :
  ∃ alive j' w', run toy_inner (toy_codec true) None 0 toy_received = (Some (alive, j', w'), Ok tt) ∧
    published j' = frame_for <$> filter (λ p, sp_stream p = 1) toy_forwarded.
Proof.
  destruct (call_delivers_confirmed_sends (toy_codec true) (toy_codec true) toy_inner toy_inner 0 toy_sends 9 [4; 5; 9])
    as (alive & i' & w & Hrun & Hcall).
  - apply toy_codec_ok.
  - apply toy_codec_ok.
  - split; reflexivity.
  - split; [reflexivity|]. split; reflexivity.
  - split; [reflexivity|]. split; reflexivity.
  - repeat constructor; vm_compute; try discriminate; reflexivity.
  - vm_compute. split; [reflexivity|discriminate].
  - split; repeat constructor; try lia; vm_compute; discriminate.
  - destruct Hcall as [_ Hcall]; [vm_compute; reflexivity|].
    assert (forwarded 9 [4; 5; 9] (heard (toy_codec true) (attempted w)) = toy_forwarded) as Hfwd.
    { assert (match run toy_inner (toy_codec true) None 0 toy_sends with
              | (Some (_, _, w), _) => forwarded 9 [4; 5; 9] (heard (toy_codec true) (attempted w)) | _ => [] end = toy_forwarded)
        as Heq by (vm_compute; reflexivity). rewrite Hrun in Heq. exact Heq. }
    rewrite Hfwd in Hcall. destruct (Hcall 0 toy_received (filter (λ p, sp_stream p = 1) toy_forwarded)) as (a & j' & w' & Hr & Hp).
    + repeat constructor; vm_compute; try discriminate; repeat constructor; discriminate.
    + vm_compute. repeat constructor.
    + repeat constructor; try (vm_compute; repeat split; discriminate); vm_compute; reflexivity.
    + exists a, j', w'. split; [exact Hr|]. apply Hp.
      assert (match run toy_inner (toy_codec true) None 0 toy_received with (Some (a, _, _), _) => a | _ => false end = true)
        as Heq by (vm_compute; reflexivity). by rewrite Hr in Heq.
Defined.
