(* ===== verification/VoiceHandle.v ===== *)
(** The public handle of a voice session (crates/zephyrvox-voice/src/session.rs): starting
    a session, receiving media through the shared cursor or an independent one, and
    waiting for the end.

    The worker and the calls that stop it interleave as in VoiceWorker. tokio's broadcast
    channel is a class: a channel is what has been sent and whether its sender is left, a
    receiver is opaque. A watch channel is its value and a version that grows with every
    change. *)

From S2P Require Import Prelude Text Types Wire VoiceTypes VoiceConfig VoiceCrypto VoiceCodec Replay VoiceWorker.

#[global] Instance InboundMedia_eq_dec : EqDecision InboundMedia.
Proof. solve_decision. Defined.

Create HintDb media.

(** ** tokio's broadcast channel *)

Inductive RecvError :=
| Lagged (missed : nat)
| RecvClosed.

(** [rx_recv] is [None] while the receiver waits. *)
Class MediaQueue := {
  Receiver : Type;
  rx_subscribe : nat → list InboundMedia → Receiver;
  rx_recv : nat → list InboundMedia → bool → Receiver → option (result RecvError InboundMedia * Receiver);
  (** The position of the next message that the receiver has not seen. *)
  rx_next : Receiver → nat;
}.

(** The documented behaviour: messages in order from the time of the subscription; a
    receiver that has fallen behind the capacity is told how many messages it missed and
    goes on with the oldest one that is kept; a closed channel is drained first. *)
Class MediaLaws (Q : MediaQueue) := {
  rx_subscribe_next capacity sent : rx_next (rx_subscribe capacity sent) = length sent;
  rx_recv_message capacity sent open r f r' : rx_recv capacity sent open r = Some (Ok f, r') →
    sent !! rx_next r = Some f ∧ rx_next r' = S (rx_next r);
  rx_recv_lagged capacity sent open r missed r' : rx_recv capacity sent open r = Some (Err (Lagged missed), r') →
    (0 < missed)%nat ∧ rx_next r' = (rx_next r + missed)%nat ∧ (rx_next r' + capacity ≤ length sent)%nat;
  rx_recv_closed capacity sent open r r' : rx_recv capacity sent open r = Some (Err RecvClosed, r') →
    open = false ∧ (length sent ≤ rx_next r)%nat ∧ rx_next r' = rx_next r;
  rx_recv_waits capacity sent open r : rx_recv capacity sent open r = None →
    open = true ∧ (length sent ≤ rx_next r)%nat;
}.

(** ** Starting *)

Section start.
Context `{L : CryptoLib}.
Abbreviation Cache := (option (gmap (list Z) (list Z))).

(** [connect_with_optional_cache]. *)
Definition connect_with_optional_cache (addresses : result string (list Address))
    (config : VoiceSessionConfig) (cache : Cache) : option (result VoiceError (Inner * PacketCodec L)) :=
  match connect_socket addresses with
  | Err e => Some (Err e)
  | Ok _ => VoiceWorker.start config cache
  end.

Definition connect (addresses : result string (list Address)) (config : VoiceSessionConfig) :=
  connect_with_optional_cache addresses config None.

(** [peer] is what [peer_addr] of the socket gives. *)
Definition from_connected_socket_with_key_cache (config : VoiceSessionConfig) (peer : result string string)
    (cache : Cache) : option (result VoiceError (Inner * PacketCodec L)) :=
  if negb (is_ok peer) then Some (Err (Endpoint "voice UDP socket must be connected before use"))
  else VoiceWorker.start config cache.

Definition from_connected_socket (config : VoiceSessionConfig) (peer : result string string) :=
  from_connected_socket_with_key_cache config peer None.
End start.

(** What becomes of the task that [start] spawned. *)
Inductive Task := TaskRuns | TaskAborted.

(** [StartupTaskGuard]: whether it still holds the task. *)
Definition StartupTaskGuard : Type := option Task.

Definition disarm (guard : StartupTaskGuard) : StartupTaskGuard := None.

Definition drop_guard (guard : StartupTaskGuard) (task : Task) : Task :=
  match guard with Some _ => TaskAborted | None => task end.

(** What the end of [start] sees: the worker's answer, its silent end, or that the
    future is dropped while it waits. *)
Inductive Startup :=
| Answered (started : result VoiceError unit)
| SenderDropped
| Cancelled.

(** The end of [start]: its result, and what becomes of the task. *)
Definition await_started (startup : Startup) : option (result VoiceError unit) * Task :=
  let guard := Some TaskRuns in
  match startup with
  | Answered (Ok _) => (Some (Ok tt), drop_guard (disarm guard) TaskRuns)
  | Answered (Err e) => (Some (Err e), drop_guard guard TaskRuns)
  | SenderDropped => (Some (Err Closed), drop_guard guard TaskRuns)
  | Cancelled => (None, drop_guard guard TaskRuns)
  end.

(** A worker outlives [start] exactly when the host gets the handle. *)
Lemma await_started_task startup :
  (await_started startup).2 = TaskRuns ↔ (await_started startup).1 = Some (Ok tt).
Proof. by destruct startup as [[[]|]| |]. Qed.

(** ** Sending and stopping *)

Definition send_frame (i : Inner) (queue : QueueState) (frame : OutboundMedia) : result VoiceError unit :=
  session_send i queue (OutboundMedia_stream_type frame) (OutboundMedia_payload frame).

(** The call as VoiceWorker runs it. *)
Definition request_termination (t : Termination) : HandlePc := HandleStart t.
Definition close : HandlePc := request_termination Close.
Definition revoke (reason : RevocationReason) : HandlePc := request_termination (Revoke reason).
Definition disconnect : HandlePc := request_termination Disconnect.

(** Whatever is sent, only an active session admits it. *)
Lemma send_frame_active i queue frame : send_frame i queue frame = Ok tt → status i = Active ∧ queue = QueueOpen.
Proof.
  unfold send_frame, session_send. destruct (status i); try done. unfold map_err.
  destruct (validate_media_values _ _ _ _); cbn; [by destruct queue|done].
Qed.

(** ** Receiving media *)

Section media.
Context `{Q : MediaQueue}.

(** A receiver of the session's channel, or of a channel that was closed at once. *)
Record MediaReceiver := mkMediaReceiver {
  of_session : bool;
  receiver : Receiver;
}.

Definition closed_media_receiver : MediaReceiver := mkMediaReceiver false (rx_subscribe 1 []).

Definition session_receiver (i : Inner) : MediaReceiver :=
  mkMediaReceiver true (rx_subscribe (Z.to_nat MEDIA_QUEUE_CAPACITY) (published i)).

Definition subscribe_media (i : Inner) : MediaReceiver :=
  if media_tx i then session_receiver i else closed_media_receiver.

(** [Receiver::recv] of the host's receiver. *)
Definition media_recv (i : Inner) (r : MediaReceiver) : option (result RecvError InboundMedia * MediaReceiver) :=
  let* (res, rx) := if of_session r then rx_recv (Z.to_nat MEDIA_QUEUE_CAPACITY) (published i) (media_tx i) (receiver r)
                    else rx_recv 1 [] false (receiver r) in
  Some (res, mkMediaReceiver (of_session r) rx).

Definition recv_error (e : RecvError) : VoiceError :=
  match e with Lagged missed => MediaLagged (Z.of_nat missed) | RecvClosed => Closed end.

(** [VoiceSession::recv] under the lock of the shared receiver. *)
Definition recv (i : Inner) (r : MediaReceiver) : option (result VoiceError InboundMedia * MediaReceiver) :=
  let* (res, r) := media_recv i r in Some (map_err recv_error res, r).

(** ** A session with its consumers

    [wait_until_stopped] looks at the status and waits for the next change of it, one
    action at a time. *)

Inductive Waiter :=
| WaitStart
| WaitLook (seen : nat)
| WaitChanged (seen : nat)
| WaitDone.

(** A receiver, where it started, and what it has been told, its errors as [recv] names
    them. *)
Record Consumer := mkConsumer {
  co_rx : MediaReceiver;
  co_from : nat;
  co_log : list (result VoiceError InboundMedia);
}.

Record Session := mkSession {
  se_joint : Joint;
  (** The version of the status channel. *)
  se_version : nat;
  (** The first is the shared cursor. *)
  se_consumers : list Consumer;
  se_waiters : list Waiter;
}.

Abbreviation inner s := (j_inner (se_joint s)).

(** [send_replace] is only called for a status that differs. *)
Definition next_version (i i' : Inner) (version : nat) : nat :=
  if bool_decide (status i = status i') then version else S version.

Inductive session_step `{L : CryptoLib} (codec : PacketCodec L) : Session → Session → Prop :=
| session_joint j j' version cs ws :
    joint_step codec j j' →
    session_step codec (mkSession j version cs ws)
      (mkSession j' (next_version (j_inner j) (j_inner j') version) cs ws)
| session_recv j version cs ws k c res r :
    cs !! k = Some c → recv (j_inner j) (co_rx c) = Some (res, r) →
    session_step codec (mkSession j version cs ws)
      (mkSession j version (<[k := mkConsumer r (co_from c) (co_log c ++ [res])]> cs) ws)
| session_subscribe j version cs ws :
    session_step codec (mkSession j version cs ws)
      (mkSession j version (cs ++ [mkConsumer (subscribe_media (j_inner j)) (length (published (j_inner j))) []]) ws)
| session_wait_subscribe j version cs ws k :
    ws !! k = Some WaitStart →
    session_step codec (mkSession j version cs ws) (mkSession j version cs (<[k := WaitLook version]> ws))
| session_wait_look j version cs ws k seen :
    ws !! k = Some (WaitLook seen) →
    session_step codec (mkSession j version cs ws)
      (mkSession j version cs (<[k := if is_terminal (status (j_inner j)) then WaitDone else WaitChanged seen]> ws))
| session_wait_changed j version cs ws k seen :
    ws !! k = Some (WaitChanged seen) → seen ≠ version →
    session_step codec (mkSession j version cs ws) (mkSession j version cs (<[k := WaitLook version]> ws)).

(** What [start] has set up when the host gets its handle: the worker runs, the shared
    cursor is there, and the host makes its calls. *)
Definition opened (i : Inner) (w : Locals) (calls : list Termination) (waiters : nat) : Session :=
  mkSession (mkJoint i (Some w) None (request_termination <$> calls)) 0
    [mkConsumer (mkMediaReceiver true (rx_subscribe (Z.to_nat MEDIA_QUEUE_CAPACITY) [])) 0 []]
    (replicate waiters WaitStart).

(** ** What a consumer has been told

    Reads its results against everything that was published: messages in order, losses
    only while more than the capacity was unread, the end only when nothing is unread. *)
Fixpoint account (sent : list InboundMedia) (next : nat) (log : list (result VoiceError InboundMedia)) : option nat :=
  match log with
  | [] => Some next
  | Ok f :: log => if bool_decide (sent !! next = Some f) then account sent (S next) log else None
  | Err (MediaLagged missed) :: log =>
      let next := (next + Z.to_nat missed)%nat in
      if (0 <? missed) && (Z.of_nat next + MEDIA_QUEUE_CAPACITY <=? len sent) then account sent next log else None
  | Err Closed :: log => if bool_decide (next = length sent) then account sent next log else None
  | Err _ :: _ => None
  end.

Definition received (log : list (result VoiceError InboundMedia)) : list InboundMedia :=
  omap (λ r, match r with Ok f => Some f | Err _ => None end) log.

Lemma account_app sent next log log' :
  account sent next (log ++ log') = (let* n := account sent next log in account sent n log').
Proof.
  revert next. induction log as [|[f|[]] log IH]; intros next; cbn; try done; by case_match; [apply IH|].
Qed.

Lemma account_later sent sent' next log n :
  sent `prefix_of` sent' → (Err Closed ∈ log → sent' = sent) →
  account sent next log = Some n → account sent' next log = Some n.
Proof.
  intros Hpre. revert next. induction log as [|[f|[]] log IH]; intros next Hc; cbn; try done.
  - case_bool_decide as Hf; [|done]. intros Ha. rewrite bool_decide_eq_true_2; [|by eapply prefix_lookup_Some].
    apply IH; [|done]. intros ?. apply Hc. by right.
  - destruct (0 <? missed); [|done]. cbn. destruct (Z.leb_spec (Z.of_nat (next + Z.to_nat missed) + MEDIA_QUEUE_CAPACITY) (len sent)); [|done].
    intros Ha. apply prefix_length in Hpre. unfold len in *. rewrite (proj2 (Z.leb_le _ _)) by lia.
    apply IH; [|done]. intros ?. apply Hc. by right.
  - rewrite (Hc (list_elem_of_here _ _)). case_bool_decide; [|done]. intros Ha. rewrite Hc in IH by by left. by apply IH.
Qed.

Lemma account_length sent next log n : account sent next log = Some n → (next ≤ n)%nat.
Proof.
  revert next. induction log as [|[f|[]] log IH]; intros next; cbn; try done; [by intros [= ->]|..].
  all: case_match; try done; intros Ha; apply IH in Ha; lia.
Qed.

(** Messages arrive in order and none twice. *)
Lemma account_sublist sent next log n :
  account sent next log = Some n → received log `sublist_of` drop next sent.
Proof.
  revert next. induction log as [|[f|[]] log IH]; intros next; cbn; try done.
  - intros _. apply sublist_nil_l.
  - case_bool_decide as Hf; [|done]. intros Ha%IH. rewrite (drop_S _ _ _ Hf). by apply sublist_skip.
  - destruct (_ && _); [|done]. intros Ha%IH. etrans; [exact Ha|]. rewrite <- drop_drop. apply sublist_drop.
  - case_bool_decide; [|done]. apply IH.
Qed.

(** ** The invariants of a session *)

(** How the media channel moves. *)
Record media_step (i i' : Inner) : Prop := {
  media_published : published i `prefix_of` published i';
  media_closed : media_tx i = false → media_tx i' = false ∧ published i' = published i;
}.

#[export] Instance media_step_order : PreOrder media_step.
Proof.
  split; [by split|]. intros i1 i2 i3 [Hp1 Hc1] [Hp2 Hc2]. split; [by etrans|].
  intros Hc. destruct (Hc1 Hc) as [Hc' <-]. by apply Hc2.
Qed.

Lemma publish_status_media i s : media_step i (publish_status i s).
Proof. unfold publish_status. by case_bool_decide. Qed.

Lemma finish_media i s : media_step i (finish i s).
Proof. destruct (finish_spec i s) as (_ & Hm & Hp & _). split; rewrite Hp; [done|]. by intros _. Qed.

Lemma publish_frame_media i f : media_tx i = true → media_step i (publish_frame i f).
Proof. intros Ho. split; [by apply prefix_app_r|]. by rewrite Ho. Qed.

Section invariant.
Context `{Laws : CryptoLaws, MLaws : !MediaLaws Q}.
Implicit Types (codec : PacketCodec L) (i : Inner) (w : Locals) (c : Consumer) (s : Session).

#[local] Hint Resolve finish_media publish_frame_media : media.
#[local] Hint Extern 1 (media_step ?i ?i) => reflexivity : media.

Lemma loop_body_media codec i w input alive i' w' :
  loop_body i codec w input = Some (alive, i', w') → media_step i i'.
Proof.
  destruct input as [ok stop| |t p race now|d| |now race]; cbn.
  - repeat case_match; intros; simplify_eq/=; auto with media.
  - intros; simplify_eq/=; auto with media.
  - unfold handle_command. repeat case_match; intros; simplify_eq/=; auto with media.
  - unfold handle_inbound. destruct (decode_server codec d) as [[p|e]|]; cbn; [|by intros; simplify_eq/=; auto with media..].
    destruct (accept _ _) as [[fresh window]|]; cbn; [|done]. repeat case_match; intros; simplify_eq/=; auto with media.
  - intros; simplify_eq/=; auto with media.
  - repeat case_match; intros; simplify_eq/=; auto with media.
Qed.

Lemma joint_media codec j j' : joint_step codec j j' → media_step (j_inner j) (j_inner j').
Proof.
  destruct 1; cbn; try reflexivity; [by eapply loop_body_media|].
  by destruct t; [apply publish_status_media..|reflexivity].
Qed.

(** A terminal status, and with it every return of a call that stops the session, comes
    after the end of the worker. *)
Lemma terminal_ended codec j :
  joint_ok codec j → is_terminal (status (j_inner j)) = true → j_worker j = None.
Proof.
  unfold joint_ok. destruct (j_worker j); [|done]. intros Hok Ht. destruct (s_alive _ _ _ _ Hok eq_refl). congruence.
Qed.

Lemma worker_stays_ended codec j j' : joint_step codec j j' → j_worker j = None → j_worker j' = None.
Proof. by destruct 1. Qed.

Definition returned_ok (j : Joint) : Prop :=
  ∀ k r, j_handles j !! k = Some (HandleReturned r) → j_worker j = None.

Lemma joint_returned codec j j' :
  joint_ok codec j → joint_step codec j j' → returned_ok j → returned_ok j'.
Proof.
  intros Hok Hstep Hr k r Hk. pose proof (worker_stays_ended _ _ _ Hstep) as Hend.
  assert (∀ k h, j_handles j' = <[k := h]> (j_handles j) → h ≠ HandleReturned r ∨ j_worker j' = None → j_worker j' = None) as Hset.
  { intros k0 h Heq [Hne|?]; [|done]. rewrite Heq in Hk. apply list_lookup_insert_Some in Hk as [(_ & Hh & _)|[_ Hk]]; [done|].
    apply Hend. by eapply Hr. }
  destruct Hstep; cbn in *; try (by eapply Hset; [done|by left]); try done.
  - exfalso. by apply Hr in Hk.
  - by apply (terminal_ended codec (mkJoint i wk stop hs)).
  - by apply (terminal_ended codec (mkJoint i wk stop hs)).
Qed.

Record consumer_ok i c : Prop := {
  consumer_position : ∃ n, account (published i) (co_from c) (co_log c) = Some n ∧ (n ≤ length (published i))%nat ∧
    (if of_session (co_rx c) then rx_next (receiver (co_rx c)) = n
     else rx_next (receiver (co_rx c)) = 0%nat ∧ n = length (published i) ∧ media_tx i = false);
  consumer_closed : Err Closed ∈ co_log c → media_tx i = false;
}.

Lemma consumer_later i i' c : media_step i i' → consumer_ok i c → consumer_ok i' c.
Proof.
  intros [Hpre Hclosed] [(n & Ha & Hn & Hrx) Hc]. split.
  - exists n. split_and!.
    + eapply account_later; [exact Hpre| |exact Ha]. intros Hin. by apply Hclosed, Hc.
    + apply prefix_length in Hpre. lia.
    + destruct (of_session _); [done|]. destruct Hrx as (Hrx & Hlen & Ho). by destruct (Hclosed Ho) as [-> ->].
  - intros Hin. by apply Hclosed, Hc.
Qed.

(** The next result of a receiver. *)
Lemma recv_account i c n res r :
  consumer_ok i c → account (published i) (co_from c) (co_log c) = Some n → recv i (co_rx c) = Some (res, r) →
  ∃ n', account (published i) n [res] = Some n' ∧ (n' ≤ length (published i))%nat ∧
    of_session r = of_session (co_rx c) ∧
    (if of_session r then rx_next (receiver r) = n' else rx_next (receiver r) = 0%nat ∧ n' = n) ∧
    (res = Err Closed → media_tx i = false).
Proof.
  intros [(m & Hm & Hle & Hrx) _] Ha. rewrite Hm in Ha. injection Ha as ->.
  unfold recv, media_recv. destruct (co_rx c) as [own rx]. cbn in *. destruct own.
  - destruct (rx_recv _ _ _ rx) as [[res' rx']|] eqn:Hrecv; [|done]. cbn. intros [= <- <-]. cbn.
    destruct res' as [f|[missed|]]; cbn.
    + apply rx_recv_message in Hrecv as [Hf Hnext]. rewrite Hrx in *. exists (S n).
      rewrite bool_decide_eq_true_2 by done. apply lookup_lt_Some in Hf. by split_and!.
    + apply rx_recv_lagged in Hrecv as (Hpos & Hnext & Hcap). rewrite Hrx in *. exists (n + missed)%nat.
      rewrite Nat2Z.id, (proj2 (Z.ltb_lt 0 _)) by lia. cbn. unfold len, MEDIA_QUEUE_CAPACITY in *.
      rewrite (proj2 (Z.leb_le _ _)) by lia. split_and!; try done; lia.
    + apply rx_recv_closed in Hrecv as (Ho & Hlen & Hnext). rewrite Hrx in *. exists n.
      rewrite bool_decide_eq_true_2 by lia. by split_and!.
  - destruct Hrx as (Hrx & -> & Ho).
    destruct (rx_recv 1 [] false rx) as [[res' rx']|] eqn:Hrecv; [|done]. cbn. intros [= <- <-]. cbn.
    destruct res' as [f|[missed|]]; cbn.
    + by apply rx_recv_message in Hrecv as [Hf _].
    + apply rx_recv_lagged in Hrecv as (_ & _ & Hcap). cbn in Hcap. lia.
    + apply rx_recv_closed in Hrecv as (_ & _ & Hnext). exists (length (published i)).
      rewrite bool_decide_eq_true_2 by done. split_and!; try done. by rewrite Hnext.
Qed.

Lemma consumer_recv i c res r :
  consumer_ok i c → recv i (co_rx c) = Some (res, r) → consumer_ok i (mkConsumer r (co_from c) (co_log c ++ [res])).
Proof.
  intros Hok Hrecv. pose proof Hok as [(n & Ha & Hn & Hrx) Hc].
  destruct (recv_account i c n res r Hok Ha Hrecv) as (n' & Hres & Hn' & Hown & Hnext & Hclosed). split; cbn.
  - exists n'. rewrite account_app, Ha. split_and!; [done|done|]. rewrite Hown in *. destruct (of_session (co_rx c)); [done|].
    destruct Hnext as [? ->]. by destruct Hrx as (_ & ? & ?).
  - rewrite elem_of_app, list_elem_of_singleton. intros [?|Heq]; [by apply Hc|by apply Hclosed].
Qed.

Lemma subscribe_ok i : consumer_ok i (mkConsumer (subscribe_media i) (length (published i)) []).
Proof.
  split; cbn; [|by intros ?%elem_of_nil]. exists (length (published i)). split_and!; [done..|].
  unfold subscribe_media. destruct (media_tx i); cbn; rewrite rx_subscribe_next; done.
Qed.

(** A receiver waits only for messages to come. *)
Lemma recv_waits codec j c n :
  joint_ok codec j → consumer_ok (j_inner j) c → account (published (j_inner j)) (co_from c) (co_log c) = Some n →
  recv (j_inner j) (co_rx c) = None → j_worker j ≠ None ∧ n = length (published (j_inner j)).
Proof.
  intros Hj [(m & Hm & Hle & Hrx) _] Ha. rewrite Hm in Ha. injection Ha as ->. unfold recv, media_recv.
  destruct (of_session (co_rx c)).
  - destruct (rx_recv _ _ _ _) as [[]|] eqn:Hrecv; [done|]. intros _.
    apply rx_recv_waits in Hrecv as [Ho Hlen]. split; [|lia]. intros Hend. unfold joint_ok in Hj. rewrite Hend in Hj.
    destruct Hj as [Hc _]. congruence.
  - destruct (rx_recv 1 _ _ _) as [[]|] eqn:Hrecv; [done|]. by apply rx_recv_waits in Hrecv as [].
Qed.

(** A waiter that sleeps has seen the current version of a status that is not terminal. *)
Definition waiter_ok (j : Joint) (version : nat) (waiter : Waiter) : Prop :=
  match waiter with
  | WaitStart => True
  | WaitLook seen => (seen ≤ version)%nat
  | WaitChanged seen => (seen ≤ version)%nat ∧ (seen = version → is_terminal (status (j_inner j)) = false)
  | WaitDone => j_worker j = None
  end.

Lemma waiter_later codec j j' version waiter :
  joint_step codec j j' → waiter_ok j version waiter →
  waiter_ok j' (next_version (j_inner j) (j_inner j') version) waiter.
Proof.
  intros Hstep. unfold next_version. destruct waiter as [|seen|seen|]; cbn; [done| | |by eapply worker_stays_ended].
  - case_bool_decide; lia.
  - intros [Hle Hs]. case_bool_decide as Heq; [|lia]. by rewrite <- Heq.
Qed.

(** No frame is published twice. *)
Definition distinct_frames i : Prop := NoDup (transport_seq <$> published i).

Lemma joint_distinct codec j j' :
  codec_ok codec → joint_ok codec j → joint_step codec j j' → distinct_frames (j_inner j) → distinct_frames (j_inner j').
Proof.
  intros Hc Hok Hstep Hd. destruct Hstep as [i w stop hs input alive i' w' Hin _ Hb| | |i wk stop hs k t _| | |]; cbn in *; try done.
  - destruct (loop_body_ok codec i w input) as (a & i1 & w1 & Hb' & [_ (? & _ & ? & _) _ _] & _); [done..|].
    rewrite Hb in Hb'. by simplify_eq.
  - destruct t; try done; unfold publish_status; by case_bool_decide.
Qed.

Record session_good codec s : Prop := {
  good_distinct : distinct_frames (inner s);
  good_joint : joint_ok codec (se_joint s);
  good_returned : returned_ok (se_joint s);
  good_consumers : Forall (consumer_ok (inner s)) (se_consumers s);
  good_waiters : Forall (waiter_ok (se_joint s) (se_version s)) (se_waiters s);
}.

Lemma session_step_good codec s s' :
  codec_ok codec → session_good codec s → session_step codec s s' → session_good codec s'.
Proof.
  intros Hc [Hd Hj Hr Hcs Hws] Hstep. destruct Hstep as [j j' v cs ws Hstep|j v cs ws k c res r Hk Hrecv| |j v cs ws k Hk|
    j v cs ws k seen Hk|j v cs ws k seen Hk Hne]; split; cbn in *; try done.
  - by eapply joint_distinct.
  - by eapply joint_step_ok.
  - by eapply joint_returned.
  - eapply Forall_impl; [exact Hcs|]. intros c. by eapply consumer_later, joint_media.
  - eapply Forall_impl; [exact Hws|]. intros waiter. by apply (waiter_later codec).
  - apply Forall_insert; [done|]. apply consumer_recv; [|done]. by eapply Forall_lookup_1.
  - apply Forall_app. split; [done|]. apply Forall_singleton, subscribe_ok.
  - apply Forall_insert; [done|cbn; lia].
  - apply Forall_insert; [done|]. pose proof (Forall_lookup_1 _ _ _ _ Hws Hk) as Hle. cbn in Hle.
    destruct (is_terminal _) eqn:Ht; cbn; [by apply (terminal_ended codec)|done].
  - apply Forall_insert; [done|cbn; lia].
Qed.

Lemma opened_good codec i w calls waiters :
  session_ok codec true i w → session_good codec (opened i w calls waiters).
Proof.
  intros Hok. split; cbn.
  - by destruct (s_window _ _ _ _ Hok) as (? & _ & ? & _).
  - done.
  - intros k r Hk. cbn in Hk. rewrite list_lookup_fmap in Hk. by destruct (calls !! k).
  - apply Forall_singleton. split; cbn; [|by intros ?%elem_of_nil]. exists 0%nat. rewrite rx_subscribe_next.
    split_and!; [done|lia|done].
  - by apply Forall_replicate.
Qed.

Lemma session_reachable codec i w calls waiters s :
  codec_ok codec → session_ok codec true i w → rtc (session_step codec) (opened i w calls waiters) s → session_good codec s.
Proof.
  intros Hc Hok Hrun. eapply (rtc_invariant (session_step codec) (session_good codec)); [|exact Hrun|by apply opened_good].
  intros a b Ha Hab. by eapply session_step_good.
Qed.
End invariant.
End media.

(** A small queue: a receiver is its position. *)
Module ToyQueue.
Definition next_message (capacity : nat) (sent : list InboundMedia) (open : bool) (r : nat)
    : option (result RecvError InboundMedia * nat) :=
  let first := (length sent - capacity)%nat in
  if (r <? first)%nat then Some (Err (Lagged (first - r)), first)
  else match sent !! r with
       | Some f => Some (Ok f, S r)
       | None => if open then None else Some (Err RecvClosed, r)
       end.

#[export] Instance queue : MediaQueue := {|
  Receiver := nat;
  rx_subscribe _ sent := length sent;
  rx_recv := next_message;
  rx_next r := r;
|}.

#[export] Instance laws : MediaLaws queue.
Proof.
  split; unfold rx_recv, rx_next; cbn; [done|..]; unfold next_message; intros capacity sent open r;
    destruct (Nat.ltb_spec r (length sent - capacity)).
  all: try (destruct (sent !! r) as [g|] eqn:Hr; [|apply lookup_ge_None in Hr; destruct open]).
  all: intros; simplify_eq; split_and?; try done; lia.
Qed.
End ToyQueue.

(** ** Properties *)

(** C16: no received frame is lost silently. Let the worker, the calls that stop it and any
    consumers of the media run together. What a consumer has been told accounts, in the
    order of publication, for every frame since its subscription up to some position: each
    was received, or counted as missed while at least 128 newer ones were kept; none came
    twice. The channel is reported closed only when the worker has ended and nothing is
    left, and a consumer waits only while the worker runs and nothing is left. *)
Theorem media_accounted `{MLaws : MediaLaws} `{Laws : CryptoLaws} (codec : PacketCodec L) (i : Inner) (w : Locals)
    (calls : list Termination) (waiters : nat) (s : Session) (k : nat) (c : Consumer) :
  codec_ok codec → session_ok codec true i w →
  rtc (session_step codec) (opened i w calls waiters) s → se_consumers s !! k = Some c →
  let sent := published (j_inner (se_joint s)) in
  ∃ next, account sent (co_from c) (co_log c) = Some next ∧ (next ≤ length sent)%nat ∧
    received (co_log c) `sublist_of` drop (co_from c) sent ∧ NoDup (transport_seq <$> received (co_log c)) ∧
    (Err Closed ∈ co_log c → j_worker (se_joint s) = None) ∧
    (recv (j_inner (se_joint s)) (co_rx c) = None → j_worker (se_joint s) ≠ None ∧ next = length sent).
Proof.
  intros Hc Hok Hrun Hk sent. destruct (session_reachable codec i w calls waiters s Hc Hok Hrun) as [Hd Hj _ Hcs _].
  pose proof (Forall_lookup_1 _ _ _ _ Hcs Hk) as Hcon. pose proof Hcon as [(n & Ha & Hn & Hrx) Hclosed].
  pose proof (account_sublist _ _ _ _ Ha) as Hsub.
  exists n. split_and!; [done|done|done| | |by apply (recv_waits codec)].
  - eapply sublist_NoDup; [exact Hd|]. apply fmap_sublist. etrans; [exact Hsub|apply sublist_drop].
  - intros Hin%Hclosed. unfold joint_ok in Hj. destruct (j_worker _); [|done].
    destruct (s_alive _ _ _ _ Hj eq_refl). congruence.
Qed.

#[local] Existing Instances ToyQueue.queue ToyQueue.laws.

(** A frame arrives, the socket fails, and the host reads. *)
Definition toy_published : Inner :=
  match handle_inbound toy_active (toy_codec false) (initial_locals 0) toy_plain_datagram with
  | Some (_, i, _) => i
  | None => toy_active
  end.
Definition toy_after : Locals :=
  match handle_inbound toy_active (toy_codec false) (initial_locals 0) toy_plain_datagram with
  | Some (_, _, w) => w
  | None => initial_locals 0
  end.
Definition toy_log : list (result VoiceError InboundMedia) := (Ok <$> published toy_published) ++ [Err Closed].
Definition toy_rx : MediaReceiver (Q:=ToyQueue.queue) := mkMediaReceiver (Q:=ToyQueue.queue) true 1%nat.
Definition toy_stopped : Session :=
  mkSession (mkJoint (finish toy_published Disconnected) None None []) 1
    [mkConsumer toy_rx 0 toy_log] [WaitDone].

Lemma toy_stopped_reachable :
  rtc (session_step (toy_codec false)) (opened toy_active (initial_locals 0) [] 1) toy_stopped.
Proof.
  eapply rtc_l; [by apply (session_wait_subscribe _ _ _ _ _ 0)|].
  eapply rtc_l; [by apply (session_wait_look _ _ _ _ _ 0 0)|].
  eapply rtc_l; [apply session_joint, (joint_worker _ toy_active (initial_locals 0) None [] (Datagram toy_plain_datagram)
    true toy_published toy_after); [exact toy_plain_datagram_ok|done|by vm_compute]|].
  eapply rtc_l; [eapply (session_recv _ _ _ _ _ 0 _ (Ok (default (mkInboundMedia 0 0 0 0 []) (head (published toy_published))))
    toy_rx); [reflexivity|by vm_compute]|].
  eapply rtc_l; [apply session_joint, (joint_worker _ toy_published toy_after None [] ReceiveError
    false (finish toy_published Disconnected) toy_after); done|].
  eapply rtc_l; [eapply (session_recv _ _ _ _ _ 0 _ (Err Closed) toy_rx); [reflexivity|by vm_compute]|].
  eapply rtc_l; [by apply (session_wait_changed _ _ _ _ _ 0 0)|].
  eapply rtc_l; [by apply (session_wait_look _ _ _ _ _ 0 1)|]. apply rtc_refl.
Qed.

Lemma media_accounted_witness : account (published (j_inner (se_joint toy_stopped))) 0 toy_log = Some 1%nat.
Proof.
  destruct (media_accounted (toy_codec false) toy_active (initial_locals 0) [] 1 toy_stopped 0
    (mkConsumer toy_rx 0 toy_log) (toy_codec_ok false) toy_active_ok toy_stopped_reachable eq_refl)
    as (n & Ha & Hn & _).
  assert (n = 1%nat) as ->.
  { assert (account (published (j_inner (se_joint toy_stopped))) 0 toy_log = Some 1%nat) as Heq by (by vm_compute).
    cbn [co_log co_from] in Ha. rewrite Heq in Ha. by injection Ha. }
  exact Ha.
Defined.

(** C17: a stop that has returned has stopped. Once any of [close], [revoke], [disconnect] and
    [wait_until_stopped] has returned, with or without an error, the worker has ended, the
    media channel is closed and the session's key is no longer cached. No wake-up of
    [wait_until_stopped] is lost: while it sleeps without a change to see, the status is
    not terminal. *)
Theorem stop_means_stopped `{MLaws : MediaLaws} `{Laws : CryptoLaws} (codec : PacketCodec L) (i : Inner) (w : Locals)
    (calls : list Termination) (waiters : nat) (s : Session) :
  codec_ok codec → session_ok codec true i w →
  rtc (session_step codec) (opened i w calls waiters) s →
  ((∃ k r, j_handles (se_joint s) !! k = Some (HandleReturned r)) ∨ (∃ k, se_waiters s !! k = Some WaitDone) →
    let final := j_inner (se_joint s) in
    j_worker (se_joint s) = None ∧ media_tx final = false ∧
    ∀ keys, key_cache final = Some keys → keys !! inner_session_id final = None) ∧
  ∀ k, se_waiters s !! k = Some (WaitChanged (se_version s)) → is_terminal (status (j_inner (se_joint s))) = false.
Proof.
  intros Hc Hok Hrun. destruct (session_reachable codec i w calls waiters s Hc Hok Hrun) as [_ Hj Hr _ Hws]. split.
  - intros Hdone. assert (j_worker (se_joint s) = None) as Hend.
    { destruct Hdone as [(k & r & Hk)|(k & Hk)]; [by eapply Hr|by apply (Forall_lookup_1 _ _ _ _ Hws Hk)]. }
    unfold joint_ok in Hj. rewrite Hend in Hj. by destruct Hj as (? & ? & _).
  - intros k Hk. by apply (Forall_lookup_1 _ _ _ _ Hws Hk).
Qed.

Lemma stop_means_stopped_witness : media_tx (j_inner (se_joint toy_stopped)) = false.
Proof.
  refine (proj1 (proj2 (proj1 (stop_means_stopped (toy_codec false) toy_active (initial_locals 0) [] 1 toy_stopped
    (toy_codec_ok false) toy_active_ok toy_stopped_reachable) _))).
  right. exists 0%nat. reflexivity.
Defined.
