(* ===== verification/ClientModel.v ===== *)
(** The client-side state (crates/zephyrvox-types/src/state.rs): the records of a
    snapshot, of the projection kept from it, and of the events that change it. *)

From S2P Require Import Prelude Text Types.

Record PresenceActivity := mkPresenceActivity {
  activity_kind : string;
  activity_name : string;
  activity_privacy : string;
}.

Record Presence := mkPresence {
  presence_status : string;
  presence_activity : option PresenceActivity;
}.

Record User := mkUser {
  User_id : Z;
  User_username : string;
  User_nickname : string;
  User_avatar : option string;
}.

Record UserPresence := mkUserPresence {
  UserPresence_user_id : Z;
  UserPresence_nickname : string;
  UserPresence_avatar : option string;
  UserPresence_presence : Presence;
}.

(** [deserialize_optional_avatar]: an empty text is no avatar. *)
Definition deserialize_optional_avatar (avatar : option string) : option string :=
  match avatar with
  | Some a => if str_is_empty a then None else Some a
  | None => None
  end.

Record Role := mkRole {
  Role_key : string;
  Role_display_name : string;
  Role_rank : Z;
  Role_builtin : bool;
}.

Record Group := mkGroup {
  Group_id : Z;
  Group_name : string;
  Group_position : Z;
  Group_visibility : string;
  Group_version : string;
}.

Record Channel := mkChannel {
  Channel_id : Z;
  Channel_group_id : option Z;
  Channel_name : string;
  Channel_mode : string;
  Channel_temporary : bool;
  Channel_visibility : string;
  Channel_capacity : Z;
  Channel_position : Z;
  Channel_pinned : bool;
  Channel_version : string;
}.

Record VoiceMembership := mkVoiceMembership {
  Membership_user_id : Z;
  Membership_channel_id : Z;
  Membership_joined_at : Z;
}.

Record VoiceAuthority := mkVoiceAuthority {
  Authority_channel_id : Z;
  Authority_control_connection_id : byte_list;
  Authority_voice_session_id : byte_list;
  Authority_generation : string;
}.

#[global] Instance VoiceAuthority_eq_dec : EqDecision VoiceAuthority.
Proof. solve_decision. Defined.

Record ServerState := mkServerState {
  ServerState_name : string;
  ServerState_version : string;
}.

Record SelfUserState := mkSelfUserState {
  Self_user : User;
  Self_server_role_keys : list string;
  Self_server_permissions : list string;
  Self_presence : Presence;
  Self_voice_authority : option VoiceAuthority;
}.

Record SnapshotState := mkSnapshotState {
  Snapshot_server : ServerState;
  Snapshot_self : SelfUserState;
  Snapshot_users : list UserPresence;
  Snapshot_roles : list Role;
  Snapshot_groups : list Group;
  Snapshot_channels : list Channel;
  Snapshot_voice_memberships : list VoiceMembership;
}.

Record StateSnapshot := mkStateSnapshot {
  Snapshot_cursor : string;
  Snapshot_stream_epoch : byte_list;
  Snapshot_geid : Z;
  Snapshot_state_version : string;
  Snapshot_state : SnapshotState;
}.

Record ClientState := mkClientState {
  st_cursor : string;
  st_stream_epoch : byte_list;
  st_geid : Z;
  st_state_version : string;
  st_server : ServerState;
  st_self_user : SelfUserState;
  st_users : list UserPresence;
  st_roles : list Role;
  st_groups : list Group;
  st_channels : list Channel;
  st_voice_memberships : list VoiceMembership;
}.

Definition from_snapshot (s : StateSnapshot) : ClientState :=
  mkClientState (Snapshot_cursor s) (Snapshot_stream_epoch s) (Snapshot_geid s)
    (Snapshot_state_version s) (Snapshot_server (Snapshot_state s)) (Snapshot_self (Snapshot_state s))
    (Snapshot_users (Snapshot_state s)) (Snapshot_roles (Snapshot_state s))
    (Snapshot_groups (Snapshot_state s)) (Snapshot_channels (Snapshot_state s))
    (Snapshot_voice_memberships (Snapshot_state s)).

(** Replacing one field of the state. *)
Definition set_cursor (c : string) (s : ClientState) : ClientState :=
  mkClientState c (st_stream_epoch s) (st_geid s) (st_state_version s) (st_server s) (st_self_user s)
    (st_users s) (st_roles s) (st_groups s) (st_channels s) (st_voice_memberships s).
Definition set_geid (g : Z) (s : ClientState) : ClientState :=
  mkClientState (st_cursor s) (st_stream_epoch s) g (st_state_version s) (st_server s)
    (st_self_user s) (st_users s) (st_roles s) (st_groups s) (st_channels s) (st_voice_memberships s).
Definition set_self (u : SelfUserState) (s : ClientState) : ClientState :=
  mkClientState (st_cursor s) (st_stream_epoch s) (st_geid s) (st_state_version s) (st_server s) u
    (st_users s) (st_roles s) (st_groups s) (st_channels s) (st_voice_memberships s).
Definition set_users (l : list UserPresence) (s : ClientState) : ClientState :=
  mkClientState (st_cursor s) (st_stream_epoch s) (st_geid s) (st_state_version s) (st_server s)
    (st_self_user s) l (st_roles s) (st_groups s) (st_channels s) (st_voice_memberships s).
Definition set_roles (l : list Role) (s : ClientState) : ClientState :=
  mkClientState (st_cursor s) (st_stream_epoch s) (st_geid s) (st_state_version s) (st_server s)
    (st_self_user s) (st_users s) l (st_groups s) (st_channels s) (st_voice_memberships s).
Definition set_groups (l : list Group) (s : ClientState) : ClientState :=
  mkClientState (st_cursor s) (st_stream_epoch s) (st_geid s) (st_state_version s) (st_server s)
    (st_self_user s) (st_users s) (st_roles s) l (st_channels s) (st_voice_memberships s).
Definition set_channels (l : list Channel) (s : ClientState) : ClientState :=
  mkClientState (st_cursor s) (st_stream_epoch s) (st_geid s) (st_state_version s) (st_server s)
    (st_self_user s) (st_users s) (st_roles s) (st_groups s) l (st_voice_memberships s).
Definition set_memberships (l : list VoiceMembership) (s : ClientState) : ClientState :=
  mkClientState (st_cursor s) (st_stream_epoch s) (st_geid s) (st_state_version s) (st_server s)
    (st_self_user s) (st_users s) (st_roles s) (st_groups s) (st_channels s) l.
Definition set_authority (a : option VoiceAuthority) (u : SelfUserState) : SelfUserState :=
  mkSelfUserState (Self_user u) (Self_server_role_keys u) (Self_server_permissions u)
    (Self_presence u) a.

Record EventScope := mkEventScope {
  scope_kind : string;
  scope_id : option Z;
}.

(** [V] is the type of JSON values. *)
Record StateEvent (V : Type) := mkStateEvent {
  ev_frame_type : string;
  ev_geid : Z;
  ev_cursor : string;
  ev_class : string;
  ev_scope : EventScope;
  ev_event_type : string;
  ev_causation_id : option Z;
  ev_server_time : Z;
  ev_data : V;
}.
Arguments mkStateEvent {V} _ _ _ _ _ _ _ _ _.
Arguments ev_frame_type {V} _.
Arguments ev_geid {V} _.
Arguments ev_cursor {V} _.
Arguments ev_class {V} _.
Arguments ev_scope {V} _.
Arguments ev_event_type {V} _.
Arguments ev_causation_id {V} _.
Arguments ev_server_time {V} _.
Arguments ev_data {V} _.

(** A snapshot without rooms, for the witnesses. *)
Definition toy_snapshot (cursor : string) (geid : Z) : StateSnapshot :=
  mkStateSnapshot cursor (replicate 16 1) geid "1"
    (mkSnapshotState (mkServerState "s" "v")
       (mkSelfUserState (mkUser 1 "u" "n" None) [] [] (mkPresence "online" None) None)
       [] [] [] [] []).
