(* ===== verification/RealtimeTypes.v ===== *)
(** Data of the realtime control connection (crates/zephyrvox-realtime/src): the
    errors of error.rs, the commands of command.rs, the server frames of frame.rs
    with their parser, the client events of event.rs, the access token of
    token.rs and the connection status of config.rs. *)

From S2P Require Import Prelude Text Types Json ClientModel.

(** ** error.rs *)

Record CommandError := mkCommandError {
  CommandError_request_id : string;
  CommandError_command_type : string;
  CommandError_code : Z;
  CommandError_message : string;
  CommandError_retryable : bool;
}.

Inductive StateApplyError :=
| InvalidEnvelope (text : string)
| ApplyGeidOrder (current actual : Z)
| ApplyGeidGap (expected actual : Z)
| UnknownEvent (event_type : string)
| ApplySnapshotRequired (event_type : string)
| InvalidPayload (event_type message : string)
| InvalidCursor.

Inductive SyncError :=
| InvalidPhase (text : string)
| ReplayBounds
| QueueLimit
| SyncGeidOrder (current actual : Z)
| SyncGeidGap (expected actual : Z)
| StreamEpochChanged (expected actual : byte_list)
| SyncSnapshotRequired (text : string).

Inductive RealtimeError :=
| Provider (text : string)
| AuthenticationRequired
| AuthenticationExpired
| WsTransport (text : string)
| Protocol (text : string)
| Json (text : string)
| State (e : StateApplyError)
| Sync (e : SyncError)
| ServerCommand (e : CommandError)
| NotLive
| CommandTimeout
| ConnectionClosed
| ConnectionRevoked (text : string)
| TlsPinMismatch (expected actual : string)
| TlsCertificateInvalid
| ReconnectExhausted
| RealtimeConfiguration (text : string).

(** The [Display] texts that reach a diagnostic. *)
Definition display_state_error (e : StateApplyError) : string :=
  match e with
  | InvalidEnvelope t => "invalid state event envelope: " +:+ t
  | ApplyGeidOrder c a =>
      "state GEID " +:+ display_u64 a +:+ " is not after current GEID " +:+ display_u64 c
  | ApplyGeidGap e a =>
      "state stream GEID gap: expected " +:+ display_u64 e +:+ ", got " +:+ display_u64 a
  | UnknownEvent t => "unknown state event type: " +:+ t
  | ApplySnapshotRequired t => "state event requires a full snapshot: " +:+ t
  | InvalidPayload t m => "invalid payload for state event " +:+ t +:+ ": " +:+ m
  | InvalidCursor => "state event cursor is invalid"
  end.

Definition display_sync_error (e : SyncError) : string :=
  match e with
  | InvalidPhase t => "invalid synchronization phase transition: " +:+ t
  | ReplayBounds => "sync replay GEID bounds are inconsistent"
  | QueueLimit => "queued live state events exceed the synchronization limit"
  | SyncGeidOrder c a => "state stream GEID " +:+ display_u64 a +:+ " is not after " +:+ display_u64 c
  | SyncGeidGap e a =>
      "state stream GEID gap: expected " +:+ display_u64 e +:+ ", got " +:+ display_u64 a
  | StreamEpochChanged e a =>
      "state stream epoch changed from " +:+ FixedId.to_hex e +:+ " to " +:+ FixedId.to_hex a
  | SyncSnapshotRequired t => "server requires a state snapshot: " +:+ t
  end.

Definition display_command_error (e : CommandError) : string :=
  "command " +:+ CommandError_command_type e +:+ " failed with code "
  +:+ display_i64 (CommandError_code e) +:+ ": " +:+ CommandError_message e.

Definition display_realtime_error (e : RealtimeError) : string :=
  match e with
  | Provider t => "realtime provider failed: " +:+ t
  | AuthenticationRequired => "authentication is required for the realtime connection"
  | AuthenticationExpired => "realtime authentication expired"
  | WsTransport t => "WebSocket transport failed: " +:+ t
  | Protocol t => "WebSocket protocol violation: " +:+ t
  | Json t => "invalid WebSocket JSON: " +:+ t
  | State e => display_state_error e
  | Sync e => display_sync_error e
  | ServerCommand e => display_command_error e
  | NotLive => "WebSocket control connection is not live"
  | CommandTimeout => "WebSocket command timed out"
  | ConnectionClosed => "WebSocket control connection is closed"
  | ConnectionRevoked t => "WebSocket connection was revoked: " +:+ t
  | TlsPinMismatch expected actual =>
      "TLS SPKI fingerprint mismatch: expected " +:+ expected +:+ ", got " +:+ actual
  | TlsCertificateInvalid => "TLS peer certificate validation failed"
  | ReconnectExhausted => "WebSocket reconnect attempts exhausted"
  | RealtimeConfiguration t => "invalid realtime configuration: " +:+ t
  end.

(** ** token.rs and config.rs *)

Module AccessToken.
Definition new (value : string) : result RealtimeError string :=
  if str_is_empty value then Err (RealtimeConfiguration "access token must not be empty")
  else Ok value.
End AccessToken.

Inductive ConnectionStatus :=
| SDisconnected
| SConnecting
| SReady
| SSyncing
| SLive
| SReconnecting
| SClosed.

#[global] Instance ConnectionStatus_eq_dec : EqDecision ConnectionStatus.
Proof. solve_decision. Defined.

(** ** command.rs *)

Record CommandAck := mkCommandAck {
  Ack_request_id : string;
  Ack_command_type : string;
  Ack_command_id : option string;
  Ack_expires_at : option Z;
}.

Record PresenceCommand := mkPresenceCommand {
  PresenceCommand_status : string;
  PresenceCommand_activity : option PresenceActivity;
}.

Definition presence_command_from (p : Presence) : PresenceCommand :=
  mkPresenceCommand (presence_status p) (presence_activity p).

(** ** frame.rs *)

Record ConnectionReady := mkConnectionReady {
  Ready_control_connection_id : byte_list;
  Ready_access_expires_at : Z;
}.

Record SyncReplay (V : Type) := mkSyncReplay {
  from_geid : Z;
  to_geid : Z;
  replay_events : list (StateEvent V);
}.
Arguments mkSyncReplay {V} _ _ _.
Arguments from_geid {V} _.
Arguments to_geid {V} _.
Arguments replay_events {V} _.

Record SyncComplete := mkSyncComplete { complete_cursor : string }.
Record SyncRequired := mkSyncRequired { required_reason : string }.
Record AuthRevoked := mkAuthRevoked { revoked_reason : string }.

Record UnknownFrame (V : Type) := mkUnknownFrame {
  unknown_frame_type : string;
  unknown_request_id : option string;
  unknown_data : V;
}.
Arguments mkUnknownFrame {V} _ _ _.
Arguments unknown_frame_type {V} _.
Arguments unknown_request_id {V} _.
Arguments unknown_data {V} _.

Inductive ServerFrame (V : Type) :=
| FConnectionReady (r : ConnectionReady)
| FSyncReplay (r : SyncReplay V)
| FSyncComplete (c : SyncComplete)
| FSyncRequired (r : SyncRequired)
| FStateEvent (e : StateEvent V)
| FCommandOk (a : CommandAck)
| FCommandError (e : CommandError)
| FAuthRevoked (r : AuthRevoked)
| FUnknown (f : UnknownFrame V).
Arguments FConnectionReady {V} _.
Arguments FSyncReplay {V} _.
Arguments FSyncComplete {V} _.
Arguments FSyncRequired {V} _.
Arguments FStateEvent {V} _.
Arguments FCommandOk {V} _.
Arguments FCommandError {V} _.
Arguments FAuthRevoked {V} _.
Arguments FUnknown {V} _.

Record Envelope (V : Type) := mkEnvelope {
  env_frame_type : string;
  env_request_id : option string;
  env_data : V;
}.
Arguments mkEnvelope {V} _ _ _.
Arguments env_frame_type {V} _.
Arguments env_request_id {V} _.
Arguments env_data {V} _.

Record CommandOkData := mkCommandOkData {
  ok_command_type : string;
  ok_command_id : option string;
  ok_expires_at : option Z;
}.

Record CommandErrorData := mkCommandErrorData {
  err_command_type : string;
  err_code : Z;
  err_message : string;
  err_retryable : bool;
}.

(** [serde_json] and the derived [Deserialize] implementations of the frames:
    parsing a text, decoding a value, with the error's text. *)
Class FrameDecoders (V : Type) := {
  from_str : string → result string V;
  decode_envelope : V → result string (Envelope V);
  decode_ready : V → result string ConnectionReady;
  decode_replay : V → result string (SyncReplay V);
  decode_complete : V → result string SyncComplete;
  decode_required : V → result string SyncRequired;
  decode_event : V → result string (StateEvent V);
  decode_command_ok : V → result string CommandOkData;
  decode_command_error : V → result string CommandErrorData;
  decode_revoked : V → result string AuthRevoked;
  (** The length of [serde_json::to_vec(&event)], when it can be encoded. *)
  encoded_len : StateEvent V → option Z;
}.

Definition valid_request_id (request_id : string) : bool :=
  (16 <=? str_len request_id) && (str_len request_id <=? 64)
  && forallb (λ b, is_alphanumeric b || (b =? 95) || (b =? 45)) (str_bytes request_id).

Definition required_request_id (request_id : option string) (frame_type : string)
    : result RealtimeError string :=
  let? request_id := ok_or (Protocol (frame_type +:+ " is missing request_id")) request_id in
  if negb (valid_request_id request_id) then
    Err (Protocol (frame_type +:+ " has an invalid request_id"))
  else Ok request_id.

Section frames.
Context {V : Type} `{FrameDecoders V}.

(** [decode]: a known frame whose body is not what it declares is a violation. *)
Definition decode {T} (r : result string T) (frame_type : string) : result RealtimeError T :=
  map_err (λ error, Protocol (frame_type +:+ " data is invalid: " +:+ error)) r.

Definition parse_server_frame (payload : string) : result RealtimeError (ServerFrame V) :=
  let? raw := map_err Json (from_str payload) in
  let? envelope := map_err Json (decode_envelope raw) in
  let typed (name : string) := bool_decide (env_frame_type envelope = name) in
  if typed "connection.ready"%string then
    result_map FConnectionReady (decode (decode_ready (env_data envelope)) "connection.ready")
  else if typed "sync.replay"%string then
    result_map FSyncReplay (decode (decode_replay (env_data envelope)) "sync.replay")
  else if typed "sync.complete"%string then
    result_map FSyncComplete (decode (decode_complete (env_data envelope)) "sync.complete")
  else if typed "sync.required"%string then
    result_map FSyncRequired (decode (decode_required (env_data envelope)) "sync.required")
  else if typed "state.event"%string then
    let? event := decode (decode_event raw) "state.event" in
    Ok (FStateEvent event)
  else if typed "command.ok"%string then
    let? request_id := required_request_id (env_request_id envelope) "command.ok" in
    let? data := decode (decode_command_ok (env_data envelope)) "command.ok" in
    Ok (FCommandOk (mkCommandAck request_id (ok_command_type data) (ok_command_id data)
                      (ok_expires_at data)))
  else if typed "command.error"%string then
    let? request_id := required_request_id (env_request_id envelope) "command.error" in
    let? data := decode (decode_command_error (env_data envelope)) "command.error" in
    Ok (FCommandError (mkCommandError request_id (err_command_type data) (err_code data)
                         (err_message data) (err_retryable data)))
  else if typed "auth.revoked"%string then
    result_map FAuthRevoked (decode (decode_revoked (env_data envelope)) "auth.revoked")
  else
    Ok (FUnknown (mkUnknownFrame (env_frame_type envelope) (env_request_id envelope)
                    (env_data envelope))).
End frames.

(** Building and printing JSON values, and the derived [Serialize] of a command. *)
Class FrameEncoders (V : Type) := {
  json_string : string → V;
  json_object : list (string * V) → V;
  presence_value : PresenceCommand → V;
  to_string : V → result string string;
}.

Section encoders.
Context {V : Type} `{FrameEncoders V}.

Definition encode_json (value : V) : result RealtimeError string := map_err Json (to_string value).

Definition encode_sync_hello (cursor : string) : result RealtimeError string :=
  encode_json (json_object
    [("type"%string, json_string "sync.hello");
     ("data"%string, json_object [("cursor"%string, json_string cursor)])]).

Definition encode_presence_set (request_id : string) (command : PresenceCommand)
    : result RealtimeError string :=
  encode_json (json_object
    [("type"%string, json_string "presence.set"); ("request_id"%string, json_string request_id);
     ("data"%string, presence_value command)]).

Definition encode_auth_update (request_id access_token : string) : result RealtimeError string :=
  encode_json (json_object
    [("type"%string, json_string "auth.update"); ("request_id"%string, json_string request_id);
     ("data"%string, json_object [("access_token"%string, json_string access_token)])]).
End encoders.

(** ** event.rs *)

Inductive ClientEvent (V : Type) :=
| StatusChanged (s : ConnectionStatus)
| EventReady (control_connection_id : byte_list) (access_expires_at : Z)
| EventSyncRequired (reason : string)
| EventState (e : StateEvent V)
| EventVoiceLost (authority : VoiceAuthority)
| EventDisconnected (reason : string)
| EventUnknown (f : UnknownFrame V).
Arguments StatusChanged {V} _.
Arguments EventReady {V} _ _.
Arguments EventSyncRequired {V} _.
Arguments EventState {V} _.
Arguments EventVoiceLost {V} _.
Arguments EventDisconnected {V} _.
Arguments EventUnknown {V} _.

(** ** Lemmas *)

(** Acknowledgements always carry a well-formed request identifier. *)
Lemma required_request_id_ok request_id frame_type id :
  required_request_id request_id frame_type = Ok id → request_id = Some id ∧ valid_request_id id = true.
Proof.
  unfold required_request_id. intros H. apply result_bind_ok in H as (r & Hr%ok_or_ok & H).
  destruct (valid_request_id r) eqn:Hv; simpl in H; by simplify_eq.
Qed.
