(* ===== verification/Projection.v ===== *)
(** The projection rules for state events
    (crates/zephyrvox-realtime/src/state/projection.rs). *)

From S2P Require Import Prelude Text Types Json ClientModel RealtimeTypes.

(** ** Event payloads *)

Record EntityTombstone := mkEntityTombstone { entity_id : Z }.
Record UserTombstone := mkUserTombstone { tombstone_user_id : Z }.
Record RoleTombstone := mkRoleTombstone { role_key : string }.
Record UserEnvelope := mkUserEnvelope { envelope_user : UserPresence }.
Record SelfEnvelope := mkSelfEnvelope { self_state : SelfUserState }.
Record MembershipEnvelope := mkMembershipEnvelope { membership : VoiceMembership }.
Record MembershipTombstone := mkMembershipTombstone { left_user_id : Z; left_channel_id : Z }.
Record AuthorityEnvelope := mkAuthorityEnvelope { authority : option VoiceAuthority }.

(** The derived [Deserialize] implementations of the payload types, with the
    error's text. *)
Class PayloadDecoders (V : Type) := {
  as_group : V → result string Group;
  as_entity_tombstone : V → result string EntityTombstone;
  as_channel : V → result string Channel;
  as_membership : V → result string MembershipEnvelope;
  as_membership_tombstone : V → result string MembershipTombstone;
  as_user : V → result string UserEnvelope;
  as_user_tombstone : V → result string UserTombstone;
  as_self : V → result string SelfEnvelope;
  as_role : V → result string Role;
  as_role_tombstone : V → result string RoleTombstone;
  as_authority : V → result string AuthorityEnvelope;
}.

(** ** The closed event table *)

Definition one_of (l : list string) (t : string) : bool := bool_decide (t ∈ l).

Definition known_state_events : list string :=
  ["group.created"; "group.updated"; "group.deleted"; "group.access.updated"; "acl.updated";
   "channel.created"; "channel.updated"; "channel.deleted"; "channel.access.updated";
   "channel.member.joined"; "channel.member.left"; "user.created"; "user.updated"; "user.deleted";
   "presence.updated"; "self.updated"; "rbac.role.created"; "rbac.role.updated";
   "rbac.role.deleted"; "rbac.binding.updated"; "rbac.config.updated"; "owner.transferred";
   "moderation.mute.updated"; "moderation.mute.removed"; "voice.authority.updated";
   "voice.revoked"; "voice.disconnected"; "voice.membership.updated"; "server.updated";
   "visibility.grant.begin"; "visibility.fragment"; "visibility.granted"; "visibility.revoked";
   "visibility.tombstone"; "visibility.transition.complete"]%string.

Definition is_known_state_event (t : string) : bool := one_of known_state_events t.

Definition expected_scope_kind (t : string) : option string :=
  if one_of ["group.created"; "group.updated"; "group.deleted"; "group.access.updated"]%string t
  then Some "group"%string
  else if one_of ["channel.created"; "channel.updated"; "channel.deleted"; "channel.access.updated";
                  "channel.member.joined"; "channel.member.left"; "voice.membership.updated"]%string t
  then Some "channel"%string
  else if one_of ["user.created"; "user.updated"; "user.deleted"; "presence.updated"; "self.updated";
                  "rbac.role.created"; "rbac.role.updated"; "rbac.role.deleted"; "owner.transferred";
                  "voice.authority.updated"; "voice.revoked"; "voice.disconnected";
                  "server.updated"; "visibility.transition.complete"]%string t
  then Some "server"%string
  else None.

Definition is_visibility_scope_event (t : string) : bool :=
  one_of ["visibility.grant.begin"; "visibility.fragment"; "visibility.granted";
          "visibility.revoked"; "visibility.tombstone"]%string t.

Definition is_visibility_state_event (t : string) : bool :=
  is_visibility_scope_event t || one_of ["visibility.transition.complete"]%string t.

(** ** Upserts *)

Definition upsert_by_id {T I} `{EqDecision I} (items : list T) (item : T) (key : T → I) : list T :=
  match list_find (λ existing, key existing = key item) items with
  | Some (n, _) => <[n := item]> items
  | None => items ++ [item]
  end.

Definition upsert_by_key {T K} `{EqDecision K} (items : list T) (item : T) (key : T → K) : list T :=
  match list_find (λ existing, key existing = key item) items with
  | Some (n, _) => <[n := item]> items
  | None => items ++ [item]
  end.

Definition upsert_user (items : list UserPresence) (item : UserPresence) : list UserPresence :=
  upsert_by_id items item UserPresence_user_id.

Definition upsert_membership (items : list VoiceMembership) (item : VoiceMembership)
    : list VoiceMembership :=
  match list_find (λ existing, Membership_user_id existing = Membership_user_id item) items with
  | Some (n, _) => <[n := item]> items
  | None => items ++ [item]
  end.

Section projection.
Context {V : Type} `{PayloadDecoders V}.
Implicit Types event : StateEvent V.

(** ** Validation *)

Definition validate_event (event : StateEvent V) (current : ClientState)
    : result StateApplyError unit :=
  let kind := scope_kind (ev_scope event) in
  let server := bool_decide (kind = "server"%string) in
  if negb (bool_decide (ev_frame_type event = "state.event"%string))
     || negb (bool_decide (ev_class event = "state"%string)) then
    Err (InvalidEnvelope "state event must have type state.event and class state")
  else if str_is_empty (ev_cursor event) then Err InvalidCursor
  else if ev_geid event <=? st_geid current then
    Err (ApplyGeidOrder (st_geid current) (ev_geid event))
  else if negb (is_known_state_event (ev_event_type event)) then
    Err (UnknownEvent (ev_event_type event))
  else if negb server && negb (bool_decide (kind = "group"%string))
          && negb (bool_decide (kind = "channel"%string)) then
    Err (InvalidEnvelope ("unknown event scope " +:+ kind))
  else if negb server && bool_decide (scope_id (ev_scope event) = None) then
    Err (InvalidEnvelope "non-server event scope has no id")
  else if server && negb (bool_decide (scope_id (ev_scope event) = None)) then
    Err (InvalidEnvelope "server event scope must not have an id")
  else
    let? _ :=
      match expected_scope_kind (ev_event_type event) with
      | Some expected =>
          if negb (bool_decide (kind = expected)) then
            Err (InvalidEnvelope (ev_event_type event +:+ " event must use a " +:+ expected
                                  +:+ " scope"))
          else Ok tt
      | None => Ok tt
      end in
    if is_visibility_scope_event (ev_event_type event) && server then
      Err (InvalidEnvelope "visibility transition event must use a group or channel scope")
    else Ok tt.

(** ** Application *)

(** [payload::<T>(event)]. *)
Definition payload {T} (from_value : V → result string T) event : result StateApplyError T :=
  map_err (InvalidPayload (ev_event_type event)) (from_value (ev_data event)).

(** The projection is changed in place; an error is returned before any change. *)
Definition apply_known_event (state : ClientState) (event : StateEvent V)
    : result StateApplyError ClientState :=
  let t := ev_event_type event in
  if one_of ["group.created"; "group.updated"]%string t then
    let? group := payload as_group event in
    Ok (set_groups (upsert_by_id (st_groups state) group Group_id) state)
  else if one_of ["group.deleted"]%string t then
    let? deleted := payload as_entity_tombstone event in
    Ok (set_channels
          (filter (λ c, Channel_group_id c ≠ Some (entity_id deleted)) (st_channels state))
          (set_groups (filter (λ g, Group_id g ≠ entity_id deleted) (st_groups state)) state))
  else if one_of ["channel.created"; "channel.updated"]%string t then
    let? channel := payload as_channel event in
    Ok (set_channels (upsert_by_id (st_channels state) channel Channel_id) state)
  else if one_of ["channel.deleted"]%string t then
    let? deleted := payload as_entity_tombstone event in
    let state := set_channels (filter (λ c, Channel_id c ≠ entity_id deleted) (st_channels state))
                   state in
    let state := set_memberships
                   (filter (λ m, Membership_channel_id m ≠ entity_id deleted)
                      (st_voice_memberships state)) state in
    Ok (match Self_voice_authority (st_self_user state) with
        | Some a =>
            if Authority_channel_id a =? entity_id deleted
            then set_self (set_authority None (st_self_user state)) state
            else state
        | None => state
        end)
  else if one_of ["channel.member.joined"]%string t then
    let? joined := payload as_membership event in
    Ok (set_memberships (upsert_membership (st_voice_memberships state) (membership joined)) state)
  else if one_of ["channel.member.left"]%string t then
    let? gone := payload as_membership_tombstone event in
    Ok (set_memberships
          (filter (λ m, Membership_user_id m ≠ left_user_id gone
                        ∨ Membership_channel_id m ≠ left_channel_id gone)
             (st_voice_memberships state)) state)
  else if one_of ["user.created"; "user.updated"; "presence.updated"]%string t then
    let? user := payload as_user event in
    Ok (set_users (upsert_user (st_users state) (envelope_user user)) state)
  else if one_of ["user.deleted"]%string t then
    let? deleted := payload as_user_tombstone event in
    Ok (set_users (filter (λ u, UserPresence_user_id u ≠ tombstone_user_id deleted) (st_users state))
          state)
  else if one_of ["self.updated"]%string t then
    let? own := payload as_self event in
    Ok (set_self (self_state own) state)
  else if one_of ["rbac.role.created"; "rbac.role.updated"]%string t then
    let? role := payload as_role event in
    Ok (set_roles (upsert_by_key (st_roles state) role Role_key) state)
  else if one_of ["rbac.role.deleted"]%string t then
    let? deleted := payload as_role_tombstone event in
    Ok (set_roles (filter (λ r, Role_key r ≠ role_key deleted) (st_roles state)) state)
  else if one_of ["voice.authority.updated"]%string t then
    let? a := payload as_authority event in
    Ok (set_self (set_authority (authority a) (st_self_user state)) state)
  else if one_of ["voice.revoked"; "voice.disconnected"; "voice.membership.updated"]%string t then
    Ok state
  else if one_of ["group.access.updated"; "acl.updated"; "channel.access.updated";
                  "rbac.binding.updated"; "rbac.config.updated"; "owner.transferred";
                  "moderation.mute.updated"; "moderation.mute.removed"; "server.updated"]%string t
  then Ok state
  else if is_visibility_state_event t then Err (ApplySnapshotRequired t)
  else Err (UnknownEvent t).
End projection.

(** ** The invariant of a projection: entities are unique *)

Record projection_ok (s : ClientState) : Prop := {
  unique_users : NoDup (UserPresence_user_id <$> st_users s);
  unique_roles : NoDup (Role_key <$> st_roles s);
  unique_groups : NoDup (Group_id <$> st_groups s);
  unique_channels : NoDup (Channel_id <$> st_channels s);
  (** One active voice channel per user. *)
  unique_memberships : NoDup (Membership_user_id <$> st_voice_memberships s);
}.

(** ** Lemmas: upserts *)

Lemma upsert_keys {T I} `{EqDecision I} (items : list T) (item : T) (key : T → I) :
  key <$> upsert_by_id items item key =
  if decide (key item ∈ key <$> items) then key <$> items else (key <$> items) ++ [key item].
Proof.
  unfold upsert_by_id. destruct (list_find _ items) as [[n x]|] eqn:Hf.
  - apply list_find_Some in Hf as (Hn & Hx & _). rewrite decide_True.
    + rewrite list_fmap_insert, list_insert_id; [done|]. by rewrite list_lookup_fmap, Hn, <- Hx.
    + rewrite <- Hx. apply list_elem_of_fmap_2. by eapply list_elem_of_lookup_2.
  - apply list_find_None in Hf. rewrite decide_False; [by rewrite fmap_app|].
    intros (y & Hy & Hin)%list_elem_of_fmap. rewrite Forall_forall in Hf. by apply (Hf y).
Qed.

Lemma upsert_NoDup {T I} `{EqDecision I} (items : list T) (item : T) (key : T → I) :
  NoDup (key <$> items) → NoDup (key <$> upsert_by_id items item key).
Proof.
  intros Hnd. rewrite upsert_keys. destruct (decide _); [done|].
  apply NoDup_app. split_and!; [done| |apply NoDup_singleton].
  intros x Hx ->%list_elem_of_singleton. done.
Qed.

(** After an upsert the entity is the new one and every other one is kept. *)
Lemma upsert_elem {T I} `{EqDecision I} (items : list T) (item x : T) (key : T → I) :
  NoDup (key <$> items) →
  x ∈ upsert_by_id items item key ↔ x = item ∨ (x ∈ items ∧ key x ≠ key item).
Proof.
  intros Hnd. unfold upsert_by_id. destruct (list_find _ items) as [[n y]|] eqn:Hf.
  - apply list_find_Some in Hf as (Hn & Hy & _). split.
    + intros (i & Hi)%list_elem_of_lookup. destruct (decide (n = i)) as [<-|Hne].
      * rewrite list_lookup_insert_eq in Hi by by eapply lookup_lt_Some. left. congruence.
      * rewrite list_lookup_insert_ne in Hi by done. right.
        split; [by eapply list_elem_of_lookup_2|]. intros Hk. apply Hne.
        eapply (NoDup_lookup (key <$> items) _ _ (key item)); [done| |];
          rewrite list_lookup_fmap, ?Hn, ?Hi; simpl; congruence.
    + intros [->|[(i & Hi)%list_elem_of_lookup Hk]].
      * eapply list_elem_of_lookup_2, list_lookup_insert_eq. by eapply lookup_lt_Some.
      * apply (list_elem_of_lookup_2 _ i). rewrite list_lookup_insert_ne; [done|].
        intros ->. congruence.
  - apply list_find_None in Hf. rewrite Forall_forall in Hf.
    rewrite elem_of_app, list_elem_of_singleton. split.
    + intros [Hin| ->]; [right|by left]. split; [done|by apply Hf].
    + intros [->|[? _]]; [by right|by left].
Qed.

Lemma filter_NoDup {T I} (key : T → I) (P : T → Prop) `{∀ x, Decision (P x)} (items : list T) :
  NoDup (key <$> items) → NoDup (key <$> filter P items).
Proof. intros Hnd. eapply sublist_NoDup; [exact Hnd|]. apply fmap_sublist, sublist_filter. Qed.

Lemma upsert_membership_eq items item :
  upsert_membership items item = upsert_by_id items item Membership_user_id.
Proof. reflexivity. Qed.

Lemma upsert_by_key_eq {T K} `{EqDecision K} (items : list T) (item : T) (key : T → K) :
  upsert_by_key items item key = upsert_by_id items item key.
Proof. reflexivity. Qed.

(** ** Lemmas: the event table *)

Definition applied_events : list (list string) :=
  [["group.created"; "group.updated"]; ["group.deleted"]; ["channel.created"; "channel.updated"];
   ["channel.deleted"]; ["channel.member.joined"]; ["channel.member.left"];
   ["user.created"; "user.updated"; "presence.updated"]; ["user.deleted"]; ["self.updated"];
   ["rbac.role.created"; "rbac.role.updated"]; ["rbac.role.deleted"]; ["voice.authority.updated"];
   ["voice.revoked"; "voice.disconnected"; "voice.membership.updated"];
   ["group.access.updated"; "acl.updated"; "channel.access.updated";
    "rbac.binding.updated"; "rbac.config.updated"; "owner.transferred";
    "moderation.mute.updated"; "moderation.mute.removed"; "server.updated"]]%string.

(** Every known event has a rule: the two tables agree. *)
Lemma known_events_have_rules :
  Forall (λ t, existsb (λ l, one_of l t) applied_events || is_visibility_state_event t = true)
    known_state_events.
Proof. repeat constructor. Qed.

Lemma rules_are_known :
  Forall (λ t, is_known_state_event t = true) (concat applied_events).
Proof. repeat constructor. Qed.

Lemma visibility_events_are_known :
  Forall (λ t, is_known_state_event t = true)
    ["visibility.grant.begin"; "visibility.fragment"; "visibility.granted";
     "visibility.revoked"; "visibility.tombstone"; "visibility.transition.complete"]%string.
Proof. repeat constructor. Qed.

Section projection_lemmas.
Context {V : Type} `{PayloadDecoders V}.
Implicit Types event : StateEvent V.

Lemma payload_error {T} (from_value : V → result string T) event e :
  payload from_value event = Err e → ∃ m, e = InvalidPayload (ev_event_type event) m.
Proof. unfold payload. destruct (from_value _); simpl; [done|]. intros [= <-]. eauto. Qed.

(** The only errors of an application: the payload's, or the table's last rows. *)
Lemma apply_error state event e :
  apply_known_event state event = Err e →
  (∃ m, e = InvalidPayload (ev_event_type event) m) ∨
  (is_visibility_state_event (ev_event_type event) = true ∧
   e = ApplySnapshotRequired (ev_event_type event)) ∨
  (is_visibility_state_event (ev_event_type event) = false ∧
   existsb (λ l, one_of l (ev_event_type event)) applied_events = false ∧
   e = UnknownEvent (ev_event_type event)).
Proof.
  assert (∀ (T : Type) (f : V → result string T) (k : T → ClientState) e0,
    result_bind (payload f event) (λ x, Ok (k x)) = Err e0 →
    ∃ m, e0 = InvalidPayload (ev_event_type event) m) as Hp.
  { intros T f k e0 He. destruct (payload f event) eqn:Hf; simpl in He; [done|].
    simplify_eq. by eapply payload_error. }
  unfold apply_known_event. intros He.
  repeat match type of He with
  | (if one_of ?l ?t then _ else _) = _ =>
      destruct (one_of l t) eqn:?; [first [left; exact (Hp _ _ _ _ He) | by simplify_eq]|]
  end.
  destruct (is_visibility_state_event (ev_event_type event)) eqn:Hvis; simplify_eq; [by right; left|].
  right. right. split_and!; [done| |done]. unfold applied_events. cbn [existsb].
  repeat match goal with H : one_of _ _ = false |- _ => rewrite H; clear H end. done.
Qed.

(** Every rule keeps the entities unique. *)
Lemma apply_keeps_unique state event state' :
  apply_known_event state event = Ok state' →
  projection_ok state → projection_ok state'.
Proof.
  intros He [Hu Hr Hg Hc Hm]. unfold apply_known_event in He.
  repeat match type of He with
  | (if one_of ?l ?t then _ else _) = _ => destruct (one_of l t) eqn:?
  | result_bind _ _ = Ok _ => apply result_bind_ok in He as (? & _ & He)
  end; simplify_eq; try (constructor; simpl; try done; by
    first [apply upsert_NoDup | apply filter_NoDup]); try done.
  - destruct (Self_voice_authority (st_self_user state)); [case_match|];
      constructor; simpl; try done; by apply filter_NoDup.
  - by case_match.
Qed.

Lemma validate_event_ok event current :
  validate_event event current = Ok tt →
  ev_frame_type event = "state.event"%string ∧ ev_class event = "state"%string ∧
  st_geid current < ev_geid event ∧ is_known_state_event (ev_event_type event) = true ∧
  (scope_kind (ev_scope event) = "server"%string ↔ scope_id (ev_scope event) = None) ∧
  (∀ k, expected_scope_kind (ev_event_type event) = Some k → scope_kind (ev_scope event) = k).
Proof.
  unfold validate_event. intros Hv.
  destruct (_ || _) eqn:H1 in Hv; [done|]. destruct (str_is_empty _); [done|].
  destruct (Z.leb_spec (ev_geid event) (st_geid current)); [done|].
  destruct (is_known_state_event _) eqn:Hk; simpl in Hv; [|done].
  destruct (negb _ && _ && _) eqn:H2 in Hv; [done|].
  destruct (negb _ && _) eqn:H3 in Hv; [done|]. destruct (_ && negb _) eqn:H4 in Hv; [done|].
  apply result_bind_ok in Hv as ([] & Hs & _). to_props.
  split_and!; try done; try lia.
  - destruct H3 as [H3|H3], H4 as [H4|H4]; to_props; tauto.
  - intros k Hk'. rewrite Hk' in Hs. by destruct (decide (scope_kind (ev_scope event) = k));
      [|rewrite bool_decide_eq_false_2 in Hs].
Qed.
(** The cursor of a state plays no part in the projection of an event. *)
Lemma validate_event_cursor event c current :
  validate_event event (set_cursor c current) = validate_event event current.
Proof. done. Qed.

Lemma apply_known_event_cursor state event c :
  apply_known_event (set_cursor c state) event =
  result_map (set_cursor c) (apply_known_event state event).
Proof.
  unfold apply_known_event. repeat case_match; try done;
    match goal with |- result_bind ?p _ = result_map _ (result_bind ?p _) => destruct p end;
    simpl; try done; repeat case_match; done.
Qed.
End projection_lemmas.

(** ** Payloads small enough to evaluate, for the witnesses *)

Module ToyPayload.
Inductive value :=
| VGroup (g : Group)
| VChannel (c : Channel)
| VTombstone (id : Z)
| VMembership (m : VoiceMembership)
| VUser (u : UserPresence)
| VAuthority (a : option VoiceAuthority)
| VOther.

Definition expect {T} (o : option T) : result string T := ok_or "unexpected"%string o.

#[global] Instance decoders : PayloadDecoders value := {|
  as_group v := expect (match v with VGroup g => Some g | _ => None end);
  as_entity_tombstone v :=
    expect (match v with VTombstone id => Some (mkEntityTombstone id) | _ => None end);
  as_channel v := expect (match v with VChannel c => Some c | _ => None end);
  as_membership v := expect (match v with VMembership m => Some (mkMembershipEnvelope m) | _ => None end);
  as_membership_tombstone _ := Err "unexpected"%string;
  as_user v := expect (match v with VUser u => Some (mkUserEnvelope u) | _ => None end);
  as_user_tombstone v := expect (match v with VTombstone id => Some (mkUserTombstone id) | _ => None end);
  as_self _ := Err "unexpected"%string;
  as_role _ := Err "unexpected"%string;
  as_role_tombstone _ := Err "unexpected"%string;
  as_authority v := expect (match v with VAuthority a => Some (mkAuthorityEnvelope a) | _ => None end);
|}.

Definition channel (id group : Z) : Channel :=
  mkChannel id (Some group) "c" "voice" false "public" 10 0 false "1".

Definition event (geid : Z) (kind : string) (id : option Z) (event_type : string) (data : value)
    : StateEvent value :=
  mkStateEvent "state.event" geid "cursorA" "state" (mkEventScope kind id) event_type None 5 data.

(** Two channels of group 7, one member and the user's own voice authority in
    channel 8. *)
Definition state : ClientState :=
  set_self (set_authority (Some (mkVoiceAuthority 8 (replicate 16 2) (replicate 16 3) "g"))
              (st_self_user (from_snapshot (toy_snapshot "cursor0" 10))))
    (set_memberships [mkVoiceMembership 1 8 0]
       (set_channels [channel 8 7; channel 9 7]
          (set_groups [mkGroup 7 "g" 0 "public" "1"] (from_snapshot (toy_snapshot "cursor0" 10))))).
End ToyPayload.

(** ** Properties *)

(** The closed event table and the projection rules agree. An event that passes
    validation is never refused as unknown: it is projected, or its payload is
    malformed, or it is a visibility transition and asks for a snapshot; and
    validation only lets GEIDs after the current one through. *)
Theorem validated_events_have_rules {V} `{PayloadDecoders V} (state : ClientState)
    (event : StateEvent V) :
  validate_event event state = Ok tt →
  st_geid state < ev_geid event ∧
  match apply_known_event state event with
  | Ok _ => True
  | Err (InvalidPayload t _) => t = ev_event_type event
  | Err (ApplySnapshotRequired t) =>
      t = ev_event_type event ∧ is_visibility_state_event t = true
  | Err _ => False
  end.
Proof.
  intros (_ & _ & Hg & Hk & _)%validate_event_ok. split; [done|].
  destruct (apply_known_event state event) as [|e] eqn:He; [done|].
  apply apply_error in He as [[m ->]|[[Hv ->]|(Hv & Hno & ->)]]; [done..|].
  apply bool_decide_eq_true in Hk. pose proof known_events_have_rules as Hall.
  rewrite Forall_forall in Hall. specialize (Hall _ Hk). by rewrite Hno, Hv in Hall.
Qed.

Lemma validated_events_have_rules_witness :
  apply_known_event ToyPayload.state
    (ToyPayload.event 11 "group" (Some 7) "visibility.revoked" ToyPayload.VOther)
  = Err (ApplySnapshotRequired "visibility.revoked") ∧ 10 < 11.
Proof.
  pose proof (validated_events_have_rules ToyPayload.state
    (ToyPayload.event 11 "group" (Some 7) "visibility.revoked" ToyPayload.VOther)) as H.
  destruct H as [Hg Ha]; [reflexivity|]. split; [reflexivity|]. exact Hg.
Defined.

(** C34: projecting an event keeps users, roles, groups and channels unique by their
    identifier, and every user in at most one voice channel. *)
Theorem projection_keeps_entities_unique {V} `{PayloadDecoders V} (state state' : ClientState)
    (event : StateEvent V) :
  projection_ok state → apply_known_event state event = Ok state' → projection_ok state'.
Proof. intros. by eapply apply_keeps_unique. Qed.

Lemma toy_state_ok : projection_ok ToyPayload.state.
Proof.
  constructor; simpl; repeat (constructor; [set_solver|]); constructor.
Qed.

Lemma projection_keeps_entities_unique_witness :
  ∃ s, apply_known_event ToyPayload.state
    (ToyPayload.event 11 "channel" (Some 8) "channel.updated"
       (ToyPayload.VChannel (ToyPayload.channel 8 6))) = Ok s ∧
    NoDup (Channel_id <$> st_channels s).
Proof.
  eexists. split; [vm_compute; reflexivity|].
  refine (unique_channels _ (projection_keeps_entities_unique ToyPayload.state _
    (ToyPayload.event 11 "channel" (Some 8) "channel.updated"
       (ToyPayload.VChannel (ToyPayload.channel 8 6))) toy_state_ok _)).
  vm_compute. reflexivity.
Defined.

(** What the create, update and delete rules leave behind. An upserted channel
    replaces the one with its identifier and no other; deleting a channel removes
    its memberships and the user's own voice authority in it; deleting a group
    removes its channels and nothing else of the voice state. *)
Theorem projection_effects {V} `{PayloadDecoders V} (state state' : ClientState)
    (event : StateEvent V) :
  projection_ok state → apply_known_event state event = Ok state' →
  (ev_event_type event = "channel.updated"%string →
     ∃ c, as_channel (ev_data event) = Ok c ∧
       ∀ x, x ∈ st_channels state' ↔ x = c ∨ (x ∈ st_channels state ∧ Channel_id x ≠ Channel_id c)) ∧
  (ev_event_type event = "channel.deleted"%string →
     ∃ d, as_entity_tombstone (ev_data event) = Ok d ∧
       (∀ c, c ∈ st_channels state' ↔ c ∈ st_channels state ∧ Channel_id c ≠ entity_id d) ∧
       (∀ m, m ∈ st_voice_memberships state' ↔
          m ∈ st_voice_memberships state ∧ Membership_channel_id m ≠ entity_id d) ∧
       (∀ a, Self_voice_authority (st_self_user state') = Some a → Authority_channel_id a ≠ entity_id d)) ∧
  (ev_event_type event = "group.deleted"%string →
     ∃ d, as_entity_tombstone (ev_data event) = Ok d ∧
       (∀ g, g ∈ st_groups state' ↔ g ∈ st_groups state ∧ Group_id g ≠ entity_id d) ∧
       (∀ c, c ∈ st_channels state' ↔
          c ∈ st_channels state ∧ Channel_group_id c ≠ Some (entity_id d)) ∧
       st_voice_memberships state' = st_voice_memberships state ∧
       st_self_user state' = st_self_user state).
Proof.
  intros Hok He. split_and!; intros Ht; unfold apply_known_event in He; rewrite Ht in He;
    vm_compute (one_of _ _) in He; cbv iota in He;
    apply result_bind_ok in He as (d & Hd%map_err_ok & He); exists d; (split; [done|]).
  - simplify_eq. simpl. intros x. apply upsert_elem. by destruct Hok.
  - simpl in He. destruct (Self_voice_authority (st_self_user state)) as [a|] eqn:Ha;
      [destruct (Z.eqb_spec (Authority_channel_id a) (entity_id d))|]; simplify_eq; simpl;
      split_and!; try (intros *; rewrite list_elem_of_filter; tauto);
      intros b Hb; simpl in Hb; rewrite ?Ha in Hb; by simplify_eq.
  - simplify_eq. simpl. split_and!; intros *; rewrite ?list_elem_of_filter; try tauto; done.
Qed.

Lemma projection_effects_witness :
  ∃ s, apply_known_event ToyPayload.state
    (ToyPayload.event 11 "channel" (Some 8) "channel.deleted" (ToyPayload.VTombstone 8)) = Ok s ∧
    st_voice_memberships s = [] ∧
    ∀ a, Self_voice_authority (st_self_user s) = Some a → Authority_channel_id a ≠ 8.
Proof.
  pose proof (projection_effects ToyPayload.state
    (set_self (set_authority None (st_self_user ToyPayload.state))
       (set_memberships [] (set_channels [ToyPayload.channel 9 7] ToyPayload.state)))
    (ToyPayload.event 11 "channel" (Some 8) "channel.deleted" (ToyPayload.VTombstone 8))
    toy_state_ok) as H.
  destruct H as (_ & Hdel & _); [reflexivity|].
  destruct (Hdel eq_refl) as (d & Hd & _ & _ & Ha). vm_compute in Hd. injection Hd as <-.
  eexists. split; [reflexivity|]. split; [reflexivity|]. exact Ha.
Defined.
