(* ===== verification/StateStore.v ===== *)
(** The atomic state store and its ordered event receivers
    (crates/zephyrvox-realtime/src/state.rs).

    The write lock makes each operation one step on the store. The broadcast
    channels are tokio's: the class [Broadcast] has the operations the store uses
    and the laws it relies on. Channels are numbered; a snapshot replacement
    installs the next one. *)

From S2P Require Import Prelude Text Types Json ClientModel RealtimeTypes Projection.

Inductive TryRecvError :=
| RecvEmpty
| RecvClosed
| RecvLagged (missed : Z).

Class Broadcast (E : Type) := {
  Chan : Type;
  Rx : Type;
  chan_new : Chan;
  chan_send : E → Chan → Chan;
  chan_subscribe : Chan → Rx;
  chan_try_recv : Chan → Rx → result TryRecvError E * Rx;
  chan_resubscribe : Chan → Rx → Rx;
  (** The messages sent so far. *)
  chan_sent : Chan → list E;
  chan_sent_new : chan_sent chan_new = [];
  chan_sent_send e c : chan_sent (chan_send e c) = chan_sent c ++ [e];
  (** A receiver only yields messages of its channel. *)
  chan_recv_sent c r e r' : chan_try_recv c r = (Ok e, r') → e ∈ chan_sent c;
  (** A new receiver only sees what is sent after it subscribed. *)
  chan_subscribe_fresh c : (chan_try_recv c (chan_subscribe c)).1 = Err RecvEmpty;
}.

Inductive ApplyOutcome := Applied.

Section store.
Context {V : Type} `{PayloadDecoders V, Broadcast (StateEvent V)}.

Record StateStore := mkStateStore {
  state : ClientState;
  (** What the state watch channel holds. *)
  state_tx : ClientState;
  (** Every event channel so far; the last one is current. *)
  chans : list Chan;
  event_tx : nat;
  event_generation : Z;
}.

Definition store_from_snapshot (snapshot : StateSnapshot) : StateStore :=
  let s := from_snapshot snapshot in mkStateStore s s [chan_new] 0 0.

Definition snapshot (store : StateStore) : ClientState := state store.

Definition replace_snapshot (new : StateSnapshot) (store : StateStore)
    : option VoiceAuthority * StateStore :=
  let replacement := from_snapshot new in
  let voice_lost :=
    match Self_voice_authority (st_self_user (state store)),
          Self_voice_authority (st_self_user replacement) with
    | Some previous, Some next => if decide (previous = next) then None else Some previous
    | Some previous, None => Some previous
    | None, _ => None
    end in
  (voice_lost,
   mkStateStore replacement replacement (chans store ++ [chan_new]) (length (chans store))
     (wrapping_add_u64 (event_generation store) 1)).

Definition update_cursor (cursor : string) (store : StateStore) : StateStore :=
  let next := set_cursor cursor (state store) in
  mkStateStore next next (chans store) (event_tx store) (event_generation store).

Definition send_event (event : StateEvent V) (store : StateStore) : list Chan :=
  alter (chan_send event) (event_tx store) (chans store).

Definition apply_event (event : StateEvent V) : se StateStore StateApplyError ApplyOutcome :=
  λ store,
    match validate_event event (state store) with
    | Err e => (Err e, store)
    | Ok _ =>
        match apply_known_event (state store) event with
        | Err e => (Err e, store)
        | Ok next =>
            let next := set_geid (ev_geid event) (set_cursor (ev_cursor event) next) in
            (Ok Applied,
             mkStateStore next next (send_event event store) (event_tx store)
               (event_generation store))
        end
    end.

(** ** Event receivers *)

Record StateEventReceiver := mkReceiver {
  rx_chan : nat;
  rx : Rx;
  observed_generation : Z;
}.

Definition current_chan (store : StateStore) : Chan :=
  default chan_new (chans store !! event_tx store).

Definition receiver_new (store : StateStore) : StateEventReceiver :=
  mkReceiver (event_tx store) (chan_subscribe (current_chan store)) (event_generation store).

(** When the store is gone ([alive] is false) the weak reference no longer upgrades. *)
Definition resubscribe (store : StateStore) (alive : bool) (r : StateEventReceiver) : StateEventReceiver :=
  if alive then receiver_new store
  else mkReceiver (rx_chan r) (chan_resubscribe (default chan_new (chans store !! rx_chan r)) (rx r))
         (event_generation store).

(** The generation is read from [store], and the sender, later, from [store']. *)
Definition refresh_generation (store store' : StateStore) (alive : bool) (r : StateEventReceiver)
    : bool * StateEventReceiver :=
  if event_generation store =? observed_generation r then (true, r)
  else if alive then
    (true, mkReceiver (event_tx store') (chan_subscribe (current_chan store'))
             (event_generation store))
  else (false, r).

(** [try_recv]: [world k] is the store when the [k]-th look at it is taken, so
    that replacements may happen between two statements of the loop. [None]: the
    fuel is used up. *)
Fixpoint try_recv (fuel : nat) (world : nat → StateStore) (alive : bool) (k : nat)
    (r : StateEventReceiver) : option (result TryRecvError (StateEvent V) * StateEventReceiver) :=
  match fuel with
  | O => None
  | S f =>
      let '(open, r) := refresh_generation (world k) (world (k + 1)%nat) alive r in
      if negb open then Some (Err RecvClosed, r)
      else
        let observed := observed_generation r in
        let store := world (k + 2)%nat in
        let '(result, rx') :=
          chan_try_recv (default chan_new (chans store !! rx_chan r)) (rx r) in
        let r := mkReceiver (rx_chan r) rx' (observed_generation r) in
        match result with
        | Ok event =>
            if negb (event_generation (world (k + 3)%nat) =? observed) then
              let '(open, r) := refresh_generation (world (k + 4)%nat) (world (k + 5)%nat) alive r in
              if negb open then Some (Err RecvClosed, r)
              else try_recv f world alive (k + 6)%nat r
            else Some (Ok event, r)
        | Err e => Some (Err e, r)
        end
  end.

(** ** Invariants *)

(** The generation counts the replacements, modulo the width of the counter. *)
Record store_ok (store : StateStore) : Prop := {
  store_watch : state_tx store = state store;
  store_current : S (event_tx store) = length (chans store);
  store_generation : event_generation store = Z.of_nat (event_tx store) mod 2 ^ 64;
}.

(** The observed marker is never ahead of the channel. *)
Definition receiver_ok (store : StateStore) (r : StateEventReceiver) : Prop :=
  (rx_chan r ≤ event_tx store)%nat ∧
  ∃ n, (n ≤ rx_chan r)%nat ∧ observed_generation r = Z.of_nat n mod 2 ^ 64.

(** ** Lemmas *)

Lemma store_from_snapshot_ok s : store_ok (store_from_snapshot s).
Proof. by constructor. Qed.

Lemma replace_snapshot_ok new store : store_ok store → store_ok (replace_snapshot new store).2.
Proof.
  intros [_ Hc Hg]. constructor; simpl; [done|rewrite length_app; simpl; lia|].
  unfold wrapping_add_u64. rewrite Hg, Zplus_mod_idemp_l. f_equal. lia.
Qed.

Lemma update_cursor_ok c store : store_ok store → store_ok (update_cursor c store).
Proof. intros []. by constructor. Qed.

Lemma apply_event_ok event store : store_ok store → store_ok (apply_event event store).2.
Proof.
  intros Hok. pose proof Hok as []. unfold apply_event.
  destruct (validate_event _ _); [|done]. destruct (apply_known_event _ _); [|done].
  constructor; simpl; try done. unfold send_event. by rewrite length_alter.
Qed.

(** A successful application, and that a failed one changes nothing. *)
Lemma apply_event_spec event store :
  match apply_event event store with
  | (Ok _, store') =>
      validate_event event (state store) = Ok tt ∧
      (∃ next, apply_known_event (state store) event = Ok next ∧
         state store' = set_geid (ev_geid event) (set_cursor (ev_cursor event) next)) ∧
      state_tx store' = state store' ∧
      chans store' = send_event event store ∧ event_tx store' = event_tx store ∧
      event_generation store' = event_generation store
  | (Err e, store') => store' = store ∧
      (validate_event event (state store) = Err e ∨
       validate_event event (state store) = Ok tt ∧ apply_known_event (state store) event = Err e)
  end.
Proof.
  unfold apply_event. destruct (validate_event _ _) as [[]|e] eqn:Hv; [|by auto].
  destruct (apply_known_event _ _) as [next|e] eqn:Ha; [|by auto]. simpl. by split_and!; eauto.
Qed.

(** The world advances: later looks see at least as many replacements, and the
    stores are well formed. *)
Definition world_ok (world : nat → StateStore) : Prop :=
  (∀ k, store_ok (world k) ∧ Z.of_nat (event_tx (world k)) < 2 ^ 64) ∧
  (∀ j k, (j ≤ k)%nat → (event_tx (world j) ≤ event_tx (world k))%nat).

Lemma receiver_later world j k r :
  world_ok world → (j ≤ k)%nat → receiver_ok (world j) r → receiver_ok (world k) r.
Proof. intros [_ Hm] Hjk [Hle Hobs]. split; [|done]. specialize (Hm j k Hjk). lia. Qed.

Lemma refresh_ok world j k alive r open r' :
  world_ok world → (j ≤ k)%nat → receiver_ok (world j) r →
  refresh_generation (world j) (world k) alive r = (open, r') → receiver_ok (world k) r'.
Proof.
  intros Hw Hjk Hr Hrf. unfold refresh_generation in Hrf.
  destruct (event_generation (world j) =? observed_generation r).
  { simplify_eq. by apply (receiver_later world j). }
  destruct alive; simplify_eq; [|by apply (receiver_later world j)].
  destruct Hw as [Hok Hm]. split; simpl; [done|]. exists (event_tx (world j)).
  split; [by apply Hm|]. by apply store_generation, Hok.
Qed.

(** What [try_recv] returns was sent on the channel that is current when it is
    returned: nothing buffered before a replacement gets through. *)
Lemma try_recv_spec fuel world alive k r event r' :
  world_ok world → receiver_ok (world k) r →
  try_recv fuel world alive k r = Some (Ok event, r') →
  ∃ j, (k ≤ j)%nat ∧ rx_chan r' = event_tx (world (S j)) ∧
    ∃ c, chans (world j) !! event_tx (world (S j)) = Some c ∧ event ∈ chan_sent c.
Proof.
  intros Hw. revert k r. induction fuel as [|f IH]; intros k r Hr Hrun; simpl in Hrun; [done|].
  pose proof Hw as [Hok Hmono].
  destruct (refresh_generation (world k) (world (k + 1)%nat) alive r) as [open r1] eqn:Href.
  apply refresh_ok in Href as Hr1; [|done|lia|done].
  destruct open; simpl in Hrun; [|done].
  destruct (chan_try_recv _ (rx r1)) as [res rx'] eqn:Hrecv. destruct res as [e|e]; [|done].
  destruct (Z.eqb_spec (event_generation (world (k + 3)%nat)) (observed_generation r1))
    as [Heq|Hne]; simpl in Hrun.
  - simplify_eq. exists (k + 2)%nat. split; [lia|]. simpl.
    replace (S (k + 2)) with (k + 3)%nat by lia.
    destruct (Hok (k + 3)%nat) as [[_ _ Hg] Hlt]. destruct Hr1 as (Hle & n & Hn & Hobs).
    pose proof (Hmono (k + 1) (k + 2) ltac:(lia))%nat.
    pose proof (Hmono (k + 2) (k + 3) ltac:(lia))%nat.
    assert (rx_chan r1 = event_tx (world (k + 3)%nat)) as Hch.
    { rewrite Hg, Hobs, !Z.mod_small in Heq by lia. lia. }
    split; [done|]. rewrite <- Hch.
    destruct (chans (world (k + 2)%nat) !! rx_chan r1) as [c|] eqn:Hc.
    + exists c. split; [done|]. by eapply chan_recv_sent.
    + apply lookup_ge_None in Hc. destruct (Hok (k + 2)%nat) as [[_ Hlen _] _]. lia.
  - set (r2 := mkReceiver (rx_chan r1) rx' (observed_generation r1)) in *.
    destruct (refresh_generation (world (k + 4)%nat) (world (k + 5)%nat) alive r2)
      as [open2 r3] eqn:Href2.
    apply refresh_ok in Href2 as Hr3; [|done|lia|]; cycle 1.
    { apply (receiver_later world (k + 1)); [done|lia|]. by destruct Hr1. }
    destruct open2; simpl in Hrun; [|done].
    destruct (IH (k + 6)%nat r3) as (j & Hj & ?); [|done|].
    { apply (receiver_later world (k + 5)); [done|lia|done]. }
    exists j. split; [lia|done].
Qed.
End store.

Arguments StateStore V {_}.

(** Channels that keep everything, for the witnesses. *)
Module ToyBroadcast.
#[global] Instance chan (E : Type) : Broadcast E.
Proof.
  refine {|
    Chan := list E;
    Rx := nat;
    chan_new := [];
    chan_send e c := c ++ [e];
    chan_subscribe c := length c;
    chan_try_recv c r :=
      match c !! r with Some e => (Ok e, S r) | None => (Err RecvEmpty, r) end;
    chan_resubscribe c _ := length c;
    chan_sent c := c;
  |}; try done.
  - intros c r e r' Hr. destruct (c !! r) eqn:Hc; simplify_eq. by eapply list_elem_of_lookup_2.
  - intros c. by rewrite lookup_ge_None_2.
Defined.
End ToyBroadcast.

(** ** Properties *)

(** C10: applying an event is atomic. A rejected event leaves the whole store as it
    was; an accepted one passed validation and its rule, moves the GEID strictly
    forward, installs the event's cursor, publishes the new state to the watchers
    and the event, after it, to the current event channel; the generation does not
    change. *)
Theorem apply_event_atomic {V} `{PayloadDecoders V, Broadcast (StateEvent V)}
    (event : StateEvent V) (store : StateStore V) :
  store_ok store → projection_ok (state store) →
  match apply_event event store with
  | (Ok _, store') =>
      store_ok store' ∧ projection_ok (state store') ∧
      st_geid (state store) < st_geid (state store') ∧ st_geid (state store') = ev_geid event ∧
      st_cursor (state store') = ev_cursor event ∧ state_tx store' = state store' ∧
      chan_sent (current_chan store') = chan_sent (current_chan store) ++ [event] ∧
      event_generation store' = event_generation store
  | (Err e, store') => store' = store ∧
      (validate_event event (state store) = Err e ∨
       validate_event event (state store) = Ok tt ∧ apply_known_event (state store) event = Err e)
  end.
Proof.
  intros Hok Hp. pose proof (apply_event_spec event store) as Hs.
  pose proof (apply_event_ok event store Hok) as Hok'.
  destruct (apply_event event store) as [[[]|e] store']; [|done].
  destruct Hs as (Hv & (next & Ha & Hst) & Htx & Hch & Hcur & Hgen).
  apply validate_event_ok in Hv as (_ & _ & Hlt & _). rewrite Hst. simpl.
  split_and!; try done.
  - destruct (apply_keeps_unique _ _ _ Ha Hp). by constructor.
  - congruence.
  - unfold current_chan. rewrite Hch, Hcur. unfold send_event.
    rewrite list_lookup_alter_eq. destruct Hok as [_ Hl _].
    destruct (lookup_lt_is_Some_2 (chans store) (event_tx store)) as [c Hc]; [lia|].
    rewrite Hc. simpl. apply chan_sent_send.
Qed.

Definition toy_store : StateStore ToyPayload.value := store_from_snapshot (toy_snapshot "cursor0" 10).

Lemma toy_store_projection : projection_ok (state toy_store).
Proof. constructor; constructor. Qed.

Lemma apply_event_atomic_witness :
  ∃ store', apply_event (ToyPayload.event 12 "server" None "server.updated" ToyPayload.VOther) toy_store
            = (Ok Applied, store') ∧ st_geid (state store') = 12.
Proof.
  pose proof (apply_event_atomic
    (ToyPayload.event 12 "server" None "server.updated" ToyPayload.VOther) toy_store
    (store_from_snapshot_ok _) toy_store_projection) as Hs.
  assert (∃ store', apply_event
    (ToyPayload.event 12 "server" None "server.updated" ToyPayload.VOther) toy_store
    = (Ok Applied, store')) as [store' Hrun] by (eexists; reflexivity).
  rewrite Hrun in Hs. exists store'. split; [exact Hrun|]. apply Hs.
Defined.

(** An ordered event receiver never delivers an event from before the latest
    snapshot replacement, even when replacements happen between the statements of
    [try_recv]: what it returns was sent on the channel that is current when the
    receiver last looks. *)
Theorem receiver_respects_snapshot_boundary {V} `{PayloadDecoders V, Broadcast (StateEvent V)}
    (fuel : nat) (world : nat → StateStore V) (alive : bool) (event : StateEvent V)
    (r' : StateEventReceiver) :
  world_ok world →
  try_recv fuel world alive 0 (receiver_new (world 0%nat)) = Some (Ok event, r') →
  ∃ j, rx_chan r' = event_tx (world (S j)) ∧
    ∃ c, chans (world j) !! event_tx (world (S j)) = Some c ∧ event ∈ chan_sent c.
Proof.
  intros Hw Hrun. eapply try_recv_spec in Hrun as (j & _ & ? & ?); [eauto|done|].
  split; simpl; [done|]. exists (event_tx (world 0%nat)). split; [done|].
  by apply store_generation, Hw.
Qed.

(** A world where an event arrives after the receiver subscribed. *)
Definition toy_world (k : nat) : StateStore ToyPayload.value :=
  match k with
  | O => toy_store
  | _ => (apply_event (ToyPayload.event 12 "server" None "server.updated" ToyPayload.VOther)
            toy_store).2
  end.

Lemma toy_world_ok : world_ok toy_world.
Proof.
  assert (store_ok (toy_world 1)) as H1 by apply apply_event_ok, store_from_snapshot_ok.
  assert (event_tx (toy_world 1) = 0%nat) as Htx by (vm_compute; reflexivity).
  assert (∀ k, event_tx (toy_world k) = 0%nat) as Hall by (intros [|k]; [reflexivity|exact Htx]).
  split; [|intros; rewrite !Hall; lia].
  intros k. split; [|by rewrite Hall]. destruct k; [apply store_from_snapshot_ok|exact H1].
Qed.

Definition toy_event : StateEvent ToyPayload.value :=
  ToyPayload.event 12 "server" None "server.updated" ToyPayload.VOther.

Definition toy_receiver : StateEventReceiver :=
  match try_recv 1 toy_world true 0 (receiver_new (toy_world 0%nat)) with
  | Some (_, r) => r
  | None => receiver_new (toy_world 0%nat)
  end.

Lemma receiver_respects_snapshot_boundary_witness :
  try_recv 1 toy_world true 0 (receiver_new (toy_world 0%nat)) =
    Some (Ok toy_event, toy_receiver) ∧
  ∃ j, rx_chan toy_receiver = event_tx (toy_world (S j)).
Proof.
  assert (try_recv 1 toy_world true 0 (receiver_new (toy_world 0%nat)) =
    Some (Ok toy_event, toy_receiver)) as Hrun by (vm_compute; reflexivity).
  split; [exact Hrun|].
  destruct (receiver_respects_snapshot_boundary 1 toy_world true toy_event toy_receiver
    toy_world_ok Hrun) as (j & Hj & _).
  exists j. exact Hj.
Defined.

(** An event applied after a snapshot replacement, but before an older receiver
    is polled again, is never delivered to that receiver: refreshing subscribes at
    the end of the new channel, so the receiver reports that nothing is pending. *)
Theorem events_after_replacement_are_missed {V} `{PayloadDecoders V, Broadcast (StateEvent V)}
    (store : StateStore V) (new : StateSnapshot) (event : StateEvent V) (fuel : nat) :
  store_ok store → Z.of_nat (event_tx store) < 2 ^ 64 - 1 →
  let r := receiver_new store in
  let replaced := (replace_snapshot new store).2 in
  ∀ later, apply_event event replaced = (Ok Applied, later) →
  event ∈ chan_sent (current_chan later) ∧
  ∃ r', try_recv (S fuel) (λ _, later) true 0 r = Some (Err RecvEmpty, r').
Proof.
  intros Hok Hlt r replaced later Happ.
  pose proof (replace_snapshot_ok new store Hok) as Hok1. fold replaced in Hok1.
  pose proof (apply_event_spec event replaced) as Hs. rewrite Happ in Hs.
  destruct Hs as (_ & _ & _ & Hch & Hcur & Hgen).
  destruct (lookup_lt_is_Some_2 (chans replaced) (event_tx replaced)) as [c Hc].
  { destruct Hok1 as [_ Hl _]. lia. }
  assert (chans later !! event_tx later = Some (chan_send event c)) as Hlater.
  { rewrite Hch, Hcur. unfold send_event. by rewrite list_lookup_alter_eq, Hc. }
  split.
  { unfold current_chan. rewrite Hlater. simpl. rewrite chan_sent_send. set_solver. }
  assert (event_generation later ≠ observed_generation r) as Hne.
  { rewrite Hgen. destruct Hok1 as [_ _ ->], Hok as [_ Hl Hg]. simpl in *. rewrite Hg.
    rewrite !Z.mod_small by lia. lia. }
  cbn [try_recv]. unfold refresh_generation. rewrite (proj2 (Z.eqb_neq _ _) Hne).
  cbn [negb rx_chan rx observed_generation]. unfold current_chan. rewrite Hlater. simpl.
  pose proof (chan_subscribe_fresh (chan_send event c)) as Hfresh.
  destruct (chan_try_recv (chan_send event c) (chan_subscribe (chan_send event c))) as [res rx'].
  simpl in Hfresh. subst res. eauto.
Qed.

Definition toy_replaced : StateStore ToyPayload.value :=
  (replace_snapshot (toy_snapshot "cursor2" 20) toy_store).2.

Definition toy_event30 : StateEvent ToyPayload.value :=
  ToyPayload.event 30 "server" None "server.updated" ToyPayload.VOther.

Definition toy_later : StateStore ToyPayload.value := (apply_event toy_event30 toy_replaced).2.

Lemma events_after_replacement_are_missed_witness :
  apply_event toy_event30 toy_replaced = (Ok Applied, toy_later) ∧
  ∃ r', try_recv 5 (λ _, toy_later) true 0 (receiver_new toy_store) = Some (Err RecvEmpty, r').
Proof.
  assert (apply_event toy_event30 toy_replaced = (Ok Applied, toy_later)) as Hrun
    by (vm_compute; reflexivity).
  split; [exact Hrun|].
  apply (events_after_replacement_are_missed toy_store (toy_snapshot "cursor2" 20) toy_event30 4
    (store_from_snapshot_ok _) eq_refl toy_later Hrun).
Defined.
