(* ===== verification/StateReceiver.v ===== *)
(** The blocking receive of an ordered event receiver
    (crates/zephyrvox-realtime/src/state.rs, [StateEventReceiver::recv]).

    The [select!] waits for the broadcast receiver and for the generation watch; an
    explicit sequence says which of them the task is woken by. The store moves between
    any two looks at it, as in StateStore. *)

From S2P Require Import Prelude Text Types Json ClientModel RealtimeTypes Projection StateStore.

Section recv.
Context {V : Type} `{PayloadDecoders V, Broadcast (StateEvent V)}.
Abbreviation Store := (StateStore V).
Abbreviation Received := (result TryRecvError (StateEvent V) * StateEventReceiver)%type.

(** The arms of the [select!]; the watch reports that its store is gone by an error. *)
Inductive Arm :=
| ArmReceiver
| ArmGeneration (open : bool).

(** The [select!] and what follows it. [world k] is the store at the [k]-th look.
    A receiver without a message leaves the task waiting. [None]: it still waits when
    the sequence of wakeups ends. *)
Fixpoint recv_select (world : nat → Store) (alive : bool) (k : nat) (arms : list Arm)
    (r : StateEventReceiver) : option Received :=
  match arms with
  | [] => None
  | arm :: arms =>
      let restart k r :=
        let '(open, r) := refresh_generation (world k) (world (k + 1)%nat) alive r in
        if negb open then Some (Err RecvClosed, r) else recv_select world alive (k + 2)%nat arms r in
      match arm with
      | ArmReceiver =>
          let '(result, rx') :=
            chan_try_recv (default chan_new (chans (world k) !! rx_chan r)) (rx r) in
          let r := mkReceiver (rx_chan r) rx' (observed_generation r) in
          match result with
          | Err RecvEmpty => recv_select world alive (k + 1)%nat arms r
          | _ =>
              if negb (event_generation (world (k + 1)%nat) =? observed_generation r) then
                let '(open, r) := refresh_generation (world (k + 2)%nat) (world (k + 3)%nat) alive r in
                if negb open then Some (Err RecvClosed, r) else restart (k + 4)%nat r
              else Some (result, r)
          end
      | ArmGeneration open =>
          if negb open then Some (Err RecvClosed, r)
          else
            let '(open, r) := refresh_generation (world k) (world (k + 1)%nat) alive r in
            if negb open then Some (Err RecvClosed, r) else restart (k + 2)%nat r
      end
  end.

Definition recv (world : nat → Store) (alive : bool) (k : nat) (arms : list Arm)
    (r : StateEventReceiver) : option Received :=
  let '(open, r) := refresh_generation (world k) (world (k + 1)%nat) alive r in
  if negb open then Some (Err RecvClosed, r) else recv_select world alive (k + 2)%nat arms r.

(** ** Lemmas *)

Lemma refresh_alive (store store' : Store) r : ∃ r', refresh_generation store store' true r = (true, r').
Proof. unfold refresh_generation. case_match; eauto. Qed.

(** A result of the current channel of the store: what the channel said to some
    receiver of it. *)
Definition from_current (world : nat → Store) (res : result TryRecvError (StateEvent V)) (r : StateEventReceiver)
    : Prop :=
  ∃ j c rx0, rx_chan r = event_tx (world (S j)) ∧ chans (world j) !! event_tx (world (S j)) = Some c ∧
    chan_try_recv c rx0 = (res, rx r).

(** The generation marker read after a receive tells that the channel is current. *)
Lemma generation_current world j r :
  world_ok world → receiver_ok (world j) r →
  event_generation (world (S j)) = observed_generation r → rx_chan r = event_tx (world (S j)).
Proof.
  intros [Hok Hmono] (Hle & n & Hn & Hobs) Heq.
  destruct (Hok (S j)) as [[_ _ Hg] Hlt]. pose proof (Hmono j (S j) ltac:(lia)).
  rewrite Hg, Hobs, !Z.mod_small in Heq by lia. lia.
Qed.

Lemma current_exists world j r :
  world_ok world → receiver_ok (world j) r → is_Some (chans (world j) !! rx_chan r).
Proof.
  intros [Hok _] [Hle _]. apply lookup_lt_is_Some. destruct (Hok j) as [[_ Hlen _] _]. lia.
Qed.

Lemma recv_select_spec world k arms r res r' :
  world_ok world → receiver_ok (world k) r → Forall (λ a, a ≠ ArmGeneration false) arms →
  recv_select world true k arms r = Some (res, r') →
  res ≠ Err RecvEmpty ∧ from_current world res r'.
Proof.
  intros Hw. revert k r. induction arms as [|arm arms IH]; intros k r Hr Ha Hrun; [done|].
  apply Forall_cons in Ha as [Harm Ha]. cbn [recv_select] in Hrun.
  assert (∀ k r, receiver_ok (world k) r →
    (let '(open, r) := refresh_generation (world k) (world (k + 1)%nat) true r in
     if negb open then Some (Err RecvClosed, r) else recv_select world true (k + 2)%nat arms r) = Some (res, r') →
    res ≠ Err RecvEmpty ∧ from_current world res r') as Hrestart.
  { intros i q Hq Hi. destruct (refresh_alive (world i) (world (i + 1)%nat) q) as [q' Hrf]. rewrite Hrf in Hi.
    apply (IH (i + 2)%nat q'); [|done..]. apply (receiver_later world (i + 1)); [done|lia|].
    apply (refresh_ok world i (i + 1) true q true q' Hw ltac:(lia) Hq Hrf). }
  destruct arm as [|[]]; [| |done].
  - destruct (chan_try_recv _ (rx r)) as [result rx'] eqn:Hrecv.
    destruct (current_exists world k r Hw Hr) as [c Hc]. rewrite Hc in Hrecv. cbn in Hrecv.
    set (r1 := mkReceiver (rx_chan r) rx' (observed_generation r)) in *.
    assert (receiver_ok (world k) r1) as Hr1 by exact Hr.
    assert (result = Err RecvEmpty ∨ result ≠ Err RecvEmpty) as [->|Hne]
      by (destruct result as [|[]]; [by right|by left|by right..]).
    { apply (IH (k + 1)%nat r1); [|done..]. apply (receiver_later world k); [done|lia|done]. }
    assert ((if negb (event_generation (world (k + 1)%nat) =? observed_generation r1) then
               let '(open, r) := refresh_generation (world (k + 2)%nat) (world (k + 3)%nat) true r1 in
               if negb open then Some (Err RecvClosed, r)
               else let '(open, r) := refresh_generation (world (k + 4)%nat) (world (k + 4 + 1)%nat) true r in
                    if negb open then Some (Err RecvClosed, r)
                    else recv_select world true (k + 4 + 2)%nat arms r
             else Some (result, r1)) = Some (res, r')) as Hrun' by (by destruct result as [|[]]).
    clear Hrun. destruct (Z.eqb_spec (event_generation (world (k + 1)%nat)) (observed_generation r1)) as [Heq|_].
    + cbn in Hrun'. injection Hrun' as <- <-. split; [done|].
      replace (k + 1)%nat with (S k) in Heq by lia.
      pose proof (generation_current world k r1 Hw Hr1 Heq) as Hch.
      exists k, c, (rx r). split_and!; [done| |done]. by rewrite <- Hch.
    + cbn [negb] in Hrun'. destruct (refresh_alive (world (k + 2)%nat) (world (k + 3)%nat) r1) as [r2 Hrf].
      rewrite Hrf in Hrun'. cbn [negb] in Hrun'. apply (Hrestart (k + 4)%nat r2); [|done].
      apply (receiver_later world (k + 3)); [done|lia|].
      apply (refresh_ok world (k + 2) (k + 3) true r1 true r2 Hw ltac:(lia)); [|done].
      apply (receiver_later world k); [done|lia|done].
  - cbn [negb] in Hrun. destruct (refresh_alive (world k) (world (k + 1)%nat) r) as [r1 Hrf].
    rewrite Hrf in Hrun. cbn [negb] in Hrun. apply (Hrestart (k + 2)%nat r1); [|done].
    apply (receiver_later world (k + 1)); [done|lia|].
    apply (refresh_ok world k (k + 1) true r true r1 Hw ltac:(lia) Hr Hrf).
Qed.

(** In a store that nobody moves, a message that waits for the receiver is returned at
    its first wakeup. *)
Lemma recv_quiet (store : Store) r r1 event rx' arms :
  refresh_generation store store true r = (true, r1) → event_generation store = observed_generation r1 →
  chan_try_recv (default chan_new (chans store !! rx_chan r1)) (rx r1) = (Ok event, rx') →
  recv (λ _, store) true 0 (ArmReceiver :: arms) r =
    Some (Ok event, mkReceiver (rx_chan r1) rx' (observed_generation r1)).
Proof.
  intros Hrf Hg Hrecv. unfold recv. rewrite Hrf. cbn [negb recv_select]. rewrite Hrecv. cbn.
  by rewrite Hg, Z.eqb_refl.
Qed.
End recv.

(** C39: whatever the blocking receive of a live store returns, an event, a lag or a closed
    channel, is what the current channel of the store said: a replacement that slips in
    between two statements, or while the receiver waits, never lets anything of an
    older channel through, nor an empty answer. A returned event was sent on the current
    channel. *)
Theorem recv_respects_snapshot_boundary {V} `{PayloadDecoders V, Broadcast (StateEvent V)}
    (world : nat → StateStore V) (arms : list Arm) (r r' : StateEventReceiver)
    (res : result TryRecvError (StateEvent V)) :
  world_ok world → receiver_ok (world 0%nat) r → Forall (λ a, a ≠ ArmGeneration false) arms →
  recv world true 0 arms r = Some (res, r') →
  res ≠ Err RecvEmpty ∧ from_current world res r' ∧
  ∀ event, res = Ok event →
    ∃ j c, rx_chan r' = event_tx (world (S j)) ∧ chans (world j) !! rx_chan r' = Some c ∧ event ∈ chan_sent c.
Proof.
  intros Hw Hr Ha Hrun. unfold recv in Hrun.
  destruct (refresh_alive (world 0%nat) (world (0 + 1)%nat) r) as [r1 Hrf]. rewrite Hrf in Hrun. cbn [negb] in Hrun.
  destruct (recv_select_spec world (0 + 2) arms r1 res r' Hw) as [Hne Hcur]; [|done..|].
  { apply (receiver_later world (0 + 1)); [done|lia|].
    apply (refresh_ok world 0 (0 + 1) true r true r1 Hw ltac:(lia) Hr Hrf). }
  split_and!; [done|done|]. intros event ->. destruct Hcur as (j & c & rx0 & Hch & Hc & Hrecv).
  exists j, c. rewrite Hch. split_and!; [done|done|]. by eapply chan_recv_sent.
Qed.

(** The receiver is woken twice without a message, then by a replacement, and at last by
    an event of the new channel. *)
Definition toy_worlds (k : nat) : StateStore ToyPayload.value :=
  if (k <=? 3)%nat then toy_store else if (k <=? 7)%nat then toy_replaced else toy_later.
Definition toy_arms : list Arm := [ArmReceiver; ArmReceiver; ArmGeneration true; ArmReceiver].

Lemma toy_worlds_ok : world_ok toy_worlds.
Proof.
  assert (store_ok toy_replaced) as H1 by apply replace_snapshot_ok, store_from_snapshot_ok.
  assert (store_ok toy_later) as H2 by by apply apply_event_ok.
  assert (event_tx toy_later = 1%nat) as Htx by (vm_compute; reflexivity).
  split.
  - intros k. unfold toy_worlds. destruct (k <=? 3)%nat; [split; [apply store_from_snapshot_ok|done]|].
    destruct (k <=? 7)%nat; [by split|]. split; [done|]. by rewrite Htx.
  - intros j k Hjk. unfold toy_worlds.
    destruct (Nat.leb_spec k 3), (Nat.leb_spec j 3); cbn; try lia.
    destruct (Nat.leb_spec k 7), (Nat.leb_spec j 7); rewrite ?Htx; cbn; lia.
Qed.

Definition toy_received : StateEventReceiver :=
  match recv toy_worlds true 0 toy_arms (receiver_new toy_store) with
  | Some (_, r) => r
  | None => receiver_new toy_store
  end.

Lemma recv_respects_snapshot_boundary_witness :
  recv toy_worlds true 0 toy_arms (receiver_new toy_store) = Some (Ok toy_event30, toy_received) ∧
  ∃ j, rx_chan toy_received = event_tx (toy_worlds (S j)).
Proof.
  assert (recv toy_worlds true 0 toy_arms (receiver_new toy_store) = Some (Ok toy_event30, toy_received)) as Hrun
    by (vm_compute; reflexivity).
  split; [exact Hrun|].
  destruct (recv_respects_snapshot_boundary toy_worlds toy_arms (receiver_new toy_store) toy_received (Ok toy_event30)
    toy_worlds_ok) as (_ & (j & _ & _ & Hj & _) & _); [|by repeat constructor|exact Hrun|].
  - split; [done|]. by exists 0%nat.
  - exists j. exact Hj.
Defined.
