(* ===== verification/SyncMachine.v ===== *)
(** The synchronization state machine (crates/zephyrvox-realtime/src/sync.rs): the
    phases of a control connection, the ordered GEID boundary, and the bounded
    queue of live events that arrive during a replay. *)

From Stdlib Require Import Sorted.
From S2P Require Import Prelude Text Types Json ClientModel RealtimeTypes Projection.

Definition MAX_QUEUED_LIVE_EVENTS : Z := 256.
Definition MAX_QUEUED_LIVE_BYTES : Z := Z.shiftl 1 20.

Inductive SyncPhase :=
| PDisconnected
| PConnecting
| PReady
| PSyncing
| PLive
| PReconnecting.

#[global] Instance SyncPhase_eq_dec : EqDecision SyncPhase.
Proof. solve_decision. Defined.

(** Decides the equality tests between known phases in the goal. *)
Ltac decide_phases :=
  repeat match goal with
         | |- context [bool_decide (@eq SyncPhase ?a ?b)] =>
             let v := eval vm_compute in (bool_decide (a = b)) in
             change (bool_decide (@eq SyncPhase a b)) with v
         end.

(** [{:?}] of a phase. *)
Definition phase_debug (p : SyncPhase) : string :=
  match p with
  | PDisconnected => "Disconnected"
  | PConnecting => "Connecting"
  | PReady => "Ready"
  | PSyncing => "Syncing"
  | PLive => "Live"
  | PReconnecting => "Reconnecting"
  end.

Section sync.
Context {V : Type} `{FrameDecoders V}.

Record SyncMachine := mkSyncMachine {
  phase : SyncPhase;
  sm_cursor : string;
  sm_stream_epoch : byte_list;
  sm_geid : Z;
  control_connection_id : option byte_list;
  queued_live : list (StateEvent V);
  queued_live_bytes : Z;
}.

Definition machine_new (state : ClientState) : SyncMachine :=
  mkSyncMachine PDisconnected (st_cursor state) (st_stream_epoch state) (st_geid state) None [] 0.

Definition machine_replace_snapshot (state : ClientState) (m : SyncMachine) : SyncMachine :=
  mkSyncMachine PReady (st_cursor state) (st_stream_epoch state) (st_geid state)
    (control_connection_id m) [] 0.

Definition check_stream_epoch (m : SyncMachine) (actual : byte_list) : result SyncError unit :=
  if bool_decide (sm_stream_epoch m = actual) then Ok tt
  else Err (StreamEpochChanged (sm_stream_epoch m) actual).

Definition set_phase (p : SyncPhase) (m : SyncMachine) : SyncMachine :=
  mkSyncMachine p (sm_cursor m) (sm_stream_epoch m) (sm_geid m) (control_connection_id m)
    (queued_live m) (queued_live_bytes m).

Definition clear_queue (m : SyncMachine) : SyncMachine :=
  mkSyncMachine (phase m) (sm_cursor m) (sm_stream_epoch m) (sm_geid m) (control_connection_id m) [] 0.

Definition set_connection (id : option byte_list) (m : SyncMachine) : SyncMachine :=
  mkSyncMachine (phase m) (sm_cursor m) (sm_stream_epoch m) (sm_geid m) id (queued_live m)
    (queued_live_bytes m).

Definition begin_connecting : se SyncMachine SyncError unit := λ m,
  match phase m with
  | PDisconnected | PReconnecting => (Ok tt, set_phase PConnecting m)
  | p => (Err (InvalidPhase ("cannot connect from " +:+ phase_debug p)), m)
  end.

Definition accept_ready (id : byte_list) : se SyncMachine SyncError unit := λ m,
  match phase m with
  | PConnecting | PReconnecting => (Ok tt, set_phase PReady (set_connection (Some id) m))
  | p => (Err (InvalidPhase ("connection.ready received in " +:+ phase_debug p)), m)
  end.

Definition begin_sync : se SyncMachine SyncError string := λ m,
  if bool_decide (phase m = PReady) then
    let m := clear_queue (set_phase PSyncing m) in (Ok (sm_cursor m), m)
  else (Err (InvalidPhase ("sync.hello sent in " +:+ phase_debug (phase m))), m).

Definition accept_ordered_event (event : StateEvent V) : se SyncMachine SyncError unit := λ m,
  if ev_geid event <=? sm_geid m then (Err (SyncGeidOrder (sm_geid m) (ev_geid event)), m)
  else
    (Ok tt,
     mkSyncMachine (phase m) (ev_cursor event) (sm_stream_epoch m) (ev_geid event)
       (control_connection_id m) (queued_live m) (queued_live_bytes m)).

Fixpoint accept_ordered_events (events : list (StateEvent V)) : se SyncMachine SyncError unit :=
  match events with
  | [] => se_ret tt
  | event :: rest =>
      let! _ := accept_ordered_event event in accept_ordered_events rest
  end.

Definition accept_replay (replay : SyncReplay V) : se SyncMachine SyncError unit := λ m,
  if negb (bool_decide (phase m = PSyncing)) then
    (Err (InvalidPhase ("sync.replay received in " +:+ phase_debug (phase m))), m)
  else
    match replay_events replay with
    | [] =>
        if negb (from_geid replay =? to_geid replay) || negb (from_geid replay =? sm_geid m)
        then (Err ReplayBounds, m)
        else (Ok tt, m)
    | events =>
        let first := ev_geid <$> head events in
        let last := ev_geid <$> list.last events in
        if negb (bool_decide (first = Some (from_geid replay)))
           || negb (bool_decide (last = Some (to_geid replay)))
        then (Err ReplayBounds, m)
        else accept_ordered_events events m
    end.

(** [queued_live.push(event)], with the bytes it adds. *)
Definition push_live (event : StateEvent V) (event_bytes : Z) (m : SyncMachine) : SyncMachine :=
  mkSyncMachine (phase m) (sm_cursor m) (sm_stream_epoch m) (sm_geid m) (control_connection_id m)
    (queued_live m ++ [event]) (queued_live_bytes m + event_bytes).

Definition accept_live_event (event : StateEvent V)
    : se SyncMachine SyncError (option (StateEvent V)) := λ m,
  let syncing := bool_decide (phase m = PSyncing) in
  if negb (syncing || bool_decide (phase m = PLive)) then
    (Err (InvalidPhase ("state.event received in " +:+ phase_debug (phase m))), m)
  else
    match (if syncing then ok_or QueueLimit (encoded_len event) else Ok 0) with
    | Err e => (Err e, m)
    | Ok event_bytes =>
        if syncing
           && ((MAX_QUEUED_LIVE_EVENTS <=? len (queued_live m))
               || (MAX_QUEUED_LIVE_BYTES <? saturating_add u64_max (queued_live_bytes m) event_bytes))
        then (Err QueueLimit, m)
        else
          match accept_ordered_event event m with
          | (Err e, m) => (Err e, m)
          | (Ok _, m) =>
              if syncing then (Ok None, push_live event event_bytes m) else (Ok (Some event), m)
          end
    end.

Definition accept_complete (complete : SyncComplete)
    : se SyncMachine SyncError (list (StateEvent V)) := λ m,
  if negb (bool_decide (phase m = PSyncing)) then
    (Err (InvalidPhase ("sync.complete received in " +:+ phase_debug (phase m))), m)
  else
    (Ok (queued_live m),
     mkSyncMachine PLive (complete_cursor complete) (sm_stream_epoch m) (sm_geid m)
       (control_connection_id m) [] 0).

Definition require_snapshot (reason : string) : se SyncMachine SyncError unit := λ m,
  match phase m with
  | PReady | PSyncing | PLive => (Ok tt, set_phase PReady (clear_queue m))
  | p => (Err (InvalidPhase ("sync.required received in " +:+ phase_debug p +:+ ": " +:+ reason)), m)
  end.

Definition disconnect (m : SyncMachine) : SyncMachine :=
  set_phase PDisconnected (set_connection None (clear_queue m)).

Definition reconnecting (m : SyncMachine) : SyncMachine :=
  set_phase PReconnecting (set_connection None (clear_queue m)).
End sync.

Arguments SyncMachine V : clear implicits.

(** ** Operations as values *)

(** Every operation of the public interface that changes the machine. *)
Inductive SyncOp (V : Type) :=
| OpReplaceSnapshot (state : ClientState)
| OpBeginConnecting
| OpReady (id : byte_list)
| OpBeginSync
| OpReplay (replay : SyncReplay V)
| OpLive (event : StateEvent V)
| OpComplete (complete : SyncComplete)
| OpRequire (reason : string)
| OpDisconnect
| OpReconnecting.
Arguments OpReplaceSnapshot {V} _.
Arguments OpBeginConnecting {V}.
Arguments OpReady {V} _.
Arguments OpBeginSync {V}.
Arguments OpReplay {V} _.
Arguments OpLive {V} _.
Arguments OpComplete {V} _.
Arguments OpRequire {V} _.
Arguments OpDisconnect {V}.
Arguments OpReconnecting {V}.

Section ops.
Context {V : Type} `{FrameDecoders V}.
Implicit Types (m : SyncMachine V) (op : SyncOp V) (e : StateEvent V).

Definition apply_op op : se (SyncMachine V) SyncError unit :=
  match op with
  | OpReplaceSnapshot state => se_modify (machine_replace_snapshot state)
  | OpBeginConnecting => begin_connecting
  | OpReady id => accept_ready id
  | OpBeginSync => let! _ := begin_sync in se_ret tt
  | OpReplay replay => accept_replay replay
  | OpLive event => let! _ := accept_live_event event in se_ret tt
  | OpComplete complete => let! _ := accept_complete complete in se_ret tt
  | OpRequire reason => require_snapshot reason
  | OpDisconnect => se_modify disconnect
  | OpReconnecting => se_modify reconnecting
  end.

(** A machine goes on after an operation that failed. *)
Definition run_ops (ops : list (SyncOp V)) m : SyncMachine V :=
  fold_left (λ m op, (apply_op op m).2) ops m.

(** ** The specification of the phases *)

Definition legal (p : SyncPhase) op : bool :=
  match op, p with
  | OpReplaceSnapshot _, _ | OpDisconnect, _ | OpReconnecting, _ => true
  | OpBeginConnecting, (PDisconnected | PReconnecting) => true
  | OpReady _, (PConnecting | PReconnecting) => true
  | OpBeginSync, PReady => true
  | OpReplay _, PSyncing | OpComplete _, PSyncing => true
  | OpLive _, (PSyncing | PLive) => true
  | OpRequire _, (PReady | PSyncing | PLive) => true
  | _, _ => false
  end.

Definition next_phase (p : SyncPhase) op : SyncPhase :=
  match op with
  | OpReplaceSnapshot _ | OpReady _ | OpRequire _ => PReady
  | OpBeginConnecting => PConnecting
  | OpBeginSync => PSyncing
  | OpReplay _ | OpLive _ => p
  | OpComplete _ => PLive
  | OpDisconnect => PDisconnected
  | OpReconnecting => PReconnecting
  end.

(** ** Invariant *)

Definition event_len e : Z := default 0 (encoded_len e).

Definition events_len (l : list (StateEvent V)) : Z := foldr (λ e n, event_len e + n) 0 l.

(** The live queue exists only while a replay runs, is bounded in number and in
    bytes, and holds events in stream order, none after the GEID boundary. *)
Record machine_ok m : Prop := {
  mo_idle : phase m ≠ PSyncing → queued_live m = [];
  mo_count : len (queued_live m) ≤ MAX_QUEUED_LIVE_EVENTS;
  mo_bytes : queued_live_bytes m = events_len (queued_live m);
  mo_limit : queued_live_bytes m ≤ MAX_QUEUED_LIVE_BYTES;
  mo_sorted : StronglySorted Z.lt (ev_geid <$> queued_live m);
  mo_behind : Forall (λ e, ev_geid e ≤ sm_geid m) (queued_live m);
}.

(** ** Lemmas *)

Lemma accept_ordered_spec e m :
  accept_ordered_event e m =
    if ev_geid e <=? sm_geid m then (Err (SyncGeidOrder (sm_geid m) (ev_geid e)), m)
    else (Ok tt, (accept_ordered_event e m).2).
Proof. unfold accept_ordered_event. by destruct (ev_geid e <=? sm_geid m). Qed.

(** The boundary moves to the last of the events. *)
Definition advance (l : list (StateEvent V)) m : SyncMachine V :=
  match list.last l with
  | None => m
  | Some e =>
      mkSyncMachine (phase m) (ev_cursor e) (sm_stream_epoch m) (ev_geid e) (control_connection_id m)
        (queued_live m) (queued_live_bytes m)
  end.

Lemma advance_cons e l m : advance (e :: l) m = advance l (advance [e] m).
Proof. unfold advance. rewrite last_cons. by destruct (list.last l). Qed.

Lemma advance_frame l m :
  phase (advance l m) = phase m ∧ queued_live (advance l m) = queued_live m ∧
  queued_live_bytes (advance l m) = queued_live_bytes m ∧
  sm_stream_epoch (advance l m) = sm_stream_epoch m ∧
  control_connection_id (advance l m) = control_connection_id m.
Proof. unfold advance. by destruct (list.last l). Qed.

(** A batch is accepted when it is in order; otherwise its longest ordered prefix
    has been accepted. *)
Lemma accept_ordered_events_spec l m :
  match accept_ordered_events l m with
  | (Ok _, m') => StronglySorted Z.lt (sm_geid m :: (ev_geid <$> l)) ∧ m' = advance l m
  | (Err err, m') => ∃ pre e post, l = pre ++ e :: post ∧
      StronglySorted Z.lt (sm_geid m :: (ev_geid <$> pre)) ∧ m' = advance pre m ∧
      err = SyncGeidOrder (sm_geid m') (ev_geid e) ∧ ev_geid e ≤ sm_geid m'
  end.
Proof.
  revert m. induction l as [|e l IH]; intros m; simpl.
  { split; [by repeat constructor|done]. }
  unfold se_bind. rewrite accept_ordered_spec. unfold accept_ordered_event.
  destruct (Z.leb_spec (ev_geid e) (sm_geid m)) as [Hle|Hgt].
  { exists [], e, l. by repeat constructor. }
  specialize (IH (advance [e] m)). cbn [advance list.last snd] in *.
  assert (∀ k, StronglySorted Z.lt (ev_geid e :: k) →
    StronglySorted Z.lt (sm_geid m :: ev_geid e :: k)) as Hcons.
  { intros k Hk. constructor; [done|]. inversion Hk as [|?? _ Hall]; subst.
    constructor; [lia|]. eapply Forall_impl; [exact Hall|]. intros; simpl in *; lia. }
  destruct (accept_ordered_events l _) as [[[]|err] m'].
  - destruct IH as [Hs ->]. rewrite advance_cons. csimpl in *. split; [by apply Hcons|done].
  - destruct IH as (pre & x & post & -> & Hs & -> & -> & Hle).
    exists (e :: pre), x, post. rewrite advance_cons. csimpl in *.
    split_and!; try done. by apply Hcons.
Qed.

Lemma events_len_app l1 l2 : events_len (l1 ++ l2) = events_len l1 + events_len l2.
Proof. unfold events_len. induction l1; simpl; lia. Qed.

Lemma sorted_snoc (l : list Z) x :
  StronglySorted Z.lt l → Forall (λ y, y < x) l → StronglySorted Z.lt (l ++ [x]).
Proof.
  induction 1 as [|y l Hs IH Hall]; intros Hx; simpl; [by repeat constructor|].
  inversion Hx; subst. constructor; [by apply IH|]. apply Forall_app. by repeat constructor.
Qed.

(** [accept_live_event] in terms of the boundary and the queue. *)
Lemma accept_live_spec e m :
  match accept_live_event e m with
  | (Ok out, m') =>
      sm_geid m < ev_geid e ∧
      match phase m with
      | PSyncing => out = None ∧ ∃ n, encoded_len e = Some n ∧
          len (queued_live m) < MAX_QUEUED_LIVE_EVENTS ∧
          saturating_add u64_max (queued_live_bytes m) n ≤ MAX_QUEUED_LIVE_BYTES ∧
          m' = push_live e n (advance [e] m)
      | PLive => out = Some e ∧ m' = advance [e] m
      | _ => False
      end
  | (Err err, m') => m' = m ∧
      match err with
      | InvalidPhase _ => phase m ≠ PSyncing ∧ phase m ≠ PLive
      | SyncGeidOrder c a => (phase m = PSyncing ∨ phase m = PLive) ∧
          c = sm_geid m ∧ a = ev_geid e ∧ a ≤ c
      | QueueLimit => phase m = PSyncing ∧
          (encoded_len e = None ∨ ∃ n, encoded_len e = Some n ∧
             (MAX_QUEUED_LIVE_EVENTS ≤ len (queued_live m) ∨
              MAX_QUEUED_LIVE_BYTES < saturating_add u64_max (queued_live_bytes m) n))
      | _ => False
      end
  end.
Proof.
  unfold accept_live_event, advance.
  destruct (phase m) eqn:Hp; decide_phases; cbn [negb orb andb]; try (by split; [done|split; congruence]).
  - destruct (encoded_len e) as [n|] eqn:Hn; cbn [ok_or]; [|by split_and!; auto].
    destruct (Z.leb_spec MAX_QUEUED_LIVE_EVENTS (len (queued_live m))) as [Hc|Hc]; cbn [orb andb].
    { split_and!; eauto 10. }
    destruct (Z.ltb_spec MAX_QUEUED_LIVE_BYTES (saturating_add u64_max (queued_live_bytes m) n))
      as [Hb|Hb]; cbn [andb].
    { split_and!; eauto 10. }
    unfold accept_ordered_event. destruct (Z.leb_spec (ev_geid e) (sm_geid m)); [by split_and!; auto|].
    rewrite Hp. split; [lia|]. split; [done|]. by exists n.
  - cbn [ok_or]. unfold accept_ordered_event.
    destruct (Z.leb_spec (ev_geid e) (sm_geid m)); [by split_and!; auto|]. rewrite Hp. by split.
Qed.

Lemma machine_new_ok state : machine_ok (machine_new (V:=V) state).
Proof. by repeat constructor. Qed.

(** Moving the boundary forward keeps the invariant. *)
Lemma advance_ok l m :
  StronglySorted Z.lt (sm_geid m :: (ev_geid <$> l)) → machine_ok m → machine_ok (advance l m).
Proof.
  intros Hs [Hi Hc Hb Hl Hq Hbh]. destruct (advance_frame l m) as (Hp & Hq' & Hb' & _).
  constructor; rewrite ?Hp, ?Hq', ?Hb'; try done.
  eapply Forall_impl; [exact Hbh|]. intros e He; simpl in *. unfold advance.
  destruct (list.last l) as [x|] eqn:Hx; [|done]. simpl.
  inversion Hs as [|?? _ Hall]; subst. rewrite Forall_fmap, Forall_forall in Hall.
  specialize (Hall x). unfold compose in Hall.
  assert (x ∈ l) as Hin%Hall by (by apply last_Some_elem_of). lia.
Qed.

Lemma push_live_ok e n m :
  (∀ e n, encoded_len e = Some n → is_u64 n) →
  phase m = PSyncing → sm_geid m < ev_geid e → encoded_len e = Some n →
  len (queued_live m) < MAX_QUEUED_LIVE_EVENTS →
  saturating_add u64_max (queued_live_bytes m) n ≤ MAX_QUEUED_LIVE_BYTES →
  machine_ok m → machine_ok (push_live e n (advance [e] m)).
Proof.
  intros Hlen Hp Hlt Hn Hc Hb [Hi Hc' Hb' Hl Hq Hbh].
  assert (queued_live_bytes m + n ≤ MAX_QUEUED_LIVE_BYTES).
  { unfold saturating_add, MAX_QUEUED_LIVE_BYTES, u64_max in *. rewrite Z.shiftl_mul_pow2 in * by lia. lia. }
  constructor; simpl.
  - congruence.
  - unfold len in *. rewrite length_app. simpl. lia.
  - rewrite events_len_app, Hb'. unfold events_len at 3, event_len. simpl. rewrite Hn. simpl. lia.
  - done.
  - rewrite fmap_app. apply sorted_snoc; [done|]. rewrite Forall_fmap.
    eapply Forall_impl; [exact Hbh|]. intros ? Hx. unfold compose. simpl in *. lia.
  - apply Forall_app. split; [|by repeat constructor].
    eapply Forall_impl; [exact Hbh|]. intros; simpl in *; lia.
Qed.

Lemma cleared_ok m : queued_live m = [] → queued_live_bytes m = 0 → machine_ok m.
Proof. intros Hq Hb. constructor; rewrite ?Hq, ?Hb; by repeat constructor. Qed.

Lemma idle_ok m : machine_ok m → phase m ≠ PSyncing → queued_live m = [] ∧ queued_live_bytes m = 0.
Proof. intros [Hi _ Hb _ _ _] Hp. specialize (Hi Hp). by rewrite Hb, Hi. Qed.

Lemma apply_op_ok op m :
  (∀ e n, encoded_len e = Some n → is_u64 n) →
  machine_ok m → machine_ok (apply_op op m).2.
Proof.
  intros Hlen Hok. destruct op as [state| |id| |replay|event|complete|reason| |]; simpl.
  - by apply cleared_ok.
  - unfold begin_connecting. destruct (phase m) eqn:Hp; simpl; try done;
      (destruct (idle_ok m Hok); [congruence|by apply cleared_ok]).
  - unfold accept_ready. destruct (phase m) eqn:Hp; simpl; try done;
      (destruct (idle_ok m Hok); [congruence|by apply cleared_ok]).
  - unfold se_bind, begin_sync. case_bool_decide; simpl; [by apply cleared_ok|done].
  - unfold accept_replay. case_bool_decide; cbn [negb]; [|done].
    destruct (replay_events replay) as [|e l] eqn:Hl; [by destruct (_ || _)|].
    rewrite <- Hl. destruct (_ || _); [done|].
    pose proof (accept_ordered_events_spec (replay_events replay) m) as Hs.
    destruct (accept_ordered_events _ m) as [[[]|err] m']; simpl.
    + destruct Hs as [Hs ->]. by apply advance_ok.
    + destruct Hs as (pre & x & post & _ & Hs & -> & _). by apply advance_ok.
  - unfold se_bind. pose proof (accept_live_spec event m) as Hs.
    destruct (accept_live_event event m) as [[out|err] m']; simpl; [|by destruct Hs as [-> _]].
    destruct Hs as [Hlt Hs]. destruct (phase m) eqn:Hp; try done.
    + destruct Hs as (_ & n & Hn & Hc & Hb & ->). by apply push_live_ok.
    + destruct Hs as [_ ->]. apply advance_ok; [|done]. by repeat constructor.
  - unfold se_bind, accept_complete. case_bool_decide; simpl; [|done]. by apply cleared_ok.
  - unfold require_snapshot. destruct (phase m); simpl; try done; by apply cleared_ok.
  - by apply cleared_ok.
  - by apply cleared_ok.
Qed.
End ops.

(** ** The handoff: what arrives between [sync.hello] and [sync.complete] *)

Inductive HandoffFrame (V : Type) :=
| HReplay (replay : SyncReplay V)
| HLive (event : StateEvent V).
Arguments HReplay {V} _.
Arguments HLive {V} _.

Section handoff.
Context {V : Type} `{FrameDecoders V}.
Implicit Types (m : SyncMachine V) (f : HandoffFrame V).

Fixpoint handoff (frames : list (HandoffFrame V)) : se (SyncMachine V) SyncError unit :=
  match frames with
  | [] => se_ret tt
  | HReplay replay :: rest => let! _ := accept_replay replay in handoff rest
  | HLive event :: rest => let! _ := accept_live_event event in handoff rest
  end.

(** The events of a frame, and the live ones among them. *)
Definition events_of f : list (StateEvent V) :=
  match f with HReplay replay => replay_events replay | HLive event => [event] end.

Definition live_of f : list (StateEvent V) :=
  match f with HReplay _ => [] | HLive event => [event] end.

Definition all_events (frames : list (HandoffFrame V)) : list (StateEvent V) :=
  concat (events_of <$> frames).

Lemma advance_app l1 l2 m : advance (l1 ++ l2) m = advance l2 (advance l1 m).
Proof.
  unfold advance. rewrite last_app. destruct (list.last l2) as [x|] eqn:H2; [|done].
  by destruct (list.last l1).
Qed.

Lemma advance_geid l m : sm_geid (advance l m) = default (sm_geid m) (ev_geid <$> list.last l).
Proof. unfold advance. by destruct (list.last l). Qed.

Lemma sorted_join (x : Z) (l1 l2 : list Z) :
  StronglySorted Z.lt (x :: l1) → StronglySorted Z.lt (default x (list.last l1) :: l2) →
  StronglySorted Z.lt (x :: l1 ++ l2).
Proof.
  revert x. induction l1 as [|y l1 IH]; intros x H1 H2; [done|].
  inversion H1 as [|?? H1' Hall]; subst. inversion Hall; subst.
  assert (StronglySorted Z.lt (y :: l1 ++ l2)) as Hs.
  { apply IH; [done|]. rewrite last_cons in H2. by destruct (list.last l1). }
  constructor; [done|]. inversion Hs as [|?? _ Hall']; subst. simpl. constructor; [done|].
  eapply Forall_impl; [exact Hall'|]. intros; simpl in *; lia.
Qed.

Lemma accept_replay_spec replay m m' :
  phase m = PSyncing → accept_replay replay m = (Ok tt, m') →
  StronglySorted Z.lt (sm_geid m :: (ev_geid <$> replay_events replay)) ∧
  m' = advance (replay_events replay) m ∧
  default (sm_geid m) (ev_geid <$> head (replay_events replay)) = from_geid replay ∧
  default (sm_geid m) (ev_geid <$> list.last (replay_events replay)) = to_geid replay.
Proof.
  intros Hp Hrun. unfold accept_replay in Hrun. rewrite Hp in Hrun.
  rewrite bool_decide_eq_true_2 in Hrun by done. cbn [negb] in Hrun.
  destruct (replay_events replay) as [|e l] eqn:Hl.
  - destruct (Z.eqb_spec (from_geid replay) (to_geid replay)); [|done].
    destruct (Z.eqb_spec (from_geid replay) (sm_geid m)); simplify_eq/=.
    split; [by repeat constructor|]. split_and!; [done|congruence|congruence].
  - destruct (bool_decide _) eqn:H1 in Hrun; [|done].
    destruct (bool_decide _) eqn:H2 in Hrun; [|done].
    apply bool_decide_eq_true in H1, H2. cbn [negb orb] in Hrun.
    pose proof (accept_ordered_events_spec (e :: l) m) as Hs. rewrite Hrun in Hs.
    destruct Hs as [Hs ->]. rewrite H1, H2. done.
Qed.

Lemma push_live_advance e n l m : advance l (push_live e n m) = push_live e n (advance l m).
Proof. unfold advance. by destruct (list.last l). Qed.

Lemma handoff_spec frames m m' :
  phase m = PSyncing → handoff frames m = (Ok tt, m') →
  StronglySorted Z.lt (sm_geid m :: (ev_geid <$> all_events frames)) ∧
  phase m' = PSyncing ∧ sm_geid m' = sm_geid (advance (all_events frames) m) ∧
  sm_stream_epoch m' = sm_stream_epoch m ∧ control_connection_id m' = control_connection_id m ∧
  queued_live m' = queued_live m ++ concat (live_of <$> frames).
Proof.
  revert m. induction frames as [|f frames IH]; intros m Hp Hrun.
  { injection Hrun as <-. unfold all_events. csimpl. rewrite app_nil_r.
    split_and!; try done. repeat constructor. }
  assert (∃ m1, handoff frames m1 = (Ok tt, m') ∧ phase m1 = PSyncing ∧
    sm_geid m1 = sm_geid (advance (events_of f) m) ∧ sm_stream_epoch m1 = sm_stream_epoch m ∧
    control_connection_id m1 = control_connection_id m ∧
    queued_live m1 = queued_live m ++ live_of f ∧
    StronglySorted Z.lt (sm_geid m :: (ev_geid <$> events_of f)))
    as (m1 & Hrun1 & Hp1 & Hg1 & He1 & Hc1 & Hq1 & Hs1).
  { destruct f as [replay|event]; simpl in Hrun; unfold se_bind in Hrun.
    - destruct (accept_replay replay m) as [[[]|err] m1] eqn:Hr; [|done].
      apply accept_replay_spec in Hr as (Hs & -> & _); [|done].
      destruct (advance_frame (replay_events replay) m) as (? & Hq & _ & ? & ?).
      exists (advance (replay_events replay) m). simpl. rewrite app_nil_r. split_and!; congruence || done.
    - pose proof (accept_live_spec event m) as Hs.
      destruct (accept_live_event event m) as [[out|err] m1]; [|done]. rewrite Hp in Hs.
      destruct Hs as (Hlt & _ & n & _ & _ & _ & ->).
      exists (push_live event n (advance [event] m)). split_and!; try done.
      simpl. by repeat constructor. }
  destruct (IH m1 Hp1 Hrun1) as (Hs & Hp' & Hg' & He' & Hc' & Hq').
  unfold all_events in *. simpl. rewrite fmap_app, advance_app.
  rewrite Hg1, advance_geid in Hs. rewrite advance_geid, Hg1, <- advance_geid in Hg'.
  split; [apply sorted_join; [done|]; by rewrite fmap_last|].
  split; [done|]. split; [by rewrite !advance_geid in *|]. do 2 (split; [congruence|]).
  by rewrite Hq', Hq1, <- app_assoc.
Qed.
End handoff.

(** ** Frames small enough to evaluate, for the witnesses *)

Module ToyFrames.
Import ToyPayload.

Definition toy_event (geid : Z) : StateEvent value :=
  event geid "server" None "server.updated" VOther.

(** A frame is named by its text; its JSON value is a number. *)
Definition parse (text : string) : result string value :=
  if bool_decide (text = "ready"%string) then Ok (VTombstone (-1))
  else if bool_decide (text = "complete"%string) then Ok (VTombstone (-2))
  else if bool_decide (text = "required"%string) then Ok (VTombstone (-3))
  else if bool_decide (text = "revoked"%string) then Ok (VTombstone (-4))
  else if bool_decide (text = "replay"%string) then Ok (VTombstone (-5))
  else if bool_decide (text = "ok"%string) then Ok (VTombstone (-6))
  else if bool_decide (text = "event 13"%string) then Ok (VTombstone 13)
  else Err "expected value"%string.

Definition kind (v : value) : string :=
  match v with
  | VTombstone (-1) => "connection.ready"
  | VTombstone (-2) => "sync.complete"
  | VTombstone (-3) => "sync.required"
  | VTombstone (-4) => "auth.revoked"
  | VTombstone (-5) => "sync.replay"
  | VTombstone (-6) => "command.ok"
  | VTombstone _ => "state.event"
  | _ => "unknown"
  end.

(** The first request of a connection at time 1. *)
Definition request_id (v : value) : option string :=
  match v with VTombstone (-6) => Some "zv-00000000001-0000000000000001"%string | _ => None end.

#[global] Instance frames : FrameDecoders value := {|
  from_str := parse;
  decode_envelope v := Ok (mkEnvelope (kind v) (request_id v) v);
  decode_ready _ := Ok (mkConnectionReady (replicate 16 4) 99);
  decode_replay _ := Ok (mkSyncReplay 11 12 [toy_event 11; toy_event 12]);
  decode_complete _ := Ok (mkSyncComplete "cursorC");
  decode_required _ := Ok (mkSyncRequired "cursor_expired");
  decode_event v := match v with VTombstone n => Ok (toy_event n) | _ => Err "unexpected"%string end;
  decode_command_ok _ := Ok (mkCommandOkData "presence.set" None None);
  decode_command_error _ := Err "unexpected"%string;
  decode_revoked _ := Ok (mkAuthRevoked "signed_out");
  encoded_len _ := Some 100;
|}.

Lemma encoded_len_u64 (e : StateEvent value) n : encoded_len e = Some n → is_u64 n.
Proof. intros [= <-]. unfold is_u64, u64_max. lia. Qed.
End ToyFrames.

(** ** Properties *)

(** The phases of a connection. An operation that is not legal in the current
    phase is refused with [InvalidPhase] and changes nothing; a legal one is never
    refused for its phase, moves to the phase of the protocol when it succeeds, and
    keeps the phase, the epoch and the connection when it fails. *)
Theorem sync_phase_discipline {V} `{FrameDecoders V} (op : SyncOp V) (m : SyncMachine V) :
  match apply_op op m with
  | (Ok _, m') => legal (phase m) op = true ∧ phase m' = next_phase (phase m) op
  | (Err (InvalidPhase _), m') => legal (phase m) op = false ∧ m' = m
  | (Err _, m') =>
      legal (phase m) op = true ∧ phase m' = phase m ∧ sm_stream_epoch m' = sm_stream_epoch m ∧
      control_connection_id m' = control_connection_id m ∧ queued_live m' = queued_live m
  end.
Proof.
  destruct op as [state| |id| |replay|event|complete|reason| |]; simpl; try done.
  - unfold begin_connecting. by destruct (phase m).
  - unfold accept_ready. by destruct (phase m).
  - unfold se_bind, begin_sync. by destruct (phase m) eqn:Hp; decide_phases.
  - unfold accept_replay. destruct (phase m) eqn:Hp; decide_phases; cbn [negb]; try done.
    destruct (replay_events replay) as [|e l] eqn:Hl; [by destruct (_ || _)|].
    destruct (_ || _); [done|].
    pose proof (accept_ordered_events_spec (e :: l) m) as Hs.
    destruct (accept_ordered_events (e :: l) m) as [[[]|err] m'].
    + destruct Hs as [_ ->]. destruct (advance_frame (e :: l) m) as [-> _]. by rewrite Hp.
    + destruct Hs as (pre & x & post & _ & _ & -> & -> & _).
      destruct (advance_frame pre m) as (-> & -> & _ & -> & ->). by rewrite Hp.
  - unfold se_bind. pose proof (accept_live_spec event m) as Hs.
    destruct (accept_live_event event m) as [[out|err] m']; simpl.
    + destruct Hs as [_ Hs]. destruct (phase m) eqn:Hp; try done.
      * by destruct Hs as (_ & n & _ & _ & _ & ->).
      * by destruct Hs as [_ ->].
    + destruct Hs as [-> Hs]. destruct err; try done; destruct (phase m); naive_solver.
  - unfold se_bind, accept_complete. by destruct (phase m) eqn:Hp; decide_phases.
  - unfold require_snapshot. by destruct (phase m).
Qed.

(** C37: the queue of live events is bounded, whatever operations a connection
    performs and however they fail: at most 256 events of at most 1 MiB in all, only
    while a replay runs, in stream order and behind the GEID boundary. *)
Theorem sync_queue_bounded {V} `{FrameDecoders V} (ops : list (SyncOp V)) (state : ClientState) :
  (∀ e n, encoded_len e = Some n → is_u64 n) →
  let m := run_ops ops (machine_new state) in
  machine_ok m ∧ len (queued_live m) ≤ 256 ∧ events_len (queued_live m) ≤ 1048576.
Proof.
  intros Hlen m. assert (machine_ok m) as Hok.
  { unfold m, run_ops. generalize (machine_new_ok state). generalize (machine_new (V:=V) state).
    induction ops as [|op ops IH]; intros m0 Hm0; simpl; [done|]. by apply IH, apply_op_ok. }
  split; [done|]. destruct Hok as [_ ? Hb ? _ _]. rewrite <- Hb. done.
Qed.

Lemma sync_queue_bounded_witness :
  len (queued_live (run_ops [OpBeginConnecting; OpReady []; OpBeginSync;
         OpLive (ToyFrames.toy_event 11); OpLive (ToyFrames.toy_event 11);
         OpLive (ToyFrames.toy_event 14)] (machine_new ToyPayload.state))) = 2 ∧
  machine_ok (run_ops [OpBeginConnecting; OpReady []; OpBeginSync;
         OpLive (ToyFrames.toy_event 11); OpLive (ToyFrames.toy_event 11);
         OpLive (ToyFrames.toy_event 14)] (machine_new ToyPayload.state)).
Proof.
  split; [vm_compute; reflexivity|].
  apply (sync_queue_bounded _ ToyPayload.state ToyFrames.encoded_len_u64).
Defined.

(** C11: the handoff from replay to live delivery. When the frames between
    [sync.hello] and [sync.complete] are all accepted, [sync.complete] releases
    exactly the live events among them, in wire order; replayed and live events
    together carry strictly increasing GEIDs above the snapshot's, the last of which
    is the machine's, and the machine is live with the server's cursor. *)
Theorem sync_handoff_in_order {V} `{FrameDecoders V} (frames : list (HandoffFrame V))
    (complete : SyncComplete) (m m' : SyncMachine V) (hello : string) :
  (let! hello := begin_sync in let! _ := handoff frames in se_ret hello) m = (Ok hello, m') →
  hello = sm_cursor m ∧
  accept_complete complete m' =
    (Ok (concat (live_of <$> frames)),
     mkSyncMachine PLive (complete_cursor complete) (sm_stream_epoch m)
       (default (sm_geid m) (ev_geid <$> list.last (all_events frames)))
       (control_connection_id m) [] 0) ∧
  StronglySorted Z.lt (sm_geid m :: (ev_geid <$> all_events frames)).
Proof.
  unfold se_bind, begin_sync. case_bool_decide as Hp; [|done]. cbn [clear_queue set_phase sm_cursor].
  set (m1 := clear_queue (set_phase PSyncing m)).
  destruct (handoff frames m1) as [[[]|err] m2] eqn:Hrun; [|done]. intros [= <- <-].
  apply handoff_spec in Hrun as (Hs & Hp' & Hg & He & Hc & Hq); [|done].
  split; [done|]. split; [|done]. unfold accept_complete. rewrite Hp'.
  rewrite bool_decide_eq_true_2 by done. cbn [negb]. by rewrite Hq, Hg, He, Hc, advance_geid.
Qed.

Lemma sync_handoff_in_order_witness :
  ∃ m', accept_complete (mkSyncComplete "cursorC") m' =
    (Ok [ToyFrames.toy_event 13],
     mkSyncMachine PLive "cursorC" (replicate 16 1) 13 (Some []) [] 0).
Proof.
  pose (m := run_ops [OpBeginConnecting; OpReady []] (machine_new (V:=ToyPayload.value) ToyPayload.state)).
  pose (frames := [HReplay (mkSyncReplay 11 12 [ToyFrames.toy_event 11; ToyFrames.toy_event 12]);
                   HLive (ToyFrames.toy_event 13)]).
  pose (run := (let! hello := begin_sync in let! _ := handoff frames in se_ret hello) m).
  exists run.2.
  exact (proj1 (proj2 (sync_handoff_in_order frames (mkSyncComplete "cursorC") m run.2 "cursor0" eq_refl))).
Defined.

(** A live event that arrives while the replay runs moves the GEID boundary when
    it is queued, not when [sync.complete] releases it: a well-formed replay batch
    that starts at or before it is refused, and nothing of the batch is accepted. *)
Theorem queued_live_event_blocks_replay {V} `{FrameDecoders V} (event first : StateEvent V)
    (rest : list (StateEvent V)) (m m' : SyncMachine V) :
  phase m = PSyncing → accept_live_event event m = (Ok None, m') → ev_geid first ≤ ev_geid event →
  accept_replay (mkSyncReplay (ev_geid first) (ev_geid (default first (list.last rest)))
                   (first :: rest)) m' =
    (Err (SyncGeidOrder (ev_geid event) (ev_geid first)), m').
Proof.
  intros Hp Hlive Hle. pose proof (accept_live_spec event m) as Hs. rewrite Hlive, Hp in Hs.
  destruct Hs as (Hlt & _ & n & _ & _ & _ & ->).
  unfold accept_replay. cbn [push_live advance list.last phase]. rewrite Hp.
  rewrite bool_decide_eq_true_2 by done.
  cbn [negb replay_events from_geid to_geid head fmap option_fmap option_map].
  rewrite last_cons. rewrite bool_decide_eq_true_2 by done.
  rewrite bool_decide_eq_true_2 by (by destruct (list.last rest)). cbn [negb orb].
  cbn [accept_ordered_events]. unfold se_bind, accept_ordered_event at 1.
  cbn [push_live sm_geid]. by rewrite (proj2 (Z.leb_le _ _)).
Qed.

Lemma queued_live_event_blocks_replay_witness :
  ∃ m', accept_live_event (ToyFrames.toy_event 13)
          (run_ops [OpBeginConnecting; OpReady []; OpBeginSync] (machine_new ToyPayload.state))
        = (Ok None, m') ∧
    (accept_replay (mkSyncReplay 12 12 [ToyFrames.toy_event 12]) m').1 = Err (SyncGeidOrder 13 12).
Proof.
  pose (m := run_ops [OpBeginConnecting; OpReady []; OpBeginSync]
               (machine_new (V:=ToyPayload.value) ToyPayload.state)).
  assert (accept_live_event (ToyFrames.toy_event 13) m =
    (Ok None, (accept_live_event (ToyFrames.toy_event 13) m).2)) as Hrun by (vm_compute; reflexivity).
  exists (accept_live_event (ToyFrames.toy_event 13) m).2. split; [exact Hrun|].
  refine (f_equal fst (queued_live_event_blocks_replay (ToyFrames.toy_event 13)
    (ToyFrames.toy_event 12) [] m (accept_live_event (ToyFrames.toy_event 13) m).2 eq_refl Hrun _)).
  vm_compute. discriminate.
Defined.
