(* ===== verification/RealtimeTransport.v ===== *)
(** Configuration and addressing of the realtime connection: the reconnect policy
    and the limits of config.rs, the endpoint of connection.rs, the authority check
    and the upgrade errors of transport.rs, and the close codes of
    engine/socket.rs (crates/zephyrvox-realtime/src). *)

From S2P Require Import Prelude Text Types Wire ClientModel RealtimeTypes.

(** ** config.rs. A [Duration] is its number of nanoseconds. *)

Definition from_millis (n : Z) : Z := n * 1000000.
Definition from_secs (n : Z) : Z := n * 1000000000.

(** The largest [Duration], and its range. *)
Definition duration_max : Z := (2 ^ 64 - 1) * 1000000000 + 999999999.
Definition is_duration (d : Z) : Prop := 0 ≤ d ≤ duration_max.

Record ReconnectPolicy := mkReconnectPolicy {
  enabled : bool;
  minimum_delay : Z;
  maximum_delay : Z;
  jitter : Z;
  maximum_attempts : option Z;
}.

Module ReconnectPolicy.
Definition new (minimum maximum j : Z) : result RealtimeError ReconnectPolicy :=
  if (minimum =? 0) || (maximum <? minimum) then
    Err (RealtimeConfiguration "reconnect delays must be non-zero and ordered")
  else Ok (mkReconnectPolicy true minimum maximum j None).

Definition disabled : ReconnectPolicy :=
  mkReconnectPolicy false (from_secs 1) (from_secs 1) 0 (Some 0).

Definition default_policy : ReconnectPolicy :=
  mkReconnectPolicy true (from_millis 250) (from_secs 30) (from_millis 250) None.

Definition with_maximum_attempts (attempts : option Z) (p : ReconnectPolicy) : ReconnectPolicy :=
  mkReconnectPolicy (enabled p) (minimum_delay p) (maximum_delay p) (jitter p) attempts.

(** [sample] is the clock reading the jitter is taken from. *)
Definition delay (p : ReconnectPolicy) (sample attempt : Z) : Z :=
  let exponent := Z.min attempt 31 in
  let multiplier := Z.shiftl 1 exponent in
  let base_nanos := Z.min u128_max (minimum_delay p * multiplier) in
  let bounded := Z.min base_nanos (maximum_delay p) in
  let jitter := if jitter p =? 0 then 0 else sample mod (Z.max (jitter p) 1) in
  Z.min (Z.min (Z.min u128_max (bounded + jitter)) (maximum_delay p)) u64_max.

(** What the constructors build. *)
Record ok (p : ReconnectPolicy) : Prop := {
  ok_minimum : 0 < minimum_delay p;
  ok_ordered : minimum_delay p ≤ maximum_delay p;
  ok_maximum : is_duration (maximum_delay p);
  ok_jitter : is_duration (jitter p);
}.
End ReconnectPolicy.

Record RealtimeConfig := mkRealtimeConfig {
  reconnect : ReconnectPolicy;
  command_timeout : Z;
  maximum_pending_commands : Z;
  maximum_frame_bytes : Z;
}.

Module RealtimeConfig.
Definition new : RealtimeConfig :=
  mkRealtimeConfig ReconnectPolicy.default_policy (from_secs 10) 64 (256 * 1024).

Definition with_reconnect_policy (p : ReconnectPolicy) (c : RealtimeConfig) : RealtimeConfig :=
  mkRealtimeConfig p (command_timeout c) (maximum_pending_commands c) (maximum_frame_bytes c).

Definition with_command_timeout (timeout : Z) (c : RealtimeConfig)
    : result RealtimeError RealtimeConfig :=
  if timeout =? 0 then Err (RealtimeConfiguration "command timeout must be non-zero")
  else Ok (mkRealtimeConfig (reconnect c) timeout (maximum_pending_commands c)
             (maximum_frame_bytes c)).

Definition with_maximum_pending_commands (maximum : Z) (c : RealtimeConfig)
    : result RealtimeError RealtimeConfig :=
  if (maximum =? 0) || (256 <? maximum) then
    Err (RealtimeConfiguration "pending command limit must be between 1 and 256")
  else Ok (mkRealtimeConfig (reconnect c) (command_timeout c) maximum (maximum_frame_bytes c)).

Definition with_maximum_frame_bytes (maximum : Z) (c : RealtimeConfig)
    : result RealtimeError RealtimeConfig :=
  if (maximum =? 0) || (256 * 1024 <? maximum) then
    Err (RealtimeConfiguration "frame limit must be between 1 byte and 256 KiB")
  else Ok (mkRealtimeConfig (reconnect c) (command_timeout c) (maximum_pending_commands c) maximum).

Record ok (c : RealtimeConfig) : Prop := {
  ok_pending : 1 ≤ maximum_pending_commands c ≤ 256;
  ok_frame : 1 ≤ maximum_frame_bytes c ≤ 256 * 1024;
  ok_timeout : 0 < command_timeout c;
}.
End RealtimeConfig.

(** ** The endpoint *)

Definition websocket_scheme (s : TransportScheme) : string :=
  match s with Plain => "ws" | Tls => "wss" end.

Section url.
Context `{U : UrlLib}.

Definition websocket_url (card : ServerCard) : result RealtimeError Url :=
  map_err Protocol
    (url_parse (websocket_scheme (scheme card) +:+ "://" +:+ Card.bracketed (host card) +:+ ":"
                +:+ display_u64 (port card) +:+ "/api/v0/ws")).

Definition url_matches_card (url : Url) (card : ServerCard) : bool :=
  bool_decide (url_scheme url = websocket_scheme (scheme card))
  && bool_decide (url_host_str url = Some (host card))
  && bool_decide (url_port_or_known_default url = Some (port card))
  && bool_decide (url_path url = "/api/v0/ws"%string)
  && bool_decide (url_query url = None)
  && bool_decide (url_fragment url = None)
  && str_is_empty (url_username url)
  && bool_decide (url_password url = None).

(** What the WHATWG URL standard, which the crate implements, says of the URLs
    built here. [plain_host] are the hosts that its host parser leaves as they are:
    canonical IPv4 addresses, and ASCII names that are neither numbers nor
    punycode. *)
Record UrlLaws := {
  plain_host : string → Prop;
  (** An IPv6 host is serialized in brackets. *)
  host_str_bracketed url h :
    url_host_str url = Some h → contains_byte 58 (str_bytes h) = true →
    ∃ inner, h = ("[" +:+ inner +:+ "]")%string;
  parse_ws s h p :
    plain_host h → 0 < p ≤ u16_max →
    ∃ url, url_parse (websocket_scheme s +:+ "://" +:+ h +:+ ":" +:+ display_u64 p
                      +:+ "/api/v0/ws") = Ok url ∧
      url_scheme url = websocket_scheme s ∧ url_host_str url = Some h ∧
      url_port_or_known_default url = Some p ∧ url_path url = "/api/v0/ws"%string ∧
      url_query url = None ∧ url_fragment url = None ∧ url_username url = ""%string ∧
      url_password url = None;
}.
End url.

Arguments UrlLaws : clear implicits.

(** ** Messages, and errors of the upgrade and of the close frame *)

(** [WebSocketMessage]. *)
Inductive WebSocketMessage :=
| WText (payload : string)
| WPing (payload : byte_list)
| WPong (payload : byte_list)
| WClose (reason : option string)
| WCloseFrame (code : option Z) (reason : option string).

(** [tungstenite::Error]: an HTTP response with its status (number and text), or
    another error with its text. *)
Inductive TungsteniteError :=
| Http (status : Z) (text : string)
| OtherError (text : string).

Definition map_upgrade_error (e : TungsteniteError) : RealtimeError :=
  match e with
  | Http status text =>
      if status =? 401 then AuthenticationExpired
      else if status =? 403 then Protocol "WebSocket upgrade was forbidden"
      else WsTransport ("WebSocket upgrade failed with HTTP status " +:+ text)
  | OtherError text => WsTransport text
  end.

(** [code:?] of an [Option<u16>]. *)
Definition debug_code (code : option Z) : string :=
  match code with Some c => "Some(" +:+ display_u64 c +:+ ")" | None => "None" end.

Definition close_error (code : option Z) (reason : option string) : RealtimeError :=
  let detail := match reason with Some r => ": " +:+ r | None => ""%string end in
  let by_reason :=
    match reason with
    | Some r =>
        if eq_ignore_ascii_case r "unauthorized" then AuthenticationExpired
        else WsTransport ("WebSocket closed" +:+ detail)
    | None => WsTransport ("WebSocket closed" +:+ detail)
    end in
  match code with
  | Some c =>
      if c =? 4001 then AuthenticationExpired
      else if c =? 4002 then
        ConnectionRevoked (default "server revoked the connection"%string reason)
      else if (c =? 4000) || (c =? 4003) || (c =? 4005) then
        Protocol ("WebSocket closed with terminal code " +:+ debug_code code +:+ detail)
      else by_reason
  | None => by_reason
  end.

(** Errors that stop the connection rather than enter automatic reconnect. *)
Definition terminal_error (e : RealtimeError) : bool :=
  match e with
  | ConnectionClosed | ConnectionRevoked _ | Protocol _ | Json _ | Sync _
  | RealtimeConfiguration _ | AuthenticationRequired | AuthenticationExpired
  | TlsPinMismatch _ _ | TlsCertificateInvalid => true
  | _ => false
  end.

(** ** Lemmas *)

Lemma contains_byte_spec c l : contains_byte c l = true ↔ c ∈ l.
Proof.
  unfold contains_byte. rewrite existsb_exists. split.
  - intros (x & Hx & Heq). apply Z.eqb_eq in Heq as ->. by apply list_elem_of_In.
  - intros Hc. exists c. split; [by apply list_elem_of_In|apply Z.eqb_refl].
Qed.

Lemma delay_base_bounds (p : ReconnectPolicy) attempt :
  ReconnectPolicy.ok p → 0 ≤ attempt →
  0 ≤ minimum_delay p * Z.shiftl 1 (Z.min attempt 31) ≤ u128_max.
Proof.
  intros [Hm Ho [_ HM] _] Ha. rewrite Z.shiftl_1_l.
  assert (2 ^ Z.min attempt 31 ≤ 2 ^ 31) by (apply Z.pow_le_mono_r; lia).
  assert (0 < 2 ^ Z.min attempt 31) by (apply Z.pow_pos_nonneg; lia).
  assert (minimum_delay p ≤ duration_max) by lia.
  split; [nia|]. transitivity (duration_max * 2 ^ 31); [nia|].
  unfold duration_max, u128_max. lia.
Qed.

(** ** Properties *)

(** The reconnect delay. It is never above the configured maximum (nor above
    what 64-bit nanoseconds hold), never below the exponential backoff capped at
    that maximum, and equal to it without jitter, in which case it never decreases
    from one attempt to the next; no intermediate product or sum overflows. *)
Theorem reconnect_delay_bounds (p : ReconnectPolicy) (sample attempt : Z) :
  ReconnectPolicy.ok p → 0 ≤ sample → 0 ≤ attempt →
  let backoff n := Z.min (minimum_delay p * 2 ^ Z.min n 31) (Z.min (maximum_delay p) u64_max) in
  let d := ReconnectPolicy.delay p sample attempt in
  backoff attempt ≤ d ≤ Z.min (maximum_delay p) u64_max ∧
  d ≤ backoff attempt + jitter p ∧
  (jitter p = 0 → d = backoff attempt ∧ d ≤ ReconnectPolicy.delay p sample (attempt + 1)).
Proof.
  intros Hok Hs Ha backoff d.
  assert (∀ n, 0 ≤ n → ∃ j, 0 ≤ j ≤ jitter p ∧ (jitter p = 0 → j = 0) ∧
    ReconnectPolicy.delay p sample n =
      Z.min (Z.min (minimum_delay p * 2 ^ Z.min n 31) (maximum_delay p) + j)
        (Z.min (maximum_delay p) u64_max)) as Hdelay.
  { intros n Hn. pose proof (delay_base_bounds p n Hok Hn) as Hbase.
    rewrite Z.shiftl_1_l in Hbase. destruct Hok as [_ _ [_ HM] [Hj HJ]].
    exists (if jitter p =? 0 then 0 else sample mod Z.max (jitter p) 1).
    assert (0 ≤ (if jitter p =? 0 then 0 else sample mod Z.max (jitter p) 1) ≤ jitter p).
    { destruct (Z.eqb_spec (jitter p) 0); [lia|].
      pose proof (Z.mod_pos_bound sample (Z.max (jitter p) 1)). lia. }
    split; [done|]. split; [by intros ->|]. unfold ReconnectPolicy.delay. rewrite Z.shiftl_1_l.
    unfold duration_max, u128_max, u64_max in *. lia. }
  destruct (Hdelay attempt Ha) as (j & Hj & Hj0 & Hd).
  destruct (Hdelay (attempt + 1)) as (j' & Hj' & Hj0' & Hd'); [lia|].
  destruct Hok as [Hm Ho [H0 HM] [Hj1 HJ]]. subst d backoff. simpl. rewrite Hd, Hd'.
  assert (2 ^ Z.min attempt 31 ≤ 2 ^ Z.min (attempt + 1) 31) by (apply Z.pow_le_mono_r; lia).
  assert (0 < 2 ^ Z.min attempt 31) by (apply Z.pow_pos_nonneg; lia).
  assert (minimum_delay p * 2 ^ Z.min attempt 31 ≤ minimum_delay p * 2 ^ Z.min (attempt + 1) 31)
    by nia.
  unfold duration_max, u64_max in *.
  split; [lia|]. split; [lia|]. intros Hz. rewrite (Hj0 Hz), (Hj0' Hz). lia.
Qed.

Lemma reconnect_delay_bounds_witness :
  ReconnectPolicy.delay ReconnectPolicy.default_policy 123456789 20 ≤ from_secs 30.
Proof.
  refine (proj2 (proj1 (reconnect_delay_bounds ReconnectPolicy.default_policy 123456789 20 _ _ _))).
  - repeat constructor; vm_compute; congruence.
  - lia.
  - lia.
Defined.

(** The builders of the connection limits. The standard configuration is within
    the limits of the protocol, and a setter either refuses its value as a
    configuration error, exactly when it is out of range, or replaces that one
    field. *)
Theorem realtime_config_bounds (c : RealtimeConfig) (timeout pending frame : Z) :
  RealtimeConfig.ok c → 0 ≤ timeout → 0 ≤ pending → 0 ≤ frame →
  RealtimeConfig.ok RealtimeConfig.new ∧
  match RealtimeConfig.with_command_timeout timeout c with
  | Ok c' => RealtimeConfig.ok c' ∧ command_timeout c' = timeout
  | Err e => timeout = 0
  end ∧
  match RealtimeConfig.with_maximum_pending_commands pending c with
  | Ok c' => RealtimeConfig.ok c' ∧ maximum_pending_commands c' = pending
  | Err e => ¬ 1 ≤ pending ≤ 256
  end ∧
  match RealtimeConfig.with_maximum_frame_bytes frame c with
  | Ok c' => RealtimeConfig.ok c' ∧ maximum_frame_bytes c' = frame
  | Err e => ¬ 1 ≤ frame ≤ 262144
  end.
Proof.
  intros [Hp Hf Ht] H1 H2 H3.
  unfold RealtimeConfig.with_command_timeout, RealtimeConfig.with_maximum_pending_commands,
    RealtimeConfig.with_maximum_frame_bytes.
  split; [constructor; vm_compute; repeat split; congruence|].
  destruct (Z.eqb_spec timeout 0), (Z.eqb_spec pending 0), (Z.eqb_spec frame 0); simpl;
    destruct (Z.ltb_spec 256 pending), (Z.ltb_spec (256 * 1024) frame);
    repeat split; simpl; lia.
Qed.

Lemma realtime_config_bounds_witness :
  RealtimeConfig.with_maximum_frame_bytes 300000 RealtimeConfig.new =
    Err (RealtimeConfiguration "frame limit must be between 1 byte and 256 KiB") ∧
  RealtimeConfig.ok RealtimeConfig.new.
Proof.
  assert (RealtimeConfig.ok RealtimeConfig.new) as Hok
    by (constructor; vm_compute; repeat split; congruence).
  split; [reflexivity|].
  exact (proj1 (realtime_config_bounds RealtimeConfig.new 5 64 300000 Hok ltac:(lia) ltac:(lia)
    ltac:(lia))).
Defined.

(** The production connector only opens the card's own endpoint, and it can open
    it for a card with a plain host; but a card with an IPv6 host, which is stored
    without brackets, matches no URL at all, not even the card's own endpoint: such
    a server can never be reached. *)
Theorem connector_authority `{U : UrlLib} (L : UrlLaws U) (card : ServerCard) :
  Card.ok card →
  (plain_host L (host card) → contains_byte 58 (str_bytes (host card)) = false →
   ∃ url, websocket_url card = Ok url ∧ url_matches_card url card = true) ∧
  (contains_byte 58 (str_bytes (host card)) = true →
   ∀ url, url_matches_card url card = false) ∧
  (∀ url, url_matches_card url card = true →
   url_host_str url = Some (host card) ∧ url_port_or_known_default url = Some (port card) ∧
   (url_scheme url = "wss"%string ↔ fingerprint card ≠ None)).
Proof.
  intros Hok. unfold url_matches_card. split_and!.
  - intros Hp Hc. destruct Hok as [_ Hport _ _ _ _].
    destruct (parse_ws L (scheme card) (host card) (port card) Hp Hport)
      as (url & Hparse & Hs & Hh & Hpt & Hpath & Hq & Hf & Hu & Hpw).
    exists url. unfold websocket_url, Card.bracketed. rewrite Hc, Hparse. split; [done|].
    rewrite Hs, Hh, Hpt, Hpath, Hq, Hf, Hu, Hpw. by rewrite !bool_decide_eq_true_2 by done.
  - intros Hc url. destruct (bool_decide (url_host_str url = Some (host card))) eqn:Hh;
      [|by rewrite andb_false_r].
    exfalso. apply bool_decide_eq_true in Hh.
    destruct (host_str_bracketed L url _ Hh Hc) as [inner Hin].
    destruct Hok as [[_ Hall] _ _ _ _ _]. rewrite Hin, !str_bytes_app in Hall.
    change (str_bytes "[") with [91] in Hall.
    apply Forall_app in Hall as [[Hb _]%Forall_cons _].
    unfold is_digit, is_lower, in_range in Hb. rewrite !andb_true_iff, !Z.leb_le in Hb. lia.
  - intros url Hm. to_props. repeat match goal with H : bool_decide _ = true |- _ =>
      apply bool_decide_eq_true in H end.
    rewrite <- (Card.ok_fingerprint _ Hok). repeat match goal with H : url_scheme _ = _ |- _ =>
      rewrite H end.
    split_and!; try done. by destruct (scheme card).
Qed.

(** Endpoints of one host, for the witness: scheme, host and port. *)
Definition toy_prefix (s : TransportScheme) : byte_list :=
  str_bytes (websocket_scheme s +:+ "://example.org:").

Definition toy_ws_parse (text : string) : result string (TransportScheme * string * Z) :=
  let with_scheme (s : TransportScheme) :=
    strip_prefix (toy_prefix s) (str_bytes text) ≫= λ rest,
    strip_suffix (str_bytes "/api/v0/ws") rest ≫= λ digits,
    parse_u64 (of_bytes digits) ≫= λ p, Some (s, "example.org"%string, p) in
  match with_scheme Plain, with_scheme Tls with
  | Some u, _ | None, Some u => Ok u
  | None, None => Err "unknown url"%string
  end.

Definition toy_ws_lib : UrlLib := {|
  Url := TransportScheme * string * Z;
  url_parse := toy_ws_parse;
  url_scheme u := websocket_scheme u.1.1;
  url_username _ := ""%string;
  url_password _ := None;
  url_fragment _ := None;
  url_path _ := "/api/v0/ws"%string;
  url_port u := Some u.2;
  url_host_str u := if contains_byte 58 (str_bytes u.1.2) then None else Some u.1.2;
  url_query_pairs _ := [];
  url_query _ := None;
  url_port_or_known_default u := Some u.2;
  url_as_str _ := ""%string;
  form_urlencode _ := ""%string;
|}.

Lemma toy_ws_parse_ok s p : is_u64 p →
  toy_ws_parse (websocket_scheme s +:+ "://" +:+ "example.org" +:+ ":" +:+ display_u64 p
                +:+ "/api/v0/ws") = Ok (s, "example.org"%string, p).
Proof.
  intros Hp. unfold toy_ws_parse.
  assert (str_bytes (websocket_scheme s +:+ "://" +:+ "example.org" +:+ ":" +:+ display_u64 p
            +:+ "/api/v0/ws")
          = toy_prefix s ++ (str_bytes (display_u64 p) ++ str_bytes "/api/v0/ws")) as ->.
  { unfold toy_prefix. rewrite <- !str_bytes_app. by destruct s. }
  assert (strip_suffix (str_bytes "/api/v0/ws") (str_bytes (display_u64 p) ++ str_bytes "/api/v0/ws")
          = Some (str_bytes (display_u64 p))) as Hsuf by apply strip_suffix_app.
  destruct s.
  - rewrite strip_prefix_app. cbn [mbind option_bind]. rewrite Hsuf. cbn [mbind option_bind].
    by rewrite of_str_bytes, parse_display_u64.
  - replace (strip_prefix (toy_prefix Plain) _) with (@None byte_list) by reflexivity.
    rewrite strip_prefix_app. cbn [mbind option_bind]. rewrite Hsuf. cbn [mbind option_bind].
    by rewrite of_str_bytes, parse_display_u64.
Qed.

Definition toy_ws_laws : UrlLaws toy_ws_lib.
Proof.
  refine {| plain_host h := h = "example.org"%string : Prop |}.
  - intros url h Hh Hc. simpl in Hh. destruct (contains_byte 58 _) eqn:Hn in Hh; [done|].
    congruence.
  - intros s h p -> Hp. exists (s, "example.org"%string, p). split.
    + apply toy_ws_parse_ok. unfold is_u64, u64_max, u16_max in *. lia.
    + by split_and!.
Defined.

Definition toy_card (h : string) : ServerCard := mkServerCard Plain h 7788 None None 1.

Lemma connector_authority_witness :
  (∃ url, @websocket_url toy_ws_lib (toy_card "example.org") = Ok url ∧
     url_matches_card url (toy_card "example.org") = true) ∧
  (∀ url, @url_matches_card toy_ws_lib url (toy_card "2001:db8::1") = false).
Proof.
  assert (∀ h, (h = "example.org" ∨ h = "2001:db8::1")%string → Card.ok (toy_card h)) as Hok.
  { intros h Hh. constructor; simpl; try done.
    apply host_checked; destruct Hh as [-> | ->]; done || (vm_compute; reflexivity). }
  split.
  - apply (proj1 (connector_authority toy_ws_laws (toy_card "example.org") (Hok _ (or_introl eq_refl))));
      reflexivity.
  - apply (proj1 (proj2 (connector_authority toy_ws_laws (toy_card "2001:db8::1")
      (Hok _ (or_intror eq_refl))))). reflexivity.
Defined.

(** Which ends of a socket stop the connection for good. A close frame does so
    exactly when its code is one of the server's terminal codes or its reason reads
    "unauthorized"; a refused upgrade exactly for the statuses 401 and 403. Codes for
    an expired lease are reported as expired authentication, 4002 as revocation with
    the server's reason. *)
Theorem terminal_close_classification (code : option Z) (reason : option string)
    (e : TungsteniteError) :
  (terminal_error (close_error code reason) = true ↔
   (∃ c, code = Some c ∧ c ∈ [4000; 4001; 4002; 4003; 4005]) ∨
   (∃ r, reason = Some r ∧ eq_ignore_ascii_case r "unauthorized" = true)) ∧
  (close_error code reason = AuthenticationExpired ↔
   code = Some 4001 ∨
   (∀ c, code = Some c → c ∉ [4000; 4001; 4002; 4003; 4005]) ∧
   ∃ r, reason = Some r ∧ eq_ignore_ascii_case r "unauthorized" = true) ∧
  (∀ r, close_error code reason = ConnectionRevoked r ↔
   code = Some 4002 ∧ r = default "server revoked the connection"%string reason) ∧
  (terminal_error (map_upgrade_error e) = true ↔
   ∃ status text, e = Http status text ∧ (status = 401 ∨ status = 403)).
Proof.
  unfold close_error, map_upgrade_error. split_and!.
  - split.
    + destruct code as [c|]; repeat case_match; simpl; intros; try done; to_props;
        rewrite ?orb_true_iff, ?Z.eqb_eq in *;
        (right; by eauto) || (left; eexists; split; [done|set_unfold; lia]).
    + intros [(c & -> & Hc)|(r & -> & Hr)].
      * set_unfold in Hc. repeat case_match; try done; to_props; lia.
      * rewrite Hr. destruct code as [c|]; repeat case_match; done.
  - split.
    + destruct code as [c|]; repeat case_match; intros; try done; to_props;
        rewrite ?orb_false_iff, ?Z.eqb_neq in *;
        (left; by subst) || (right; split; [|by eauto]; intros c' [= <-] Hc; set_unfold in Hc; lia).
    + intros [-> |[Hc (r & -> & Hr)]]; [done|]. rewrite Hr. destruct code as [c|]; [|done].
      specialize (Hc c eq_refl). set_unfold in Hc.
      repeat case_match; try done; to_props; lia.
  - intros r. split.
    + destruct code as [c|]; repeat case_match; intros; simplify_eq; to_props; by subst.
    + by intros [-> ->].
  - split.
    + destruct e as [status text|text]; repeat case_match; intros; try done; to_props; subst; eauto 10.
    + intros (status & text & -> & [-> | ->]); done.
Qed.
