(* ===== verification/RealtimeTls.v ===== *)
(** The pinned verifier of the WebSocket connector (crates/zephyrvox-realtime/src/tls.rs),
    a second copy of the certificate reader and of the checks of
    crates/zephyrvox-http/src/tls_pin.rs, and the proof that the copies agree. *)

From S2P Require Import Prelude Text Wire RealtimeTypes Tls.

Module Ws.

(** ** The reader *)

(** One turn of the loop over the bytes of a long length. *)
Definition shift_in (length : option Z) (byte : Z) : option Z :=
  length ← length;
  checked_add ((length * 256) mod 2 ^ 64) byte.

Definition read_tlv (input : byte_list) (offset : Z) : option (Z * Z * Z * Z) :=
  tag ← input !! Z.to_nat offset;
  length_byte ← input !! Z.to_nat (offset + 1);
  '(length, content_start) ←
    (if Z.land length_byte 128 =? 0 then Some (length_byte, offset + 2)
     else
       let length_bytes := Z.land length_byte 127 in
       if (length_bytes =? 0) || (8 <? length_bytes) then None
       else
         bytes ← get_slice (Z.to_nat (offset + 2)) (Z.to_nat (offset + 2 + length_bytes)) input;
         length ← fold_left shift_in bytes (Some 0);
         Some (length, offset + 2 + length_bytes));
  content_end ← checked_add content_start length;
  if len input <? content_end then None
  else Some (tag, content_start, content_end, content_end).

Definition tlv_tag (tlv : Z * Z * Z * Z) : Z := tlv.1.1.1.
Definition tlv_next (tlv : Z * Z * Z * Z) : Z := tlv.2.

Definition next_field (tbs : byte_list) (offset : Z) : option Z := tlv_next <$> read_tlv tbs offset.

Section spki.
Context `{Sha256Lib}.

Definition spki_sha256 (certificate : byte_list) : panic_or unit byte_list :=
  let^ (tag, certificate_start, certificate_end, certificate_next) := ok_or tt (read_tlv certificate 0) in
  if negb (tag =? 48) || negb (certificate_next =? len certificate) then Some (Err tt)
  else
    let* content := index_slice certificate_start certificate_end certificate in
    let^ (tag, tbs_start, tbs_end, _) := ok_or tt (read_tlv content 0) in
    if negb (tag =? 48) then Some (Err tt)
    else
      let* tbs := index_slice (certificate_start + tbs_start) (certificate_start + tbs_end) certificate in
      let offset := 0 in
      let^ first := ok_or tt (read_tlv tbs offset) in
      let^ offset := ok_or tt (if tlv_tag first =? 160 then next_field tbs offset else Some offset) in
      let^ offset := ok_or tt (Nat.iter 5 (λ offset, offset ≫= next_field tbs) (Some offset)) in
      let^ spki_next := ok_or tt (next_field tbs offset) in
      let* spki := index_slice offset spki_next tbs in
      Some (Ok (sha256 spki)).
End spki.

(** ** The verifier *)

Inductive PinFailure :=
| PinMismatch (expected actual : byte_list)
| InvalidCertificate.

Definition into_error (failure : PinFailure) : RealtimeError :=
  match failure with
  | PinMismatch expected actual =>
      TlsPinMismatch (Fingerprint.to_hex expected) (Fingerprint.to_hex actual)
  | InvalidCertificate => TlsCertificateInvalid
  end.

Record PinnedServerCertVerifier := mkPinnedServerCertVerifier {
  expected : byte_list;
  failure : option PinFailure;
}.

Definition record_failure (f : PinFailure) (v : PinnedServerCertVerifier) : PinnedServerCertVerifier :=
  match failure v with
  | None => mkPinnedServerCertVerifier (expected v) (Some f)
  | Some _ => v
  end.

(** The verifier of [pinned_client_config]; [protocol_versions] is what rustls says to
    TLS 1.3 and 1.2. *)
Definition pinned_client_config (protocol_versions : result string unit) (expected : byte_list)
    : result RealtimeError PinnedServerCertVerifier :=
  let? _ := map_err (λ error, WsTransport ("invalid TLS configuration: " +:+ error)) protocol_versions in
  Ok (mkPinnedServerCertVerifier expected None).

Section verifier.
Context `{Sha256Lib, RustlsLib}.

Definition inspect_err {A} (r : result string A) : se PinnedServerCertVerifier TlsError A := λ v,
  (map_err RustlsError r, if is_ok r then v else record_failure InvalidCertificate v).

Definition verify_server_cert (end_entity : byte_list) (intermediates : list byte_list)
    (server_name : string) (now : Z) (v : PinnedServerCertVerifier)
    : option (result TlsError unit * PinnedServerCertVerifier) :=
  let* digest := spki_sha256 end_entity in
  Some
    match digest with
    | Err _ => (Err BadEncoding, record_failure InvalidCertificate v)
    | Ok actual =>
        if negb (Fingerprint.ct_eq actual (expected v)) then
          (Err ApplicationVerificationFailure, record_failure (PinMismatch (expected v) actual) v)
        else
          (let! certificate := inspect_err (parse_certificate end_entity) in
           let! _ := inspect_err (verify_server_name certificate server_name) in
           let! _ := inspect_err (add_root end_entity) in
           let! _ := inspect_err (verify_chain certificate end_entity intermediates now) in
           se_ret tt) v
    end.
End verifier.
End Ws.

(** ** Specification *)

(** The same refusal in the types of either crate. *)
Definition ws_failure (f : TlsVerificationFailure) : Ws.PinFailure :=
  match f with
  | PinMismatch expected actual => Ws.PinMismatch expected actual
  | InvalidCertificate => Ws.InvalidCertificate
  end.

(** Handshakes one after the other, by either verifier: the verdicts and the state. *)
Fixpoint handshakes {S : Type} (verify : Peer → S → option (result TlsError unit * S)) (peers : list Peer) (s : S)
    : option (list (result TlsError unit) * S) :=
  match peers with
  | [] => Some ([], s)
  | peer :: rest =>
      let* (verdict, s) := verify peer s in
      let* (verdicts, s) := handshakes verify rest s in
      Some (verdict :: verdicts, s)
  end.

Section verifiers.
Context `{Sha256Lib, RustlsLib}.

Definition http_verify (pin : byte_list) (p : Peer) : option TlsVerificationFailure → option (result TlsError unit * option TlsVerificationFailure) :=
  Tls.verify_server_cert record_last pin (peer_leaf p) (peer_chain p) (peer_name p) (peer_now p).

Definition ws_verify (p : Peer) : Ws.PinnedServerCertVerifier → option (result TlsError unit * Ws.PinnedServerCertVerifier) :=
  Ws.verify_server_cert (peer_leaf p) (peer_chain p) (peer_name p) (peer_now p).

(** ** Lemmas *)

Lemma shift_in_none l : fold_left Ws.shift_in l None = None.
Proof. by induction l. Qed.

Lemma shift_in_same l : ∀ acc, fold_left Ws.shift_in l (Some acc) = read_length acc l.
Proof.
  induction l as [|b l IH]; intros acc; [done|]. cbn [fold_left read_length]. unfold Ws.shift_in at 2, checked_add. cbn.
  destruct (u64_max <? _); [apply shift_in_none|apply IH].
Qed.

Lemma read_tlv_same input offset : Ws.read_tlv input offset = Tls.read_tlv input offset.
Proof.
  unfold Ws.read_tlv, Tls.read_tlv. destruct (input !! Z.to_nat offset) as [tag|]; [|done].
  destruct (input !! Z.to_nat (offset + 1)) as [b|]; [|done]. cbn. case_match; [done|]. case_match; [done|].
  destruct (get_slice _ _ _) as [bytes|]; [|done]. cbn. by rewrite shift_in_same.
Qed.

Lemma next_field_same n tbs : ∀ offset,
  Nat.iter n (λ offset, offset ≫= Ws.next_field tbs) (Some offset) = skip_fields n tbs offset.
Proof.
  induction n as [|n IH]; intros offset; [done|]. rewrite Nat.iter_succ_r. cbn [skip_fields mbind option_bind].
  unfold Ws.next_field at 2. rewrite read_tlv_same. destruct (Tls.read_tlv tbs offset) as [[[[tag start] stop] next]|]; cbn.
  - apply IH.
  - clear IH. induction n as [|n IH]; [done|]. by rewrite Nat.iter_succ, IH.
Qed.

Lemma spki_same certificate : Ws.spki_sha256 certificate = Tls.spki_sha256 certificate.
Proof.
  unfold Ws.spki_sha256, Tls.spki_sha256. rewrite read_tlv_same.
  destruct (Tls.read_tlv certificate 0) as [[[[tag start] stop] next]|]; [|done]. cbn [ok_or]. case_match; [done|].
  destruct (index_slice start stop certificate) as [content|]; [|done]. rewrite read_tlv_same.
  destruct (Tls.read_tlv content 0) as [[[[tag' start'] stop'] next']|]; [|done]. cbn [ok_or]. case_match; [done|].
  destruct (index_slice _ _ certificate) as [tbs|]; [|done]. rewrite read_tlv_same.
  destruct (Tls.read_tlv tbs 0) as [[[[tag'' start''] stop''] next'']|] eqn:Hfirst; [|done]. cbn [ok_or Ws.tlv_tag fst].
  assert ((if tag'' =? 160 then Ws.next_field tbs 0 else Some 0) = Some (if tag'' =? 160 then next'' else 0)) as ->.
  { case_match; [|done]. unfold Ws.next_field. by rewrite read_tlv_same, Hfirst. }
  cbn [ok_or]. rewrite next_field_same. destruct (skip_fields 5 tbs _) as [offset|]; [|done]. cbn [ok_or].
  unfold Ws.next_field. rewrite read_tlv_same. by destruct (Tls.read_tlv tbs offset) as [[[[? ?] ?] ?]|].
Qed.

(** One handshake: the same verdict; a refusal is recorded as the same refusal. *)
Lemma verify_same p v :
  ws_verify p v = match http_verify (Ws.expected v) p None with
                  | Some (Ok _, _) => Some (Ok tt, v)
                  | Some (Err e, Some f) => Some (Err e, Ws.record_failure (ws_failure f) v)
                  | _ => None
                  end.
Proof.
  unfold ws_verify, http_verify, Ws.verify_server_cert, Tls.verify_server_cert. rewrite spki_same.
  destruct (spki_sha256 (peer_leaf p)) as [[actual|[]]|]; [|done..]. destruct (negb _); [done|].
  unfold verify_trusted, se_bind, Ws.inspect_err, inspected, record_last, se_ret.
  destruct (parse_certificate (peer_leaf p)) as [certificate|]; [cbn|done].
  destruct (verify_server_name certificate (peer_name p)) as [[]|]; [cbn|done].
  destruct (add_root (peer_leaf p)) as [[]|]; [cbn|done].
  by destruct (verify_chain certificate (peer_leaf p) (peer_chain p) (peer_now p)) as [[]|].
Qed.

(** Either verifier in terms of the refusals. *)
Lemma http_verify_cases pin p recorded :
  (http_verify pin p recorded = None ∧ http_verify pin p None = None) ∨
  (http_verify pin p recorded = Some (Ok tt, recorded) ∧ http_verify pin p None = Some (Ok tt, None) ∧ refusal pin p = None) ∨
  ∃ e f, http_verify pin p recorded = Some (Err e, Some f) ∧ http_verify pin p None = Some (Err e, Some f) ∧ refusal pin p = Some f.
Proof.
  unfold http_verify, refusal, Tls.verify_server_cert, verify_trusted, se_bind, inspected, record_last.
  repeat (case_match; simplify_eq/=); repeat match goal with u : () |- _ => destruct u end; eauto 10.
Qed.

(** The realtime cell keeps the first of the refusals, the HTTP cell the last. *)
Lemma handshakes_same pin peers : ∀ recorded v, Ws.expected v = pin →
  match handshakes (http_verify pin) peers recorded, handshakes ws_verify peers v with
  | Some (verdicts, recorded'), Some (verdicts', v') =>
      verdicts = verdicts' ∧ length verdicts = length peers ∧ Ws.expected v' = pin ∧
      recorded' = from_option Some recorded (last (omap (refusal pin) peers)) ∧
      Ws.failure v' = from_option Some (head (ws_failure <$> omap (refusal pin) peers)) (Ws.failure v)
  | None, None => True
  | _, _ => False
  end.
Proof.
  induction peers as [|p peers IH]; intros recorded v Hv; cbn [handshakes].
  { split_and!; try done. by destruct (Ws.failure v). }
  rewrite verify_same, Hv. cbn [omap list_omap].
  destruct (http_verify_cases pin p recorded) as [[-> ->]|[(-> & -> & ->)|(e & f & -> & -> & ->)]]; [done|..].
  - specialize (IH recorded v Hv). destruct (handshakes (http_verify pin) peers recorded) as [[l c]|];
      destruct (handshakes ws_verify peers v) as [[l' c']|]; try done. destruct IH as (-> & Hn & ? & ? & ?).
    cbn. rewrite Hn. by split_and!.
  - set (v1 := Ws.record_failure (ws_failure f) v).
    assert (Ws.expected v1 = pin ∧ Ws.failure v1 = Some (from_option id (ws_failure f) (Ws.failure v))) as [Hv1 Hf1].
    { unfold v1, Ws.record_failure. by destruct (Ws.failure v) eqn:Hfail; rewrite ?Hfail. }
    specialize (IH (Some f) v1 Hv1). rewrite Hf1 in IH. destruct (handshakes (http_verify pin) peers (Some f)) as [[l c]|];
      destruct (handshakes ws_verify peers v1) as [[l' c']|]; try done. destruct IH as (-> & Hn & ? & -> & ->).
    cbn. rewrite Hn. split_and!; try done.
    + cbn. rewrite last_cons. by destruct (last _).
    + by destruct (Ws.failure v).
Qed.
End verifiers.

(** ** Properties *)

(** C24: the two copies of the pinned verifier are one. Whatever certificates are presented,
    one after the other, to a verifier of the HTTP client and to one of the realtime
    client with the same pin, they read the same keys, panic at the same ones, and come to
    the same verdicts for the same reasons. They differ in what they remember: the HTTP
    client the last refusal, the realtime client the first. *)
Theorem pinned_verifiers_agree `{Sha256Lib, RustlsLib} (pin : byte_list) (peers : list Peer) :
  (∀ certificate, Ws.spki_sha256 certificate = Tls.spki_sha256 certificate) ∧
  match handshakes (http_verify pin) peers None, handshakes ws_verify peers (Ws.mkPinnedServerCertVerifier pin None) with
  | Some (verdicts, recorded), Some (verdicts', v) =>
      verdicts = verdicts' ∧ length verdicts = length peers ∧
      recorded = last (omap (refusal pin) peers) ∧
      Ws.failure v = ws_failure <$> head (omap (refusal pin) peers)
  | None, None => True
  | _, _ => False
  end.
Proof.
  split; [apply spki_same|].
  pose proof (handshakes_same pin peers None (Ws.mkPinnedServerCertVerifier pin None) eq_refl) as Hsame.
  destruct (handshakes (http_verify pin) peers None) as [[l c]|]; destruct (handshakes ws_verify peers _) as [[l' v]|]; try done.
  destruct Hsame as (-> & <- & _ & -> & ->). split_and!; [done..| |].
  - by destruct (last _).
  - by destruct (omap (refusal pin) peers).
Qed.
