(* ===== verification/Connector.v ===== *)
(** The production WebSocket connector and its session (crates/zephyrvox-realtime/src:
    transport.rs): the authority check, the authorization
    header, the pinned handshake and the classification of its failure, and the
    translation of tungstenite's messages. *)

From S2P Require Import Prelude Text Types Wire RealtimeTypes RealtimeTransport Tls RealtimeTls.

(** The limit of [WebSocketConfig] for messages and frames. *)
Definition websocket_limit : Z := 256 * 1024.

(** [tungstenite::Message]. *)
Inductive TungsteniteMessage :=
| MText (text : string)
| MBinary (payload : byte_list)
| MPing (payload : byte_list)
| MPong (payload : byte_list)
| MClose (frame : option (Z * string))
| MFrame.

(** What the connector asks of tungstenite and http: the client request, the header
    value, and the dial with its TLS pin, which yields what the verifier recorded. *)
Class DialLib `{UrlLib} := {
  Stream : Type;
  ClientRequest : Type;
  into_client_request : string → result string ClientRequest;
  parse_header_value : string → result string string;
  insert_authorization : string → ClientRequest → ClientRequest;
  dial : ClientRequest → Z → option byte_list →
         result TungsteniteError Stream * option Ws.PinFailure;
}.

Section connector.
Context `{DialLib}.

(** [TokioTungsteniteConnector::connect]. *)
Definition connector_connect (card : ServerCard) (url : Url) (access_token : string)
    : result RealtimeError Stream :=
  if negb (url_matches_card url card) then
    Err (Protocol "WebSocket URL does not match server card authority")
  else
    let? request := map_err WsTransport (into_client_request (url_as_str url)) in
    let? header := map_err (λ error, WsTransport ("invalid authorization header: " +:+ error))
                     (parse_header_value ("Bearer " +:+ access_token)) in
    let request := insert_authorization header request in
    match dial request websocket_limit (fingerprint card) with
    | (Ok stream, _) => Ok stream
    | (Err error, recorded) =>
        match fingerprint card, recorded with
        | Some _, Some failure => Err (Ws.into_error failure)
        | _, _ => Err (map_upgrade_error error)
        end
    end.
End connector.

(** The loop of [TokioTungsteniteSession::receive] over what the stream yields: the
    first message that is not a raw frame, and what the stream is left with. *)
Fixpoint receive (stream : list (result string TungsteniteMessage))
    : result RealtimeError (option WebSocketMessage) * list (result string TungsteniteMessage) :=
  match stream with
  | [] => (Ok None, [])
  | Ok MFrame :: rest => receive rest
  | Ok (MText text) :: rest => (Ok (Some (WText text)), rest)
  | Ok (MPing payload) :: rest => (Ok (Some (WPing payload)), rest)
  | Ok (MPong payload) :: rest => (Ok (Some (WPong payload)), rest)
  | Ok (MClose frame) :: rest => (Ok (Some (WCloseFrame (fst <$> frame) (snd <$> frame))), rest)
  | Ok (MBinary _) :: rest => (Err (Protocol "binary WebSocket frames are not accepted"), rest)
  | Err error :: rest => (Err (WsTransport error), rest)
  end.

(** ** Properties *)

Section authentication.
Context `{DialLib, Sha256Lib, RustlsLib}.

(** A handshake: the verifier of the pin, given the certificates of the peer. *)
Definition handshake_verdict (pin leaf : byte_list) (intermediates : list byte_list)
    (server_name : string) (now : Z) : option (result TlsError unit * option Ws.PinFailure) :=
  let* (verdict, v) := Ws.verify_server_cert leaf intermediates server_name now (Ws.mkPinnedServerCertVerifier pin None) in
  Some (verdict, Ws.failure v).

(** The verdict, in terms of the other copy. *)
Lemma handshake_verdict_same pin leaf intermediates name now :
  handshake_verdict pin leaf intermediates name now
  = match verify_server_cert record_last pin leaf intermediates name now None with
    | Some (Ok _, _) => Some (Ok tt, None)
    | Some (Err e, Some f) => Some (Err e, Some (ws_failure f))
    | _ => None
    end.
Proof.
  pose proof (verify_same (mkPeer leaf intermediates name now) (Ws.mkPinnedServerCertVerifier pin None)) as Hsame.
  unfold ws_verify, http_verify in Hsame. cbn in Hsame. unfold handshake_verdict. rewrite Hsame.
  by destruct (verify_server_cert _ _ _ _ _ _ _) as [[[]  [[]|]]|].
Qed.

(** What rustls documents of a custom verifier: the handshake succeeds only once the
    verifier has accepted the certificate of the peer, and the verifier is asked at
    most once. *)
Definition dial_verifies : Prop := ∀ request limit pin,
  match dial request limit (Some pin) with
  | (Ok _, recorded) =>
      ∃ leaf intermediates name now, bytes_ok leaf ∧ len leaf ≤ u64_max ∧
        handshake_verdict pin leaf intermediates name now = Some (Ok tt, recorded)
  | (Err _, recorded) =>
      recorded = None ∨
      ∃ leaf intermediates name now e, bytes_ok leaf ∧ len leaf ≤ u64_max ∧
        handshake_verdict pin leaf intermediates name now = Some (Err e, recorded)
  end.

Lemma verdict_ok pin leaf intermediates name now recorded :
  (∀ l, length (sha256 l) = 32%nat) → length pin = 32%nat → bytes_ok leaf → len leaf ≤ u64_max →
  handshake_verdict pin leaf intermediates name now = Some (Ok tt, recorded) →
  ∃ spki, certificate_with_key spki leaf ∧ sha256 spki = pin ∧ trusted leaf intermediates name now.
Proof.
  intros Hsha Hpin Hin Hsmall Hv.
  destruct (verifier_exact record_last pin leaf intermediates name now None Hsha Hpin Hin Hsmall)
    as (r & recorded' & Hv' & Hok & _).
  rewrite handshake_verdict_same, Hv' in Hv. destruct r as [[]|e]; [|by destruct recorded'].
  destruct (proj1 Hok eq_refl) as [(spki & Hspki & <-) Ht]. by exists spki.
Qed.

Lemma verdict_mismatch pin leaf intermediates name now e expected actual :
  (∀ l, length (sha256 l) = 32%nat) → length pin = 32%nat → bytes_ok leaf → len leaf ≤ u64_max →
  handshake_verdict pin leaf intermediates name now = Some (Err e, Some (Ws.PinMismatch expected actual)) →
  expected = pin ∧ ∃ spki, certificate_with_key spki leaf ∧ actual = sha256 spki ∧ actual ≠ pin.
Proof.
  intros Hsha Hpin Hin Hsmall Hv.
  destruct (verifier_exact record_last pin leaf intermediates name now None Hsha Hpin Hin Hsmall)
    as (r & recorded' & Hv' & _ & _ & Herr).
  rewrite handshake_verdict_same, Hv' in Hv. destruct r as [u|e']; [done|].
  destruct (Herr _ eq_refl) as (failure & -> & Hm). by destruct failure; simplify_eq/=.
Qed.

(** The outcomes of [connector_connect]. *)
Lemma connect_cases card url token :
  match connector_connect card url token with
  | Ok stream =>
      url_matches_card url card = true ∧
      ∃ request header recorded,
        into_client_request (url_as_str url) = Ok request ∧
        parse_header_value ("Bearer " +:+ token) = Ok header ∧
        dial (insert_authorization header request) websocket_limit (fingerprint card) = (Ok stream, recorded)
  | Err (TlsPinMismatch e a) =>
      ∃ pin expected actual request error,
        fingerprint card = Some pin ∧ e = Fingerprint.to_hex expected ∧ a = Fingerprint.to_hex actual ∧
        dial request websocket_limit (Some pin) = (Err error, Some (Ws.PinMismatch expected actual))
  | Err TlsCertificateInvalid =>
      ∃ pin request error, fingerprint card = Some pin ∧
        dial request websocket_limit (Some pin) = (Err error, Some Ws.InvalidCertificate)
  | Err _ => True
  end.
Proof.
  unfold connector_connect. destruct (url_matches_card url card); [|done]. cbn [negb].
  destruct (into_client_request _) as [request|]; [|done]. cbn.
  destruct (parse_header_value _) as [header|]; [|done]. cbn.
  destruct (dial _ _ _) as [[stream|error] recorded] eqn:Hd.
  - split; [done|]. by exists request, header, recorded.
  - unfold map_upgrade_error.
    destruct (fingerprint card) as [pin|]; destruct recorded as [[expected actual|]|];
      try (by repeat case_match); cbn;
      [by eexists pin, expected, actual, _, _|by eexists pin, _, _].
Qed.

(** A TLS connection authenticates its server. Whatever the network does, a session
    to a TLS card exists only over a handshake in which rustls trusted a leaf whose key
    has the digest of the card, and it was dialled at the card's own authority. A
    reported pin mismatch names the digest of the card and that of the key of a
    certificate which the peer presented; both certificate failures are terminal, so
    the connection is not retried, and a plaintext card never reports one. *)
Theorem connector_authenticates_server (card : ServerCard) (url : Url) (token : string) :
  Card.ok card → dial_verifies → (∀ l, length (sha256 l) = 32%nat) →
  match connector_connect card url token with
  | Ok stream =>
      url_matches_card url card = true ∧
      ∀ pin, fingerprint card = Some pin →
        ∃ leaf intermediates name now spki,
          certificate_with_key spki leaf ∧ sha256 spki = pin ∧ trusted leaf intermediates name now
  | Err (TlsPinMismatch e a as error) =>
      terminal_error error = true ∧
      ∃ pin leaf spki, fingerprint card = Some pin ∧ e = Fingerprint.to_hex pin ∧
        certificate_with_key spki leaf ∧ a = Fingerprint.to_hex (sha256 spki) ∧ sha256 spki ≠ pin
  | Err (TlsCertificateInvalid as error) =>
      terminal_error error = true ∧ is_tls (scheme card) = true
  | Err _ => True
  end.
Proof.
  intros Hcard Hdial Hsha. pose proof (connect_cases card url token) as Hc.
  assert (∀ pin, fingerprint card = Some pin → length pin = 32%nat ∧ is_tls (scheme card) = true) as Hpin.
  { intros pin Hp. split; [by apply (Card.ok_fingerprint_bytes card Hcard)|].
    assert (scheme card = Tls) as -> by (apply (Card.ok_fingerprint card Hcard); by rewrite Hp). done. }
  destruct (connector_connect card url token) as [stream|error]; [|destruct error; try exact I].
  - destruct Hc as (Hurl & request & header & recorded & _ & _ & Hd). split; [done|].
    intros pin Hp. rewrite Hp in Hd. pose proof (Hdial (insert_authorization header request) websocket_limit pin) as Hv.
    rewrite Hd in Hv. destruct Hv as (leaf & inter & name & now & Hin & Hsmall & Hv).
    destruct (Hpin pin Hp) as [Hlen _].
    destruct (verdict_ok _ _ _ _ _ _ Hsha Hlen Hin Hsmall Hv) as (spki & Hspki & Hdig & Ht). eauto 10.
  - destruct Hc as (pin & e & a & request & error & Hp & -> & -> & Hd). split; [done|].
    pose proof (Hdial request websocket_limit pin) as Hv. rewrite Hd in Hv.
    destruct Hv as [?|(leaf & inter & name & now & e' & Hin & Hsmall & Hv)]; [done|].
    destruct (Hpin pin Hp) as [Hlen _].
    destruct (verdict_mismatch _ _ _ _ _ _ _ _ Hsha Hlen Hin Hsmall Hv) as (-> & spki & Hspki & -> & Hne).
    by exists pin, leaf, spki.
  - destruct Hc as (pin & request & error & Hp & _). split; [done|]. by apply (Hpin pin).
Qed.
End authentication.

(** ** A concrete handshake *)

Module ToyDial.
#[export] Instance lib : @DialLib toy_ws_lib := {|
  Stream := unit;
  ClientRequest := string;
  into_client_request := Ok;
  parse_header_value := Ok;
  insert_authorization header _ := header;
  dial _ _ pin :=
    match pin with
    | None => (Ok tt, None)
    | Some pin =>
        match handshake_verdict (H1:=ToyTls.sha) (H2:=ToyTls.rustls) pin ToyTls.certificate [] "example.org" 5 with
        | Some (Ok _, recorded) => (Ok tt, recorded)
        | Some (Err _, recorded) => (Err (OtherError "handshake"), recorded)
        | None => (Err (OtherError "panic"), None)
        end
    end;
|}.

Definition card (pin : byte_list) : ServerCard := mkServerCard Tls "example.org" 7788 (Some pin) None 1.

(** The endpoint of the card. *)
Definition url : @Url toy_ws_lib := (Tls, "example.org"%string, 7788).
End ToyDial.

#[local] Existing Instance ToyTls.sha.
#[local] Existing Instance ToyTls.rustls.
#[local] Existing Instance ToyDial.lib.

Lemma toy_dial_verifies : dial_verifies (H:=toy_ws_lib).
Proof.
  intros request limit pin. cbn [dial ToyDial.lib].
  destruct (handshake_verdict pin ToyTls.certificate [] "example.org" 5) as [[[[]|e] recorded]|] eqn:Hv; [| |by left].
  - exists ToyTls.certificate, [], "example.org"%string, 5.
    split_and!; [exact toy_bytes_ok|vm_compute; congruence|exact Hv].
  - right. exists ToyTls.certificate, [], "example.org"%string, 5, e.
    split_and!; [exact toy_bytes_ok|vm_compute; congruence|exact Hv].
Qed.

Lemma toy_card_ok pin : Fingerprint.ok pin → Card.ok (ToyDial.card pin).
Proof.
  intros Hpin. constructor; simpl; try done.
  - apply host_checked; [done|vm_compute; reflexivity].
  - by intros f [= <-].
Qed.

Lemma connector_authenticates_server_witness :
  connector_connect (ToyDial.card (sha256 ToyTls.spki)) ToyDial.url "token" = Ok tt ∧
  ∃ leaf spki, certificate_with_key spki leaf ∧ sha256 spki = sha256 ToyTls.spki.
Proof.
  assert (connector_connect (ToyDial.card (sha256 ToyTls.spki)) ToyDial.url "token" = Ok tt) as Hok
    by (vm_compute; reflexivity).
  split; [exact Hok|].
  assert (Fingerprint.ok (sha256 ToyTls.spki)) as Hpin.
  { split; [reflexivity|]. apply Forall_replicate, Z.mod_pos_bound. lia. }
  pose proof (connector_authenticates_server (ToyDial.card (sha256 ToyTls.spki)) ToyDial.url "token"
    (toy_card_ok _ Hpin) toy_dial_verifies
    (λ l, eq_refl)) as Ht.
  rewrite Hok in Ht. destruct (proj2 Ht _ eq_refl) as (leaf & inter & name & now & spki & Hs & Hd & _).
  by exists leaf, spki.
Defined.
