(* ===== verification/Connection.v ===== *)
(** The shared state of one control connection and its command waiters
    (crates/zephyrvox-realtime/src/connection.rs, and resolve_pending and
    clear_socket_state of engine.rs).

    A command is a small process of its own: it shares the connection state with
    the socket owner and with other commands, and each of its lock sections is one step.
    The statements of [clear_socket_state] are one step of the owner.
    Its oneshot channel is the entry of its number in the log of deliveries. *)

From Stdlib Require Import Sorted.
From S2P Require Import Prelude Text Types Hex Json Wire ClientModel RealtimeTypes Projection.
From S2P Require Import StateStore RealtimeTransport.

Definition format_request_id (millis sequence : Z) : string :=
  of_bytes (str_bytes "zv-" ++ pad_hex 11 millis ++ str_bytes "-" ++ hex16 sequence).

Section connection.
Context {V : Type} `{PayloadDecoders V, Broadcast (StateEvent V)}.

Record Conn := mkConn {
  cn_config : RealtimeConfig;
  cn_state : StateStore V;
  cn_status : ConnectionStatus;
  (** What [event_tx] has published. *)
  cn_events : list (ClientEvent V);
  (** The queue to the socket owner, while a socket is ready. *)
  cn_outbound : option (list string);
  cn_pending : gmap string nat;
  (** The results sent to the waiters, by their number. *)
  cn_delivered : list (nat * result RealtimeError CommandAck);
  cn_sequence : Z;
  cn_stopped : bool;
  cn_control_id : option byte_list;
  cn_access_expires_at : Z;
}.

Definition connect_with_connector `{UrlLib} (card : ServerCard) (config : RealtimeConfig)
    (snapshot : result RealtimeError StateSnapshot) : result RealtimeError Conn :=
  let? snapshot := snapshot in
  let? _ := websocket_url card in
  Ok (mkConn config (store_from_snapshot snapshot) SDisconnected [] None ∅ [] 0 false None 0).

(** *** One field at a time *)

Definition with_state (s : StateStore V) (c : Conn) : Conn :=
  mkConn (cn_config c) s (cn_status c) (cn_events c) (cn_outbound c) (cn_pending c) (cn_delivered c)
    (cn_sequence c) (cn_stopped c) (cn_control_id c) (cn_access_expires_at c).

Definition send_event_tx (e : ClientEvent V) (c : Conn) : Conn :=
  mkConn (cn_config c) (cn_state c) (cn_status c) (cn_events c ++ [e]) (cn_outbound c) (cn_pending c)
    (cn_delivered c) (cn_sequence c) (cn_stopped c) (cn_control_id c) (cn_access_expires_at c).

(** [status_tx.send_replace(status)]. *)
Definition replace_status (s : ConnectionStatus) (c : Conn) : Conn :=
  mkConn (cn_config c) (cn_state c) s (cn_events c) (cn_outbound c) (cn_pending c) (cn_delivered c)
    (cn_sequence c) (cn_stopped c) (cn_control_id c) (cn_access_expires_at c).

Definition with_outbound (o : option (list string)) (c : Conn) : Conn :=
  mkConn (cn_config c) (cn_state c) (cn_status c) (cn_events c) o (cn_pending c) (cn_delivered c)
    (cn_sequence c) (cn_stopped c) (cn_control_id c) (cn_access_expires_at c).

Definition with_pending (p : gmap string nat) (c : Conn) : Conn :=
  mkConn (cn_config c) (cn_state c) (cn_status c) (cn_events c) (cn_outbound c) p (cn_delivered c)
    (cn_sequence c) (cn_stopped c) (cn_control_id c) (cn_access_expires_at c).

Definition with_delivered (d : list (nat * result RealtimeError CommandAck)) (c : Conn) : Conn :=
  mkConn (cn_config c) (cn_state c) (cn_status c) (cn_events c) (cn_outbound c) (cn_pending c) d
    (cn_sequence c) (cn_stopped c) (cn_control_id c) (cn_access_expires_at c).

Definition with_control (id : option byte_list) (c : Conn) : Conn :=
  mkConn (cn_config c) (cn_state c) (cn_status c) (cn_events c) (cn_outbound c) (cn_pending c)
    (cn_delivered c) (cn_sequence c) (cn_stopped c) id (cn_access_expires_at c).

Definition store_expires (at_millis : Z) (c : Conn) : Conn :=
  mkConn (cn_config c) (cn_state c) (cn_status c) (cn_events c) (cn_outbound c) (cn_pending c)
    (cn_delivered c) (cn_sequence c) (cn_stopped c) (cn_control_id c) at_millis.

Definition with_stopped (b : bool) (c : Conn) : Conn :=
  mkConn (cn_config c) (cn_state c) (cn_status c) (cn_events c) (cn_outbound c) (cn_pending c)
    (cn_delivered c) (cn_sequence c) b (cn_control_id c) (cn_access_expires_at c).

(** *** engine.rs *)

Definition set_status (s : ConnectionStatus) (c : Conn) : Conn :=
  send_event_tx (StatusChanged s) (replace_status s c).

Definition resolve_pending (request_id : string) (r : result RealtimeError CommandAck) (c : Conn)
    : Conn :=
  match cn_pending c !! request_id with
  | Some waiter =>
      with_delivered (cn_delivered c ++ [(waiter, r)])
        (with_pending (delete request_id (cn_pending c)) c)
  | None => c
  end.

Definition clear_socket_state (c : Conn) : Conn :=
  let drained := (λ p : string * nat, (p.2, Err ConnectionClosed)) <$> map_to_list (cn_pending c) in
  with_delivered (cn_delivered c ++ drained)
    (with_pending ∅ (store_expires 0 (with_control None (with_outbound None c)))).

(** *** The public handle *)

Definition access_expires_at (c : Conn) : option Z :=
  if cn_access_expires_at c =? 0 then None else Some (cn_access_expires_at c).

(** [next_request_id]: the clock is an input. *)
Definition next_request_id (millis : Z) (c : Conn) : string * Conn :=
  let sequence := wrapping_add_u64 (cn_sequence c) 1 in
  (format_request_id millis sequence,
   mkConn (cn_config c) (cn_state c) (cn_status c) (cn_events c) (cn_outbound c) (cn_pending c)
     (cn_delivered c) sequence (cn_stopped c) (cn_control_id c) (cn_access_expires_at c)).

(** [close]: the first call raises the flag; the caller then waits for [Closed]. *)
Definition close (c : Conn) : Conn := if cn_stopped c then c else with_stopped true c.

(** Where [wait_until_live] stands when it reads the status: [None] waits. *)
Definition wait_until_live (c : Conn) : option (result RealtimeError unit) :=
  match cn_status c with
  | SLive => Some (Ok tt)
  | SClosed => Some (Err ConnectionClosed)
  | _ => None
  end.

Definition may_send (allow_before_live : bool) (c : Conn) : bool :=
  bool_decide (cn_status c = SLive)
  || (allow_before_live && (bool_decide (cn_status c = SReady) || bool_decide (cn_status c = SSyncing))).

(** The section of [send_command] that enters waiter [k] in the table. *)
Definition insert_waiter (k : nat) (request_id : string) (c : Conn) : result RealtimeError unit * Conn :=
  if maximum_pending_commands (cn_config c) <=? Z.of_nat (size (cn_pending c)) then
    (Err (Protocol "pending command capacity is full"), c)
  else (Ok tt, with_pending (<[request_id := k]> (cn_pending c)) c).

(** [PendingCommandGuard::drop]. *)
Definition drop_guard (request_id : string) (c : Conn) : Conn :=
  with_pending (delete request_id (cn_pending c)) c.

(** The result for waiter [k], if one was sent. *)
Definition delivery (k : nat) (c : Conn) : option (result RealtimeError CommandAck) :=
  (λ p, p.2.2) <$> list_find (λ p, p.1 = k) (cn_delivered c).

(** *** Commands and the socket owner, interleaved *)

(** Where the future of [send_command] stands: not begun, past the check of the status,
    with an identifier and a frame, with a waiter in the table, with its clone of the queue
    to the socket, with its frame sent, returned, or dropped. *)
Inductive CmdPc :=
| CmdStart (allow_before_live : bool) (encode : string → result RealtimeError string)
| CmdAllowed (encode : string → result RealtimeError string)
| CmdNumbered (request_id payload : string)
| CmdWaiting (request_id payload : string)
| CmdHolding (request_id payload : string)
| CmdSent (request_id : string)
| CmdDone (request_id : option string) (r : result RealtimeError CommandAck)
| CmdCancelled.

(** A command past [insert_waiter], whose guard lives. *)
Definition running_id (pc : CmdPc) : option string :=
  match pc with
  | CmdWaiting id _ | CmdHolding id _ | CmdSent id => Some id
  | _ => None
  end.

(** A command that has taken an identifier and has not ended. *)
Definition issued_id (pc : CmdPc) : option string :=
  match pc with
  | CmdNumbered id _ => Some id
  | _ => running_id pc
  end.

(** A command before [insert_waiter]. *)
Definition unregistered (pc : CmdPc) : bool :=
  match pc with CmdStart _ _ | CmdAllowed _ | CmdNumbered _ _ => true | _ => false end.

(** A command that has found a queue to a socket. *)
Definition queued_id (pc : CmdPc) : option string :=
  match pc with CmdHolding id _ | CmdSent id => Some id | _ => None end.

Definition numbered (encode : string → result RealtimeError string) (id : string) : CmdPc :=
  match encode id with
  | Ok payload => CmdNumbered id payload
  | Err e => CmdDone None (Err e)
  end.

Record World := mkWorld { w_conn : Conn; w_cmds : list CmdPc }.

(** One step of a command or of the socket owner. The 64-bit request counter is
    taken not to wrap, and the clock to fit in 128 bits. A command does not suspend before
    it has its guard, so it can be dropped from then on. *)
Inductive world_step : World → World → Prop :=
| cmd_allowed c cmds k allow encode :
    cmds !! k = Some (CmdStart allow encode) → may_send allow c = true →
    world_step (mkWorld c cmds) (mkWorld c (<[k := CmdAllowed encode]> cmds))
| cmd_not_live c cmds k allow encode :
    cmds !! k = Some (CmdStart allow encode) → may_send allow c = false →
    world_step (mkWorld c cmds) (mkWorld c (<[k := CmdDone None (Err NotLive)]> cmds))
| cmd_number c cmds k encode millis :
    cmds !! k = Some (CmdAllowed encode) → is_u64 (cn_sequence c + 1) → 0 ≤ millis ≤ u128_max →
    world_step (mkWorld c cmds)
      (mkWorld (next_request_id millis c).2 (<[k := numbered encode (next_request_id millis c).1]> cmds))
| cmd_insert c cmds k id payload :
    cmds !! k = Some (CmdNumbered id payload) → (insert_waiter k id c).1 = Ok tt →
    world_step (mkWorld c cmds) (mkWorld (insert_waiter k id c).2 (<[k := CmdWaiting id payload]> cmds))
| cmd_full c cmds k id payload e :
    cmds !! k = Some (CmdNumbered id payload) → (insert_waiter k id c).1 = Err e →
    world_step (mkWorld c cmds) (mkWorld c (<[k := CmdDone None (Err e)]> cmds))
| cmd_no_outbound c cmds k id payload :
    cmds !! k = Some (CmdWaiting id payload) → cn_outbound c = None →
    world_step (mkWorld c cmds)
      (mkWorld (drop_guard id c) (<[k := CmdDone (Some id) (Err NotLive)]> cmds))
| cmd_clone c cmds k id payload queue :
    cmds !! k = Some (CmdWaiting id payload) → cn_outbound c = Some queue →
    world_step (mkWorld c cmds) (mkWorld c (<[k := CmdHolding id payload]> cmds))
| cmd_enqueue c cmds k id payload queue :
    cmds !! k = Some (CmdHolding id payload) → cn_outbound c = Some queue →
    world_step (mkWorld c cmds)
      (mkWorld (with_outbound (Some (queue ++ [payload])) c) (<[k := CmdSent id]> cmds))
| cmd_enqueue_stale c cmds k id payload :
    (* the clone belongs to a socket that is gone, with room in its queue *)
    cmds !! k = Some (CmdHolding id payload) →
    world_step (mkWorld c cmds) (mkWorld c (<[k := CmdSent id]> cmds))
| cmd_outbound_closed c cmds k id payload :
    cmds !! k = Some (CmdHolding id payload) →
    world_step (mkWorld c cmds)
      (mkWorld (drop_guard id c) (<[k := CmdDone (Some id) (Err ConnectionClosed)]> cmds))
| cmd_result c cmds k id r :
    cmds !! k = Some (CmdSent id) → delivery k c = Some r →
    world_step (mkWorld c cmds) (mkWorld (drop_guard id c) (<[k := CmdDone (Some id) r]> cmds))
| cmd_timeout c cmds k id :
    cmds !! k = Some (CmdSent id) → delivery k c = None →
    world_step (mkWorld c cmds)
      (mkWorld (drop_guard id c) (<[k := CmdDone (Some id) (Err CommandTimeout)]> cmds))
| cmd_cancel c cmds k pc id :
    cmds !! k = Some pc → running_id pc = Some id →
    world_step (mkWorld c cmds) (mkWorld (drop_guard id c) (<[k := CmdCancelled]> cmds))
| handle_close c cmds : world_step (mkWorld c cmds) (mkWorld (close c) cmds)
| owner_command_ok c cmds ack :
    world_step (mkWorld c cmds) (mkWorld (resolve_pending (Ack_request_id ack) (Ok ack) c) cmds)
| owner_command_error c cmds error :
    world_step (mkWorld c cmds)
      (mkWorld (resolve_pending (CommandError_request_id error) (Err (ServerCommand error)) c) cmds)
| owner_clear c cmds : world_step (mkWorld c cmds) (mkWorld (clear_socket_state c) cmds)
| owner_status c cmds s : world_step (mkWorld c cmds) (mkWorld (set_status s c) cmds)
| owner_control c cmds id : world_step (mkWorld c cmds) (mkWorld (with_control id c) cmds)
| owner_expires c cmds at_millis : world_step (mkWorld c cmds) (mkWorld (store_expires at_millis c) cmds)
| owner_outbound c cmds queue : world_step (mkWorld c cmds) (mkWorld (with_outbound (Some queue) c) cmds)
| owner_state c cmds s : world_step (mkWorld c cmds) (mkWorld (with_state s c) cmds)
| owner_event c cmds e : world_step (mkWorld c cmds) (mkWorld (send_event_tx e c) cmds).

(** *** The invariant of the waiters *)

Record world_ok (w : World) : Prop := {
  wo_pending : ∀ id k, cn_pending (w_conn w) !! id = Some k →
    ∃ pc, w_cmds w !! k = Some pc ∧ running_id pc = Some id;
  wo_bound : Z.of_nat (size (cn_pending (w_conn w))) ≤ maximum_pending_commands (cn_config (w_conn w));
  wo_ids : ∀ k pc id, w_cmds w !! k = Some pc → issued_id pc = Some id →
    ∃ millis sequence, id = format_request_id millis sequence ∧ 0 ≤ millis ≤ u128_max ∧
      1 ≤ sequence ≤ cn_sequence (w_conn w);
  wo_distinct : ∀ k k' pc pc' id, w_cmds w !! k = Some pc → w_cmds w !! k' = Some pc' →
    issued_id pc = Some id → issued_id pc' = Some id → k = k';
  wo_waiter : ∀ k pc id, w_cmds w !! k = Some pc → running_id pc = Some id →
    cn_pending (w_conn w) !! id = Some k ∨ k ∈ (cn_delivered (w_conn w)).*1;
  wo_queued : ∀ k pc id, w_cmds w !! k = Some pc → queued_id pc = Some id →
    cn_pending (w_conn w) !! id = Some k → is_Some (cn_outbound (w_conn w));
  wo_once : NoDup (cn_delivered (w_conn w)).*1;
  wo_delivered : ∀ k r, (k, r) ∈ cn_delivered (w_conn w) →
    (∀ id, cn_pending (w_conn w) !! id ≠ Some k) ∧
    (∀ pc, w_cmds w !! k = Some pc → unregistered pc = false) ∧
    (∀ pc id ack, w_cmds w !! k = Some pc → running_id pc = Some id → r = Ok ack →
       Ack_request_id ack = id);
  wo_sequence : 0 ≤ cn_sequence (w_conn w) ≤ u64_max;
  wo_done : ∀ k id ack, w_cmds w !! k = Some (CmdDone id (Ok ack)) →
    ∃ i, id = Some i ∧ Ack_request_id ack = i ∧ valid_request_id i = true;
}.
End connection.

Arguments Conn V {_}.

Arguments World V {_}.
Arguments mkWorld {V _} _ _.

(** ** Request identifiers *)

(** The bytes of an identifier. *)
Definition id_bytes (millis sequence : Z) : byte_list :=
  str_bytes "zv-" ++ pad_hex 11 millis ++ str_bytes "-" ++ hex16 sequence.

Lemma id_bytes_alphabet millis sequence :
  0 ≤ millis → Forall (λ b, hex_byte b ∨ b = 45 ∨ b = 118 ∨ b = 122) (id_bytes millis sequence).
Proof.
  intros Hm. unfold id_bytes. rewrite !Forall_app. split_and!.
  - change (str_bytes "zv-") with [122; 118; 45]. rewrite !Forall_cons. auto 10.
  - eapply Forall_impl; [by apply pad_hex_bytes|]. simpl. auto.
  - change (str_bytes "-") with [45]. rewrite !Forall_cons. auto 10.
  - eapply Forall_impl; [apply hex16_bytes|]. simpl. auto.
Qed.

Lemma str_format_id millis sequence : 0 ≤ millis →
  str_bytes (format_request_id millis sequence) = id_bytes millis sequence.
Proof.
  intros Hm. apply str_of_bytes. eapply Forall_impl; [by apply id_bytes_alphabet|].
  unfold hex_byte. simpl. lia.
Qed.

(** Identifiers of different sequences differ, whatever the clock reads. *)
Lemma format_request_id_inj m1 s1 m2 s2 :
  0 ≤ m1 → 0 ≤ m2 → is_u64 s1 → is_u64 s2 →
  format_request_id m1 s1 = format_request_id m2 s2 → s1 = s2.
Proof.
  intros Hm1 Hm2 Hs1 Hs2 Heq. apply (f_equal str_bytes) in Heq. rewrite !str_format_id in Heq by done.
  unfold id_bytes in Heq. rewrite !app_assoc in Heq.
  apply app_inj_2 in Heq as [_ Heq]; [|by rewrite !length_hex16]. by apply hex16_inj.
Qed.

(** And every one is accepted by the grammar that replies are checked against. *)
Lemma format_request_id_valid millis sequence :
  0 ≤ millis → valid_request_id (format_request_id millis sequence) = true.
Proof.
  intros Hm. unfold valid_request_id, str_len. rewrite str_format_id by done.
  rewrite !andb_true_iff, !Z.leb_le, forallb_forall. split.
  - unfold len, id_bytes, pad_hex. rewrite !length_app, length_replicate, length_hex16.
    pose proof (length_hex_of 32 millis) as Hl.
    change (length (str_bytes "zv-")) with 3%nat. change (length (str_bytes "-")) with 1%nat. lia.
  - intros b Hb%list_elem_of_In. pose proof (id_bytes_alphabet millis sequence Hm) as Hall.
    rewrite Forall_forall in Hall. apply Hall in Hb.
    unfold hex_byte, is_alphanumeric, is_digit, is_lower, is_upper, in_range in *.
    rewrite !orb_true_iff, !andb_true_iff, !Z.leb_le, !Z.eqb_eq. lia.
Qed.

(** ** The waiters *)

Lemma size_delete_le {A} (m : gmap string A) i : (size (delete i m) ≤ size m)%nat.
Proof. rewrite map_size_delete. destruct (m !! i); simpl; lia. Qed.

Section waiters.
Context {V : Type} `{PayloadDecoders V, Broadcast (StateEvent V)}.
Implicit Types (c : Conn V) (cmds : list (CmdPc)).

Lemma running_issued pc id : running_id pc = Some id → issued_id pc = Some id.
Proof. by destruct pc. Qed.

Lemma queued_running pc id : queued_id pc = Some id → running_id pc = Some id.
Proof. by destruct pc. Qed.

Lemma unregistered_running pc : unregistered pc = true → running_id pc = None.
Proof. by destruct pc. Qed.

Lemma unissued_running pc : issued_id pc = None → running_id pc = None.
Proof. by destruct pc. Qed.

Lemma frame_ok c c' cmds :
  cn_pending c' = cn_pending c → cn_delivered c' = cn_delivered c →
  cn_sequence c' = cn_sequence c → cn_config c' = cn_config c →
  (is_Some (cn_outbound c) → is_Some (cn_outbound c')) →
  world_ok (mkWorld c cmds) → world_ok (mkWorld c' cmds).
Proof.
  intros Hp Hd Hs Hc Ho []. constructor; simpl in *; rewrite ?Hp, ?Hd, ?Hs, ?Hc; try done.
  intros k pc id Hk Hid Hin. by eapply Ho, wo_queued0.
Qed.

(** A command that keeps its waiter. *)
Lemma move_ok c cmds k pc pc' id :
  cmds !! k = Some pc → running_id pc = Some id → running_id pc' = Some id →
  (queued_id pc' = Some id → cn_pending c !! id = Some k → is_Some (cn_outbound c)) →
  world_ok (mkWorld c cmds) → world_ok (mkWorld c (<[k := pc']> cmds)).
Proof.
  intros Hk Hrun Hrun' Hq [Hp Hb Hi Hdist Hw Hqd Ho Hd Hs Hdone]; simpl in *.
  assert (∀ k0 pc0 i, <[k := pc']> cmds !! k0 = Some pc0 → issued_id pc0 = Some i →
    ∃ pc1, cmds !! k0 = Some pc1 ∧ issued_id pc1 = Some i) as Hissued.
  { intros k0 pc0 i [(<- & <- & _)|[Hne Hk0]]%list_lookup_insert_Some Hr; [|by eauto].
    exists pc. split; [done|]. apply running_issued in Hrun, Hrun'. congruence. }
  assert (∀ k0 pc0 i, <[k := pc']> cmds !! k0 = Some pc0 → running_id pc0 = Some i →
    ∃ pc1, cmds !! k0 = Some pc1 ∧ running_id pc1 = Some i) as Hback.
  { intros k0 pc0 i [(<- & <- & _)|[Hne Hk0]]%list_lookup_insert_Some Hr; [|by eauto].
    exists pc. split; [done|congruence]. }
  constructor; simpl; try done.
  - intros i k0 (pc0 & Hpc0 & Hr)%Hp. destruct (decide (k0 = k)) as [->|Hne].
    + exists pc'. rewrite list_lookup_insert_eq by by eapply lookup_lt_Some.
      split; [done|congruence].
    + exists pc0. by rewrite list_lookup_insert_ne by done.
  - intros k0 pc0 i Hk0 Hr. destruct (Hissued _ _ _ Hk0 Hr) as (pc1 & ? & ?). by eapply Hi.
  - intros k0 k1 pc0 pc1 i H0' H1' Hr0 Hr1.
    destruct (Hissued _ _ _ H0' Hr0) as (? & ? & ?), (Hissued _ _ _ H1' Hr1) as (? & ? & ?).
    by eapply Hdist.
  - intros k0 pc0 i Hk0 Hr. destruct (Hback _ _ _ Hk0 Hr) as (pc1 & ? & ?). by eapply Hw.
  - intros k0 pc0 i [(<- & <- & _)|[Hne Hk0]]%list_lookup_insert_Some Hr; [|by eapply Hqd].
    assert (i = id) as -> by (apply queued_running in Hr; congruence). by apply Hq.
  - intros k0 r Hin. destruct (Hd k0 r Hin) as (Hn & Hst & Hack). split_and!; [done| |].
    + intros pc0 [(<- & <- & _)|[Hne Hk0]]%list_lookup_insert_Some; [by destruct pc'|by eapply Hst].
    + intros pc0 i ack Hk0 Hr. destruct (Hback _ _ _ Hk0 Hr) as (pc1 & ? & ?). by eapply Hack.
  - intros k0 i ack [(<- & -> & _)|[Hne Hk0]]%list_lookup_insert_Some; [done|by eapply Hdone].
Qed.

(** A command that ends gives its waiter up. *)
Lemma finish_command_ok c cmds k pc pc' id :
  cmds !! k = Some pc → running_id pc = Some id → issued_id pc' = None → unregistered pc' = false →
  (∀ i ack, pc' = CmdDone i (Ok ack) →
     ∃ j, i = Some j ∧ Ack_request_id ack = j ∧ valid_request_id j = true) →
  world_ok (mkWorld c cmds) → world_ok (mkWorld (drop_guard id c) (<[k := pc']> cmds)).
Proof.
  intros Hk Hid Hnone Hstart Hack' [Hp Hb Hi Hdist Hw Hqd Ho Hd Hs Hdone]; simpl in *.
  assert (∀ k0 pc0 i, <[k := pc']> cmds !! k0 = Some pc0 → issued_id pc0 = Some i →
    k0 ≠ k ∧ i ≠ id ∧ cmds !! k0 = Some pc0) as Hback.
  { intros k0 pc0 i [(<- & -> & _)|[Hne Hk0]]%list_lookup_insert_Some Hr; [congruence|].
    split_and!; [done| |done]. intros ->. apply Hne. eapply Hdist; eauto using running_issued. }
  constructor; simpl; try done.
  - intros i k0 [Hne Hk0]%lookup_delete_Some. destruct (Hp _ _ Hk0) as (pc0 & Hpc0 & Hr).
    exists pc0. rewrite list_lookup_insert_ne; [done|]. intros <-. congruence.
  - pose proof (size_delete_le (cn_pending c) id). lia.
  - intros k0 pc0 i Hk0 Hr. destruct (Hback _ _ _ Hk0 Hr) as (_ & _ & ?). by eapply Hi.
  - intros k0 k1 pc0 pc1 i H0' H1' Hr0 Hr1.
    destruct (Hback _ _ _ H0' Hr0) as (_ & _ & ?), (Hback _ _ _ H1' Hr1) as (_ & _ & ?).
    by eapply Hdist.
  - intros k0 pc0 i Hk0 Hr. destruct (Hback _ _ _ Hk0 (running_issued _ _ Hr)) as (_ & Hne & ?).
    destruct (Hw k0 pc0 i) as [?|?]; [done..| |by right]. left. by rewrite lookup_delete_ne.
  - intros k0 pc0 i Hk0 Hr [_ Hin]%lookup_delete_Some.
    destruct (Hback _ _ _ Hk0 (running_issued _ _ (queued_running _ _ Hr))) as (_ & _ & ?). by eapply Hqd.
  - intros k0 r Hin. destruct (Hd k0 r Hin) as (Hn & Hst & Hack). split_and!.
    + intros i [_ Hk0]%lookup_delete_Some. by eapply Hn.
    + intros pc0 [(<- & <- & _)|[Hne Hk0]]%list_lookup_insert_Some; [done|by eapply Hst].
    + intros pc0 i ack Hk0 Hr. destruct (Hback _ _ _ Hk0 (running_issued _ _ Hr)) as (_ & _ & ?). by eapply Hack.
  - intros k0 i ack [(<- & Heq & _)|[Hne Hk0]]%list_lookup_insert_Some;
      [by eapply Hack'|by eapply Hdone].
Qed.

(** A command before its waiter, refused or let on. *)
Lemma early_ok c cmds k pc pc' :
  cmds !! k = Some pc → unregistered pc = true → running_id pc' = None →
  (∀ id, issued_id pc' = Some id →
     (∃ millis sequence, id = format_request_id millis sequence ∧ 0 ≤ millis ≤ u128_max ∧ 1 ≤ sequence ≤ cn_sequence c) ∧
     ∀ k0 pc0, cmds !! k0 = Some pc0 → issued_id pc0 ≠ Some id) →
  (∀ i ack, pc' ≠ CmdDone i (Ok ack)) →
  world_ok (mkWorld c cmds) → world_ok (mkWorld c (<[k := pc']> cmds)).
Proof.
  intros Hk Hun Hrun Hnew Hack' [Hp Hb Hi Hdist Hw Hqd Ho Hd Hs Hdone]; simpl in *.
  assert (∀ k0 pc0 id, <[k := pc']> cmds !! k0 = Some pc0 →
    running_id pc0 = Some id → cmds !! k0 = Some pc0) as Hback.
  { intros k0 pc0 id [(<- & <- & _)|[Hne Hk0]]%list_lookup_insert_Some Hr; [congruence|done]. }
  constructor; simpl; [|done| | | | |done| |done|].
  - intros id k0 Hk0. destruct (Hp _ _ Hk0) as (pc0 & Hpc0 & Hr). exists pc0.
    rewrite list_lookup_insert_ne; [done|]. intros <-. apply unregistered_running in Hun. congruence.
  - intros k0 pc0 id [(<- & <- & _)|[Hne Hk0]]%list_lookup_insert_Some Hr; [by apply Hnew|by eapply Hi].
  - intros k0 k1 pc0 pc1 id [(<- & <- & _)|[Hne0 H0']]%list_lookup_insert_Some
      [(<- & <- & _)|[Hne1 H1']]%list_lookup_insert_Some Hr0 Hr1; [done| | |by eapply (Hdist k0 k1)].
    + by destruct (proj2 (Hnew _ Hr0) _ _ H1').
    + by destruct (proj2 (Hnew _ Hr1) _ _ H0').
  - intros k0 pc0 id Hk0 Hr. eapply Hw; eauto.
  - intros k0 pc0 id Hk0 Hr. eapply Hqd; eauto using queued_running.
  - intros k0 r Hin. destruct (Hd k0 r Hin) as (Hn & Hst & Hack). split_and!; [done| |by eauto].
    intros pc0 [(<- & <- & _)|[Hne Hk0]]%list_lookup_insert_Some; [|by eapply Hst].
    by rewrite (Hst _ Hk) in Hun.
  - intros k0 id ack [(_ & ? & _)|[Hne Hk0]]%list_lookup_insert_Some; [by destruct (Hack' id ack)|by eapply Hdone].
Qed.

(** A waiter that is resolved leaves the table and gets its one result. *)
Lemma resolve_ok c cmds id r :
  (∀ ack, r = Ok ack → Ack_request_id ack = id) →
  world_ok (mkWorld c cmds) → world_ok (mkWorld (resolve_pending id r c) cmds).
Proof.
  intros Hr Hok. unfold resolve_pending. destruct (cn_pending c !! id) as [k|] eqn:Hk; [|done].
  destruct Hok as [Hp Hb Hi Hdist Hw Hqd Ho Hd Hs Hdone]; simpl in *.
  destruct (Hp id k Hk) as (pck & Hpck & Hidk).
  assert (∀ i, delete id (cn_pending c) !! i ≠ Some k) as Hgone.
  { intros i [Hne Hi']%lookup_delete_Some. destruct (Hp i k Hi') as (pc & Hpc & Hrun). congruence. }
  constructor; simpl; rewrite ?fmap_app; try done.
  - intros i k0 [_ Hk0]%lookup_delete_Some. by apply Hp.
  - pose proof (size_delete_le (cn_pending c) id). lia.
  - intros k0 pc i Hk0 Hrun. destruct (Hw k0 pc i Hk0 Hrun) as [Hin|Hin].
    + destruct (decide (i = id)) as [->|Hne].
      * right. assert (k0 = k) as -> by congruence. apply elem_of_app. right. csimpl. set_solver.
      * left. by rewrite lookup_delete_ne.
    + right. apply elem_of_app. by left.
  - intros k0 pc i Hk0 Hrun [_ Hin]%lookup_delete_Some. by eapply Hqd.
  - apply NoDup_app. split; [done|]. split; [|by apply NoDup_singleton].
    intros k0 Hin Hk0. csimpl in Hk0. apply list_elem_of_singleton in Hk0 as ->.
    apply list_elem_of_fmap in Hin as ([k1 r1] & -> & Hin). by destruct (Hd _ _ Hin) as [Hn _], (Hn id).
  - intros k0 r0 [Hin|Hin]%elem_of_app.
    + destruct (Hd _ _ Hin) as (Hn & Hst & Hack). split_and!; [|done|done].
      intros i [_ Hk0]%lookup_delete_Some. by eapply Hn.
    + apply list_elem_of_singleton in Hin as [= -> ->]. split_and!; [done| |].
      * intros pc Hpc. rewrite Hpc in Hpck. injection Hpck as ->. by destruct pck.
      * intros pc i ack Hpc Hrun Hack. rewrite (Hr ack Hack). congruence.
Qed.

Lemma pending_injective c cmds : world_ok (mkWorld c cmds) →
  NoDup (snd <$> map_to_list (cn_pending c)).
Proof.
  intros [Hp _ _ _ _ _ _ _ _ _]. simpl in *. apply NoDup_fmap_2_strong; [|apply NoDup_map_to_list].
  intros [i k] [i' k'] H1%elem_of_map_to_list H2%elem_of_map_to_list. simpl. intros ->.
  destruct (Hp i k' H1) as (? & ? & ?), (Hp i' k' H2) as (? & ? & ?). congruence.
Qed.

(** Losing the socket completes every waiter. *)
Lemma clear_ok c cmds : world_ok (mkWorld c cmds) → world_ok (mkWorld (clear_socket_state c) cmds).
Proof.
  intros Hok. pose proof (pending_injective c cmds Hok) as Hinj.
  destruct Hok as [Hp Hb Hi Hdist Hw Hqd Ho Hd Hs Hdone]; simpl in *.
  assert (∀ k, k ∈ ((λ p : string * nat, (p.2, @Err RealtimeError CommandAck ConnectionClosed)) <$>
            map_to_list (cn_pending c)).*1 ↔ ∃ i, cn_pending c !! i = Some k) as Hdrain.
  { intros k. rewrite <- list_fmap_compose, list_elem_of_fmap. split.
    - intros ([i k'] & -> & Hin%elem_of_map_to_list). by exists i.
    - intros [i Hin%elem_of_map_to_list]. by exists (i, k). }
  constructor; simpl; rewrite ?fmap_app; try done.
  - rewrite map_size_empty. pose proof (Nat2Z.is_nonneg (size (cn_pending c))). lia.
  - intros k pc i Hk Hrun. right. apply elem_of_app.
    destruct (Hw k pc i Hk Hrun) as [Hin|Hin]; [right; apply Hdrain; eauto|by left].
  - apply NoDup_app. split; [done|]. split.
    + intros k Hin [i Hk]%Hdrain. apply list_elem_of_fmap in Hin as ([k1 r1] & -> & Hin).
      by destruct (Hd _ _ Hin) as [Hn _], (Hn i).
    + rewrite <- list_fmap_compose. exact Hinj.
  - intros k r [Hin|Hin]%elem_of_app.
    + destruct (Hd _ _ Hin) as (Hn & Hst & Hack). by split_and!.
    + apply list_elem_of_fmap in Hin as ([i k'] & [= -> ->] & Hin%elem_of_map_to_list).
      destruct (Hp i k' Hin) as (pc & Hpc & Hrun). split_and!; [done| |done].
      intros pc' Hpc'. rewrite Hpc' in Hpc. injection Hpc as ->. by destruct pc.
Qed.

Lemma number_ok c cmds k encode millis :
  cmds !! k = Some (CmdAllowed encode) → is_u64 (cn_sequence c + 1) → 0 ≤ millis ≤ u128_max →
  world_ok (mkWorld c cmds) →
  world_ok (mkWorld (next_request_id millis c).2 (<[k := numbered encode (next_request_id millis c).1]> cmds)).
Proof.
  intros Hk Hseq Hm Hok. unfold next_request_id, wrapping_add_u64, is_u64, u64_max in *.
  rewrite Z.mod_small by lia. cbn [fst snd]. set (id := format_request_id millis (cn_sequence c + 1)).
  destruct Hok as [Hp Hb Hi Hdist Hw Hqd Ho Hd Hs Hdone]; simpl in *. unfold u64_max in Hs.
  assert (∀ k0 pc0, cmds !! k0 = Some pc0 → issued_id pc0 ≠ Some id) as Hfresh.
  { intros k0 pc0 Hk0 Hrun. destruct (Hi k0 pc0 id Hk0 Hrun) as (m & s & Heq & Hm' & Hs').
    apply format_request_id_inj in Heq; unfold is_u64, u64_max; lia. }
  eapply early_ok; [exact Hk|done|..].
  - unfold numbered. by destruct (encode id).
  - intros i Hid. split; cbn [cn_sequence].
    + exists millis, (cn_sequence c + 1). unfold numbered in Hid. destruct (encode id); [|done].
      injection Hid as <-. split_and!; [done|lia..].
    + unfold numbered in Hid. destruct (encode id); [|done]. injection Hid as <-. exact Hfresh.
  - intros i ack. unfold numbered. by destruct (encode id).
  - constructor; simpl; try done; try (unfold u64_max; lia).
    intros k0 pc0 i Hk0 Hrun. destruct (Hi k0 pc0 i Hk0 Hrun) as (m & s & -> & ? & ?).
    exists m, s. split_and!; [done|lia..].
Qed.

Lemma insert_ok c cmds k id payload :
  cmds !! k = Some (CmdNumbered id payload) → (insert_waiter k id c).1 = Ok tt →
  world_ok (mkWorld c cmds) →
  world_ok (mkWorld (insert_waiter k id c).2 (<[k := CmdWaiting id payload]> cmds)).
Proof.
  intros Hk Hroom [Hp Hb Hi Hdist Hw Hqd Ho Hd Hs Hdone]; simpl in *. unfold insert_waiter in *.
  destruct (Z.leb_spec (maximum_pending_commands (cn_config c)) (Z.of_nat (size (cn_pending c))))
    as [?|Hlt]; [done|]. clear Hroom. cbn [snd].
  assert (∀ k0 pc0, cmds !! k0 = Some pc0 → issued_id pc0 = Some id → k0 = k) as Hown.
  { intros k0 pc0 Hk0 Hr. by eapply (Hdist k0 k). }
  assert (cn_pending c !! id = None) as Hnone.
  { destruct (cn_pending c !! id) as [k0|] eqn:Hin; [|done]. destruct (Hp id k0 Hin) as (pc & Hpc & Hrun).
    assert (k0 = k) as -> by eauto using running_issued. rewrite Hk in Hpc. by injection Hpc as <-. }
  assert (∀ k0 pc0 i, <[k := CmdWaiting id payload]> cmds !! k0 = Some pc0 → issued_id pc0 = Some i →
    (k0 = k ∧ i = id) ∨ (k0 ≠ k ∧ i ≠ id ∧ cmds !! k0 = Some pc0)) as Hback.
  { intros k0 pc0 i [(<- & <- & _)|[Hne Hk0]]%list_lookup_insert_Some Hrun.
    - left. split; [done|]. simpl in Hrun. congruence.
    - right. split_and!; [done| |done]. intros ->. by apply Hne, eq_sym, (Hown k0 pc0). }
  assert (∀ r, (k, r) ∉ cn_delivered c) as Hnew.
  { intros r Hin. destruct (Hd k r Hin) as (_ & Hst & _). by specialize (Hst _ Hk). }
  constructor; simpl; try done.
  - intros i k0 [(<- & <-)|[Hne Hk0]]%lookup_insert_Some.
    + eexists. by rewrite list_lookup_insert_eq by by eapply lookup_lt_Some.
    + destruct (Hp i k0 Hk0) as (pc0 & Hpc0 & Hrun). exists pc0.
      rewrite list_lookup_insert_ne; [done|]. intros <-. rewrite Hk in Hpc0. by simplify_eq.
  - rewrite map_size_insert_None by done. lia.
  - intros k0 pc0 i Hk0 Hrun. destruct (Hback _ _ _ Hk0 Hrun) as [[-> ->]|(_ & _ & Hk0')]; by eapply Hi.
  - intros k0 k1 pc0 pc1 i H0' H1' Hr0 Hr1.
    destruct (Hback _ _ _ H0' Hr0) as [[-> ->]|(_ & Hne0 & ?)],
      (Hback _ _ _ H1' Hr1) as [[-> Heq]|(_ & Hne1 & ?)]; try done. by eapply Hdist.
  - intros k0 pc0 i Hk0 Hrun. destruct (Hback _ _ _ Hk0 (running_issued _ _ Hrun)) as [[-> ->]|(_ & Hne & Hk0')].
    + left. by rewrite lookup_insert_eq.
    + destruct (Hw k0 pc0 i Hk0' Hrun) as [?|?]; [left|by right]. by rewrite lookup_insert_ne.
  - intros k0 pc0 i [(<- & <- & _)|[Hne Hk0]]%list_lookup_insert_Some Hrun; [done|].
    intros [(<- & Hkk)|[_ Hin]]%lookup_insert_Some; [by destruct Hne|by eapply Hqd].
  - intros k0 r Hin. destruct (Hd k0 r Hin) as (Hn & Hst & Hack). split_and!.
    + intros i [(<- & <-)|[_ Hk0]]%lookup_insert_Some; [by eapply Hnew|by eapply Hn].
    + intros pc0 [(_ & <- & _)|[Hne Hk0]]%list_lookup_insert_Some; [done|by eapply Hst].
    + intros pc0 i ack Hk0 Hrun. destruct (Hback _ _ _ Hk0 (running_issued _ _ Hrun)) as [[-> ->]|(_ & _ & Hk0')];
        [by destruct (Hnew r)|by eapply Hack].
  - intros k0 i ack [(_ & ? & _)|[Hne Hk0]]%list_lookup_insert_Some; [done|by eapply Hdone].
Qed.

(** The value a waiter receives is in the log. *)
Lemma delivery_in k c r : delivery k c = Some r → (k, r) ∈ cn_delivered c.
Proof.
  unfold delivery. rewrite fmap_Some. intros ([i [k' r']] & Hf & ->).
  apply list_find_Some in Hf as (Hin & Hk & _). simpl in *. subst.
  by eapply list_elem_of_lookup_2.
Qed.

Lemma delivery_some k c : k ∈ (cn_delivered c).*1 → is_Some (delivery k c).
Proof.
  intros ([k' r] & -> & Hin)%list_elem_of_fmap. unfold delivery. rewrite fmap_is_Some.
  by eapply list_find_elem_of.
Qed.

Lemma world_step_ok w w' : world_step w w' → world_ok w → world_ok w'.
Proof.
  destruct 1 as [c cmds k allow encode Hk _|c cmds k allow encode Hk _|c cmds k encode millis Hk Hseq Hm
    |c cmds k id payload Hk Hr|c cmds k id payload e Hk _|c cmds k id payload Hk Ho
    |c cmds k id payload q Hk Ho|c cmds k id payload q Hk Ho|c cmds k id payload Hk|c cmds k id payload Hk|c cmds k id r Hk Hr
    |c cmds k id Hk Hr|c cmds k pc id Hk Hid|c cmds|c cmds ack|c cmds error|c cmds|c cmds s
    |c cmds id|c cmds at_millis|c cmds queue|c cmds s|c cmds e]; intros Hok.
  - by eapply early_ok.
  - by eapply early_ok.
  - by eapply number_ok.
  - by apply insert_ok.
  - by eapply early_ok.
  - by eapply finish_command_ok.
  - eapply move_ok; [exact Hk|done|done| |done]. intros _ _. by exists q.
  - eapply move_ok; [exact Hk|done|done|by eexists|]. by eapply (frame_ok c).
  - eapply move_ok; [exact Hk|done|done| |done]. intros _. by eapply (wo_queued _ Hok).
  - by eapply finish_command_ok.
  - eapply finish_command_ok; try done. intros i ack [= <- ->].
    pose proof (delivery_in _ _ _ Hr) as Hin. exists id. split; [done|].
    destruct (wo_delivered _ Hok _ _ Hin) as (_ & _ & Hack).
    split; [by eapply Hack|]. destruct (wo_ids _ Hok k _ id Hk) as (m & s & -> & Hm & _); [done|].
    apply format_request_id_valid. lia.
  - by eapply finish_command_ok.
  - by eapply finish_command_ok.
  - unfold close. destruct (cn_stopped c); [done|]. by eapply (frame_ok c).
  - apply resolve_ok; [|done]. congruence.
  - by apply resolve_ok.
  - by apply clear_ok.
  - by eapply (frame_ok c).
  - by eapply (frame_ok c).
  - by eapply (frame_ok c).
  - eapply (frame_ok c); try done.
  - by eapply (frame_ok c).
  - by eapply (frame_ok c).
Qed.

(** A connection as [connect_with_connector] returns it, with commands not begun. *)
Definition world_init (c : Conn V) (cmds : list CmdPc) : Prop :=
  cn_pending c = ∅ ∧ cn_delivered c = [] ∧ cn_sequence c = 0 ∧ RealtimeConfig.ok (cn_config c) ∧
  Forall (λ pc, ∃ allow encode, pc = CmdStart allow encode) cmds.

Lemma world_init_ok c cmds : world_init c cmds → world_ok (mkWorld c cmds).
Proof.
  intros (Hp & Hd & Hs & [Hm _ _] & Hall).
  assert (∀ k pc, cmds !! k = Some pc → ∃ allow encode, pc = CmdStart allow encode) as Hst.
  { intros k pc Hk. rewrite Forall_lookup in Hall. by eapply Hall. }
  constructor; simpl; rewrite ?Hp, ?Hd, ?Hs.
  - intros id k Hk. by rewrite lookup_empty in Hk.
  - rewrite map_size_empty. lia.
  - intros k pc id (? & ? & ->)%Hst. done.
  - intros k k' pc pc' id (? & ? & ->)%Hst. done.
  - intros k pc id (? & ? & ->)%Hst. done.
  - intros k pc id (? & ? & ->)%Hst. done.
  - constructor.
  - intros k r Hin. by apply not_elem_of_nil in Hin.
  - unfold u64_max. lia.
  - intros k id ack (? & ? & ?)%Hst. done.
Qed.
End waiters.

(** ** Properties *)

(** C8: commands are answered by their own reply. However commands, timeouts,
    cancellations, replies and socket losses interleave: a command that returns an
    acknowledgement carries the request identifier it generated, which the reply
    grammar accepts; no waiter is completed twice; at most the configured number
    wait; and every entry of the waiter table belongs to a command that still runs,
    so a finished, timed-out or cancelled command leaves nothing behind. *)
Theorem command_replies_correlated {V} `{PayloadDecoders V, Broadcast (StateEvent V)}
    (c : Conn V) (cmds : list CmdPc) (w : World V) :
  world_init c cmds → rtc world_step (mkWorld c cmds) w →
  (∀ k id ack, w_cmds w !! k = Some (CmdDone id (Ok ack)) →
     id = Some (Ack_request_id ack) ∧ valid_request_id (Ack_request_id ack) = true) ∧
  NoDup (cn_delivered (w_conn w)).*1 ∧
  Z.of_nat (size (cn_pending (w_conn w))) ≤ maximum_pending_commands (cn_config (w_conn w)) ∧
  (∀ id k, cn_pending (w_conn w) !! id = Some k →
     ∃ pc, w_cmds w !! k = Some pc ∧ running_id pc = Some id).
Proof.
  intros Hinit Hsteps. assert (world_ok w) as [].
  { eapply (rtc_invariant world_step world_ok); [intros; by eapply world_step_ok|exact Hsteps|].
    by apply world_init_ok. }
  split_and!; try done. intros k id ack Hk. by destruct (wo_done0 k id ack Hk) as (i & -> & <- & ?).
Qed.

(** A live connection and one command, for the witnesses. *)
Definition toy_conn : Conn ToyPayload.value :=
  mkConn RealtimeConfig.new toy_store SLive [] (Some []) ∅ [] 0 false None 0.

Definition toy_cmds : list CmdPc := [CmdStart false Ok].

Definition toy_id : string := format_request_id 1 1.

Definition toy_begun : Conn ToyPayload.value := (insert_waiter 0 toy_id (next_request_id 1 toy_conn).2).2.

Definition toy_ack : CommandAck := mkCommandAck toy_id "presence.set" None None.

Lemma toy_init : world_init toy_conn toy_cmds.
Proof.
  split_and!; try reflexivity.
  - constructor; vm_compute; repeat split; congruence.
  - repeat constructor. eauto.
Qed.

Lemma toy_waiting :
  rtc world_step (mkWorld toy_conn toy_cmds) (mkWorld toy_begun [CmdWaiting toy_id toy_id]).
Proof.
  eapply rtc_l; [by apply (cmd_allowed toy_conn toy_cmds 0 false Ok)|].
  eapply rtc_l; [apply (cmd_number toy_conn [CmdAllowed Ok] 0 Ok 1);
    [done|vm_compute; split; congruence|vm_compute; split; congruence]|].
  eapply rtc_once. by apply (cmd_insert (next_request_id 1 toy_conn).2 [CmdNumbered toy_id toy_id] 0 toy_id toy_id).
Qed.

Lemma toy_sent : rtc world_step (mkWorld toy_conn toy_cmds)
  (mkWorld (with_outbound (Some [toy_id]) toy_begun) [CmdSent toy_id]).
Proof.
  eapply rtc_r; [eapply rtc_r; [exact toy_waiting|]|].
  - by apply (cmd_clone toy_begun [CmdWaiting toy_id toy_id] 0 toy_id toy_id []).
  - by apply (cmd_enqueue toy_begun [CmdHolding toy_id toy_id] 0 toy_id toy_id []).
Qed.

Definition toy_replied : Conn ToyPayload.value :=
  resolve_pending toy_id (Ok toy_ack) (with_outbound (Some [toy_id]) toy_begun).

Lemma toy_done : rtc world_step (mkWorld toy_conn toy_cmds)
  (mkWorld (drop_guard toy_id toy_replied) [CmdDone (Some toy_id) (Ok toy_ack)]).
Proof.
  eapply rtc_r; [eapply rtc_r; [exact toy_sent|]|].
  - exact (owner_command_ok (with_outbound (Some [toy_id]) toy_begun) [CmdSent toy_id] toy_ack).
  - apply (cmd_result toy_replied [CmdSent toy_id] 0 toy_id (Ok toy_ack)); vm_compute; reflexivity.
Qed.

Lemma command_replies_correlated_witness : valid_request_id toy_id = true.
Proof.
  exact (proj2 (proj1 (command_replies_correlated toy_conn toy_cmds _ toy_init toy_done)
    0%nat (Some toy_id) toy_ack eq_refl)).
Defined.

(** No caller is left waiting. In every reachable state a command whose frame was
    queued either still has its entry in the waiter table or has its result; so
    once the socket is lost, and its table cleared, every such command can return,
    and it returns [Closed] unless its reply had come first. *)
Theorem socket_loss_completes_commands {V} `{PayloadDecoders V, Broadcast (StateEvent V)}
    (c : Conn V) (cmds : list CmdPc) (w : World V) (k : nat) (id : string) :
  world_init c cmds → rtc world_step (mkWorld c cmds) w → w_cmds w !! k = Some (CmdSent id) →
  cn_pending (clear_socket_state (w_conn w)) = ∅ ∧
  ∃ r, delivery k (clear_socket_state (w_conn w)) = Some r ∧
    (r = Err ConnectionClosed ∨ (k, r) ∈ cn_delivered (w_conn w)) ∧
    world_step (mkWorld (clear_socket_state (w_conn w)) (w_cmds w))
      (mkWorld (drop_guard id (clear_socket_state (w_conn w)))
         (<[k := CmdDone (Some id) r]> (w_cmds w))).
Proof.
  intros Hinit Hsteps Hk. assert (world_ok w) as Hok.
  { eapply (rtc_invariant world_step world_ok); [intros; by eapply world_step_ok|exact Hsteps|].
    by apply world_init_ok. }
  split; [done|]. destruct w as [c1 cmds1]. apply clear_ok in Hok as Hok'.
  destruct (wo_waiter _ Hok' k _ id Hk eq_refl) as [Hp|Hin]; simpl in *;
    [by rewrite lookup_empty in Hp|].
  apply (delivery_some k (clear_socket_state c1)) in Hin as [r Hr]. exists r. split; [done|]. split.
  - apply delivery_in in Hr. simpl in Hr. apply elem_of_app in Hr as [Hr|Hr]; [by right|left].
    apply list_elem_of_fmap in Hr as ([? ?] & [= _ ->] & _). done.
  - by apply cmd_result.
Qed.

Lemma socket_loss_completes_commands_witness :
  ∃ r, delivery 0 (clear_socket_state (with_outbound (Some [toy_id]) toy_begun)) = Some r.
Proof.
  destruct (socket_loss_completes_commands toy_conn toy_cmds _ 0 toy_id toy_init toy_sent eq_refl)
    as (_ & r & Hr & _).
  exists r. exact Hr.
Defined.
