(* ===== verification/Engine.v ===== *)
(** One socket of a control connection (crates/zephyrvox-realtime/src/engine/socket.rs)
    and the reconnecting owner task (engine.rs).

    The socket owner is a sequence of state transitions over the shared connection
    and the locals of the task. What the provider and the transport answer is the
    environment [Env], indexed by the number of calls made so far; what the
    [select!]s of the loop see is an explicit list of inputs. *)

From Stdlib Require Import Sorted.
From S2P Require Import Prelude Text Types Json Wire ClientModel RealtimeTypes Projection StateStore.
From S2P Require Import SyncMachine RealtimeTransport Connection.

Inductive Sent :=
| SentText (text : string)
| SentPong (payload : byte_list).

(** The [n]-th call of the provider, and the [n]-th send of the session. *)
Record Env := mkEnv {
  env_snapshot : nat → result RealtimeError StateSnapshot;
  env_send : nat → result RealtimeError unit;
}.

Section socket.
Context {V : Type} `{PayloadDecoders V, Broadcast (StateEvent V), FrameDecoders V, FrameEncoders V}.
Context (env : Env).

Record Sock := mkSock {
  so_conn : Conn V;
  so_machine : SyncMachine V;
  so_sent : list Sent;
  so_snapshots : nat;
}.

Definition on_conn (f : Conn V → Conn V) : se Sock RealtimeError unit := λ s,
  (Ok tt, mkSock (f (so_conn s)) (so_machine s) (so_sent s) (so_snapshots s)).

Definition on_machine {E A} (op : se (SyncMachine V) E A) : se Sock E A := λ s,
  let '(r, m) := op (so_machine s) in (r, mkSock (so_conn s) m (so_sent s) (so_snapshots s)).

(** [?] on a [SyncError]. *)
Definition or_sync {A} (op : se Sock SyncError A) : se Sock RealtimeError A := λ s,
  let '(r, s) := op s in (map_err Sync r, s).

Definition send_message (m : Sent) : se Sock RealtimeError unit := λ s,
  (env_send env (length (so_sent s)),
   mkSock (so_conn s) (so_machine s) (so_sent s ++ [m]) (so_snapshots s)).

Definition provider_snapshot : se Sock RealtimeError StateSnapshot := λ s,
  (env_snapshot env (so_snapshots s),
   mkSock (so_conn s) (so_machine s) (so_sent s) (S (so_snapshots s))).

(** [state.replace_snapshot(snapshot)], and the event for a lost voice authority. *)
Definition install_snapshot (snapshot : StateSnapshot) (c : Conn V) : Conn V :=
  let '(lost, store) := replace_snapshot snapshot (cn_state c) in
  let c := with_state store c in
  match lost with
  | Some authority => send_event_tx (EventVoiceLost authority) c
  | None => c
  end.

Definition replace_snapshot_and_hello (reason : string) : se Sock RealtimeError unit :=
  let! _ := or_sync (on_machine (require_snapshot reason)) in
  let! _ := on_conn (set_status SSyncing) in
  let! snapshot := provider_snapshot in
  let! _ := on_conn (install_snapshot snapshot) in
  let! current := se_get (λ s, state (cn_state (so_conn s))) in
  let! _ := on_machine (se_modify (machine_replace_snapshot current)) in
  let! cursor := or_sync (on_machine begin_sync) in
  let! hello := se_lift (encode_sync_hello cursor) in
  send_message (SentText hello).

Definition publish_sync_required (reason : string) : se Sock RealtimeError unit :=
  on_conn (send_event_tx (EventSyncRequired reason)).

Definition recoverable (e : SyncError) : bool :=
  match e with
  | ReplayBounds | QueueLimit | SyncGeidOrder _ _ | SyncGeidGap _ _ | StreamEpochChanged _ _
  | SyncSnapshotRequired _ => true
  | InvalidPhase _ => false
  end.

Definition recover_sync_error (error : SyncError) : se Sock RealtimeError unit :=
  if negb (recoverable error) then se_raise (Sync error)
  else
    let reason := ("state synchronization requires snapshot: " +:+ display_sync_error error)%string in
    let! _ := publish_sync_required reason in
    replace_snapshot_and_hello reason.

(** [inner.state.apply_event(event)]. *)
Definition store_apply (event : StateEvent V) : se Sock StateApplyError ApplyOutcome := λ s,
  let '(r, store) := apply_event event (cn_state (so_conn s)) in
  (r, mkSock (with_state store (so_conn s)) (so_machine s) (so_sent s) (so_snapshots s)).

Definition rejection_reason (error : StateApplyError) : string :=
  match error with
  | UnknownEvent event => "unknown state event " +:+ event
  | ApplySnapshotRequired event => "state event requires snapshot " +:+ event
  | other => "state projection rejected event: " +:+ display_state_error other
  end.

Definition apply_or_resync (event : StateEvent V) : se Sock RealtimeError bool := λ s,
  match store_apply event s with
  | (Ok _, s) => (let! _ := on_conn (send_event_tx (EventState event)) in se_ret true) s
  | (Err error, s) =>
      let reason := rejection_reason error in
      (let! _ := publish_sync_required reason in
       let! _ := replace_snapshot_and_hello reason in
       se_ret false) s
  end.

(** The loops over replayed and queued events: they stop at the first event that
    made a new snapshot necessary. *)
Fixpoint apply_in_order (events : list (StateEvent V)) : se Sock RealtimeError bool :=
  match events with
  | [] => se_ret true
  | event :: rest =>
      let! applied := apply_or_resync event in
      if applied : bool then apply_in_order rest else se_ret false
  end.

Definition process_frame (frame : ServerFrame V) : se Sock RealtimeError unit := λ s,
  match frame with
  | FConnectionReady _ => (Err (Protocol "duplicate connection.ready"), s)
  | FSyncReplay replay =>
      match on_machine (accept_replay replay) s with
      | (Err error, s) => recover_sync_error error s
      | (Ok _, s) => (let! _ := apply_in_order (replay_events replay) in se_ret tt) s
      end
  | FSyncComplete complete =>
      match on_machine (accept_complete complete) s with
      | (Err error, s) => recover_sync_error error s
      | (Ok queued, s) =>
          (let! _ := on_conn (λ c, with_state (update_cursor (complete_cursor complete) (cn_state c)) c) in
           let! applied := apply_in_order queued in
           if applied : bool then on_conn (set_status SLive) else se_ret tt) s
      end
  | FSyncRequired required =>
      (let! _ := publish_sync_required (required_reason required) in
       replace_snapshot_and_hello (required_reason required)) s
  | FStateEvent event =>
      match on_machine (accept_live_event event) s with
      | (Err error, s) => recover_sync_error error s
      | (Ok (Some event), s) => (let! _ := apply_or_resync event in se_ret tt) s
      | (Ok None, s) => (Ok tt, s)
      end
  | FCommandOk ack =>
      on_conn (λ c,
        let c := match Ack_expires_at ack with Some at_millis => store_expires at_millis c | None => c end in
        resolve_pending (Ack_request_id ack) (Ok ack) c) s
  | FCommandError error =>
      on_conn (resolve_pending (CommandError_request_id error) (Err (ServerCommand error))) s
  | FAuthRevoked revoked => (Err (ConnectionRevoked (revoked_reason revoked)), s)
  | FUnknown unknown =>
      if starts_with (str_bytes "state.") (str_bytes (unknown_frame_type unknown)) then
        (let! _ := publish_sync_required (unknown_frame_type unknown) in
         replace_snapshot_and_hello (unknown_frame_type unknown)) s
      else on_conn (send_event_tx (EventUnknown unknown)) s
  end.

Definition frame_too_large : RealtimeError :=
  Protocol "inbound WebSocket frame exceeds configured limit".

Definition process_message (message : WebSocketMessage) : se Sock RealtimeError bool :=
  let! limit := se_get (λ s, maximum_frame_bytes (cn_config (so_conn s))) in
  match message with
  | WPing payload => let! _ := send_message (SentPong payload) in se_ret false
  | WPong _ => se_ret false
  | WClose reason => se_raise (close_error None reason)
  | WCloseFrame code reason => se_raise (close_error code reason)
  | WText payload =>
      if limit <? str_len payload then se_raise frame_too_large
      else
        let! frame := se_lift (parse_server_frame payload) in
        let! _ := process_frame frame in
        se_ret false
  end.

Definition text_frame (message : option WebSocketMessage) (maximum_frame_bytes : Z)
    : result RealtimeError (ServerFrame V) :=
  match message with
  | Some (WText payload) =>
      if maximum_frame_bytes <? str_len payload then Err frame_too_large
      else parse_server_frame payload
  | Some (WPing _) | Some (WPong _) => Err (Protocol "connection.ready must be a text frame")
  | Some (WClose reason) => Err (close_error None reason)
  | Some (WCloseFrame code reason) => Err (close_error code reason)
  | None => Err (WsTransport "WebSocket peer closed before ready")
  end.
End socket.

Arguments Sock V {_}.

(** ** Lemmas *)

Section engine_lemmas.
Context {V : Type} `{PayloadDecoders V, Broadcast (StateEvent V), FrameDecoders V, FrameEncoders V}.
Context (env : Env).
Implicit Types (s : Sock V) (e : StateEvent V).

Definition current_state s : ClientState := state (cn_state (so_conn s)).

(** A replacement snapshot has been installed and offered to the server: what
    [replace_snapshot_and_hello] promises when it returns. *)
Record resynced s s' : Prop := {
  rs_snapshot : ∃ snapshot, env_snapshot env (so_snapshots s) = Ok snapshot ∧
    current_state s' = from_snapshot snapshot;
  rs_machine : so_machine s' =
    mkSyncMachine PSyncing (st_cursor (current_state s')) (st_stream_epoch (current_state s'))
      (st_geid (current_state s')) (control_connection_id (so_machine s)) [] 0;
  rs_hello : ∃ hello, encode_sync_hello (st_cursor (current_state s')) = Ok hello ∧
    so_sent s' = so_sent s ++ [SentText hello] ∧ env_send env (length (so_sent s)) = Ok tt;
  rs_status : cn_status (so_conn s') = SSyncing;
  rs_count : so_snapshots s' = S (so_snapshots s);
  rs_store : store_ok (cn_state (so_conn s)) → store_ok (cn_state (so_conn s'));
}.

Lemma or_sync_ok {A} (op : se (Sock V) SyncError A) s a s' :
  or_sync op s = (Ok a, s') ↔ op s = (Ok a, s').
Proof. unfold or_sync. destruct (op s) as [[?|?] ?]; simpl; split; intros; by simplify_eq. Qed.

Lemma on_machine_ok {E A} (op : se (SyncMachine V) E A) s a s' :
  on_machine op s = (Ok a, s') ↔
  ∃ m, op (so_machine s) = (Ok a, m) ∧ s' = mkSock (so_conn s) m (so_sent s) (so_snapshots s).
Proof.
  unfold on_machine. destruct (op (so_machine s)) as [r m]. split; [intros; simplify_eq; eauto|].
  by intros (? & [= -> ->] & ->).
Qed.

Lemma install_snapshot_spec snapshot (c : Conn V) :
  cn_state (install_snapshot snapshot c) = (replace_snapshot snapshot (cn_state c)).2 ∧
  cn_status (install_snapshot snapshot c) = cn_status c ∧
  cn_config (install_snapshot snapshot c) = cn_config c.
Proof.
  unfold install_snapshot. destruct (replace_snapshot snapshot (cn_state c)) as [[a|] store];
    by split_and!.
Qed.

Lemma replace_and_hello_spec reason s s' :
  replace_snapshot_and_hello env reason s = (Ok tt, s') → resynced s s'.
Proof.
  unfold replace_snapshot_and_hello. intros Hrun.
  apply se_bind_ok in Hrun as ([] & s1 & (m1 & Hm1 & ->)%or_sync_ok%on_machine_ok & Hrun).
  apply se_bind_ok in Hrun as ([] & s2 & [= <-] & Hrun).
  apply se_bind_ok in Hrun as (snap & s3 & [= Hsnap <-] & Hrun). simpl in Hsnap.
  apply se_bind_ok in Hrun as ([] & s4 & [= <-] & Hrun).
  apply se_bind_ok in Hrun as (current & s5 & [= Hcur <-] & Hrun).
  apply se_bind_ok in Hrun as ([] & s6 & (m6 & [= <-] & ->)%on_machine_ok & Hrun).
  apply se_bind_ok in Hrun as (cursor & s7 & (m7 & Hm7 & ->)%or_sync_ok%on_machine_ok & Hrun).
  apply se_bind_ok in Hrun as (hello & s8 & [= Hhello <-] & Hrun).
  unfold begin_sync in Hm7. cbn [machine_replace_snapshot phase so_machine] in Hm7.
  rewrite bool_decide_eq_true_2 in Hm7 by done. injection Hm7 as <- <-.
  injection Hrun as Hsend <-. cbn [so_conn so_machine so_sent so_snapshots] in *.
  destruct (install_snapshot_spec snap (set_status SSyncing (so_conn s))) as (Hstore & Hstatus & _).
  assert (control_connection_id m1 = control_connection_id (so_machine s)) as Hid.
  { unfold require_snapshot in Hm1. destruct (phase (so_machine s)); by simplify_eq. }
  constructor; unfold current_state; cbn [so_conn so_machine so_sent so_snapshots].
  - exists snap. split; [done|]. by rewrite Hstore.
  - by rewrite <- Hid, <- Hcur.
  - exists hello. by rewrite Hcur.
  - by rewrite Hstatus.
  - done.
  - intros Hok. rewrite Hstore. by apply replace_snapshot_ok.
Qed.
(** *** Installing events in order *)

(** Every event is accepted by the store. *)
Fixpoint apply_all (events : list (StateEvent V)) (store : StateStore V) : option (StateStore V) :=
  match events with
  | [] => Some store
  | event :: rest =>
      match apply_event event store with
      | (Ok _, store) => apply_all rest store
      | (Err _, _) => None
      end
  end.

Lemma apply_event_geid e store store' o :
  apply_event e store = (Ok o, store') →
  st_geid (state store) < ev_geid e ∧ st_geid (state store') = ev_geid e.
Proof.
  intros Happ. pose proof (apply_event_spec e store) as Hs. rewrite Happ in Hs.
  destruct Hs as (Hv & (next & _ & ->) & _). apply validate_event_ok in Hv. simpl. naive_solver.
Qed.

Lemma apply_all_geid events store store' :
  apply_all events store = Some store' →
  StronglySorted Z.lt (st_geid (state store) :: (ev_geid <$> events)) ∧
  st_geid (state store') = default (st_geid (state store)) (ev_geid <$> list.last events).
Proof.
  revert store. induction events as [|e events IH]; intros store Hall; simpl in Hall.
  { simplify_eq. split; [repeat constructor|done]. }
  destruct (apply_event e store) as [[o|err] store1] eqn:Happ; [|done].
  apply apply_event_geid in Happ as [Hlt Hg].
  destruct (IH store1 Hall) as [Hs Hl]. rewrite Hg in Hs, Hl. split.
  - constructor; [done|]. inversion Hs as [|?? _ Hrest]; subst. constructor; [done|].
    eapply Forall_impl; [exact Hrest|]. intros; simpl in *; lia.
  - rewrite Hl, last_cons. by destruct (list.last events).
Qed.

Lemma apply_all_ok events store store' :
  apply_all events store = Some store' → store_ok store → store_ok store'.
Proof.
  revert store. induction events as [|e events IH]; intros store Hall Hok; simpl in Hall.
  { by simplify_eq. }
  destruct (apply_event e store) as [[o|err] store1] eqn:Happ; [|done].
  apply (IH store1 Hall). pose proof (apply_event_ok e store Hok) as Hok1. by rewrite Happ in Hok1.
Qed.

Lemma apply_all_app l1 l2 store :
  apply_all (l1 ++ l2) store = apply_all l1 store ≫= apply_all l2.
Proof.
  revert store. induction l1 as [|e l1 IH]; intros store; simpl; [done|].
  destruct (apply_event e store) as [[o|err] store1]; [apply IH|done].
Qed.

(** What the loop over events leaves alone as long as every event is accepted. *)
Record same_socket s s' : Prop := {
  ss_machine : so_machine s' = so_machine s;
  ss_sent : so_sent s' = so_sent s;
  ss_snapshots : so_snapshots s' = so_snapshots s;
  ss_status : cn_status (so_conn s') = cn_status (so_conn s);
  ss_config : cn_config (so_conn s') = cn_config (so_conn s);
}.

Lemma same_socket_trans s1 s2 s3 : same_socket s1 s2 → same_socket s2 s3 → same_socket s1 s3.
Proof. intros [] []. constructor; congruence. Qed.

Lemma apply_or_resync_spec e s b s' :
  apply_or_resync env e s = (Ok b, s') →
  if b then same_socket s s' ∧ apply_all [e] (cn_state (so_conn s)) = Some (cn_state (so_conn s'))
  else ∃ s1, same_socket s s1 ∧ cn_state (so_conn s1) = cn_state (so_conn s) ∧ resynced s1 s'.
Proof.
  unfold apply_or_resync, store_apply. simpl.
  pose proof (apply_event_spec e (cn_state (so_conn s))) as Hs.
  destruct (apply_event e (cn_state (so_conn s))) as [[o|err] store] eqn:Happ; intros Hrun.
  - injection Hrun as <- <-. by split.
  - destruct Hs as [-> _]. apply se_bind_ok in Hrun as ([] & s1 & [= <-] & Hrun).
    apply se_bind_ok in Hrun as ([] & s2 & Hhello & [= <- <-]).
    apply replace_and_hello_spec in Hhello. eexists. split; [|split; [|exact Hhello]]; done.
Qed.

Lemma apply_in_order_spec events s b s' :
  apply_in_order env events s = (Ok b, s') →
  if b then same_socket s s' ∧ apply_all events (cn_state (so_conn s)) = Some (cn_state (so_conn s'))
  else ∃ s1, same_socket s s1 ∧ (store_ok (cn_state (so_conn s)) → store_ok (cn_state (so_conn s1))) ∧
    resynced s1 s'.
Proof.
  revert s. induction events as [|e events IH]; intros s Hrun.
  { injection Hrun as <- <-. by split. }
  apply se_bind_ok in Hrun as (applied & s1 & Hone & Hrun). apply apply_or_resync_spec in Hone.
  destruct applied.
  - destruct Hone as [Hsame Hone]. apply IH in Hrun.
    assert (store_ok (cn_state (so_conn s)) → store_ok (cn_state (so_conn s1))) as Hok1
      by (intros; by eapply apply_all_ok).
    destruct b.
    + destruct Hrun as [Hsame' Hall]. split; [by eapply same_socket_trans|].
      change (e :: events) with ([e] ++ events). by rewrite apply_all_app, Hone.
    + destruct Hrun as (s2 & Hsame' & Hok2 & Hre). exists s2.
      split; [by eapply same_socket_trans|]. eauto.
  - injection Hrun as <- <-. destruct Hone as (s2 & Hsame & Heq & Hre).
    exists s2. split_and!; [done|by rewrite Heq|done].
Qed.

(** ** The invariant of a synchronizing socket *)

(** The GEID boundary of the machine is the later of the projection's GEID and the
    last queued event's; the connection is live exactly when the machine is. *)
Record sock_ok s : Prop := {
  sk_machine : machine_ok (so_machine s);
  sk_store : store_ok (cn_state (so_conn s));
  sk_phase : phase (so_machine s) = PSyncing ∨ phase (so_machine s) = PLive;
  sk_status : phase (so_machine s) = PLive ↔ cn_status (so_conn s) = SLive;
  sk_boundary : sm_geid (so_machine s) =
    Z.max (st_geid (current_state s))
      (default (st_geid (current_state s)) (ev_geid <$> list.last (queued_live (so_machine s))));
}.

Lemma resynced_ok s s' : resynced s s' → store_ok (cn_state (so_conn s)) → sock_ok s'.
Proof.
  intros [_ Hm _ Hst _ Hok] Hs. constructor; rewrite ?Hm; simpl.
  - by apply cleared_ok.
  - by apply Hok.
  - by left.
  - by rewrite Hst.
  - lia.
Qed.

(** Live: nothing is queued, and the projection is at the boundary. *)
Lemma live_synchronized s : sock_ok s → cn_status (so_conn s) = SLive →
  queued_live (so_machine s) = [] ∧ st_geid (current_state s) = sm_geid (so_machine s).
Proof.
  intros [Hm _ _ Hst Hb] Hl. apply Hst in Hl.
  assert (queued_live (so_machine s) = []) as Hq by (apply Hm; by rewrite Hl).
  split; [done|]. rewrite Hq in Hb. simpl in Hb. lia.
Qed.
(** *** Every frame preserves it *)

Lemma recover_ok error s s' :
  store_ok (cn_state (so_conn s)) → recover_sync_error env error s = (Ok tt, s') → sock_ok s'.
Proof.
  unfold recover_sync_error. destruct (recoverable error); cbn [negb]; [|done]. intros Hok Hrun.
  apply se_bind_ok in Hrun as ([] & s1 & [= <-] & Hrun).
  by apply replace_and_hello_spec, resynced_ok in Hrun.
Qed.

Lemma required_ok reason s s' :
  store_ok (cn_state (so_conn s)) →
  (let! _ := publish_sync_required reason in replace_snapshot_and_hello env reason) s = (Ok tt, s') →
  sock_ok s'.
Proof.
  intros Hok Hrun. apply se_bind_ok in Hrun as ([] & s1 & [= <-] & Hrun).
  by apply replace_and_hello_spec, resynced_ok in Hrun.
Qed.

(** A change of the connection that the synchronization does not look at. *)
Lemma conn_frame_ok c s :
  cn_state c = cn_state (so_conn s) → cn_status c = cn_status (so_conn s) → sock_ok s →
  sock_ok (mkSock c (so_machine s) (so_sent s) (so_snapshots s)).
Proof.
  intros Hst Hss [Hm Hs Hp Hstat Hb]. unfold current_state in *.
  constructor; unfold current_state; simpl; rewrite ?Hst, ?Hss; done.
Qed.

Lemma resolve_pending_frame id r (c : Conn V) :
  cn_state (resolve_pending id r c) = cn_state c ∧ cn_status (resolve_pending id r c) = cn_status c.
Proof. unfold resolve_pending. by destruct (cn_pending c !! id). Qed.

Lemma replay_frame_ok replay s s' :
  sock_ok s → process_frame env (FSyncReplay replay) s = (Ok tt, s') → sock_ok s'.
Proof.
  intros Hok Hrun. pose proof Hok as [Hm Hs Hp Hstat Hb]. simpl in Hrun.
  destruct (on_machine (accept_replay replay) s) as [[[]|error] s1] eqn:Hacc.
  - apply on_machine_ok in Hacc as (m1 & Hacc & ->).
    assert (phase (so_machine s) = PSyncing) as Hps.
    { pose proof (sync_phase_discipline (OpReplay replay) (so_machine s)) as Hd. simpl in Hd.
      rewrite Hacc in Hd. destruct Hd as [Hd _]. by destruct (phase (so_machine s)). }
    apply accept_replay_spec in Hacc as (Hsorted & -> & _); [|done].
    destruct (advance_frame (replay_events replay) (so_machine s)) as (Hph & Hq & _).
    apply se_bind_ok in Hrun as (b & s2 & Hrun & [= <-]). apply apply_in_order_spec in Hrun.
    destruct b; [|destruct Hrun as (s3 & _ & Hok3 & Hre); by eapply resynced_ok, Hok3].
    destruct Hrun as [[Hmach _ _ Hst _] Hall]. simpl in *.
    constructor; rewrite ?Hmach; unfold current_state.
    + by apply advance_ok.
    + by eapply apply_all_ok.
    + rewrite Hph. by left.
    + by rewrite Hst, Hph.
    + apply apply_all_geid in Hall as [_ Hg]. rewrite Hg, Hq, advance_geid, Hb.
      unfold current_state. destruct (list.last (replay_events replay)) as [e|] eqn:Hl; simpl; [|done].
      assert (sm_geid (so_machine s) < ev_geid e).
      { inversion Hsorted as [|?? _ Hlt]; subst. rewrite Forall_fmap, Forall_forall in Hlt.
        by apply (Hlt e), last_Some_elem_of. }
      unfold current_state in Hb. destruct (list.last (queued_live (so_machine s))); simpl in *; lia.
  - assert (cn_state (so_conn s1) = cn_state (so_conn s)) as Hs1.
    { unfold on_machine in Hacc. destruct (accept_replay _ _). by simplify_eq. }
    eapply recover_ok; [|exact Hrun]. by rewrite Hs1.
Qed.

Lemma complete_frame_ok complete s s' :
  sock_ok s → process_frame env (FSyncComplete complete) s = (Ok tt, s') → sock_ok s'.
Proof.
  intros Hok Hrun. pose proof Hok as [Hm Hs Hp Hstat Hb]. simpl in Hrun.
  destruct (on_machine (accept_complete complete) s) as [[queued|error] s1] eqn:Hacc.
  - apply on_machine_ok in Hacc as (m1 & Hacc & ->). unfold accept_complete in Hacc.
    case_bool_decide as Hps; simpl in Hacc; [|done]. injection Hacc as <- <-.
    apply se_bind_ok in Hrun as ([] & s2 & [= <-] & Hrun).
    apply se_bind_ok in Hrun as (b & s3 & Hrun & Hend). apply apply_in_order_spec in Hrun.
    destruct b; [|injection Hend as <-; destruct Hrun as (s4 & _ & Hok4 & Hre);
                  by eapply resynced_ok, Hok4, update_cursor_ok].
    injection Hend as <-. destruct Hrun as [[Hmach _ _ Hst _] Hall]. simpl in *.
    constructor; simpl; rewrite ?Hmach; unfold current_state; simpl.
    + by apply cleared_ok.
    + by eapply apply_all_ok, update_cursor_ok.
    + by right.
    + done.
    + apply apply_all_geid in Hall as [Hsorted Hg]. simpl in Hsorted, Hg. rewrite Hg, Hb.
      unfold current_state. destruct (list.last (queued_live (so_machine s))) as [e|] eqn:Hl; simpl; [|done].
      inversion Hsorted as [|?? _ Hlt]; subst. rewrite Forall_fmap, Forall_forall in Hlt.
      specialize (Hlt e (last_Some_elem_of _ _ Hl)). unfold compose in Hlt. lia.
  - assert (cn_state (so_conn s1) = cn_state (so_conn s)) as Hs1.
    { unfold on_machine in Hacc. destruct (accept_complete _ _). by simplify_eq. }
    eapply recover_ok; [|exact Hrun]. by rewrite Hs1.
Qed.

Lemma event_frame_ok e s s' :
  (∀ e n, encoded_len e = Some n → is_u64 n) →
  sock_ok s → process_frame env (FStateEvent e) s = (Ok tt, s') → sock_ok s'.
Proof.
  intros Hlen Hok Hrun. pose proof Hok as [Hm Hs Hp Hstat Hb]. simpl in Hrun.
  unfold on_machine in Hrun. pose proof (accept_live_spec e (so_machine s)) as Hspec.
  destruct (accept_live_event e (so_machine s)) as [[out|error] m1] eqn:Hacc.
  - destruct Hspec as [Hlt Hspec]. destruct (phase (so_machine s)) eqn:Hph; try done.
    + destruct Hspec as (-> & n & Hn & Hc & Hby & ->). injection Hrun as <-. constructor; simpl; try done.
      * by apply push_live_ok.
      * by rewrite Hph.
      * by rewrite Hph.
      * unfold current_state in *. simpl. rewrite last_snoc. simpl. lia.
    + destruct Hspec as [-> ->]. apply se_bind_ok in Hrun as (b & s2 & Hrun & [= <-]).
      apply apply_or_resync_spec in Hrun.
      destruct b; [|destruct Hrun as (s3 & _ & Hst3 & Hre); eapply resynced_ok; [done|by rewrite Hst3]].
      destruct Hrun as [[Hmach _ _ Hst _] Hall]. cbn [so_machine so_conn] in *.
      assert (queued_live (so_machine s) = []) as Hq by (apply Hm; by rewrite Hph).
      constructor; rewrite ?Hmach; unfold current_state.
      * apply advance_ok; [|done]. by repeat constructor.
      * by eapply apply_all_ok.
      * right. exact Hph.
      * rewrite Hst. cbn [advance list.last phase]. rewrite Hph. exact Hstat.
      * apply apply_all_geid in Hall as [_ Hg]. rewrite Hg. simpl. rewrite Hq. simpl. lia.
  - eapply recover_ok; [|exact Hrun]. done.
Qed.

Lemma process_frame_ok frame s s' :
  (∀ e n, encoded_len e = Some n → is_u64 n) →
  sock_ok s → process_frame env frame s = (Ok tt, s') → sock_ok s'.
Proof.
  intros Hlen Hok Hrun.
  destruct frame as [ready|replay|complete|required|event|ack|error|revoked|unknown].
  - done.
  - by eapply replay_frame_ok.
  - by eapply complete_frame_ok.
  - eapply required_ok; [|exact Hrun]. apply Hok.
  - by eapply event_frame_ok.
  - injection Hrun as <-. set (c := match Ack_expires_at ack with Some _ => _ | None => _ end).
    destruct (resolve_pending_frame (Ack_request_id ack) (Ok ack) c) as [Hst Hss].
    apply conn_frame_ok; [rewrite Hst|rewrite Hss|done]; unfold c; by destruct (Ack_expires_at ack).
  - injection Hrun as <-.
    destruct (resolve_pending_frame (CommandError_request_id error) (Err (ServerCommand error))
      (so_conn s)) as [Hst Hss]. by apply conn_frame_ok.
  - done.
  - simpl in Hrun. destruct (starts_with _ _).
    + eapply required_ok; [|exact Hrun]. apply Hok.
    + injection Hrun as <-. by apply conn_frame_ok.
Qed.
End engine_lemmas.

(** ** The projection as a fold over the event stream *)

Section fold.
Context {V : Type} `{PayloadDecoders V, Broadcast (StateEvent V), FrameDecoders V, FrameEncoders V}.
Context (env : Env).
Implicit Types (s : Sock V) (e : StateEvent V).

(** The specification: one event, and a stream of them, on a bare state. *)
Definition project e (st : ClientState) : option ClientState :=
  match validate_event e st, apply_known_event st e with
  | Ok _, Ok next => Some (set_geid (ev_geid e) (set_cursor (ev_cursor e) next))
  | _, _ => None
  end.

Fixpoint project_all (events : list (StateEvent V)) (st : ClientState) : option ClientState :=
  match events with
  | [] => Some st
  | e :: rest => project e st ≫= project_all rest
  end.

Definition stream_events (frame : ServerFrame V) : list (StateEvent V) :=
  match frame with
  | FSyncReplay replay => replay_events replay
  | FStateEvent event => [event]
  | _ => []
  end.

Fixpoint process_frames (frames : list (ServerFrame V)) : se (Sock V) RealtimeError unit :=
  match frames with
  | [] => se_ret tt
  | frame :: rest => let! _ := process_frame env frame in process_frames rest
  end.

Lemma project_cursor e c st : project e (set_cursor c st) = project e st.
Proof.
  unfold project. rewrite validate_event_cursor, apply_known_event_cursor.
  destruct (validate_event e st); [|done]. by destruct (apply_known_event st e).
Qed.

Lemma apply_event_project e (store store' : StateStore V) o :
  apply_event e store = (Ok o, store') → project e (state store) = Some (state store').
Proof.
  unfold apply_event, project. destruct (validate_event e (state store)); [|done].
  destruct (apply_known_event (state store) e); [|done]. intros. by simplify_eq.
Qed.

Lemma apply_all_project events (store store' : StateStore V) :
  apply_all events store = Some store' → project_all events (state store) = Some (state store').
Proof.
  revert store. induction events as [|e events IH]; intros store Hall; simpl in *; [by simplify_eq|].
  destruct (apply_event e store) as [[o|err] store1] eqn:Happ; [|done].
  rewrite (apply_event_project _ _ _ _ Happ). simpl. by apply IH.
Qed.

Lemma project_all_app l1 l2 st : project_all (l1 ++ l2) st = project_all l1 st ≫= project_all l2.
Proof.
  revert st. induction l1 as [|e l1 IH]; intros st; simpl; [done|].
  destruct (project e st); [apply IH|done].
Qed.

(** The state is a fold, up to the cursor, which [sync.complete] also moves. *)
Definition folded (events : list (StateEvent V)) (st0 st : ClientState) : Prop :=
  ∃ st1, project_all events st0 = Some st1 ∧ set_cursor (st_cursor st) st1 = st.

Lemma set_cursor_twice c c' st : set_cursor c (set_cursor c' st) = set_cursor c st.
Proof. done. Qed.

Lemma folded_cursor events st0 st c : folded events st0 st → folded events st0 (set_cursor c st).
Proof.
  intros (st1 & Hp & Hst). exists st1. split; [done|]. rewrite <- Hst. by rewrite set_cursor_twice.
Qed.

Lemma folded_app l1 l2 st0 (store store' : StateStore V) :
  folded l1 st0 (state store) → apply_all l2 store = Some store' →
  folded (l1 ++ l2) st0 (state store').
Proof.
  intros (st1 & Hp & Hst) Hall. destruct l2 as [|e l2].
  { simplify_eq/=. rewrite app_nil_r. by exists st1. }
  exists (state store'). split; [|by destruct (state store')].
  rewrite project_all_app, Hp. simpl. rewrite <- (project_cursor e (st_cursor (state store)) st1), Hst.
  apply (apply_all_project (e :: l2)) in Hall. exact Hall.
Qed.

(** What is installed and what is queued make up the stream; or a queued event has
    been overtaken by a replayed one, and the next [sync.complete] asks for a
    snapshot. *)
Definition fold_inv (events : list (StateEvent V)) (st0 : ClientState) s : Prop :=
  (∃ applied, events = applied ++ queued_live (so_machine s) ∧
     folded applied st0 (current_state s)) ∨
  (∃ e rest, queued_live (so_machine s) = e :: rest ∧ ev_geid e ≤ st_geid (current_state s)).

(** Resynchronizing asks for one more snapshot. *)
Lemma recover_snapshots error s s' :
  recover_sync_error env error s = (Ok tt, s') → so_snapshots s' = S (so_snapshots s).
Proof.
  unfold recover_sync_error. destruct (recoverable error); cbn [negb]; [|done]. intros Hrun.
  apply se_bind_ok in Hrun as ([] & s1 & [= <-] & Hrun).
  by apply replace_and_hello_spec, rs_count in Hrun.
Qed.

Lemma required_snapshots reason s s' :
  (let! _ := publish_sync_required reason in replace_snapshot_and_hello env reason) s = (Ok tt, s') →
  so_snapshots s' = S (so_snapshots s).
Proof.
  intros Hrun. apply se_bind_ok in Hrun as ([] & s1 & [= <-] & Hrun).
  by apply replace_and_hello_spec, rs_count in Hrun.
Qed.

Lemma on_machine_err {E A} (op : se (SyncMachine V) E A) s err s' :
  on_machine op s = (Err err, s') → so_snapshots s' = so_snapshots s.
Proof. unfold on_machine. destruct (op (so_machine s)). intros. by simplify_eq. Qed.

(** Either a snapshot was asked for, or the frame's events joined the stream. *)
Definition advances (frame : ServerFrame V) s s' : Prop :=
  (so_snapshots s < so_snapshots s')%nat ∨
  (so_snapshots s' = so_snapshots s ∧
   ∀ events st0, fold_inv events st0 s → fold_inv (events ++ stream_events frame) st0 s').

Lemma replay_advances replay s s' :
  sock_ok s → process_frame env (FSyncReplay replay) s = (Ok tt, s') →
  advances (FSyncReplay replay) s s'.
Proof.
  intros Hok Hrun. pose proof Hok as [Hm _ _ _ Hb]. simpl in Hrun. unfold advances.
  destruct (on_machine (accept_replay replay) s) as [[[]|error] s1] eqn:Hacc; cycle 1.
  { apply on_machine_err in Hacc. apply recover_snapshots in Hrun. left. lia. }
  apply on_machine_ok in Hacc as (m1 & Hacc & ->).
  assert (phase (so_machine s) = PSyncing) as Hps.
  { pose proof (sync_phase_discipline (OpReplay replay) (so_machine s)) as Hd. simpl in Hd.
    rewrite Hacc in Hd. destruct Hd as [Hd _]. by destruct (phase (so_machine s)). }
  apply accept_replay_spec in Hacc as (Hsorted & -> & _); [|done].
  destruct (advance_frame (replay_events replay) (so_machine s)) as (_ & Hq & _).
  apply se_bind_ok in Hrun as (b & s2 & Hrun & [= <-]). apply apply_in_order_spec in Hrun.
  destruct b; cycle 1.
  { destruct Hrun as (s3 & [_ _ Hn _ _] & _ & [_ _ _ _ Hc _]). simpl in Hn. left. lia. }
  destruct Hrun as [[Hmach _ Hn _ _] Hall]. right. split; [done|]. intros events st0 Hinv.
  simpl in Hmach, Hall. unfold fold_inv. rewrite Hmach, Hq. unfold current_state in *. simpl.
  destruct (replay_events replay) as [|x l] eqn:Hev.
  { rewrite app_nil_r. simpl in Hall. injection Hall as <-. exact Hinv. }
  rewrite <- Hev in *. destruct (queued_live (so_machine s)) as [|q queue] eqn:Hqueue.
  - left. destruct Hinv as [(applied & -> & Hf)|(e & rest & He & _)]; [|by rewrite Hqueue in He].
    exists (applied ++ replay_events replay). rewrite Hqueue, !app_nil_r. split; [done|].
    by eapply folded_app.
  - right. exists q, queue. split; [done|].
    apply apply_all_geid in Hall as [_ Hg]. rewrite Hg.
    destruct (list.last (replay_events replay)) as [y|] eqn:Hl; [simpl|by rewrite Hev, last_cons in Hl; destruct (list.last l)].
    inversion Hsorted as [|?? _ Hlt]; subst. rewrite Forall_fmap, Forall_forall in Hlt.
    specialize (Hlt y (last_Some_elem_of _ _ Hl)). unfold compose in Hlt.
    pose proof (mo_behind _ Hm) as Hbh. rewrite Hqueue in Hbh. inversion Hbh; subst. lia.
Qed.

Lemma complete_advances complete s s' :
  sock_ok s → process_frame env (FSyncComplete complete) s = (Ok tt, s') →
  advances (FSyncComplete complete) s s'.
Proof.
  intros Hok Hrun. pose proof Hok as [Hm _ _ _ Hb]. simpl in Hrun. unfold advances.
  destruct (on_machine (accept_complete complete) s) as [[queued|error] s1] eqn:Hacc; cycle 1.
  { apply on_machine_err in Hacc. apply recover_snapshots in Hrun. left. lia. }
  apply on_machine_ok in Hacc as (m1 & Hacc & ->). unfold accept_complete in Hacc.
  case_bool_decide as Hps; simpl in Hacc; [|done]. injection Hacc as <- <-.
  apply se_bind_ok in Hrun as ([] & s2 & [= <-] & Hrun).
  apply se_bind_ok in Hrun as (b & s3 & Hrun & Hend). apply apply_in_order_spec in Hrun.
  destruct b; cycle 1.
  { injection Hend as <-. destruct Hrun as (s4 & [_ _ Hn _ _] & _ & [_ _ _ _ Hc _]).
    simpl in Hn. left. lia. }
  injection Hend as <-. destruct Hrun as [[Hmach _ Hn _ _] Hall]. right.
  split; [by simpl in *|]. intros events st0 Hinv. left.
  simpl in Hmach, Hall. cbn [so_machine]. rewrite Hmach. cbn [queued_live stream_events].
  unfold current_state in *. cbn [so_conn set_status send_event_tx replace_status cn_state].
  destruct Hinv as [(applied & -> & Hf)|(e & rest & He & Hle)].
  - exists (applied ++ queued_live (so_machine s)). split; [done|].
    eapply folded_app; [|exact Hall]. simpl. by apply folded_cursor.
  - apply apply_all_geid in Hall as [Hsorted _]. rewrite He in Hsorted. csimpl in Hsorted.
    inversion Hsorted as [|?? _ Hlt]; subst. inversion Hlt; subst. unfold current_state in Hle. simpl in *. lia.
Qed.

Lemma event_advances e s s' :
  sock_ok s → process_frame env (FStateEvent e) s = (Ok tt, s') → advances (FStateEvent e) s s'.
Proof.
  intros Hok Hrun. pose proof Hok as [Hm _ _ _ Hb]. simpl in Hrun. unfold advances.
  unfold on_machine in Hrun. pose proof (accept_live_spec e (so_machine s)) as Hspec.
  destruct (accept_live_event e (so_machine s)) as [[out|error] m1] eqn:Hacc; cycle 1.
  { apply recover_snapshots in Hrun. simpl in Hrun. left. lia. }
  destruct Hspec as [Hlt Hspec]. destruct (phase (so_machine s)) eqn:Hph; try done.
  - destruct Hspec as (-> & n & _ & _ & _ & ->). injection Hrun as <-. right. split; [done|].
    intros events st0 [(applied & -> & Hf)|(q & rest & Hq & Hle)].
    + left. exists applied. cbn [so_machine push_live advance list.last queued_live stream_events].
      by rewrite app_assoc.
    + right. exists q, (rest ++ [e]). cbn [so_machine push_live advance list.last queued_live].
      rewrite Hq. done.
  - destruct Hspec as [-> ->]. apply se_bind_ok in Hrun as (b & s2 & Hrun & [= <-]).
    apply apply_or_resync_spec in Hrun. destruct b; cycle 1.
    { destruct Hrun as (s3 & [_ _ Hn _ _] & _ & [_ _ _ _ Hc _]). simpl in Hn. left. lia. }
    destruct Hrun as [[Hmach _ Hn _ _] Hall]. right. split; [done|].
    assert (queued_live (so_machine s) = []) as Hq by (apply Hm; by rewrite Hph).
    intros events st0 [(applied & -> & Hf)|(q & rest & Hq' & _)]; [|congruence].
    left. exists (applied ++ [e]). rewrite Hmach, Hq.
    cbn [so_machine advance list.last queued_live stream_events so_conn] in *.
    rewrite Hq, !app_nil_r. split; [done|]. by eapply folded_app.
Qed.

Lemma frame_advances frame s s' :
  sock_ok s → process_frame env frame s = (Ok tt, s') → advances frame s s'.
Proof.
  intros Hok Hrun.
  destruct frame as [ready|replay|complete|required|event|ack|error|revoked|unknown].
  - done.
  - by apply replay_advances.
  - by apply complete_advances.
  - apply required_snapshots in Hrun. left. lia.
  - by apply event_advances.
  - injection Hrun as <-. right. split; [done|]. intros events st0.
    cbn [stream_events]. rewrite app_nil_r. unfold fold_inv, current_state.
    cbn [so_machine so_conn]. set (c := match Ack_expires_at ack with Some _ => _ | None => _ end).
    destruct (resolve_pending_frame (Ack_request_id ack) (Ok ack) c) as [-> _].
    assert (cn_state c = cn_state (so_conn s)) as -> by (unfold c; by destruct (Ack_expires_at ack)).
    done.
  - injection Hrun as <-. right. split; [done|]. intros events st0.
    cbn [stream_events]. rewrite app_nil_r. unfold fold_inv, current_state. cbn [so_machine so_conn].
    destruct (resolve_pending_frame (CommandError_request_id error) (Err (ServerCommand error))
      (so_conn s)) as [-> _]. done.
  - done.
  - simpl in Hrun. destruct (starts_with _ _).
    + apply required_snapshots in Hrun. left. lia.
    + injection Hrun as <-. right. split; [done|]. intros events st0.
      cbn [stream_events]. by rewrite app_nil_r.
Qed.

Lemma process_frames_spec frames s s' :
  (∀ e n, encoded_len e = Some n → is_u64 n) →
  sock_ok s → process_frames frames s = (Ok tt, s') →
  sock_ok s' ∧ (so_snapshots s ≤ so_snapshots s')%nat ∧
  (so_snapshots s' = so_snapshots s →
   ∀ events st0, fold_inv events st0 s → fold_inv (events ++ concat (stream_events <$> frames)) st0 s').
Proof.
  intros Hlen. revert s. induction frames as [|frame frames IH]; intros s Hok Hrun.
  { injection Hrun as <-. split_and!; [done|lia|]. intros _ events st0. simpl. by rewrite app_nil_r. }
  apply se_bind_ok in Hrun as ([] & s1 & Hone & Hrun).
  pose proof (process_frame_ok env frame s s1 Hlen Hok Hone) as Hok1.
  apply frame_advances in Hone; [|done]. destruct (IH s1 Hok1 Hrun) as (Hok' & Hle & Hfold).
  destruct Hone as [Hlt|[Heq Hstep]]; (split_and!; [done|lia|]); [lia|].
  intros Hn events st0 Hinv. csimpl. rewrite app_assoc. apply Hfold; [lia|]. by apply Hstep.
Qed.
End fold.

(** ** Resynchronization always succeeds when its environment does *)

Section total.
Context {V : Type} `{PayloadDecoders V, Broadcast (StateEvent V), FrameDecoders V, FrameEncoders V}.
Context (env : Env).
Implicit Types (s : Sock V) (e : StateEvent V).

(** The provider has a snapshot, the session sends, a cursor can be encoded. *)
Record env_ok : Prop := {
  eo_snapshot n : ∃ snapshot, env_snapshot env n = Ok snapshot;
  eo_send n : env_send env n = Ok tt;
  eo_hello c : ∃ hello, encode_sync_hello c = Ok hello;
}.

Context (Henv : env_ok).

Lemma replace_and_hello_total reason s :
  phase (so_machine s) = PSyncing ∨ phase (so_machine s) = PLive →
  ∃ s', replace_snapshot_and_hello env reason s = (Ok tt, s').
Proof.
  intros Hp. destruct (eo_snapshot Henv (so_snapshots s)) as [snap Hsnap].
  unfold replace_snapshot_and_hello, se_bind, or_sync, on_machine, on_conn, se_get, se_lift, se_modify,
    provider_snapshot, send_message.
  assert (∃ m, require_snapshot reason (so_machine s) = (Ok tt, m)) as [m Hm].
  { unfold require_snapshot. destruct Hp as [-> | ->]; eauto. }
  rewrite Hm. cbn [map_err so_snapshots so_machine so_conn so_sent]. rewrite Hsnap.
  cbn [map_err so_snapshots so_machine so_conn so_sent begin_sync].
  unfold begin_sync. cbn [machine_replace_snapshot phase]. rewrite bool_decide_eq_true_2 by done.
  cbn [map_err]. edestruct (eo_hello Henv) as [hello Hhello]. rewrite Hhello.
  cbn [so_sent]. rewrite (eo_send Henv). eauto.
Qed.

Lemma recover_total error s :
  recoverable error = true → phase (so_machine s) = PSyncing ∨ phase (so_machine s) = PLive →
  ∃ s', recover_sync_error env error s = (Ok tt, s').
Proof.
  intros Hr Hp. unfold recover_sync_error. rewrite Hr. cbn [negb].
  unfold publish_sync_required, se_bind at 1, on_conn. by apply replace_and_hello_total.
Qed.

Lemma apply_or_resync_total e s :
  phase (so_machine s) = PSyncing ∨ phase (so_machine s) = PLive →
  ∃ b s', apply_or_resync env e s = (Ok b, s').
Proof.
  intros Hp. unfold apply_or_resync, store_apply.
  destruct (apply_event e (cn_state (so_conn s))) as [[o|err] store].
  - unfold se_bind, on_conn, se_ret. eauto.
  - unfold publish_sync_required, se_bind at 1, on_conn. unfold se_bind.
    edestruct (replace_and_hello_total (rejection_reason err)) as [s' ->]; [|unfold se_ret; by eauto].
    exact Hp.
Qed.

Lemma apply_in_order_total events s :
  phase (so_machine s) = PSyncing ∨ phase (so_machine s) = PLive →
  ∃ b s', apply_in_order env events s = (Ok b, s').
Proof.
  revert s. induction events as [|e events IH]; intros s Hp; simpl; [unfold se_ret; by eauto|].
  destruct (apply_or_resync_total e s Hp) as (b & s1 & Hone). unfold se_bind. rewrite Hone.
  apply apply_or_resync_spec in Hone. destruct b; [|unfold se_ret; by eauto].
  destruct Hone as [[Hm _ _ _ _] _]. apply IH. by rewrite Hm.
Qed.

(** The operation of the machine that a frame of the state stream stands for. *)
Definition frame_op (frame : ServerFrame V) : option (SyncOp V) :=
  match frame with
  | FSyncReplay replay => Some (OpReplay replay)
  | FSyncComplete complete => Some (OpComplete complete)
  | FStateEvent event => Some (OpLive event)
  | FSyncRequired required => Some (OpRequire (required_reason required))
  | FUnknown unknown =>
      if starts_with (str_bytes "state.") (str_bytes (unknown_frame_type unknown))
      then Some (OpRequire (unknown_frame_type unknown)) else None
  | _ => None
  end.

(** The state store after a frame that the stream can go on with: the machine accepts it
    and the store accepts every event that it makes due, in order. *)
Definition absorbed (frame : ServerFrame V) s : option (StateStore V) :=
  let store := cn_state (so_conn s) in
  match frame with
  | FSyncReplay replay =>
      match accept_replay replay (so_machine s) with
      | (Ok _, _) => apply_all (replay_events replay) store
      | _ => None
      end
  | FSyncComplete complete =>
      match accept_complete complete (so_machine s) with
      | (Ok queued, _) => apply_all queued (update_cursor (complete_cursor complete) store)
      | _ => None
      end
  | FStateEvent event =>
      match accept_live_event event (so_machine s) with
      | (Ok (Some event), _) => apply_all [event] store
      | (Ok None, _) => Some store
      | _ => None
      end
  | _ => None
  end.

(** The socket has been repaired with the next snapshot of the provider. *)
Definition repaired s s' : Prop :=
  ∃ snapshot hello, env_snapshot env (so_snapshots s) = Ok snapshot ∧
    so_snapshots s' = S (so_snapshots s) ∧ current_state s' = from_snapshot snapshot ∧
    phase (so_machine s') = PSyncing ∧ queued_live (so_machine s') = [] ∧
    sm_geid (so_machine s') = st_geid (current_state s') ∧
    sm_cursor (so_machine s') = st_cursor (current_state s') ∧
    cn_status (so_conn s') = SSyncing ∧
    encode_sync_hello (st_cursor (current_state s')) = Ok hello ∧
    so_sent s' = so_sent s ++ [SentText hello].

Lemma resynced_repaired s s1 s' :
  so_snapshots s1 = so_snapshots s → so_sent s1 = so_sent s → resynced env s1 s' → repaired s s'.
Proof.
  intros Hn Hsent [(snap & Hsnap & Hst) Hm (hello & Hh & Hs & _) Hss Hc _].
  rewrite Hn in Hsnap, Hc. rewrite Hsent in Hs. exists snap, hello. rewrite Hm. by split_and!.
Qed.

Lemma recover_repaired error s s1 s' :
  so_snapshots s1 = so_snapshots s → so_sent s1 = so_sent s →
  recover_sync_error env error s1 = (Ok tt, s') → repaired s s'.
Proof.
  intros Hn Hsent. unfold recover_sync_error. destruct (recoverable error); cbn [negb]; [|done].
  intros Hr. apply se_bind_ok in Hr as ([] & s2 & [= <-] & Hr). apply replace_and_hello_spec in Hr.
  by eapply resynced_repaired; [| |exact Hr].
Qed.

Lemma apply_or_resync_sound e s b s' :
  apply_or_resync env e s = (Ok b, s') → b = bool_decide (is_Some (apply_all [e] (cn_state (so_conn s)))).
Proof.
  unfold apply_or_resync, store_apply. cbn [apply_all].
  destruct (apply_event e (cn_state (so_conn s))) as [[o|err] store]; intros Hrun.
  - injection Hrun as <- _. symmetry. apply bool_decide_eq_true_2. eauto.
  - apply se_bind_ok in Hrun as ([] & s1 & _ & Hrun). apply se_bind_ok in Hrun as ([] & s2 & _ & [= <- _]).
    symmetry. apply bool_decide_eq_false_2. by intros [? ?].
Qed.

Lemma apply_in_order_sound events s b s' :
  apply_in_order env events s = (Ok b, s') → b = bool_decide (is_Some (apply_all events (cn_state (so_conn s)))).
Proof.
  revert s. induction events as [|e events IH]; intros s Hrun.
  { injection Hrun as <- _. symmetry. apply bool_decide_eq_true_2. by eexists. }
  apply se_bind_ok in Hrun as (applied & s1 & Hone & Hrun).
  pose proof (apply_or_resync_sound _ _ _ _ Hone) as Hb. apply apply_or_resync_spec in Hone.
  change (e :: events) with ([e] ++ events). rewrite apply_all_app. destruct applied.
  - destruct Hone as [_ Hone]. rewrite Hone. by apply IH.
  - injection Hrun as <- _. symmetry in Hb. apply bool_decide_eq_false_1 in Hb.
    destruct (apply_all [e] _); [|done]. by destruct Hb.
Qed.

(** The loop over events: all are installed, or the socket is repaired. *)
Lemma in_order_cases events s s1 :
  so_snapshots s1 = so_snapshots s → so_sent s1 = so_sent s →
  phase (so_machine s1) = PSyncing ∨ phase (so_machine s1) = PLive →
  ∃ b s', apply_in_order env events s1 = (Ok b, s') ∧
    match apply_all events (cn_state (so_conn s1)) with
    | Some store => b = true ∧ cn_state (so_conn s') = store ∧ so_snapshots s' = so_snapshots s ∧ so_sent s' = so_sent s
    | None => b = false ∧ repaired s s'
    end.
Proof.
  intros Hn Hsent Hp. destruct (apply_in_order_total events s1 Hp) as (b & s' & Hrun).
  exists b, s'. split; [done|]. pose proof (apply_in_order_sound _ _ _ _ Hrun) as Hb.
  apply apply_in_order_spec in Hrun. destruct b.
  - destruct Hrun as [[_ Hs Hn' _ _] ->]. split_and!; congruence.
  - destruct Hrun as (s3 & [_ Hs Hn' _ _] & _ & Hr). symmetry in Hb. apply bool_decide_eq_false_1 in Hb.
    destruct (apply_all events _); [by destruct Hb|]. split; [done|].
    eapply resynced_repaired; [| |exact Hr]; congruence.
Qed.

Lemma on_machine_same {E A} (op : se (SyncMachine V) E A) s r s' :
  on_machine op s = (r, s') →
  so_snapshots s' = so_snapshots s ∧ so_sent s' = so_sent s ∧ so_conn s' = so_conn s ∧ (r, so_machine s') = op (so_machine s).
Proof. unfold on_machine. destruct (op (so_machine s)). intros. by simplify_eq. Qed.

(** A frame after which a snapshot is due, or whose kind is illegal in the phase. *)
Definition not_absorbed (op : SyncOp V) s (r : result RealtimeError unit * Sock V) : Prop :=
  if legal (phase (so_machine s)) op then r.1 = Ok tt ∧ repaired s r.2
  else ∃ text, r.1 = Err (Sync (InvalidPhase text)).

(** What an operation of the machine that was refused comes to. *)
Lemma refused_cases sync_op s err s1 :
  sock_ok s → so_snapshots s1 = so_snapshots s → so_sent s1 = so_sent s →
  apply_op sync_op (so_machine s) = (Err err, so_machine s1) →
  not_absorbed sync_op s (recover_sync_error env err s1).
Proof.
  intros Hok Hn Hsent Hop. pose proof (sync_phase_discipline sync_op (so_machine s)) as Hd. rewrite Hop in Hd.
  unfold not_absorbed. destruct (recoverable err) eqn:Hr.
  - assert (legal (phase (so_machine s)) sync_op = true ∧ phase (so_machine s1) = phase (so_machine s)) as [-> Hp]
      by (destruct err; naive_solver).
    destruct (recover_total err s1 Hr) as [s' Hrun]; [rewrite Hp; apply Hok|]. rewrite Hrun. split; [done|].
    by eapply recover_repaired; [| |exact Hrun].
  - destruct err; try done. destruct Hd as [-> _]. unfold recover_sync_error. cbn. eauto.
Qed.

Lemma required_cases reason s :
  sock_ok s →
  not_absorbed (OpRequire reason) s ((let! _ := publish_sync_required reason in replace_snapshot_and_hello env reason) s).
Proof.
  intros Hok. pose proof (sk_phase _ Hok) as Hp. unfold not_absorbed, publish_sync_required, se_bind at 1 2, on_conn.
  destruct (replace_and_hello_total reason (mkSock (send_event_tx (EventSyncRequired reason) (so_conn s)) (so_machine s) (so_sent s) (so_snapshots s)) Hp)
    as [s' Hrun].
  rewrite Hrun. assert (legal (phase (so_machine s)) (OpRequire reason) = true) as -> by (by destruct Hp as [-> | ->]).
  split; [done|]. apply replace_and_hello_spec in Hrun. by eapply resynced_repaired; [| |exact Hrun].
Qed.

Lemma stream_frame_cases frame op s :
  frame_op frame = Some op → sock_ok s →
  match absorbed frame s with
  | Some store =>
      (process_frame env frame s).1 = Ok tt ∧ let s' := (process_frame env frame s).2 in
      cn_state (so_conn s') = store ∧ so_snapshots s' = so_snapshots s ∧ so_sent s' = so_sent s
  | None => not_absorbed op s (process_frame env frame s)
  end.
Proof.
  intros Hop Hok. pose proof (sk_phase _ Hok) as Hp.
  destruct frame as [ready|replay|complete|required|event|ack|error|revoked|unknown]; cbn [frame_op] in Hop;
    simplify_eq; cbn [process_frame absorbed].
  - pose proof (sync_phase_discipline (OpReplay replay) (so_machine s)) as Hd. cbn [apply_op] in Hd.
    destruct (on_machine (accept_replay replay) s) as [r s1] eqn:Hacc.
    apply on_machine_same in Hacc as (Hn & Hs & Hc & Hm). rewrite <- Hm in Hd |- *. destruct r as [[]|err].
    + destruct Hd as [Hl Hph].
      destruct (in_order_cases (replay_events replay) s s1 Hn Hs) as (b & s2 & Hrun & Hcase); [by rewrite Hph|].
      unfold se_bind. rewrite Hrun. rewrite Hc in Hcase. destruct (apply_all _ _); destruct Hcase as [-> Hcase]; [done|].
      unfold not_absorbed. by rewrite Hl.
    + apply refused_cases; [done..|]. cbn. by rewrite Hm.
  - pose proof (sync_phase_discipline (OpComplete complete) (so_machine s)) as Hd. cbn [apply_op] in Hd.
    destruct (on_machine (accept_complete complete) s) as [r s1] eqn:Hacc.
    apply on_machine_same in Hacc as (Hn & Hs & Hc & Hm). unfold se_bind at 1 in Hd. rewrite <- Hm in Hd |- *.
    destruct r as [queued|err].
    + destruct Hd as [Hl Hph].
      set (s2 := mkSock (with_state (update_cursor (complete_cursor complete) (cn_state (so_conn s1))) (so_conn s1))
                   (so_machine s1) (so_sent s1) (so_snapshots s1)).
      destruct (in_order_cases queued s s2 Hn Hs) as (b & s3 & Hrun & Hcase).
      { right. exact Hph. }
      unfold se_bind, on_conn. fold s2. rewrite Hrun. change (cn_state (so_conn s2)) with (update_cursor (complete_cursor complete) (cn_state (so_conn s1))) in Hcase.
      rewrite Hc in Hcase.
      destruct (apply_all _ _); destruct Hcase as [-> Hcase]; [done|]. unfold not_absorbed. by rewrite Hl.
    + apply refused_cases; [done..|]. cbn. unfold se_bind. by rewrite <- Hm.
  - by apply required_cases.
  - pose proof (sync_phase_discipline (OpLive event) (so_machine s)) as Hd. cbn [apply_op] in Hd.
    destruct (on_machine (accept_live_event event) s) as [r s1] eqn:Hacc.
    apply on_machine_same in Hacc as (Hn & Hs & Hc & Hm). unfold se_bind at 1 in Hd. rewrite <- Hm in Hd |- *.
    destruct r as [[e|]|err].
    + destruct Hd as [Hl Hph].
      destruct (in_order_cases [e] s s1 Hn Hs) as (b & s2 & Hrun & Hcase); [by rewrite Hph|].
      rewrite Hc in Hcase. cbn [apply_in_order] in Hrun. unfold se_bind in Hrun |- *.
      destruct (apply_or_resync env e s1) as [[[]|err] s3]; [| |done]; injection Hrun as <- <-;
        (destruct (apply_all _ _); destruct Hcase as [Hb Hcase]; [|]); try done; unfold not_absorbed; by rewrite Hl.
    + split; [done|]. cbn. by rewrite Hc.
    + apply refused_cases; [done..|]. cbn. unfold se_bind. by rewrite <- Hm.
  - destruct (starts_with _ _) eqn:Hst; [|done]. injection Hop as <-. by apply required_cases.
Qed.
End total.

(** ** A small environment, for the witnesses *)

Module ToyEngine.
#[global] Instance encoders : FrameEncoders ToyPayload.value := {|
  json_string _ := ToyPayload.VOther;
  json_object _ := ToyPayload.VOther;
  presence_value _ := ToyPayload.VOther;
  to_string _ := Ok "{}"%string;
|}.

Definition env : Env := mkEnv (λ _, Ok (toy_snapshot "cursor9" 50)) (λ _, Ok tt).

Lemma env_ok : env_ok (V:=ToyPayload.value) env.
Proof.
  constructor; [intros n; by exists (toy_snapshot "cursor9" 50)|done|intros c; by exists "{}"%string].
Qed.

(** The hello has been sent for the state of [toy_store], at GEID 10. *)
Definition sock : Sock ToyPayload.value :=
  mkSock (mkConn RealtimeConfig.new toy_store SSyncing [] (Some []) ∅ [] 0 false None 0)
    (run_ops [OpBeginConnecting; OpReady []; OpBeginSync] (machine_new (state toy_store))) [] 0.

Lemma sock_ok : sock_ok sock.
Proof.
  constructor; simpl; try done; [|by left].
  by apply cleared_ok.
Qed.

(** Two replayed events, a live one, and the end of the replay. *)
Definition stream : list (ServerFrame ToyPayload.value) :=
  [FSyncReplay (mkSyncReplay 11 12 [ToyFrames.toy_event 11; ToyFrames.toy_event 12]);
   FStateEvent (ToyFrames.toy_event 13); FSyncComplete (mkSyncComplete "cursorC")].

Definition final : Sock ToyPayload.value := (process_frames env stream sock).2.

Lemma stream_run : process_frames env stream sock = (Ok tt, final).
Proof. vm_compute. reflexivity. Qed.

(** A replay out of order, which makes a snapshot necessary. *)
Definition stale : ServerFrame ToyPayload.value :=
  FSyncReplay (mkSyncReplay 9 9 [ToyFrames.toy_event 9]).

Lemma stale_run : process_frame env stale sock = (Ok tt, (process_frame env stale sock).2).
Proof. vm_compute. reflexivity. Qed.
End ToyEngine.

(** ** Properties *)

(** C21: [Live] means synchronized. While one socket processes any sequence of server
    frames without ending, resynchronizations included, the connection is [Live]
    exactly when the state machine is, and then no event is queued and the projection
    is at the machine's GEID boundary; in every phase that boundary is the later of
    the projection's GEID and the last queued event's. *)
Theorem live_means_synchronized {V}
    `{PayloadDecoders V, Broadcast (StateEvent V), FrameDecoders V, FrameEncoders V}
    (env : Env) (frames : list (ServerFrame V)) (s s' : Sock V) :
  (∀ e n, encoded_len e = Some n → is_u64 n) →
  sock_ok s → process_frames env frames s = (Ok tt, s') →
  sock_ok s' ∧
  (cn_status (so_conn s') = SLive →
   queued_live (so_machine s') = [] ∧ st_geid (current_state s') = sm_geid (so_machine s')).
Proof.
  intros Hlen Hok Hrun. apply process_frames_spec in Hrun as (Hok' & _ & _); [|done..].
  split; [done|]. by apply live_synchronized.
Qed.

Lemma live_means_synchronized_witness :
  cn_status (so_conn ToyEngine.final) = SLive ∧
  st_geid (current_state ToyEngine.final) = sm_geid (so_machine ToyEngine.final).
Proof.
  assert (cn_status (so_conn ToyEngine.final) = SLive) as Hlive by (vm_compute; reflexivity).
  split; [exact Hlive|].
  exact (proj2 (proj2 (live_means_synchronized ToyEngine.env ToyEngine.stream ToyEngine.sock
    ToyEngine.final ToyFrames.encoded_len_u64 ToyEngine.sock_ok ToyEngine.stream_run) Hlive)).
Defined.

(** C5: the projected state is the fold of the event stream. From a fresh hello, if
    the socket becomes live without asking for a new snapshot, then the state it
    publishes is the snapshot with every replayed and live event of the stream
    projected onto it, each once and in the order of arrival (the cursor, which
    [sync.complete] also moves, aside). *)
Theorem live_state_is_event_fold {V}
    `{PayloadDecoders V, Broadcast (StateEvent V), FrameDecoders V, FrameEncoders V}
    (env : Env) (frames : list (ServerFrame V)) (s s' : Sock V) :
  (∀ e n, encoded_len e = Some n → is_u64 n) →
  sock_ok s → queued_live (so_machine s) = [] → process_frames env frames s = (Ok tt, s') →
  so_snapshots s' = so_snapshots s → cn_status (so_conn s') = SLive →
  ∃ st, project_all (concat (stream_events <$> frames)) (current_state s) = Some st ∧
    current_state s' = set_cursor (st_cursor (current_state s')) st.
Proof.
  intros Hlen Hok Hq Hrun Hn Hlive. apply process_frames_spec in Hrun as (Hok' & _ & Hfold); [|done..].
  destruct (Hfold Hn [] (current_state s)) as [(applied & Heq & st & Hp & Hst)|(e & rest & He & _)].
  - left. exists []. rewrite Hq. split; [done|]. exists (current_state s). split; [done|].
    by destruct (current_state s).
  - destruct (live_synchronized s' Hok' Hlive) as [Hq' _]. rewrite Hq', app_nil_r in Heq.
    exists st. simpl in Heq. by rewrite Heq.
  - destruct (live_synchronized s' Hok' Hlive) as [Hq' _]. congruence.
Qed.

Lemma live_state_is_event_fold_witness :
  ∃ st, project_all [ToyFrames.toy_event 11; ToyFrames.toy_event 12; ToyFrames.toy_event 13]
          (state toy_store) = Some st ∧
    current_state ToyEngine.final = set_cursor (st_cursor (current_state ToyEngine.final)) st.
Proof.
  exact (live_state_is_event_fold ToyEngine.env ToyEngine.stream ToyEngine.sock ToyEngine.final
    ToyFrames.encoded_len_u64 ToyEngine.sock_ok eq_refl ToyEngine.stream_run eq_refl eq_refl).
Defined.

(** C22: a broken stream is repaired, not fatal, and a sound one is absorbed. While the provider
    has snapshots and the session sends, a frame of the state stream does one of three things.
    If the machine accepts it and the store accepts every event that it makes due, those
    events are installed and nothing is asked or sent. If its kind is illegal in the phase of
    the connection, the socket ends with that error. In every other case (events out of
    order or from another epoch, a full queue, an event the store rejects, a demand for
    synchronization, an unknown state event) the frame is no error, and afterwards
    the whole next snapshot of the provider is installed, the machine waits for a replay from
    it with an empty queue, the status is [Syncing], and a hello with the snapshot's cursor
    is the last and only message sent. *)
Theorem resync_repairs_stream {V}
    `{PayloadDecoders V, Broadcast (StateEvent V), FrameDecoders V, FrameEncoders V}
    (env : Env) (frame : ServerFrame V) (op : SyncOp V) (s : Sock V) :
  env_ok (V:=V) env → frame_op frame = Some op → sock_ok s →
  let '(r, s') := process_frame env frame s in
  match absorbed frame s with
  | Some store =>
      r = Ok tt ∧ cn_state (so_conn s') = store ∧ so_snapshots s' = so_snapshots s ∧ so_sent s' = so_sent s
  | None =>
      if legal (phase (so_machine s)) op then r = Ok tt ∧ repaired env s s'
      else ∃ text, r = Err (Sync (InvalidPhase text))
  end.
Proof.
  intros Henv Hop Hok. pose proof (stream_frame_cases env Henv frame op s Hop Hok) as Hcase.
  by destruct (process_frame env frame s) as [r s'].
Qed.

Lemma resync_repairs_stream_witness :
  ∃ snapshot, env_snapshot ToyEngine.env 0 = Ok snapshot ∧
    current_state (process_frame ToyEngine.env ToyEngine.stale ToyEngine.sock).2 = from_snapshot snapshot.
Proof.
  pose proof (resync_repairs_stream ToyEngine.env ToyEngine.stale
    (OpReplay (mkSyncReplay 9 9 [ToyFrames.toy_event 9])) ToyEngine.sock ToyEngine.env_ok eq_refl
    ToyEngine.sock_ok) as Hs.
  rewrite ToyEngine.stale_run in Hs.
  assert (absorbed ToyEngine.stale ToyEngine.sock = None) as Hbroken by (vm_compute; reflexivity).
  rewrite Hbroken in Hs. destruct Hs as (_ & snapshot & hello & Hsnap & _ & Hst & _).
  exists snapshot. split; [exact Hsnap|exact Hst].
Defined.
