(* ===== verification/Supervisor.v ===== *)
(** The life of a connection: one socket generation from its first frame to its end
    (run of crates/zephyrvox-realtime/src/engine/socket.rs), and the reconnecting
    owner task (engine.rs).

    Other tasks share the connection: what the handles do to it between two turns of
    the socket's loop is an input of the loop. A cancelled send or processing step
    has the effect of one whose transport or provider call fails. *)

From Stdlib Require Import Sorted.
From S2P Require Import Prelude Text Types Json Wire ClientModel RealtimeTypes Projection StateStore.
From S2P Require Import SyncMachine RealtimeTransport Connection Engine.

(** The stop watch changed: whether its sender lives, and the shutdown flag. *)
Record Stop := mkStop { changed_ok : bool; stop_flag : bool }.

(** What the first [select!] of a socket sees. *)
Inductive First :=
| FirstTimeout
| FirstStopped (stop : Stop)
| FirstReceived (r : result RealtimeError (option WebSocketMessage)).

(** What one step of a handle does to the shared state: nothing, when it only reads it. *)
Inductive HandleOp :=
| HandleRead
| HandleNumber (millis : Z)
| HandleInsert (k : nat) (request_id : string)
| HandleEnqueue (payload : string)
| HandleDrop (request_id : string)
| HandleClose.

(** What one turn of the loop sees; the option of the last two is a stop that
    cancels the send or the processing. *)
Inductive SockInput :=
| InStop (stop : Stop)
| InOutboundClosed
| InOutgoing (cancel : option Stop)
| InTimeout
| InReceived (r : result RealtimeError (option WebSocketMessage)) (cancel : option Stop)
| InHandle (op : HandleOp).

Section supervisor.
Context {V : Type} `{PayloadDecoders V, Broadcast (StateEvent V), FrameDecoders V, FrameEncoders V}.
Context (env : Env).

(** The end of a socket on a stop: [false] is an orderly return. *)
Definition stopping (stop : Stop) : se (Sock V) RealtimeError bool :=
  if changed_ok stop && stop_flag stop then se_ret false else se_raise ConnectionClosed.

(** [run] up to its loop; [true]: the loop is entered. *)
Definition handshake (stopped : bool) (first : First) (hello_stop : option Stop)
    : se (Sock V) RealtimeError bool :=
  let! _ := or_sync (on_machine begin_connecting) in
  if stopped then se_ret false
  else
    match first with
    | FirstTimeout => se_raise (WsTransport "connection.ready timeout")
    | FirstStopped stop => stopping stop
    | FirstReceived r =>
        let! incoming := se_lift r in
        let! limit := se_get (λ s, maximum_frame_bytes (cn_config (so_conn s))) in
        let! frame := se_lift (text_frame incoming limit) in
        match frame with
        | FConnectionReady ready =>
            let id := Ready_control_connection_id ready in
            let! _ := or_sync (on_machine (accept_ready id)) in
            let! _ := on_conn (with_control (Some id)) in
            let! _ := on_conn (store_expires (Ready_access_expires_at ready)) in
            let! _ := on_conn (with_outbound (Some [])) in
            let! _ := on_conn (set_status SReady) in
            let! _ := on_conn (send_event_tx (EventReady id (Ready_access_expires_at ready))) in
            let! cursor := or_sync (on_machine begin_sync) in
            let! hello := se_lift (encode_sync_hello cursor) in
            match hello_stop with
            | Some stop => stopping stop
            | None =>
                let! _ := send_message env (SentText hello) in
                let! _ := on_conn (set_status SSyncing) in
                se_ret true
            end
        | _ => se_raise (Protocol "connection.ready must be the first server frame")
        end
    end.

Definition handle_op (op : HandleOp) (c : Conn V) : Conn V :=
  match op with
  | HandleRead => c
  | HandleNumber millis => (next_request_id millis c).2
  | HandleInsert k request_id => (insert_waiter k request_id c).2
  | HandleEnqueue payload =>
      match cn_outbound c with
      | Some queue => with_outbound (Some (queue ++ [payload])) c
      | None => c
      end
  | HandleDrop request_id => drop_guard request_id c
  | HandleClose => close c
  end.

(** One turn: [true] goes on, [false] returns [Ok(())]. *)
Definition loop_input (input : SockInput) : se (Sock V) RealtimeError bool :=
  match input with
  | InStop stop => stopping stop
  | InOutboundClosed => se_raise ConnectionClosed
  | InOutgoing cancel =>
      let! queue := se_get (λ s, cn_outbound (so_conn s)) in
      match queue with
      | Some (text :: rest) =>
          let! _ := on_conn (with_outbound (Some rest)) in
          match cancel with
          | Some stop => stopping stop
          | None => let! _ := send_message env (SentText text) in se_ret true
          end
      | _ => se_ret true
      end
  | InTimeout => se_raise (WsTransport "WebSocket liveness timeout")
  | InReceived r cancel =>
      let! incoming := se_lift r in
      match incoming with
      | None => se_raise (WsTransport "WebSocket peer closed")
      | Some message =>
          match cancel with
          | None => let! processed := process_message env message in se_ret (negb processed)
          | Some stop => λ s, stopping stop (process_message env message s).2
          end
      end
  | InHandle op => let! _ := on_conn (handle_op op) in se_ret true
  end.

(** [None]: the loop is still running after the inputs. *)
Fixpoint socket_loop (inputs : list SockInput) (s : Sock V)
    : option (result RealtimeError unit) * Sock V :=
  match inputs with
  | [] => (None, s)
  | input :: rest =>
      match loop_input input s with
      | (Err e, s) => (Some (Err e), s)
      | (Ok false, s) => (Some (Ok tt), s)
      | (Ok true, s) => socket_loop rest s
      end
  end.

(** What one socket generation sees. *)
Record Script := mkScript {
  sc_stopped : bool;
  sc_first : First;
  sc_hello : option Stop;
  sc_inputs : list SockInput;
}.

Definition socket_run (script : Script) (c : Conn V) : option (result RealtimeError unit) * Sock V :=
  let s := mkSock c (machine_new (state (cn_state c))) [] 0 in
  match handshake (sc_stopped script) (sc_first script) (sc_hello script) s with
  | (Err e, s) => (Some (Err e), s)
  | (Ok false, s) => (Some (Ok tt), s)
  | (Ok true, s) => socket_loop (sc_inputs script) s
  end.

(** ** engine.rs *)

(** [load_access_token] and [connect_socket]: [None] when the connection is already
    stopped or the stop wins. *)
Definition unless_stopped {A} (r : option (result RealtimeError A)) : result RealtimeError A :=
  match r with Some r => r | None => Err ConnectionClosed end.

(** One turn of [run]: the shutdown flag where it is read; the outcomes of the provider and
    of the connector; the life of the socket; how the backoff sleep ends; and what the
    handles do before the turn, while the provider and the connector are asked, between the
    clearing of the lost socket and what follows, during the sleep, and, if it is the last
    turn, between the last clearing and the last status. *)
Record Round := mkRound {
  rd_waiting : list HandleOp;
  rd_stopped : bool;
  rd_connecting : list HandleOp;
  rd_token : option (result RealtimeError string);
  rd_connect : option (result RealtimeError Script);
  rd_lost : list HandleOp;
  rd_stopped_after : bool;
  rd_slept : Stop + bool;
  rd_sleeping : list HandleOp;
  rd_closing : list HandleOp;
}.

Definition handles (ops : list HandleOp) (c : Conn V) : Conn V := foldl (λ c op, handle_op op c) c ops.

(** [wait_for_retry]: [inl] is a change of the stop watch, [inr] the flag after the
    sleep. *)
Definition wait_for_retry (policy : ReconnectPolicy) (attempt : Z) (round : Round) (c : Conn V)
    : bool * Conn V :=
  if match maximum_attempts policy with Some maximum => maximum <=? attempt | None => false end
  then (false, c)
  else
    (match rd_slept round with
     | inr stopped => negb stopped
     | inl stop => negb (changed_ok stop) || negb (stop_flag stop)
     end, handles (rd_sleeping round) (set_status SReconnecting c)).

(** The end of [run]. *)
Definition finish (round : Round) (c : Conn V) : Conn V :=
  set_status SClosed (handles (rd_closing round) (clear_socket_state c)).

Inductive Outcome :=
| Running
| Finished.

(** After a failure: stop, or wait and go on. *)
Definition after_error (policy : ReconnectPolicy) (error : RealtimeError) (attempt : Z)
    (round : Round) (c : Conn V) : bool * Conn V :=
  if terminal_error error || negb (enabled policy) then (false, c)
  else wait_for_retry policy attempt round c.

Definition retry (policy : ReconnectPolicy) (error : RealtimeError) (attempt : Z) (round : Round)
    (c : Conn V) : option Outcome * Conn V :=
  match after_error policy error attempt round c with
  | (true, c) => (None, c)
  | (false, c) => (Some Finished, finish round c)
  end.

(** The status of a turn, and where it stands when the token is asked for. *)
Definition begin_turn (round : Round) (attempt : Z) (c : Conn V) : Conn V :=
  handles (rd_connecting round) (set_status (if attempt =? 0 then SConnecting else SReconnecting) c).

(** One turn of the loop of [run]; [None] goes on. *)
Definition engine_turn (policy : ReconnectPolicy) (round : Round) (attempt : Z) (c : Conn V)
    : option Outcome * Conn V :=
  let c := handles (rd_waiting round) c in
  if rd_stopped round then (Some Finished, finish round c)
  else
    let c := begin_turn round attempt c in
    match unless_stopped (rd_token round) with
    | Err error => retry policy error attempt round c
    | Ok _ =>
        let '(result, c) :=
          match unless_stopped (rd_connect round) with
          | Ok script => let '(r, s) := socket_run script c in (r, so_conn s)
          | Err e => (Some (Err e), c)
          end in
        match result with
        | None => (Some Running, c)
        | Some result =>
            let c := handles (rd_lost round) (clear_socket_state c) in
            let c := match result with
                     | Err error => send_event_tx (EventDisconnected (display_realtime_error error)) c
                     | Ok _ => c
                     end in
            if rd_stopped_after round then (Some Finished, finish round c)
            else
              match result with
              | Ok _ => (Some Finished, finish round c)
              | Err error => retry policy error attempt round c
              end
        end
    end.

(** The loop of [run]: how it ended, the value of [attempt], and the connection. *)
Fixpoint engine_loop (policy : ReconnectPolicy) (rounds : list Round) (attempt : Z) (c : Conn V)
    : Outcome * Z * Conn V :=
  match rounds with
  | [] => (Running, attempt, c)
  | round :: rest =>
      match engine_turn policy round attempt c with
      | (Some outcome, c) => (outcome, attempt, c)
      | (None, c) => engine_loop policy rest (saturating_add u64_max attempt 1) c
      end
  end.

Definition engine_run (rounds : list Round) (c : Conn V) : Outcome * Z * Conn V :=
  engine_loop (reconnect (cn_config c)) rounds 0 c.
End supervisor.

(** ** Lemmas: what the owner task does to the waiters *)

Section owner.
Context {V : Type} `{PayloadDecoders V, Broadcast (StateEvent V), FrameDecoders V, FrameEncoders V}.
Context (env : Env).

(** The owner's part of the command model gets from one connection to the other. *)
Definition owner_steps (c c' : Conn V) : Prop :=
  ∀ cmds, rtc world_step (mkWorld c cmds) (mkWorld c' cmds).

Definition owned {E A} (op : se (Sock V) E A) : Prop :=
  ∀ s, owner_steps (so_conn s) (so_conn (op s).2).

Lemma owner_refl c : owner_steps c c.
Proof. by intros cmds. Qed.

Lemma owner_trans c1 c2 c3 : owner_steps c1 c2 → owner_steps c2 c3 → owner_steps c1 c3.
Proof. intros H1' H2' cmds. etrans; [apply H1'|apply H2']. Qed.

Lemma owner_set_status st c : owner_steps c (set_status st c).
Proof. intros cmds. apply rtc_once, owner_status. Qed.

Lemma owner_send_event e c : owner_steps c (send_event_tx e c).
Proof. intros cmds. apply rtc_once, owner_event. Qed.

Lemma owner_with_state store c : owner_steps c (with_state store c).
Proof. intros cmds. apply rtc_once, owner_state. Qed.

Lemma owner_clear_state c : owner_steps c (clear_socket_state c).
Proof. intros cmds. apply rtc_once, owner_clear. Qed.

Lemma owner_with_control id c : owner_steps c (with_control id c).
Proof. intros cmds. apply rtc_once, owner_control. Qed.

Lemma owner_store_expires at_millis c : owner_steps c (store_expires at_millis c).
Proof. intros cmds. apply rtc_once, owner_expires. Qed.

Lemma owner_with_outbound queue c : owner_steps c (with_outbound (Some queue) c).
Proof. intros cmds. apply rtc_once, owner_outbound. Qed.

Lemma owner_install snapshot c : owner_steps c (install_snapshot snapshot c).
Proof.
  unfold install_snapshot. destruct (replace_snapshot snapshot (cn_state c)) as [[a|] store];
    [eapply owner_trans; [|apply owner_send_event]|]; apply owner_with_state.
Qed.

(** [owned] is closed under the combinators. *)
Lemma owned_ret {E A} (a : A) : owned (E:=E) (se_ret a).
Proof. intros s. apply owner_refl. Qed.

Lemma owned_raise {E A} (e : E) : owned (A:=A) (se_raise e).
Proof. intros s. apply owner_refl. Qed.

Lemma owned_lift {E A} (r : result E A) : owned (se_lift r).
Proof. intros s. apply owner_refl. Qed.

Lemma owned_get {E A} (f : Sock V → A) : owned (E:=E) (se_get f).
Proof. intros s. apply owner_refl. Qed.

Lemma owned_bind {E A B} (m : se (Sock V) E A) (k : A → se (Sock V) E B) :
  owned m → (∀ a, owned (k a)) → owned (se_bind m k).
Proof.
  intros Hm Hk s. specialize (Hm s). unfold se_bind. destruct (m s) as [[a|e] s1]; [|exact Hm].
  eapply owner_trans; [exact Hm|apply Hk].
Qed.

Lemma owned_machine {E A} (op : se (SyncMachine V) E A) : owned (on_machine op).
Proof. intros s. unfold on_machine. destruct (op (so_machine s)). apply owner_refl. Qed.

Lemma owned_sync {A} (op : se (Sock V) SyncError A) : owned op → owned (or_sync op).
Proof. intros Hop s. specialize (Hop s). unfold or_sync. by destruct (op s). Qed.

Lemma owned_conn f : (∀ c, owner_steps c (f c)) → owned (on_conn f).
Proof. intros Hf s. apply Hf. Qed.

Lemma owned_send m : owned (send_message env m).
Proof. intros s. apply owner_refl. Qed.

Lemma owned_provider : owned (provider_snapshot env).
Proof. intros s. apply owner_refl. Qed.
End owner.

Create HintDb owned.
#[export] Hint Resolve owner_set_status owner_send_event owner_with_state owner_clear_state
  owner_with_control owner_store_expires owner_with_outbound owner_install owned_ret owned_raise owned_lift owned_get owned_machine
  owned_sync owned_conn owned_send owned_provider : owned.

(** Decomposes sequences and closes the primitive operations. *)
Ltac solve_owned :=
  solve [repeat first [ progress intros | solve [eauto with owned] | apply owned_bind ]].

Section owner_operations.
Context {V : Type} `{PayloadDecoders V, Broadcast (StateEvent V), FrameDecoders V, FrameEncoders V}.
Context (env : Env).

Lemma owned_hello reason : owned (V:=V) (replace_snapshot_and_hello env reason).
Proof. unfold replace_snapshot_and_hello. solve_owned. Qed.

Lemma owned_required reason : owned (V:=V) (publish_sync_required reason).
Proof. unfold publish_sync_required. solve_owned. Qed.

#[local] Hint Resolve owned_hello owned_required : owned.

Lemma owned_recover error : owned (V:=V) (recover_sync_error env error).
Proof. unfold recover_sync_error. destruct (negb _); solve_owned. Qed.

Lemma owned_apply event : owned (V:=V) (apply_or_resync env event).
Proof.
  intros s. unfold apply_or_resync, store_apply. destruct (apply_event event _) as [[o|error] store].
  - apply owner_trans with (with_state store (so_conn s)); [apply owner_with_state|].
    apply (owner_send_event (EventState event)).
  - set (s1 := mkSock (with_state store (so_conn s)) (so_machine s) (so_sent s) (so_snapshots s)).
    apply owner_trans with (so_conn s1); [apply owner_with_state|].
    refine (_ s1 : owner_steps _ _). solve_owned.
Qed.

Lemma owned_in_order events : owned (V:=V) (apply_in_order env events).
Proof.
  induction events as [|e events IH]; simpl; [solve_owned|].
  apply owned_bind; [apply owned_apply|]. intros [|]; [exact IH|solve_owned].
Qed.

#[local] Hint Resolve owned_recover owned_apply owned_in_order : owned.

(** A machine operation, and what follows it. *)
Lemma owned_match {A B} (op : se (SyncMachine V) SyncError A)
    (ko : A → se (Sock V) RealtimeError B) (ke : SyncError → se (Sock V) RealtimeError B) :
  (∀ a, owned (ko a)) → (∀ e, owned (ke e)) →
  owned (λ s, match on_machine op s with (Err e, s) => ke e s | (Ok a, s) => ko a s end).
Proof.
  intros Ho He s. unfold on_machine. destruct (op (so_machine s)) as [[a|e] m].
  - exact (Ho a (mkSock (so_conn s) m (so_sent s) (so_snapshots s))).
  - exact (He e (mkSock (so_conn s) m (so_sent s) (so_snapshots s))).
Qed.

Lemma owned_frame frame : owned (V:=V) (process_frame env frame).
Proof.
  destruct frame as [ready|replay|complete|required|event|ack|error|revoked|unknown].
  - intros s. apply owner_refl.
  - apply (owned_match (accept_replay replay)); solve_owned.
  - apply (owned_match (accept_complete complete)); [|solve_owned]. intros queued.
    apply owned_bind; [apply owned_conn; intros c; apply owner_with_state|]. intros _.
    apply owned_bind; [apply owned_in_order|]. intros [|]; solve_owned.
  - change (owned (let! _ := publish_sync_required (required_reason required) in
                   replace_snapshot_and_hello (V:=V) env (required_reason required))). solve_owned.
  - apply (owned_match (accept_live_event event)); [|solve_owned].
    intros [e|]; [solve_owned|]. intros s. apply owner_refl.
  - apply owned_conn. intros c cmds. destruct (Ack_expires_at ack) as [at_millis|].
    + etrans; [apply (owner_store_expires at_millis c)|]. apply rtc_once, owner_command_ok.
    + apply rtc_once, owner_command_ok.
  - apply owned_conn. intros c cmds. apply rtc_once, owner_command_error.
  - intros s. apply owner_refl.
  - intros s. cbn [process_frame]. destruct (starts_with _ _).
    + refine (_ s : owner_steps _ _). solve_owned.
    + apply owner_send_event.
Qed.

Lemma owned_message message : owned (V:=V) (process_message env message).
Proof.
  unfold process_message. apply owned_bind; [solve_owned|]. intros limit.
  destruct message as [payload|payload|payload|reason|code reason]; try solve [solve_owned].
  destruct (limit <? str_len payload); [solve_owned|].
  apply owned_bind; [solve_owned|]. intros frame. apply owned_bind; [apply owned_frame|]. solve_owned.
Qed.

Lemma owned_stopping stop : owned (V:=V) (stopping stop).
Proof. unfold stopping. destruct (_ && _); solve_owned. Qed.

#[local] Hint Resolve owned_message owned_stopping : owned.

Lemma owned_handshake stopped first hello_stop : owned (V:=V) (handshake env stopped first hello_stop).
Proof.
  unfold handshake. apply owned_bind; [solve_owned|]. intros _.
  destruct stopped; [solve_owned|]. destruct first as [|stop|r]; [solve_owned..|].
  do 3 (apply owned_bind; [solve_owned|]; intros ?).
  match goal with f : ServerFrame V |- _ => destruct f end; try solve [solve_owned].
  do 8 (apply owned_bind; [solve_owned|]; intros ?). destruct hello_stop; solve_owned.
Qed.

(** Inputs that are not another task's. *)
Definition owner_input (input : SockInput) : Prop :=
  match input with InHandle _ => False | _ => True end.

Lemma owned_input input : owner_input input → owned (V:=V) (loop_input env input).
Proof.
  destruct input as [stop| |cancel| |r cancel|op]; intros Hin;
    cbn [loop_input]; [solve_owned..| | | |done].
  - cbn [loop_input]. apply owned_bind; [solve_owned|]. intros [[|text rest]|]; [solve_owned| |solve_owned].
    apply owned_bind; [solve_owned|]. intros _. destruct cancel; solve_owned.
  - solve_owned.
  - cbn [loop_input]. apply owned_bind; [solve_owned|]. intros [message|]; [|solve_owned].
    destruct cancel as [stop|]; [|solve_owned]. intros s.
    pose proof (owned_message message s) as Hm. destruct (process_message env message s) as [r' s1].
    eapply owner_trans; [exact Hm|]. apply owned_stopping.
Qed.

Lemma owned_script_handshake script (c : Conn V) :
  owner_steps c (so_conn (handshake env (sc_stopped script) (sc_first script) (sc_hello script)
                            (mkSock c (machine_new (state (cn_state c))) [] 0)).2).
Proof. apply (owned_handshake _ _ _ (mkSock c _ [] 0)). Qed.
End owner_operations.

(** ** Lemmas: synchronization of a whole socket *)

Section generation.
Context {V : Type} `{PayloadDecoders V, Broadcast (StateEvent V), FrameDecoders V, FrameEncoders V}.
Context (env : Env).

(** A socket enters its loop synchronizing from the state it found. *)
Lemma handshake_ok stopped first hello_stop (c : Conn V) s' :
  store_ok (cn_state c) →
  handshake env stopped first hello_stop (mkSock c (machine_new (state (cn_state c))) [] 0) = (Ok true, s') →
  sock_ok s' ∧ queued_live (so_machine s') = [] ∧ cn_state (so_conn s') = cn_state c ∧
  cn_status (so_conn s') = SSyncing ∧ so_snapshots s' = 0%nat ∧
  ∃ ready id at_millis hello, first = FirstReceived (Ok ready) ∧
    text_frame ready (maximum_frame_bytes (cn_config c)) =
      Ok (FConnectionReady (mkConnectionReady id at_millis)) ∧
    cn_control_id (so_conn s') = Some id ∧ cn_access_expires_at (so_conn s') = at_millis ∧
    encode_sync_hello (st_cursor (state (cn_state c))) = Ok hello ∧ so_sent s' = [SentText hello].
Proof.
  intros Hok Hrun. unfold handshake in Hrun.
  apply se_bind_ok in Hrun as ([] & s1 & (m1 & Hm1 & ->)%or_sync_ok%on_machine_ok & Hrun).
  simpl in Hm1. injection Hm1 as <-. destruct stopped; [done|].
  destruct first as [|stop|r]; [done| |].
  { unfold stopping in Hrun. by destruct (_ && _). }
  apply se_bind_ok in Hrun as (incoming & s2 & [= -> <-] & Hrun).
  apply se_bind_ok in Hrun as (limit & s3 & [= <- <-] & Hrun).
  apply se_bind_ok in Hrun as (frame & s4 & [= Hframe <-] & Hrun). cbn [so_conn] in Hframe.
  destruct frame as [[id at_millis]| | | | | | | |]; try done.
  cbn [Ready_control_connection_id Ready_access_expires_at] in Hrun.
  apply se_bind_ok in Hrun as ([] & s5 & (m5 & Hm5 & ->)%or_sync_ok%on_machine_ok & Hrun).
  simpl in Hm5. injection Hm5 as <-.
  do 5 apply se_bind_ok in Hrun as ([] & ? & [= <-] & Hrun).
  apply se_bind_ok in Hrun as (cursor & s6 & (m6 & Hm6 & ->)%or_sync_ok%on_machine_ok & Hrun).
  unfold begin_sync in Hm6. cbn in Hm6. injection Hm6 as <- <-.
  apply se_bind_ok in Hrun as (hello & s7 & [= Hhello <-] & Hrun).
  destruct hello_stop as [stop|]; [unfold stopping in Hrun; by destruct (_ && _)|].
  apply se_bind_ok in Hrun as ([] & s8 & [= _ <-] & Hrun).
  apply se_bind_ok in Hrun as ([] & s9 & [= <-] & [= <-]). cbn in Hhello |- *.
  split; [|by split_and!; eauto 10]. constructor; unfold current_state; simpl; try done.
  - by apply cleared_ok.
  - by left.
  - lia.
Qed.

(** Handles do not touch what the synchronization depends on, nor what a socket has left. *)
Lemma handle_op_frame op (c : Conn V) :
  let c' := handle_op op c in
  cn_state c' = cn_state c ∧ cn_status c' = cn_status c ∧ (cn_outbound c = None → cn_outbound c' = None) ∧
  cn_control_id c' = cn_control_id c ∧ cn_access_expires_at c' = cn_access_expires_at c ∧
  ∀ id k, cn_pending c' !! id = Some k → cn_pending c !! id = Some k ∨ op = HandleInsert k id.
Proof.
  destruct op as [|millis|k id|payload|request_id|]; cbn zeta; cbn [handle_op].
  - by split_and!; auto.
  - by split_and!; auto.
  - unfold insert_waiter. destruct (_ <=? _); cbn; split_and!; auto.
    intros id' k' [[-> ->]|[_ ?]]%lookup_insert_Some; auto.
  - destruct (cn_outbound c) as [queue|] eqn:Ho; cbn; split_and!; auto; congruence.
  - cbn. split_and!; auto. intros id k [_ ?]%lookup_delete_Some. by left.
  - unfold close. destruct (cn_stopped c); by split_and!; auto.
Qed.

Lemma handles_frame ops (c : Conn V) :
  let c' := handles ops c in
  (cn_outbound c = None → cn_outbound c' = None) ∧
  cn_control_id c' = cn_control_id c ∧ cn_access_expires_at c' = cn_access_expires_at c ∧
  ∀ id k, cn_pending c' !! id = Some k → cn_pending c !! id = Some k ∨ HandleInsert k id ∈ ops.
Proof.
  cbn zeta. revert c. induction ops as [|op ops IH]; intros c; [by split_and!; auto|].
  change (handles (op :: ops) c) with (handles ops (handle_op op c)).
  destruct (handle_op_frame op c) as (_ & _ & Ho & Hc & He & Hp), (IH (handle_op op c)) as (Ho' & Hc' & He' & Hp').
  split_and!; [auto|congruence|congruence|]. intros id k [[?| ->]%Hp|?]%Hp'; [by left|right..]; by constructor.
Qed.

Lemma process_message_ok message s b s' :
  (∀ e n, encoded_len e = Some n → is_u64 n) →
  sock_ok s → process_message (V:=V) env message s = (Ok b, s') → sock_ok s'.
Proof.
  intros Hlen Hok Hrun. apply se_bind_ok in Hrun as (limit & s1 & [= _ <-] & Hrun).
  destruct message as [payload|payload|payload|reason|code reason]; try done.
  - destruct (limit <? str_len payload); [done|].
    apply se_bind_ok in Hrun as (frame & s2 & [= Hf <-] & Hrun).
    apply se_bind_ok in Hrun as ([] & s3 & Hrun & [= _ <-]). by eapply process_frame_ok.
  - apply se_bind_ok in Hrun as ([] & s2 & [= _ <-] & [= _ <-]). destruct Hok. by constructor.
  - by injection Hrun as _ <-.
Qed.

Lemma loop_input_ok input s s' :
  (∀ e n, encoded_len e = Some n → is_u64 n) →
  sock_ok s → loop_input (V:=V) env input s = (Ok true, s') → sock_ok s'.
Proof.
  intros Hlen Hok Hrun.
  destruct input as [stop| |cancel| |r cancel|op]; cbn [loop_input] in Hrun; try done.
  - unfold stopping in Hrun. by destruct (_ && _).
  - apply se_bind_ok in Hrun as (queue & s1 & [= _ <-] & Hrun).
    destruct queue as [[|text rest]|]; [by injection Hrun as <-| |by injection Hrun as <-].
    apply se_bind_ok in Hrun as ([] & s2 & [= <-] & Hrun).
    destruct cancel as [stop|]; [unfold stopping in Hrun; by destruct (_ && _)|].
    apply se_bind_ok in Hrun as ([] & s3 & [= _ <-] & [= <-]). destruct Hok. by constructor.
  - apply se_bind_ok in Hrun as (incoming & s1 & [= _ <-] & Hrun).
    destruct incoming as [message|]; [|done].
    destruct cancel as [stop|]; [unfold stopping in Hrun; by destruct (_ && _)|].
    apply se_bind_ok in Hrun as (b & s2 & Hmsg & [= _ <-]). by eapply process_message_ok.
  - apply se_bind_ok in Hrun as ([] & s1 & [= <-] & [= <-]).
    destruct (handle_op_frame op (so_conn s)) as (? & ? & _). by apply conn_frame_ok.
Qed.

Lemma socket_loop_ok inputs s s' :
  (∀ e n, encoded_len e = Some n → is_u64 n) →
  sock_ok s → socket_loop (V:=V) env inputs s = (None, s') → sock_ok s'.
Proof.
  intros Hlen. revert s. induction inputs as [|input inputs IH]; intros s Hok Hrun; simpl in Hrun.
  { by simplify_eq. }
  destruct (loop_input env input s) as [[[|]|e] s1] eqn:Hone; [|done..].
  eapply IH; [|exact Hrun]. by eapply loop_input_ok.
Qed.
End generation.

(** ** Properties *)

(** A socket generation. While a socket runs, whatever its peer sends and the
    handles do, it is synchronized in the sense of [live_means_synchronized]; it was
    opened by a [connection.ready] within the frame limit, whose connection identity
    it published, and answered with a hello for the cursor of the installed state. *)
Theorem socket_generation_synchronized {V}
    `{PayloadDecoders V, Broadcast (StateEvent V), FrameDecoders V, FrameEncoders V}
    (env : Env) (script : Script) (c : Conn V) (s : Sock V) :
  (∀ e n, encoded_len e = Some n → is_u64 n) →
  store_ok (cn_state c) → socket_run env script c = (None, s) →
  sock_ok s ∧
  (cn_status (so_conn s) = SLive →
   queued_live (so_machine s) = [] ∧ st_geid (current_state s) = sm_geid (so_machine s)) ∧
  ∃ message id at_millis hello,
    sc_first script = FirstReceived (Ok (Some (WText message))) ∧
    str_len message ≤ maximum_frame_bytes (cn_config c) ∧
    parse_server_frame message = Ok (FConnectionReady (mkConnectionReady id at_millis)) ∧
    encode_sync_hello (st_cursor (state (cn_state c))) = Ok hello.
Proof.
  intros Hlen Hstore Hrun. unfold socket_run in Hrun.
  destruct (handshake _ _ _ _ _) as [[[|]|e] s1] eqn:Hhand; [|done..].
  apply handshake_ok in Hhand as (Hok1 & _ & _ & _ & _ & ready & id & at_millis & hello & Hf & Ht & _ & _ & Hh & _);
    [|done].
  assert (sock_ok s) as Hok by (by eapply socket_loop_ok).
  split; [done|]. split; [by apply live_synchronized|].
  destruct ready as [[message|p|p|r|code r]|]; simpl in Ht; try done.
  destruct (Z.ltb_spec (maximum_frame_bytes (cn_config c)) (str_len message)); [done|].
  exists message, id, at_millis, hello. by split_and!.
Qed.

(** The ready frame and nothing more. *)
Definition toy_script : Script :=
  mkScript false (FirstReceived (Ok (Some (WText "ready")))) None [InReceived (Ok (Some (WText "complete"))) None].

Definition toy_live : Sock ToyPayload.value := (socket_run ToyEngine.env toy_script toy_conn).2.

Lemma socket_generation_synchronized_witness :
  cn_status (so_conn toy_live) = SLive ∧
  st_geid (current_state toy_live) = sm_geid (so_machine toy_live).
Proof.
  assert (socket_run ToyEngine.env toy_script toy_conn = (None, toy_live)) as Hrun
    by (vm_compute; reflexivity).
  assert (cn_status (so_conn toy_live) = SLive) as Hlive by (vm_compute; reflexivity).
  split; [exact Hlive|].
  destruct (socket_generation_synchronized ToyEngine.env toy_script toy_conn toy_live
    ToyFrames.encoded_len_u64 (store_from_snapshot_ok _) Hrun) as (_ & Hsync & _).
  exact (proj2 (Hsync Hlive)).
Defined.

Section engine.
Context {V : Type} `{PayloadDecoders V, Broadcast (StateEvent V), FrameDecoders V, FrameEncoders V}.
Context (env : Env).

(** After an error: on with the next attempt, or the end. *)
Lemma retry_on policy error attempt round (c c' : Conn V) :
  retry policy error attempt round c = (None, c') →
  terminal_error error = false ∧ enabled policy = true ∧
  ∀ n, maximum_attempts policy = Some n → attempt < n.
Proof.
  unfold retry, after_error, wait_for_retry. destruct (terminal_error error); simpl; [done|].
  destruct (enabled policy); simpl; [|done]. intros Hrun. split_and!; [done..|].
  intros n Hn. rewrite Hn in Hrun. by destruct (Z.leb_spec n attempt).
Qed.

Lemma retry_end policy error attempt round (c c' : Conn V) o :
  retry policy error attempt round c = (Some o, c') → o = Finished ∧ ∃ c1, c' = finish round c1.
Proof. unfold retry. destruct (after_error _ _ _ _ _) as [[] c1]; [done|]. intros [= <- <-]. eauto. Qed.

(** A turn that goes on keeps to the policy; one that ends the task closes it. *)
Lemma engine_turn_on policy round attempt (c c' : Conn V) :
  engine_turn env policy round attempt c = (None, c') →
  enabled policy = true ∧ ∀ n, maximum_attempts policy = Some n → attempt < n.
Proof.
  unfold engine_turn. destruct (rd_stopped round); [done|]. destruct (unless_stopped (rd_token round)) as [token|error].
  - destruct (match unless_stopped (rd_connect round) with Ok _ => _ | Err _ => _ end) as [[result|] c1]; [|done].
    destruct (rd_stopped_after round), result; try done. by intros (_ & ? & ?)%retry_on.
  - by intros (_ & ? & ?)%retry_on.
Qed.

Lemma engine_turn_end policy round attempt (c c' : Conn V) :
  engine_turn env policy round attempt c = (Some Finished, c') → ∃ c1, c' = finish round c1.
Proof.
  unfold engine_turn. destruct (rd_stopped round); [intros [= <-]; eauto|].
  destruct (unless_stopped (rd_token round)) as [token|error].
  - destruct (match unless_stopped (rd_connect round) with Ok _ => _ | Err _ => _ end) as [[result|] c1]; [|done].
    destruct (rd_stopped_after round), result; try (intros [= <-]; eauto). by intros [_ ?]%retry_end.
  - by intros [_ ?]%retry_end.
Qed.

Lemma engine_loop_end policy rounds attempt (c c' : Conn V) attempt' :
  engine_loop env policy rounds attempt c = (Finished, attempt', c') →
  ∃ round c1, round ∈ rounds ∧ c' = finish round c1.
Proof.
  revert attempt c. induction rounds as [|round rounds IH]; cbn [engine_loop]; intros attempt c Hrun; [done|].
  destruct (engine_turn env policy round attempt c) as [[o|] c1] eqn:Ht.
  - injection Hrun as -> _ <-. apply engine_turn_end in Ht as [c2 ->]. exists round, c2. split; [by constructor|done].
  - apply IH in Hrun as (last & c2 & Hin & ->). exists last, c2. split; [by constructor|done].
Qed.

(** The turns that [run] makes at most, from the value of [attempt]. *)
Definition turns_left (policy : ReconnectPolicy) (attempt : Z) : option nat :=
  if enabled policy then (λ n, S (Z.to_nat (n - attempt))) <$> maximum_attempts policy else Some 1%nat.

(** Later rounds are not looked at. *)
Lemma engine_loop_take policy rounds attempt (c : Conn V) k :
  (∀ n, maximum_attempts policy = Some n → n ≤ u64_max) → 0 ≤ attempt →
  turns_left policy attempt = Some k →
  engine_loop env policy (take k rounds) attempt c = engine_loop env policy rounds attempt c.
Proof.
  intros Hmax. revert attempt c k. induction rounds as [|round rounds IH]; intros attempt c k Ha Hk; [by destruct k|].
  unfold turns_left in Hk. assert (∃ j, k = S j) as [j ->].
  { destruct (enabled policy); [|by injection Hk as <-; eauto]. destruct (maximum_attempts policy); [|done].
    injection Hk as <-. eauto. }
  cbn [take engine_loop]. destruct (engine_turn env policy round attempt c) as [[o|] c1] eqn:Ht; [done|].
  apply engine_turn_on in Ht as [He Hlt]. rewrite He in Hk. destruct (maximum_attempts policy) as [n|] eqn:Hn; [|done].
  injection Hk as <-. specialize (Hlt n eq_refl). specialize (Hmax n eq_refl).
  assert (saturating_add u64_max attempt 1 = attempt + 1) as Hs by (unfold saturating_add; lia).
  apply IH; [lia|]. unfold turns_left. rewrite He, Hn, Hs. cbn. do 2 f_equal. lia.
Qed.

Lemma engine_loop_attempts policy rounds attempt (c c' : Conn V) o attempt' :
  0 ≤ attempt ≤ u64_max → engine_loop env policy rounds attempt c = (o, attempt', c') →
  attempt ≤ attempt' ≤ attempt + len rounds.
Proof.
  revert attempt c. induction rounds as [|round rounds IH]; cbn [engine_loop]; intros attempt c Ha Hrun.
  { simplify_eq. unfold len. simpl. lia. }
  assert (len (round :: rounds) = len rounds + 1) as -> by (unfold len; simpl; lia).
  assert (0 ≤ len rounds) by (unfold len; lia).
  destruct (engine_turn env policy round attempt c) as [[o'|] c1]; [simplify_eq; lia|].
  apply IH in Hrun; unfold saturating_add in *; lia.
Qed.
End engine.

(** C9: the owner task keeps to its reconnect policy, and it ends tidily. Whatever the provider,
    the connector, the sockets and the handles do, and whether or not a socket went live in
    between: with a maximum of [n] reconnects at most [n + 1] turns of its loop are ever made,
    each with at most one token request and one socket, and with reconnecting disabled at
    most one; what would follow is not looked at. When the task ends, the status is
    [Closed], the last event says so, and no outbound queue, connection identity or lease is
    left, and no waiter but those that handles have entered since the last clearing. *)
Theorem engine_bounded_and_closed {V}
    `{PayloadDecoders V, Broadcast (StateEvent V), FrameDecoders V, FrameEncoders V}
    (env : Env) (rounds : list Round) (c c' : Conn V) (o : Outcome) (attempts : Z) :
  let policy := reconnect (cn_config c) in
  (∀ n, maximum_attempts policy = Some n → is_u64 n) →
  engine_run env rounds c = (o, attempts, c') →
  (enabled policy = false → engine_run env (take 1 rounds) c = (o, attempts, c')) ∧
  (∀ n, maximum_attempts policy = Some n →
     engine_run env (take (S (Z.to_nat n)) rounds) c = (o, attempts, c')) ∧
  0 ≤ attempts ≤ len rounds ∧
  (o = Finished →
     cn_status c' = SClosed ∧ list.last (cn_events c') = Some (StatusChanged SClosed) ∧
     cn_outbound c' = None ∧ cn_control_id c' = None ∧ access_expires_at c' = None ∧
     ∃ round, round ∈ rounds ∧ ∀ id k, cn_pending c' !! id = Some k → HandleInsert k id ∈ rd_closing round).
Proof.
  intros policy Hmax Hrun. unfold engine_run in *. fold policy in Hrun |- *.
  assert (∀ n, maximum_attempts policy = Some n → n ≤ u64_max) as Hmax' by (intros n Hn; apply (Hmax n Hn)).
  pose proof Hrun as Hbound%engine_loop_attempts; [|unfold u64_max; lia]. split_and!; [| |lia..|].
  - intros He. rewrite (engine_loop_take env policy rounds 0 c 1); [done|done|lia|]. unfold turns_left. by rewrite He.
  - intros n Hn. destruct (enabled policy) eqn:He.
    + rewrite (engine_loop_take env policy rounds 0 c (S (Z.to_nat n))); [done|done|lia|].
      unfold turns_left. rewrite He, Hn. cbn. by rewrite Z.sub_0_r.
    + rewrite <- (engine_loop_take env policy (take (S (Z.to_nat n)) rounds) 0 c 1); [|done|lia|by unfold turns_left; rewrite He].
      rewrite take_take, Nat.min_l by lia. rewrite (engine_loop_take env policy rounds 0 c 1); [done|done|lia|].
      unfold turns_left. by rewrite He.
  - intros ->. apply engine_loop_end in Hrun as (round & c1 & Hin & ->). unfold finish.
    destruct (handles_frame (rd_closing round) (clear_socket_state c1)) as (Ho & Hc & He & Hp).
    split_and!; [done|cbn; by rewrite last_snoc|by apply Ho|exact Hc|unfold access_expires_at; cbn; by rewrite He|].
    exists round. split; [done|]. intros id k [Hin'|?]%Hp; [|done]. cbn in Hin'. by rewrite lookup_empty in Hin'.
Qed.

(** A connection that may reconnect once, and whose token cannot be had. *)
Definition toy_limited : Conn ToyPayload.value :=
  mkConn (RealtimeConfig.with_reconnect_policy
            (ReconnectPolicy.with_maximum_attempts (Some 1) ReconnectPolicy.default_policy)
            RealtimeConfig.new) toy_store SDisconnected [] None ∅ [] 0 false None 0.

Definition toy_round : Round :=
  mkRound [HandleClose] false [] (Some (Err (Provider "offline"))) None [] false (inr false) [] [].

Definition toy_ended : Conn ToyPayload.value :=
  (engine_run ToyEngine.env [toy_round; toy_round; toy_round] toy_limited).2.

Lemma engine_bounded_and_closed_witness :
  engine_run ToyEngine.env [toy_round; toy_round] toy_limited = (Finished, 1, toy_ended) ∧
  cn_status toy_ended = SClosed.
Proof.
  assert (engine_run ToyEngine.env [toy_round; toy_round; toy_round] toy_limited
    = (Finished, 1, toy_ended)) as Hrun by (vm_compute; reflexivity).
  destruct (engine_bounded_and_closed ToyEngine.env _ toy_limited toy_ended Finished 1
    ltac:(intros n [= <-]; unfold is_u64, u64_max; lia) Hrun) as (_ & Hlim & _ & Hend).
  split; [exact (Hlim 1 eq_refl)|exact (proj1 (Hend eq_refl))].
Defined.

(** Two sockets that go live, and then hear nothing more. *)
Definition toy_lost : Round :=
  mkRound [] false [] (Some (Ok "token"%string))
    (Some (Ok (mkScript (sc_stopped toy_script) (sc_first toy_script) (sc_hello toy_script)
                 (sc_inputs toy_script ++ [InTimeout]))))
    [] false (inr false) [] [].

(** The attempts are counted over the life of the connection: going live does not reset
    them. With a limit of one reconnect, the second loss of a live socket closes the
    connection, by an error that may be retried. *)
Lemma live_sockets_use_up_attempts :
  let '(outcome, attempts, c) := engine_run ToyEngine.env [toy_lost; toy_lost; toy_lost] toy_limited in
  outcome = Finished ∧ attempts = 1 ∧ cn_status c = SClosed ∧
  length (omap (λ e, match e with StatusChanged SLive => Some tt | _ => None end) (cn_events c)) = 2%nat ∧
  terminal_error (WsTransport "WebSocket liveness timeout") = false.
Proof. vm_compute. by split_and!. Qed.
