(* ===== verification/OwnerTask.v ===== *)
(** The commands of the handles among the turns of the owner task
    (crates/zephyrvox-realtime/src: connection.rs, engine.rs, engine/socket.rs). Connection
    models the commands as processes over the shared connection, with steps of the owner
    between; Supervisor models the owner task, with what the handles do as an input. Here
    the two are put together: the calls of the handles in a run of the task are those of
    the commands. *)

From S2P Require Import Prelude Text Types Json Wire ClientModel RealtimeTypes Projection StateStore.
From S2P Require Import SyncMachine RealtimeTransport Connection Engine Supervisor.

Section commands.
Context {V : Type} `{PayloadDecoders V, Broadcast (StateEvent V), FrameDecoders V, FrameEncoders V}.
Context (env : Env).
Implicit Types (c : Conn V) (s : Sock V) (cmds : list CmdPc).

(** ** The calls of the handles are those of commands

    The list of the commands goes with the run: each call that the handles make is one step
    of the command model from where the connection stands then. *)

Fixpoint commanded (ops : list HandleOp) c cmds cmds' : Prop :=
  match ops with
  | [] => cmds' = cmds
  | op :: ops =>
      ∃ cmds1, world_step (mkWorld c cmds) (mkWorld (handle_op op c) cmds1) ∧ commanded ops (handle_op op c) cmds1 cmds'
  end.

Definition input_ops (input : SockInput) : list HandleOp :=
  match input with InHandle op => [op] | _ => [] end.

Fixpoint commanded_inputs (inputs : list SockInput) s cmds cmds' : Prop :=
  match inputs with
  | [] => cmds' = cmds
  | input :: rest =>
      ∃ cmds1, commanded (input_ops input) (so_conn s) cmds cmds1 ∧
        match loop_input env input s with
        | (Ok true, s) => commanded_inputs rest s cmds1 cmds'
        | _ => cmds' = cmds1
        end
  end.

Definition commanded_script (script : Script) c cmds cmds' : Prop :=
  match handshake env (sc_stopped script) (sc_first script) (sc_hello script)
          (mkSock c (machine_new (state (cn_state c))) [] 0) with
  | (Ok true, s) => commanded_inputs (sc_inputs script) s cmds cmds'
  | _ => cmds' = cmds
  end.

Definition commanded_finish (round : Round) c cmds cmds' : Prop :=
  commanded (rd_closing round) (clear_socket_state c) cmds cmds'.

Definition commanded_retry (policy : ReconnectPolicy) (error : RealtimeError) (attempt : Z) (round : Round)
    c cmds cmds' : Prop :=
  if terminal_error error || negb (enabled policy)
     || match maximum_attempts policy with Some maximum => maximum <=? attempt | None => false end
  then commanded_finish round c cmds cmds'
  else
    ∃ cmds1, commanded (rd_sleeping round) (set_status SReconnecting c) cmds cmds1 ∧
      match wait_for_retry policy attempt round c with
      | (true, _) => cmds' = cmds1
      | (false, c) => commanded_finish round c cmds1 cmds'
      end.

(** What follows the end of a socket, or of the attempt to open one. *)
Definition commanded_end (policy : ReconnectPolicy) (round : Round) (attempt : Z)
    (result : result RealtimeError unit) c cmds cmds' : Prop :=
  ∃ cmds1, commanded (rd_lost round) (clear_socket_state c) cmds cmds1 ∧
    let c := handles (rd_lost round) (clear_socket_state c) in
    match result with
    | Ok _ => commanded_finish round c cmds1 cmds'
    | Err error =>
        let c := send_event_tx (EventDisconnected (display_realtime_error error)) c in
        if rd_stopped_after round then commanded_finish round c cmds1 cmds'
        else commanded_retry policy error attempt round c cmds1 cmds'
    end.

Definition commanded_turn (policy : ReconnectPolicy) (round : Round) (attempt : Z) c cmds cmds' : Prop :=
  ∃ cmds1, commanded (rd_waiting round) c cmds cmds1 ∧
    let c := handles (rd_waiting round) c in
    if rd_stopped round then commanded_finish round c cmds1 cmds'
    else
      ∃ cmds2,
        commanded (rd_connecting round) (set_status (if attempt =? 0 then SConnecting else SReconnecting) c) cmds1 cmds2 ∧
        let c := begin_turn round attempt c in
        match unless_stopped (rd_token round), unless_stopped (rd_connect round) with
        | Err error, _ => commanded_retry policy error attempt round c cmds2 cmds'
        | Ok _, Err error => commanded_end policy round attempt (Err error) c cmds2 cmds'
        | Ok _, Ok script =>
            ∃ cmds3, commanded_script script c cmds2 cmds3 ∧
              match socket_run env script c with
              | (None, _) => cmds' = cmds3
              | (Some result, s) => commanded_end policy round attempt result (so_conn s) cmds3 cmds'
              end
        end.

Fixpoint commanded_rounds (policy : ReconnectPolicy) (rounds : list Round) (attempt : Z) c cmds cmds' : Prop :=
  match rounds with
  | [] => cmds' = cmds
  | round :: rest =>
      ∃ cmds1, commanded_turn policy round attempt c cmds cmds1 ∧
        match engine_turn env policy round attempt c with
        | (None, c) => commanded_rounds policy rest (saturating_add u64_max attempt 1) c cmds1 cmds'
        | _ => cmds' = cmds1
        end
  end.

(** ** The task and the commands together are steps of the command model *)

(** [to c cmds c' cmds']: the command model gets from the one to the other. *)
Abbreviation to c cmds c' cmds' := (rtc world_step (mkWorld c cmds) (mkWorld c' cmds')).

Lemma commanded_to ops c cmds cmds' : commanded ops c cmds cmds' → to c cmds (handles ops c) cmds'.
Proof.
  revert c cmds. induction ops as [|op ops IH]; intros c cmds; cbn; [by intros ->|].
  intros (cmds1 & Hstep & Hrest). eapply rtc_l; [exact Hstep|]. by apply IH.
Qed.

Lemma input_to input s cmds cmds' :
  commanded (input_ops input) (so_conn s) cmds cmds' → to (so_conn s) cmds (so_conn (loop_input env input s).2) cmds'.
Proof.
  intros Hc. destruct input as [stop| |cancel| |r cancel|op];
    [| | | | |cbn; exact (commanded_to _ _ _ _ Hc)]; cbn in Hc; subst cmds'; by apply owned_input.
Qed.

Lemma inputs_to inputs s cmds cmds' :
  commanded_inputs inputs s cmds cmds' → to (so_conn s) cmds (so_conn (socket_loop env inputs s).2) cmds'.
Proof.
  revert s cmds. induction inputs as [|input rest IH]; intros s cmds; cbn [commanded_inputs socket_loop]; [by intros ->|].
  intros (cmds1 & Hin%input_to & Hrest). destruct (loop_input env input s) as [[[|]|e] s1].
  - etrans; [exact Hin|]. by apply IH.
  - by subst.
  - by subst.
Qed.

Lemma script_to script c cmds cmds' :
  commanded_script script c cmds cmds' → to c cmds (so_conn (socket_run env script c).2) cmds'.
Proof.
  unfold commanded_script, socket_run. pose proof (owned_script_handshake env script c cmds) as Hh.
  destruct (handshake _ _ _ _ _) as [[[|]|e] s1]; cbn [snd] in *.
  - intros Hin%inputs_to. by etrans.
  - by intros ->.
  - by intros ->.
Qed.

Lemma finish_to round c cmds cmds' : commanded_finish round c cmds cmds' → to c cmds (finish round c) cmds'.
Proof.
  intros Hc%commanded_to. etrans; [apply owner_clear_state|]. etrans; [exact Hc|]. apply owner_set_status.
Qed.

Lemma retry_to policy error attempt round c cmds cmds' :
  commanded_retry policy error attempt round c cmds cmds' →
  to c cmds (retry policy error attempt round c).2 cmds'.
Proof.
  unfold commanded_retry, retry, after_error, wait_for_retry. intros Hc.
  destruct (terminal_error error || negb (enabled policy)); [by apply finish_to|].
  destruct (match maximum_attempts policy with Some _ => _ | None => _ end); [by apply finish_to|].
  destruct Hc as (cmds1 & Hs%commanded_to & Hc).
  destruct (match rd_slept round with inl _ => _ | inr _ => _ end); cbn [snd].
  - subst. etrans; [apply owner_set_status|exact Hs].
  - etrans; [apply owner_set_status|]. etrans; [exact Hs|]. by apply finish_to.
Qed.

(** The turn after the end of a socket. *)
Lemma end_to policy round attempt (r : result RealtimeError unit) c cmds cmds' :
  commanded_end policy round attempt r c cmds cmds' →
  to c cmds
    (let c := handles (rd_lost round) (clear_socket_state c) in
     let c := match r with
              | Err error => send_event_tx (EventDisconnected (display_realtime_error error)) c
              | Ok _ => c
              end in
     if rd_stopped_after round then (Some Finished, finish round c)
     else
       match r with
       | Ok _ => (Some Finished, finish round c)
       | Err error => retry policy error attempt round c
       end).2 cmds'.
Proof.
  intros (cmds1 & Hl%commanded_to & Hc). cbn zeta in *.
  set (cl := handles (rd_lost round) (clear_socket_state c)) in *.
  assert (to c cmds cl cmds1) as Hcl by (etrans; [apply owner_clear_state|exact Hl]). clearbody cl.
  destruct r as [[]|error].
  - destruct (rd_stopped_after round); (etrans; [exact Hcl|by apply finish_to]).
  - destruct (rd_stopped_after round); (etrans; [exact Hcl|]; etrans; [apply owner_send_event|]);
      [by apply finish_to|by apply retry_to].
Qed.

Lemma turn_to policy round attempt c cmds cmds' :
  commanded_turn policy round attempt c cmds cmds' → to c cmds (engine_turn env policy round attempt c).2 cmds'.
Proof.
  intros (cmds1 & Hw%commanded_to & Hrest). cbn zeta in Hrest. unfold engine_turn. destruct (rd_stopped round).
  { etrans; [exact Hw|by apply finish_to]. }
  destruct Hrest as (cmds2 & Hc%commanded_to & Hrest).
  assert (to c cmds (begin_turn round attempt (handles (rd_waiting round) c)) cmds2) as Hb.
  { etrans; [exact Hw|]. etrans; [apply owner_set_status|exact Hc]. }
  clear Hw Hc. set (cb := begin_turn round attempt _) in *. clearbody cb.
  destruct (unless_stopped (rd_token round)) as [token|error].
  2:{ etrans; [exact Hb|by apply retry_to]. }
  destruct (unless_stopped (rd_connect round)) as [script|e].
  2:{ etrans; [exact Hb|by apply (end_to _ _ _ (Err e))]. }
  destruct Hrest as (cmds3 & Hs%script_to & Hrest). destruct (socket_run env script cb) as [[r|] s]; cbn [snd] in Hs.
  - etrans; [exact Hb|]. etrans; [exact Hs|by apply end_to].
  - subst. by etrans.
Qed.

Lemma rounds_to policy rounds attempt c cmds cmds' :
  commanded_rounds policy rounds attempt c cmds cmds' →
  to c cmds (engine_loop env policy rounds attempt c).2 cmds'.
Proof.
  revert attempt c cmds. induction rounds as [|round rest IH]; intros attempt c cmds; cbn [commanded_rounds engine_loop];
    [by intros ->|].
  intros (cmds1 & Hturn & Hrest). apply (turn_to policy) in Hturn.
  destruct (engine_turn env policy round attempt c) as [[o|] c1]; [by subst|].
  etrans; [exact Hturn|]. by apply IH.
Qed.
End commands.

(** ** Properties *)

(** C36: the command guarantees hold of the real owner task with the commands of the handles in
    it. Start with commands not begun and let the task run, over any number of sockets, with
    the commands taking any of their steps at any point of it: while a socket lives, between
    two sockets, during the backoff and while the task ends. The task sends the queued
    frames, resolves the waiters of the replies it reads and clears the table when a socket
    is lost. The whole run is one of the command model; so a command that has returned an
    acknowledgement has the one for its own request, no waiter is completed twice, and the
    table is bounded. Once the task has ended, every command that ever found a queue has its
    result, and one whose frame was queued can return it; what is left in the table belongs
    to commands that are still to look for a queue, find none and return. *)
Theorem owner_task_refines_command_model {V}
    `{PayloadDecoders V, Broadcast (StateEvent V), FrameDecoders V, FrameEncoders V}
    (env : Env) (rounds : list Round) (c c' : Conn V) (cmds cmds' : list CmdPc) (o : Outcome) (attempts : Z) :
  world_init c cmds → commanded_rounds env (reconnect (cn_config c)) rounds 0 c cmds cmds' →
  engine_run env rounds c = (o, attempts, c') →
  rtc world_step (mkWorld c cmds) (mkWorld c' cmds') ∧
  (∀ k id ack, cmds' !! k = Some (CmdDone id (Ok ack)) → id = Some (Ack_request_id ack)) ∧
  NoDup (cn_delivered c').*1 ∧
  Z.of_nat (size (cn_pending c')) ≤ maximum_pending_commands (cn_config c') ∧
  (o = Finished →
     (∀ k pc id, cmds' !! k = Some pc → queued_id pc = Some id →
        ∃ r, delivery k c' = Some r ∧ (∀ ack, r = Ok ack → Ack_request_id ack = id) ∧
          (pc = CmdSent id → world_step (mkWorld c' cmds') (mkWorld (drop_guard id c') (<[k := CmdDone (Some id) r]> cmds')))) ∧
     ∀ id k, cn_pending c' !! id = Some k →
       ∃ payload, cmds' !! k = Some (CmdWaiting id payload) ∧
         world_step (mkWorld c' cmds') (mkWorld (drop_guard id c') (<[k := CmdDone (Some id) (Err NotLive)]> cmds'))).
Proof.
  intros Hinit Hcmds Hrun. pose proof (rounds_to _ _ _ _ _ _ _ Hcmds) as Hreach.
  change (engine_loop env (reconnect (cn_config c)) rounds 0 c) with (engine_run env rounds c) in Hreach.
  rewrite Hrun in Hreach. cbn [snd] in Hreach.
  assert (world_ok (mkWorld c' cmds')) as Hok.
  { eapply (rtc_invariant world_step world_ok); [intros; by eapply world_step_ok|exact Hreach|].
    by apply world_init_ok. }
  split_and!; [done| |exact (wo_once _ Hok)|exact (wo_bound _ Hok)|].
  { intros k id ack Hk. by destruct (wo_done _ Hok k id ack Hk) as (i & -> & <- & _). }
  intros ->. assert (cn_outbound c' = None) as Hnone.
  { unfold engine_run in Hrun. apply engine_loop_end in Hrun as (round & c1 & _ & ->). unfold finish.
    by apply (handles_frame (rd_closing round) (clear_socket_state c1)). }
  assert (∀ k pc id, cmds' !! k = Some pc → queued_id pc = Some id → cn_pending c' !! id ≠ Some k) as Hleft.
  { intros k pc id Hk Hq Hp. destruct (wo_queued _ Hok k pc id Hk Hq Hp) as [q Ho]. simpl in Ho. congruence. }
  split.
  - intros k pc id Hk Hq.
    destruct (wo_waiter _ Hok k pc id Hk (queued_running _ _ Hq)) as [Hp|Hin]; [by destruct (Hleft k pc id Hk Hq)|].
    apply (delivery_some k c') in Hin as [r Hr]. exists r. split_and!; [done| |intros ->; by apply cmd_result].
    intros ack ->. apply delivery_in in Hr. exact (proj2 (proj2 (wo_delivered _ Hok k _ Hr)) pc id ack Hk (queued_running _ _ Hq) eq_refl).
  - intros id k Hp. destruct (wo_pending _ Hok id k Hp) as (pc & Hk & Hid). simpl in Hk.
    destruct pc as [| | |i payload|i payload|i| |]; try done; simpl in Hid; injection Hid as ->.
    + exists payload. split; [done|]. by eapply cmd_no_outbound.
    + by destruct (Hleft k _ id Hk eq_refl).
    + by destruct (Hleft k _ id Hk eq_refl).
Qed.

(** ** A run: two commands on a live socket *)

(** What the handles do for a command that is let on, takes an identifier, enters its waiter,
    finds the queue and adds its frame. *)
Definition toy_command (k : nat) (id : string) : list HandleOp :=
  [HandleRead; HandleNumber 1; HandleInsert k id; HandleRead; HandleEnqueue id].

Definition toy_second : string := format_request_id 1 2.

(** The socket goes live; the first command queues its frame, which is sent; its reply
    arrives and it returns. The second has queued its frame when the socket is lost. *)
Definition toy_session_inputs : list SockInput :=
  InReceived (Ok (Some (WText "complete"))) None :: (InHandle <$> toy_command 0 toy_id) ++
  [InOutgoing None; InReceived (Ok (Some (WText "ok"))) None; InHandle (HandleDrop toy_id)] ++
  (InHandle <$> toy_command 1 toy_second) ++ [InTimeout].

Definition toy_session_round : Round :=
  mkRound [] false [] (Some (Ok "token"%string))
    (Some (Ok (mkScript false (FirstReceived (Ok (Some (WText "ready")))) None toy_session_inputs))) [] true (inr false) [] [].

Definition toy_fresh_conn : Conn ToyPayload.value :=
  mkConn RealtimeConfig.new toy_store SDisconnected [] None ∅ [] 0 false None 0.

Definition toy_two : list CmdPc := [CmdStart false Ok; CmdStart false Ok].
Definition toy_served : list CmdPc := [CmdDone (Some toy_id) (Ok toy_ack); CmdSent toy_second].
Definition toy_lost_conn : Conn ToyPayload.value := (engine_run ToyEngine.env [toy_session_round] toy_fresh_conn).2.

Lemma commanded_cons (env : Env) input rest (s : Sock ToyPayload.value) cmds cmds1 cmds' :
  commanded (input_ops input) (so_conn s) cmds cmds1 → (loop_input env input s).1 = Ok true →
  commanded_inputs env rest (loop_input env input s).2 cmds1 cmds' → commanded_inputs env (input :: rest) s cmds cmds'.
Proof.
  intros Hc Hs Hr. exists cmds1. split; [done|]. destruct (loop_input env input s) as [r s1]. cbn in *. by rewrite Hs.
Qed.

(** The steps of a command of the handles before a socket with the queue [queue]. *)
Lemma command_served k id queue rest (s : Sock ToyPayload.value) cmds cmds' :
  cmds !! k = Some (CmdStart false Ok) → may_send false (so_conn s) = true →
  0 <=? cn_sequence (so_conn s) + 1 = true → cn_sequence (so_conn s) + 1 <=? u64_max = true →
  (next_request_id 1 (so_conn s)).1 = id → (insert_waiter k id (next_request_id 1 (so_conn s)).2).1 = Ok tt →
  cn_outbound (so_conn s) = Some queue →
  commanded_inputs ToyEngine.env rest
    (mkSock (handles (toy_command k id) (so_conn s)) (so_machine s) (so_sent s) (so_snapshots s)) (<[k := CmdSent id]> cmds) cmds' →
  commanded_inputs ToyEngine.env ((InHandle <$> toy_command k id) ++ rest) s cmds cmds'.
Proof.
  intros Hk Hmay Hs1%Z.leb_le Hs2%Z.leb_le Hid Hroom Hq Hrest.
  pose proof (lookup_lt_Some _ _ _ Hk) as Hlt.
  assert (∀ pc : CmdPc, <[k := pc]> cmds !! k = Some pc) as Hnow by (intros pc; by rewrite list_lookup_insert_eq).
  assert (∀ pc pc' : CmdPc, <[k := pc']> (<[k := pc]> cmds) = <[k := pc']> cmds) as Hset
    by (intros; apply list_insert_insert_eq).
  eapply (commanded_cons _ _ _ _ _ (<[k := CmdAllowed Ok]> cmds)); [eexists; split; [by apply (cmd_allowed _ _ k false)|done]|done|].
  eapply (commanded_cons _ _ _ _ _ (<[k := CmdNumbered id id]> cmds)); [|done|].
  { eexists. split; [eapply (cmd_number _ _ k Ok 1); [apply Hnow|done|unfold u128_max; lia]|]. rewrite Hset. cbn -[next_request_id]. by rewrite Hid. }
  eapply (commanded_cons _ _ _ _ _ (<[k := CmdWaiting id id]> cmds)); [|done|].
  { eexists. split; [eapply (cmd_insert _ _ k id id); [apply Hnow|exact Hroom]|]. by rewrite Hset. }
  assert (cn_outbound (insert_waiter k id (next_request_id 1 (so_conn s)).2).2 = Some queue) as Hq'
    by (unfold insert_waiter; by destruct (_ <=? _)).
  eapply (commanded_cons _ _ _ _ _ (<[k := CmdHolding id id]> cmds)); [|done|].
  { eexists. split; [eapply (cmd_clone _ _ k id id queue); [apply Hnow|exact Hq']|]. by rewrite Hset. }
  eapply (commanded_cons _ _ _ _ _ (<[k := CmdSent id]> cmds)); [|done|exact Hrest].
  eexists. cbn [commanded]. cbn -[insert_waiter next_request_id]. rewrite Hq'.
  split; [by apply (cmd_enqueue _ _ k id id queue)|]. by rewrite Hset.
Qed.

Lemma returns k (c : Conn ToyPayload.value) cmds id r :
  cmds !! k = Some (CmdSent id) → delivery k c = Some r →
  commanded [HandleDrop id] c cmds (<[k := CmdDone (Some id) r]> cmds).
Proof. intros Hk Hr. eexists. split; [by eapply cmd_result|done]. Qed.

Definition toy_opened : Sock ToyPayload.value :=
  (handshake ToyEngine.env false (FirstReceived (Ok (Some (WText "ready")))) None
     (mkSock (begin_turn toy_session_round 0 toy_fresh_conn) (machine_new (state (cn_state toy_fresh_conn))) [] 0)).2.

Lemma toy_session_commanded : commanded_inputs ToyEngine.env toy_session_inputs toy_opened toy_two toy_served.
Proof.
  eapply commanded_cons; [reflexivity|by vm_compute|].
  eapply (command_served 0 toy_id []); [by vm_compute..|].
  do 2 (eapply commanded_cons; [reflexivity|by vm_compute|]).
  eapply commanded_cons; [eapply (returns 0 _ _ _ (Ok toy_ack)); by vm_compute|by vm_compute|].
  eapply (command_served 1 toy_second []); [by vm_compute..|].
  eexists. split; [reflexivity|]. reflexivity.
Qed.

Lemma toy_commanded :
  commanded_rounds ToyEngine.env (reconnect (cn_config toy_fresh_conn)) [toy_session_round] 0 toy_fresh_conn toy_two toy_served.
Proof.
  exists toy_served. split; [|vm_compute; reflexivity]. exists toy_two. split; [done|]. cbn zeta.
  exists toy_two. split; [done|]. exists toy_served. split; [exact toy_session_commanded|].
  vm_compute. exists toy_served. by split.
Qed.

(** The first command has its acknowledgement; the second, whose frame was queued when the
    socket was lost, can return an error. *)
Lemma owner_task_refines_command_model_witness :
  ∃ r, delivery 1 toy_lost_conn = Some r ∧
    world_step (mkWorld toy_lost_conn toy_served)
      (mkWorld (drop_guard toy_second toy_lost_conn) (<[1%nat := CmdDone (Some toy_second) r]> toy_served)).
Proof.
  assert (world_init toy_fresh_conn toy_two) as Hinit.
  { split_and!; try reflexivity; [constructor; vm_compute; repeat split; congruence|repeat constructor; eauto]. }
  assert (engine_run ToyEngine.env [toy_session_round] toy_fresh_conn = (Finished, 0, toy_lost_conn)) as Hrun
    by (vm_compute; reflexivity).
  destruct (owner_task_refines_command_model ToyEngine.env [toy_session_round] toy_fresh_conn toy_lost_conn toy_two toy_served
    Finished 0 Hinit toy_commanded Hrun) as (_ & _ & _ & _ & Hend).
  destruct (Hend eq_refl) as [Hsent _].
  destruct (Hsent 1%nat _ toy_second eq_refl eq_refl) as (r & Hr & _ & Hstep). exists r. split; [exact Hr|exact (Hstep eq_refl)].
Defined.
