(* ===== verification/HttpTypes.v ===== *)
(** Requests, responses and their metadata in the HTTP client
    (crates/zephyrvox-http/src: errors.rs, request.rs, response.rs and pagination.rs).

    A [BTreeMap] of headers is a map from lower-case names; a method that takes
    [&mut self] and may fail is a state transition whose state is the request. *)

From S2P Require Import Prelude Text Types Hex Json Wire.

(** ** errors.rs *)

Inductive CredentialStoreError :=
| Storage (text : string)
| InvalidTokenPair.

Inductive HttpError :=
| HttpTransport (text : string)
| HttpInvalidUrl (text : string)
| HttpInvalidHeader (text : string)
| HttpJson (text : string)
| HttpWire (text : string)
| HttpEnvelope (e : EnvelopeError)
| HttpApi (e : ApiError)
| PreconditionFailed (e : ApiError)
| HttpStatus (status : Z) (endpoint : string)
| HttpAuthenticationRequired
| HttpAuthExpired
| ProtocolVersionMismatch (expected actual : Z)
| HttpTlsPinMismatch (expected actual : string)
| TlsPeerCertificateUnavailable
| TlsPeerCertificateInvalid
| UnexpectedNoContent (endpoint : string)
| UnexpectedContent (endpoint : string)
| ExpectedNoContent (endpoint : string)
| HttpClosed
| MissingControlConnection
| MissingPrecondition (header : string)
| HttpCredential (e : CredentialStoreError).

(** ** request.rs *)

Inductive HttpMethod := Get | Post | Patch | Put | Delete.

#[global] Instance HttpMethod_eq_dec : EqDecision HttpMethod.
Proof. solve_decision. Defined.

(** What this component asks of the [url] crate besides the accessors. *)
Class UrlEdit `{UrlLib} := {
  url_join : Url → string → result string Url;
  url_set_username : string → Url → Url;
  url_set_password : option string → Url → Url;
}.

(** [u8::is_ascii_alphanumeric] or one of the symbols of the HTTP token grammar. *)
Definition is_http_token_byte (b : Z) : bool :=
  is_alphanumeric b
  || ((b =? 33) || in_range 35 39 b || in_range 42 43 b || (b =? 45) || (b =? 46) || (b =? 94)
      || (b =? 95) || (b =? 96) || (b =? 124) || (b =? 126)).

(** The bytes that [set_header] refuses in a value. *)
Definition is_forbidden_value_byte (b : Z) : bool :=
  ((b <? 32) && negb (b =? 9)) || (b =? 127).

(** [str::contains] of a text. *)
Fixpoint contains_text (p l : byte_list) : bool :=
  starts_with p l || match l with [] => false | _ :: rest => contains_text p rest end.

Definition is_sensitive_header (name : string) : bool :=
  bool_decide (name ∈ ["authorization"; "proxy-authorization"; "cookie"; "set-cookie"; "x-api-key"]%string)
  || contains_text (str_bytes "token") (str_bytes name)
  || contains_text (str_bytes "secret") (str_bytes name)
  || contains_text (str_bytes "password") (str_bytes name).

(** [RedactedHeaders]: the entries its [Debug] prints, in the order of the names. *)
Definition redacted_headers (headers : gmap string string) : gmap string string :=
  map_imap (λ name value,
    Some (if is_sensitive_header name then "<redacted>"%string else value)) headers.

Section request.
Context `{UrlEdit}.

Record HttpRequest := mkHttpRequest {
  rq_method : HttpMethod;
  rq_url : Url;
  rq_headers : gmap string string;
  rq_body : option byte_list;
}.

Definition request_new (method : HttpMethod) (url : Url) : HttpRequest :=
  mkHttpRequest method url ∅ None.

Definition set_body (body : byte_list) (r : HttpRequest) : HttpRequest :=
  mkHttpRequest (rq_method r) (rq_url r) (rq_headers r) (Some body).

Definition set_header (name value : string) : se HttpRequest HttpError unit := λ r,
  if str_is_empty name
     || existsb is_forbidden_value_byte (str_bytes value)
     || negb (forallb is_http_token_byte (str_bytes name))
  then (Err (HttpInvalidHeader name), r)
  else (Ok tt, mkHttpRequest (rq_method r) (rq_url r)
                 (<[to_ascii_lowercase name := value]> (rq_headers r)) (rq_body r)).

Definition request_header (name : string) (r : HttpRequest) : option string :=
  rq_headers r !! to_ascii_lowercase name.

(** [to_vec] is [serde_json::to_vec] at the type of the value. *)
Definition set_json (to_vec : result string byte_list) : se HttpRequest HttpError unit :=
  let! body := se_lift (map_err HttpJson to_vec) in
  let! _ := se_modify (set_body body) in
  set_header "content-type" "application/json".

Definition redacted_url (url : Url) : string :=
  let url := if negb (str_is_empty (url_username url)) then url_set_username "<redacted>" url else url in
  let url := match url_password url with
             | Some _ => url_set_password (Some "<redacted>"%string) url
             | None => url
             end in
  url_as_str url.

(** The fields that [Debug] prints of a request. *)
Definition request_debug (r : HttpRequest)
    : HttpMethod * string * gmap string string * option Z :=
  (rq_method r, redacted_url (rq_url r), redacted_headers (rq_headers r), len <$> rq_body r).
End request.

Record HttpResponse := mkHttpResponse {
  rs_status : Z;
  rs_headers : gmap string string;
  rs_body : byte_list;
}.

(** The loop of [HttpResponse::new]: a later entry replaces an earlier one. *)
Definition normalize_headers (headers : list (string * string)) : gmap string string :=
  fold_left (λ m h, <[to_ascii_lowercase h.1 := h.2]> m) headers ∅.

Definition response_new (status : Z) (headers : list (string * string)) (body : byte_list)
    : HttpResponse :=
  mkHttpResponse status (normalize_headers headers) body.

Definition response_empty (status : Z) : HttpResponse := response_new status [] [].

Definition response_header (name : string) (r : HttpResponse) : option string :=
  rs_headers r !! to_ascii_lowercase name.

Definition response_debug (r : HttpResponse) : Z * gmap string string * Z :=
  (rs_status r, redacted_headers (rs_headers r), len (rs_body r)).

Record RequestOptions := mkRequestOptions {
  opt_idempotency_key : option string;
  opt_if_match : option string;
  opt_parent_if_match : option string;
  opt_control_connection : option byte_list;
}.

Definition options_new : RequestOptions := mkRequestOptions None None None None.

(** [expect] on the wire grammar: [None] is the panic. The process-wide counter is
    the state; [fetch_add] wraps. *)
Definition generate_idempotency_key (now counter : Z) : option (string * Z) :=
  match IdempotencyKey.new (of_bytes (str_bytes "sdk-" ++ pad_hex 16 now ++ str_bytes "-"
                                      ++ hex16 counter)) with
  | Ok key => Some (key, wrapping_add_u64 counter 1)
  | Err _ => None
  end.

Definition with_idempotency_key (key : string) (o : RequestOptions) : RequestOptions :=
  mkRequestOptions (Some key) (opt_if_match o) (opt_parent_if_match o) (opt_control_connection o).

Definition with_if_match (etag : string) (o : RequestOptions) : RequestOptions :=
  mkRequestOptions (opt_idempotency_key o) (Some etag) (opt_parent_if_match o)
    (opt_control_connection o).

Definition with_parent_if_match (etag : string) (o : RequestOptions) : RequestOptions :=
  mkRequestOptions (opt_idempotency_key o) (opt_if_match o) (Some etag) (opt_control_connection o).

Definition with_control_connection (id : byte_list) (o : RequestOptions) : RequestOptions :=
  mkRequestOptions (opt_idempotency_key o) (opt_if_match o) (opt_parent_if_match o) (Some id).

Definition mutation (now counter : Z) : option (RequestOptions * Z) :=
  let* (key, counter) := generate_idempotency_key now counter in
  Some (with_idempotency_key key options_new, counter).

Definition ensure_idempotency (now counter : Z) (o : RequestOptions) : option (RequestOptions * Z) :=
  match opt_idempotency_key o with
  | Some _ => Some (o, counter)
  | None =>
      let* (key, counter) := generate_idempotency_key now counter in
      Some (with_idempotency_key key o, counter)
  end.

Definition has_control_connection (o : RequestOptions) : bool :=
  bool_decide (is_Some (opt_control_connection o)).

Definition require_if_match (o : RequestOptions) : result HttpError unit :=
  match opt_if_match o with
  | Some _ => Ok tt
  | None => Err (MissingPrecondition IF_MATCH)
  end.

Definition require_parent_if_match (o : RequestOptions) : result HttpError unit :=
  match opt_parent_if_match o with
  | Some _ => Ok tt
  | None => Err (MissingPrecondition PARENT_IF_MATCH)
  end.

(** [if let Some(value) = option { request.set_header(name, value)?; }]. *)
Definition set_optional `{UrlEdit} (name : string) (value : option string)
    : se HttpRequest HttpError unit :=
  match value with Some value => set_header name value | None => se_ret tt end.

Definition apply `{UrlEdit} (o : RequestOptions) : se HttpRequest HttpError unit :=
  let! _ := set_optional IDEMPOTENCY_KEY (opt_idempotency_key o) in
  let! _ := set_optional IF_MATCH (opt_if_match o) in
  let! _ := set_optional PARENT_IF_MATCH (opt_parent_if_match o) in
  set_optional CONTROL_CONNECTION (FixedId.to_hex <$> opt_control_connection o).

(** ** pagination.rs *)

Section pages.
Context `{UrlLib}.

Definition query_path (resource : string) (parameters : list (string * string)) : string :=
  let query := form_urlencode parameters in
  if str_is_empty query then resource else (resource +:+ "?" +:+ query)%string.

Definition page_path (resource : string) (limit offset : Z) : string :=
  query_path resource [("limit"%string, display_u64 limit); ("offset"%string, display_u64 offset)].
End pages.

(** ** response.rs *)

Record ResponseHeaders := mkResponseHeaders {
  rh_etag : option string;
  rh_parent_etag : option string;
  rh_command_id : option string;
  rh_state_cursor : option string;
  rh_stream_epoch : option byte_list;
  rh_geid : option Z;
  rh_sync_required : bool;
}.

Record ApiResponse (T : Type) := mkApiResponse {
  resp_data : T;
  resp_status : Z;
  resp_headers : ResponseHeaders;
}.
Arguments mkApiResponse {T} _ _ _.
Arguments resp_data {T} _.
Arguments resp_status {T} _.
Arguments resp_headers {T} _.

Definition invalid_response_header (endpoint header reason : string) : HttpError :=
  HttpInvalidHeader (endpoint +:+ ": " +:+ header +:+ ": " +:+ reason).

Definition parse_optional_etag (value : option string) (header endpoint : string)
    : result HttpError (option string) :=
  transpose ((λ v, map_err (λ e, HttpInvalidHeader (header +:+ ": " +:+ display_id_error e))
                     (Etag.new v)) <$> value).

(** The other optional headers: [parse] is [Cursor::new], [StreamEpoch::parse_hex]
    or [Geid::from_str]. *)
Definition parse_optional {A} (parse : string → result IdError A) (header : string)
    (value : option string) (endpoint : string) : result HttpError (option A) :=
  transpose ((λ v, map_err (λ e, invalid_response_header endpoint header (display_id_error e))
                     (parse v)) <$> value).

Definition parse_optional_cursor := parse_optional Cursor.new STATE_CURSOR.
Definition parse_optional_epoch := parse_optional FixedId.parse_hex STREAM_EPOCH.
Definition parse_optional_geid := parse_optional Geid.from_str GEID.

Definition parse_sync_required (value : option string) (endpoint : string)
    : result HttpError bool :=
  match value with
  | None => Ok false
  | Some value =>
      if bool_decide (value ∈ ["true"; "TRUE"; "True"]%string) then Ok true
      else if bool_decide (value ∈ ["false"; "FALSE"; "False"]%string) then Ok false
      else Err (invalid_response_header endpoint SYNC_REQUIRED
                  ("unsupported boolean value " +:+ value))
  end.

Definition parse_headers (response : HttpResponse) (endpoint : string)
    : result HttpError ResponseHeaders :=
  let? etag := parse_optional_etag (response_header ETAG response) ETAG endpoint in
  let? parent_etag := parse_optional_etag (response_header PARENT_ETAG response) PARENT_ETAG endpoint in
  let? state_cursor := parse_optional_cursor (response_header STATE_CURSOR response) endpoint in
  let? stream_epoch := parse_optional_epoch (response_header STREAM_EPOCH response) endpoint in
  let? geid := parse_optional_geid (response_header GEID response) endpoint in
  let? sync_required := parse_sync_required (response_header SYNC_REQUIRED response) endpoint in
  Ok (mkResponseHeaders etag parent_etag (response_header COMMAND_ID response) state_cursor
        stream_epoch geid sync_required).

Definition in_statuses (lo hi status : Z) : bool := (lo <=? status) && (status <? hi).

Definition map_envelope_error (error : EnvelopeError) (status : Z) (endpoint : string) : HttpError :=
  match error with
  | Api api =>
      let api := Envelope.with_http_context api status endpoint
                   ((status =? 429) || in_statuses 500 600 status) in
      if status =? 412 then PreconditionFailed api else HttpApi api
  | other => HttpEnvelope other
  end.

(** [serde_json::from_slice] at [ApiEnvelope<Value>]. *)
Class BodyDecoder (V : Type) := {
  envelope_from_slice : byte_list → result string (ApiEnvelope V);
}.

Section decoding.
Context {V : Type} `{JsonValue V, BodyDecoder V}.

(** [from_value] is the [Deserialize] implementation of the response type. *)
Definition decode_json {T} (from_value : V → result string T) (response : HttpResponse)
    (endpoint : string) : result HttpError (ApiResponse T) :=
  let status := rs_status response in
  if status =? 204 then Err (UnexpectedNoContent endpoint)
  else
    let? headers := parse_headers response endpoint in
    let? envelope := map_err HttpJson (envelope_from_slice (rs_body response)) in
    if negb (in_statuses 200 300 status) && (code envelope =? 0) then
      Err (HttpStatus status endpoint)
    else
      match Envelope.into_typed from_value envelope with
      | Ok data => Ok (mkApiResponse data status headers)
      | Err error => Err (map_envelope_error error status endpoint)
      end.

Definition decode_no_content (response : HttpResponse) (endpoint : string)
    : result HttpError (ApiResponse unit) :=
  let status := rs_status response in
  if status =? 204 then
    if negb (len (rs_body response) =? 0) then Err (UnexpectedContent endpoint)
    else
      let? headers := parse_headers response endpoint in
      Ok (mkApiResponse tt 204 headers)
  else if in_statuses 200 300 status then Err (ExpectedNoContent endpoint)
  else
    match decode_json Ok response endpoint with
    | Ok _ => Err (ExpectedNoContent endpoint)
    | Err error => Err error
    end.
End decoding.

(** [is_unauthorized] of client/refresh.rs. *)
Definition is_unauthorized (error : HttpError) : bool :=
  match error with
  | HttpApi e => bool_decide (http_status e = Some 401)
  | HttpStatus status _ => status =? 401
  | _ => false
  end.

(** ** Header grammar *)

(** The names and values a request can carry: a lower-case token, and a value with
    no control byte but the horizontal tab; so neither holds a CR or LF. *)
Definition header_name_ok (name : string) : Prop :=
  str_bytes name ≠ [] ∧
  Forall (λ b, is_http_token_byte b = true ∧ is_upper b = false) (str_bytes name).

Definition header_value_ok (value : string) : Prop :=
  Forall (λ b, (32 ≤ b ∨ b = 9) ∧ b ≠ 127) (str_bytes value).

Definition headers_ok (headers : gmap string string) : Prop :=
  map_Forall (λ name value, header_name_ok name ∧ header_value_ok value) headers.

Lemma existsb_false {A} (p : A → bool) l : existsb p l = false ↔ Forall (λ x, p x = false) l.
Proof.
  induction l as [|x l IH]; simpl; [by split|].
  rewrite orb_false_iff, IH, Forall_cons. done.
Qed.

Lemma forbidden_value_byte_spec b :
  is_forbidden_value_byte b = false ↔ (32 ≤ b ∨ b = 9) ∧ b ≠ 127.
Proof.
  unfold is_forbidden_value_byte.
  rewrite orb_false_iff, andb_false_iff, negb_false_iff, Z.ltb_ge, Z.eqb_eq, Z.eqb_neq. done.
Qed.

Lemma forbidden_value_spec value :
  existsb is_forbidden_value_byte (str_bytes value) = false ↔ header_value_ok value.
Proof. rewrite existsb_false. apply Forall_proper; [|done]. intros b. apply forbidden_value_byte_spec. Qed.

Lemma forallb_Forall {A} (p : A → bool) l : forallb p l = true ↔ Forall (λ x, p x = true) l.
Proof.
  induction l as [|x l IH]; simpl; [by split|].
  rewrite andb_true_iff, IH, Forall_cons. done.
Qed.

Lemma to_lower_range b : 0 ≤ b < 256 → 0 ≤ to_lower b < 256.
Proof. unfold to_lower, is_upper, in_range. intros. case_match; to_props; lia. Qed.

Lemma str_to_lowercase s : str_bytes (to_ascii_lowercase s) = to_lower <$> str_bytes s.
Proof.
  apply str_of_bytes. apply Forall_fmap.
  eapply Forall_impl; [apply str_bytes_ok|]. intros b. apply to_lower_range.
Qed.

Lemma str_is_empty_spec s : str_is_empty s = true ↔ str_bytes s = [].
Proof.
  unfold str_is_empty, str_len, len. rewrite Z.eqb_eq. split; [|by intros ->].
  destruct (str_bytes s); [done|]. simpl. lia.
Qed.

Lemma token_to_lower b :
  is_http_token_byte b = true → is_http_token_byte (to_lower b) = true ∧ is_upper (to_lower b) = false.
Proof.
  unfold to_lower. destruct (is_upper b) eqn:Hu; [|by intros]. intros _.
  unfold is_http_token_byte, is_alphanumeric, is_upper, is_lower, in_range in *. to_props.
  split; [|apply andb_false_iff; right; apply Z.leb_gt; lia].
  rewrite !orb_true_iff, !andb_true_iff, !Z.leb_le. left. left. right. lia.
Qed.

Lemma lowercase_name_ok name :
  str_bytes name ≠ [] → Forall (λ b, is_http_token_byte b = true) (str_bytes name) →
  header_name_ok (to_ascii_lowercase name).
Proof.
  intros Hne Hall. unfold header_name_ok. rewrite str_to_lowercase. split.
  - by intros ?%fmap_nil_inv.
  - apply Forall_fmap. eapply Forall_impl; [done|]. intros b. apply token_to_lower.
Qed.

Section header_lemmas.
Context `{UrlEdit}.

(** The two outcomes of [set_header]. *)
Lemma set_header_cases name value r :
  (str_bytes name ≠ [] ∧ Forall (λ b, is_http_token_byte b = true) (str_bytes name) ∧
   header_value_ok value ∧
   set_header name value r = (Ok tt, mkHttpRequest (rq_method r) (rq_url r)
     (<[to_ascii_lowercase name := value]> (rq_headers r)) (rq_body r))) ∨
  (¬ (str_bytes name ≠ [] ∧ Forall (λ b, is_http_token_byte b = true) (str_bytes name) ∧
      header_value_ok value) ∧
   set_header name value r = (Err (HttpInvalidHeader name), r)).
Proof.
  unfold set_header. rewrite <- forbidden_value_spec, <- forallb_Forall.
  destruct (str_is_empty name) eqn:He; simpl.
  - right. split; [|done]. apply str_is_empty_spec in He. naive_solver.
  - assert (str_bytes name ≠ []) as Hne by (intros ?%str_is_empty_spec; congruence).
    destruct (existsb _ _), (forallb _ _); simpl; naive_solver.
Qed.

(** What every request operation keeps. *)
Definition keeps_headers {A} (op : se HttpRequest HttpError A) : Prop :=
  ∀ r, headers_ok (rq_headers r) → headers_ok (rq_headers (op r).2).

Lemma set_header_keeps name value : keeps_headers (set_header name value).
Proof.
  intros r Hr. destruct (set_header_cases name value r) as [(Hne & Ht & Hv & ->)|[_ ->]]; simpl; [|done].
  apply map_Forall_insert_2; [|done]. split; [by apply lowercase_name_ok|done].
Qed.

Lemma bind_keeps {A B} (m : se HttpRequest HttpError A) (k : A → se HttpRequest HttpError B) :
  keeps_headers m → (∀ a, keeps_headers (k a)) → keeps_headers (se_bind m k).
Proof.
  intros Hm Hk r Hr. specialize (Hm r Hr). unfold se_bind.
  destruct (m r) as [[a|e] r']; simpl in *; [by apply Hk|done].
Qed.

Lemma set_optional_keeps name value : keeps_headers (set_optional name value).
Proof. destruct value; [apply set_header_keeps|]. by intros r Hr. Qed.

Lemma set_json_keeps body : keeps_headers (set_json body).
Proof.
  apply bind_keeps; [by intros r Hr|]. intros b. apply bind_keeps; [by intros r Hr|].
  intros _. apply set_header_keeps.
Qed.

Lemma apply_keeps o : keeps_headers (apply o).
Proof.
  repeat (apply bind_keeps; [apply set_optional_keeps|intros _]). apply set_optional_keeps.
Qed.

(** A header set by [set_optional], and every other one. *)
Lemma set_optional_lookup name value other r r' :
  set_optional name value r = (Ok tt, r') →
  request_header other r' =
    if bool_decide (to_ascii_lowercase other = to_ascii_lowercase name)
    then match value with Some v => Some v | None => request_header other r end
    else request_header other r.
Proof.
  destruct value as [v|]; [|intros [= <-]; by case_bool_decide]. simpl. intros Hs. unfold request_header.
  destruct (set_header_cases name v r) as [(_ & _ & _ & Heq)|[_ Heq]]; rewrite Heq in Hs;
    simplify_eq/=. case_bool_decide as Hn.
  - rewrite Hn. apply lookup_insert_eq.
  - apply lookup_insert_ne. congruence.
Qed.

(** Setting a header whose name is a token fails exactly on a bad value. *)
Lemma set_optional_total name value r :
  str_bytes name ≠ [] → Forall (λ b, is_http_token_byte b = true) (str_bytes name) →
  (∃ r', set_optional name value r = (Ok tt, r')) ∨
  (∃ v, value = Some v ∧ ¬ header_value_ok v ∧
        set_optional name value r = (Err (HttpInvalidHeader name), r)).
Proof.
  intros Hne Ht. destruct value as [v|]; simpl; [|by left; eexists].
  destruct (set_header_cases name v r) as [(_ & _ & _ & Heq)|[Hn Heq]].
  - left. by eexists.
  - right. exists v. split; [done|]. split; [|done]. naive_solver.
Qed.
End header_lemmas.

(** The four names [apply] uses are tokens. *)
Lemma option_names_ok name :
  name ∈ [IDEMPOTENCY_KEY; IF_MATCH; PARENT_IF_MATCH; CONTROL_CONNECTION] →
  str_bytes name ≠ [] ∧ Forall (λ b, is_http_token_byte b = true) (str_bytes name).
Proof.
  rewrite !elem_of_cons, elem_of_nil.
  intros [->|[->|[->|[->|[]]]]]; (split; [by vm_compute|]; apply forallb_Forall; by vm_compute).
Qed.

(** What the constructors of the types establish. *)
Definition options_ok (o : RequestOptions) : Prop :=
  (∀ key, opt_idempotency_key o = Some key → IdempotencyKey.ok key) ∧
  (∀ id, opt_control_connection o = Some id → bytes_ok id).

Lemma idempotency_key_value_ok key : IdempotencyKey.ok key → header_value_ok key.
Proof.
  intros [_ Hall]. eapply Forall_impl; [exact Hall|]. intros b Hb. simpl in *.
  unfold is_base64url, is_alphanumeric, is_upper, is_lower, is_digit, in_range in Hb.
  rewrite !orb_true_iff, !andb_true_iff, !Z.leb_le, !Z.eqb_eq in Hb. lia.
Qed.

Lemma connection_value_ok id : bytes_ok id → header_value_ok (FixedId.to_hex id).
Proof.
  intros Hid. unfold header_value_ok. rewrite fixed_to_hex_bytes by done.
  eapply Forall_impl; [by apply encode_hex_bytes|]. intros b Hb. simpl. unfold hex_byte in Hb. lia.
Qed.

(** ** Idempotency keys *)

Definition key_bytes (now counter : Z) : byte_list :=
  str_bytes "sdk-" ++ pad_hex 16 now ++ str_bytes "-" ++ hex16 counter.

Lemma key_bytes_alphabet now counter : 0 ≤ now →
  Forall (λ b, 0 ≤ b < 256 ∧ is_base64url b = true) (key_bytes now counter).
Proof.
  intros Hn. unfold key_bytes.
  assert (∀ l, Forall hex_byte l → Forall (λ b, 0 ≤ b < 256 ∧ is_base64url b = true) l) as Hhex.
  { intros l Hl. eapply Forall_impl; [exact Hl|]. intros b Hb. unfold hex_byte in Hb.
    split; [lia|]. unfold is_base64url, is_alphanumeric, is_upper, is_lower, is_digit, in_range.
    rewrite !orb_true_iff, !andb_true_iff, !Z.leb_le, !Z.eqb_eq. lia. }
  rewrite !Forall_app. split_and!.
  - change (str_bytes "sdk-") with [115; 100; 107; 45].
    repeat (constructor; [split; [lia|reflexivity]|]). constructor.
  - apply Hhex. by apply pad_hex_bytes.
  - change (str_bytes "-") with [45]. repeat constructor; lia.
  - apply Hhex, hex16_bytes.
Qed.

Lemma key_bytes_text now counter : 0 ≤ now →
  str_bytes (of_bytes (key_bytes now counter)) = key_bytes now counter.
Proof.
  intros Hn. apply str_of_bytes. eapply Forall_impl; [by apply key_bytes_alphabet|]. by intros b [? _].
Qed.

Lemma length_key_bytes now counter :
  (37 ≤ length (key_bytes now counter) ≤ 53)%nat.
Proof.
  unfold key_bytes, pad_hex. rewrite !length_app, length_replicate, length_hex16.
  pose proof (length_hex_of 32 now).
  change (length (str_bytes "sdk-")) with 4%nat. change (length (str_bytes "-")) with 1%nat. lia.
Qed.

Lemma generated_key_ok now counter : 0 ≤ now →
  IdempotencyKey.ok (of_bytes (key_bytes now counter)).
Proof.
  intros Hn. unfold IdempotencyKey.ok, str_len, len. rewrite key_bytes_text by done.
  pose proof (length_key_bytes now counter). split; [lia|].
  eapply Forall_impl; [by apply key_bytes_alphabet|]. by intros b [_ ?].
Qed.

Lemma generate_ok now counter : 0 ≤ now →
  generate_idempotency_key now counter
  = Some (of_bytes (key_bytes now counter), (counter + 1) mod 2 ^ 64).
Proof.
  intros Hn. unfold generate_idempotency_key.
  pose proof (generated_key_ok now counter Hn) as Hk. unfold key_bytes in *.
  by rewrite (proj2 (idempotency_key_new_ok _ _) (conj eq_refl Hk)).
Qed.

Lemma key_bytes_inj n1 c1 n2 c2 :
  is_u64 c1 → is_u64 c2 → key_bytes n1 c1 = key_bytes n2 c2 → c1 = c2.
Proof.
  intros H1 H2. unfold key_bytes. rewrite !app_assoc.
  intros [_ Heq]%app_inj_2; [|by rewrite !length_hex16]. by apply hex16_inj.
Qed.

(** ** Theorems *)

(** No header injection. Whatever names, values, options and bodies an
    application supplies, and whether the operations succeed or fail, the headers of
    a request are lower-case tokens with values free of CR, LF and other control
    bytes. [set_header] refuses exactly what violates the grammar and then changes
    nothing; otherwise the header is set, under any capitalization of its name, and
    no other header changes. *)
Theorem request_headers_safe `{UrlEdit} (r : HttpRequest) (name value : string)
    (body : result string byte_list) (o : RequestOptions) :
  headers_ok (rq_headers r) →
  headers_ok (rq_headers (set_header name value r).2) ∧
  headers_ok (rq_headers (set_json body r).2) ∧
  headers_ok (rq_headers (apply o r).2) ∧
  match set_header name value r with
  | (Ok _, r') =>
      header_name_ok (to_ascii_lowercase name) ∧ header_value_ok value ∧
      request_header name r' = Some value ∧
      (∀ other, to_ascii_lowercase other ≠ to_ascii_lowercase name →
         request_header other r' = request_header other r) ∧
      rq_body r' = rq_body r ∧ rq_url r' = rq_url r
  | (Err e, r') =>
      r' = r ∧ e = HttpInvalidHeader name ∧
      ¬ (str_bytes name ≠ [] ∧ Forall (λ b, is_http_token_byte b = true) (str_bytes name) ∧
         header_value_ok value)
  end.
Proof.
  intros Hr. split_and!; [by apply set_header_keeps|by apply set_json_keeps|by apply apply_keeps|].
  pose proof (set_optional_lookup name (Some value)) as Hlook. simpl in Hlook.
  destruct (set_header_cases name value r) as [(Hne & Ht & Hv & Heq)|[Hn Heq]]; rewrite Heq; [|done].
  split; [by apply lowercase_name_ok|]. split; [done|].
  split; [rewrite (Hlook _ _ _ Heq); by rewrite bool_decide_eq_true_2|].
  split; [intros other Ho; rewrite (Hlook _ _ _ Heq); by rewrite bool_decide_eq_false_2|done].
Qed.

(** What [apply] sends. *)
Lemma apply_sends `{UrlEdit} (o : RequestOptions) (r : HttpRequest) :
  options_ok o →
  match apply o r with
  | (Ok _, r') =>
      let sent name value := request_header name r' =
        match value with Some v => Some v | None => request_header name r end in
      sent IDEMPOTENCY_KEY (opt_idempotency_key o) ∧ sent IF_MATCH (opt_if_match o) ∧
      sent PARENT_IF_MATCH (opt_parent_if_match o) ∧
      sent CONTROL_CONNECTION (FixedId.to_hex <$> opt_control_connection o) ∧
      (∀ other, Forall (λ name, to_ascii_lowercase other ≠ to_ascii_lowercase name)
         [IDEMPOTENCY_KEY; IF_MATCH; PARENT_IF_MATCH; CONTROL_CONNECTION] → sent other None)
  | (Err e, _) =>
      (e = HttpInvalidHeader IF_MATCH ∧ ∃ etag, opt_if_match o = Some etag ∧ ¬ header_value_ok etag) ∨
      (e = HttpInvalidHeader PARENT_IF_MATCH ∧
       ∃ etag, opt_parent_if_match o = Some etag ∧ ¬ header_value_ok etag)
  end.
Proof.
  intros [Hkey Hid]. unfold apply, se_bind.
  assert (∀ name value s, name ∈ [IDEMPOTENCY_KEY; IF_MATCH; PARENT_IF_MATCH; CONTROL_CONNECTION] →
    (∃ s', set_optional name value s = (Ok tt, s')) ∨
    (∃ v, value = Some v ∧ ¬ header_value_ok v ∧
       set_optional name value s = (Err (HttpInvalidHeader name), s))) as Htotal.
  { intros name value s [Hne Ht]%option_names_ok. by apply set_optional_total. }
  destruct (Htotal IDEMPOTENCY_KEY (opt_idempotency_key o) r) as [[r1 H1]|(v & Hv & Hbad & _)];
    [set_solver| |by destruct Hbad; apply idempotency_key_value_ok, Hkey].
  rewrite H1.
  destruct (Htotal IF_MATCH (opt_if_match o) r1) as [[r2 H2]|(v & Hv & Hbad & ->)];
    [set_solver| |left; eauto].
  rewrite H2.
  destruct (Htotal PARENT_IF_MATCH (opt_parent_if_match o) r2) as [[r3 H3]|(v & Hv & Hbad & ->)];
    [set_solver| |right; eauto].
  rewrite H3.
  destruct (Htotal CONTROL_CONNECTION (FixedId.to_hex <$> opt_control_connection o) r3)
    as [[r4 H4]|(v & (id & Ho & ->)%fmap_Some & Hbad & _)];
    [set_solver| |by destruct Hbad; apply connection_value_ok, Hid].
  rewrite H4. simpl.
  split_and!; [..|intros other; rewrite !Forall_cons; intros (? & ? & ? & ? & _)];
    rewrite (set_optional_lookup _ _ _ _ _ H4), (set_optional_lookup _ _ _ _ _ H3),
      (set_optional_lookup _ _ _ _ _ H2), (set_optional_lookup _ _ _ _ _ H1).
  all: by rewrite ?(bool_decide_eq_true_2 (_ = _)), ?(bool_decide_eq_false_2 (_ = _)) by
    (done || by vm_compute).
Qed.

(** The options of a mutation reach the server. [apply] fails only when a
    caller's ETag holds a control byte, and names that header; otherwise every option
    that is set is sent in its own header, the others and all unrelated headers are
    as before. *)
Theorem request_options_applied `{UrlEdit} (o : RequestOptions) (r : HttpRequest) :
  options_ok o →
  match apply o r with
  | (Ok _, r') =>
      let sent name value := request_header name r' =
        match value with Some v => Some v | None => request_header name r end in
      sent IDEMPOTENCY_KEY (opt_idempotency_key o) ∧ sent IF_MATCH (opt_if_match o) ∧
      sent PARENT_IF_MATCH (opt_parent_if_match o) ∧
      sent CONTROL_CONNECTION (FixedId.to_hex <$> opt_control_connection o) ∧
      (∀ other, Forall (λ name, to_ascii_lowercase other ≠ to_ascii_lowercase name)
         [IDEMPOTENCY_KEY; IF_MATCH; PARENT_IF_MATCH; CONTROL_CONNECTION] → sent other None)
  | (Err e, _) =>
      (e = HttpInvalidHeader IF_MATCH ∧ ∃ etag, opt_if_match o = Some etag ∧ ¬ header_value_ok etag) ∨
      (e = HttpInvalidHeader PARENT_IF_MATCH ∧
       ∃ etag, opt_parent_if_match o = Some etag ∧ ¬ header_value_ok etag)
  end.
Proof. apply apply_sends. Qed.

(** The generated retry identity. It always satisfies the wire grammar, so the
    [expect] of its construction never panics and the header it is sent in is never
    refused; two keys of one process are equal only when their counters are, which
    the wrapping counter repeats only after 2^64 keys. *)
Theorem generated_idempotency_key_valid (now counter now' counter' : Z) :
  0 ≤ now → 0 ≤ now' → is_u64 counter → is_u64 counter' →
  ∃ key key',
    generate_idempotency_key now counter = Some (key, (counter + 1) mod 2 ^ 64) ∧
    generate_idempotency_key now' counter' = Some (key', (counter' + 1) mod 2 ^ 64) ∧
    IdempotencyKey.ok key ∧ header_value_ok key ∧ (key = key' → counter = counter').
Proof.
  intros Hn Hn' Hc Hc'.
  exists (of_bytes (key_bytes now counter)), (of_bytes (key_bytes now' counter')).
  rewrite !generate_ok by done. pose proof (generated_key_ok now counter Hn) as Hk.
  split_and!; [done|done|done|by apply idempotency_key_value_ok|].
  intros Heq. apply (f_equal str_bytes) in Heq. rewrite !key_bytes_text in Heq by done.
  by eapply key_bytes_inj.
Qed.

Lemma generated_idempotency_key_valid_witness :
  ∃ key key', generate_idempotency_key 1700000000000000000 1 = Some (key, 2) ∧
    generate_idempotency_key 1700000000000000000 u64_max = Some (key', 0) ∧
    IdempotencyKey.ok key ∧ header_value_ok key ∧ (key = key' → 1 = u64_max).
Proof.
  apply (generated_idempotency_key_valid 1700000000000000000 1 1700000000000000000 u64_max);
    unfold is_u64, u64_max; lia.
Defined.

(** Debug output holds no secrets. Two requests that differ only in the values of
    sensitive headers and in the contents of their bodies print the same; so an
    access token, which is only ever sent in the Authorization header, cannot be
    recovered from the log of a request. *)
Theorem debug_hides_secrets `{UrlEdit} (r1 r2 : HttpRequest) :
  rq_method r1 = rq_method r2 → rq_url r1 = rq_url r2 →
  (len <$> rq_body r1) = (len <$> rq_body r2) →
  (∀ name, is_sensitive_header name = false → rq_headers r1 !! name = rq_headers r2 !! name) →
  (∀ name, is_Some (rq_headers r1 !! name) ↔ is_Some (rq_headers r2 !! name)) →
  request_debug r1 = request_debug r2 ∧
  ∀ value r', set_header AUTHORIZATION value r1 = (Ok tt, r') →
    (request_debug r').1.2 !! "authorization"%string = Some "<redacted>"%string.
Proof.
  intros Hm Hu Hb Hpub Hdom. split.
  - unfold request_debug. rewrite Hm, Hu, Hb. do 2 f_equal. apply map_eq. intros name.
    unfold redacted_headers. rewrite !map_lookup_imap.
    destruct (is_sensitive_header name) eqn:Hs; [|by rewrite Hpub].
    specialize (Hdom name). destruct (rq_headers r1 !! name) as [v1|] eqn:H1,
      (rq_headers r2 !! name) as [v2|] eqn:H2; simpl; rewrite ?Hs; try done.
    + by destruct (proj1 Hdom (ex_intro _ v1 eq_refl)).
    + by destruct (proj2 Hdom (ex_intro _ v2 eq_refl)).
  - intros value r' Hset.
    destruct (set_header_cases AUTHORIZATION value r1) as [(_ & _ & _ & Heq)|[_ Heq]];
      rewrite Heq in Hset; simplify_eq/=.
    unfold redacted_headers. rewrite map_lookup_imap.
    replace (to_ascii_lowercase AUTHORIZATION) with "authorization"%string by (vm_compute; reflexivity).
    by rewrite lookup_insert_eq.
Qed.

Lemma str_is_empty_eq s : str_is_empty s = true → s = ""%string.
Proof. intros H%str_is_empty_spec. by rewrite <- (of_str_bytes s), H. Qed.

(** The envelope of a response, by its code. *)
Lemma into_typed_cases {V} `{JsonValue V} {T} (from_value : V → result string T)
    (e : ApiEnvelope V) :
  match Envelope.into_typed from_value e with
  | Ok d => ∃ v, e = Envelope.success v ∧ from_value v = Ok d
  | Err (Api api) => code e ≠ 0 ∧ ApiError_code api = code e
  | Err _ => code e = 0
  end.
Proof.
  destruct e as [c m d]. unfold Envelope.into_typed, Envelope.into_result, Envelope.success. simpl.
  destruct (Z.eqb_spec c 0) as [->|Hc]; simpl.
  - destruct (str_is_empty m) eqn:Hm; simpl; [|done]. apply str_is_empty_eq in Hm as ->.
    destruct d as [v|]; simpl; [|done]. destruct (from_value v) eqn:Hv; simpl; [by exists v|done].
  - by destruct d.
Qed.

Lemma in_statuses_spec lo hi s : in_statuses lo hi s = true ↔ lo ≤ s < hi.
Proof. unfold in_statuses. rewrite andb_true_iff, Z.leb_le, Z.ltb_lt. done. Qed.

(** An API error is reported with its context. *)
Lemma map_api_error api status ep :
  let error := map_envelope_error (Api api) status ep in
  (is_unauthorized error = true ↔ status = 401) ∧
  match error with
  | HttpApi a | PreconditionFailed a =>
      http_status a = Some status ∧ ep = default "" (endpoint a) ∧
      (retryable a = true ↔ status = 429 ∨ 500 ≤ status < 600) ∧
      ApiError_code a = ApiError_code api ∧ (status = 412 ↔ error = PreconditionFailed a)
  | _ => False
  end.
Proof.
  unfold map_envelope_error. cbv zeta.
  assert ((status =? 429) || in_statuses 500 600 status = true ↔
            status = 429 ∨ 500 ≤ status < 600) as Hretry
    by (by rewrite orb_true_iff, Z.eqb_eq, in_statuses_spec).
  destruct (Z.eqb_spec status 412) as [->|Hs]; simpl.
  - split; [done|]. by split_and!.
  - split; [rewrite bool_decide_eq_true; naive_solver|]. by split_and!.
Qed.

Lemma decode_no_content_ok {V} `{JsonValue V, BodyDecoder V} (response : HttpResponse) (ep : string) :
  is_ok (decode_no_content response ep) = true ↔
    rs_status response = 204 ∧ rs_body response = [] ∧
    is_ok (parse_headers response ep) = true.
Proof.
  unfold decode_no_content. destruct (Z.eqb_spec (rs_status response) 204) as [Hs|Hs].
  - destruct (rs_body response) as [|b l]; simpl.
    + destruct (parse_headers response ep); simpl; naive_solver.
    + unfold len. simpl. naive_solver.
  - destruct (in_statuses _ _ _); [naive_solver|]. destruct (decode_json _ _ _); naive_solver.
Qed.

Lemma transpose_err {E F A} (f : E → F) (p : string → result E A) (o : option string) e :
  transpose ((λ v, map_err f (p v)) <$> o) = Err e → ∃ x, e = f x.
Proof. destruct o as [v|]; simpl; [|done]. destruct (p v); simpl; intros; simplify_eq. eauto. Qed.

(** Malformed state headers are header errors. *)
Lemma parse_headers_error response ep e :
  parse_headers response ep = Err e → ∃ text, e = HttpInvalidHeader text.
Proof.
  unfold parse_headers. intros Herr.
  repeat match type of Herr with
  | result_bind ?r _ = _ => destruct r eqn:Hr; simpl in Herr; [clear Hr|]
  end; simplify_eq.
  1: unfold parse_sync_required, invalid_response_header in Hr; repeat case_match; simplify_eq; eauto.
  all: apply transpose_err in Hr as [x ->]; unfold invalid_response_header; eauto.
Qed.

(** What a JSON response means. Data is returned exactly for a 2xx status other
    than 204 with well-formed state headers and a success envelope whose data
    decodes; a non-zero envelope code becomes an API error that carries the status,
    the endpoint and whether a retry is safe (429 and 5xx), [PreconditionFailed]
    exactly for 412; the session counts as rejected exactly when a 401 carries
    well-formed headers and an envelope. An endpoint without content accepts only an
    empty 204. *)
Theorem decode_json_outcomes {V} `{JsonValue V, BodyDecoder V} {T}
    (from_value : V → result string T) (response : HttpResponse) (endpoint : string) :
  let status := rs_status response in
  match decode_json from_value response endpoint with
  | Ok r =>
      200 ≤ status < 300 ∧ status ≠ 204 ∧ resp_status r = status ∧
      parse_headers response endpoint = Ok (resp_headers r) ∧
      ∃ v, envelope_from_slice (rs_body response) = Ok (Envelope.success v) ∧
           from_value v = Ok (resp_data r)
  | Err error =>
      (is_unauthorized error = true ↔
         status = 401 ∧ is_ok (parse_headers response endpoint) = true ∧
         is_ok (envelope_from_slice (V:=V) (rs_body response)) = true) ∧
      match error with
      | HttpApi api | PreconditionFailed api =>
          http_status api = Some status ∧ endpoint = default "" (Wire.endpoint api) ∧
          (retryable api = true ↔ status = 429 ∨ 500 ≤ status < 600) ∧
          (∃ envelope, envelope_from_slice (V:=V) (rs_body response) = Ok envelope ∧
             code envelope ≠ 0 ∧ ApiError_code api = code envelope) ∧
          (status = 412 ↔ error = PreconditionFailed api)
      | HttpStatus s e => s = status ∧ ¬ 200 ≤ status < 300 ∧ e = endpoint
      | _ => True
      end
  end ∧
  (is_ok (decode_no_content response endpoint) = true ↔
     status = 204 ∧ rs_body response = [] ∧ is_ok (parse_headers response endpoint) = true).
Proof.
  intros status. split; [|by apply decode_no_content_ok].
  unfold decode_json. fold status.
  destruct (Z.eqb_spec status 204) as [Hs|Hs]; [simpl; rewrite Hs; naive_solver|].
  destruct (parse_headers response endpoint) as [headers|e] eqn:Hh; simpl.
  2: { split; [|by apply parse_headers_error in Hh as [text ->]].
       apply parse_headers_error in Hh as [text ->]. naive_solver. }
  destruct (envelope_from_slice (rs_body response)) as [env|e] eqn:He; simpl; [|naive_solver].
  pose proof (into_typed_cases from_value env) as Hcases.
  destruct (in_statuses 200 300 status) eqn:H2xx; simpl.
  - apply in_statuses_spec in H2xx.
    destruct (Envelope.into_typed from_value env) as [d|[api| | | |]].
    + destruct Hcases as (v & -> & Hv). eauto 10.
    + destruct Hcases as [Hc Hcode]. pose proof (map_api_error api status endpoint) as Hmap.
      destruct Hmap as [Hun Hmap]. split; [rewrite Hun; naive_solver|].
      destruct (map_envelope_error _ _ _); try done; destruct Hmap as (? & ? & ? & Hapi & ?);
        rewrite Hcode in Hapi; split_and!; try done; by exists env.
    + split; [|done]. split; [done|]. lia.
    + split; [|done]. split; [done|]. lia.
    + split; [|done]. split; [done|]. lia.
    + split; [|done]. split; [done|]. lia.
  - assert (¬ 200 ≤ status < 300) as Hn by (rewrite <- in_statuses_spec; congruence).
    destruct (Z.eqb_spec (code env) 0) as [Hc|Hc].
    + split; [|done]. simpl. rewrite Z.eqb_eq. naive_solver.
    + destruct (Envelope.into_typed from_value env) as [d|[api| | | |]];
        [by destruct Hcases as (v & -> & _)| |done..].
      destruct Hcases as [_ Hcode]. pose proof (map_api_error api status endpoint) as Hmap.
      destruct Hmap as [Hun Hmap]. split; [rewrite Hun; naive_solver|].
      destruct (map_envelope_error _ _ _); try done; destruct Hmap as (? & ? & ? & Hapi & ?);
        rewrite Hcode in Hapi; split_and!; try done; by exists env.
Qed.

(** A URL is its text, for the witnesses. *)
Module ToyUrl.
#[export] Instance lib : UrlLib := {|
  Url := string;
  url_parse s := Ok s;
  url_scheme _ := "http"%string;
  url_username _ := ""%string;
  url_password _ := None;
  url_fragment _ := None;
  url_path u := u;
  url_port _ := Some 7788;
  url_host_str _ := Some "example.org"%string;
  url_query_pairs _ := [];
  url_query _ := None;
  url_port_or_known_default _ := Some 7788;
  url_as_str u := u;
  form_urlencode pairs := String.concat "&" ((λ p, (p.1 +:+ "=" +:+ p.2)%string) <$> pairs);
|}.

#[export] Instance edit : UrlEdit := {|
  url_join base path := Ok ((base : string) +:+ path)%string;
  url_set_username _ u := u;
  url_set_password _ u := u;
|}.
End ToyUrl.

#[local] Existing Instance ToyUrl.lib.
#[local] Existing Instance ToyUrl.edit.

Definition toy_request (token : string) : HttpRequest :=
  mkHttpRequest Get "users"%string {["authorization"%string := token]} (Some [1; 2]).

Definition toy_options : RequestOptions :=
  with_idempotency_key "sdk-0000000000000001" (with_if_match "e1" options_new).

Lemma toy_request_ok token :
  header_value_ok token → headers_ok (rq_headers (toy_request token)).
Proof.
  intros Ht. apply map_Forall_singleton. split; [|done]. split; [by vm_compute|].
  apply Forall_and. split; [apply forallb_Forall|apply existsb_false]; vm_compute; reflexivity.
Qed.

Lemma request_headers_safe_witness :
  headers_ok (rq_headers (H:=ToyUrl.lib)
    (set_header "X-Y" (of_bytes [97; 13; 10]) (toy_request "Bearer t")).2).
Proof.
  apply (request_headers_safe (toy_request "Bearer t") "X-Y"
           (of_bytes [97; 13; 10]) (Err ""%string) toy_options).
  apply toy_request_ok. apply forbidden_value_spec. vm_compute. reflexivity.
Defined.

Lemma request_options_applied_witness :
  ∃ r', apply toy_options (toy_request "Bearer t") = (Ok tt, r') ∧
    request_header IF_MATCH r' = Some "e1"%string.
Proof.
  pose proof (request_options_applied toy_options (toy_request "Bearer t")) as Hs.
  assert (options_ok toy_options) as Hok.
  { split; [|done]. intros key [= <-].
    apply (proj1 (idempotency_key_new_ok _ "sdk-0000000000000001")). vm_compute. reflexivity. }
  specialize (Hs Hok).
  assert (∃ r', apply toy_options (toy_request "Bearer t") = (Ok tt, r')) as [r' Hr].
  { eexists. vm_compute. reflexivity. }
  rewrite Hr in Hs. exists r'. split; [exact Hr|]. apply Hs.
Defined.

Lemma debug_hides_secrets_witness :
  request_debug (toy_request "Bearer one") = request_debug (toy_request "Bearer two").
Proof.
  apply (debug_hides_secrets (toy_request "Bearer one") (toy_request "Bearer two"));
    try reflexivity.
  - intros name Hs. simpl. rewrite !lookup_singleton_ne; [done| |]; intros <-; vm_compute in Hs; discriminate.
  - intros name. simpl. destruct (decide (name = "authorization"%string)) as [->|Hne].
    + rewrite !lookup_singleton_eq. split; eauto.
    + rewrite !lookup_singleton_ne by congruence. done.
Defined.
