(* ===== verification/HttpClient.v ===== *)
(** The HTTP client core (crates/zephyrvox-http/src: credentials.rs, client.rs and
    client/refresh.rs): credentials, the authenticated request with its one retry, and
    the refresh singleflight.

    A section of the credential gate that runs to its end is one transition of the
    client's credential state: nobody else sees what is between. A section may also be
    dropped after the store operation and before the active pair is written; what it leaves
    then is [torn_save], [torn_clear], [torn_load] and, for the sections of a refresh,
    [torn_commit]. Requests and refreshes are processes over the state, the refresh gate
    and the flights; each section, atomic access and completed await is one step, and a
    process may be dropped at every await. *)

From S2P Require Import Prelude Text Types Json Wire HttpTypes.

(** ** credentials.rs *)

Record TokenPair := mkTokenPair {
  access_token : string;
  refresh_token : string;
  expires_in : Z;
}.

#[global] Instance TokenPair_eq_dec : EqDecision TokenPair.
Proof. solve_decision. Defined.

(** [AccessToken::new] and [RefreshToken::new]. *)
Definition token_new (value : string) : result CredentialStoreError string :=
  if str_is_empty value then Err InvalidTokenPair else Ok value.

(** A [Duration] is its number of seconds here. *)
Definition token_pair_new (access refresh : string) (lifetime : Z)
    : result CredentialStoreError TokenPair :=
  if lifetime =? 0 then Err InvalidTokenPair else Ok (mkTokenPair access refresh lifetime).

Definition from_expires_in (access refresh : string) (lifetime : Z)
    : result CredentialStoreError TokenPair :=
  if lifetime <=? 0 then Err InvalidTokenPair
  else
    let? access := token_new access in
    let? refresh := token_new refresh in
    token_pair_new access refresh lifetime.

(** The [CredentialStore] trait over the state of a store. *)
Class CredentialStore (S : Type) := {
  store_load : se S CredentialStoreError (option TokenPair);
  store_save : TokenPair → se S CredentialStoreError unit;
  store_clear : se S CredentialStoreError unit;
}.

(** [MemoryCredentialStore]. *)
#[export] Instance MemoryCredentialStore : CredentialStore (option TokenPair) := {|
  store_load := λ tokens, (Ok tokens, tokens);
  store_save tokens := λ _, (Ok tt, Some tokens);
  store_clear := λ _, (Ok tt, None);
|}.

(** What the trait documents: an operation that succeeds has happened, and one that
    fails has not changed what is stored. *)
Record StoreLaws (S : Type) `{CredentialStore S} := {
  stored : S → option TokenPair;
  load_law s : match store_load s with
               | (Ok tokens, s') => tokens = stored s ∧ stored s' = stored s
               | (Err _, s') => stored s' = stored s
               end;
  save_law tokens s : match store_save tokens s with
                      | (Ok _, s') => stored s' = Some tokens
                      | (Err _, s') => stored s' = stored s
                      end;
  clear_law s : match store_clear s with
                | (Ok _, s') => stored s' = None
                | (Err _, s') => stored s' = stored s
                end;
}.
Arguments stored {S _} _ _.

(** ** client.rs *)

Section credentials.
Context {S : Type} `{CredentialStore S}.

(** The credential state of an [ApiClient], which its clones share. *)
Record Client := mkClient {
  credential_store : S;
  token_state : option TokenPair;
  credentials_loaded : bool;
}.

Definition client_new (store : S) : Client := mkClient store None false.

(** [self.credential_store.operation().await?] under the gate. *)
Definition on_store {A} (op : se S CredentialStoreError A) : se Client HttpError A := λ c,
  match op (credential_store c) with
  | (Ok a, s) => (Ok a, mkClient s (token_state c) (credentials_loaded c))
  | (Err e, s) => (Err (HttpCredential e), mkClient s (token_state c) (credentials_loaded c))
  end.

(** [*self.token_state.write().await = tokens; self.credentials_loaded.set(())]. *)
Definition activate (tokens : option TokenPair) : se Client HttpError unit :=
  se_modify (λ c, mkClient (credential_store c) tokens true).

Definition load_credentials : se Client HttpError (option TokenPair) := λ c,
  (let! _ := (if credentials_loaded c then se_ret tt
              else let! tokens := on_store store_load in activate tokens) in
   se_get token_state) c.

Definition set_tokens (tokens : TokenPair) : se Client HttpError unit :=
  let! _ := on_store (store_save tokens) in
  activate (Some tokens).

Definition clear_tokens : se Client HttpError unit :=
  let! _ := on_store store_clear in
  activate None.

(** *** Sections that are dropped half-way

    The store operation has been performed, or was under way; the active pair has not been
    written. *)

Definition torn_save (tokens : TokenPair) (c : Client) : Client :=
  mkClient (store_save tokens (credential_store c)).2 (token_state c) (credentials_loaded c).

Definition torn_clear (c : Client) : Client :=
  mkClient (store_clear (credential_store c)).2 (token_state c) (credentials_loaded c).

Definition torn_load (c : Client) : Client :=
  if credentials_loaded c then c
  else mkClient (store_load (credential_store c)).2 (token_state c) (credentials_loaded c).

(** ** client/refresh.rs: the sections of a refresh *)

Definition superseded_or_error (expected : TokenPair) (error : HttpError)
    : se Client HttpError TokenPair := λ c,
  match token_state c with
  | Some tokens => if bool_decide (tokens ≠ expected) then (Ok tokens, c) else (Err error, c)
  | None => (Err error, c)
  end.

Definition expire_if_current (expected : TokenPair) : se Client HttpError (option TokenPair) := λ c,
  let active := token_state c in
  if bool_decide (active ≠ Some expected) then (Ok active, c)
  else (let! _ := clear_tokens in se_ret None) c.

Definition replace_if_current (expected replacement : TokenPair)
    : se Client HttpError TokenPair := λ c,
  let active := token_state c in
  if bool_decide (active ≠ Some expected) then (ok_or HttpAuthenticationRequired active, c)
  else (let! _ := set_tokens replacement in se_ret replacement) c.
End credentials.

Arguments Client S : clear implicits.
Arguments mkClient {S} _ _ _.

(** [serde] at the types of refresh.rs. *)
Record RefreshResponse := mkRefreshResponse {
  rr_access_token : string;
  rr_refresh_token : string;
  rr_expires_in : Z;
}.

Class AuthCodec (V : Type) := {
  refresh_response_from : V → result string RefreshResponse;
  refresh_request_to_vec : string → result string byte_list;
}.

(** [path.trim_start_matches('/')]. *)
Fixpoint trim_slashes (l : byte_list) : byte_list :=
  match l with
  | b :: rest => if b =? 47 then trim_slashes rest else l
  | [] => []
  end.

Section requests.
Context `{UrlEdit}.

Definition control_base_url (card : ServerCard) : result HttpError Url :=
  let scheme := if is_tls (scheme card) then "https"%string else "http"%string in
  map_err HttpInvalidUrl
    (url_parse (scheme +:+ "://" +:+ Card.bracketed (host card) +:+ ":" +:+ display_u64 (port card)
                +:+ "/api/v0/")).

Definition endpoint_url (base : Url) (path : string) : result HttpError Url :=
  map_err HttpInvalidUrl (url_join base (of_bytes (trim_slashes (str_bytes path)))).

(** A request that is built by transitions: the request, or the first error. *)
Definition built (op : se HttpRequest HttpError unit) (request : HttpRequest)
    : result HttpError HttpRequest :=
  match op request with
  | (Ok _, request) => Ok request
  | (Err e, _) => Err e
  end.

Definition empty_request (base : Url) (method : HttpMethod) (path : string)
    (options : RequestOptions) : result HttpError HttpRequest :=
  let? url := endpoint_url base path in
  built (apply options) (request_new method url).

Definition json_request (base : Url) (method : HttpMethod) (path : string)
    (body : result string byte_list) (options : RequestOptions) : result HttpError HttpRequest :=
  let? url := endpoint_url base path in
  built (let! _ := set_json body in apply options) (request_new method url).

Definition bearer (token : string) : string := ("Bearer " +:+ token)%string.

Context {S : Type} `{CredentialStore S}.

(** The start of [send_request] and [with_access_token]: the request with the active
    access token, and that token. *)
Definition authorize (request : HttpRequest) : se (Client S) HttpError (HttpRequest * string) :=
  let! active := load_credentials in
  let! tokens := se_lift (ok_or HttpAuthenticationRequired active) in
  let! request := se_lift (built (set_header AUTHORIZATION (bearer (access_token tokens))) request) in
  se_ret (request, access_token tokens).

(** The check of [send_request] after a 401: is the rejected token still active? *)
Definition still_active (sent : string) : se (Client S) HttpError bool :=
  let! current := load_credentials in
  se_ret (bool_decide ((access_token <$> current) = Some sent)).

Context {V : Type} `{JsonValue V, BodyDecoder V, AuthCodec V}.

(** [refresh_once] up to its request. *)
Definition refresh_begin (base : Url) : se (Client S) HttpError (TokenPair * HttpRequest) :=
  let! active := load_credentials in
  let! current := se_lift (ok_or HttpAuthenticationRequired active) in
  let! request := se_lift (json_request base Post "auth/refresh"
                             (refresh_request_to_vec (refresh_token current)) options_new) in
  se_ret (current, request).

(** [refresh_once] once the transport has answered. *)
Definition refresh_commit (current : TokenPair) (response : result HttpError HttpResponse)
    : se (Client S) HttpError TokenPair :=
  match response with
  | Err error => superseded_or_error current error
  | Ok response =>
      match decode_json refresh_response_from response "/api/v0/auth/refresh" with
      | Err error =>
          if is_unauthorized error then
            let! active := expire_if_current current in
            match active with
            | Some tokens => se_ret tokens
            | None => se_raise HttpAuthExpired
            end
          else superseded_or_error current error
      | Ok decoded =>
          let d := resp_data decoded in
          match from_expires_in (rr_access_token d) (rr_refresh_token d) (rr_expires_in d) with
          | Err error => superseded_or_error current (HttpCredential error)
          | Ok tokens => replace_if_current current tokens
          end
      end
  end.

(** The commit dropped in [expire_if_current] or [replace_if_current], if it gets to their
    store operation. *)
Definition torn_commit (current : TokenPair) (response : result HttpError HttpResponse) (c : Client S)
    : option (Client S) :=
  if bool_decide (token_state c ≠ Some current) then None
  else
    match response with
    | Err _ => None
    | Ok response =>
        match decode_json refresh_response_from response "/api/v0/auth/refresh" with
        | Err error => if is_unauthorized error then Some (torn_clear c) else None
        | Ok decoded =>
            let d := resp_data decoded in
            match from_expires_in (rr_access_token d) (rr_refresh_token d) (rr_expires_in d) with
            | Err _ => None
            | Ok tokens => Some (torn_save tokens c)
            end
        end
    end.
End requests.

(** ** The outcomes of the sections *)

Section sections.
Context {S : Type} `{CredentialStore S} (L : StoreLaws S).
Implicit Types (c : Client S).

(** Once loaded, the active pair is what the store holds. *)
Definition consistent c : Prop :=
  credentials_loaded c = true → token_state c = stored L (credential_store c).

(** An operation that failed left the credentials as they were. *)
Definition unchanged c c' : Prop :=
  token_state c' = token_state c ∧ credentials_loaded c' = credentials_loaded c ∧
  stored L (credential_store c') = stored L (credential_store c).

Lemma unchanged_refl c : unchanged c c.
Proof. done. Qed.

Lemma unchanged_consistent c c' : unchanged c c' → consistent c → consistent c'.
Proof. unfold consistent. intros (-> & -> & ->). done. Qed.

Lemma set_tokens_cases tokens c :
  (∃ c', set_tokens tokens c = (Ok tt, c') ∧ token_state c' = Some tokens ∧
         credentials_loaded c' = true ∧ stored L (credential_store c') = Some tokens) ∨
  (∃ e c', set_tokens tokens c = (Err (HttpCredential e), c') ∧ unchanged c c' ∧
           is_ok (store_save tokens (credential_store c)).1 = false).
Proof.
  unfold set_tokens, se_bind, on_store. pose proof (save_law _ L tokens (credential_store c)) as Hlaw.
  destruct (store_save tokens _) as [[[]|e] s]; simpl; [left|right].
  - eexists. by split_and!.
  - eexists e, _. by split_and!.
Qed.

Lemma clear_tokens_cases c :
  (∃ c', clear_tokens c = (Ok tt, c') ∧ token_state c' = None ∧
         credentials_loaded c' = true ∧ stored L (credential_store c') = None) ∨
  (∃ e c', clear_tokens c = (Err (HttpCredential e), c') ∧ unchanged c c' ∧
           is_ok (store_clear (credential_store c)).1 = false).
Proof.
  unfold clear_tokens, se_bind, on_store. pose proof (clear_law _ L (credential_store c)) as Hlaw.
  destruct (store_clear _) as [[[]|e] s]; simpl; [left|right].
  - eexists. by split_and!.
  - eexists e, _. by split_and!.
Qed.

Lemma load_credentials_cases c :
  (∃ c', load_credentials c = (Ok (token_state c'), c') ∧ credentials_loaded c' = true ∧
         stored L (credential_store c') = stored L (credential_store c) ∧
         (credentials_loaded c = true → c' = c) ∧
         (credentials_loaded c = false → token_state c' = stored L (credential_store c))) ∨
  (∃ e c', load_credentials c = (Err (HttpCredential e), c') ∧ unchanged c c' ∧
           credentials_loaded c = false).
Proof.
  unfold load_credentials, se_bind, on_store.
  destruct (credentials_loaded c) eqn:Hl; simpl.
  - left. exists c. by split_and!.
  - pose proof (load_law _ L (credential_store c)) as Hlaw.
    destruct (store_load _) as [[t|e] s]; simpl; [left|right].
    + destruct Hlaw as [-> Hs]. eexists. by split_and!.
    + eexists e, _. by split_and!.
Qed.

Lemma load_consistent c : consistent c → consistent (load_credentials c).2.
Proof.
  intros Hc. destruct (load_credentials_cases c) as [(c' & -> & Hl & Hs & Hsame & Hnew)|
    (e & c' & -> & Hu & _)]; [|by eapply unchanged_consistent].
  intros _. simpl. destruct (credentials_loaded c) eqn:Hcl.
  - rewrite Hsame by done. by apply Hc.
  - by rewrite Hs, Hnew.
Qed.

Lemma set_consistent tokens c : consistent c → consistent (set_tokens tokens c).2.
Proof.
  intros Hc. destruct (set_tokens_cases tokens c) as [(c' & -> & Ht & Hl & Hs)|(e & c' & -> & Hu & _)].
  - intros _. simpl. congruence.
  - by eapply unchanged_consistent.
Qed.

Lemma clear_consistent c : consistent c → consistent (clear_tokens c).2.
Proof.
  intros Hc. destruct (clear_tokens_cases c) as [(c' & -> & Ht & Hl & Hs)|(e & c' & -> & Hu & _)].
  - intros _. simpl. congruence.
  - by eapply unchanged_consistent.
Qed.

Lemma torn_load_consistent c : consistent c → consistent (torn_load c).
Proof.
  unfold torn_load. destruct (credentials_loaded c) eqn:Hl; [done|]. intros _ Hl'. cbn in Hl'. congruence.
Qed.

(** ** The commit of a refresh *)

Context {V : Type} `{JsonValue V, BodyDecoder V, AuthCodec V}.

(** The server has answered with a new pair. *)
Definition rotated (response : result HttpError HttpResponse) (tokens : TokenPair) : Prop :=
  ∃ answer decoded, response = Ok answer ∧
    decode_json refresh_response_from answer "/api/v0/auth/refresh" = Ok decoded ∧
    let d := resp_data decoded in
    from_expires_in (rr_access_token d) (rr_refresh_token d) (rr_expires_in d) = Ok tokens.

(** The server has rejected the session: a 401 that is an answer of the API. *)
Definition rejected (response : result HttpError HttpResponse) : Prop :=
  ∃ answer, response = Ok answer ∧ rs_status answer = 401 ∧
    is_ok (parse_headers answer "/api/v0/auth/refresh") = true ∧
    is_ok (envelope_from_slice (V:=V) (rs_body answer)) = true.

(** The pair, or none, is active and stored. *)
Definition installed (tokens : option TokenPair) c : Prop :=
  token_state c = tokens ∧ stored L (credential_store c) = tokens ∧ credentials_loaded c = true.

(** What the commit of a refresh that used [current] does. *)
Record commit_outcome (current : TokenPair) (response : result HttpError HttpResponse) c
    (r : result HttpError TokenPair) c' : Prop := {
  co_newer : token_state c ≠ Some current →
    c' = c ∧ match r with Ok tokens => token_state c = Some tokens | Err _ => token_state c = None end;
  co_result : token_state c = Some current →
    match r with
    | Ok tokens => rotated response tokens ∧ installed (Some tokens) c'
    | Err error => unchanged c c' ∨ (rejected response ∧ error = HttpAuthExpired ∧ installed None c')
    end;
  co_rotates tokens : token_state c = Some current → rotated response tokens →
    is_ok (store_save tokens (credential_store c)).1 = true → r = Ok tokens;
  co_expires : token_state c = Some current → rejected response →
    is_ok (store_clear (credential_store c)).1 = true → r = Err HttpAuthExpired ∧ installed None c';
}.

Lemma unauthorized_rejected answer error :
  decode_json refresh_response_from answer "/api/v0/auth/refresh" = Err error →
  (is_unauthorized error = true ↔ rejected (Ok answer)).
Proof.
  intros Hd. pose proof (decode_json_outcomes refresh_response_from answer "/api/v0/auth/refresh") as [Ho _].
  rewrite Hd in Ho. destruct Ho as [-> _]. split.
  - intros (? & ? & ?). by exists answer.
  - by intros (a & [= <-] & ? & ? & ?).
Qed.

Lemma decoded_not_rejected answer decoded :
  decode_json refresh_response_from answer "/api/v0/auth/refresh" = Ok decoded → ¬ rejected (Ok answer).
Proof.
  intros Hd (a & [= <-] & Hs & _). pose proof (decode_json_outcomes refresh_response_from answer "/api/v0/auth/refresh") as [Ho _].
  rewrite Hd in Ho. destruct Ho as (Hs' & _). lia.
Qed.

(** A commit that neither installs nor clears. *)
Lemma superseded_outcome current response error c :
  (∀ tokens, ¬ rotated response tokens) → ¬ rejected response →
  match superseded_or_error current error c with
  | (r, c') => commit_outcome current response c r c'
  end.
Proof.
  intros Hrot Hrej. unfold superseded_or_error. destruct (token_state c) as [t|] eqn:Ht; [case_bool_decide|];
    split; rewrite ?Ht; try done; try naive_solver; by left.
Qed.

Lemma replace_outcome current response tokens c :
  rotated response tokens → (∀ tokens', rotated response tokens' → tokens' = tokens) → ¬ rejected response →
  match replace_if_current current tokens c with
  | (r, c') => commit_outcome current response c r c'
  end.
Proof.
  intros Hrot Hone Hrej. unfold replace_if_current, se_bind. case_bool_decide as Ha.
  - destruct (token_state c) as [t|] eqn:Ht; simpl; split; rewrite ?Ht; naive_solver.
  - destruct (set_tokens_cases tokens c) as [(c' & -> & Ht & Hl & Hs)|(e & c' & -> & Hu & Hf)]; simpl.
    + split; try done. intros tokens' _ Hr' _. by rewrite (Hone _ Hr').
    + split; try done; [by left|]. intros tokens' _ Hr'. rewrite (Hone _ Hr'). by rewrite Hf.
Qed.

Lemma expire_outcome current response c :
  rejected response → (∀ tokens, ¬ rotated response tokens) →
  match (let! active := expire_if_current current in
         match active with Some tokens => se_ret tokens | None => se_raise HttpAuthExpired end) c with
  | (r, c') => commit_outcome current response c r c'
  end.
Proof.
  intros Hrej Hrot. unfold expire_if_current, se_bind. case_bool_decide as Ha.
  - destruct (token_state c) as [t|] eqn:Ht; simpl; split; rewrite ?Ht; naive_solver.
  - destruct (clear_tokens_cases c) as [(c' & -> & Ht & Hl & Hs)|(e & c' & -> & Hu & Hf)]; simpl.
    + split; try done; [by right|]. by intros tokens _ ?%Hrot.
    + split; try done; [by left|by intros tokens _ ?%Hrot|]. intros _ _. by rewrite Hf.
Qed.

Lemma refresh_commit_outcome (current : TokenPair) (response : result HttpError HttpResponse) c :
  match refresh_commit current response c with
  | (r, c') => commit_outcome current response c r c'
  end.
Proof.
  unfold refresh_commit. destruct response as [answer|e].
  2:{ apply superseded_outcome; [by intros tokens (? & ? & ? & _)|by intros (? & ? & _)]. }
  destruct (decode_json _ answer _) as [decoded|error] eqn:Hd.
  - pose proof (decoded_not_rejected _ _ Hd) as Hrej.
    destruct (from_expires_in _ _ _) as [tokens|e] eqn:Hf.
    + apply replace_outcome; [by exists answer, decoded| |done].
      intros tokens' (a & d & [= <-] & Hd' & Hf'). cbn in *. congruence.
    + apply superseded_outcome; [|done]. intros tokens' (a & d & [= <-] & Hd' & Hf'). cbn in *. congruence.
  - assert (∀ tokens, ¬ rotated (Ok answer) tokens) as Hrot by (intros tokens (a & d & [= <-] & Hd' & _); congruence).
    pose proof (unauthorized_rejected _ _ Hd) as Hun. destruct (is_unauthorized error).
    + apply expire_outcome; [by apply Hun|done].
    + apply superseded_outcome; [done|]. by intros ?%Hun.
Qed.

Lemma commit_consistent current response c r c' :
  commit_outcome current response c r c' → consistent c → consistent c'.
Proof.
  intros Hout Hc. destruct (decide (token_state c = Some current)) as [Hcur|Hcur].
  - pose proof (co_result _ _ _ _ _ Hout Hcur) as Hr. destruct r as [t|e].
    + destruct Hr as (_ & Ht & Hs & _). intros _. congruence.
    + destruct Hr as [Hu|(_ & _ & Ht & Hs & _)]; [by eapply unchanged_consistent|]. intros _. congruence.
  - by destruct (co_newer _ _ _ _ _ Hout Hcur) as [-> _].
Qed.
End sections.
