(* ===== verification/HttpRefresh.v ===== *)
(** Concurrent requests and refreshes of the HTTP client: the singleflight of
    client/refresh.rs and the retry of [send_request] in client.rs
    (crates/zephyrvox-http/src), as processes over the shared client. A process can be
    dropped at every await, also between the store operation of a section of the credential
    gate and the write of the active pair; the log of the world then says so.

    A [Notified] future is woken by [notify_waiters] from its creation on; its flag is
    part of the follower's program counter. *)

From S2P Require Import Prelude Text Types Json Wire HttpTypes HttpClient.

(** [RefreshFlight], with its notifier in the program counters of the followers. *)
Record Flight := mkFlight {
  fl_result : option (result HttpError TokenPair);
  fl_cancelled : bool;
}.

(** [new_refresh_flight]. *)
Definition new_refresh_flight : Flight := mkFlight None false.

Section world.
Context `{UrlEdit} {S : Type} `{CredentialStore S} {V : Type} `{JsonValue V, BodyDecoder V, AuthCodec V}.

(** Where a call of [refresh_access] is. The leader is at [RLoad] to [RPublish] while
    its guard is armed, the followers at [RJoin] to [RWait]. *)
Inductive RefreshPc :=
| RStart
| RLoad (f : nat)
| RSend (f : nat) (current : TokenPair)
| RCommit (f : nat) (current : TokenPair) (response : result HttpError HttpResponse)
| RPublish (f : nat) (r : result HttpError TokenPair)
| RNotify (f : nat) (r : result HttpError TokenPair)
| RGate (f : nat) (r : result HttpError TokenPair)
| RDropping (f : nat)
| RJoin (f : nat)
| RCheck (f : nat) (woken : bool)
| RRead (f : nat) (woken : bool)
| RWait (f : nat) (woken : bool)
| RDone (f : nat) (r : result HttpError TokenPair)
| RDropped.

(** Where a call of [send_request] with an access token is. *)
Inductive RequestPc :=
| QLoad (request : HttpRequest)
| QSend (request : HttpRequest) (sent : string)
| QCompare (request : HttpRequest) (sent : string)
| QRefresh (request : HttpRequest) (pc : RefreshPc)
| QRetry (request : HttpRequest)
| QResend (request : HttpRequest)
| QDone (r : result HttpError HttpResponse)
| QDropped.

Inductive Task :=
| TRefresh (pc : RefreshPc)
| TRequest (retry_once : bool) (original : HttpRequest) (q : RequestPc).

(** What the tasks share. *)
Record Shared := mkShared {
  sh_client : Client S;
  refresh_gate : option nat;
  sh_flights : list Flight;
}.

Definition set_client (c : Client S) (sh : Shared) : Shared :=
  mkShared c (refresh_gate sh) (sh_flights sh).

Definition set_flight (f : nat) (fl : Flight) (sh : Shared) : Shared :=
  mkShared (sh_client sh) (refresh_gate sh) (<[f := fl]> (sh_flights sh)).

Definition set_gate (g : option nat) (sh : Shared) : Shared :=
  mkShared (sh_client sh) g (sh_flights sh).

(** The lock section that opens [refresh_access]: lead a new flight, or join one. *)
Definition enter_gate (sh : Shared) : Shared * RefreshPc :=
  let lead :=
    let f := length (sh_flights sh) in
    (mkShared (sh_client sh) (Some f) (sh_flights sh ++ [new_refresh_flight]), RLoad f) in
  match refresh_gate sh with
  | Some f =>
      match sh_flights sh !! f with
      | Some flight => if fl_cancelled flight then lead else (sh, RJoin f)
      | None => (sh, RJoin f)
      end
  | None => lead
  end.

(** The lock section that ends a leader: only its own flight leaves the gate. *)
Definition leave_gate (f : nat) (sh : Shared) : Shared :=
  if bool_decide (refresh_gate sh = Some f) then set_gate None sh else sh.

Definition publish (f : nat) (r : result HttpError TokenPair) (sh : Shared) : Shared :=
  match sh_flights sh !! f with
  | Some flight => set_flight f (mkFlight (Some r) (fl_cancelled flight)) sh
  | None => sh
  end.

(** The store of [RefreshLeaderGuard::drop]. *)
Definition cancel (f : nat) (sh : Shared) : Shared :=
  match sh_flights sh !! f with
  | Some flight => set_flight f (mkFlight (fl_result flight) true) sh
  | None => sh
  end.

Definition cancelled (f : nat) (sh : Shared) : bool :=
  match sh_flights sh !! f with Some flight => fl_cancelled flight | None => false end.

Definition published (f : nat) (sh : Shared) : option (result HttpError TokenPair) :=
  sh_flights sh !! f ≫= fl_result.

(** What a step does besides: wake the waiters of a flight, send a request, or leave a
    section of the credential gate between the change of the store and that of the active
    pair. *)
Inductive Effect :=
| Silent
| Notify (f : nat)
| SendRefresh (request : HttpRequest)
| SendRequest (request : HttpRequest)
| Tear.

Context (base : Url).

(** One step of [refresh_access]. *)
Inductive refresh_step : Shared → RefreshPc → Effect → Shared → RefreshPc → Prop :=
| refresh_enter sh sh' pc' :
    enter_gate sh = (sh', pc') → refresh_step sh RStart Silent sh' pc'
| refresh_load_ok sh f current request c :
    refresh_begin base (sh_client sh) = (Ok (current, request), c) →
    refresh_step sh (RLoad f) (SendRefresh request) (set_client c sh) (RSend f current)
| refresh_load_err sh f e c :
    refresh_begin base (sh_client sh) = (Err e, c) →
    refresh_step sh (RLoad f) Silent (set_client c sh) (RPublish f (Err e))
| refresh_answer sh f current response :
    refresh_step sh (RSend f current) Silent sh (RCommit f current response)
| refresh_section sh f current response r c :
    refresh_commit current response (sh_client sh) = (r, c) →
    refresh_step sh (RCommit f current response) Silent (set_client c sh) (RPublish f r)
| refresh_publish sh f r :
    refresh_step sh (RPublish f r) Silent (publish f r sh) (RNotify f r)
| refresh_notify sh f r :
    refresh_step sh (RNotify f r) (Notify f) sh (RGate f r)
| refresh_leave sh f r :
    refresh_step sh (RGate f r) Silent (leave_gate f sh) (RDone f r)
| refresh_join sh f :
    refresh_step sh (RJoin f) Silent sh (RCheck f false)
| refresh_check sh f woken :
    refresh_step sh (RCheck f woken) Silent sh
      (if cancelled f sh then RDone f (Err HttpAuthExpired) else RRead f woken)
| refresh_read sh f woken :
    refresh_step sh (RRead f woken) Silent sh
      (match published f sh with Some r => RDone f r | None => RWait f woken end)
| refresh_woken sh f :
    refresh_step sh (RWait f true) Silent sh (RDone f (default (Err HttpAuthExpired) (published f sh)))
(* The future is dropped at an await. *)
| refresh_drop_leader sh f pc :
    (pc = RLoad f ∨ (∃ current, pc = RSend f current) ∨
     (∃ current response, pc = RCommit f current response) ∨ (∃ r, pc = RPublish f r)) →
    refresh_step sh pc Silent (cancel f sh) (RDropping f)
(* ... at an await inside a section of the credential gate. *)
| refresh_torn_load sh f :
    refresh_step sh (RLoad f) Silent (cancel f (set_client (torn_load (sh_client sh)) sh)) (RDropping f)
| refresh_torn sh f current response c :
    torn_commit current response (sh_client sh) = Some c →
    refresh_step sh (RCommit f current response) Tear (cancel f (set_client c sh)) (RDropping f)
| refresh_dropped sh f :
    refresh_step sh (RDropping f) (Notify f) sh RDropped
| refresh_drop sh pc :
    (pc = RStart ∨ (∃ f r, pc = RGate f r) ∨ (∃ f w, pc = RRead f w) ∨ (∃ f w, pc = RWait f w)) →
    refresh_step sh pc Silent sh RDropped.

(** The answer of the transport to the first request. *)
Definition first_answer (retry_once : bool) (request : HttpRequest) (sent : string)
    (response : result HttpError HttpResponse) : RequestPc :=
  match response with
  | Err e => QDone (Err e)
  | Ok response =>
      if (rs_status response =? 401) && retry_once then QCompare request sent
      else QDone (Ok response)
  end.

(** One step of [send_request]. *)
Inductive request_step (retry_once : bool)
    : Shared → RequestPc → Effect → Shared → RequestPc → Prop :=
| request_load_ok sh request request' sent c :
    authorize request (sh_client sh) = (Ok (request', sent), c) →
    request_step retry_once sh (QLoad request) (SendRequest request') (set_client c sh)
      (QSend request' sent)
| request_load_err sh request e c :
    authorize request (sh_client sh) = (Err e, c) →
    request_step retry_once sh (QLoad request) Silent (set_client c sh) (QDone (Err e))
| request_answer sh request sent response :
    request_step retry_once sh (QSend request sent) Silent sh
      (first_answer retry_once request sent response)
| request_compare_ok sh request sent active c :
    still_active sent (sh_client sh) = (Ok active, c) →
    request_step retry_once sh (QCompare request sent) Silent (set_client c sh)
      (if active : bool then QRefresh request RStart else QRetry request)
| request_compare_err sh request sent e c :
    still_active sent (sh_client sh) = (Err e, c) →
    request_step retry_once sh (QCompare request sent) Silent (set_client c sh) (QDone (Err e))
| request_refresh sh request pc effect sh' pc' :
    refresh_step sh pc effect sh' pc' →
    request_step retry_once sh (QRefresh request pc) effect sh' (QRefresh request pc')
| request_refreshed sh request f r :
    request_step retry_once sh (QRefresh request (RDone f r)) Silent sh
      (match r with Ok _ => QRetry request | Err e => QDone (Err e) end)
| request_retry_ok sh request request' sent c :
    authorize request (sh_client sh) = (Ok (request', sent), c) →
    request_step retry_once sh (QRetry request) (SendRequest request') (set_client c sh)
      (QResend request')
| request_retry_err sh request e c :
    authorize request (sh_client sh) = (Err e, c) →
    request_step retry_once sh (QRetry request) Silent (set_client c sh) (QDone (Err e))
| request_second_answer sh request response :
    request_step retry_once sh (QResend request) Silent sh (QDone response)
| request_torn_load sh q :
    match q with QLoad _ | QCompare _ _ | QRetry _ => True | _ => False end →
    request_step retry_once sh q Silent (set_client (torn_load (sh_client sh)) sh) QDropped
| request_drop sh q :
    match q with QDone _ | QDropped | QRefresh _ _ => False | _ => True end →
    request_step retry_once sh q Silent sh QDropped.

Inductive task_step : Shared → Task → Effect → Shared → Task → Prop :=
| task_refresh sh pc effect sh' pc' :
    refresh_step sh pc effect sh' pc' → task_step sh (TRefresh pc) effect sh' (TRefresh pc')
| task_request sh retry_once original q effect sh' q' :
    request_step retry_once sh q effect sh' q' →
    task_step sh (TRequest retry_once original q) effect sh' (TRequest retry_once original q').

(** [notify_waiters]: every [Notified] of the flight that exists is woken. *)
Definition wake_pc (f : nat) (pc : RefreshPc) : RefreshPc :=
  match pc with
  | RCheck g woken => RCheck g (bool_decide (g = f) || woken)
  | RRead g woken => RRead g (bool_decide (g = f) || woken)
  | RWait g woken => RWait g (bool_decide (g = f) || woken)
  | _ => pc
  end.

Definition wake (f : nat) (t : Task) : Task :=
  match t with
  | TRefresh pc => TRefresh (wake_pc f pc)
  | TRequest retry_once original (QRefresh request pc) =>
      TRequest retry_once original (QRefresh request (wake_pc f pc))
  | _ => t
  end.

(** All requests sent so far, with the task that sent each, and the sections that were
    dropped half-way. *)
Inductive SentLog :=
| TornSection
| SentRefresh (task : nat) (request : HttpRequest)
| SentRequest (task : nat) (request : HttpRequest).

Record World := mkWorld {
  w_shared : Shared;
  w_tasks : list Task;
  w_sent : list SentLog;
}.

Definition perform (i : nat) (effect : Effect) (tasks : list Task) (sent : list SentLog)
    : list Task * list SentLog :=
  match effect with
  | Silent => (tasks, sent)
  | Notify f => (wake f <$> tasks, sent)
  | SendRefresh request => (tasks, sent ++ [SentRefresh i request])
  | SendRequest request => (tasks, sent ++ [SentRequest i request])
  | Tear => (tasks, sent ++ [TornSection])
  end.

Inductive world_step : World → World → Prop :=
| world_task sh tasks sent i t effect sh' t' :
    tasks !! i = Some t → task_step sh t effect sh' t' →
    world_step (mkWorld sh tasks sent)
      (mkWorld sh' (perform i effect (<[i := t']> tasks) sent).1
         (perform i effect (<[i := t']> tasks) sent).2)
| world_refresh sh tasks sent :
    world_step (mkWorld sh tasks sent) (mkWorld sh (tasks ++ [TRefresh RStart]) sent)
| world_request sh tasks sent retry_once request :
    world_step (mkWorld sh tasks sent)
      (mkWorld sh (tasks ++ [TRequest retry_once request (QLoad request)]) sent)
| world_login sh tasks sent tokens :
    world_step (mkWorld sh tasks sent)
      (mkWorld (set_client (set_tokens tokens (sh_client sh)).2 sh) tasks sent)
| world_logout sh tasks sent :
    world_step (mkWorld sh tasks sent)
      (mkWorld (set_client (clear_tokens (sh_client sh)).2 sh) tasks sent)
| world_load sh tasks sent :
    world_step (mkWorld sh tasks sent)
      (mkWorld (set_client (load_credentials (sh_client sh)).2 sh) tasks sent)
(* The same calls, dropped half-way. *)
| world_torn_login sh tasks sent tokens :
    world_step (mkWorld sh tasks sent)
      (mkWorld (set_client (torn_save tokens (sh_client sh)) sh) tasks (sent ++ [TornSection]))
| world_torn_logout sh tasks sent :
    world_step (mkWorld sh tasks sent)
      (mkWorld (set_client (torn_clear (sh_client sh)) sh) tasks (sent ++ [TornSection]))
| world_torn_load sh tasks sent :
    world_step (mkWorld sh tasks sent)
      (mkWorld (set_client (torn_load (sh_client sh)) sh) tasks sent).

Definition world_init (c : Client S) : World := mkWorld (mkShared c None []) [] [].
End world.

Arguments Shared S : clear implicits.
Arguments World {_} S.

(** ** The invariant of the singleflight *)

(** What the leader of a flight has done. *)
Inductive Stage :=
| Running
| Notifying (r : result HttpError TokenPair)
| Leaving (r : result HttpError TokenPair)
| Dropping.

Definition leads (pc : RefreshPc) : option (nat * Stage) :=
  match pc with
  | RLoad f | RSend f _ | RCommit f _ _ | RPublish f _ => Some (f, Running)
  | RNotify f r => Some (f, Notifying r)
  | RGate f r => Some (f, Leaving r)
  | RDropping f => Some (f, Dropping)
  | _ => None
  end.

(** The state of a flight, given its leader's stage. *)
Definition flight_ok (gate : option nat) (f : nat) (flight : Flight) (stage : option Stage) : Prop :=
  match stage with
  | Some Running => gate = Some f ∧ flight = mkFlight None false
  | Some (Notifying r) | Some (Leaving r) => gate = Some f ∧ flight = mkFlight (Some r) false
  | Some Dropping => flight = mkFlight None true
  | None => (∃ r, flight = mkFlight (Some r) false) ∨ flight = mkFlight None true
  end.

(** A woken follower will find the outcome, one that is not woken still will be. *)
Definition woken_ok (flight : Flight) (woken : bool) : Prop :=
  woken = true → is_Some (fl_result flight) ∨ fl_cancelled flight = true.

Definition done_ok (flight : Flight) (r : result HttpError TokenPair) : Prop :=
  fl_result flight = Some r ∨ (fl_cancelled flight = true ∧ r = Err HttpAuthExpired).

Definition follower_ok (flight : Flight) (stage : option Stage) (pc : RefreshPc) : Prop :=
  match pc with
  | RCheck _ woken => woken_ok flight woken
  | RRead _ woken =>
      woken_ok flight woken ∧
      (woken = false → fl_cancelled flight = true → stage = Some Dropping)
  | RWait _ woken =>
      woken_ok flight woken ∧
      (woken = false → stage = Some Running ∨ (∃ r, stage = Some (Notifying r)) ∨ stage = Some Dropping)
  | RDone _ r => done_ok flight r
  | _ => True
  end.

Definition flight_of (pc : RefreshPc) : option nat :=
  match pc with
  | RJoin f | RCheck f _ | RRead f _ | RWait f _ | RDone f _ => Some f
  | _ => None
  end.

(** Who leads each flight, and how far it is. *)
Abbreviation Leaders := (gmap nat (nat * Stage)).

Definition pc_ok (flights : list Flight) (leaders : Leaders) (i : nat) (pc : RefreshPc) : Prop :=
  (∀ f stage, leads pc = Some (f, stage) → leaders !! f = Some (i, stage)) ∧
  (∀ f, flight_of pc = Some f →
     ∃ flight, flights !! f = Some flight ∧ follower_ok flight (snd <$> leaders !! f) pc).

(** One move of a leader: its flight and stage before and after, and whether the
    waiters are woken. *)
Inductive evolve : Flight → Stage → Flight → option Stage → bool → Prop :=
| evolve_run : evolve (mkFlight None false) Running (mkFlight None false) (Some Running) false
| evolve_publish r :
    evolve (mkFlight None false) Running (mkFlight (Some r) false) (Some (Notifying r)) false
| evolve_notify r :
    evolve (mkFlight (Some r) false) (Notifying r) (mkFlight (Some r) false) (Some (Leaving r)) true
| evolve_leave r :
    evolve (mkFlight (Some r) false) (Leaving r) (mkFlight (Some r) false) None false
| evolve_cancel :
    evolve (mkFlight None false) Running (mkFlight None true) (Some Dropping) false
| evolve_dropped :
    evolve (mkFlight None true) Dropping (mkFlight None true) None true.

Definition set_leader (f i : nat) (stage : option Stage) (leaders : Leaders) : Leaders :=
  match stage with
  | Some stage => <[f := (i, stage)]> leaders
  | None => delete f leaders
  end.

Lemma set_leader_same f i stage leaders :
  set_leader f i stage leaders !! f = (λ s, (i, s)) <$> stage.
Proof. destruct stage; simpl; [apply lookup_insert_eq|apply lookup_delete_eq]. Qed.

Lemma set_leader_other f g i stage leaders :
  g ≠ f → set_leader f i stage leaders !! g = leaders !! g.
Proof. intros. destruct stage; simpl; [by apply lookup_insert_ne|by apply lookup_delete_ne]. Qed.

Lemma leads_wake f pc : leads (wake_pc f pc) = leads pc.
Proof. by destruct pc. Qed.

Lemma flight_of_wake f pc : flight_of (wake_pc f pc) = flight_of pc.
Proof. by destruct pc. Qed.

(** Waking changes only the followers of the flight. *)
Lemma wake_other f g pc : flight_of pc = Some g → g ≠ f → wake_pc f pc = pc.
Proof. destruct pc; simpl; intros; simplify_eq; rewrite ?bool_decide_eq_false_2 by done; done. Qed.

(** A follower keeps its promise over a move of its leader. *)
Lemma follower_evolves flight stage flight' stage' wakes f pc :
  evolve flight stage flight' stage' wakes → flight_of pc = Some f →
  follower_ok flight (Some stage) pc →
  follower_ok flight' stage' (if wakes then wake_pc f pc else pc).
Proof.
  unfold follower_ok, woken_ok, done_ok.
  intros [] Hf; destruct pc; simplify_eq/=; rewrite ?bool_decide_eq_true_2 by done; naive_solver.
Qed.

Lemma pc_evolves flights leaders i j f flight stage flight' stage' wakes pc :
  evolve flight stage flight' stage' wakes → j ≠ i →
  flights !! f = Some flight → leaders !! f = Some (i, stage) →
  pc_ok flights leaders j pc →
  pc_ok (<[f := flight']> flights) (set_leader f i stage' leaders) j (if wakes then wake_pc f pc else pc).
Proof.
  intros Hev Hj Hf Hl [Hleads Hfollow]. split.
  - intros g st Hg. assert (leads pc = Some (g, st)) as Hpc by (destruct wakes; rewrite ?leads_wake in Hg; done).
    specialize (Hleads _ _ Hpc). rewrite set_leader_other; [done|]. intros ->. congruence.
  - intros g Hg. assert (flight_of pc = Some g) as Hpc by (destruct wakes; rewrite ?flight_of_wake in Hg; done).
    destruct (Hfollow _ Hpc) as (fl & Hfl & Hok). destruct (decide (g = f)) as [->|Hne].
    + exists flight'. rewrite set_leader_same, list_lookup_insert_eq by (by eapply lookup_lt_Some).
      split; [done|]. simplify_eq. rewrite Hl in Hok. simpl in Hok.
      pose proof (follower_evolves _ _ _ _ _ _ _ Hev Hpc Hok) as Hnew.
      by destruct stage'.
    + exists fl. rewrite set_leader_other, list_lookup_insert_ne by done. split; [done|].
      destruct wakes; [by rewrite (wake_other _ _ _ Hpc Hne)|done].
Qed.

Section invariant.
Context `{UrlEdit} {S : Type} `{CredentialStore S}.
Implicit Types (sh : Shared S) (t : Task) (tasks : list Task) (leaders : Leaders).

Definition refresh_pc t : option RefreshPc :=
  match t with
  | TRefresh pc => Some pc
  | TRequest _ _ (QRefresh _ pc) => Some pc
  | _ => None
  end.

Definition lead_of t : option (nat * Stage) := refresh_pc t ≫= leads.

Record world_ok sh tasks leaders : Prop := {
  wo_flights f :
    match sh_flights sh !! f with
    | Some flight => flight_ok (refresh_gate sh) f flight (snd <$> leaders !! f)
    | None => leaders !! f = None ∧ refresh_gate sh ≠ Some f
    end;
  wo_tasks i t pc :
    tasks !! i = Some t → refresh_pc t = Some pc → pc_ok (sh_flights sh) leaders i pc;
  wo_leaders f i stage :
    leaders !! f = Some (i, stage) → ∃ t, tasks !! i = Some t ∧ lead_of t = Some (f, stage);
}.

Lemma refresh_pc_wake f t : refresh_pc (wake f t) = wake_pc f <$> refresh_pc t.
Proof. by destruct t as [|? ? []]. Qed.

Lemma lead_of_wake f t : lead_of (wake f t) = lead_of t.
Proof.
  unfold lead_of. rewrite refresh_pc_wake. destruct (refresh_pc t); simpl; [apply leads_wake|done].
Qed.

Lemma set_client_ok sh tasks leaders c : world_ok sh tasks leaders → world_ok (set_client c sh) tasks leaders.
Proof. intros []. by constructor. Qed.

(** A step of one task that leads what it led before. *)
Lemma quiet_ok sh tasks leaders i t t' :
  tasks !! i = Some t → lead_of t' = lead_of t →
  (∀ pc, refresh_pc t' = Some pc → pc_ok (sh_flights sh) leaders i pc) →
  world_ok sh tasks leaders → world_ok sh (<[i := t']> tasks) leaders.
Proof.
  intros Hi Hlead Hpc [Hf Ht Hl]. constructor; [done| |].
  - intros j tj pc [(<- & <- & _)|[Hj Htj]]%list_lookup_insert_Some; [by apply Hpc|by apply Ht].
  - intros f j stage Hj. destruct (Hl f j stage Hj) as (tj & Htj & Hs).
    destruct (decide (i = j)) as [<-|Hne].
    + exists t'. rewrite list_lookup_insert_eq by (by eapply lookup_lt_Some). split; [done|]. congruence.
    + exists tj. by rewrite list_lookup_insert_ne.
Qed.

Lemma lookup_wake (wakes : bool) f tasks j :
  (if wakes then wake f <$> tasks else tasks) !! j
  = (if wakes then wake f else id) <$> tasks !! j.
Proof. destruct wakes; [apply list_lookup_fmap|]. by destruct (tasks !! j). Qed.

(** A move of a leader. *)
Lemma evolve_ok sh tasks leaders i t t' f flight stage flight' stage' wakes gate' :
  tasks !! i = Some t → lead_of t = Some (f, stage) → lead_of t' = (λ s, (f, s)) <$> stage' →
  sh_flights sh !! f = Some flight → evolve flight stage flight' stage' wakes →
  (gate' = refresh_gate sh ∨ (stage' = None ∧ refresh_gate sh = Some f ∧ gate' = None)) →
  (∀ pc, refresh_pc (if wakes then wake f t' else t') = Some pc →
     pc_ok (<[f := flight']> (sh_flights sh)) (set_leader f i stage' leaders) i pc) →
  world_ok sh tasks leaders →
  world_ok (set_gate gate' (set_flight f flight' sh))
    (if wakes then wake f <$> <[i := t']> tasks else <[i := t']> tasks)
    (set_leader f i stage' leaders).
Proof.
  intros Hi Hlead Hlead' Hfl Hev Hgate Hpc [Hf Ht Hl].
  assert (leaders !! f = Some (i, stage)) as Hlf.
  { unfold lead_of in Hlead. destruct (refresh_pc t) as [pc|] eqn:Hrp; [|done]. simpl in Hlead.
    by apply (proj1 (Ht i t pc Hi Hrp)). }
  assert (i < length tasks)%nat as Hlen by (by eapply lookup_lt_Some).
  constructor.
  - intros g. simpl. specialize (Hf g). destruct (decide (g = f)) as [->|Hne].
    + rewrite list_lookup_insert_eq by (by eapply lookup_lt_Some). rewrite set_leader_same.
      rewrite Hfl, Hlf in Hf. simpl in Hf. destruct Hev; simpl in *; naive_solver.
    + rewrite list_lookup_insert_ne, set_leader_other by done.
      destruct (sh_flights sh !! g) as [fl|]; [|naive_solver].
      unfold flight_ok in *. destruct Hgate as [->|(_ & Hg & ->)]; [done|]. rewrite Hg in Hf.
      destruct (snd <$> leaders !! g) as [[]|]; naive_solver.
  - intros j tj pc. simpl. rewrite lookup_wake.
    intros (t0 & Hj & ->)%fmap_Some Hrp.
    apply list_lookup_insert_Some in Hj as [(<- & <- & _)|[Hji Hj]]; [by destruct wakes; apply Hpc|].
    assert (∃ pc0, refresh_pc t0 = Some pc0 ∧ pc = if wakes then wake_pc f pc0 else pc0) as (pc0 & Hp0 & ->).
    { destruct wakes; [|by exists pc]. rewrite refresh_pc_wake in Hrp.
      apply fmap_Some in Hrp as (pc0 & ? & ->). by exists pc0. }
    eapply pc_evolves; [done|by intros ->|done..|]. by eapply Ht.
  - intros g j st Hg. destruct (decide (g = f)) as [->|Hne].
    + rewrite set_leader_same in Hg. apply fmap_Some in Hg as (s & -> & [= -> ->]).
      exists (if wakes then wake f t' else t'). rewrite lookup_wake, list_lookup_insert_eq by done.
      destruct wakes; simpl; rewrite ?lead_of_wake; done.
    + rewrite set_leader_other in Hg by done. destruct (Hl g j st Hg) as (tj & Htj & Hs).
      assert (i ≠ j) as Hij by (intros ->; congruence).
      exists (if wakes then wake f tj else tj). rewrite lookup_wake, list_lookup_insert_ne by done.
      rewrite Htj. destruct wakes; simpl; rewrite ?lead_of_wake; done.
Qed.

(** A call that finds no usable flight becomes the leader of a new one. *)
Lemma lead_ok sh tasks leaders i t t' :
  let f := length (sh_flights sh) in
  tasks !! i = Some t → lead_of t = None → refresh_pc t' = Some (RLoad f) →
  (∀ g, refresh_gate sh = Some g → ∃ flight, sh_flights sh !! g = Some flight ∧ fl_cancelled flight = true) →
  world_ok sh tasks leaders →
  world_ok (mkShared (sh_client sh) (Some f) (sh_flights sh ++ [new_refresh_flight]))
    (<[i := t']> tasks) (<[f := (i, Running)]> leaders).
Proof.
  intros f Hi Hlead Hpc Hgate [Hf Ht Hl].
  assert (leaders !! f = None) as Hnew.
  { specialize (Hf f). rewrite lookup_ge_None_2 in Hf by done. by destruct Hf. }
  assert (i < length tasks)%nat as Hlen by (by eapply lookup_lt_Some).
  assert (∀ g j st, leaders !! g = Some (j, st) → j ≠ i) as Hji.
  { intros g j st Hg ->. destruct (Hl g i st Hg) as (t0 & Ht0 & Hs). simplify_eq. }
  constructor; simpl.
  - intros g. specialize (Hf g). destruct (decide (g = f)) as [->|Hne].
    + rewrite lookup_app_r by done. unfold f at 1. rewrite Nat.sub_diag. simpl.
      by rewrite lookup_insert_eq.
    + rewrite lookup_insert_ne by done. destruct (sh_flights sh !! g) as [fl|] eqn:Hg.
      * rewrite lookup_app_l by (by eapply lookup_lt_Some). rewrite Hg.
        unfold flight_ok in *. destruct (snd <$> leaders !! g) as [[]|]; try done;
          destruct Hf as [Hgg ->]; destruct (Hgate _ Hgg) as (fl & ? & ?); simplify_eq/=.
      * apply lookup_ge_None_1 in Hg. rewrite lookup_ge_None_2 by (rewrite length_app; simpl; lia).
        naive_solver.
  - intros j tj pc [(<- & <- & _)|[Hij Hj]]%list_lookup_insert_Some Hrp.
    + rewrite Hpc in Hrp. simplify_eq. split; [|done]. intros g st [= <- <-]. apply lookup_insert_eq.
    + destruct (Ht _ _ _ Hj Hrp) as [Hleads Hfollow]. split.
      * intros g st Hg. specialize (Hleads _ _ Hg). rewrite lookup_insert_ne; [done|]. congruence.
      * intros g Hg. destruct (Hfollow g Hg) as (fl & Hfl & Hok). exists fl.
        assert (g < f)%nat by (by eapply lookup_lt_Some).
        rewrite lookup_app_l, lookup_insert_ne by lia. done.
  - intros g j st [[<- [= <- <-]]|[Hne Hg]]%lookup_insert_Some.
    + exists t'. rewrite list_lookup_insert_eq by done. unfold lead_of. by rewrite Hpc.
    + destruct (Hl g j st Hg) as (tj & Htj & Hs). exists tj.
      rewrite list_lookup_insert_ne by (intros ->; by eapply Hji). done.
Qed.

(** ** Every step keeps the invariant *)

Context {V : Type} `{JsonValue V, BodyDecoder V, AuthCodec V} (base : Url).

(** A leader that stays in its stage. *)
Lemma leading_ok sh leaders i pc pc' :
  leads pc' = leads pc → flight_of pc' = None →
  pc_ok (sh_flights sh) leaders i pc → pc_ok (sh_flights sh) leaders i pc'.
Proof. intros Hlead Hflight [Hl _]. split; [by rewrite Hlead|by rewrite Hflight]. Qed.

(** A follower of an existing flight. *)
Lemma following_ok sh leaders i f flight pc' :
  leads pc' = None → flight_of pc' = Some f → sh_flights sh !! f = Some flight →
  follower_ok flight (snd <$> leaders !! f) pc' → pc_ok (sh_flights sh) leaders i pc'.
Proof.
  intros Hlead Hflight Hf Hok. split; [by rewrite Hlead|]. intros g Hg.
  rewrite Hflight in Hg. simplify_eq. eauto.
Qed.

Lemma idle_pc_ok flights leaders i pc' :
  leads pc' = None → flight_of pc' = None → pc_ok flights leaders i pc'.
Proof. intros Hl Hf. split; [by rewrite Hl|by rewrite Hf]. Qed.

Lemma enter_gate_ok sh sh' pc' tasks leaders i t t' :
  tasks !! i = Some t → lead_of t = None → refresh_pc t' = Some pc' →
  enter_gate sh = (sh', pc') → world_ok sh tasks leaders →
  ∃ leaders', world_ok sh' (<[i := t']> tasks) leaders'.
Proof.
  intros Hi Hlead Hpc Henter Hok. pose proof (wo_flights _ _ _ Hok) as Hf.
  unfold enter_gate in Henter. destruct (refresh_gate sh) as [f|] eqn:Hg.
  - specialize (Hf f). destruct (sh_flights sh !! f) as [flight|] eqn:Hfl; [|by destruct Hf].
    destruct (fl_cancelled flight) eqn:Hcan; simplify_eq.
    + eexists. eapply lead_ok; [done..| |done]. rewrite Hg. intros ? [= <-]. eauto.
    + exists leaders. apply (quiet_ok _ _ _ _ t); [done| | |done].
      * rewrite Hlead. unfold lead_of. by rewrite Hpc.
      * rewrite Hpc. intros ? [= <-]. by eapply following_ok.
  - simplify_eq. eexists. eapply lead_ok; [done..| |done]. by rewrite Hg.
Qed.

(** The flight of a leader. *)
Lemma leader_flight sh tasks leaders i pc f stage :
  world_ok sh tasks leaders → pc_ok (sh_flights sh) leaders i pc → leads pc = Some (f, stage) →
  ∃ flight, sh_flights sh !! f = Some flight ∧ flight_ok (refresh_gate sh) f flight (Some stage).
Proof.
  intros Hok [Hl _] Hlead. specialize (Hl _ _ Hlead). pose proof (wo_flights _ _ _ Hok f) as Hf.
  rewrite Hl in Hf. destruct (sh_flights sh !! f); [by eauto|by destruct Hf].
Qed.

Section one_step.
Context (sh : Shared S) (tasks : list Task) (leaders : Leaders) (i : nat) (t t' : Task)
  (pc pc' : RefreshPc) (Hi : tasks !! i = Some t) (Hrp : refresh_pc t = Some pc)
  (Hrp' : refresh_pc t' = Some pc') (Hok : world_ok sh tasks leaders).

Lemma quiet_step :
  leads pc' = leads pc → pc_ok (sh_flights sh) leaders i pc' →
  ∃ leaders', world_ok sh (<[i := t']> tasks) leaders'.
Proof.
  intros Hlead Hpc. exists leaders. eapply quiet_ok; [done| | |done].
  - unfold lead_of. by rewrite Hrp, Hrp'.
  - rewrite Hrp'. by intros ? [= <-].
Qed.

(** A move of this leader; its own program counter follows no flight but, when it
    leaves, its own. *)
Lemma evolve_step f flight stage flight' stage' (wakes : bool) gate' :
  leads pc = Some (f, stage) → leads pc' = (λ s, (f, s)) <$> stage' →
  sh_flights sh !! f = Some flight → evolve flight stage flight' stage' wakes →
  (gate' = refresh_gate sh ∨ (stage' = None ∧ refresh_gate sh = Some f ∧ gate' = None)) →
  (flight_of pc' = None ∨ ∃ r, pc' = RDone f r ∧ fl_result flight' = Some r) →
  ∃ leaders', world_ok (set_gate gate' (set_flight f flight' sh))
    (if wakes then wake f <$> <[i := t']> tasks else <[i := t']> tasks) leaders'.
Proof.
  intros Hlead Hlead' Hfl Hev Hgate Hflight. eexists.
  eapply evolve_ok; [done| | |done..| |done].
  - unfold lead_of. by rewrite Hrp.
  - unfold lead_of. by rewrite Hrp'.
  - assert (refresh_pc (if wakes then wake f t' else t') = Some pc') as Hsame.
    { destruct wakes; [|done]. rewrite refresh_pc_wake, Hrp'. simpl. f_equal.
      destruct Hflight as [Hn|(r & -> & _)]; [|done]. by destruct pc'. }
    intros p Hp. rewrite Hsame in Hp. simplify_eq. split.
    + intros g st Hg. rewrite Hlead' in Hg. apply fmap_Some in Hg as (s & -> & [= -> ->]).
      apply set_leader_same.
    + intros g Hg. destruct Hflight as [Hn|(r & -> & Hr)]; [congruence|]. simplify_eq/=.
      exists flight'. rewrite list_lookup_insert_eq by (by eapply lookup_lt_Some).
      split; [done|]. by left.
Qed.
End one_step.

Lemma set_flight_same f flight sh : sh_flights sh !! f = Some flight → set_flight f flight sh = sh.
Proof. intros Hf. unfold set_flight. rewrite list_insert_id by done. by destruct sh. Qed.

Lemma leave_step sh tasks leaders i t t' f r :
  tasks !! i = Some t → refresh_pc t = Some (RGate f r) → refresh_pc t' = Some (RDone f r) →
  world_ok sh tasks leaders → ∃ leaders', world_ok (leave_gate f sh) (<[i := t']> tasks) leaders'.
Proof.
  intros Hi Hrp Hrp' Hok. pose proof (wo_tasks _ _ _ Hok _ _ _ Hi Hrp) as Hpc.
  destruct (leader_flight _ _ _ _ _ _ _ Hok Hpc eq_refl) as (fl & Hfl & Hgate & ->).
  destruct (evolve_step _ _ _ _ _ _ _ _ Hi Hrp Hrp' Hok f _ _ _ None false None eq_refl eq_refl Hfl
    (evolve_leave r)) as [leaders' Hok']; [naive_solver|right; by exists r|].
  exists leaders'. unfold leave_gate. rewrite bool_decide_eq_true_2 by done. simpl in Hok'.
  unfold set_gate, set_flight in *. simpl in Hok'. by rewrite list_insert_id in Hok'.
Qed.

(** The steps of a leader that move its flight but not the gate. *)
Lemma move_step sh pc e sh' pc' tasks leaders i t t' sent f flight stage flight' stage' wakes :
  tasks !! i = Some t → refresh_pc t = Some pc → refresh_pc t' = Some pc' →
  world_ok sh tasks leaders → leads pc = Some (f, stage) → leads pc' = (λ s, (f, s)) <$> stage' →
  flight_of pc' = None → sh_flights sh !! f = Some flight → evolve flight stage flight' stage' wakes →
  sh' = set_flight f flight' sh → e = (if wakes then Notify f else Silent) →
  ∃ leaders', world_ok sh' (perform i e (<[i := t']> tasks) sent).1 leaders'.
Proof.
  intros Hi Hrp Hrp' Hok Hl Hl' Hn Hfl Hev -> ->.
  destruct (evolve_step _ _ _ _ _ _ _ _ Hi Hrp Hrp' Hok f _ _ _ _ _ (refresh_gate sh) Hl Hl' Hfl Hev)
    as [leaders' Hok']; [by left|by left|].
  exists leaders'. by destruct wakes.
Qed.

(** The steps of a leader that only change the client. *)
Lemma section_step sh c tasks leaders i t t' pc pc' :
  tasks !! i = Some t → refresh_pc t = Some pc → refresh_pc t' = Some pc' →
  leads pc' = leads pc → flight_of pc' = None → world_ok sh tasks leaders →
  ∃ leaders', world_ok (set_client c sh) (<[i := t']> tasks) leaders'.
Proof.
  intros Hi Hrp Hrp' Hl Hn Hok.
  apply (quiet_step (set_client c sh) tasks leaders i t t' pc pc'); [done..| |done|].
  - by apply set_client_ok.
  - apply (leading_ok _ _ _ pc); [done..|]. exact (wo_tasks _ _ _ Hok _ _ _ Hi Hrp).
Qed.

(** The steps of a follower. *)
Lemma follow_step sh tasks leaders i t t' pc pc' f flight :
  tasks !! i = Some t → refresh_pc t = Some pc → refresh_pc t' = Some pc' →
  leads pc = None → leads pc' = None → flight_of pc' = Some f → sh_flights sh !! f = Some flight →
  follower_ok flight (snd <$> leaders !! f) pc' → world_ok sh tasks leaders →
  ∃ leaders', world_ok sh (<[i := t']> tasks) leaders'.
Proof.
  intros. eapply quiet_step; [done..|congruence|]. by eapply following_ok.
Qed.

(** A follower that finds no result: the leader is still to wake it. *)
Lemma read_ok sh tasks leaders f flight woken :
  world_ok sh tasks leaders → sh_flights sh !! f = Some flight → fl_result flight = None →
  follower_ok flight (snd <$> leaders !! f) (RRead f woken) →
  follower_ok flight (snd <$> leaders !! f) (RWait f woken).
Proof.
  intros Hok Hfl Hres [Hw Hread]. simpl. split; [done|]. intros Hwk. specialize (Hread Hwk).
  pose proof (wo_flights _ _ _ Hok f) as Hf. rewrite Hfl in Hf. unfold flight_ok in Hf.
  destruct (snd <$> leaders !! f) as [[]|]; naive_solver.
Qed.

(** A woken follower finds the result or the cancellation. *)
Lemma woken_done f flight stage :
  follower_ok flight stage (RWait f true) →
  done_ok flight (default (Err HttpAuthExpired) (fl_result flight)).
Proof.
  intros [Hw _]. unfold done_ok. destruct (fl_result flight) as [r|] eqn:Hres; simpl; [by left|].
  right. split; [|done]. destruct (Hw eq_refl) as [[? ?]|?]; [congruence|done].
Qed.

Ltac leader_move f stage' wakes ev :=
  match goal with
  | Hok : world_ok ?sh _ _, Hpc : pc_ok _ _ _ ?pc |- _ =>
      let fl := fresh "fl" in let Hfl := fresh "Hfl" in let Hf := fresh "Hf" in
      destruct (leader_flight _ _ _ _ _ f _ Hok Hpc eq_refl) as (fl & Hfl & Hf);
      simpl in Hf; destruct_and?; subst fl;
      eapply (move_step _ _ (if wakes then Notify f else Silent) _ _ _ _ _ _ _ [] f _ _ _ stage' wakes);
      try done; [apply ev|];
      unfold publish, cancel; rewrite ?Hfl; try done; symmetry; by apply set_flight_same
  end.

(** A leader that is dropped inside a section. *)
Lemma torn_step sh c tasks leaders i t t' pc f :
  tasks !! i = Some t → refresh_pc t = Some pc → refresh_pc t' = Some (RDropping f) → leads pc = Some (f, Running) →
  world_ok sh tasks leaders → ∃ leaders', world_ok (cancel f (set_client c sh)) (<[i := t']> tasks) leaders'.
Proof.
  intros Hi Hrp Hrp' Hlead Hok0. pose proof (set_client_ok sh tasks leaders c Hok0) as Hok.
  pose proof (wo_tasks _ _ _ Hok i t pc Hi Hrp) as Hpc.
  destruct (leader_flight _ _ _ _ _ f _ Hok Hpc Hlead) as (fl & Hfl & Hf). simpl in Hf. destruct_and?. subst fl.
  eapply (move_step _ _ Silent _ _ _ _ _ _ _ [] f _ _ _ (Some Dropping) false); try done; [apply evolve_cancel|].
  unfold cancel. by rewrite Hfl.
Qed.

Lemma refresh_step_ok sh pc e sh' pc' tasks leaders i t t' sent :
  tasks !! i = Some t → refresh_pc t = Some pc → refresh_pc t' = Some pc' →
  refresh_step base sh pc e sh' pc' → world_ok sh tasks leaders →
  ∃ leaders', world_ok sh' (perform i e (<[i := t']> tasks) sent).1 leaders'.
Proof.
  intros Hi Hrp Hrp' Hstep Hok.
  pose proof (wo_tasks _ _ _ Hok i t pc Hi Hrp) as Hpc.
  destruct Hstep as [sh sh' pc' Henter|sh f current request c Hb|sh f err c Hb|sh f current response
    |sh f current response r c Hb|sh f r|sh f r|sh f r|sh f|sh f woken|sh f woken|sh f
    |sh f pc Hpcs|sh f|sh f current response c Hb|sh f|sh pc Hpcs]; simpl.
  - eapply enter_gate_ok; [done| |done..]. unfold lead_of. by rewrite Hrp.
  - by eapply section_step.
  - by eapply section_step.
  - eapply quiet_step; [done..|by eapply leading_ok].
  - by eapply section_step.
  - leader_move f (Some (Notifying r)) false evolve_publish.
  - leader_move f (Some (Leaving r)) true evolve_notify.
  - by eapply leave_step.
  - destruct (proj2 Hpc f eq_refl) as (fl & Hfl & _). by eapply follow_step.
  - destruct (proj2 Hpc f eq_refl) as (fl & Hfl & Hw).
    unfold cancelled in Hrp'. rewrite Hfl in Hrp'. destruct (fl_cancelled fl) eqn:Hcan;
      (eapply follow_step; [done..| |done]); [by right|]. simpl. split; [done|congruence].
  - destruct (proj2 Hpc f eq_refl) as (fl & Hfl & Hw).
    unfold published in Hrp'. rewrite Hfl in Hrp'. simpl in Hrp'. destruct (fl_result fl) as [r|] eqn:Hres;
      (eapply follow_step; [done..| |done]); [by left|by eapply read_ok].
  - destruct (proj2 Hpc f eq_refl) as (fl & Hfl & Hw).
    unfold published in Hrp'. rewrite Hfl in Hrp'.
    eapply follow_step; [done..| |done]. by eapply woken_done.
  - destruct Hpcs as [->|[[current ->]|[(current & response & ->)|[r ->]]]];
      leader_move f (Some Dropping) false evolve_cancel.
  - by eapply (torn_step _ _ _ _ _ _ _ (RLoad f)).
  - by eapply (torn_step _ _ _ _ _ _ _ (RCommit f current response)).
  - leader_move f (@None Stage) true evolve_dropped.
  - destruct Hpcs as [->|[(f & r & ->)|[(f & w & ->)|(f & w & ->)]]].
    1,3,4: eapply quiet_step; [done..|by apply idle_pc_ok].
    leader_move f (@None Stage) false (evolve_leave r).
Qed.

(** A step of a task that leads nothing, before or after, and may change the client. *)
Lemma request_quiet sh c tasks leaders i t t' :
  tasks !! i = Some t → lead_of t = None →
  refresh_pc t' = None ∨ refresh_pc t' = Some RStart →
  world_ok sh tasks leaders → world_ok (set_client c sh) (<[i := t']> tasks) leaders.
Proof.
  intros Hi Hlead Ht' Hok. eapply (quiet_ok (set_client c sh)); [done| | |by apply set_client_ok].
  - rewrite Hlead. unfold lead_of. by destruct Ht' as [-> | ->].
  - intros pc Hpc. destruct Ht' as [Ht'|Ht']; rewrite Ht' in Hpc; simplify_eq. by apply idle_pc_ok.
Qed.

Lemma set_client_same sh : set_client (sh_client sh) sh = sh.
Proof. by destruct sh. Qed.

Lemma request_step_ok sh retry_once original q e sh' q' tasks leaders i sent :
  tasks !! i = Some (TRequest retry_once original q) →
  request_step base retry_once sh q e sh' q' → world_ok sh tasks leaders →
  ∃ leaders', world_ok sh'
    (perform i e (<[i := TRequest retry_once original q']> tasks) sent).1 leaders'.
Proof.
  intros Hi Hstep Hok.
  destruct Hstep as [sh request request' token c Ha|sh request err c Ha|sh request token response
    |sh request token active c Ha|sh request token err c Ha|sh request pc e sh' pc' Hstep
    |sh request f r|sh request request' token c Ha|sh request err c Ha|sh request response|sh q Hq|sh q Hq];
    cbn [perform fst].
  6: by eapply refresh_step_ok.
  1,2,5,7,8: exists leaders; eapply request_quiet; try done; by left.
  2: exists leaders; eapply request_quiet; try done; destruct active; [by right|by left].
  4: exists leaders; eapply request_quiet; try done; [by destruct q|by left].
  all: exists leaders; rewrite <- (set_client_same sh); eapply request_quiet; try done; try by left.
  - destruct response as [r|]; simpl; [|by left]. destruct (_ && _); by left.
  - by destruct r; left.
  - by destruct q.
Qed.

Lemma spawn_ok sh tasks leaders t :
  refresh_pc t = None ∨ refresh_pc t = Some RStart →
  world_ok sh tasks leaders → world_ok sh (tasks ++ [t]) leaders.
Proof.
  intros Ht [Hf Hts Hl]. constructor; [done| |].
  - intros i ti pc [Hi|[_ Hi]]%lookup_app_Some Hpc; [by eapply Hts|].
    apply list_lookup_singleton_Some in Hi as [_ <-].
    destruct Ht as [Ht|Ht]; rewrite Ht in Hpc; simplify_eq. by apply idle_pc_ok.
  - intros f i st Hfi. destruct (Hl f i st Hfi) as (ti & Hi & Hlead). exists ti.
    split; [by apply lookup_app_l_Some|done].
Qed.

(** Some assignment of leaders fits the world. *)
Definition flights_ok (w : World S) : Prop := ∃ leaders, world_ok (w_shared w) (w_tasks w) leaders.

Lemma client_step_ok w w' : flights_ok w → world_step base w w' → flights_ok w'.
Proof.
  intros [leaders Hok] Hstep.
  destruct Hstep as [sh tasks sent i t e sh' t' Hi Ht|sh tasks sent|sh tasks sent retry_once request
    |sh tasks sent tokens|sh tasks sent|sh tasks sent|sh tasks sent tokens|sh tasks sent|sh tasks sent]; simpl in *.
  - destruct Ht as [sh pc e sh' pc' Hs|sh retry_once original q e sh' q' Hs].
    + by eapply refresh_step_ok.
    + by eapply request_step_ok.
  - exists leaders. apply spawn_ok; [by right|done].
  - exists leaders. apply spawn_ok; [by left|done].
  - exists leaders. by apply set_client_ok.
  - exists leaders. by apply set_client_ok.
  - exists leaders. by apply set_client_ok.
  - exists leaders. by apply set_client_ok.
  - exists leaders. by apply set_client_ok.
  - exists leaders. by apply set_client_ok.
Qed.

Lemma client_init_ok c : flights_ok (world_init c).
Proof. exists ∅. by constructor. Qed.

Lemma reachable_ok c w : rtc (world_step base) (world_init c) w → flights_ok w.
Proof. intros Hw. eapply rtc_invariant; [exact client_step_ok|done|apply client_init_ok]. Qed.
End invariant.

(** ** The active pair and the stored one *)

Section agreement.
Context `{UrlEdit} {S : Type} `{CredentialStore S} (L : StoreLaws S).
Context {V : Type} `{JsonValue V, BodyDecoder V, AuthCodec V} (base : Url).
Implicit Types (sh : Shared S).

Lemma refresh_begin_client (c : Client S) :
  (refresh_begin base c).2 = (load_credentials c).2.
Proof.
  unfold refresh_begin, se_bind. destruct (load_credentials c) as [[a|e] c']; [|done]. simpl.
  unfold se_lift. destruct (ok_or _ a); [|done]. by destruct (json_request _ _ _ _ _).
Qed.

Lemma authorize_client request (c : Client S) : (authorize request c).2 = (load_credentials c).2.
Proof.
  unfold authorize, se_bind. destruct (load_credentials c) as [[a|e] c']; [|done]. simpl.
  unfold se_lift. destruct (ok_or _ a); [|done]. by destruct (built _ _).
Qed.

Lemma still_active_client sent (c : Client S) : (still_active sent c).2 = (load_credentials c).2.
Proof. unfold still_active, se_bind. by destruct (load_credentials c) as [[a|e] c']. Qed.

Lemma authorized_consistent request r (c c' : Client S) :
  authorize request c = (r, c') → consistent L c → consistent L c'.
Proof.
  intros Ha Hc. pose proof (authorize_client request c) as Hr. rewrite Ha in Hr. simpl in Hr.
  rewrite Hr. by apply load_consistent.
Qed.

Lemma compared_consistent sent r (c c' : Client S) :
  still_active sent c = (r, c') → consistent L c → consistent L c'.
Proof.
  intros Ha Hc. pose proof (still_active_client sent c) as Hr. rewrite Ha in Hr. simpl in Hr.
  rewrite Hr. by apply load_consistent.
Qed.

Lemma refresh_step_consistent sh pc e sh' pc' :
  refresh_step base sh pc e sh' pc' → e ≠ Tear → consistent L (sh_client sh) → consistent L (sh_client sh').
Proof.
  intros Hstep He Hc. destruct Hstep as [sh sh' pc' Henter|sh f current request c Hb|sh f err c Hb|sh f current response
    |sh f current response r c Hb|sh f r|sh f r|sh f r|sh f|sh f woken|sh f woken|sh f
    |sh f pc Hpcs|sh f|sh f current response c Hb|sh f|sh pc Hpcs]; try done.
  - unfold enter_gate in Henter. repeat case_match; by simplify_eq/=.
  - pose proof (refresh_begin_client (sh_client sh)) as Hr. rewrite Hb in Hr. simpl in *. rewrite Hr. by apply load_consistent.
  - pose proof (refresh_begin_client (sh_client sh)) as Hr. rewrite Hb in Hr. simpl in *. rewrite Hr. by apply load_consistent.
  - pose proof (refresh_commit_outcome L current response (sh_client sh)) as Ho.
    rewrite Hb in Ho. by eapply commit_consistent.
  - unfold publish. by case_match.
  - unfold leave_gate. by case_bool_decide.
  - unfold cancel. by case_match.
  - unfold cancel. case_match; by apply torn_load_consistent.
Qed.

Lemma request_step_consistent retry_once sh q e sh' q' :
  request_step base retry_once sh q e sh' q' → e ≠ Tear → consistent L (sh_client sh) → consistent L (sh_client sh').
Proof.
  intros Hstep He Hc. destruct Hstep; try done;
    try (by eapply authorized_consistent); try (by eapply compared_consistent).
  - by eapply refresh_step_consistent.
  - by apply torn_load_consistent.
Qed.

(** As long as no section is dropped half-way. *)
Lemma consistent_step w w' :
  world_step base w w' → (TornSection ∉ w_sent w → consistent L (sh_client (w_shared w))) →
  TornSection ∉ w_sent w' → consistent L (sh_client (w_shared w')).
Proof.
  intros Hstep Hc Hno. destruct Hstep as [sh tasks sent i t e sh' t' Hi Ht|sh tasks sent|sh tasks sent retry_once request
    |sh tasks sent tokens|sh tasks sent|sh tasks sent|sh tasks sent tokens|sh tasks sent|sh tasks sent]; simpl in *;
    try (by apply Hc); try (rewrite elem_of_app in Hno; destruct Hno; right; by constructor).
  - assert (e ≠ Tear ∧ TornSection ∉ sent) as [He Hs].
    { split; [intros ->; apply Hno; apply elem_of_app; right; by constructor|]. intros Hin. apply Hno.
      destruct e; simpl; try done; apply elem_of_app; by left. }
    destruct Ht as [sh pc e sh' pc' Hs'|sh retry_once original q e sh' q' Hs'].
    + eapply refresh_step_consistent; [exact Hs'|done|by apply Hc].
    + eapply request_step_consistent; [exact Hs'|done|by apply Hc].
  - by apply set_consistent, Hc.
  - by apply clear_consistent, Hc.
  - by apply load_consistent, Hc.
  - by apply torn_load_consistent, Hc.
Qed.

Lemma consistent_run c w :
  consistent L c → rtc (world_step base) (world_init c) w → TornSection ∉ w_sent w → consistent L (sh_client (w_shared w)).
Proof.
  intros Hc Hw. eapply (rtc_invariant (world_step base)
    (λ w, TornSection ∉ w_sent w → consistent L (sh_client (w_shared w)))); [intros w1 w2 Hc1 Hs; by eapply consistent_step|exact Hw|done].
Qed.

(** A refresh that is dropped after it has stored the new pair. *)
Lemma torn_commit_rotated current response tokens (c : Client S) :
  token_state c = Some current → rotated response tokens → torn_commit current response c = Some (torn_save tokens c).
Proof.
  intros Ht (answer & decoded & -> & Hd & Hf). unfold torn_commit. rewrite bool_decide_eq_false_2 by (rewrite Ht; tauto).
  rewrite Hd. cbn. by rewrite Hf.
Qed.
End agreement.

(** ** What one request sends *)

Section sends.
Context `{UrlEdit} {S : Type} `{CredentialStore S} {V : Type} `{JsonValue V, BodyDecoder V, AuthCodec V}
  (base : Url).

(** The same request, but for its Authorization header. *)
Definition retry_of (original request : HttpRequest) : Prop :=
  rq_method request = rq_method original ∧ rq_url request = rq_url original ∧
  rq_body request = rq_body original ∧
  delete (to_ascii_lowercase AUTHORIZATION) (rq_headers request)
  = delete (to_ascii_lowercase AUTHORIZATION) (rq_headers original).

Definition sends (i : nat) (log : list SentLog) : list HttpRequest :=
  omap (λ entry, match entry with
                 | SentRequest j request => if bool_decide (j = i) then Some request else None
                 | SentRefresh _ _ | TornSection => None
                 end) log.

Definition refreshes (i : nat) (log : list SentLog) : list HttpRequest :=
  omap (λ entry, match entry with
                 | SentRefresh j request => if bool_decide (j = i) then Some request else None
                 | SentRequest _ _ | TornSection => None
                 end) log.

(** What a request has sent, by where it is. *)
Definition sends_ok (retry_once : bool) (original : HttpRequest) (sent : list HttpRequest)
    (q : RequestPc) : Prop :=
  Forall (retry_of original) sent ∧
  match q with
  | QLoad request => sent = [] ∧ retry_of original request
  | QSend request _ => length sent = 1%nat ∧ retry_of original request
  | QCompare request _ | QRefresh request _ | QRetry request =>
      length sent = 1%nat ∧ retry_of original request ∧ retry_once = true
  | QResend _ => length sent = 2%nat ∧ retry_once = true
  | QDone _ | QDropped => (length sent ≤ if retry_once then 2 else 1)%nat
  end.

(** What a task has sent to the refresh endpoint. *)
Definition refreshes_ok (sent : list HttpRequest) (pc : option RefreshPc) : Prop :=
  (length sent ≤ match pc with Some RStart | Some (RLoad _) => 0 | _ => 1 end)%nat.

(** The tasks that cannot have sent one: a request that may not be retried, or one
    before its refresh. *)
Definition before_refresh (t : Task) : bool :=
  match t with
  | TRequest retry_once _ q =>
      negb retry_once || match q with QLoad _ | QSend _ _ | QCompare _ _ => true | _ => false end
  | TRefresh _ => false
  end.

Definition log_ok (w : World S) : Prop :=
  (∀ i retry_once original q, w_tasks w !! i = Some (TRequest retry_once original q) →
     sends_ok retry_once original (sends i (w_sent w)) q) ∧
  (∀ i t, w_tasks w !! i = Some t →
     refreshes_ok (refreshes i (w_sent w)) (refresh_pc t) ∧
     (before_refresh t = true → refreshes i (w_sent w) = [])) ∧
  (∀ i, (length (w_tasks w) ≤ i)%nat → sends i (w_sent w) = [] ∧ refreshes i (w_sent w) = []).

Lemma retry_of_refl request : retry_of request request.
Proof. done. Qed.

Lemma authorize_retry_of original request request' token (c c' : Client S) :
  authorize request c = (Ok (request', token), c') → retry_of original request →
  retry_of original request'.
Proof.
  unfold authorize. intros Ha (Hm & Hu & Hb & Hh).
  apply se_bind_ok in Ha as (active & c1 & _ & Ha). apply se_bind_ok in Ha as (tokens & c2 & _ & Ha).
  apply se_bind_ok in Ha as (r & c3 & Hr & Ha). injection Ha as <- _ _. injection Hr as Hr _.
  unfold built in Hr.
  destruct (set_header_cases AUTHORIZATION (bearer (access_token tokens)) request)
    as [(_ & _ & _ & Heq)|[_ Heq]]; rewrite Heq in Hr; simplify_eq.
  unfold retry_of. simpl. by rewrite delete_insert_eq.
Qed.

Lemma sends_app i log log' : sends i (log ++ log') = sends i log ++ sends i log'.
Proof. unfold sends. by rewrite omap_app. Qed.

Lemma refreshes_app i log log' : refreshes i (log ++ log') = refreshes i log ++ refreshes i log'.
Proof. unfold refreshes. by rewrite omap_app. Qed.

(** The log entries that an effect adds. *)
Definition sent_by (i : nat) (e : Effect) : list SentLog :=
  match e with
  | SendRefresh request => [SentRefresh i request]
  | SendRequest request => [SentRequest i request]
  | Tear => [TornSection]
  | _ => []
  end.

Lemma perform_sent i e tasks log : (perform i e tasks log).2 = log ++ sent_by i e.
Proof. destruct e; simpl; by rewrite ?app_nil_r. Qed.

Lemma perform_lookup i e tasks log j t :
  (perform i e tasks log).1 !! j = Some t →
  ∃ t0, tasks !! j = Some t0 ∧ (t = t0 ∨ ∃ f, t = wake f t0).
Proof.
  destruct e; simpl; eauto. rewrite list_lookup_fmap. intros (t0 & Ht0 & ->)%fmap_Some. eauto.
Qed.

(** Waking a task does not change what it may have sent. *)
Lemma wake_sends retry_once original q f t :
  TRequest retry_once original q = wake f t →
  ∃ q0, t = TRequest retry_once original q0 ∧ ∀ sent,
    sends_ok retry_once original sent q0 → sends_ok retry_once original sent q.
Proof. destruct t as [|? ? []]; intros; simplify_eq/=; eauto. Qed.

Lemma wake_refreshes f t sent :
  refreshes_ok sent (refresh_pc t) → refreshes_ok sent (refresh_pc (wake f t)).
Proof.
  unfold refreshes_ok. rewrite refresh_pc_wake. by destruct (refresh_pc t) as [[]|].
Qed.

Lemma wake_before f t : before_refresh (wake f t) = before_refresh t.
Proof. by destruct t as [|? ? []]. Qed.

(** What a step of [refresh_access] adds to the log. *)
Lemma refresh_step_sent i sh pc e sh' pc' sent :
  refresh_step base sh pc e sh' pc' → refreshes_ok sent (Some pc) →
  sends i (sent_by i e) = [] ∧ refreshes_ok (sent ++ refreshes i (sent_by i e)) (Some pc').
Proof.
  unfold refreshes_ok, enter_gate. intros Hstep Hok.
  destruct Hstep; simpl in *; rewrite ?length_app; unfold refreshes; simpl;
    rewrite ?bool_decide_eq_true_2 by done; simpl; (split; [done|]); try lia.
  all: repeat case_match; simplify_eq; lia.
Qed.

(** What a step of [send_request] adds to the log. *)
Lemma request_step_sent i retry_once original sh q e sh' q' sent :
  request_step base retry_once sh q e sh' q' →
  sends_ok retry_once original sent q →
  sends_ok retry_once original (sent ++ sends i (sent_by i e)) q'.
Proof.
  unfold sends_ok. intros Hstep [Hall Hq].
  assert (∀ request, sends i (sent_by i (SendRequest request)) = [request]) as Hone
    by (intros; unfold sends; simpl; by rewrite bool_decide_eq_true_2).
  assert (∀ pc sh pc' e sh', refresh_step base sh pc e sh' pc' → sends i (sent_by i e) = []) as Hnone.
  { intros pc sh0 pc' e0 sh0' Hs. by destruct Hs. }
  destruct Hstep as [sh request request' token c Ha|sh request err c Ha|sh request token response
    |sh request token active c Ha|sh request token err c Ha|sh request pc e sh' pc' Hstep
    |sh request f r|sh request request' token c Ha|sh request err c Ha|sh request response|sh q Hq'|sh q Hq'];
    rewrite ?Hone, ?(eq_refl : sends i (sent_by i Silent) = []), ?app_nil_r; destruct_and?.
  - subst. assert (retry_of original request') by (by eapply authorize_retry_of).
    split; [by constructor|done].
  - subst. split; [done|]. destruct retry_once; simpl; lia.
  - split; [done|]. unfold first_answer. destruct response as [response|].
    + destruct (_ =? _), retry_once; simpl; [done|lia..].
    + destruct retry_once; lia.
  - split; [done|]. by destruct active.
  - split; [done|]. subst. lia.
  - rewrite (Hnone _ _ _ _ _ Hstep), app_nil_r. done.
  - split; [done|]. subst. destruct r; [done|lia].
  - subst. assert (retry_of original request') by (by eapply authorize_retry_of).
    split; [apply Forall_app; split; [done|by constructor]|].
    rewrite length_app. simpl. split; [lia|done].
  - split; [done|]. subst. lia.
  - split; [done|]. subst. lia.
  - split; [done|]. destruct q; try done; destruct_and?; subst; simpl; try destruct retry_once; simpl; lia.
  - split; [done|]. destruct q; try done; destruct_and?; subst; simpl; try destruct retry_once; simpl; lia.
Qed.

Lemma sent_by_other i j e :
  j ≠ i → sends j (sent_by i e) = [] ∧ refreshes j (sent_by i e) = [].
Proof.
  intros Hne. unfold sends, refreshes. destruct e; simpl; rewrite ?bool_decide_eq_false_2 by done; done.
Qed.

Lemma perform_length i e tasks log : length (perform i e tasks log).1 = length tasks.
Proof. destruct e; simpl; by rewrite ?length_map. Qed.

(** What one task's own step adds, in the three parts of the invariant. *)
Definition task_log_ok (sends_of refreshes_of : list HttpRequest) (t : Task) : Prop :=
  (∀ retry_once original q, t = TRequest retry_once original q →
     sends_ok retry_once original sends_of q) ∧
  refreshes_ok refreshes_of (refresh_pc t) ∧ (before_refresh t = true → refreshes_of = []).

Lemma refreshes_none pc : refreshes_ok [] pc.
Proof. unfold refreshes_ok. simpl. lia. Qed.

Lemma task_step_log i sh t e sh' t' sends_of refreshes_of :
  task_step base sh t e sh' t' → task_log_ok sends_of refreshes_of t →
  task_log_ok (sends_of ++ sends i (sent_by i e)) (refreshes_of ++ refreshes i (sent_by i e)) t'.
Proof.
  intros [sh0 pc e0 sh1 pc' Hs|sh0 retry_once original q e0 sh1 q' Hs] (Hsends & Href & Hbefore).
  - destruct (refresh_step_sent i _ _ _ _ _ refreshes_of Hs Href) as [_ Href'].
    split; [by intros|split; [exact Href'|done]].
  - split; [intros ? ? ? [= <- <- <-]; eapply request_step_sent; [done|by apply Hsends]|].
    assert (∀ request, refreshes i (sent_by i (SendRequest request)) = []) as Hnone by done.
    destruct Hs as [| | |sh0 request token active c Ha| |sh0 request pc e0 sh1 pc' Hs|sh0 request f r| | | |sh0 q Hq|sh0 q Hq];
      rewrite ?Hnone, ?(eq_refl : refreshes i (sent_by i Silent) = []), ?app_nil_r; simpl in *;
      rewrite ?orb_true_r in *.
    all: try (rewrite Hbefore by done; split; [apply refreshes_none|done]).
    + split; [by destruct (refresh_step_sent i _ _ _ _ _ refreshes_of Hs Href)|].
      destruct (Hsends _ _ _ eq_refl) as [_ (_ & _ & ->)]. done.
    + split; [by destruct r|]. by destruct r.
    + done.
    + done.
    + done.
    + split; [by destruct q|]. by destruct q, retry_once.
    + split; [by destruct q|]. by destruct q, retry_once.
Qed.

Lemma wake_log_ok sends_of refreshes_of f t :
  task_log_ok sends_of refreshes_of t → task_log_ok sends_of refreshes_of (wake f t).
Proof.
  intros (Hsends & Href & Hbefore). split_and!.
  - intros retry_once original q (q0 & -> & Hq)%eq_sym%wake_sends. apply Hq. by apply Hsends.
  - by apply wake_refreshes.
  - by rewrite wake_before.
Qed.

Lemma log_ok_tasks w :
  log_ok w ↔
  (∀ i t, w_tasks w !! i = Some t → task_log_ok (sends i (w_sent w)) (refreshes i (w_sent w)) t) ∧
  (∀ i, (length (w_tasks w) ≤ i)%nat → sends i (w_sent w) = [] ∧ refreshes i (w_sent w) = []).
Proof.
  unfold log_ok, task_log_ok. split.
  - intros (Ha & Hb & Hc). split; [|done]. intros i t Hi. split; [|by apply Hb].
    intros ? ? ? ->. by apply Ha.
  - intros [Ha Hc]. split_and!; [|intros i t Hi; by apply Ha|done].
    intros i ? ? ? Hi. by apply (Ha i _ Hi).
Qed.

Lemma log_step_ok w w' : log_ok w → world_step base w w' → log_ok w'.
Proof.
  rewrite !log_ok_tasks. intros [Ht Hfresh] Hstep.
  destruct Hstep as [sh tasks sent i t e sh' t' Hi Hs|sh tasks sent|sh tasks sent retry_once request
    |sh tasks sent tokens|sh tasks sent|sh tasks sent|sh tasks sent tokens|sh tasks sent|sh tasks sent]; simpl in *; try done.
  - rewrite perform_sent. split.
    + intros j tj Hj. apply perform_lookup in Hj as (t0 & Hj & Htj).
      assert (task_log_ok (sends j (sent ++ sent_by i e)) (refreshes j (sent ++ sent_by i e)) t0) as Hok.
      { rewrite sends_app, refreshes_app.
        apply list_lookup_insert_Some in Hj as [(<- & <- & _)|[Hne Hj]].
        - eapply task_step_log; [done|by apply Ht].
        - destruct (sent_by_other i j e) as [-> ->]; [done|]. rewrite !app_nil_r. by apply Ht. }
      destruct Htj as [->|[f ->]]; [done|by apply wake_log_ok].
    + intros j. rewrite perform_length, length_insert. intros Hj.
      rewrite sends_app, refreshes_app. destruct (Hfresh j Hj) as [-> ->].
      apply sent_by_other. apply lookup_lt_Some in Hi. lia.
  - split; [|intros i; rewrite length_app; simpl; intros; apply Hfresh; lia].
    intros i t [Hi|[Hlen Hi]]%lookup_app_Some; [by apply Ht|].
    apply list_lookup_singleton_Some in Hi as [_ <-]. destruct (Hfresh i Hlen) as [-> ->].
    split_and!; [done|apply refreshes_none|done].
  - split; [|intros i; rewrite length_app; simpl; intros; apply Hfresh; lia].
    intros i t [Hi|[Hlen Hi]]%lookup_app_Some; [by apply Ht|].
    apply list_lookup_singleton_Some in Hi as [_ <-]. destruct (Hfresh i Hlen) as [-> ->].
    split_and!; [|apply refreshes_none|done]. intros ? ? ? [= <- <- <-]. split; [done|]. by split.
  - split; [intros i t Hi|intros i Hi]; rewrite sends_app, refreshes_app; cbn; rewrite !app_nil_r; first [by apply Ht|by apply Hfresh].
  - split; [intros i t Hi|intros i Hi]; rewrite sends_app, refreshes_app; cbn; rewrite !app_nil_r; first [by apply Ht|by apply Hfresh].
Qed.
End sends.

(** ** A flight that never leaves the gate *)

Section stale.
Context `{UrlEdit} {S : Type} `{CredentialStore S} {V : Type} `{JsonValue V, BodyDecoder V, AuthCodec V}
  (base : Url).

(** Where calls can be once the gate holds the finished flight [f] for good. *)
Definition stale_pc (f : nat) (r : result HttpError TokenPair) (pc : RefreshPc) : Prop :=
  match pc with
  | RStart | RDropped => True
  | RJoin g | RCheck g _ | RRead g _ | RWait g _ => g = f
  | RDone g r' => g = f ∧ r' = r
  | _ => False
  end.

Definition stale (f : nat) (r : result HttpError TokenPair) (w : World S) : Prop :=
  refresh_gate (w_shared w) = Some f ∧
  sh_flights (w_shared w) !! f = Some (mkFlight (Some r) false) ∧
  ∀ i t pc, w_tasks w !! i = Some t → refresh_pc t = Some pc → stale_pc f r pc.

(** No call of [refresh_access] is under way. *)
Definition no_refresh (t : Task) : Prop :=
  refresh_pc t = None ∨ refresh_pc t = Some RStart ∨ refresh_pc t = Some RDropped.

Lemma stale_wake f r g pc : stale_pc f r pc → stale_pc f r (wake_pc g pc).
Proof. by destruct pc. Qed.

Lemma stale_refresh_step f r sh pc e sh' pc' :
  refresh_gate sh = Some f → sh_flights sh !! f = Some (mkFlight (Some r) false) →
  refresh_step base sh pc e sh' pc' → stale_pc f r pc →
  sh' = sh ∧ stale_pc f r pc' ∧ e = Silent.
Proof.
  intros Hg Hf Hstep Hpc.
  destruct Hstep as [sh sh' pc' Henter| | | | | | | |sh g|sh g woken|sh g woken|sh g|sh g pc Hlead| | | |sh pc Hpcs];
    simpl in Hpc; try done.
  - unfold enter_gate in Henter. rewrite Hg, Hf in Henter. by simplify_eq/=.
  - subst g. unfold cancelled. by rewrite Hf.
  - subst g. unfold published. by rewrite Hf.
  - subst g. unfold published. by rewrite Hf.
  - by destruct Hlead as [->|[[? ->]|[(? & ? & ->)|[? ->]]]].
Qed.

Lemma stale_request_step f r retry_once sh q e sh' q' pc' :
  refresh_gate sh = Some f → sh_flights sh !! f = Some (mkFlight (Some r) false) →
  request_step base retry_once sh q e sh' q' →
  (∀ request pc, q = QRefresh request pc → stale_pc f r pc) →
  (∃ c, sh' = set_client c sh) ∧ (∀ g, e ≠ Notify g) ∧ (∀ request, e ≠ SendRefresh request) ∧
  (refresh_pc (TRequest retry_once pc' q') = None ∨
   ∃ request pc, q' = QRefresh request pc ∧ stale_pc f r pc).
Proof.
  intros Hg Hf Hstep Hpc.
  assert (sh = set_client (sh_client sh) sh) as Hid by (by destruct sh).
  destruct Hstep as [| |sh request token response|sh request token active c Ha| |sh request pc e sh' pc1 Hs
    |sh request g res| | | |sh q Hq|sh q Hq].
  1,2,5,8,9,10,11: split_and!; [by eexists|done|done|by left].
  - split_and!; [by eexists|done|done|]. left. unfold first_answer. by repeat case_match.
  - split_and!; [by eexists|done|done|]. destruct active; [right; by eexists _, _|by left].
  - destruct (stale_refresh_step _ _ _ _ _ _ _ Hg Hf Hs (Hpc _ _ eq_refl)) as (-> & Hpc1 & ->).
    split_and!; [by eexists|done|done|]. right. by eexists _, _.
  - split_and!; [by eexists|done|done|]. left. by destruct res.
  - split_and!; [by eexists|done|done|by left].
Qed.

Lemma stale_step f r w w' :
  stale f r w → world_step base w w' →
  stale f r w' ∧ ∀ i request, SentRefresh i request ∈ w_sent w' → SentRefresh i request ∈ w_sent w.
Proof.
  intros (Hg & Hf & Hpcs) Hstep.
  destruct Hstep as [sh tasks sent i t e sh' t' Hi Hs|sh tasks sent|sh tasks sent retry_once request
    |sh tasks sent tokens|sh tasks sent|sh tasks sent|sh tasks sent tokens|sh tasks sent|sh tasks sent]; simpl in *;
    [|split; [|set_solver]; split_and!; try done..].
  - assert ((∃ c, sh' = set_client c sh) ∧ (∀ g, e ≠ Notify g) ∧ (∀ request, e ≠ SendRefresh request) ∧
      ∀ pc, refresh_pc t' = Some pc → stale_pc f r pc) as ([c ->] & Hn & Hr & Ht').
    { destruct Hs as [sh pc e sh' pc' Hs|sh retry_once original q e sh' q' Hs].
      - destruct (stale_refresh_step _ _ _ _ _ _ _ Hg Hf Hs (Hpcs _ _ _ Hi eq_refl)) as (-> & Hpc & ->).
        split_and!; [exists (sh_client sh); by destruct sh|done|done|]. by intros ? [= <-].
      - destruct (stale_request_step f r _ _ _ _ _ _ original Hg Hf Hs) as (Hc & Hn & Hr & Hq).
        { intros request pc ->. exact (Hpcs _ _ _ Hi eq_refl). }
        split_and!; [done..|]. intros pc Hpc. destruct Hq as [Hq|(request & pc0 & -> & Hq)].
        + by destruct q'.
        + by simplify_eq/=. }
    split; [split_and!; [done..|]|].
    + intros j tj pc Hj Hpc. assert (<[i := t']> tasks !! j = Some tj) as Hj'.
      { destruct e; simpl in Hj; try done. by destruct (Hn f0). }
      apply list_lookup_insert_Some in Hj' as [(<- & <- & _)|[_ Hj']]; eauto.
    + intros j request. rewrite perform_sent. rewrite elem_of_app. intros [?|Hin]; [done|].
      destruct e; simpl in Hin; try by apply elem_of_nil in Hin.
      * by destruct (Hr request0).
      * by apply list_elem_of_singleton in Hin.
      * by apply list_elem_of_singleton in Hin.
  - intros i t pc [Hi|[_ [_ <-]%list_lookup_singleton_Some]]%lookup_app_Some; [by eapply Hpcs|].
    by intros [= <-].
  - intros i t pc [Hi|[_ [_ <-]%list_lookup_singleton_Some]]%lookup_app_Some; [by eapply Hpcs|done].
Qed.

Lemma stale_runs f r w w' :
  rtc (world_step base) w w' → stale f r w →
  stale f r w' ∧ ∀ i request, SentRefresh i request ∈ w_sent w' → SentRefresh i request ∈ w_sent w.
Proof.
  induction 1 as [w|w w1 w' Hstep _ IH]; intros Hw; [done|].
  destruct (stale_step _ _ _ _ Hw Hstep) as [Hw1 Hs]. destruct (IH Hw1) as [Hw' Hs']. split; [done|].
  intros i request Hin. by apply Hs, Hs'.
Qed.
End stale.

(** ** Theorems *)

Section theorems.
Context `{UrlEdit} {S : Type} `{CredentialStore S} {V : Type} `{JsonValue V, BodyDecoder V, AuthCodec V}
  (base : Url).

(** C18: one refresh at a time. Whatever requests, refreshes, logins and logouts interleave
    and wherever their futures are dropped, inside the sections of the credential gate
    too: at most one call is between taking the gate and publishing its result, so at most
    one refresh request is in flight, and every call that returns has the result its
    flight's leader published, or [AuthExpired] when that leader was dropped. And as long as
    no save or clear of the store has been dropped half-way, the active pair is the
    stored one ([torn_refresh_loses_session] is what happens otherwise). *)
Theorem refresh_single_flight (L : StoreLaws S) (c : Client S) (w : World S) :
  rtc (world_step base) (world_init c) w →
  (∀ i j ti tj f g, w_tasks w !! i = Some ti → w_tasks w !! j = Some tj →
     lead_of ti = Some (f, Running) → lead_of tj = Some (g, Running) → i = j) ∧
  (∀ i t f r, w_tasks w !! i = Some t → refresh_pc t = Some (RDone f r) →
     ∃ flight, sh_flights (w_shared w) !! f = Some flight ∧ done_ok flight r) ∧
  (consistent L c → TornSection ∉ w_sent w → consistent L (sh_client (w_shared w))).
Proof.
  intros Hw. destruct (reachable_ok base c w Hw) as [leaders Hok]. split_and!.
  - intros i j ti tj f g Hi Hj Hti Htj.
    assert (∀ k t h, w_tasks w !! k = Some t → lead_of t = Some (h, Running) →
      leaders !! h = Some (k, Running) ∧ refresh_gate (w_shared w) = Some h) as Hlead.
    { intros k t h Hk Ht. unfold lead_of in Ht. destruct (refresh_pc t) as [pc|] eqn:Hpc; [|done].
      pose proof (wo_tasks _ _ _ Hok _ _ _ Hk Hpc) as Hpck.
      destruct (leader_flight _ _ _ _ _ _ _ Hok Hpck Ht) as (flight & _ & Hgate & _).
      split; [|done]. by apply (proj1 Hpck). }
    destruct (Hlead i ti f Hi Hti), (Hlead j tj g Hj Htj). by simplify_eq.
  - intros i t f r Hi Hpc. destruct (wo_tasks _ _ _ Hok _ _ _ Hi Hpc) as [_ Hf]. by apply Hf.
  - intros Hc Hno. by eapply consistent_run.
Qed.

(** C26: a refresh that is dropped half-way loses the session. Dropped after the store has taken the
    new pair and before that is made active, it leaves the used pair active and the new one
    stored. The next refresh then presents the used pair again; when the server rejects
    that, the client deletes the new pair, which the server had just issued, from the store. *)
Theorem torn_refresh_loses_session (L : StoreLaws S) (current tokens : TokenPair)
    (response rejection : result HttpError HttpResponse) (c c' : Client S) :
  token_state c = Some current → rotated response tokens → is_ok (store_save tokens (credential_store c)).1 = true →
  torn_commit current response c = Some c' →
  token_state c' = Some current ∧ stored L (credential_store c') = Some tokens ∧
  (rejected rejection → is_ok (store_clear (credential_store c')).1 = true →
   let '(r, c'') := refresh_commit current rejection c' in
   r = Err HttpAuthExpired ∧ token_state c'' = None ∧ stored L (credential_store c'') = None).
Proof.
  intros Ht Hrot Hsave Hc'. rewrite (torn_commit_rotated _ _ tokens) in Hc' by done. injection Hc' as <-.
  split_and!; [done| |].
  - pose proof (save_law _ L tokens (credential_store c)) as Hlaw. cbn.
    destruct (store_save tokens (credential_store c)) as [[[]|e] s]; done.
  - intros Hrej Hclear. pose proof (refresh_commit_outcome L current rejection (torn_save tokens c)) as Ho.
    destruct (refresh_commit _ _ _) as [r c'']. destruct (co_expires _ _ _ _ _ _ Ho Ht Hrej Hclear) as (-> & -> & -> & _). done.
Qed.

(** No caller of a refresh is left waiting. In every reachable state a follower
    that sleeps on its flight and has not been woken has a leader that is still to
    publish, still to wake its followers, or is being dropped and still to do so; and
    a follower that has been woken finds the result, or the cancellation. *)
Theorem refresh_followers_woken (c : Client S) (w : World S) (i : nat) (t : Task)
    (f : nat) (woken : bool) :
  rtc (world_step base) (world_init c) w →
  w_tasks w !! i = Some t → refresh_pc t = Some (RWait f woken) →
  if woken then
    ∃ flight, sh_flights (w_shared w) !! f = Some flight ∧
      (is_Some (fl_result flight) ∨ fl_cancelled flight = true)
  else
    ∃ j leader stage, w_tasks w !! j = Some leader ∧ lead_of leader = Some (f, stage) ∧
      match stage with Leaving _ => False | _ => True end.
Proof.
  intros Hw Hi Hpc. destruct (reachable_ok base c w Hw) as [leaders Hok].
  destruct (wo_tasks _ _ _ Hok _ _ _ Hi Hpc) as [_ Hf].
  destruct (Hf f eq_refl) as (flight & Hfl & Hwoken & Hasleep). destruct woken; [by eauto|].
  specialize (Hasleep eq_refl). destruct (leaders !! f) as [[j stage]|] eqn:Hl; [|naive_solver].
  destruct (wo_leaders _ _ _ Hok _ _ _ Hl) as (leader & Hj & Hlead).
  exists j, leader, stage. split_and!; [done..|]. simpl in Hasleep. naive_solver.
Qed.

(** C19: an older refresh never overwrites a login, and clears only what the server rejects. When
    the pair that a refresh used is no longer the active one, its commit changes nothing
    and returns the active pair, or an error if there is none. When it still is: a pair is
    made active exactly if the server has answered with it and the store has taken it;
    the credentials are cleared exactly if the server has rejected the refresh with a 401
    and the store has cleared them; every other answer or failure is an error that leaves
    the active and the stored pair as they were. *)
Theorem refresh_never_overwrites_login (L : StoreLaws S) (current : TokenPair)
    (response : result HttpError HttpResponse) (c : Client S) :
  let '(r, c') := refresh_commit current response c in
  (token_state c ≠ Some current →
     c' = c ∧ match r with Ok tokens => token_state c = Some tokens | Err _ => token_state c = None end) ∧
  (token_state c = Some current →
     match r with
     | Ok tokens =>
         rotated response tokens ∧ token_state c' = Some tokens ∧ stored L (credential_store c') = Some tokens
     | Err error =>
         (token_state c' = token_state c ∧ stored L (credential_store c') = stored L (credential_store c)) ∨
         (rejected response ∧ error = HttpAuthExpired ∧
          token_state c' = None ∧ stored L (credential_store c') = None)
     end ∧
     (∀ tokens, rotated response tokens → is_ok (store_save tokens (credential_store c)).1 = true → r = Ok tokens) ∧
     (rejected response → is_ok (store_clear (credential_store c)).1 = true →
        r = Err HttpAuthExpired ∧ token_state c' = None)) ∧
  (consistent L c → consistent L c').
Proof.
  pose proof (refresh_commit_outcome L current response c) as Hout.
  destruct (refresh_commit current response c) as [r c']. split_and!.
  - apply (co_newer _ _ _ _ _ _ Hout).
  - intros Hcur. split_and!.
    + pose proof (co_result _ _ _ _ _ _ Hout Hcur) as Hr. destruct r as [tokens|error].
      * by destruct Hr as (? & ? & ? & _).
      * destruct Hr as [(? & _ & ?)|(? & ? & ? & ? & _)]; [by left|by right].
    + intros tokens. by apply (co_rotates _ _ _ _ _ _ Hout).
    + intros Hrej Hclear. by destruct (co_expires _ _ _ _ _ _ Hout Hcur Hrej Hclear) as (? & ? & _).
  - by eapply commit_consistent.
Qed.

(** C20: a request is retried at most once, and only itself. Whatever interleaves, a
    protected request is sent at most twice, once if it may not be retried; what is
    sent is the request of the caller, with the same method, URL, body and headers
    (the retry identity among them) but for the access token; and at most one refresh
    request is made on its behalf. *)
Theorem request_retried_at_most_once (c : Client S) (w : World S) (i : nat) (retry_once : bool)
    (original : HttpRequest) (q : RequestPc) :
  rtc (world_step base) (world_init c) w →
  w_tasks w !! i = Some (TRequest retry_once original q) →
  (length (sends i (w_sent w)) ≤ if retry_once then 2 else 1)%nat ∧
  Forall (retry_of original) (sends i (w_sent w)) ∧
  (length (refreshes i (w_sent w)) ≤ 1)%nat ∧
  (retry_once = false → refreshes i (w_sent w) = []).
Proof.
  intros Hw Hi.
  assert (log_ok w) as (Hsends & Hrefs & _).
  { eapply rtc_invariant; [apply (log_step_ok base)|done|]. split_and!; [done..|]. by intros. }
  destruct (Hsends _ _ _ _ Hi) as [Hall Hq]. destruct (Hrefs _ _ Hi) as [Href Hbefore].
  assert (length (refreshes i (w_sent w)) ≤ 1)%nat as Hone.
  { unfold refreshes_ok in Href. destruct (refresh_pc _) as [[]|]; lia. }
  split_and!; [|done|done|].
  - destruct q; destruct_and?;
      repeat match goal with Hs : sends _ _ = _ |- _ => rewrite Hs end;
      subst; simpl in *; try destruct retry_once; simpl; lia.
  - intros ->. by apply Hbefore.
Qed.
(** A flight can stay in the gate for ever. If a leader is dropped while it waits
    for the gate, after it has published its result, no later call of
    [refresh_access] can return anything but that old result, and no refresh request
    is ever sent again, whatever logins and logouts follow. *)
Theorem stale_flight_is_permanent (c : Client S) (sh : Shared S)
    (tasks : list Task) (log : list SentLog) (i f : nat) (r : result HttpError TokenPair) :
  rtc (world_step base) (world_init c) (mkWorld sh tasks log) →
  tasks !! i = Some (TRefresh (RGate f r)) →
  (∀ j t, j ≠ i → tasks !! j = Some t → no_refresh t) →
  let dropped := mkWorld sh (<[i := TRefresh RDropped]> tasks) log in
  world_step base (mkWorld sh tasks log) dropped ∧
  ∀ w', rtc (world_step base) dropped w' →
    (∀ j t g r', w_tasks w' !! j = Some t → refresh_pc t = Some (RDone g r') → r' = r) ∧
    (∀ j request, SentRefresh j request ∈ w_sent w' → SentRefresh j request ∈ log).
Proof.
  intros Hw Hi Hothers dropped. destruct (reachable_ok base c _ Hw) as [leaders Hok].
  split.
  - apply (world_task base sh tasks log i (TRefresh (RGate f r)) Silent sh); [done|].
    constructor. apply refresh_drop. eauto.
  - intros w' Hw'.
    assert (stale f r dropped) as Hstale.
    { pose proof (wo_tasks _ _ _ Hok _ _ _ Hi eq_refl) as Hpc. simpl in Hpc.
      destruct (leader_flight _ _ _ _ _ _ _ Hok Hpc eq_refl) as (fl & Hfl & Hgate & ->).
      split_and!; [done..|]. intros j t pc [(<- & <- & _)|[Hne Hj]]%list_lookup_insert_Some Hp.
      - by simplify_eq/=.
      - destruct (Hothers j t) as [Hn|[Hn|Hn]]; try done; rewrite Hn in Hp; by simplify_eq. }
    destruct (stale_runs base f r _ _ Hw' Hstale) as [(_ & _ & Hpcs) Hlog]. split; [|done].
    intros j t g r' Hj Hp. by destruct (Hpcs _ _ _ Hj Hp).
Qed.
End theorems.

(** ** A concrete client, for the witnesses *)

Module ToyClient.
#[export] Instance body : BodyDecoder Toy.value := {|
  envelope_from_slice bytes :=
    match bytes with [] => Err "empty"%string | _ => Ok (Envelope.success (Toy.Str "tokens")) end;
|}.

#[export] Instance codec : AuthCodec Toy.value := {|
  refresh_response_from _ := Ok (mkRefreshResponse "access2" "refresh2" 60);
  refresh_request_to_vec token := Ok (str_bytes token);
|}.

Definition laws : StoreLaws (option TokenPair).
Proof. refine {| stored s := s |}; by intros. Defined.

Definition tokens : TokenPair := mkTokenPair "access1" "refresh1" 60.
Definition anonymous : Client (option TokenPair) := client_new None.
Definition known : Client (option TokenPair) := mkClient (Some tokens) (Some tokens) true.
Definition answer : HttpResponse := response_new 200 [] [1].
End ToyClient.

#[local] Existing Instance ToyUrl.lib.
#[local] Existing Instance ToyUrl.edit.
#[local] Existing Instance Toy.value_json.
#[local] Existing Instance ToyClient.body.
#[local] Existing Instance ToyClient.codec.
#[local] Existing Instance MemoryCredentialStore.

Definition toy_base : @Url ToyUrl.lib := "http://example.org/api/v0/"%string.

(** The world while its only task is at [pc], and some steps of it. *)
Definition toy_shared (c : Client (option TokenPair)) (flight : Flight) : Shared (option TokenPair) :=
  mkShared c (Some 0%nat) [flight].

Definition toy_failed : result HttpError TokenPair := Err HttpAuthenticationRequired.

Definition toy_loaded : Client (option TokenPair) := mkClient None None true.

Lemma toy_one sh pc e sh' pc' log :
  refresh_step (V:=Toy.value) toy_base sh pc e sh' pc' →
  world_step (V:=Toy.value) toy_base (mkWorld sh [TRefresh pc] log)
    (mkWorld sh' (perform 0 e [TRefresh pc'] log).1 (perform 0 e [TRefresh pc'] log).2).
Proof.
  intros Hs. apply (world_task toy_base sh [TRefresh pc] log 0 (TRefresh pc) e sh' (TRefresh pc')); [done|].
  by constructor.
Qed.

Lemma toy_gate :
  rtc (world_step (V:=Toy.value) toy_base) (world_init ToyClient.anonymous)
    (mkWorld (toy_shared toy_loaded (mkFlight (Some toy_failed) false))
       [TRefresh (RGate 0 toy_failed)] []).
Proof.
  eapply rtc_l; [apply world_refresh|].
  eapply rtc_l; [apply toy_one; by apply refresh_enter|].
  eapply rtc_l; [apply toy_one; by apply refresh_load_err|].
  eapply rtc_l; [apply toy_one; apply refresh_publish|].
  eapply rtc_l; [apply toy_one; apply refresh_notify|]. apply rtc_refl.
Qed.

Lemma stale_flight_is_permanent_witness :
  let sh := toy_shared toy_loaded (mkFlight (Some toy_failed) false) in
  let dropped := mkWorld sh [TRefresh RDropped] [] in
  world_step (V:=Toy.value) toy_base (mkWorld sh [TRefresh (RGate 0 toy_failed)] []) dropped ∧
  ∀ w', rtc (world_step (V:=Toy.value) toy_base) dropped w' →
    (∀ j t g r', w_tasks w' !! j = Some t → refresh_pc t = Some (RDone g r') → r' = toy_failed) ∧
    (∀ j request, SentRefresh j request ∈ w_sent w' → SentRefresh j request ∈ []).
Proof.
  apply (stale_flight_is_permanent (V:=Toy.value) toy_base ToyClient.anonymous
    (toy_shared toy_loaded (mkFlight (Some toy_failed) false)) [TRefresh (RGate 0 toy_failed)] [] 0 0
    toy_failed toy_gate eq_refl
    (λ j t Hj Hl, ltac:(by destruct j))).
Defined.

Lemma refresh_single_flight_witness :
  ∃ flight, [mkFlight (Some toy_failed) false] !! 0%nat = Some flight ∧
    fl_result flight = Some toy_failed ∧ consistent ToyClient.laws toy_loaded.
Proof.
  exists (mkFlight (Some toy_failed) false). split; [done|]. split; [done|].
  apply (refresh_single_flight (V:=Toy.value) toy_base ToyClient.laws ToyClient.anonymous
    (mkWorld (toy_shared toy_loaded (mkFlight (Some toy_failed) false)) [TRefresh (RGate 0 toy_failed)] []));
    [exact toy_gate|done|apply not_elem_of_nil].
Defined.

(** A leader that has taken the gate, and a follower asleep on its flight. *)
Definition toy_asleep : World (option TokenPair) :=
  mkWorld (toy_shared ToyClient.known new_refresh_flight)
    [TRefresh (RLoad 0); TRefresh (RWait 0 false)] [].

Lemma toy_asleep_reachable :
  rtc (world_step (V:=Toy.value) toy_base) (world_init ToyClient.known) toy_asleep.
Proof.
  eapply rtc_l; [apply world_refresh|]. eapply rtc_l; [apply world_refresh|].
  eapply rtc_l; [by apply (world_task _ _ _ _ 0 (TRefresh RStart)); [|constructor; apply refresh_enter]|].
  eapply rtc_l; [by apply (world_task _ _ _ _ 1 (TRefresh RStart)); [|constructor; apply refresh_enter]|].
  eapply rtc_l; [by apply (world_task _ _ _ _ 1 (TRefresh (RJoin 0))); [|constructor; apply refresh_join]|].
  eapply rtc_l; [by apply (world_task _ _ _ _ 1 (TRefresh (RCheck 0 false))); [|constructor; apply refresh_check]|].
  eapply rtc_l; [by apply (world_task _ _ _ _ 1 (TRefresh (RRead 0 false))); [|constructor; apply refresh_read]|].
  apply rtc_refl.
Qed.

Lemma refresh_followers_woken_witness :
  ∃ j leader stage, w_tasks toy_asleep !! j = Some leader ∧ lead_of leader = Some (0%nat, stage) ∧
    match stage with Leaving _ => False | _ => True end.
Proof.
  apply (refresh_followers_woken (V:=Toy.value) toy_base ToyClient.known toy_asleep 1
    (TRefresh (RWait 0 false)) 0 false toy_asleep_reachable); done.
Defined.

(** A login that came first: the rotated pair of the older refresh is not installed. Without one,
    a 401 of the server clears the credentials. *)
Definition toy_denied : HttpResponse := response_new 401 [] [1].

Lemma toy_denied_rejected : rejected (V:=Toy.value) (Ok toy_denied).
Proof. by exists toy_denied. Qed.

Lemma refresh_never_overwrites_login_witness :
  let later := mkTokenPair "access3" "refresh3" 60 in
  let c := mkClient (Some later) (Some later) true in
  (refresh_commit (V:=Toy.value) ToyClient.tokens (Ok ToyClient.answer) c).2 = c ∧
  let '(r, cleared) := refresh_commit (V:=Toy.value) ToyClient.tokens (Ok toy_denied) ToyClient.known in
  r = Err HttpAuthExpired ∧ token_state cleared = None.
Proof.
  intros later c. split.
  - pose proof (refresh_never_overwrites_login (V:=Toy.value) ToyClient.laws ToyClient.tokens (Ok ToyClient.answer) c) as Ho.
    destruct (refresh_commit _ _ _) as [r c']. destruct Ho as (Hnewer & _ & _).
    apply Hnewer. vm_compute. discriminate.
  - pose proof (refresh_never_overwrites_login (V:=Toy.value) ToyClient.laws ToyClient.tokens (Ok toy_denied) ToyClient.known) as Ho.
    destruct (refresh_commit _ _ _) as [r cleared]. destruct Ho as (_ & Hcur & _).
    apply (Hcur eq_refl); [exact toy_denied_rejected|done].
Defined.

(** The rotated pair is stored and then deleted. *)
Lemma torn_refresh_loses_session_witness :
  let c := torn_save (mkTokenPair "access2" "refresh2" 60) ToyClient.known in
  torn_commit (V:=Toy.value) ToyClient.tokens (Ok ToyClient.answer) ToyClient.known = Some c ∧
  token_state c = Some ToyClient.tokens ∧ credential_store c = Some (mkTokenPair "access2" "refresh2" 60).
Proof.
  intros c. assert (torn_commit (V:=Toy.value) ToyClient.tokens (Ok ToyClient.answer) ToyClient.known = Some c) as Hc
    by (vm_compute; reflexivity).
  assert (∃ decoded, decode_json (V:=Toy.value) refresh_response_from ToyClient.answer "/api/v0/auth/refresh" = Ok decoded) as [d Hd]
    by (eexists; vm_compute; reflexivity).
  assert (rotated (V:=Toy.value) (Ok ToyClient.answer) (mkTokenPair "access2" "refresh2" 60)) as Hrot.
  { exists ToyClient.answer, d. split_and!; [done|exact Hd|]. revert Hd. vm_compute. by intros [= <-]. }
  destruct (torn_refresh_loses_session (V:=Toy.value) ToyClient.laws ToyClient.tokens (mkTokenPair "access2" "refresh2" 60)
    (Ok ToyClient.answer) (Err HttpClosed) ToyClient.known c eq_refl Hrot eq_refl Hc) as (Ht & Hs & _).
  split_and!; [exact Hc|exact Ht|exact Hs].
Defined.

Definition toy_plain : HttpRequest := request_new Get (toy_base : Url).

Definition toy_authorized : HttpRequest :=
  mkHttpRequest Get (toy_base : Url) {["authorization"%string := bearer "access1"]} None.

Definition toy_idle : Shared (option TokenPair) := mkShared ToyClient.known None [].

Definition toy_sent : World (option TokenPair) :=
  mkWorld toy_idle [TRequest true toy_plain (QSend toy_authorized "access1")]
    [SentRequest 0 toy_authorized].

Lemma toy_sent_reachable :
  rtc (world_step (V:=Toy.value) toy_base) (world_init ToyClient.known) toy_sent.
Proof.
  eapply rtc_l; [apply (world_request _ _ _ _ true toy_plain)|]. eapply rtc_l; [|apply rtc_refl].
  apply (world_task (V:=Toy.value) toy_base toy_idle [TRequest true toy_plain (QLoad toy_plain)] [] 0
           (TRequest true toy_plain (QLoad toy_plain)) (SendRequest toy_authorized) toy_idle
           (TRequest true toy_plain (QSend toy_authorized "access1"))); [done|].
  constructor. apply (request_load_ok (V:=Toy.value) toy_base true toy_idle toy_plain toy_authorized "access1"
    ToyClient.known). vm_compute. reflexivity.
Qed.

Lemma request_retried_at_most_once_witness : (length (sends 0 (w_sent toy_sent)) ≤ 2)%nat.
Proof.
  apply (request_retried_at_most_once (V:=Toy.value) toy_base ToyClient.known toy_sent 0 true toy_plain
    (QSend toy_authorized "access1") toy_sent_reachable eq_refl).
Defined.
