(* ===== verification/HttpDiscovery.v ===== *)
(** Capability discovery and the production transport's request check
    (crates/zephyrvox-http/src: discovery.rs and transport.rs). *)

From S2P Require Import Prelude Text Types IpAddr Json Wire VoiceTypes VoiceConfig HttpTypes HttpClient Tls.

(** ** discovery.rs *)

Definition valid_metadata_text (value : string) : bool :=
  negb (str_is_empty value) && bool_decide (str_bytes value = trim (str_bytes value))
  && forallb (λ b, negb (is_control b)) (str_bytes value).

(** [str::starts_with(char)], [str::ends_with(char)] and [contains("..")]. *)
Definition starts_byte (b : Z) (l : byte_list) : bool := starts_with [b] l.
Definition ends_byte (b : Z) (l : byte_list) : bool := bool_decide (is_Some (strip_suffix [b] l)).

(** The test of each label. *)
Definition valid_label (label : byte_list) : bool :=
  negb (len label =? 0) && (len label <=? 63) && negb (starts_byte 45 label)
  && negb (ends_byte 45 label) && forallb (λ b, is_alphanumeric b || (b =? 45)) label.

Definition valid_metadata_host (host : string) : bool :=
  let trimmed := trim (str_bytes host) in
  if negb (bool_decide (trimmed = str_bytes host)) || (len trimmed =? 0) || (253 <? len trimmed)
  then false
  else
    match ip_from_str trimmed with
    | Some address => negb (is_unspecified address)
    | None =>
        if starts_byte 46 trimmed || ends_byte 46 trimmed || contains_text [46; 46] trimmed
           || starts_byte 91 trimmed || ends_byte 93 trimmed
        then false
        else forallb valid_label (split_on 46 trimmed)
    end.

(** The tests of a codec other than for duplicates. *)
Definition valid_codec (c : CodecCapability) : bool :=
  valid_metadata_text (CodecCapability_name c) && negb (clock_rate c =? 0) && negb (channels c =? 0)
  && negb (bool_decide (ptime c = [])) && forallb (λ t, negb (t =? 0)) (ptime c).

(** The loop over the codecs with the set of names seen. *)
Fixpoint codecs_valid (seen : gset string) (codecs : list CodecCapability) : bool :=
  match codecs with
  | [] => true
  | c :: rest =>
      let name := to_ascii_lowercase (CodecCapability_name c) in
      if valid_codec c && bool_decide (name ∉ seen) then codecs_valid ({[name]} ∪ seen) rest else false
  end.

Definition valid_stream (s : VoiceStreamType) : bool :=
  negb (StreamTypeId.is_heartbeat (VoiceStreamType_id s))
  && valid_metadata_text (VoiceStreamType_name s) && valid_metadata_text (mute_kind s).

Fixpoint streams_valid (seen : gset Z) (streams : list VoiceStreamType) : bool :=
  match streams with
  | [] => true
  | s :: rest =>
      let id := StreamTypeId.get (VoiceStreamType_id s) in
      if valid_stream s && bool_decide (id ∉ seen) then streams_valid ({[id]} ∪ seen) rest else false
  end.

Definition validate_metadata (m : Metadata) : result HttpError unit :=
  if negb (valid_metadata_host (VoiceEndpoint_host (voice_endpoint m)))
     || (VoiceEndpoint_port (voice_endpoint m) =? 0) then
    Err (HttpWire "metadata contains an invalid voice endpoint")
  else if bool_decide (codecs m = []) then
    Err (HttpWire "metadata must advertise at least one codec")
  else if existsb (λ feature, negb (valid_metadata_text feature)) (features m) then
    Err (HttpWire "metadata contains an invalid feature name")
  else if negb (codecs_valid ∅ (codecs m)) then
    Err (HttpWire "metadata contains an invalid or duplicate codec")
  else if bool_decide (voice_stream_types m = []) then
    Err (HttpWire "metadata must advertise at least one voice stream type")
  else if negb (streams_valid ∅ (voice_stream_types m)) then
    Err (HttpWire "metadata contains an invalid or duplicate voice stream type")
  else Ok tt.

(** [metadata_response] once the response is decoded. *)
Definition check_metadata (response : ApiResponse Metadata) : result HttpError (ApiResponse Metadata) :=
  let m := resp_data response in
  if negb (protocol_version m =? PROTOCOL_VERSION) then
    Err (ProtocolVersionMismatch PROTOCOL_VERSION (protocol_version m))
  else
    let? _ := validate_metadata m in
    Ok response.

(** ** transport.rs *)

Section transport.
Context `{UrlLib}.

(** What [ReqwestTransport::new] keeps of the card. *)
Record Expected := mkExpected {
  expected_scheme : string;
  expected_host : string;
  expected_port : Z;
}.

Definition transport_new (card : ServerCard) : Expected :=
  mkExpected (if is_tls (scheme card) then "https" else "http") (host card) (port card).

(** The check that opens [send_inner]. *)
Definition request_matches_card (expected : Expected) (url : Url) : bool :=
  bool_decide (url_scheme url = expected_scheme expected)
  && bool_decide (url_host_str url = Some (expected_host expected))
  && bool_decide (url_port_or_known_default url = Some (expected_port expected))
  && str_is_empty (url_username url)
  && bool_decide (url_password url = None)
  && bool_decide (url_fragment url = None).

(** [send_inner]; [send] is reqwest's request and response. *)
Definition send_inner (expected : Expected) (send : HttpRequest → result HttpError HttpResponse)
    (request : HttpRequest) : result HttpError HttpResponse :=
  if request_matches_card expected (rq_url request) then send request
  else Err (HttpInvalidUrl "request URL does not match the server card").
End transport.

(** [map_transport_error]; [take] empties the record. *)
Definition map_transport_error (pin_failure : option (option TlsVerificationFailure)) (text : string)
    : HttpError * option (option TlsVerificationFailure) :=
  match pin_failure with
  | None => (HttpTransport text, None)
  | Some recorded =>
      (match recorded with
       | Some (PinMismatch expected actual) =>
           HttpTlsPinMismatch (Fingerprint.to_hex expected) (Fingerprint.to_hex actual)
       | Some InvalidCertificate => TlsPeerCertificateInvalid
       | None => HttpTransport text
       end, Some None)
  end.

(** ** Lemmas *)

(** The loops over a set of names seen find exactly the lists without duplicates. *)
Lemma codecs_valid_spec seen codecs :
  codecs_valid seen codecs = true ↔
    Forall (λ c, valid_codec c = true ∧ to_ascii_lowercase (CodecCapability_name c) ∉ seen) codecs ∧
    NoDup ((λ c, to_ascii_lowercase (CodecCapability_name c)) <$> codecs).
Proof.
  revert seen. induction codecs as [|c codecs IH]; intros seen; csimpl.
  { split; [by split; constructor|done]. }
  rewrite Forall_cons, NoDup_cons.
  destruct (valid_codec c) eqn:Hc; simpl; [|naive_solver].
  case_bool_decide as Hs; [|naive_solver]. rewrite IH.
  rewrite !Forall_forall. split.
  - intros [Hall Hdup]. split_and!; [done|done| |set_solver|done].
    intros x Hx. destruct (Hall x Hx). set_solver.
  - intros [[_ Hall] [Hnew Hdup]]. split; [|done]. intros x Hx. destruct (Hall x Hx) as [? Hn].
    split; [done|]. assert (to_ascii_lowercase (CodecCapability_name x)
      ≠ to_ascii_lowercase (CodecCapability_name c)); [|set_solver].
    intros Heq. apply Hnew. rewrite <- Heq. apply list_elem_of_fmap. eauto.
Qed.

Lemma streams_valid_spec seen streams :
  streams_valid seen streams = true ↔
    Forall (λ s, valid_stream s = true ∧ VoiceStreamType_id s ∉ seen) streams ∧
    NoDup (VoiceStreamType_id <$> streams).
Proof.
  revert seen. induction streams as [|s streams IH]; intros seen; csimpl.
  { split; [by split; constructor|done]. }
  rewrite Forall_cons, NoDup_cons.
  change (StreamTypeId.get (VoiceStreamType_id s)) with (VoiceStreamType_id s).
  destruct (valid_stream s) eqn:Hc; simpl; [|naive_solver].
  case_bool_decide as Hs; [|naive_solver]. rewrite IH.
  rewrite !Forall_forall. split.
  - intros [Hall Hdup]. split_and!; [done|done| | |done].
    + intros x Hx. destruct (Hall x Hx). set_solver.
    + intros (x & Heq & Hx)%list_elem_of_fmap. destruct (Hall x Hx). set_solver.
  - intros [[_ Hall] [Hnew Hdup]]. split; [|done]. intros x Hx. destruct (Hall x Hx) as [? Hn].
    split; [done|]. assert (VoiceStreamType_id x ≠ VoiceStreamType_id s); [|set_solver].
    intros Heq. apply Hnew. rewrite <- Heq. apply list_elem_of_fmap. eauto.
Qed.

Lemma validate_metadata_ok m :
  validate_metadata m = Ok tt ↔
    valid_metadata_host (VoiceEndpoint_host (voice_endpoint m)) = true ∧
    VoiceEndpoint_port (voice_endpoint m) ≠ 0 ∧ codecs m ≠ [] ∧
    Forall (λ feature, valid_metadata_text feature = true) (features m) ∧
    codecs_valid ∅ (codecs m) = true ∧ voice_stream_types m ≠ [] ∧
    streams_valid ∅ (voice_stream_types m) = true.
Proof.
  assert (existsb (λ feature, negb (valid_metadata_text feature)) (features m) = false ↔
    Forall (λ feature, valid_metadata_text feature = true) (features m)) as Hfeat.
  { rewrite existsb_false. split; intros H; (eapply Forall_impl; [exact H|]); intros x Hx;
      simpl in *; [by apply negb_false_iff|by rewrite Hx]. }
  unfold validate_metadata. rewrite <- Hfeat. clear Hfeat.
  destruct (valid_metadata_host _); simpl; [|naive_solver].
  destruct (Z.eqb_spec (VoiceEndpoint_port (voice_endpoint m)) 0); [naive_solver|].
  case_bool_decide; [naive_solver|]. destruct (existsb _ _); [naive_solver|].
  destruct (codecs_valid _ _); simpl; [|naive_solver]. case_bool_decide; [naive_solver|].
  destruct (streams_valid _ _); simpl; naive_solver.
Qed.

(** An accepted host is not blank and not a wildcard address. *)
Lemma valid_host_usable h :
  valid_metadata_host h = true →
  is_blank h = false ∧
  match ip_from_str (str_bytes h) with Some address => is_unspecified address | None => false end = false.
Proof.
  unfold valid_metadata_host, is_blank. intros Hv.
  case_bool_decide as Ht; simpl in Hv; [|done].
  destruct (Z.eqb_spec (len (trim (str_bytes h))) 0); simpl in Hv; [done|]. split; [done|].
  rewrite Ht in Hv. destruct (253 <? _); [done|]. destruct (ip_from_str (str_bytes h)); [|done].
  by apply negb_true_iff.
Qed.

(** No canonical host is in brackets. *)
Lemma host_not_bracketed card inner : Card.ok card → host card ≠ ("[" +:+ inner +:+ "]")%string.
Proof.
  intros [[_ Hall] _ _ _ _ _] Heq. rewrite Heq, !str_bytes_app in Hall.
  change (str_bytes "[") with [91] in Hall. apply Forall_app in Hall as [[Hb _]%Forall_cons _].
  unfold is_digit, is_lower, in_range in Hb. rewrite !andb_true_iff, !Z.leb_le in Hb. lia.
Qed.

(** ** Theorems *)

(** What discovery accepts. A response passes exactly when it speaks this protocol
    version, names a usable voice endpoint, and lists at least one codec and one
    stream type, every one of them well formed, no codec name twice (ignoring case)
    and no stream identifier twice; it is returned unchanged, and the voice layer
    accepts its endpoint. *)
Theorem metadata_accepted_exactly (response : ApiResponse Metadata) :
  let m := resp_data response in
  (is_ok (check_metadata response) = true ↔
     protocol_version m = PROTOCOL_VERSION ∧
     valid_metadata_host (VoiceEndpoint_host (voice_endpoint m)) = true ∧
     VoiceEndpoint_port (voice_endpoint m) ≠ 0 ∧
     Forall (λ feature, valid_metadata_text feature = true) (features m) ∧
     codecs m ≠ [] ∧ Forall (λ c, valid_codec c = true) (codecs m) ∧
     NoDup ((λ c, to_ascii_lowercase (CodecCapability_name c)) <$> codecs m) ∧
     voice_stream_types m ≠ [] ∧ Forall (λ s, valid_stream s = true) (voice_stream_types m) ∧
     NoDup (VoiceStreamType_id <$> voice_stream_types m)) ∧
  (∀ accepted, check_metadata response = Ok accepted →
     accepted = response ∧ validate_endpoint (voice_endpoint m) = Ok tt).
Proof.
  intros m. assert (∀ (l : list CodecCapability) (P : CodecCapability → Prop),
    Forall (λ c, P c ∧ to_ascii_lowercase (CodecCapability_name c) ∉ (∅ : gset string)) l ↔ Forall P l) as Hc.
  { intros l P. rewrite !Forall_forall. set_solver. }
  assert (∀ (l : list VoiceStreamType) (P : VoiceStreamType → Prop),
    Forall (λ s, P s ∧ VoiceStreamType_id s ∉ (∅ : gset Z)) l ↔ Forall P l) as Hs.
  { intros l P. rewrite !Forall_forall. set_solver. }
  pose proof (validate_metadata_ok m) as Hok.
  rewrite codecs_valid_spec, streams_valid_spec, Hc, Hs in Hok.
  unfold check_metadata. fold m. destruct (Z.eqb_spec (protocol_version m) PROTOCOL_VERSION) as [Hv|Hv];
    simpl; [|naive_solver].
  destruct (validate_metadata m) as [[]|e] eqn:Hm; simpl.
  - split; [naive_solver|]. intros accepted [= <-]. split; [done|].
    destruct (proj1 Hok eq_refl) as (Hhost & Hport & _).
    destruct (valid_host_usable _ Hhost) as [Hb Hip]. unfold validate_endpoint.
    rewrite Hb, Hip. simpl. by rewrite (proj2 (Z.eqb_neq _ _) Hport).
  - split; [|done]. split; [done|]. intros Hall.
    assert (Err e = @Ok HttpError unit tt) as Heq; [|by simplify_eq].
    apply Hok. destruct_and!. by split_and!.
Qed.

(** The production transport sends nothing outside the card's authority. A request
    leaves only for a URL of the card's scheme (TLS exactly when the card has a pin),
    host and port, without user information or fragment; and for a card with an IPv6
    host, stored without brackets, it refuses every request. *)
Theorem http_transport_confined `{UrlLib} (card : ServerCard)
    (send : HttpRequest → result HttpError HttpResponse) (request : HttpRequest) :
  Card.ok card →
  (∀ url h, url_host_str url = Some h → contains_byte 58 (str_bytes h) = true →
     ∃ inner, h = ("[" +:+ inner +:+ "]")%string) →
  (send_inner (transport_new card) send request = send request ∧
   url_host_str (rq_url request) = Some (host card) ∧
   url_port_or_known_default (rq_url request) = Some (port card) ∧
   (url_scheme (rq_url request) = "https"%string ↔ fingerprint card ≠ None) ∧
   url_username (rq_url request) = ""%string ∧ url_password (rq_url request) = None ∧
   contains_byte 58 (str_bytes (host card)) = false) ∨
  (send_inner (transport_new card) send request
     = Err (HttpInvalidUrl "request URL does not match the server card") ∧
   request_matches_card (transport_new card) (rq_url request) = false).
Proof.
  intros Hok Hbr. unfold send_inner.
  destruct (request_matches_card (transport_new card) (rq_url request)) eqn:Hm; [left|by right].
  unfold request_matches_card, transport_new in Hm. simpl in Hm. to_props.
  repeat match goal with Hb : bool_decide _ = true |- _ => apply bool_decide_eq_true in Hb end.
  rewrite <- (Card.ok_fingerprint _ Hok). split_and!; try done.
  - match goal with Hs : url_scheme _ = _ |- _ => rewrite Hs end. by destruct (scheme card).
  - by apply str_is_empty_eq.
  - destruct (contains_byte 58 (str_bytes (host card))) eqn:Hc; [|done]. exfalso.
    match goal with Hh : url_host_str _ = _ |- _ => destruct (Hbr _ _ Hh Hc) as [inner Hin] end.
    by apply (host_not_bracketed card inner).
Qed.

(** A metadata document and a card, for the witnesses. *)
Definition toy_metadata : Metadata :=
  mkMetadata 1 (mkVoiceEndpoint "voice.example.org" 7789)
    [mkCodecCapability "opus" 48000 2 [20]] [mkVoiceStreamType 1 "voice" "speaker"] ["voice"%string].

Definition toy_response : ApiResponse Metadata :=
  mkApiResponse toy_metadata 200 (mkResponseHeaders None None None None None None false).

Lemma metadata_accepted_exactly_witness :
  check_metadata toy_response = Ok toy_response ∧ validate_endpoint (voice_endpoint toy_metadata) = Ok tt.
Proof.
  assert (check_metadata toy_response = Ok toy_response) as Hc by (vm_compute; reflexivity).
  split; [exact Hc|]. apply (proj2 (metadata_accepted_exactly toy_response) _ Hc).
Defined.

Lemma http_transport_confined_witness :
  send_inner (H:=ToyUrl.lib) (transport_new (mkServerCard Plain "example.org" 7788 None None 1))
    (λ _, Ok (response_empty 204))
    (request_new (H:=ToyUrl.lib) Get "http://example.org:7788/api/v0/metadata"%string)
  = Ok (response_empty 204).
Proof.
  assert (Card.ok (mkServerCard Plain "example.org" 7788 None None 1)) as Hok.
  { constructor; simpl; try done. apply host_checked; [done|vm_compute; reflexivity]. }
  destruct (@http_transport_confined ToyUrl.lib (mkServerCard Plain "example.org" 7788 None None 1)
    (λ _, Ok (response_empty 204))
    (request_new (H:=ToyUrl.lib) Get "http://example.org:7788/api/v0/metadata"%string) Hok)
    as [[Hs _]|[_ Hn]].
  - intros url h [= <-]. vm_compute. discriminate.
  - exact Hs.
  - vm_compute in Hn. discriminate.
Defined.
