(* ===== verification/HttpApi.v ===== *)
(** What the endpoint accessors share (crates/zephyrvox-http/src): the request and
    response halves of [ApiClient] as an effect, the form all endpoints have, and the
    sequential [send_request] of client.rs over the credential state.

    An accessor is a computation in [api]: it reads the clock, draws idempotency keys
    from the process-wide counter, and sends requests through the interface [Sender].
    The client core implements that interface; the endpoints are verified against it
    alone. *)

From S2P Require Import Prelude Text Types Json Wire HttpTypes HttpClient.

(** [AuthRequirement]. *)
Inductive AuthRequirement :=
| NoAuth
| AccessToken (retry_once : bool).

(** [AuthRequirement::AccessToken { retry_once: true }]. *)
Definition protected : AuthRequirement := AccessToken true.

(** What an accessor can end with besides a value: an error, or a panic. *)
Inductive Fault :=
| Panicked
| Failed (e : HttpError).

(** The process around a client in state [W]: the readings of [SystemTime::now] in
    nanoseconds, the number of readings so far, and [IDEMPOTENCY_COUNTER]. *)
Record Env (W : Type) := mkEnv {
  clock : nat → Z;
  readings : nat;
  idempotency_counter : Z;
  world : W;
}.
Arguments mkEnv {W} _ _ _ _.
Arguments clock {W} _ _.
Arguments readings {W} _.
Arguments idempotency_counter {W} _.
Arguments world {W} _.

(** The clock never shows a time before the epoch, and the counter is a [u64]. *)
Definition env_ok {W} (env : Env W) : Prop :=
  (∀ n, 0 ≤ clock env n) ∧ is_u64 (idempotency_counter env).

(** [ApiClient::send_request], as the endpoints see it. *)
Class Sender `{UrlEdit} (W : Type) := {
  send_request : HttpRequest → AuthRequirement → se W HttpError HttpResponse;
}.

(** [serde_json::from_value]. *)
Class FromJson (V T : Type) := from_json : V → result string T.

(** A serialized structure: its fields in order; [skip_serializing_if] leaves a field
    out. *)
Inductive json :=
| JNull
| JBool (b : bool)
| JNumber (z : Z)
| JString (s : string)
| JList (l : list json)
| JObject (fields : list (string * json)).

(** [serde_json::to_vec] of a serialized value. *)
Class JsonWriter := write_json : json → result string byte_list.

(** [#[serde(skip_serializing_if = "Option::is_none")]]. *)
Definition field_opt {A} (name : string) (encode : A → json) (value : option A) : list (string * json) :=
  match value with Some a => [(name, encode a)] | None => [] end.

(** [Option<T>] without the attribute. *)
Definition json_opt {A} (encode : A → json) (value : option A) : json :=
  match value with Some a => encode a | None => JNull end.

(** A [Snowflake] serializes as its decimal text. *)
Definition json_snowflake (id : Z) : json := JString (Snowflake.fmt id).

(** What a [debug_struct] prints of its fields; [DOpen] is one that ends in
    [finish_non_exhaustive]. *)
Inductive dbg :=
| DText (s : string)
| DOption (d : option dbg)
| DBool (b : bool)
| DNumber (z : Z)
| DBytes (l : byte_list)
| DList (l : list dbg)
| DStruct (name : string) (fields : list (string * dbg))
| DOpen (name : string) (fields : list (string * dbg)).

(** [&"<redacted>"]. *)
Definition redacted : dbg := DText "<redacted>".

Section api.
Context `{UrlEdit} {W : Type} `{!Sender W} `{JsonWriter} {V : Type} `{JsonValue V, BodyDecoder V}.
Context (base : Url).

Definition api : Type → Type := se (Env W) Fault.

Definition read_clock : api Z := λ env,
  (Ok (clock env (readings env)),
   mkEnv (clock env) (S (readings env)) (idempotency_counter env) (world env)).

(** [?] on a result of the crate. *)
Definition checked {A} (r : result HttpError A) : api A := se_lift (map_err Failed r).

(** An operation of the client. *)
Definition on_world {A} (op : se W HttpError A) : api A := λ env,
  match op (world env) with
  | (r, w) => (map_err Failed r, mkEnv (clock env) (readings env) (idempotency_counter env) w)
  end.

(** The key of a mutation, if the caller has not supplied one. *)
Definition with_identity (key : option (RequestOptions * Z)) : api RequestOptions := λ env,
  match key with
  | Some (options, counter) =>
      (Ok options, mkEnv (clock env) (readings env) counter (world env))
  | None => (Err Panicked, env)
  end.

(** [options.ensure_idempotency()]. *)
Definition ensure (options : RequestOptions) : api RequestOptions :=
  match opt_idempotency_key options with
  | Some _ => se_ret options
  | None =>
      let! now := read_clock in
      λ env, with_identity (ensure_idempotency now (idempotency_counter env) options) env
  end.

(** [RequestOptions::mutation()]. *)
Definition fresh_mutation : api RequestOptions :=
  let! now := read_clock in
  λ env, with_identity (mutation now (idempotency_counter env)) env.

(** [send_json] and [send_no_content]. *)
Definition send_json {T} `{FromJson V T} (request : HttpRequest) (auth : AuthRequirement)
    : api (ApiResponse T) :=
  let endpoint := url_path (rq_url request) in
  let! response := on_world (send_request request auth) in
  checked (decode_json (V:=V) from_json response endpoint).

Definition send_no_content (request : HttpRequest) (auth : AuthRequirement) : api (ApiResponse unit) :=
  let endpoint := url_path (rq_url request) in
  let! response := on_world (send_request request auth) in
  checked (decode_no_content response endpoint).

Definition empty (method : HttpMethod) (path : string) (options : RequestOptions) : api HttpRequest :=
  checked (empty_request base method path options).

Definition json_body (method : HttpMethod) (path : string) (body : json) (options : RequestOptions)
    : api HttpRequest :=
  checked (json_request base method path (write_json body) options).
End api.

Arguments api W : clear implicits.
