(* ===== verification/HttpGroups.v ===== *)
(** Groups and their access lists (crates/zephyrvox-http/src/groups.rs). *)

From S2P Require Import Prelude Text Types Json Wire ClientModel HttpTypes HttpClient HttpApi.

Inductive AccessPrincipal :=
| UserPrincipal (user_id : Z)
| RolePrincipal (role_key : string).

Record AccessEntry := mkAccessEntry {
  access_id : Z;
  access_principal_type : string;
  access_user_id : option Z;
  access_role_key : option string;
  access_created_at : Z;
}.

Record Page (T : Type) := mkPage {
  page_items : list T;
  page_limit : Z;
  page_offset : Z;
  page_total : Z;
}.
Arguments mkPage {T} _ _ _ _.

Record CreateGroupRequest := mkCreateGroupRequest {
  create_group_name : string;
  create_group_position : Z;
  create_group_visibility : string;
}.

Record UpdateGroupRequest := mkUpdateGroupRequest {
  update_group_name : option string;
  update_group_position : option Z;
  update_group_visibility : option string;
}.

Record AccessRequest := mkAccessRequest {
  principal_type : string;
  request_user_id : option Z;
  request_role_key : option string;
  grant_parent : bool;
}.

(** [AccessRequest::from_principal]. *)
Definition from_principal (principal : AccessPrincipal) (grant_parent : bool) : AccessRequest :=
  match principal with
  | UserPrincipal user_id => mkAccessRequest "user" (Some user_id) None grant_parent
  | RolePrincipal role_key => mkAccessRequest "role" None (Some role_key) grant_parent
  end.

Definition channel_access_request := from_principal.

(** The derived [Serialize] of the bodies. *)
Definition json_create_group (r : CreateGroupRequest) : json :=
  JObject [("name"%string, JString (create_group_name r));
           ("position"%string, JNumber (create_group_position r));
           ("visibility"%string, JString (create_group_visibility r))].

Definition json_update_group (r : UpdateGroupRequest) : json :=
  JObject (field_opt "name" JString (update_group_name r)
           ++ field_opt "position" JNumber (update_group_position r)
           ++ field_opt "visibility" JString (update_group_visibility r)).

Definition json_access_request (r : AccessRequest) : json :=
  JObject ([("principal_type"%string, JString (principal_type r))]
           ++ field_opt "user_id" json_snowflake (request_user_id r)
           ++ field_opt "role_key" JString (request_role_key r)
           ++ [("grant_parent"%string, JBool (grant_parent r))]).

Section groups.
Context `{UrlEdit} {W : Type} `{!Sender W} `{JsonWriter} {V : Type} `{JsonValue V, BodyDecoder V}.
Context `{FromJson V Group, FromJson V (Page Group), FromJson V AccessEntry, FromJson V (Page AccessEntry)}.
Context (base : Url).

Definition access_path (resource : string) (limit offset : Z) : string :=
  query_path resource [("limit"%string, display_u64 limit); ("offset"%string, display_u64 offset)].

Definition group_path (group_id : Z) : string := ("groups/" +:+ Snowflake.fmt group_id)%string.
Definition group_access_path (group_id : Z) : string := (group_path group_id +:+ "/access")%string.

Definition list_groups (limit offset : Z) : api W (ApiResponse (Page Group)) :=
  let! request := empty base Get (page_path "groups" limit offset) options_new in
  send_json request protected.

Definition get_group (group_id : Z) : api W (ApiResponse Group) :=
  let! request := empty base Get (group_path group_id) options_new in
  send_json request protected.

Definition create_group (input : CreateGroupRequest) (options : RequestOptions)
    : api W (ApiResponse Group) :=
  let! options := ensure options in
  let! request := json_body base Post "groups" (json_create_group input) options in
  send_json request protected.

Definition update_group (group_id : Z) (input : UpdateGroupRequest) (options : RequestOptions)
    : api W (ApiResponse Group) :=
  let! _ := checked (require_if_match options) in
  let! options := ensure options in
  let! request := json_body base Patch (group_path group_id) (json_update_group input) options in
  send_json request protected.

Definition delete_group (group_id : Z) (options : RequestOptions) : api W (ApiResponse unit) :=
  let! _ := checked (require_if_match options) in
  let! options := ensure options in
  let! request := empty base Delete (group_path group_id) options in
  send_no_content request protected.

Definition list_group_access (group_id limit offset : Z) : api W (ApiResponse (Page AccessEntry)) :=
  let! request := empty base Get (page_path (group_access_path group_id) limit offset) options_new in
  send_json request protected.

Definition mutate_access (group_id : Z) (principal : AccessPrincipal) (options : RequestOptions)
    (grant_parent : bool) : api W (ApiResponse AccessEntry) :=
  let! options := ensure options in
  let body := from_principal principal grant_parent in
  let! request := json_body base Post (group_access_path group_id) (json_access_request body) options in
  send_json request protected.

Definition add_group_access (group_id : Z) (principal : AccessPrincipal) (options : RequestOptions)
    : api W (ApiResponse AccessEntry) :=
  let! _ := checked (require_if_match options) in
  mutate_access group_id principal options false.

Definition delete_group_access (group_id access_id : Z) (options : RequestOptions)
    : api W (ApiResponse unit) :=
  let! _ := checked (require_if_match options) in
  let! options := ensure options in
  let! request := empty base Delete (group_access_path group_id +:+ "/" +:+ Snowflake.fmt access_id)%string
                    options in
  send_no_content request protected.
End groups.
