(* ===== verification/HttpChannels.v ===== *)
(** Channels and their access lists (crates/zephyrvox-http/src/channels.rs). *)

From S2P Require Import Prelude Text Types Json Wire ClientModel HttpTypes HttpClient HttpApi HttpGroups.

Record CreateChannelRequest := mkCreateChannelRequest {
  create_channel_group_id : option Z;
  create_channel_name : string;
  create_channel_mode : string;
  create_channel_temporary : bool;
  create_channel_visibility : string;
  create_channel_capacity : option Z;
  create_channel_position : Z;
  create_channel_pinned : bool;
}.

(** [Some None] of the group takes the channel out of its group. *)
Record UpdateChannelRequest := mkUpdateChannelRequest {
  update_channel_group_id : option (option Z);
  update_channel_name : option string;
  update_channel_visibility : option string;
  update_channel_capacity : option Z;
  update_channel_position : option Z;
  update_channel_pinned : option bool;
}.

(** The derived [Serialize] of the bodies. *)
Definition json_create_channel (r : CreateChannelRequest) : json :=
  JObject (field_opt "group_id" json_snowflake (create_channel_group_id r)
           ++ [("name"%string, JString (create_channel_name r));
               ("mode"%string, JString (create_channel_mode r));
               ("temporary"%string, JBool (create_channel_temporary r));
               ("visibility"%string, JString (create_channel_visibility r))]
           ++ field_opt "capacity" JNumber (create_channel_capacity r)
           ++ [("position"%string, JNumber (create_channel_position r));
               ("pinned"%string, JBool (create_channel_pinned r))]).

Definition json_update_channel (r : UpdateChannelRequest) : json :=
  JObject (field_opt "group_id" (json_opt json_snowflake) (update_channel_group_id r)
           ++ field_opt "name" JString (update_channel_name r)
           ++ field_opt "visibility" JString (update_channel_visibility r)
           ++ field_opt "capacity" JNumber (update_channel_capacity r)
           ++ field_opt "position" JNumber (update_channel_position r)
           ++ field_opt "pinned" JBool (update_channel_pinned r)).

Section channels.
Context `{UrlEdit} {W : Type} `{!Sender W} `{JsonWriter} {V : Type} `{JsonValue V, BodyDecoder V}.
Context `{FromJson V Channel, FromJson V (Page Channel), FromJson V AccessEntry, FromJson V (Page AccessEntry)}.
Context (base : Url).

Definition channel_path (channel_id : Z) : string := ("channels/" +:+ Snowflake.fmt channel_id)%string.
Definition channel_access_path (channel_id : Z) : string := (channel_path channel_id +:+ "/access")%string.

Definition list_channels (group_id : option Z) (limit offset : Z) : api W (ApiResponse (Page Channel)) :=
  let path :=
    match group_id with
    | Some group_id =>
        query_path "channels" [("group_id"%string, Snowflake.fmt group_id);
                               ("limit"%string, display_u64 limit);
                               ("offset"%string, display_u64 offset)]
    | None => page_path "channels" limit offset
    end in
  let! request := empty base Get path options_new in
  send_json request protected.

Definition get_channel (channel_id : Z) : api W (ApiResponse Channel) :=
  let! request := empty base Get (channel_path channel_id) options_new in
  send_json request protected.

Definition create_channel (input : CreateChannelRequest) (options : RequestOptions)
    : api W (ApiResponse Channel) :=
  let! options := ensure options in
  let! request := json_body base Post "channels" (json_create_channel input) options in
  send_json request protected.

Definition update_channel (channel_id : Z) (input : UpdateChannelRequest) (options : RequestOptions)
    : api W (ApiResponse Channel) :=
  let! _ := checked (require_if_match options) in
  let! options := ensure options in
  let! request := json_body base Patch (channel_path channel_id) (json_update_channel input) options in
  send_json request protected.

Definition delete_channel (channel_id : Z) (options : RequestOptions) : api W (ApiResponse unit) :=
  let! _ := checked (require_if_match options) in
  let! options := ensure options in
  let! request := empty base Delete (channel_path channel_id) options in
  send_no_content request protected.

Definition list_channel_access (channel_id limit offset : Z) : api W (ApiResponse (Page AccessEntry)) :=
  let! request := empty base Get (access_path (channel_access_path channel_id) limit offset) options_new in
  send_json request protected.

Definition add_channel_access (channel_id : Z) (principal : AccessPrincipal) (grant_parent : bool)
    (options : RequestOptions) : api W (ApiResponse AccessEntry) :=
  let! _ := checked (require_if_match options) in
  let! _ := (if grant_parent then checked (require_parent_if_match options) else se_ret tt) in
  let! options := ensure options in
  let body := channel_access_request principal grant_parent in
  let! request := json_body base Post (channel_access_path channel_id) (json_access_request body) options in
  send_json request protected.

Definition delete_channel_access (channel_id access_id : Z) (options : RequestOptions)
    : api W (ApiResponse unit) :=
  let! _ := checked (require_if_match options) in
  let! options := ensure options in
  let! request := empty base Delete
                    (channel_access_path channel_id +:+ "/" +:+ Snowflake.fmt access_id)%string options in
  send_no_content request protected.
End channels.
