(* ===== verification/HttpUsers.v ===== *)
(** User administration and the own profile (crates/zephyrvox-http/src: users.rs and
    [UserDetail] of auth_types.rs). *)

From S2P Require Import Prelude Text Types Hex IpAddr Json Wire ClientModel HttpTypes HttpClient HttpApi.

Record UserDetail := mkUserDetail {
  detail_id : Z;
  detail_username : string;
  detail_nickname : string;
  detail_avatar : option string;
  detail_roles : list string;
  detail_banned : bool;
  detail_last_login_at : option Z;
  detail_created_at : Z;
}.

Record UpdateUserRequest := mkUpdateUserRequest { update_nickname : option string }.
Record ResetPasswordRequest := mkResetPasswordRequest { reset_to : string }.
Record ChangePasswordRequest := mkChangePasswordRequest {
  old_password : string;
  new_password : string;
}.
Record AvatarUploadResponse := mkAvatarUploadResponse { uploaded_avatar : string }.

(** The derived [Serialize] of the bodies. *)
Definition json_update_user (r : UpdateUserRequest) : json :=
  JObject (field_opt "nickname" JString (update_nickname r)).

Definition json_reset_password (r : ResetPasswordRequest) : json :=
  JObject [("password"%string, JString (reset_to r))].

Definition json_change_password (r : ChangePasswordRequest) : json :=
  JObject [("old_password"%string, JString (old_password r)); ("new_password"%string, JString (new_password r))].

(** Their [Debug]. *)
Definition debug_update_user (r : UpdateUserRequest) : dbg :=
  DStruct "UpdateUserRequest" [("nickname"%string, DOption (DText <$> update_nickname r))].

Definition debug_reset_password (r : ResetPasswordRequest) : dbg :=
  DStruct "ResetPasswordRequest" [("password"%string, redacted)].

Definition debug_change_password (r : ChangePasswordRequest) : dbg :=
  DStruct "ChangePasswordRequest" [("old_password"%string, redacted); ("new_password"%string, redacted)].

(** ** The multipart body *)

(** [nanos] is the reading of the clock. *)
Definition multipart_boundary (nanos : Z) : byte_list := str_bytes "zephyrvox-" ++ hex_of 32 nanos.

(** The characters that are kept are whole characters, since only ASCII is dropped;
    so the filter over the bytes of the UTF-8 text is the filter over its characters. *)
Definition header_value (value fallback : byte_list) : byte_list :=
  let filtered := List.filter (λ b, negb (is_control b) && negb (b =? 34)) value in
  match filtered with [] => fallback | _ => filtered end.

Definition crlf : byte_list := [13; 10].

Definition multipart_body (boundary filename content_type bytes : byte_list) : byte_list :=
  let safe_filename := header_value filename (str_bytes "upload.bin") in
  let safe_content_type := header_value content_type (str_bytes "application/octet-stream") in
  str_bytes "--" ++ boundary ++ crlf
  ++ str_bytes "Content-Disposition: form-data; name=" ++ [34] ++ str_bytes "file" ++ [34]
  ++ str_bytes "; filename=" ++ [34] ++ safe_filename ++ [34] ++ crlf
  ++ str_bytes "Content-Type: " ++ safe_content_type ++ crlf ++ crlf
  ++ bytes
  ++ crlf ++ str_bytes "--" ++ boundary ++ str_bytes "--" ++ crlf.

Section users.
Context `{UrlEdit} {W : Type} `{!Sender W} `{JsonWriter} {V : Type} `{JsonValue V, BodyDecoder V}.
Context `{FromJson V User, FromJson V UserDetail, FromJson V (list UserDetail), FromJson V AvatarUploadResponse}.
Context (base : Url).

Definition user_path (user_id : Z) : string := ("users/" +:+ Snowflake.fmt user_id)%string.

Definition list_users (limit offset : Z) : api W (ApiResponse (list UserDetail)) :=
  let! request := empty base Get (page_path "users" limit offset) options_new in
  send_json request protected.

Definition get_user (user_id : Z) : api W (ApiResponse UserDetail) :=
  let! request := empty base Get (user_path user_id) options_new in
  send_json request protected.

Definition update_user (user_id : Z) (input : UpdateUserRequest) (options : RequestOptions)
    : api W (ApiResponse User) :=
  let! options := ensure options in
  let! request := json_body base Patch (user_path user_id) (json_update_user input) options in
  send_json request protected.

Definition reset_password (user_id : Z) (input : ResetPasswordRequest) (options : RequestOptions)
    : api W (ApiResponse unit) :=
  let! options := ensure options in
  let! request := json_body base Post (user_path user_id +:+ "/password")%string
                    (json_reset_password input) options in
  send_no_content request protected.

Definition no_body_action (user_id : Z) (action : string) (options : RequestOptions)
    : api W (ApiResponse unit) :=
  let! options := ensure options in
  let! request := empty base Post (user_path user_id +:+ "/" +:+ action)%string options in
  send_no_content request protected.

Definition kick (user_id : Z) := no_body_action user_id "kick".
Definition ban (user_id : Z) := no_body_action user_id "ban".
Definition unban (user_id : Z) := no_body_action user_id "unban".

Definition delete_user (user_id : Z) (options : RequestOptions) : api W (ApiResponse unit) :=
  let! options := ensure options in
  let! request := empty base Delete (user_path user_id) options in
  send_no_content request protected.

Definition update_profile (input : UpdateUserRequest) (options : RequestOptions) : api W (ApiResponse User) :=
  let! options := ensure options in
  let! request := json_body base Patch "me" (json_update_user input) options in
  send_json request protected.

Definition change_password (input : ChangePasswordRequest) (options : RequestOptions)
    : api W (ApiResponse unit) :=
  let! options := ensure options in
  let! request := json_body base Post "me/password" (json_change_password input) options in
  send_no_content request protected.

(** The header and the body of an upload. *)
Definition attach_multipart (boundary body : byte_list) (request : HttpRequest)
    : result HttpError HttpRequest :=
  let? request :=
    built (set_header "content-type" (of_bytes (str_bytes "multipart/form-data; boundary=" ++ boundary)))
      request in
  Ok (set_body body request).

Definition upload_avatar (filename content_type : string) (bytes : byte_list) (options : RequestOptions)
    : api W (ApiResponse AvatarUploadResponse) :=
  let! nanos := read_clock in
  let boundary := multipart_boundary nanos in
  let body := multipart_body boundary (str_bytes filename) (str_bytes content_type) bytes in
  let! options := ensure options in
  let! request := empty base Post "me/avatar" options in
  let! request := checked (attach_multipart boundary body request) in
  send_json request protected.

Definition delete_avatar (options : RequestOptions) : api W (ApiResponse unit) :=
  let! options := ensure options in
  let! request := empty base Delete "me/avatar" options in
  send_no_content request protected.
End users.
