(* ===== verification/HttpRbac.v ===== *)
(** Roles, bindings, permission configuration and owner transfer
    (crates/zephyrvox-http/src/rbac.rs). A [BTreeMap] is the list of its entries in the
    order of the keys. *)

From S2P Require Import Prelude Text Types Json Wire HttpTypes HttpClient HttpApi.

Record RbacScope := mkRbacScope {
  scope_kind : string;
  scope_id : option Z;
}.

Record RoleRecord := mkRoleRecord {
  role_key : string;
  role_display_name : string;
  role_rank : Z;
  role_builtin : bool;
  role_immutable : bool;
  role_created_at : Z;
  role_updated_at : Z;
  role_version : Z;
}.

Record CreateRoleRequest := mkCreateRoleRequest {
  create_role_key : string;
  create_role_display_name : string;
  create_role_rank : Z;
}.

Record UpdateRoleRequest := mkUpdateRoleRequest {
  update_role_display_name : option string;
  update_role_rank : option Z;
}.

Record RoleBinding := mkRoleBinding {
  binding_id : Z;
  binding_user_id : Z;
  binding_role_key : string;
  binding_scope : RbacScope;
  binding_created_at : Z;
}.

Record CreateBindingRequest := mkCreateBindingRequest {
  create_binding_user_id : Z;
  create_binding_role_key : string;
  create_binding_scope : RbacScope;
}.

Definition Permissions := list (string * list string).

Record PermissionConfig := mkPermissionConfig {
  config_scope : RbacScope;
  config_local : option Permissions;
  config_local_version : option Z;
  config_source : RbacScope;
  config_source_version : Z;
  config_effective : Permissions;
}.

Record UpdatePermissionConfigRequest := mkUpdatePermissionConfigRequest {
  update_config_scope : RbacScope;
  update_config_config : Permissions;
}.

Record OwnerTransferResponse := mkOwnerTransferResponse {
  previous_owner_id : Z;
  new_owner_id : Z;
}.

Record OwnerTransferRequest := mkOwnerTransferRequest { target_user_id : Z }.
Record ResetPermissionConfigRequest := mkResetPermissionConfigRequest { reset_scope : RbacScope }.

(** These bodies send identifiers as JSON numbers. *)
Definition serialize_snowflake_number (id : Z) : json := JNumber id.
Definition serialize_optional_snowflake_number (id : option Z) : json :=
  match id with Some id => JNumber id | None => JNull end.

(** The derived [Serialize] of the bodies. *)
Definition json_rbac_scope (s : RbacScope) : json :=
  JObject ([("type"%string, JString (scope_kind s))]
           ++ match scope_id s with
              | Some _ => [("id"%string, serialize_optional_snowflake_number (scope_id s))]
              | None => []
              end).

Definition json_permissions (p : Permissions) : json :=
  JObject ((λ entry, (entry.1, JList (JString <$> entry.2))) <$> p).

Definition json_create_role (r : CreateRoleRequest) : json :=
  JObject [("key"%string, JString (create_role_key r));
           ("display_name"%string, JString (create_role_display_name r));
           ("rank"%string, JNumber (create_role_rank r))].

Definition json_update_role (r : UpdateRoleRequest) : json :=
  JObject (field_opt "display_name" JString (update_role_display_name r)
           ++ field_opt "rank" JNumber (update_role_rank r)).

Definition json_create_binding (r : CreateBindingRequest) : json :=
  JObject [("user_id"%string, serialize_snowflake_number (create_binding_user_id r));
           ("role_key"%string, JString (create_binding_role_key r));
           ("scope"%string, json_rbac_scope (create_binding_scope r))].

Definition json_owner_transfer (r : OwnerTransferRequest) : json :=
  JObject [("target_user_id"%string, serialize_snowflake_number (target_user_id r))].

Definition json_update_config (r : UpdatePermissionConfigRequest) : json :=
  JObject [("scope"%string, json_rbac_scope (update_config_scope r));
           ("config"%string, json_permissions (update_config_config r))].

Definition json_reset_config (r : ResetPermissionConfigRequest) : json :=
  JObject [("scope"%string, json_rbac_scope (reset_scope r))].

Definition role_key_byte (b : Z) : bool :=
  is_lower b || is_digit b || (b =? 95) || (b =? 46) || (b =? 45).

Definition role_path (key : string) : result HttpError string :=
  let bytes := str_bytes key in
  let valid :=
    (1 <=? len bytes) && (len bytes <=? 64)
    && match head bytes with Some b => is_lower b | None => false end
    && forallb role_key_byte (drop 1 bytes) in
  if negb valid then Err (HttpWire "invalid role key") else Ok ("rbac/roles/" +:+ key)%string.

Section rbac.
Context `{UrlEdit} {W : Type} `{!Sender W} `{JsonWriter} {V : Type} `{JsonValue V, BodyDecoder V}.
Context `{FromJson V RoleRecord, FromJson V (list RoleRecord), FromJson V RoleBinding,
  FromJson V (list RoleBinding), FromJson V PermissionConfig, FromJson V OwnerTransferResponse}.
Context (base : Url).

Definition scope_query (resource : string) (scope : RbacScope) : string :=
  query_path resource
    ([("scope_type"%string, scope_kind scope)]
     ++ match scope_id scope with Some id => [("scope_id"%string, Snowflake.fmt id)] | None => [] end).

Definition list_roles : api W (ApiResponse (list RoleRecord)) :=
  let! request := empty base Get "rbac/roles" options_new in
  send_json request protected.

Definition create_role (input : CreateRoleRequest) (options : RequestOptions)
    : api W (ApiResponse RoleRecord) :=
  let! options := ensure options in
  let! request := json_body base Post "rbac/roles" (json_create_role input) options in
  send_json request protected.

Definition update_role (key : string) (input : UpdateRoleRequest) (options : RequestOptions)
    : api W (ApiResponse RoleRecord) :=
  let! options := ensure options in
  let! path := checked (role_path key) in
  let! request := json_body base Patch path (json_update_role input) options in
  send_json request protected.

Definition delete_role (key : string) (options : RequestOptions) : api W (ApiResponse unit) :=
  let! options := ensure options in
  let! path := checked (role_path key) in
  let! request := empty base Delete path options in
  send_no_content request protected.

Definition list_bindings (limit offset : Z) : api W (ApiResponse (list RoleBinding)) :=
  let path := query_path "rbac/bindings" [("limit"%string, display_u64 limit);
                                          ("offset"%string, display_u64 offset)] in
  let! request := empty base Get path options_new in
  send_json request protected.

Definition create_binding (input : CreateBindingRequest) (options : RequestOptions)
    : api W (ApiResponse RoleBinding) :=
  let! options := ensure options in
  let! request := json_body base Post "rbac/bindings" (json_create_binding input) options in
  send_json request protected.

Definition delete_binding (binding_id : Z) (options : RequestOptions) : api W (ApiResponse unit) :=
  let! options := ensure options in
  let! request := empty base Delete ("rbac/bindings/" +:+ Snowflake.fmt binding_id)%string options in
  send_no_content request protected.

Definition transfer_owner (target_user_id : Z) (options : RequestOptions)
    : api W (ApiResponse OwnerTransferResponse) :=
  let! options := ensure options in
  let input := mkOwnerTransferRequest target_user_id in
  let! request := json_body base Post "owner/transfer" (json_owner_transfer input) options in
  send_json request protected.

Definition get_config (scope : RbacScope) : api W (ApiResponse PermissionConfig) :=
  let! request := empty base Get (scope_query "rbac/config" scope) options_new in
  send_json request protected.

Definition update_config (input : UpdatePermissionConfigRequest) (options : RequestOptions)
    : api W (ApiResponse PermissionConfig) :=
  let! _ := checked (require_if_match options) in
  let! options := ensure options in
  let! request := json_body base Put "rbac/config" (json_update_config input) options in
  send_json request protected.

Definition reset_config (scope : RbacScope) (options : RequestOptions)
    : api W (ApiResponse PermissionConfig) :=
  let! _ := checked (require_if_match options) in
  let! options := ensure options in
  let input := mkResetPermissionConfigRequest scope in
  let! request := json_body base Post "rbac/config/reset" (json_reset_config input) options in
  send_json request protected.
End rbac.

(** ** Properties *)

(** A byte that a URL path would not take as it is. *)
Definition path_special (b : Z) : bool :=
  (b =? 47) || (b =? 63) || (b =? 35) || (b =? 37) || (b =? 92).

Lemma role_key_byte_plain b : role_key_byte b = true → path_special b = false.
Proof.
  unfold role_key_byte, path_special, is_lower, is_digit, in_range.
  rewrite !orb_true_iff, !andb_true_iff, !Z.leb_le, !Z.eqb_eq. intros Hb.
  rewrite !orb_false_iff, !Z.eqb_neq. lia.
Qed.

(** A role key is one path segment. [role_path] accepts exactly the keys of 1 to 64
    bytes that start with a lower-case letter and go on with lower-case letters,
    digits, underscores, dots and hyphens; so a key it accepts cannot leave the
    segment: it holds no slash, query, fragment or escape, and is not a dot segment. *)
Theorem role_path_exact (key : string) :
  (∀ path, role_path key = Ok path ↔
     path = ("rbac/roles/" +:+ key)%string ∧ len (str_bytes key) ≤ 64 ∧
     ∃ b rest, str_bytes key = b :: rest ∧ is_lower b = true ∧ Forall (λ b, role_key_byte b = true) rest) ∧
  (∀ path, role_path key = Ok path →
     Forall (λ b, path_special b = false) (str_bytes key) ∧ head (str_bytes key) ≠ Some 46).
Proof.
  assert (∀ path, role_path key = Ok path ↔
     path = ("rbac/roles/" +:+ key)%string ∧ len (str_bytes key) ≤ 64 ∧
     ∃ b rest, str_bytes key = b :: rest ∧ is_lower b = true ∧
       Forall (λ b, role_key_byte b = true) rest) as Hexact.
  { intros path. unfold role_path. destruct (str_bytes key) as [|b rest]; [naive_solver|].
    rewrite len_cons. pose proof (len_nonneg rest). cbn [head drop]. rewrite drop_0.
    pose proof (forallb_Forall role_key_byte rest) as Hall.
    destruct (Z.leb_spec 1 (1 + len rest)), (Z.leb_spec (1 + len rest) 64), (is_lower b) eqn:?,
      (forallb role_key_byte rest) eqn:?; cbn [andb negb]; try lia;
      (split; [done|intros (_ & Hl & b' & rest' & [= <- <-] & Hlow & Hr%Hall); lia || congruence])
      || (split; [intros Heq; injection Heq as <-; split_and!; [done|lia|]; exists b, rest; by rewrite <- Hall
                 |by intros (-> & _)]). }
  split; [exact Hexact|]. intros path (_ & _ & b & rest & -> & Hb & Hrest)%Hexact.
  assert (role_key_byte b = true) as Hkey by (unfold role_key_byte; by rewrite Hb).
  split; [constructor|].
  - by apply role_key_byte_plain.
  - eapply Forall_impl; [exact Hrest|]. apply role_key_byte_plain.
  - intros [= ->]. done.
Qed.
