(* ===== verification/HttpModeration.v ===== *)
(** Mutes (crates/zephyrvox-http/src/moderation.rs). *)

From S2P Require Import Prelude Text Types Json Wire HttpTypes HttpClient HttpApi HttpGroups.

Record ModerationScope := mkModerationScope {
  moderation_kind : string;
  moderation_id : option Z;
}.

Record Mute := mkMute {
  mute_id : Z;
  mute_scope : ModerationScope;
  mute_user_id : Z;
  mute_kind : string;
  mute_expires_at : option Z;
  mute_reason : string;
  mute_created_at : Z;
  mute_version : string;
}.

Record CreateMuteRequest := mkCreateMuteRequest {
  create_mute_scope : ModerationScope;
  create_mute_user_id : Z;
  create_mute_kind : string;
  create_mute_expires_at : option Z;
  create_mute_reason : option string;
}.

(** [Some None] of the expiry makes the mute permanent. *)
Record UpdateMuteRequest := mkUpdateMuteRequest {
  update_mute_expires_at : option (option Z);
  update_mute_reason : option string;
}.

(** The derived [Serialize] of the bodies. *)
Definition json_moderation_scope (s : ModerationScope) : json :=
  JObject ([("type"%string, JString (moderation_kind s))]
           ++ field_opt "id" json_snowflake (moderation_id s)).

Definition json_create_mute (r : CreateMuteRequest) : json :=
  JObject ([("scope"%string, json_moderation_scope (create_mute_scope r));
            ("user_id"%string, json_snowflake (create_mute_user_id r));
            ("kind"%string, JString (create_mute_kind r))]
           ++ field_opt "expires_at" JNumber (create_mute_expires_at r)
           ++ field_opt "reason" JString (create_mute_reason r)).

Definition json_update_mute (r : UpdateMuteRequest) : json :=
  JObject (field_opt "expires_at" (json_opt JNumber) (update_mute_expires_at r)
           ++ field_opt "reason" JString (update_mute_reason r)).

Section moderation.
Context `{UrlEdit} {W : Type} `{!Sender W} `{JsonWriter} {V : Type} `{JsonValue V, BodyDecoder V}.
Context `{FromJson V Mute, FromJson V (Page Mute)}.
Context (base : Url).

Definition mute_path (mute_id : Z) : string := ("mutes/" +:+ Snowflake.fmt mute_id)%string.

Definition optional_parameter (name : string) (value : option string) : list (string * string) :=
  match value with Some value => [(name, value)] | None => [] end.

Definition list_mutes (scope : ModerationScope) (user_id : option Z) (kind : option string)
    (limit offset : Z) : api W (ApiResponse (Page Mute)) :=
  let parameters :=
    [("scope_type"%string, moderation_kind scope); ("limit"%string, display_u64 limit);
     ("offset"%string, display_u64 offset)]
    ++ optional_parameter "scope_id" (Snowflake.fmt <$> moderation_id scope)
    ++ optional_parameter "user_id" (Snowflake.fmt <$> user_id)
    ++ optional_parameter "kind" kind in
  let! request := empty base Get (query_path "mutes" parameters) options_new in
  send_json request protected.

Definition create_mute (input : CreateMuteRequest) (options : RequestOptions) : api W (ApiResponse Mute) :=
  let! options := ensure options in
  let! request := json_body base Post "mutes" (json_create_mute input) options in
  send_json request protected.

Definition update_mute (mute_id : Z) (input : UpdateMuteRequest) (options : RequestOptions)
    : api W (ApiResponse Mute) :=
  let! _ := checked (require_if_match options) in
  let! options := ensure options in
  let! request := json_body base Patch (mute_path mute_id) (json_update_mute input) options in
  send_json request protected.

Definition delete_mute (mute_id : Z) (options : RequestOptions) : api W (ApiResponse unit) :=
  let! _ := checked (require_if_match options) in
  let! options := ensure options in
  let! request := empty base Delete (mute_path mute_id) options in
  send_no_content request protected.
End moderation.
