(* ===== verification/HttpAdmin.v ===== *)
(** Invites and server metrics (crates/zephyrvox-http/src/admin.rs). The numbers of
    type [f64] are opaque. *)

From S2P Require Import Prelude Text Types Json Wire HttpTypes HttpClient HttpApi.

Record Invite := mkInvite {
  invite_id : Z;
  invite_role_key : string;
  invite_uses_left : Z;
  invite_expires_at : option Z;
  invite_created_at : Z;
}.

Record CreateInviteRequest := mkCreateInviteRequest {
  create_invite_role : option string;
  create_invite_uses : option Z;
  create_invite_expires_at : option Z;
}.

Record CreateInviteResponse := mkCreateInviteResponse {
  created_code : string;
  created_invite : Invite;
}.

Section metrics.
Context {F64 : Type}.

Record UdpMetrics := mkUdpMetrics {
  packets_received : Z;
  udp_dropped : Z;
  global_dropped : Z;
  source_dropped : Z;
  session_dropped : Z;
  send_success : Z;
  udp_send_errors : Z;
  drop_ratio : F64;
  global_drop_ratio : F64;
  source_drop_ratio : F64;
  session_drop_ratio : F64;
}.

Record QueueMetrics := mkQueueMetrics {
  queue_items : Z;
  queue_bytes : Z;
  item_capacity : Z;
  byte_capacity : Z;
  utilization : F64;
  shard_items : list Z;
  shard_bytes : list Z;
  shard_utilization : list F64;
}.

Record RelayMetrics := mkRelayMetrics {
  enqueued : Z;
  dropped_overload : Z;
  dropped_soft_limit : Z;
  dropped_no_authority : Z;
  dropped_stale_authority : Z;
  dropped_muted : Z;
  dropped_no_membership : Z;
  dropped_invalid_channel : Z;
  relay_sent : Z;
  relay_send_errors : Z;
  relay_queue : QueueMetrics;
  p95_work_latency_ms : Z;
}.

Record LoadHardLimits := mkLoadHardLimits {
  global_packets_per_sec : Z;
  session_packets_per_sec : Z;
}.

Record LoadSoftLimits := mkLoadSoftLimits {
  global_ingress_soft_pps : Z;
  session_soft_pps : Z;
  voice_stats_interval_ms : Z;
}.

Record LoadInputMetrics := mkLoadInputMetrics {
  queue_utilization : F64;
  input_relay_drop_ratio : F64;
  udp_drop_ratio : F64;
  udp_global_drop_ratio : F64;
  udp_source_drop_ratio : F64;
  udp_session_drop_ratio : F64;
  relay_p95_latency_ms : Z;
  state_publication_lag_ms : Z;
}.

Record LoadMetrics := mkLoadMetrics {
  load_hard : LoadHardLimits;
  load_soft : LoadSoftLimits;
  overloaded : bool;
  recovery_ticks : Z;
  last_input : LoadInputMetrics;
}.

Record AdminMetrics := mkAdminMetrics {
  http_connections : Z;
  websocket_connections : Z;
  udp_sessions : Z;
  metrics_udp : UdpMetrics;
  metrics_relay : RelayMetrics;
  relay_packets_per_second : F64;
  relay_drop_ratio : F64;
  metrics_load : LoadMetrics;
  state_publication_latency_ms : Z;
  snapshot_latency_ms : Z;
}.
End metrics.
Arguments AdminMetrics F64 : clear implicits.

Definition json_create_invite (r : CreateInviteRequest) : json :=
  JObject (field_opt "role" JString (create_invite_role r)
           ++ field_opt "uses" JNumber (create_invite_uses r)
           ++ field_opt "expires_at" JNumber (create_invite_expires_at r)).

(** The derived [Debug] of an invite, and that of the response without the code. *)
Definition debug_invite (i : Invite) : dbg :=
  DStruct "Invite"
    [("id"%string, DNumber (invite_id i)); ("role_key"%string, DText (invite_role_key i));
     ("uses_left"%string, DNumber (invite_uses_left i));
     ("expires_at"%string, DOption (DNumber <$> invite_expires_at i));
     ("created_at"%string, DNumber (invite_created_at i))].

Definition debug_create_invite_response (r : CreateInviteResponse) : dbg :=
  DStruct "CreateInviteResponse"
    [("code"%string, redacted); ("invite"%string, debug_invite (created_invite r))].

Section admin.
Context `{UrlEdit} {W : Type} `{!Sender W} `{JsonWriter} {V : Type} `{JsonValue V, BodyDecoder V}.
Context {F64 : Type} `{FromJson V (list Invite), FromJson V CreateInviteResponse, FromJson V (AdminMetrics F64)}.
Context (base : Url).

Definition list_invites (limit offset : Z) : api W (ApiResponse (list Invite)) :=
  let! request := empty base Get (page_path "admin/invites" limit offset) options_new in
  send_json request protected.

Definition create_invite_with_options (input : CreateInviteRequest) (options : RequestOptions)
    : api W (ApiResponse CreateInviteResponse) :=
  let! options := ensure options in
  let! request := json_body base Post "admin/invites" (json_create_invite input) options in
  send_json request protected.

Definition create_invite (input : CreateInviteRequest) : api W (ApiResponse CreateInviteResponse) :=
  let! options := fresh_mutation in
  create_invite_with_options input options.

Definition delete_invite_with_options (invite_id : Z) (options : RequestOptions)
    : api W (ApiResponse unit) :=
  let! options := ensure options in
  let! request := empty base Delete ("admin/invites/" +:+ Snowflake.fmt invite_id)%string options in
  send_no_content request protected.

Definition delete_invite (invite_id : Z) : api W (ApiResponse unit) :=
  let! options := fresh_mutation in
  delete_invite_with_options invite_id options.

Definition metrics : api W (ApiResponse (AdminMetrics F64)) :=
  let! request := empty base Get "admin/metrics" options_new in
  send_json request protected.
End admin.
