(* ===== verification/HttpVoice.v ===== *)
(** Joining and leaving voice over HTTP (crates/zephyrvox-http/src/channels/voice.rs). *)

From S2P Require Import Prelude Text Types Json Wire ClientModel VoiceTypes VoiceConfig HttpTypes HttpClient HttpApi.

Record VoiceJoinRequest := mkVoiceJoinRequest {
  device_id : option string;
  force_new : bool;
  expected_voice_session_id : option byte_list;
}.

Record VoiceLeaveRequest := mkVoiceLeaveRequest { leave_session_id : byte_list }.

Record VoiceNegotiation := mkVoiceNegotiation {
  vn_created : bool;
  vn_session_id : byte_list;
  vn_key : option string;
  vn_encrypted : bool;
  vn_warning : option string;
  vn_max_payload : Z;
  vn_protocol_version : Z;
  vn_expires_at : Z;
}.

Record VoiceJoinResponse := mkVoiceJoinResponse {
  join_channel : Channel;
  join_members : list VoiceMembership;
  join_voice_negotiation : VoiceNegotiation;
  join_state_cursor : string;
  join_state_checkpoint : Checkpoint;
}.

(** The derived [Serialize] of the bodies; a session identifier is its hexadecimal text. *)
Definition json_fixed_id (id : byte_list) : json := JString (FixedId.to_hex id).

Definition json_voice_join (r : VoiceJoinRequest) : json :=
  JObject (field_opt "device_id" JString (device_id r)
           ++ [("force_new"%string, JBool (force_new r))]
           ++ field_opt "expected_voice_session_id" json_fixed_id (expected_voice_session_id r)).

Definition json_voice_leave (r : VoiceLeaveRequest) : json :=
  JObject [("voice_session_id"%string, json_fixed_id (leave_session_id r))].

Definition debug_negotiation (n : VoiceNegotiation) : dbg :=
  DStruct "VoiceNegotiation"
    [("created"%string, DBool (vn_created n)); ("session_id"%string, DBytes (vn_session_id n));
     ("key"%string, DOption ((λ _, redacted) <$> vn_key n));
     ("encrypted"%string, DBool (vn_encrypted n));
     ("warning"%string, DOption (DText <$> vn_warning n));
     ("max_payload"%string, DNumber (vn_max_payload n));
     ("protocol_version"%string, DNumber (vn_protocol_version n));
     ("expires_at"%string, DNumber (vn_expires_at n))].

(** [STANDARD.decode] of the base64 crate. *)
Class Base64Lib := { decode_standard : string → option byte_list }.

Section validation.
Context `{Base64Lib}.

(** The closure over [voice.key]. *)
Definition valid_key (key : option string) : bool :=
  match key with
  | Some key => match decode_standard key with Some decoded => len decoded =? 32 | None => false end
  | None => false
  end.

Definition validate_voice_join (requested_channel_id : Z) (response : VoiceJoinResponse) (tls_card : bool)
    : result HttpError unit :=
  let channel := join_channel response in
  let voice := join_voice_negotiation response in
  if negb (Channel_id channel =? requested_channel_id) then
    Err (HttpWire "voice join response channel does not match the requested channel")
  else if bool_decide (Channel_mode channel ≠ "voice"%string) then
    Err (HttpWire "voice join response does not contain a voice channel")
  else if negb (vn_protocol_version voice =? PROTOCOL_VERSION) then
    Err (HttpTypes.ProtocolVersionMismatch PROTOCOL_VERSION (vn_protocol_version voice))
  else if tls_card && negb (vn_encrypted voice) then
    Err (HttpWire "plaintext voice sessions are not allowed for TLS server cards")
  else if (vn_max_payload voice =? 0) || (max_payload (vn_encrypted voice) <? vn_max_payload voice) then
    Err (HttpWire "voice join response exceeds the protocol payload limit")
  else if vn_expires_at voice <=? 0 then
    Err (HttpWire "voice join response has an invalid session expiry")
  else if existsb (λ m, negb (Membership_channel_id m =? requested_channel_id)) (join_members response) then
    Err (HttpWire "voice join response contains a member from another channel")
  else if vn_encrypted voice && vn_created voice && negb (valid_key (vn_key voice)) then
    Err (HttpWire "new encrypted voice sessions must include a 32-byte base64 session key")
  else if vn_encrypted voice && negb (vn_created voice) && bool_decide (is_Some (vn_key voice)) then
    Err (HttpWire "reused encrypted voice sessions must not include a session key")
  else if negb (vn_encrypted voice) && bool_decide (is_Some (vn_key voice)) then
    Err (HttpWire "plaintext voice sessions must not include a session key")
  else Ok tt.
End validation.

Section voice.
Context `{UrlEdit} {W : Type} `{!Sender W} `{JsonWriter} {V : Type} `{JsonValue V, BodyDecoder V}.
Context `{FromJson V VoiceJoinResponse, Base64Lib}.
Context (card : ServerCard) (base : Url).

(** The check that opens both operations. *)
Definition require_control (options : RequestOptions) : result HttpError unit :=
  if has_control_connection options then Ok tt else Err MissingControlConnection.

Definition join_voice (channel_id : Z) (input : VoiceJoinRequest) (options : RequestOptions)
    : api W (ApiResponse VoiceJoinResponse) :=
  let! _ := checked (require_control options) in
  let! options := ensure options in
  let! request := json_body base Post ("channels/" +:+ Snowflake.fmt channel_id +:+ "/join")%string
                    (json_voice_join input) options in
  let! response := send_json request protected in
  let! _ := checked (validate_voice_join channel_id (resp_data response) (is_tls (scheme card))) in
  se_ret response.

Definition leave_voice (input : VoiceLeaveRequest) (options : RequestOptions) : api W (ApiResponse unit) :=
  let! _ := checked (require_control options) in
  let! options := ensure options in
  let! request := json_body base Post "channels/current/leave" (json_voice_leave input) options in
  send_no_content request protected.
End voice.

(** ** Properties *)

Section accepted.
Context `{Base64Lib}.

(** The key material a negotiation must bring: a new encrypted session a key of 32
    bytes, every other session none. *)
Definition key_agreed (n : VoiceNegotiation) : Prop :=
  if vn_encrypted n && vn_created n then
    ∃ text key, vn_key n = Some text ∧ decode_standard text = Some key ∧ len key = 32
  else vn_key n = None.

Lemma valid_key_spec key :
  valid_key key = true ↔ ∃ text bytes, key = Some text ∧ decode_standard text = Some bytes ∧ len bytes = 32.
Proof.
  unfold valid_key. destruct key as [text|]; [|naive_solver].
  destruct (decode_standard text) as [bytes|] eqn:Hd; [|naive_solver].
  rewrite Z.eqb_eq. naive_solver.
Qed.

Lemma existsb_negb {A} (p : A → bool) l : existsb (λ x, negb (p x)) l = false ↔ Forall (λ x, p x = true) l.
Proof. rewrite existsb_false. apply Forall_proper; [|done]. intros x. apply negb_false_iff. Qed.

Lemma validate_voice_join_ok id response tls :
  let n := join_voice_negotiation response in
  validate_voice_join id response tls = Ok tt ↔
  Channel_id (join_channel response) = id ∧ Channel_mode (join_channel response) = "voice"%string ∧
  vn_protocol_version n = PROTOCOL_VERSION ∧ (tls = true → vn_encrypted n = true) ∧
  vn_max_payload n ≠ 0 ∧ vn_max_payload n ≤ max_payload (vn_encrypted n) ∧ 0 < vn_expires_at n ∧
  Forall (λ m, Membership_channel_id m = id) (join_members response) ∧ key_agreed n.
Proof.
  intros n. unfold validate_voice_join. fold n.
  destruct (Z.eqb_spec (Channel_id (join_channel response)) id); cbn [negb]; [|naive_solver].
  case_bool_decide; [naive_solver|].
  destruct (Z.eqb_spec (vn_protocol_version n) PROTOCOL_VERSION); cbn [negb]; [|naive_solver].
  destruct (tls && negb (vn_encrypted n)) eqn:Htls.
  { split; [done|]. intros (_ & _ & _ & He & _). destruct tls; [|done]. by rewrite He in Htls. }
  destruct (Z.eqb_spec (vn_max_payload n) 0); cbn [orb]; [naive_solver|].
  destruct (Z.ltb_spec (max_payload (vn_encrypted n)) (vn_max_payload n)); [split; [done|lia]|].
  destruct (Z.leb_spec (vn_expires_at n) 0); [split; [done|lia]|].
  destruct (existsb _ _) eqn:Hm.
  { split; [done|]. intros (_ & _ & _ & _ & _ & _ & _ & Hall & _). exfalso.
    enough (existsb (λ m, negb (Membership_channel_id m =? id)) (join_members response) = false) by congruence.
    apply existsb_negb. eapply Forall_impl; [exact Hall|]. intros m. apply Z.eqb_eq. }
  apply existsb_negb in Hm.
  assert (Forall (λ m, Membership_channel_id m = id) (join_members response))
    by (eapply Forall_impl; [exact Hm|]; intros m; apply Z.eqb_eq).
  assert (tls = true → vn_encrypted n = true) by (intros ->; by destruct (vn_encrypted n)).
  unfold key_agreed. pose proof (valid_key_spec (vn_key n)) as Hk.
  destruct (vn_encrypted n), (vn_created n); cbn [andb negb];
    [destruct (valid_key (vn_key n)); cbn [negb]; naive_solver|..];
    destruct (vn_key n); cbn; naive_solver.
Qed.

(** What a voice join may bring. The response is accepted exactly when it is for the
    requested voice channel, speaks this protocol, is encrypted if the card is TLS,
    has a payload limit within the protocol's and an expiry, lists only members of the
    channel, and carries key material exactly for a new encrypted session. With an
    endpoint that the voice layer accepts, it then always makes a voice
    configuration. *)
Theorem voice_join_accepted_exactly (id : Z) (response : VoiceJoinResponse) (tls : bool) :
  let n := join_voice_negotiation response in
  (validate_voice_join id response tls = Ok tt ↔
   Channel_id (join_channel response) = id ∧ Channel_mode (join_channel response) = "voice"%string ∧
   vn_protocol_version n = PROTOCOL_VERSION ∧ (tls = true → vn_encrypted n = true) ∧
   vn_max_payload n ≠ 0 ∧ vn_max_payload n ≤ max_payload (vn_encrypted n) ∧ 0 < vn_expires_at n ∧
   Forall (λ m, Membership_channel_id m = id) (join_members response) ∧ key_agreed n) ∧
  (validate_voice_join id response tls = Ok tt → ∀ endpoint, validate_endpoint endpoint = Ok tt →
   is_ok (new_with_protocol_version endpoint (vn_session_id n) (vn_protocol_version n) (vn_encrypted n)
            (vn_max_payload n) (vn_expires_at n) (vn_key n ≫= decode_standard)) = true).
Proof.
  intros n. split; [apply validate_voice_join_ok|]. intros Hv endpoint He.
  apply validate_voice_join_ok in Hv. fold n in Hv.
  destruct Hv as (_ & _ & Hver & _ & Hne & Hle & Hexp & _ & Hkey).
  unfold new_with_protocol_version, max_payload_for. rewrite He. cbn. rewrite Hver, Z.eqb_refl. cbn [negb].
  rewrite (proj2 (Z.eqb_neq _ _) Hne), (proj2 (Z.ltb_ge _ _) Hle), (proj2 (Z.leb_gt _ _) Hexp). cbn [orb].
  unfold key_agreed in Hkey. destruct (vn_encrypted n); [done|]. cbn in Hkey. by rewrite Hkey.
Qed.
End accepted.

Module ToyVoice.
#[export] Instance base64 : Base64Lib := {| decode_standard text := Some (str_bytes text) |}.

Definition response : VoiceJoinResponse :=
  mkVoiceJoinResponse (mkChannel 5 None "talk" "voice" false "public" 0 0 false "1") [mkVoiceMembership 9 5 1]
    (mkVoiceNegotiation true (replicate 16 1) (Some "0123456789abcdef0123456789abcdef"%string) true None
       1000 1 99) "cursor" (mkCheckpoint (replicate 16 2) 7).
End ToyVoice.

#[local] Existing Instance ToyVoice.base64.

Lemma voice_join_accepted_exactly_witness :
  is_ok (new_with_protocol_version (mkVoiceEndpoint "example.org" 7789) (replicate 16 1) 1 true 1000 99
           (Some (str_bytes "0123456789abcdef0123456789abcdef"))) = true.
Proof.
  exact (proj2 (voice_join_accepted_exactly (H:=ToyVoice.base64) 5 ToyVoice.response true) ltac:(vm_compute; reflexivity)
    (mkVoiceEndpoint "example.org" 7789) ltac:(vm_compute; reflexivity)).
Defined.
