(* ===== verification/HttpAuth.v ===== *)
(** Authentication and bootstrap (crates/zephyrvox-http/src: auth.rs and auth_types.rs). *)

From S2P Require Import Prelude Text Types Json Wire ClientModel HttpTypes HttpClient HttpApi HttpUsers.

Record LoginRequest := mkLoginRequest {
  login_username : string;
  login_password : string;
  login_device_id : string;
}.

Record RegisterRequest := mkRegisterRequest {
  register_username : string;
  register_password : string;
  register_nickname : option string;
  register_invite : option string;
}.

Record ActivateRequest := mkActivateRequest {
  activate_code : string;
  activate_username : string;
  activate_password : string;
  activate_nickname : option string;
}.

Record AuthStatus := mkAuthStatus {
  registration_mode : string;
  activation_required : bool;
}.

Record LoginResult := mkLoginResult {
  login_tokens : TokenPair;
  login_user : User;
}.

Record RegisterResult := mkRegisterResult { registered_user : User }.

Record MeResult := mkMeResult {
  me_user : User;
  me_permissions : list string;
}.

Record WireUser := mkWireUser {
  wire_id : Z;
  wire_username : string;
  wire_nickname : string;
  wire_avatar : option string;
}.

Record LoginWireResponse := mkLoginWireResponse {
  lw_access_token : string;
  lw_refresh_token : string;
  lw_expires_in : Z;
  lw_user : WireUser;
}.

Record UserEnvelope := mkUserEnvelope { envelope_user : WireUser }.

Record LogoutRequest := mkLogoutRequest { logout_refresh_token : string }.

Record MeWireResponse := mkMeWireResponse {
  mw_id : Z;
  mw_username : string;
  mw_nickname : string;
  mw_avatar : option string;
  mw_permissions : list string;
}.

(** [avatar.filter(|avatar| !avatar.is_empty())]. *)
Definition non_empty (avatar : option string) : option string :=
  match avatar with
  | Some a => if negb (str_is_empty a) then Some a else None
  | None => None
  end.

Definition into_user (u : WireUser) : User :=
  mkUser (wire_id u) (wire_username u) (wire_nickname u) (non_empty (wire_avatar u)).

(** The derived [Serialize] of the bodies. *)
Definition json_login (r : LoginRequest) : json :=
  JObject [("username"%string, JString (login_username r)); ("password"%string, JString (login_password r));
           ("device_id"%string, JString (login_device_id r))].

Definition json_register (r : RegisterRequest) : json :=
  JObject ([("username"%string, JString (register_username r));
            ("password"%string, JString (register_password r))]
           ++ field_opt "nickname" JString (register_nickname r)
           ++ field_opt "invite" JString (register_invite r)).

Definition json_activate (r : ActivateRequest) : json :=
  JObject ([("code"%string, JString (activate_code r)); ("username"%string, JString (activate_username r));
            ("password"%string, JString (activate_password r))]
           ++ field_opt "nickname" JString (activate_nickname r)).

Definition json_logout (r : LogoutRequest) : json :=
  JObject [("refresh_token"%string, JString (logout_refresh_token r))].

(** Their [Debug], and that of the tokens (credentials.rs). *)
Definition debug_login (r : LoginRequest) : dbg :=
  DStruct "LoginRequest"
    [("username"%string, DText (login_username r)); ("password"%string, redacted);
     ("device_id"%string, DText (login_device_id r))].

Definition debug_register (r : RegisterRequest) : dbg :=
  DStruct "RegisterRequest"
    [("username"%string, DText (register_username r)); ("password"%string, redacted);
     ("nickname"%string, DOption (DText <$> register_nickname r));
     ("invite"%string, DOption ((λ _, redacted) <$> register_invite r))].

Definition debug_activate (r : ActivateRequest) : dbg :=
  DStruct "ActivateRequest"
    [("code"%string, redacted); ("username"%string, DText (activate_username r));
     ("password"%string, redacted); ("nickname"%string, DOption (DText <$> activate_nickname r))].

(** What the accessor needs of the client besides requests. *)
Class Session (W : Type) := {
  session_load : se W HttpError (option TokenPair);
  session_set : TokenPair → se W HttpError unit;
  session_clear : se W HttpError unit;
  session_refresh : se W HttpError TokenPair;
}.

Section auth.
Context `{UrlEdit} {W : Type} `{!Sender W} `{JsonWriter} {V : Type} `{JsonValue V, BodyDecoder V}.
Context `{Session W}.
Context `{FromJson V AuthStatus, FromJson V LoginWireResponse, FromJson V UserEnvelope,
  FromJson V MeWireResponse, FromJson V (list UserDetail)}.
Context (card : ServerCard) (base : Url).

Definition status : api W AuthStatus :=
  let! request := empty base Get "auth/status" options_new in
  let! response := send_json request NoAuth in
  se_ret (resp_data response).

Definition login (input : LoginRequest) : api W LoginResult :=
  let! request := json_body base Post "auth/login" (json_login input) options_new in
  let! response := send_json (T:=LoginWireResponse) request NoAuth in
  let d := resp_data response in
  let! tokens := checked (map_err HttpCredential
                   (from_expires_in (lw_access_token d) (lw_refresh_token d) (lw_expires_in d))) in
  let! _ := on_world (session_set tokens) in
  se_ret (mkLoginResult tokens (into_user (lw_user d))).

(** The invite of the card fills in for a missing one. *)
Definition with_card_invite (input : RegisterRequest) : RegisterRequest :=
  match register_invite input with
  | Some _ => input
  | None => mkRegisterRequest (register_username input) (register_password input)
              (register_nickname input) (invite card)
  end.

Definition register_response_with_options (input : RegisterRequest) (options : RequestOptions)
    : api W (ApiResponse RegisterResult) :=
  let input := with_card_invite input in
  let! options := ensure options in
  let! request := json_body base Post "auth/register" (json_register input) options in
  let! response := send_json (T:=UserEnvelope) request NoAuth in
  se_ret (mkApiResponse (mkRegisterResult (into_user (envelope_user (resp_data response))))
            (resp_status response) (resp_headers response)).

Definition register_with_options (input : RegisterRequest) (options : RequestOptions)
    : api W RegisterResult :=
  let! response := register_response_with_options input options in
  se_ret (resp_data response).

Definition register (input : RegisterRequest) : api W RegisterResult :=
  let! options := fresh_mutation in
  register_with_options input options.

Definition register_response (input : RegisterRequest) : api W (ApiResponse RegisterResult) :=
  let! options := fresh_mutation in
  register_response_with_options input options.

Definition activate_response_with_options (input : ActivateRequest) (options : RequestOptions)
    : api W (ApiResponse User) :=
  let! options := ensure options in
  let! request := json_body base Post "admin/activate" (json_activate input) options in
  let! response := send_json (T:=UserEnvelope) request NoAuth in
  se_ret (mkApiResponse (into_user (envelope_user (resp_data response)))
            (resp_status response) (resp_headers response)).

Definition activate_with_options (input : ActivateRequest) (options : RequestOptions) : api W User :=
  let! response := activate_response_with_options input options in
  se_ret (resp_data response).

Definition activate (input : ActivateRequest) : api W User :=
  let! options := fresh_mutation in
  activate_with_options input options.

Definition activate_response (input : ActivateRequest) : api W (ApiResponse User) :=
  let! options := fresh_mutation in
  activate_response_with_options input options.

Definition refresh : api W TokenPair := on_world session_refresh.

Definition logout_with_options (options : RequestOptions) : api W unit :=
  let! options := ensure options in
  let! active := on_world session_load in
  match active with
  | None => se_ret tt
  | Some tokens =>
      let input := mkLogoutRequest (refresh_token tokens) in
      let! request := json_body base Post "auth/logout" (json_logout input) options in
      let! _ := send_no_content request NoAuth in
      on_world session_clear
  end.

Definition logout : api W unit :=
  let! options := fresh_mutation in
  logout_with_options options.

Definition me : api W MeResult :=
  let! request := empty base Get "auth/me" options_new in
  let! response := send_json (T:=MeWireResponse) request protected in
  let d := resp_data response in
  se_ret (mkMeResult (mkUser (mw_id d) (mw_username d) (mw_nickname d) (non_empty (mw_avatar d)))
            (mw_permissions d)).

Definition auth_list_users (limit offset : Z) : api W (list UserDetail) :=
  let path := ("users?limit=" +:+ display_u64 limit +:+ "&offset=" +:+ display_u64 offset)%string in
  let! request := empty base Get path options_new in
  let! response := send_json request protected in
  se_ret (resp_data response).
End auth.
