(* ===== verification/HttpEndpoints.v ===== *)
(** What the endpoint accessors promise (crates/zephyrvox-http/src: auth.rs, users.rs,
    groups.rs, channels.rs, channels/voice.rs, rbac.rs, moderation.rs and admin.rs): the
    form that all mutations share, and the properties of single endpoints. *)

From S2P Require Import Prelude Text Types Hex Json Wire ClientModel HttpTypes HttpClient.
From S2P Require Import HttpApi HttpGroups HttpChannels HttpUsers HttpRbac HttpModeration HttpAdmin HttpVoice HttpAuth.

(** ** The form of a mutation *)

(** What a mutation asks for before it sends anything. *)
Record Guards := mkGuards {
  control_needed : bool;
  if_match_needed : bool;
  parent_needed : bool;
}.

Definition unguarded : Guards := mkGuards false false false.
Definition by_etag : Guards := mkGuards false true false.
Definition by_connection : Guards := mkGuards true false false.

Definition guard_error (g : Guards) (o : RequestOptions) : option HttpError :=
  if control_needed g && bool_decide (opt_control_connection o = None) then Some MissingControlConnection
  else if if_match_needed g && bool_decide (opt_if_match o = None) then Some (MissingPrecondition IF_MATCH)
  else if parent_needed g && bool_decide (opt_parent_if_match o = None) then
    Some (MissingPrecondition PARENT_IF_MATCH)
  else None.

(** The request carries every option in its own header. *)
Definition carries `{UrlEdit} (o : RequestOptions) (request : HttpRequest) : Prop :=
  rq_method request ≠ Get ∧
  request_header IDEMPOTENCY_KEY request = opt_idempotency_key o ∧
  request_header IF_MATCH request = opt_if_match o ∧
  request_header PARENT_IF_MATCH request = opt_parent_if_match o ∧
  request_header CONTROL_CONNECTION request = (FixedId.to_hex <$> opt_control_connection o).

Section form.
Context `{UrlEdit} {W : Type} `{!Sender W} `{JsonWriter} {V : Type} `{JsonValue V, BodyDecoder V}.

(** One transmission and the decoding of its answer. *)
Definition transmit {T} (finish : HttpRequest → HttpResponse → result HttpError T) (auth : AuthRequirement)
    (request : HttpRequest) : api W T :=
  let! response := on_world (send_request request auth) in
  checked (finish request response).

(** A mutation whose guards hold sends, at most once, a request that is determined by
    its arguments and its key and that carries all its options; one whose guards fail
    reports that and has no effect. *)
Definition mutation_spec {T} (g : Guards) (f : RequestOptions → api W T) : Prop :=
  ∃ build auth finish,
    (∀ o request, options_ok o → build o = Ok request → carries o request) ∧
    ∀ o env, options_ok o → env_ok env →
      match guard_error g o with
      | Some e => f o env = (Err (Failed e), env)
      | None =>
          ∃ key env',
            IdempotencyKey.ok key ∧ env_ok env' ∧ world env' = world env ∧
            (∀ k, opt_idempotency_key o = Some k → key = k ∧ env' = env) ∧
            f o env = match build (with_idempotency_key key o) with
                      | Err e => (Err (Failed e), env')
                      | Ok request => transmit finish auth request env'
                      end
      end.

(** ** Lemmas *)

Lemma with_own_key o k : opt_idempotency_key o = Some k → with_idempotency_key k o = o.
Proof. destruct o; simpl. by intros ->. Qed.

Lemma ensure_spec o (env : Env W) :
  options_ok o → env_ok env →
  ∃ key env', ensure o env = (Ok (with_idempotency_key key o), env') ∧
    IdempotencyKey.ok key ∧ env_ok env' ∧ world env' = world env ∧
    (∀ k, opt_idempotency_key o = Some k → key = k ∧ env' = env).
Proof.
  intros [Hkey _] [Hclock Hcounter]. unfold ensure. destruct (opt_idempotency_key o) as [k|] eqn:Hk.
  - exists k, env. rewrite (with_own_key o k Hk). split_and!; [done|by apply Hkey|done|done|]. naive_solver.
  - unfold ensure_idempotency, with_identity, read_clock, se_bind. rewrite Hk. cbn.
    rewrite generate_ok by apply Hclock. cbn. eexists _, _. split; [done|].
    split_and!; [by apply generated_key_ok, Hclock| |done|done].
    split; [exact Hclock|]. unfold is_u64, u64_max. cbn [idempotency_counter].
    pose proof (Z.mod_pos_bound (idempotency_counter env + 1) (2 ^ 64) eq_refl). lia.
Qed.

(** A request under construction that holds no option yet. *)
Definition blank (method : HttpMethod) (r : HttpRequest) : Prop :=
  rq_method r = method ∧
  Forall (λ name, request_header name r = None) [IDEMPOTENCY_KEY; IF_MATCH; PARENT_IF_MATCH; CONTROL_CONNECTION].

Lemma new_blank method url : blank method (request_new method url).
Proof. split; [done|]. repeat constructor. Qed.

(** Setting a header keeps the method, and setting the content type keeps it blank. *)
Lemma set_header_method name value r : rq_method (set_header name value r).2 = rq_method r.
Proof. unfold set_header. by case_match. Qed.

Lemma apply_method o r : rq_method (apply o r).2 = rq_method r.
Proof.
  assert (∀ name value r', rq_method (set_optional name value r').2 = rq_method r') as Hopt.
  { intros name [value|] r'; [apply set_header_method|done]. }
  unfold apply, se_bind.
  repeat (match goal with |- context [match set_optional ?n ?v ?r with _ => _ end] =>
    rewrite <- (Hopt n v r); destruct (set_optional n v r) as [[]]; cbn; [|done] end).
  apply Hopt.
Qed.

Lemma content_type_blank method value r r' :
  set_header "content-type" value r = (Ok tt, r') → blank method r → blank method r'.
Proof.
  intros Hs [Hm Hall]. pose proof (set_header_method "content-type" value r) as Hm'.
  rewrite Hs in Hm'. cbn in Hm'. split; [by rewrite Hm'|].
  pose proof (set_optional_lookup "content-type" (Some value)) as Hlook. simpl in Hlook.
  repeat (apply Forall_cons in Hall as [? Hall]); repeat constructor;
    rewrite (Hlook _ _ _ Hs), bool_decide_eq_false_2 by (by vm_compute); done.
Qed.

Lemma apply_carries o method r r' :
  options_ok o → method ≠ Get → blank method r → apply o r = (Ok tt, r') → carries o r'.
Proof.
  intros Ho Hget [Hm Hall] Happly. pose proof (apply_sends o r Ho) as Hs.
  pose proof (apply_method o r) as Hm'. rewrite Happly in Hs, Hm'. cbv zeta in Hs.
  repeat (apply Forall_cons in Hall as [? Hall]).
  destruct Hs as (E1 & E2 & E3 & E4 & _). split; [simpl in Hm'; congruence|].
  rewrite E1, E2, E3, E4.
  split_and!; destruct o as [[] [] [] []]; done.
Qed.

Lemma empty_carries base o method path request :
  options_ok o → method ≠ Get → empty_request base method path o = Ok request → carries o request.
Proof.
  unfold empty_request, built. intros Ho Hget (url & _ & Hb)%result_bind_ok.
  destruct (apply o (request_new method url)) as [[[]|] r] eqn:Ha; [|done]. simplify_eq.
  by eapply apply_carries; [| |apply new_blank|].
Qed.

Lemma json_carries base o method path body request :
  options_ok o → method ≠ Get → json_request base method path body o = Ok request → carries o request.
Proof.
  unfold json_request, built. intros Ho Hget (url & _ & Hb)%result_bind_ok.
  unfold set_json, se_bind in Hb. destruct body as [bytes|]; [|done]. cbn in Hb.
  destruct (set_header "content-type" _ _) as [[[]|] r] eqn:Hs; [|done].
  destruct (apply o r) as [[[]|] r'] eqn:Ha; [|done]. simplify_eq.
  eapply apply_carries; [done|done| |done]. eapply content_type_blank; [exact Hs|].
  apply (new_blank method url).
Qed.

(** The code form of a mutation. *)
Lemma spec_of_form {T} g (guard : RequestOptions → api W unit) build auth finish
    (f : RequestOptions → api W T) :
  (∀ o request, options_ok o → build o = Ok request → carries o request) →
  (∀ o env, guard o env = match guard_error g o with
                          | Some e => (Err (Failed e), env)
                          | None => (Ok tt, env)
                          end) →
  (∀ o env, f o env = (let! _ := guard o in
                       let! o := ensure o in
                       let! request := checked (build o) in
                       transmit finish auth request) env) →
  mutation_spec g f.
Proof.
  intros Hbuild Hguard Hf. exists build, auth, finish. split; [done|]. intros o env Ho Henv.
  specialize (Hguard o env). destruct (guard_error g o) as [e|].
  - rewrite Hf. unfold se_bind. by rewrite Hguard.
  - destruct (ensure_spec o env Ho Henv) as (key & env' & Hens & Hkey & Henv' & Hw & Hown).
    exists key, env'. split_and!; [done..|]. rewrite Hf. unfold se_bind at 1. rewrite Hguard.
    unfold se_bind at 1. rewrite Hens. unfold checked, se_lift, se_bind. by destruct (build _).
Qed.

Lemma no_guard o (env : Env W) :
  se_ret tt env = match guard_error unguarded o with
                  | Some e => (Err (Failed e), env)
                  | None => (Ok tt, env)
                  end.
Proof. done. Qed.

Lemma etag_guard o (env : Env W) :
  checked (require_if_match o) env = match guard_error by_etag o with
                                     | Some e => (Err (Failed e), env)
                                     | None => (Ok tt, env)
                                     end.
Proof. by destruct o as [? [] ? ?]. Qed.

Lemma connection_guard o (env : Env W) :
  checked (require_control o) env = match guard_error by_connection o with
                                    | Some e => (Err (Failed e), env)
                                    | None => (Ok tt, env)
                                    end.
Proof. by destruct o as [? ? ? []]. Qed.
End form.

(** ** The mutations *)

Section mutations.
Context `{UrlEdit} {W : Type} `{!Sender W} `{JsonWriter} {V : Type} `{JsonValue V, BodyDecoder V}.
Context `{FromJson V Group, FromJson V AccessEntry, FromJson V Channel, FromJson V User,
  FromJson V AvatarUploadResponse, FromJson V RoleRecord, FromJson V RoleBinding,
  FromJson V PermissionConfig, FromJson V OwnerTransferResponse, FromJson V Mute,
  FromJson V CreateInviteResponse, FromJson V VoiceJoinResponse, FromJson V UserEnvelope, Base64Lib}.
Context (card : ServerCard) (base : Url).

(** Every accessor that changes something on the server, with its guards, but for the
    two that are treated below: the avatar upload and the logout. *)
Inductive endpoint_mutation : ∀ T : Type, Guards → (RequestOptions → api W T) → Prop :=
| m_create_group i : endpoint_mutation _ unguarded (create_group base i)
| m_update_group g i : endpoint_mutation _ by_etag (update_group base g i)
| m_delete_group g : endpoint_mutation _ by_etag (delete_group base g)
| m_add_group_access g p : endpoint_mutation _ by_etag (add_group_access base g p)
| m_delete_group_access g a : endpoint_mutation _ by_etag (delete_group_access base g a)
| m_create_channel i : endpoint_mutation _ unguarded (create_channel base i)
| m_update_channel c i : endpoint_mutation _ by_etag (update_channel base c i)
| m_delete_channel c : endpoint_mutation _ by_etag (delete_channel base c)
| m_add_channel_access c p parent :
    endpoint_mutation _ (mkGuards false true parent) (add_channel_access base c p parent)
| m_delete_channel_access c a : endpoint_mutation _ by_etag (delete_channel_access base c a)
| m_join_voice c i : endpoint_mutation _ by_connection (join_voice card base c i)
| m_leave_voice i : endpoint_mutation _ by_connection (leave_voice base i)
| m_update_user u i : endpoint_mutation _ unguarded (update_user base u i)
| m_reset_password u i : endpoint_mutation _ unguarded (reset_password base u i)
| m_kick u : endpoint_mutation _ unguarded (kick base u)
| m_ban u : endpoint_mutation _ unguarded (ban base u)
| m_unban u : endpoint_mutation _ unguarded (unban base u)
| m_delete_user u : endpoint_mutation _ unguarded (delete_user base u)
| m_update_profile i : endpoint_mutation _ unguarded (update_profile base i)
| m_change_password i : endpoint_mutation _ unguarded (change_password base i)
| m_delete_avatar : endpoint_mutation _ unguarded (delete_avatar base)
| m_create_role i : endpoint_mutation _ unguarded (create_role base i)
| m_update_role k i : endpoint_mutation _ unguarded (update_role base k i)
| m_delete_role k : endpoint_mutation _ unguarded (delete_role base k)
| m_create_binding i : endpoint_mutation _ unguarded (create_binding base i)
| m_delete_binding b : endpoint_mutation _ unguarded (delete_binding base b)
| m_transfer_owner u : endpoint_mutation _ unguarded (transfer_owner base u)
| m_update_config i : endpoint_mutation _ by_etag (update_config base i)
| m_reset_config s : endpoint_mutation _ by_etag (reset_config base s)
| m_create_mute i : endpoint_mutation _ unguarded (create_mute base i)
| m_update_mute mute i : endpoint_mutation _ by_etag (update_mute base mute i)
| m_delete_mute mute : endpoint_mutation _ by_etag (delete_mute base mute)
| m_create_invite i : endpoint_mutation _ unguarded (create_invite_with_options base i)
| m_delete_invite i : endpoint_mutation _ unguarded (delete_invite_with_options base i)
| m_register i : endpoint_mutation _ unguarded (register_response_with_options card base i)
| m_activate i : endpoint_mutation _ unguarded (activate_response_with_options base i).

(** The three forms with a body and without. *)
Local Ltac mutation_form guard :=
  eapply (spec_of_form _ guard);
  [|first [apply no_guard|apply etag_guard|apply connection_guard]|intros o env; reflexivity];
  intros o request Ho; (eapply json_carries || eapply empty_carries); done.

Lemma channel_access_form c p parent :
  mutation_spec (mkGuards false true parent) (add_channel_access base c p parent).
Proof.
  eapply (spec_of_form _ (λ o, let! _ := checked (require_if_match o) in
                               if parent then checked (require_parent_if_match o) else se_ret tt)
    (json_request base Post (channel_access_path c)
       (write_json (json_access_request (channel_access_request p parent))))
    protected (λ request response, decode_json from_json response (url_path (rq_url request)))).
  2: by intros [? [] [] ?] env; destruct parent.
  2: { intros o env. unfold add_channel_access. cbv [se_bind checked se_lift se_ret].
       destruct (require_if_match o); [|done]. cbn. destruct parent; [|reflexivity].
       destruct (require_parent_if_match o); [|done]. reflexivity. }
  intros o request Ho. by eapply json_carries.
Qed.

Lemma role_form {T} k (build : string → RequestOptions → result HttpError HttpRequest) auth
    (finish : HttpRequest → HttpResponse → result HttpError T) :
  (∀ path o request, options_ok o → build path o = Ok request → carries o request) →
  mutation_spec unguarded (λ o,
    let! o := ensure o in
    let! path := checked (role_path k) in
    let! request := checked (build path o) in
    transmit finish auth request).
Proof.
  intros Hbuild. apply (spec_of_form _ (λ _, se_ret tt) (λ o, let? path := role_path k in build path o) auth finish).
  - intros o request Ho (path & _ & Hb)%result_bind_ok. by eapply Hbuild.
  - intros o env. apply no_guard.
  - intros o env. cbv [se_bind se_ret checked se_lift]. destruct (ensure o env) as [[o'|] env']; [|done].
    by destruct (role_path k).
Qed.

(** The answer of a mutation, mapped. *)
Lemma mapped_form {A B} (guard : RequestOptions → api W unit) g build auth
    (finish : HttpRequest → HttpResponse → result HttpError A) (k : A → result HttpError B) :
  (∀ o request, options_ok o → build o = Ok request → carries o request) →
  (∀ o env, guard o env = match guard_error g o with
                          | Some e => (Err (Failed e), env)
                          | None => (Ok tt, env)
                          end) →
  mutation_spec g (λ o,
    let! _ := guard o in
    let! o := ensure o in
    let! request := checked (build o) in
    let! response := transmit finish auth request in
    checked (k response)).
Proof.
  intros Hbuild Hguard.
  apply (spec_of_form _ guard build auth (λ request response, let? a := finish request response in k a));
    [done|done|].
  intros o env. cbv [se_bind]. destruct (guard o env) as [[]]; [|done].
  destruct (ensure o _) as [[]]; [|done]. destruct (checked _ _) as [[]]; [|done].
  unfold transmit, se_bind. destruct (on_world _ _) as [[]]; [|done].
  unfold checked, se_lift. by destruct (finish _ _).
Qed.

Lemma se_bind_ext {S E A B} (m : se S E A) (k k' : A → se S E B) s :
  (∀ a s, k a s = k' a s) → se_bind m k s = se_bind m k' s.
Proof. intros Hk. unfold se_bind. by destruct (m s) as [[] ?]. Qed.

(** A mutation is one up to equality at every state. *)
Lemma spec_proper {T} g (f f' : RequestOptions → api W T) :
  (∀ o env, f' o env = f o env) → mutation_spec g f → mutation_spec g f'.
Proof.
  intros Heq (build & auth & finish & Hb & Hf). exists build, auth, finish. split; [done|].
  intros o env Ho Henv. specialize (Hf o env Ho Henv). by rewrite Heq.
Qed.

Lemma every_mutation_form T g f : endpoint_mutation T g f → mutation_spec g f.
Proof.
  intros [];
    try mutation_form (λ _ : RequestOptions, se_ret (S:=Env W) (E:=Fault) tt);
    try mutation_form (λ o : RequestOptions, checked (W:=W) (require_if_match o));
    try mutation_form (λ o : RequestOptions, checked (W:=W) (require_control o)).
  all: try apply channel_access_form.
  all: try (apply role_form; intros path o request Ho; (eapply json_carries || eapply empty_carries); done).
  - eapply spec_proper;
      [|apply (mapped_form (λ o, checked (require_control o)) by_connection
          (json_request base Post ("channels/" +:+ Snowflake.fmt c +:+ "/join")%string
             (write_json (json_voice_join i))) protected
          (λ request response, decode_json from_json response (url_path (rq_url request)))
          (λ response, let? _ := validate_voice_join c (resp_data response) (is_tls (scheme card)) in
                       Ok response)); [|apply connection_guard]].
    + intros o env. do 4 (apply se_bind_ext; intros ??). unfold checked, se_lift, se_bind.
      by destruct (validate_voice_join _ _ _).
    + intros o request Ho. by eapply json_carries.
  - apply (mapped_form (λ o, se_ret tt) unguarded
      (json_request base Post "auth/register" (write_json (json_register (with_card_invite card i)))) NoAuth
      (λ request response, decode_json (from_json (T:=UserEnvelope)) response (url_path (rq_url request)))
      (λ response, Ok (mkApiResponse (mkRegisterResult (into_user (envelope_user (resp_data response))))
            (resp_status response) (resp_headers response)))); [|done].
    intros o request Ho. by eapply json_carries.
  - apply (mapped_form (λ o, se_ret tt) unguarded
      (json_request base Post "admin/activate" (write_json (json_activate i))) NoAuth
      (λ request response, decode_json (from_json (T:=UserEnvelope)) response (url_path (rq_url request)))
      (λ response, Ok (mkApiResponse (into_user (envelope_user (resp_data response)))
            (resp_status response) (resp_headers response)))); [|done].
    intros o request Ho. by eapply json_carries.
Qed.
End mutations.

(** ** The avatar upload *)

Lemma split_unique (l1 l2 r1 r2 : byte_list) x :
  x ∉ l1 → x ∉ l2 → l1 ++ x :: r1 = l2 ++ x :: r2 → l1 = l2 ∧ r1 = r2.
Proof.
  revert l2. induction l1 as [|y l1 IH]; intros [|z l2] H1 H2 Heq; simplify_eq/=; try done.
  - destruct H2. by left.
  - destruct H1. by left.
  - destruct (IH l2) as [-> ->]; [| |done|done]; intros Hin; [apply H1|apply H2]; by right.
Qed.

Lemma boundary_bytes nanos b : 0 ≤ nanos → b ∈ multipart_boundary nanos → 45 ≤ b ≤ 122.
Proof.
  intros Hn. unfold multipart_boundary. rewrite elem_of_app. intros [Hb|Hb].
  - assert (forallb (λ b, (45 <=? b) && (b <=? 122)) (str_bytes "zephyrvox-") = true) as Hall
      by (vm_compute; reflexivity).
    rewrite forallb_forall in Hall. apply list_elem_of_In, Hall in Hb. to_props. lia.
  - pose proof (hex_of_bytes 32 nanos Hn) as Hall. rewrite Forall_forall in Hall.
    specialize (Hall b Hb). unfold hex_byte in Hall. lia.
Qed.

Lemma boundary_inj n1 n2 :
  0 ≤ n1 < 2 ^ 128 → 0 ≤ n2 < 2 ^ 128 → multipart_boundary n1 = multipart_boundary n2 → n1 = n2.
Proof.
  intros H1 H2 Heq. apply (app_inv_head (str_bytes "zephyrvox-")) in Heq.
  exact (hex_of_inj 32 n1 n2 H1 H2 Heq).
Qed.

(** A sanitized value holds no control byte and no quote. *)
Lemma header_value_clean value fallback b :
  forallb (λ b, negb (is_control b) && negb (b =? 34)) fallback = true →
  b ∈ header_value value fallback → is_control b = false ∧ b ≠ 34.
Proof.
  intros Hf. unfold header_value. set (l := List.filter _ value).
  assert (forallb (λ b, negb (is_control b) && negb (b =? 34)) l = true) as Hl.
  { apply forallb_forall. by intros x [_ ?]%filter_In. }
  assert (∀ l, forallb (λ b, negb (is_control b) && negb (b =? 34)) l = true → b ∈ l →
    is_control b = false ∧ b ≠ 34) as Hclean.
  { intros k Hk Hb%list_elem_of_In. rewrite forallb_forall in Hk. specialize (Hk b Hb).
    apply andb_true_iff in Hk as [Hc Hq]. split; [by apply negb_true_iff|].
    by apply Z.eqb_neq, negb_true_iff. }
  destruct l as [|x l']; by apply Hclean.
Qed.

Lemma filename_bytes value x : x = 34 ∨ x = 13 → x ∉ header_value value (str_bytes "upload.bin").
Proof. intros Hx [Hc Hq]%header_value_clean; [|vm_compute; reflexivity]. by destruct Hx; subst. Qed.

Lemma content_type_bytes value x :
  x = 34 ∨ x = 13 → x ∉ header_value value (str_bytes "application/octet-stream").
Proof. intros Hx [Hc Hq]%header_value_clean; [|vm_compute; reflexivity]. by destruct Hx; subst. Qed.

Lemma multipart_inj boundary1 boundary2 f1 t1 b1 f2 t2 b2 :
  13 ∉ boundary1 → 13 ∉ boundary2 →
  multipart_body boundary1 f1 t1 b1 = multipart_body boundary2 f2 t2 b2 →
  boundary1 = boundary2 ∧
  header_value f1 (str_bytes "upload.bin") = header_value f2 (str_bytes "upload.bin") ∧
  header_value t1 (str_bytes "application/octet-stream")
    = header_value t2 (str_bytes "application/octet-stream") ∧ b1 = b2.
Proof.
  intros H1 H2. unfold multipart_body.
  pose proof (filename_bytes f1 34) as Hf1. pose proof (filename_bytes f2 34) as Hf2.
  pose proof (content_type_bytes t1 13) as Ht1. pose proof (content_type_bytes t2 13) as Ht2.
  revert Hf1 Hf2 Ht1 Ht2.
  generalize (header_value f1 (str_bytes "upload.bin")), (header_value f2 (str_bytes "upload.bin")),
    (header_value t1 (str_bytes "application/octet-stream")),
    (header_value t2 (str_bytes "application/octet-stream")).
  intros g1 g2 u1 u2 Hf1 Hf2 Ht1 Ht2 Heq.
  apply app_inv_head in Heq. apply split_unique in Heq as [-> Heq]; [|done|done].
  split; [done|]. apply (app_inv_head [10]) in Heq.
  do 6 apply app_inv_head in Heq.
  apply split_unique in Heq as [-> Heq]; [|by apply Hf1; left|by apply Hf2; left]. split; [done|].
  do 2 apply app_inv_head in Heq.
  apply split_unique in Heq as [-> Heq]; [|by apply Ht1; right|by apply Ht2; right]. split; [done|].
  apply (app_inv_head [10]) in Heq. apply app_inv_head in Heq. by apply app_inv_tail in Heq.
Qed.

Lemma boundary_no_cr nanos : 0 ≤ nanos → 13 ∉ multipart_boundary nanos.
Proof. intros Hn Hin. pose proof (boundary_bytes nanos 13 Hn Hin). lia. Qed.

Section upload.
Context `{UrlEdit} {W : Type} `{!Sender W} `{JsonWriter} {V : Type} `{JsonValue V, BodyDecoder V}.
Context `{FromJson V AvatarUploadResponse}.
Context (base : Url).

(** The request of an upload at a reading of the clock. *)
Definition upload_request (filename content_type : string) (bytes : byte_list) (o : RequestOptions)
    (nanos : Z) : result HttpError HttpRequest :=
  let boundary := multipart_boundary nanos in
  let? request := empty_request base Post "me/avatar" o in
  attach_multipart boundary
    (multipart_body boundary (str_bytes filename) (str_bytes content_type) bytes) request.

Lemma attach_ok boundary body request request' :
  attach_multipart boundary body request = Ok request' →
  rq_body request' = Some body ∧ rq_method request' = rq_method request ∧
  ∀ name, to_ascii_lowercase name ≠ "content-type"%string →
    request_header name request' = request_header name request.
Proof.
  unfold attach_multipart, built.
  destruct (set_header _ _ _) as [[[]|] r] eqn:Hs; [|done]. cbn. intros [= <-].
  pose proof (set_header_method "content-type"
    (of_bytes (str_bytes "multipart/form-data; boundary=" ++ boundary)) request) as Hm.
  rewrite Hs in Hm. split_and!; [done|exact Hm|]. intros name Hn.
  pose proof (set_optional_lookup "content-type" (Some (of_bytes (str_bytes "multipart/form-data; boundary=" ++ boundary)))
    name request r Hs) as Hl. by rewrite bool_decide_eq_false_2 in Hl.
Qed.

Lemma upload_ok filename content_type bytes o nanos request :
  options_ok o → upload_request filename content_type bytes o nanos = Ok request →
  carries o request ∧
  rq_body request = Some (multipart_body (multipart_boundary nanos) (str_bytes filename)
                            (str_bytes content_type) bytes).
Proof.
  unfold upload_request. intros Ho (r & Hr & Ha)%result_bind_ok.
  destruct (empty_carries base o Post "me/avatar" r Ho ltac:(done) Hr) as (Hm & H1' & H2' & H3' & H4').
  destruct (attach_ok _ _ _ _ Ha) as (Hb & Hm' & Hh). split; [|done].
  split; [by rewrite Hm'|]. rewrite !Hh by (by vm_compute). done.
Qed.

Lemma upload_form filename content_type bytes o k (env : Env W) :
  opt_idempotency_key o = Some k →
  upload_avatar base filename content_type bytes o env =
  (let! request := checked (upload_request filename content_type bytes o (clock env (readings env))) in
   transmit (λ request response, decode_json (from_json (T:=AvatarUploadResponse)) response
                                   (url_path (rq_url request))) protected request)
    (mkEnv (clock env) (S (readings env)) (idempotency_counter env) (world env)).
Proof.
  intros Hk. unfold upload_avatar, upload_request. unfold se_bind at 1. cbn [read_clock].
  unfold ensure. rewrite Hk. cbv [se_bind se_ret]. unfold empty, checked, se_lift.
  destruct (empty_request _ _ _ _); [|done]. cbn. by destruct (attach_multipart _ _ _).
Qed.
End upload.

(** ** Properties *)

(** C25: every mutation of the API carries its identity and its preconditions. Each of
    the 36 mutating accessors first checks what it needs (a control connection, an
    ETag, a parent's ETag) and, if that is missing, reports it and sends nothing.
    Otherwise it sends at most one request, which is never a GET, which holds every
    option of the caller in its own header, and whose idempotency key is the caller's
    or a generated, valid one. The request depends on nothing but the arguments and
    the key, so a call that is repeated with the same key sends the same request. No
    accessor panics. *)
Theorem every_mutation_identified `{UrlEdit} {W : Type} `{!Sender W} `{JsonWriter} {V : Type}
    `{JsonValue V, BodyDecoder V}
    `{FromJson V Group, FromJson V AccessEntry, FromJson V Channel, FromJson V User, FromJson V RoleRecord,
      FromJson V RoleBinding, FromJson V PermissionConfig, FromJson V OwnerTransferResponse, FromJson V Mute,
      FromJson V CreateInviteResponse, FromJson V VoiceJoinResponse, FromJson V UserEnvelope, Base64Lib}
    (card : ServerCard) (base : Url) (T : Type) (g : Guards) (f : RequestOptions → api W T) :
  endpoint_mutation card base T g f → mutation_spec g f.
Proof. apply every_mutation_form. Qed.

(** A replayed avatar upload is a different request. With a key of the caller the
    upload sends that key at every attempt; but the boundary is drawn from the clock,
    so the body differs whenever the clock does. *)
Theorem avatar_replay_changes_body `{UrlEdit} {W : Type} `{!Sender W} {V : Type}
    `{JsonValue V, BodyDecoder V, FromJson V AvatarUploadResponse}
    (base : Url) (filename content_type : string) (bytes : byte_list) (o : RequestOptions) (k : string) :
  options_ok o → opt_idempotency_key o = Some k →
  ∃ build finish,
    (∀ env : Env W, upload_avatar base filename content_type bytes o env =
       (let! request := checked (build (clock env (readings env))) in
        transmit finish protected request)
         (mkEnv (clock env) (S (readings env)) (idempotency_counter env) (world env))) ∧
    ∀ n1 n2 r1 r2, 0 ≤ n1 < 2 ^ 128 → 0 ≤ n2 < 2 ^ 128 → n1 ≠ n2 →
      build n1 = Ok r1 → build n2 = Ok r2 →
      request_header IDEMPOTENCY_KEY r1 = Some k ∧ request_header IDEMPOTENCY_KEY r2 = Some k ∧
      rq_body r1 ≠ rq_body r2.
Proof.
  intros Ho Hk. eexists (upload_request base filename content_type bytes o), _.
  split; [intros env; by apply (upload_form base filename content_type bytes o k)|].
  intros n1 n2 r1 r2 Hn1 Hn2 Hne Hr1 Hr2.
  destruct (upload_ok _ _ _ _ _ _ _ Ho Hr1) as [(_ & Hk1 & _) Hb1].
  destruct (upload_ok _ _ _ _ _ _ _ Ho Hr2) as [(_ & Hk2 & _) Hb2].
  rewrite Hk1, Hk2, Hb1, Hb2. split; [done|]. split; [done|]. intros Heq. apply (inj Some) in Heq.
  pose proof (multipart_inj _ _ _ _ _ _ _ _ (boundary_no_cr n1 ltac:(lia)) (boundary_no_cr n2 ltac:(lia)) Heq) as [Hb _].
  exact (Hne (boundary_inj n1 n2 Hn1 Hn2 Hb)).
Qed.

(** The parts of an upload cannot be confused. The filename and the content type of
    the caller reach the body without control bytes and quotes, so they end neither
    their header nor the headers; two uploads with the same body have the same
    sanitized filename, content type and contents. *)
Theorem multipart_unambiguous (n1 n2 : Z) (f1 t1 b1 f2 t2 b2 : byte_list) :
  0 ≤ n1 < 2 ^ 128 → 0 ≤ n2 < 2 ^ 128 →
  (∀ v fallback x, fallback = str_bytes "upload.bin" ∨ fallback = str_bytes "application/octet-stream" →
     x = 34 ∨ x = 13 → x ∉ header_value v fallback) ∧
  (multipart_body (multipart_boundary n1) f1 t1 b1 = multipart_body (multipart_boundary n2) f2 t2 b2 →
   n1 = n2 ∧ header_value f1 (str_bytes "upload.bin") = header_value f2 (str_bytes "upload.bin") ∧
   header_value t1 (str_bytes "application/octet-stream")
     = header_value t2 (str_bytes "application/octet-stream") ∧ b1 = b2).
Proof.
  intros H1 H2. split.
  - intros v fallback x [-> | ->]; [apply filename_bytes|apply content_type_bytes].
  - intros Heq. destruct (multipart_inj _ _ _ _ _ _ _ _ (boundary_no_cr n1 ltac:(lia)) (boundary_no_cr n2 ltac:(lia)) Heq)
      as [Hb Hrest].
    split; [exact (boundary_inj n1 n2 H1 H2 Hb)|exact Hrest].
Qed.

(** ** A concrete server *)

Module ToyApi.
(** Every request is answered with an empty 204. *)
#[export] Instance sender : @Sender ToyUrl.lib ToyUrl.edit unit :=
  {| send_request := λ _ _ w, (Ok (response_empty 204), w) |}.

#[export] Instance body : BodyDecoder Toy.value :=
  {| envelope_from_slice _ := Ok (Envelope.success Toy.Null) |}.

#[export] Instance writer : JsonWriter := λ _, Ok [].
#[export] Instance reader T : FromJson Toy.value T := λ _, Err "toy"%string.
#[export] Instance base64 : Base64Lib := {| decode_standard text := Some (str_bytes text) |}.

Definition base : @Url ToyUrl.lib := "http://example.org/api/v0/"%string.
Definition card : ServerCard := mkServerCard Plain "example.org" 7788 None None 1.
End ToyApi.

#[local] Existing Instance ToyUrl.lib.
#[local] Existing Instance ToyUrl.edit.
#[local] Existing Instance Toy.value_json.
#[local] Existing Instance ToyApi.sender.
#[local] Existing Instance ToyApi.body.
#[local] Existing Instance ToyApi.writer.
#[local] Existing Instance ToyApi.reader.
#[local] Existing Instance ToyApi.base64.

Definition toy_env : Env unit := mkEnv (λ n, 1000 + Z.of_nat n) 0 1 tt.

Example toy_delete_group_unguarded :
  (delete_group (V:=Toy.value) ToyApi.base 5 options_new toy_env).1
  = Err (Failed (MissingPrecondition IF_MATCH)).
Proof. vm_compute. reflexivity. Qed.

Example toy_delete_group_sent :
  (delete_group (V:=Toy.value) ToyApi.base 5 toy_options toy_env).1
  = Ok (mkApiResponse tt 204 (mkResponseHeaders None None None None None None false)).
Proof. vm_compute. reflexivity. Qed.

Lemma every_mutation_identified_witness :
  mutation_spec by_etag (delete_group (W:=unit) (V:=Toy.value) ToyApi.base 5).
Proof.
  apply (every_mutation_identified (V:=Toy.value) ToyApi.card ToyApi.base _ by_etag). constructor.
Defined.

Lemma toy_options_ok : options_ok toy_options.
Proof.
  split; [|done]. intros key [= <-].
  apply (proj1 (idempotency_key_new_ok _ "sdk-0000000000000001")). vm_compute. reflexivity.
Qed.

(** Two attempts of the same upload, a nanosecond apart. *)
Lemma avatar_replay_changes_body_witness :
  ∃ build : Z → result HttpError HttpRequest,
    ∀ r1 r2, build 1 = Ok r1 → build 2 = Ok r2 →
      request_header IDEMPOTENCY_KEY r1 = request_header IDEMPOTENCY_KEY r2 ∧ rq_body r1 ≠ rq_body r2.
Proof.
  destruct (avatar_replay_changes_body (W:=unit) (V:=Toy.value) ToyApi.base "a.png" "image/png" [1; 2; 3]
    toy_options "sdk-0000000000000001" toy_options_ok eq_refl) as (build & finish & _ & Hdiff).
  exists build. intros r1 r2 H1 H2.
  destruct (Hdiff 1 2 r1 r2 ltac:(lia) ltac:(lia) ltac:(lia) H1 H2) as (Hk1 & Hk2 & Hne).
  split; [congruence|done].
Defined.

Lemma multipart_unambiguous_witness :
  34 ∉ header_value (str_bytes "a") (str_bytes "upload.bin").
Proof.
  apply (proj1 (multipart_unambiguous 1 2 [] [] [] [] [] [] ltac:(lia) ltac:(lia)));
    by left.
Defined.
