(* ===== verification/HttpSession.v ===== *)
(** The client core as the endpoints use it (crates/zephyrvox-http/src/client.rs and
    client/refresh.rs): one call of [send_request] and of [refresh_access] from its
    start to its end with no other task in between, the interfaces [Sender] and
    [Session] it implements, and its place among the interleavings of HttpRefresh. *)

From S2P Require Import Prelude Text Types Json Wire ClientModel HttpTypes HttpClient HttpRefresh.
From S2P Require Import HttpApi HttpUsers HttpAuth.

(** The [HttpTransport] trait over the state of a transport. *)
Class Transport `{UrlEdit} (T : Type) := {
  transport_send : HttpRequest → T → result HttpError HttpResponse * T;
}.

Section session.
Context `{UrlEdit} {S : Type} `{CredentialStore S} {T : Type} `{!Transport T} {V : Type}
  `{JsonValue V, BodyDecoder V, AuthCodec V}.
Context (base : Url).

Record ClientWorld := mkClientWorld {
  cw_client : Client S;
  cw_transport : T;
}.

Definition on_client {A} (op : se (Client S) HttpError A) : se ClientWorld HttpError A := λ w,
  match op (cw_client w) with
  | (r, c) => (r, mkClientWorld c (cw_transport w))
  end.

(** [self.transport.send(request).await], with its outcome as a value. *)
Definition ask (request : HttpRequest) : se ClientWorld HttpError (result HttpError HttpResponse) := λ w,
  match transport_send request (cw_transport w) with
  | (r, t) => (Ok r, mkClientWorld (cw_client w) t)
  end.

(** [refresh_access] of a leader, [refresh_once]. *)
Definition refresh_access : se ClientWorld HttpError TokenPair :=
  let! (current, request) := on_client (refresh_begin base) in
  let! response := ask request in
  on_client (refresh_commit current response).

(** [send_request]. *)
Definition client_send (request : HttpRequest) (auth : AuthRequirement)
    : se ClientWorld HttpError HttpResponse :=
  match auth with
  | NoAuth => let! response := ask request in se_lift response
  | AccessToken retry_once =>
      let! (request, sent) := on_client (authorize request) in
      let! response := ask request in
      let! response := se_lift response in
      if (rs_status response =? 401) && retry_once then
        let! active := on_client (still_active sent) in
        let! _ := (if active : bool then let! _ := refresh_access in se_ret tt else se_ret tt) in
        let! (retry, _) := on_client (authorize request) in
        let! response := ask retry in
        se_lift response
      else se_ret response
  end.

#[export] Instance client_sender : Sender ClientWorld := {| send_request := client_send |}.

#[export] Instance client_session : Session ClientWorld := {|
  session_load := on_client load_credentials;
  session_set tokens := on_client (set_tokens tokens);
  session_clear := on_client clear_tokens;
  session_refresh := refresh_access;
|}.

(** ** A sequential call is a run of its task *)

Lemma task_runs retry original sh q effect sh' q' log :
  request_step (V:=V) base retry sh q effect sh' q' →
  (∀ f, wake f (TRequest retry original q') = TRequest retry original q') →
  ∃ log', world_step (V:=V) base (mkWorld sh [TRequest retry original q] log) (mkWorld sh' [TRequest retry original q'] log').
Proof.
  intros Hstep Hwake. eexists.
  pose proof (world_task base sh [TRequest retry original q] log 0 _ effect sh' _ eq_refl
    (task_request base sh retry original q effect sh' q' Hstep)) as Hw.
  replace (perform 0 effect (<[0%nat:=TRequest retry original q']> [TRequest retry original q]) log).1
    with [TRequest retry original q'] in Hw; [exact Hw|].
  destruct effect as [|f| | |]; try done. unfold perform. cbn [fst].
  change (<[0%nat:=TRequest retry original q']> [TRequest retry original q]) with [TRequest retry original q'].
  rewrite <- (Hwake f) at 1. done.
Qed.

(** One task, and the client and the gate around it. *)
Definition alone (c : Client S) (gate : option nat) (flights : list Flight) (t : Task) (log : list SentLog)
    : World S := mkWorld (mkShared c gate flights) [t] log.

Definition reaches (w : World S) (c : Client S) (t : Task) : Prop :=
  ∃ flights log, rtc (world_step (V:=V) base) w (alone c None flights t log).

Lemma reaches_step w sh' t' log' c t :
  world_step (V:=V) base w (mkWorld sh' [t'] log') →
  reaches (mkWorld sh' [t'] log') c t → reaches w c t.
Proof. intros Hs (fl & log & Hr). exists fl, log. by eapply rtc_l. Qed.

Lemma reaches_task retry original sh q effect sh' q' log c t :
  request_step (V:=V) base retry sh q effect sh' q' →
  (∀ f, wake f (TRequest retry original q') = TRequest retry original q') →
  (∀ log', reaches (mkWorld sh' [TRequest retry original q'] log') c t) →
  reaches (mkWorld sh [TRequest retry original q] log) c t.
Proof.
  intros Hs Hw Hr. destruct (task_runs _ _ _ _ _ _ _ log Hs Hw) as [log' Hstep].
  by eapply reaches_step.
Qed.

Lemma reaches_refl c flights t log : reaches (mkWorld (mkShared c None flights) [t] log) c t.
Proof. by exists flights, log. Qed.

(** The lookups of the flight that a leader has just opened. *)
Lemma last_flight (flights : list Flight) flight : (flights ++ [flight]) !! length flights = Some flight.
Proof. by rewrite lookup_app_r, Nat.sub_diag. Qed.

(** From the publication of a result to the end of the refresh. *)
Lemma reaches_published retry original request f r c flights log c' t :
  is_Some (flights !! f) →
  (∀ flights log', reaches (mkWorld (mkShared c None flights)
     [TRequest retry original (QRefresh request (RDone f r))] log') c' t) →
  reaches (mkWorld (mkShared c (Some f) flights) [TRequest retry original (QRefresh request (RPublish f r))] log) c' t.
Proof.
  intros [flight Hf] Hend.
  eapply reaches_task; [apply request_refresh, refresh_publish|done|]. intros log1.
  unfold publish. cbn [sh_flights]. rewrite Hf.
  eapply reaches_task; [apply request_refresh, refresh_notify|done|]. intros log2.
  eapply reaches_task; [apply request_refresh, refresh_leave|done|]. intros log3.
  unfold leave_gate, set_flight. cbn [refresh_gate]. rewrite bool_decide_eq_true_2 by done. apply Hend.
Qed.

Lemma reaches_refresh retry original request c tr flights log r w c' t :
  refresh_access (mkClientWorld c tr) = (r, w) →
  (∀ f flights log', reaches (mkWorld (mkShared (cw_client w) None flights)
     [TRequest retry original (QRefresh request (RDone f r))] log') c' t) →
  reaches (mkWorld (mkShared c None flights) [TRequest retry original (QRefresh request RStart)] log) c' t.
Proof.
  unfold refresh_access, se_bind, on_client. cbn [cw_client]. intros Hrun Hend.
  eapply reaches_task; [by apply request_refresh, refresh_enter|done|]. intros log1.
  destruct (refresh_begin base c) as [[[current req]|e] c1] eqn:Hb.
  - eapply reaches_task; [by apply request_refresh, refresh_load_ok|done|]. intros log2.
    cbn in Hrun. destruct (transport_send req tr) as [response tr'] eqn:Hsend.
    unfold ask in Hrun. cbn in Hrun. rewrite Hsend in Hrun.
    eapply reaches_task; [apply request_refresh, (refresh_answer _ _ _ _ response)|done|]. intros log3.
    cbn in Hrun. destruct (refresh_commit current response c1) as [r2 c2] eqn:Hc. injection Hrun as <- <-.
    eapply reaches_task; [by apply request_refresh, refresh_section|done|]. intros log4.
    apply reaches_published; [cbn; rewrite last_flight; by eexists|]. intros. apply Hend.
  - injection Hrun as <- <-.
    eapply reaches_task; [by apply request_refresh, refresh_load_err|done|]. intros log2.
    apply reaches_published; [cbn; rewrite last_flight; by eexists|]. intros. apply Hend.
Qed.

(** The retry of a request. *)
Lemma reaches_retry retry original request c tr flights log r w :
  (let! (retry, _) := on_client (authorize request) in
   let! response := ask retry in
   se_lift response) (mkClientWorld c tr) = (r, w) →
  reaches (mkWorld (mkShared c None flights) [TRequest retry original (QRetry request)] log)
    (cw_client w) (TRequest retry original (QDone r)).
Proof.
  unfold se_bind, on_client. cbn [cw_client]. intros Hrun.
  destruct (authorize request c) as [[[request' sent]|e] c1] eqn:Ha.
  - cbn in Hrun. unfold ask in Hrun. cbn in Hrun.
    destruct (transport_send request' tr) as [response tr']. cbn in Hrun. injection Hrun as <- <-.
    eapply reaches_task; [by eapply request_retry_ok|done|]. intros log1.
    eapply reaches_task; [apply (request_second_answer _ _ _ _ response)|done|]. intros log2.
    apply reaches_refl.
  - injection Hrun as <- <-. eapply reaches_task; [by eapply request_retry_err|done|]. intros log1.
    apply reaches_refl.
Qed.

Lemma send_runs retry request c tr flights log r w :
  client_send request (AccessToken retry) (mkClientWorld c tr) = (r, w) →
  reaches (mkWorld (mkShared c None flights) [TRequest retry request (QLoad request)] log)
    (cw_client w) (TRequest retry request (QDone r)).
Proof.
  unfold client_send. unfold se_bind at 1, on_client at 1. cbn [cw_client]. intros Hrun.
  destruct (authorize request c) as [[[request' sent]|e] c1] eqn:Ha.
  2: { injection Hrun as <- <-. eapply reaches_task; [by eapply request_load_err|done|]. intros log1.
       apply reaches_refl. }
  eapply reaches_task; [by eapply request_load_ok|done|]. intros log1.
  unfold se_bind at 1, ask at 1 in Hrun. cbn in Hrun.
  destruct (transport_send request' tr) as [response tr'].
  eapply reaches_task; [apply (request_answer _ _ _ _ _ response)|by intros f; destruct response; cbn; [case_match|]|].
  intros log2. unfold se_bind at 1, se_lift at 1 in Hrun. cbn [cw_transport] in Hrun.
  destruct response as [response|e]; cbn [first_answer]; [|injection Hrun as <- <-; apply reaches_refl].
  destruct ((rs_status response =? 401) && retry); [|injection Hrun as <- <-; apply reaches_refl].
  unfold se_bind at 1, on_client at 1 in Hrun. cbn [cw_client cw_transport] in Hrun.
  unfold set_client. cbn [refresh_gate sh_flights].
  destruct (still_active sent c1) as [[active|e] c2] eqn:Hactive.
  2: { injection Hrun as <- <-. eapply reaches_task; [by eapply request_compare_err|done|]. intros log3.
       apply reaches_refl. }
  eapply reaches_task; [by eapply request_compare_ok|by destruct active|]. intros log3.
  unfold set_client. cbn [refresh_gate sh_flights]. destruct active.
  - unfold se_bind at 1 in Hrun. unfold se_bind at 1 in Hrun.
    destruct (refresh_access (mkClientWorld c2 tr')) as [rr w'] eqn:Href.
    eapply reaches_refresh; [exact Href|]. intros f flights' log4. destruct w' as [c3 tr3].
    eapply reaches_task; [apply request_refreshed|by destruct rr|]. intros log5.
    destruct rr as [tokens|e]; [|injection Hrun as <- <-; apply reaches_refl].
    eapply reaches_retry. exact Hrun.
  - eapply reaches_retry. exact Hrun.
Qed.
End session.

Arguments ClientWorld S T : clear implicits.

(** ** Properties *)

Section theorems.
Context `{UrlEdit} {S : Type} `{CredentialStore S} {T : Type} `{!Transport T} {V : Type}
  `{JsonValue V, BodyDecoder V, AuthCodec V, JsonWriter}.
Context (base : Url).

(** A sequential call is one of the interleavings. Whatever the transport answers,
    a protected request that runs from start to end without other tasks has the result
    and leaves the credentials of a run of its task in the concurrent model, with the
    refresh gate free before and after. *)
Lemma sequential_send_refines_task (retry : bool) (request : HttpRequest) (c : Client S) (tr : T)
    (flights : list Flight) (log : list SentLog) :
  let '(r, w) := client_send base request (AccessToken retry) (mkClientWorld c tr) in
  ∃ flights' log',
    rtc (world_step (V:=V) base)
      (mkWorld (mkShared c None flights) [TRequest retry request (QLoad request)] log)
      (mkWorld (mkShared (cw_client w) None flights') [TRequest retry request (QDone r)] log').
Proof.
  destruct (client_send _ _ _ _) as [r w] eqn:Hs. by apply (send_runs base retry request c tr flights log).
Qed.

Context `{FromJson V LoginWireResponse} (L : StoreLaws S).

(** The interfaces at this client. *)
#[local] Instance sender : Sender (ClientWorld S T) := client_sender (V:=V) base.
#[local] Instance session : Session (ClientWorld S T) := client_session (V:=V) base.

Lemma ask_client request (w : ClientWorld S T) : cw_client (ask request w).2 = cw_client w.
Proof. unfold ask. by destruct (transport_send _ _). Qed.

(** An unauthenticated request leaves the credentials alone. *)
Lemma anonymous_client request (w : ClientWorld S T) :
  cw_client (client_send base request NoAuth w).2 = cw_client w.
Proof.
  unfold client_send, se_bind. pose proof (ask_client request w) as Ha.
  by destruct (ask request w) as [[]].
Qed.

Lemma send_json_client {A} `{FromJson V A} request (env : Env (ClientWorld S T)) :
  cw_client (world (send_json (W:=ClientWorld S T) (V:=V) (T:=A) request NoAuth env).2) = cw_client (world env).
Proof.
  unfold send_json, on_world, se_bind. pose proof (anonymous_client request (world env)) as Ha.
  change (send_request request NoAuth (world env)) with (client_send base request NoAuth (world env)).
  by destruct (client_send _ _ _ _) as [[]].
Qed.

Lemma send_no_content_client request (env : Env (ClientWorld S T)) :
  cw_client (world (send_no_content (W:=ClientWorld S T) (V:=V) request NoAuth env).2) = cw_client (world env).
Proof.
  unfold send_no_content, on_world, se_bind. pose proof (anonymous_client request (world env)) as Ha.
  change (send_request request NoAuth (world env)) with (client_send base request NoAuth (world env)).
  by destruct (client_send _ _ _ _) as [[]].
Qed.

(** What a login changes. When [login] succeeds its tokens are the active and the
    stored ones; on every failure (a refused request, a malformed answer, an invalid
    pair, a store that refuses to save) the credentials are as they were. *)
Theorem login_installs_tokens (input : LoginRequest) (env : Env (ClientWorld S T)) :
  let c := cw_client (world env) in
  let '(r, env') := login (V:=V) base input env in
  let c' := cw_client (world env') in
  match r with
  | Ok result => token_state c' = Some (login_tokens result) ∧
                 stored L (credential_store c') = Some (login_tokens result) ∧ credentials_loaded c' = true
  | Err _ => unchanged L c c'
  end.
Proof.
  unfold login, json_body, checked, se_lift. unfold se_bind at 1.
  destruct (json_request _ _ _ _ _) as [request|e]; cbn [map_err]; [|apply unchanged_refl].
  unfold se_bind at 1. pose proof (send_json_client (A:=LoginWireResponse) request env) as Hc.
  destruct (send_json _ _ _) as [[response|e] env1]; cbn [snd] in Hc; [|by rewrite Hc].
  unfold se_bind at 1. destruct (from_expires_in _ _ _) as [tokens|e]; cbn [map_err]; [|by rewrite Hc].
  unfold se_bind, on_world. cbn [session_set session client_session]. unfold on_client.
  rewrite Hc. destruct (set_tokens_cases L tokens (cw_client (world env)))
    as [(c' & -> & Ht & Hl & Hs)|(e & c' & -> & Hu & _)]; cbn; [by split_and!|exact Hu].
Qed.

(** What a logout changes. When [logout] succeeds no credentials are active, and
    none are stored if there were any; it sends the refresh token only if there is
    one. On every failure, a refusal by the server among them, the stored pair is kept
    and the active one is as it was, but for a first load of the store. *)
Theorem logout_clears_tokens (o : RequestOptions) (env : Env (ClientWorld S T)) :
  let c := cw_client (world env) in
  let '(r, env') := logout_with_options (V:=V) base o env in
  let c' := cw_client (world env') in
  match r with
  | Ok _ => token_state c' = None ∧ (stored L (credential_store c') = None ∨
              stored L (credential_store c') = stored L (credential_store c) ∧
              token_state c' = token_state (load_credentials c).2)
  | Err _ => stored L (credential_store c') = stored L (credential_store c) ∧
             (credentials_loaded c = true → token_state c' = token_state c)
  end.
Proof.
  unfold logout_with_options. unfold se_bind at 1.
  assert (world (ensure o env).2 = world env) as Hw.
  { unfold ensure, with_identity, read_clock, se_bind. destruct (opt_idempotency_key o); [done|].
    cbn. by destruct (ensure_idempotency _ _ _) as [[]|]. }
  destruct (ensure o env) as [[o'|e] env1]; cbn [snd] in Hw; rewrite <- Hw; [|by split].
  unfold se_bind at 1, on_world at 1. cbn [session_load session client_session]. unfold on_client at 1.
  set (c := cw_client (world env1)).
  destruct (load_credentials_cases L c) as [(c1 & Hload & _ & Hs & Hsame & _)|(e & c1 & Hload & Hu & _)];
    rewrite Hload; cbn [map_err world cw_client snd].
  2: { destruct Hu as (Ht & _ & Hs). by split. }
  assert (credentials_loaded c = true → token_state c1 = token_state c) as Hkeep by (by intros ->%Hsame).
  destruct (token_state c1) as [tokens|] eqn:Ht; [|cbn; rewrite Ht; split; [done|by right]].
  unfold json_body, checked, se_lift. unfold se_bind at 1.
  destruct (json_request _ _ _ _ _) as [request|e]; cbn [map_err]; [|cbn; by rewrite Ht].
  unfold se_bind at 1.
  match goal with |- context [send_no_content request NoAuth ?env2] =>
    pose proof (send_no_content_client request env2) as Hc; destruct (send_no_content request NoAuth env2) as [[response|e] env3] end;
    cbn [snd world cw_client] in Hc.
  2: { rewrite Hc. by rewrite Ht. }
  unfold on_world. cbn [session_clear session client_session]. unfold on_client. rewrite Hc.
  destruct (clear_tokens_cases L c1) as [(c2 & -> & Ht2 & _ & Hs2)|(e & c2 & -> & Hu2 & _)]; cbn.
  - split; [done|by left].
  - destruct Hu2 as (Ht2 & _ & Hs2). rewrite Hs2, Ht2, Ht. by split.
Qed.
End theorems.
