(* ===== verification/HttpMetadata.v ===== *)
(** The accessors of the client itself: the server's metadata and the state snapshot
    (crates/zephyrvox-http/src/discovery.rs). *)

From S2P Require Import Prelude Text Types Json Wire ClientModel HttpTypes HttpClient HttpDiscovery.
From S2P Require Import HttpApi.

Section metadata.
Context `{UrlEdit} {W : Type} `{!Sender W} {V : Type} `{JsonValue V, BodyDecoder V}.
Context `{FromJson V Metadata, FromJson V StateSnapshot}.
Context (base : Url).

Definition metadata_response : api W (ApiResponse Metadata) :=
  let! request := empty base Get "metadata" options_new in
  let! response := send_json request NoAuth in
  checked (check_metadata response).

Definition metadata : api W Metadata :=
  let! response := metadata_response in
  se_ret (resp_data response).

Definition snapshot_response : api W (ApiResponse StateSnapshot) :=
  let! request := empty base Get "state/snapshot" options_new in
  send_json request protected.

Definition http_snapshot : api W StateSnapshot :=
  let! response := snapshot_response in
  se_ret (resp_data response).
End metadata.

(** Metadata that reaches a caller has passed the check. *)
Section facts.
Context `{UrlEdit} {W : Type} `{!Sender W} {V : Type} `{JsonValue V, BodyDecoder V}.
Context `{FromJson V Metadata} (base : Url).

Lemma metadata_checked m (env env' : Env W) :
  metadata base env = (Ok m, env') →
  protocol_version m = PROTOCOL_VERSION ∧ validate_metadata m = Ok tt.
Proof.
  unfold metadata, metadata_response. intros Hm.
  apply se_bind_ok in Hm as (response & env1 & Hr & Hret). injection Hret as <- _.
  apply se_bind_ok in Hr as (request & env2 & _ & Hr).
  apply se_bind_ok in Hr as (sent & env3 & _ & Hr).
  unfold checked, se_lift in Hr. injection Hr as Hr _.
  unfold check_metadata in Hr. case_match eqn:Hv; [done|]. apply negb_false_iff, Z.eqb_eq in Hv.
  destruct (validate_metadata (resp_data sent)) as [[]|] eqn:Hd; [|done]. cbn in Hr.
  by injection Hr as <-.
Qed.
End facts.
