(* ===== verification/SdkTypes.v ===== *)
(** Data of the high-level client (crates/zephyrvox-sdk/src: errors.rs, adapters.rs,
    config.rs, the types of events.rs) and the adapter of provider.rs between the HTTP
    client and the realtime connection. *)

From S2P Require Import Prelude Text Types Json Wire ClientModel VoiceTypes RealtimeTypes RealtimeTransport.
From S2P Require Import HttpTypes HttpClient HttpApi HttpDiscovery HttpAuth.

(** ** errors.rs and the texts that reach it *)

Inductive SdkError :=
| SdkHttp (e : HttpError)
| SdkRealtime (e : RealtimeError)
| SdkVoice (e : VoiceError)
| SdkCredentials (e : CredentialStoreError)
| SdkServerCard (e : ServerCardError)
| SdkIdentifier (e : IdError)
| SdkConfiguration (text : string)
| NotConnected
| ControlNotLive
| VoiceControlUnavailable
| CodecUnavailable
| VoiceNegotiationError (text : string)
| SdkClosed.

Definition channel_mismatch (channel_id : Z) : SdkError :=
  VoiceNegotiationError ("join response does not match channel " +:+ Snowflake.fmt channel_id).

Definition display_credential_error (e : CredentialStoreError) : string :=
  (match e with
   | Storage t => "credential store operation failed: " +:+ t
   | InvalidTokenPair => "credential pair is invalid"
   end)%string.

Definition display_api_error (e : ApiError) : string :=
  ("API error " +:+ display_i64 (ApiError_code e) +:+ ": " +:+ ApiError_message e)%string.

Definition display_envelope_error (e : EnvelopeError) : string :=
  (match e with
   | Api e => display_api_error e
   | MissingSuccessData => "successful API envelope omitted data"
   | NonEmptySuccessMessage => "successful API envelope must have an empty message"
   | DataSerialization t => "could not serialize API error data: " +:+ t
   | DataDeserialization t => "could not deserialize API response data: " +:+ t
   end)%string.

Definition display_http_error (e : HttpError) : string :=
  (match e with
   | HttpTransport t => "HTTP transport failed: " +:+ t
   | HttpInvalidUrl t => "invalid HTTP URL: " +:+ t
   | HttpInvalidHeader t => "invalid HTTP header: " +:+ t
   | HttpJson t => "invalid JSON response: " +:+ t
   | HttpWire t => "wire contract violation: " +:+ t
   | HttpEnvelope e => display_envelope_error e
   | HttpTypes.HttpApi e => display_api_error e
   | PreconditionFailed e => display_api_error e
   | HttpStatus status endpoint => "HTTP status " +:+ display_u64 status +:+ " from " +:+ endpoint
   | HttpAuthenticationRequired => "authentication is required"
   | HttpAuthExpired => "authentication expired"
   | HttpTypes.ProtocolVersionMismatch expected actual =>
       "protocol version mismatch: expected " +:+ display_u64 expected +:+ ", got " +:+ display_u64 actual
   | HttpTlsPinMismatch expected actual =>
       "TLS SPKI fingerprint mismatch: expected " +:+ expected +:+ ", got " +:+ actual
   | TlsPeerCertificateUnavailable => "TLS peer certificate was unavailable for fingerprint pinning"
   | TlsPeerCertificateInvalid => "TLS peer certificate was invalid"
   | UnexpectedNoContent endpoint =>
       "endpoint " +:+ endpoint +:+ " returned 204 instead of a JSON envelope"
   | UnexpectedContent endpoint =>
       "endpoint " +:+ endpoint +:+ " returned a body with 204 No Content"
   | ExpectedNoContent endpoint => "endpoint " +:+ endpoint +:+ " did not return 204 No Content"
   | HttpClosed => "HTTP client is closed"
   | MissingControlConnection => "voice control request requires an active control connection"
   | MissingPrecondition header => "missing required HTTP precondition header: " +:+ header
   | HttpCredential e => display_credential_error e
   end)%string.

Definition display_packet_error (e : PacketError) : string :=
  (match e with
   | Truncated => "voice datagram is truncated"
   | Oversized => "voice datagram exceeds 1200 bytes"
   | InvalidMagic => "voice datagram has invalid magic"
   | PacketUnsupportedVersion v => "unsupported voice protocol version " +:+ display_u64 v
   | InvalidFlags => "voice datagram contains unsupported flags"
   | WrongSession => "voice datagram belongs to another session"
   | SequenceZero => "voice transport sequence must start at one"
   | AuthenticationFailed => "voice datagram authentication failed"
   | InvalidControlPacket => "voice heartbeat or revocation packet is malformed"
   | InvalidSpeaker => "voice media packet has an invalid speaker id"
   | UnknownStreamType t => "voice stream type " +:+ display_u64 t +:+ " is not registered"
   | PayloadTooLarge actual maximum =>
       "voice media payload is " +:+ display_u64 actual +:+ " bytes, maximum is " +:+ display_u64 maximum
   | HeartbeatStream => "voice stream type zero is reserved for heartbeat and revocation"
   end)%string.

(** The derived [Debug] of [RevocationReason]. *)
Definition debug_revocation_reason (r : RevocationReason) : string :=
  (match r with
   | Replaced => "Replaced"
   | Revoked => "Revoked"
   | VoiceTypes.Unknown v => "Unknown(" +:+ display_u64 v +:+ ")"
   end)%string.

Definition display_voice_error (e : VoiceError) : string :=
  (match e with
   | Configuration t => "invalid voice configuration: " +:+ t
   | Endpoint t => "voice endpoint failed: " +:+ t
   | Transport t => "voice UDP transport failed: " +:+ t
   | Packet e => display_packet_error e
   | KeyUnavailable => "encrypted voice session key is unavailable"
   | VoiceTypes.ProtocolVersionMismatch expected actual =>
       "voice protocol version mismatch: expected " +:+ display_u64 expected +:+ ", got "
       +:+ display_u64 actual
   | QueueFull => "voice media queue is full"
   | MediaLagged missed => "voice media receiver lagged by " +:+ display_u64 missed +:+ " frames"
   | Closed => "voice session is closed"
   | NotActive => "voice session is not active"
   | SequenceExhausted => "voice transport sequence is exhausted"
   | VoiceRevoked r => "voice session was revoked: " +:+ debug_revocation_reason r
   end)%string.

Definition display_card_error (e : ServerCardError) : string :=
  (match e with
   | InvalidUrl t => "invalid server card URL: " +:+ t
   | UnsupportedScheme t => "unsupported server card scheme: " +:+ t
   | MissingPort => "server card must contain an explicit port"
   | InvalidHost t => "invalid server card host: " +:+ t
   | MissingVersion => "server card must contain a v query parameter"
   | InvalidVersion t => "invalid protocol version: " +:+ t
   | UnsupportedVersion v => "unsupported protocol version: " +:+ display_u64 v
   | DuplicateQuery t => "duplicate server card query parameter: " +:+ t
   | UnknownQuery t => "unknown server card query parameter: " +:+ t
   | MissingFingerprint => "TLS server cards require an SPKI fingerprint"
   | UnexpectedFingerprint => "plain server cards must not carry an SPKI fingerprint"
   | InvalidFingerprint value => "invalid SPKI fingerprint: " +:+ value
   | InvalidPort => "server card port must be non-zero"
   end)%string.

Definition display_sdk_error (e : SdkError) : string :=
  (match e with
   | SdkHttp e => display_http_error e
   | SdkRealtime e => display_realtime_error e
   | SdkVoice e => display_voice_error e
   | SdkCredentials e => display_credential_error e
   | SdkServerCard e => display_card_error e
   | SdkIdentifier e => display_id_error e
   | SdkConfiguration t => "invalid client configuration: " +:+ t
   | NotConnected => "no active control connection"
   | ControlNotLive => "control connection is not live"
   | VoiceControlUnavailable => "voice control authority is unavailable"
   | CodecUnavailable => "server metadata does not advertise a voice codec"
   | VoiceNegotiationError t => "invalid voice negotiation: " +:+ t
   | SdkClosed => "SDK client is closed"
   end)%string.

(** ** config.rs. The credential store is the one the client state carries. *)

Record ClientConfig := mkClientConfig {
  server_card : ServerCard;
  request_timeout : Z;
  config_reconnect : ReconnectPolicy;
  config_auto_rejoin_voice : bool;
}.

Module ClientConfig.
Definition new (card : ServerCard) : ClientConfig :=
  mkClientConfig card (from_secs 15) ReconnectPolicy.default_policy false.

Definition with_request_timeout (timeout : Z) (c : ClientConfig) : result SdkError ClientConfig :=
  if timeout =? 0 then Err (SdkConfiguration "request timeout must be non-zero")
  else Ok (mkClientConfig (server_card c) timeout (config_reconnect c) (config_auto_rejoin_voice c)).

Definition with_reconnect_policy (p : ReconnectPolicy) (c : ClientConfig) : ClientConfig :=
  mkClientConfig (server_card c) (request_timeout c) p (config_auto_rejoin_voice c).

Definition with_auto_rejoin_voice (b : bool) (c : ClientConfig) : ClientConfig :=
  mkClientConfig (server_card c) (request_timeout c) (config_reconnect c) b.

Definition validate (c : ClientConfig) : result SdkError unit :=
  if request_timeout c =? 0 then Err (SdkConfiguration "request timeout must be non-zero") else Ok tt.
End ClientConfig.

(** ** adapters.rs *)

Inductive MediaError :=
| MediaClosed
| UnsupportedCodec (text : string)
| InvalidFrame (text : string)
| Adapter (text : string).

(** Samples are signed 16-bit values. *)
Record PcmFrame := mkPcmFrame {
  pcm_stream_type : Z;
  sample_rate : Z;
  pcm_channels : Z;
  samples : list Z;
}.

Definition pcm_new (stream_type rate channels : Z) (samples : list Z) : result MediaError PcmFrame :=
  if rate =? 0 then Err (InvalidFrame "PCM sample rate must be positive")
  else if channels =? 0 then Err (InvalidFrame "PCM channel count must be positive")
  else if negb (len samples mod channels =? 0) then
    Err (InvalidFrame "PCM samples must be interleaved by complete channels")
  else Ok (mkPcmFrame stream_type rate channels samples).

(** ** events.rs: what the host sees *)

Inductive VoiceEvent :=
| VoiceJoined (channel_id : Z) (session_id : byte_list)
| VoiceLost (authority : VoiceAuthority).

Inductive SdkEvent (V : Type) :=
| SdkConnection (s : ConnectionStatus)
| SdkReady (control_connection_id : byte_list) (access_expires_at : Z)
| SdkSyncRequired (reason : string)
| SdkState (e : StateEvent V)
| SdkVoiceEvent (e : VoiceEvent)
| SdkDisconnected (reason : string)
| SdkUnknown (f : UnknownFrame V)
| SdkDiagnostic (message : string).
Arguments SdkConnection {V} _.
Arguments SdkReady {V} _ _.
Arguments SdkSyncRequired {V} _.
Arguments SdkState {V} _.
Arguments SdkVoiceEvent {V} _.
Arguments SdkDisconnected {V} _.
Arguments SdkUnknown {V} _.
Arguments SdkDiagnostic {V} _.

Definition event_from {V} (event : ClientEvent V) : SdkEvent V :=
  match event with
  | StatusChanged status => SdkConnection status
  | EventReady id expires_at => SdkReady id expires_at
  | EventSyncRequired reason => SdkSyncRequired reason
  | EventState event => SdkState event
  | EventVoiceLost authority => SdkVoiceEvent (VoiceLost authority)
  | EventDisconnected reason => SdkDisconnected reason
  | EventUnknown frame => SdkUnknown frame
  end.

(** ** provider.rs *)

Definition map_http_error (error : HttpError) : RealtimeError :=
  match error with
  | HttpAuthenticationRequired => AuthenticationRequired
  | HttpAuthExpired => AuthenticationExpired
  | HttpClosed => ConnectionClosed
  | HttpTlsPinMismatch expected actual => TlsPinMismatch expected actual
  | TlsPeerCertificateInvalid | TlsPeerCertificateUnavailable => TlsCertificateInvalid
  | HttpTypes.ProtocolVersionMismatch expected actual =>
      Provider ("protocol version mismatch: expected " +:+ display_u64 expected +:+ ", got "
                +:+ display_u64 actual)
  | _ => Provider (display_http_error error)
  end.

Section provider.
Context {W : Type} `{Session W}.

(** [access_token], on the loaded credentials. *)
Definition provider_token (tokens : option TokenPair) : result RealtimeError string :=
  let? tokens := ok_or AuthenticationRequired tokens in
  map_err (λ _, Provider "credential store returned an invalid access token")
    (AccessToken.new (access_token tokens)).

Definition provider_access_token : se W RealtimeError string := λ w,
  match session_load w with
  | (Ok tokens, w) => (provider_token tokens, w)
  | (Err e, w) => (Err (map_http_error e), w)
  end.
End provider.

(** [snapshot], on what the accessor returned. *)
Definition provider_snapshot_result (r : result HttpError StateSnapshot) : result RealtimeError StateSnapshot :=
  map_err map_http_error r.
