(* ===== verification/HttpPins.v ===== *)
(** The requests of one HTTP transport running together
    (crates/zephyrvox-http/src/transport.rs with tls_pin.rs): the verifier leaves the reason
    of a refused handshake in one cell, and the first failed request that looks takes it. *)

From S2P Require Import Prelude Text Types Wire HttpTypes HttpClient HttpDiscovery Tls RealtimeTypes RealtimeTransport SdkTypes.

(** What reqwest returns: the status, each header with its value as text if it is one,
    and the body if it arrives. *)
Record RawResponse := mkRawResponse {
  raw_status : Z;
  raw_headers : list (string * result string string);
  raw_body : result string byte_list;
}.

(** The headers as text, up to the first that is none. *)
Fixpoint collect_headers (headers : list (string * result string string))
    : result HttpError (list (string * string)) :=
  match headers with
  | [] => Ok []
  | (name, value) :: rest =>
      let? value := map_err HttpInvalidHeader value in
      let? rest := collect_headers rest in
      Ok ((name, value) :: rest)
  end.

(** The end of [send_inner]. *)
Definition read_response (response : RawResponse) : result HttpError HttpResponse :=
  let? headers := collect_headers (raw_headers response) in
  let? body := map_err HttpTransport (raw_body response) in
  Ok (response_new (raw_status response) headers body).

(** Where a request that has been let through is: reqwest works on it, or reqwest has
    failed and the failure is not yet mapped. *)
Inductive Flight :=
| Sending
| SendFailed (text : string).

Record ReqwestTransport := mkReqwestTransport {
  pin_failure : option (option TlsVerificationFailure);
  flights : gmap Z Flight;
  returned : list (Z * result HttpError HttpResponse);
}.

Definition fly (id : Z) (f : Flight) (w : ReqwestTransport) : ReqwestTransport :=
  mkReqwestTransport (pin_failure w) (<[id := f]> (flights w)) (returned w).
Definition give (id : Z) (r : result HttpError HttpResponse) (w : ReqwestTransport) : ReqwestTransport :=
  mkReqwestTransport (pin_failure w) (delete id (flights w)) (returned w ++ [(id, r)]).
Definition set_pin_failure (cell : option (option TlsVerificationFailure)) (w : ReqwestTransport) : ReqwestTransport :=
  mkReqwestTransport cell (flights w) (returned w).

(** What happens next in the process. *)
Inductive Event {U : UrlLib} :=
| Send (id : Z) (request : HttpRequest)
| Handshake (id : Z) (peer : Peer)
| Unreachable (id : Z) (text : string)
| Answered (id : Z) (response : RawResponse)
| Mapped (id : Z)
| Dropped (id : Z).

Section transport.
Context `{UrlLib, Sha256Lib, RustlsLib} (tls_text : TlsError → string) (card : ServerCard).

(** [pinned_client_config] of the HTTP client: the cell of the new verifier.
    [protocol_versions] is what rustls says to TLS 1.3 and 1.2. *)
Definition pinned_client_config (protocol_versions : result string unit) (expected : byte_list)
    : result HttpError (option TlsVerificationFailure) :=
  result_map (λ _, None) (map_err (λ error, HttpTransport ("invalid TLS configuration: " +:+ error)) protocol_versions).

(** [ReqwestTransport::new]; [build] is what reqwest says to the configuration. The cell
    exists exactly on a card with a pin. *)
Definition new (protocol_versions build : result string unit) : result HttpError ReqwestTransport :=
  let? pin_failure :=
    match fingerprint card with
    | Some pin => let? failure := pinned_client_config protocol_versions pin in Ok (Some failure)
    | None => Ok None
    end in
  let? _ := map_err HttpTransport build in
  Ok (mkReqwestTransport pin_failure ∅ []).

(** One event; [None]: it cannot happen now. *)
Definition exec (w : ReqwestTransport) (e : Event) : option ReqwestTransport :=
  match e with
  | Send id request =>
      match flights w !! id with
      | Some _ => None
      | None =>
          if request_matches_card (transport_new card) (rq_url request) then Some (fly id Sending w)
          else Some (give id (Err (HttpInvalidUrl "request URL does not match the server card")) w)
      end
  | Handshake id peer =>
      match flights w !! id, fingerprint card, pin_failure w with
      | Some Sending, Some pin, Some recorded =>
          let* (verdict, recorded) := verify_server_cert record_last pin (peer_leaf peer) (peer_chain peer)
                                        (peer_name peer) (peer_now peer) recorded in
          let w := set_pin_failure (Some recorded) w in
          Some match verdict with
               | Ok _ => w
               | Err error => fly id (SendFailed (tls_text error)) w
               end
      | _, _, _ => None
      end
  | Unreachable id text =>
      match flights w !! id with
      | Some Sending => Some (fly id (SendFailed text) w)
      | _ => None
      end
  | Answered id response =>
      match flights w !! id with
      | Some Sending => Some (give id (read_response response) w)
      | _ => None
      end
  | Mapped id =>
      match flights w !! id with
      | Some (SendFailed text) =>
          let '(error, cell) := map_transport_error (pin_failure w) text in
          Some (give id (Err error) (set_pin_failure cell w))
      | _ => None
      end
  | Dropped id => Some (mkReqwestTransport (pin_failure w) (delete id (flights w)) (returned w))
  end.

Fixpoint run_events (w : ReqwestTransport) (events : list Event) : option ReqwestTransport :=
  match events with
  | [] => Some w
  | e :: rest => let* w := exec w e in run_events w rest
  end.

(** ** Specification *)

(** What a new transport is. *)
Definition new_transport : ReqwestTransport :=
  mkReqwestTransport ((λ _, None) <$> fingerprint card) ∅ [].

Definition refused (e : Event) : bool :=
  match e, fingerprint card with
  | Handshake _ peer, Some pin => match refusal pin peer with Some _ => true | None => false end
  | _, _ => false
  end.

(** The public error of a refusal. *)
Definition refusal_error (f : TlsVerificationFailure) : HttpError :=
  match f with
  | PinMismatch expected actual => HttpTlsPinMismatch (Fingerprint.to_hex expected) (Fingerprint.to_hex actual)
  | InvalidCertificate => TlsPeerCertificateInvalid
  end.

Definition is_report (r : Z * result HttpError HttpResponse) : bool :=
  match r.2 with
  | Err (HttpTlsPinMismatch _ _) | Err TlsPeerCertificateInvalid => true
  | _ => false
  end.

Definition event_ok (e : Event) : Prop :=
  match e with
  | Handshake _ peer => bytes_ok (peer_leaf peer) ∧ len (peer_leaf peer) ≤ u64_max
  | _ => True
  end.

(** A request that nothing overlaps, and what it returns. *)
Inductive Attempt :=
| PeerRefused (accepted : list Peer) (peer : Peer)
| HostUnreachable (accepted : list Peer) (text : string)
| HostAnswered (accepted : list Peer) (response : RawResponse).

Definition attempt_events (id : Z) (request : HttpRequest) (a : Attempt) : list Event :=
  Send id request ::
  match a with
  | PeerRefused accepted peer => (Handshake id <$> accepted) ++ [Handshake id peer; Mapped id]
  | HostUnreachable accepted text => (Handshake id <$> accepted) ++ [Unreachable id text; Mapped id]
  | HostAnswered accepted response => (Handshake id <$> accepted) ++ [Answered id response]
  end.

Definition attempt_accepted (a : Attempt) : list Peer :=
  match a with
  | PeerRefused accepted _ | HostUnreachable accepted _ | HostAnswered accepted _ => accepted
  end.

Definition attempt_result (pin : byte_list) (a : Attempt) : result HttpError HttpResponse :=
  match a with
  | PeerRefused _ peer => Err (from_option refusal_error (HttpTransport "") (refusal pin peer))
  | HostUnreachable _ text => Err (HttpTransport text)
  | HostAnswered _ response => read_response response
  end.

Definition attempt_ok (pin : byte_list) (a : Attempt) : Prop :=
  Forall (λ p, bytes_ok (peer_leaf p) ∧ len (peer_leaf p) ≤ u64_max ∧ refusal pin p = None) (attempt_accepted a) ∧
  match a with
  | PeerRefused _ p => bytes_ok (peer_leaf p) ∧ len (peer_leaf p) ≤ u64_max ∧ refusal pin p ≠ None
  | _ => True
  end.

(** ** Lemmas *)

Lemma new_ok protocol_versions build w : new protocol_versions build = Ok w → w = new_transport.
Proof.
  unfold new, new_transport, pinned_client_config.
  destruct (fingerprint card), protocol_versions, build; cbn; by intros [= <-].
Qed.

Section laws.
Hypothesis sha_len : ∀ l, length (sha256 l) = 32%nat.
Hypothesis card_ok : Card.ok card.

(** What is in the cell, and what was reported, comes from refused handshakes, and each
    of those accounts for one. *)
Definition filled (w : ReqwestTransport) : nat :=
  match pin_failure w with Some (Some _) => 1 | _ => 0 end.

Definition justified (past : list Event) (f : TlsVerificationFailure) : Prop :=
  ∃ pin id peer, fingerprint card = Some pin ∧ Handshake id peer ∈ past ∧ refusal pin peer = Some f ∧
    refusal_true pin (peer_leaf peer) f.

Record accounted (past : list Event) (w : ReqwestTransport) : Prop := {
  ac_cell : pin_failure w = None ↔ fingerprint card = None;
  ac_filled : ∀ f, pin_failure w = Some (Some f) → justified past f;
  ac_reports : ∀ id e, (id, Err e) ∈ returned w → is_report (id, Err e) = true → ∃ f, e = refusal_error f ∧ justified past f;
  ac_count : (filled w + length (filter is_report (returned w)) ≤ length (filter refused past))%nat;
}.

Lemma justified_mono past e f : justified past f → justified (past ++ [e]) f.
Proof. intros (pin & id & peer & ? & ? & ?). exists pin, id, peer. set_solver. Qed.

Lemma filter_snoc {A} (P : A → bool) l x :
  length (filter P (l ++ [x])) = (length (filter P l) + if P x then 1 else 0)%nat.
Proof. rewrite filter_app, length_app, filter_cons, filter_nil. destruct (P x) eqn:Hx; by case_decide; naive_solver. Qed.

(** Only the answers of reqwest and the mapping are added to what was returned, and
    only the mapping reports. *)
Lemma read_response_no_report id response : is_report (id, read_response response) = false.
Proof.
  unfold read_response. assert (∀ l e, collect_headers l = Err e → ∃ t, e = HttpInvalidHeader t) as Hc.
  { induction l as [|[name [value|t]] l IH]; intros e; csimpl; [done| |naive_solver].
    destruct (collect_headers l); csimpl; naive_solver. }
  destruct (collect_headers (raw_headers response)) as [headers|e] eqn:He; csimpl.
  - by destruct (raw_body response).
  - by destruct (Hc _ _ He) as [t ->].
Qed.

Lemma accounted_mono past e w : accounted past w → accounted (past ++ [e]) w.
Proof.
  intros [Hcell Hf Hr Hn]. split; [done|eauto using justified_mono| |].
  - intros id er Hin Hrep. destruct (Hr id er Hin Hrep) as (f & -> & Hj). eauto using justified_mono.
  - rewrite filter_snoc. lia.
Qed.

Lemma accounted_ext past w w' :
  pin_failure w' = pin_failure w → returned w' = returned w → accounted past w → accounted past w'.
Proof. intros Hc Hr [? ? ? ?]. split; unfold filled in *; rewrite ?Hc, ?Hr; done. Qed.

Lemma accounted_give past id r w : is_report (id, r) = false → accounted past w → accounted past (give id r w).
Proof.
  intros Hrep [Hcell Hf Hr Hn]. split; [done|done| |].
  - intros id' e [Hin|Heq%list_elem_of_singleton]%elem_of_app; [eauto|]. injection Heq as -> <-. congruence.
  - cbn [returned give]. rewrite filter_snoc, Hrep. unfold filled in *. cbn [pin_failure give]. lia.
Qed.

(** A refused handshake fills the cell, whatever it held. *)
Lemma accounted_refused past id peer w pin recorded e f :
  fingerprint card = Some pin → pin_failure w = Some recorded → refusal pin peer = Some f →
  refusal_true pin (peer_leaf peer) f → accounted past w →
  accounted (past ++ [Handshake id peer]) (fly id (SendFailed (tls_text e)) (set_pin_failure (Some (Some f)) w)).
Proof.
  intros Hpin Hcell Href Htrue [_ _ Hr Hn]. split; cbn [pin_failure returned fly set_pin_failure].
  - by rewrite Hpin.
  - intros f' [= <-]. exists pin, id, peer. split_and!; [done|set_solver|done..].
  - intros id' er Hin Hrep. destruct (Hr id' er Hin Hrep) as (f' & -> & Hj). eauto using justified_mono.
  - rewrite filter_snoc. assert (refused (Handshake id peer) = true) as -> by (cbn; by rewrite Hpin, Href).
    unfold filled in *. cbn. lia.
Qed.

(** The mapping empties the cell and reports what was in it. *)
Lemma accounted_mapped past id text w error cell :
  map_transport_error (pin_failure w) text = (error, cell) → accounted past w →
  accounted past (give id (Err error) (set_pin_failure cell w)).
Proof.
  intros Hmap [Hcell Hf Hr Hn]. unfold map_transport_error in Hmap.
  destruct (pin_failure w) as [[f|]|] eqn:Hw; injection Hmap as <- <-.
  - destruct (Hf f eq_refl) as (pin & Hj & Hpin).
    split; cbn [pin_failure returned give set_pin_failure]; [|done| |].
    + split; [done|]. intros Hnone. by apply Hcell in Hnone.
    + intros id' er [Hin|Heq%list_elem_of_singleton]%elem_of_app; [eauto|]. injection Heq as -> ->. intros _.
      exists f. split; [by destruct f|]. by apply Hf.
    + rewrite filter_snoc. unfold filled in *. rewrite Hw in Hn. cbn. case_match; lia.
  - apply accounted_give; [done|]. apply (accounted_ext past w); [by rewrite Hw|done|]. by split; rewrite ?Hw.
  - apply accounted_give; [done|]. apply (accounted_ext past w); [by rewrite Hw|done|]. by split; rewrite ?Hw.
Qed.

Lemma accounted_exec past w e w' :
  event_ok e → accounted past w → exec w e = Some w' → accounted (past ++ [e]) w'.
Proof.
  intros Hok Ha. destruct e as [id request|id peer|id text|id response|id|id]; cbn [exec event_ok] in *.
  - destruct (flights w !! id); [done|]. case_match; intros [= <-]; apply accounted_mono.
    + by apply (accounted_ext past w).
    + by apply accounted_give.
  - destruct (flights w !! id) as [[]|]; [|done..]. destruct (fingerprint card) as [pin|] eqn:Hpin; [|done].
    destruct (pin_failure w) as [recorded|] eqn:Hcell; [|done].
    assert (length pin = 32%nat) as Hlen by by apply (Card.ok_fingerprint_bytes _ card_ok).
    destruct (handshake_cases pin peer recorded sha_len) as [[-> _]|(er & f & -> & Href & Htrue)]; [by destruct Hok..| |];
      intros [= <-].
    + apply accounted_mono. by apply (accounted_ext past w).
    + by apply (accounted_refused _ _ _ _ pin recorded).
  - destruct (flights w !! id) as [[]|]; [|done..]. intros [= <-]. apply accounted_mono. by apply (accounted_ext past w).
  - destruct (flights w !! id) as [[]|]; [|done..]. intros [= <-].
    apply accounted_mono, accounted_give; [apply read_response_no_report|done].
  - destruct (flights w !! id) as [[|text]|]; [done| |done]. destruct (map_transport_error (pin_failure w) text) eqn:Hmap.
    intros [= <-]. by eapply accounted_mono, accounted_mapped.
  - intros [= <-]. apply accounted_mono. by apply (accounted_ext past w).
Qed.

Lemma accounted_run events : ∀ past w w',
  Forall event_ok events → accounted past w → run_events w events = Some w' → accounted (past ++ events) w'.
Proof.
  induction events as [|e events IH]; intros past w w' Hok Ha; cbn.
  - intros [= <-]. by rewrite app_nil_r.
  - apply Forall_cons in Hok as [He Hok]. destruct (exec w e) as [w1|] eqn:Hw; [|done]. intros Hrun.
    rewrite cons_middle, app_assoc. eapply IH, Hrun; [done|]. by eapply accounted_exec.
Qed.

Lemma accounted_new : accounted [] new_transport.
Proof.
  split; cbn; [by destruct (fingerprint card)| |set_solver|].
  - by destruct (fingerprint card).
  - unfold filled. cbn. by destruct (fingerprint card).
Qed.

(** ** A request alone *)

(** Nothing is in flight, and the cell is empty. *)
Definition quiet (w : ReqwestTransport) : Prop := flights w = ∅ ∧ pin_failure w = Some None.

Lemma accepted_handshakes id pin accepted : ∀ w rest,
  fingerprint card = Some pin → flights w = {[ id := Sending ]} → pin_failure w = Some None →
  Forall (λ p, bytes_ok (peer_leaf p) ∧ len (peer_leaf p) ≤ u64_max ∧ refusal pin p = None) accepted →
  run_events w ((Handshake id <$> accepted) ++ rest) = run_events w rest.
Proof.
  induction accepted as [|p accepted IH]; intros w rest Hpin Hfl Hcell Hall; [done|].
  apply Forall_cons in Hall as [(Hb & Hl & Href) Hall]. cbn [fmap list_fmap app run_events exec].
  rewrite Hfl, lookup_singleton_eq, Hpin, Hcell.
  assert (length pin = 32%nat) as Hlen by by apply (Card.ok_fingerprint_bytes _ card_ok).
  destruct (handshake_cases pin p None sha_len) as [[-> _]|(er & f & _ & Hf & _)]; [done..| |congruence].
  rewrite <- (IH w rest) by done. f_equal. destruct w. cbn in *. by rewrite Hcell.
Qed.

Lemma attempt_alone pin id request a w :
  fingerprint card = Some pin → request_matches_card (transport_new card) (rq_url request) = true →
  attempt_ok pin a → quiet w →
  ∃ w', run_events w (attempt_events id request a) = Some w' ∧ quiet w' ∧
    returned w' = returned w ++ [(id, attempt_result pin a)].
Proof.
  intros Hpin Hm [Hacc Hlast] [Hfl Hcell]. unfold attempt_events. cbn [run_events exec].
  rewrite Hfl, lookup_empty, Hm. cbn.
  set (w1 := fly id Sending w). assert (flights w1 = {[ id := Sending ]}) as Hfl1 by (cbn; by rewrite Hfl).
  destruct a as [accepted peer|accepted text|accepted response]; cbn [attempt_accepted] in Hacc;
    rewrite (accepted_handshakes id pin) by done; cbn [run_events exec]; rewrite Hfl1, lookup_singleton_eq.
  - destruct Hlast as (Hb & Hl & Href). rewrite Hpin. cbn [pin_failure w1 fly]. rewrite Hcell.
    assert (length pin = 32%nat) as Hlen by by apply (Card.ok_fingerprint_bytes _ card_ok).
    destruct (handshake_cases pin peer None sha_len) as [[_ Hn]|(e & f & -> & Hf & _)]; [done..|].
    cbn. rewrite lookup_insert_eq. cbn. eexists. split; [done|]. split; [split|]; cbn; [by rewrite Hfl, insert_empty, insert_singleton_eq, delete_singleton_eq|done|].
    rewrite Hf. by destruct f.
  - cbn. rewrite lookup_insert_eq, Hcell. cbn. eexists. split; [done|].
    split; [split|]; cbn; [by rewrite Hfl, insert_empty, insert_singleton_eq, delete_singleton_eq|done..].
  - eexists. split; [done|]. split; [split|]; cbn; [by rewrite Hfl, insert_empty, delete_singleton_eq|done..].
Qed.

Lemma run_events_app events : ∀ w rest,
  run_events w (events ++ rest) = let* w := run_events w events in run_events w rest.
Proof. induction events as [|e events IH]; intros w rest; cbn; [done|]. by destruct (exec w e). Qed.

Lemma attempts_alone pin attempts : ∀ w,
  fingerprint card = Some pin →
  Forall (λ '(_, request, a), request_matches_card (transport_new card) (rq_url request) = true ∧ attempt_ok pin a) attempts →
  quiet w →
  ∃ w', run_events w (attempts ≫= λ '(id, request, a), attempt_events id request a) = Some w' ∧ quiet w' ∧
    returned w' = returned w ++ ((λ '(id, _, a), (id, attempt_result pin a)) <$> attempts).
Proof.
  induction attempts as [|[[id request] a] attempts IH]; intros w Hpin Hall Hq.
  { exists w. by rewrite app_nil_r. }
  apply Forall_cons in Hall as [[Hm Ha] Hall]. cbn [mbind list_bind]. rewrite run_events_app.
  destruct (attempt_alone pin id request a w) as (w1 & -> & Hq1 & Hr1); [done..|].
  destruct (IH w1) as (w2 & Hrun & Hq2 & Hr2); [done..|]. exists w2. split; [exact Hrun|]. split; [done|].
  rewrite Hr2, Hr1, <- app_assoc. done.
Qed.
End laws.
End transport.

(** ** Properties *)

(** C23: no false alarm. However requests on one transport run together, and whichever
    futures are dropped, a reported pin mismatch names the pin of the card and the digest
    of the key of a certificate that a server really presented to this transport, and
    that digest is another; a report of an invalid certificate likewise stems from a
    refused one. There are never more reports than refused handshakes. *)
Theorem pin_reports_accounted `{UrlLib, Sha256Lib, RustlsLib} (tls_text : TlsError → string) (card : ServerCard)
    (protocol_versions build : result string unit) (events : list Event) (start w : ReqwestTransport) :
  (∀ l, length (sha256 l) = 32%nat) → Card.ok card → Forall event_ok events →
  new card protocol_versions build = Ok start → run_events tls_text card start events = Some w →
  (∀ id e, (id, Err e) ∈ returned w → is_report (id, Err e) = true →
     ∃ f pin id' peer, e = refusal_error f ∧ fingerprint card = Some pin ∧ Handshake id' peer ∈ events ∧
       refusal pin peer = Some f ∧ refusal_true pin (peer_leaf peer) f) ∧
  (length (filter is_report (returned w)) ≤ length (filter (refused card) events))%nat.
Proof.
  intros Hsha Hok Hev ->%new_ok Hrun.
  destruct (accounted_run tls_text card Hsha Hok events [] _ w Hev (accounted_new card Hsha Hok) Hrun) as [_ _ Hr Hn].
  split; [|unfold filled in Hn; cbn in Hn; lia].
  intros id e Hin Hrep. destruct (Hr id e Hin Hrep) as (f & He & pin & id' & peer & Hp & Hpast & Href & Htrue).
  by exists f, pin, id', peer.
Qed.

(** The classification of a refused handshake reaches its own request only if nothing
    overlaps. Requests one after the other each get exactly what happened to them. But
    two in flight together can swap: the request whose host merely could not be reached
    takes the refusal that another request's peer caused, and that one gets an ordinary
    transport error. For the state snapshots of a control connection the first is the end
    of all reconnecting, the second is not. *)
Theorem overlapping_requests_swap_failures `{UrlLib, Sha256Lib, RustlsLib} (tls_text : TlsError → string)
    (card : ServerCard) (pin : byte_list) (protocol_versions build : result string unit) (start : ReqwestTransport) :
  (∀ l, length (sha256 l) = 32%nat) → Card.ok card → fingerprint card = Some pin →
  new card protocol_versions build = Ok start →
  (∀ attempts,
     Forall (λ '(_, request, a), request_matches_card (transport_new card) (rq_url request) = true ∧ attempt_ok pin a) attempts →
     ∃ w, run_events tls_text card start (attempts ≫= λ '(id, request, a), attempt_events id request a) = Some w ∧
       returned w = (λ '(id, _, a), (id, attempt_result pin a)) <$> attempts) ∧
  ∀ request request' peer text,
    request_matches_card (transport_new card) (rq_url request) = true →
    request_matches_card (transport_new card) (rq_url request') = true →
    attempt_ok pin (PeerRefused [] peer) →
    ∃ w f text', refusal pin peer = Some f ∧
      run_events tls_text card start
        [Send 0 request; Send 1 request'; Handshake 0 peer; Unreachable 1 text; Mapped 1; Mapped 0] = Some w ∧
      returned w = [(1, Err (refusal_error f)); (0, Err (HttpTransport text'))] ∧
      terminal_error (map_http_error (refusal_error f)) = true ∧
      terminal_error (map_http_error (HttpTransport text')) = false.
Proof.
  intros Hsha Hok Hpin ->%new_ok. split.
  - intros attempts Hall. destruct (attempts_alone tls_text card Hsha Hok pin attempts (new_transport card)) as (w & Hrun & _ & Hr);
      [done..| |by exists w].
    split; [done|]. cbn. by rewrite Hpin.
  - intros request request' peer text Hm Hm' [_ (Hb & Hl & Href)].
    assert (length pin = 32%nat) as Hlen by by apply (Card.ok_fingerprint_bytes _ Hok).
    destruct (handshake_cases pin peer None Hsha) as [[_ Hn]|(e & f & Hv & Hf & _)]; [done..|].
    eexists _, f, (tls_text e). split; [done|].
    split; [|split; [|by split; [destruct f|]]].
    + cbn -[verify_server_cert]. rewrite Hm, Hm', Hpin.
      repeat (rewrite ?lookup_empty, ?lookup_insert_eq, ?lookup_insert_ne by done; cbn -[verify_server_cert]; rewrite ?Hpin, ?Hv).
      done.
    + by destruct f.
Qed.

(** A card with a pin, a peer with another key, and two requests in flight together. *)
Module ToyPins.
#[export] Instance lib : UrlLib := {|
  Url := string;
  url_parse s := Ok s;
  url_scheme _ := "https"%string;
  url_username _ := ""%string;
  url_password _ := None;
  url_fragment _ := None;
  url_path u := u;
  url_port _ := Some 7788;
  url_host_str _ := Some "example.org"%string;
  url_query_pairs _ := [];
  url_query _ := None;
  url_port_or_known_default _ := Some 7788;
  url_as_str u := u;
  form_urlencode _ := ""%string;
|}.

Definition pin : byte_list := replicate 32 9.
Definition card : ServerCard := mkServerCard Tls "example.org" 7788 (Some pin) None 1.
Definition request : @HttpRequest lib := request_new (H:=lib) Get "https://example.org:7788/api/v0/state"%string.
Definition peer : Peer := mkPeer ToyTls.certificate [] "example.org" 5.
Definition text (e : TlsError) : string := "handshake failed".
Definition events : list (@Event lib) :=
  [Send 0 request; Send 1 request; Handshake 0 peer; Unreachable 1 "no route"; Mapped 1; Mapped 0].

Lemma card_ok : Card.ok card.
Proof.
  constructor; cbn; try done.
  - apply host_checked; [done|vm_compute; reflexivity].
  - intros f [= <-]. split; [done|]. repeat constructor; lia.
Qed.

Lemma sha_len (l : byte_list) : length (sha256 (Sha256Lib:=ToyTls.sha) l) = 32%nat.
Proof. apply length_replicate. Qed.
End ToyPins.

#[local] Existing Instance ToyPins.lib.
#[local] Existing Instance ToyTls.sha.
#[local] Existing Instance ToyTls.rustls.

Lemma pin_reports_accounted_witness :
  ∃ w, run_events ToyPins.text ToyPins.card (new_transport ToyPins.card) ToyPins.events = Some w ∧
    filter is_report (returned w) = [(1, Err (HttpTlsPinMismatch (Fingerprint.to_hex ToyPins.pin)
                                               (Fingerprint.to_hex (sha256 ToyTls.spki))))] ∧
    (length (filter is_report (returned w)) ≤ length (filter (refused ToyPins.card) ToyPins.events))%nat.
Proof.
  destruct (run_events ToyPins.text ToyPins.card (new_transport ToyPins.card) ToyPins.events) as [w|] eqn:Hrun;
    [|vm_compute in Hrun; discriminate].
  destruct (pin_reports_accounted ToyPins.text ToyPins.card (Ok tt) (Ok tt) ToyPins.events (new_transport ToyPins.card) w)
    as [_ Hn]; [apply ToyPins.sha_len|apply ToyPins.card_ok| |reflexivity|exact Hrun|].
  - repeat constructor; try (vm_compute; discriminate).
  - exists w. split; [reflexivity|]. split; [|exact Hn]. vm_compute in Hrun. injection Hrun as <-. vm_compute. reflexivity.
Defined.

Lemma overlapping_requests_swap_failures_witness :
  ∃ w f text', run_events ToyPins.text ToyPins.card (new_transport ToyPins.card) ToyPins.events = Some w ∧
    returned w = [(1, Err (refusal_error f)); (0, Err (HttpTransport text'))].
Proof.
  destruct (overlapping_requests_swap_failures ToyPins.text ToyPins.card ToyPins.pin (Ok tt) (Ok tt) (new_transport ToyPins.card))
    as [_ Hswap]; [apply ToyPins.sha_len|apply ToyPins.card_ok|reflexivity|reflexivity|].
  destruct (Hswap ToyPins.request ToyPins.request ToyPins.peer "no route"%string) as (w & f & text' & _ & Hrun & Hr & _).
  - vm_compute. reflexivity.
  - vm_compute. reflexivity.
  - split; [constructor|]. split; [repeat constructor; vm_compute; congruence|]. split; vm_compute; discriminate.
  - exists w, f, text'. split; [exact Hrun|exact Hr].
Defined.
