(* ===== verification/SdkProgram.v ===== *)
(** Asynchronous functions over shared state. An [async fn] is a tree: pieces that run
    without a suspension point, acquisitions and releases of the asynchronous mutexes,
    and calls that suspend until something outside answers. A pool of such programs is
    interleaved at every node. Rely-guarantee reasoning about one program at a time is
    carried over to the pool by [pool_safe]. *)

From S2P Require Import Prelude.

Section program.
Context {St Lock Q : Type} `{Countable Lock} {Answer : Q → Type}.

Inductive prog (A : Type) : Type :=
| Ret (a : A)
| Atomic (f : St → St) (k : St → prog A)
| Acquire (l : Lock) (k : prog A)
| Release (l : Lock) (k : prog A)
| Await (q : Q) (k : Answer q → prog A).
Arguments Ret {A} _.
Arguments Atomic {A} _ _.
Arguments Acquire {A} _ _.
Arguments Release {A} _ _.
Arguments Await {A} _ _.

Fixpoint bind {A B} (m : prog A) (k : A → prog B) : prog B :=
  match m with
  | Ret a => k a
  | Atomic f m => Atomic f (λ s, bind (m s) k)
  | Acquire l m => Acquire l (bind m k)
  | Release l m => Release l (bind m k)
  | Await q m => Await q (λ a, bind (m a) k)
  end.

Definition read {A} (f : St → A) : prog A := Atomic id (λ s, Ret (f s)).
Definition modify (f : St → St) : prog unit := Atomic f (λ _, Ret tt).
Definition atomically {A} (f : St → A * St) : prog A := Atomic (λ s, (f s).2) (λ s, Ret (f s).1).
Definition call (q : Q) : prog (Answer q) := Await q Ret.

(** A guard that lives as long as [m]. *)
Definition with_lock {A} (l : Lock) (m : prog A) : prog A :=
  Acquire l (bind m (λ a, Release l (Ret a))).

(** The [?] operator. *)
Definition try_bind {E A B} (m : prog (result E A)) (k : A → prog (result E B)) : prog (result E B) :=
  bind m (λ r, match r with Ok a => k a | Err e => Ret (Err e) end).

(** ** One program alone, among [others] that move the shared state between its steps.
    The calls it makes are logged with their answers. *)

Abbreviation Call := {q : Q & Answer q}.

Fixpoint outcome {A} (others : St → St → Prop) (p : prog A) (s : St) (log : list Call) (a : A) (s' : St) : Prop :=
  match p with
  | Ret b => a = b ∧ s' = s ∧ log = []
  | Atomic f m => ∃ s1, others s s1 ∧ outcome others (m s1) (f s1) log a s'
  | Acquire _ m | Release _ m => ∃ s1, others s s1 ∧ outcome others m s1 log a s'
  | Await q m =>
      ∃ s1 x rest, others s s1 ∧ log = existT q x :: rest ∧ outcome others (m x) s1 rest a s'
  end.

Lemma outcome_bind others {A B} (p : prog A) (m : A → prog B) s log b s' :
  outcome others (bind p m) s log b s' →
  ∃ a s1 log1 log2, outcome others p s log1 a s1 ∧ outcome others (m a) s1 log2 b s' ∧ log = log1 ++ log2.
Proof.
  revert s log. induction p as [a|f n IH|l n IH|l n IH|q n IH]; cbn; intros s log.
  - intros Ho. by exists a, s, [], log.
  - intros (s1 & Hs & (a & s2 & l1 & l2 & ? & ? & ->)%IH). exists a, s2, l1, l2. eauto.
  - intros (s1 & Hs & (a & s2 & l1 & l2 & ? & ? & ->)%IH). exists a, s2, l1, l2. eauto.
  - intros (s1 & Hs & (a & s2 & l1 & l2 & ? & ? & ->)%IH). exists a, s2, l1, l2. eauto.
  - intros (s1 & x & rest & Hs & -> & (a & s2 & l1 & l2 & ? & ? & ->)%IH).
    exists a, s2, (existT q x :: l1), l2. split_and!; [|done|done]. by exists s1, x, l1.
Qed.

(** A run without others, the calls answered by [answers]. *)
Fixpoint exec {A} (answers : ∀ q, Answer q) (p : prog A) (s : St) : list Call * A * St :=
  match p with
  | Ret a => ([], a, s)
  | Atomic f m => exec answers (m s) (f s)
  | Acquire _ m | Release _ m => exec answers m s
  | Await q m =>
      let '(log, a, s) := exec answers (m (answers q)) s in (existT q (answers q) :: log, a, s)
  end.

Lemma exec_outcome others `{!Reflexive others} {A} answers (p : prog A) s log a s' :
  exec answers p s = (log, a, s') → outcome others p s log a s'.
Proof.
  revert s log. induction p as [b|f n IH|l n IH|l n IH|q n IH]; cbn; intros s log He.
  - by injection He as <- <- <-.
  - exists s. split; [done|]. by apply IH.
  - exists s. split; [done|]. by apply IH.
  - exists s. split; [done|]. by apply IH.
  - destruct (exec answers (n (answers q)) s) as [[log' a'] s1] eqn:Hn. injection He as <- <- <-.
    exists s, (answers q), log'. split_and!; [done|done|]. by apply IH.
Qed.

(** A program that never changes [view] of the state. *)
Fixpoint untouched {X A} (view : St → X) (p : prog A) : Prop :=
  match p with
  | Ret _ => True
  | Atomic f m => (∀ s, view (f s) = view s) ∧ ∀ s, untouched view (m s)
  | Acquire _ m | Release _ m => untouched view m
  | Await _ m => ∀ a, untouched view (m a)
  end.

Lemma untouched_bind {X A B} (view : St → X) (p : prog A) (m : A → prog B) :
  untouched view p → (∀ a, untouched view (m a)) → untouched view (bind p m).
Proof. intros Hp Hm. induction p as [a|f n IH|l n IH|l n IH|q n IH]; cbn in *; naive_solver. Qed.

Lemma untouched_try {X E A B} (view : St → X) (p : prog (result E A)) (m : A → prog (result E B)) :
  untouched view p → (∀ a, untouched view (m a)) → untouched view (try_bind p m).
Proof. intros Hp Hm. apply untouched_bind; [done|]. by intros [a|e]. Qed.

Lemma untouched_outcome {X A} (view : St → X) others (p : prog A) s log a s' :
  (∀ s s', others s s' → view s' = view s) → untouched view p → outcome others p s log a s' → view s' = view s.
Proof.
  intros Hothers. revert s log. induction p as [b|f n IH|l n IH|l n IH|q n IH]; cbn; intros s log Hp Ho.
  - by destruct Ho as (_ & -> & _).
  - destruct Ho as (s1 & H1 & Ho). destruct Hp as [Hf Hp]. by rewrite (IH _ _ _ (Hp _) Ho), Hf, (Hothers _ _ H1).
  - destruct Ho as (s1 & H1 & Ho). by rewrite (IH _ _ Hp Ho), (Hothers _ _ H1).
  - destruct Ho as (s1 & H1 & Ho). by rewrite (IH _ _ Hp Ho), (Hothers _ _ H1).
  - destruct Ho as (s1 & x & rest & H1 & _ & Ho). by rewrite (IH _ _ _ (Hp _) Ho), (Hothers _ _ H1).
Qed.

(** A program whose pieces are all of a kind. *)
Fixpoint pieces {A} (ok : (St → St) → Prop) (p : prog A) : Prop :=
  match p with
  | Ret _ => True
  | Atomic f m => ok f ∧ ∀ s, pieces ok (m s)
  | Acquire _ m | Release _ m => pieces ok m
  | Await _ m => ∀ a, pieces ok (m a)
  end.

Lemma pieces_bind {A B} ok (p : prog A) (m : A → prog B) :
  pieces ok p → (∀ a, pieces ok (m a)) → pieces ok (bind p m).
Proof. intros Hp Hm. induction p as [a|f n IH|l n IH|l n IH|q n IH]; cbn in *; naive_solver. Qed.

Lemma untouched_pieces {X A} (view : St → X) ok (p : prog A) :
  (∀ f, (∀ s, view (f s) = view s) → ok f) → untouched view p → pieces ok p.
Proof. intros Hok Hp. induction p as [a|f n IH|l n IH|l n IH|q n IH]; cbn in *; naive_solver. Qed.

(** A relation that contains the moves of the others and the pieces. *)
Lemma pieces_outcome (R : St → St → Prop) `{!PreOrder R} others {A} (p : prog A) s log a s' :
  (∀ s s', others s s' → R s s') → pieces (λ f, ∀ s, R s (f s)) p → outcome others p s log a s' → R s s'.
Proof.
  intros Ho. revert s log. induction p as [b|f n IH|l n IH|l n IH|q n IH]; cbn; intros s log Hp Hr.
  - by destruct Hr as (_ & -> & _).
  - destruct Hr as (s1 & H1%Ho & Hr). trans s1; [done|]. trans (f s1); [apply Hp|]. eapply IH; [apply Hp|done].
  - destruct Hr as (s1 & H1%Ho & Hr). trans s1; [done|]. by eapply IH.
  - destruct Hr as (s1 & H1%Ho & Hr). trans s1; [done|]. by eapply IH.
  - destruct Hr as (s1 & x & rest & H1%Ho & _ & Hr). trans s1; [done|]. by eapply IH.
Qed.

(** Where a run of [?] stands. *)
Lemma outcome_try others {E A B} (p : prog (result E A)) (m : A → prog (result E B)) s log r s' :
  outcome others (try_bind p m) s log r s' →
  ∃ x s1 log1 log2, outcome others p s log1 x s1 ∧ log = log1 ++ log2 ∧
    match x with
    | Ok a => outcome others (m a) s1 log2 r s'
    | Err e => r = Err e ∧ s' = s1 ∧ log2 = []
    end.
Proof.
  intros (x & s1 & l1 & l2 & Hp & Hm & ->)%outcome_bind. exists x, s1, l1, l2. by destruct x.
Qed.

(** *** What the others may do by the mutexes the program holds

    [outcome] has one relation for the others throughout. Here it depends on the mutexes
    that the program holds, and the run also records when it took and gave back each and
    the state it found then. *)

Inductive Event :=
| Took (l : Lock) (s : St)
| Gave (l : Lock) (s : St)
| Asked (c : Call).

Definition asked (h : list Event) : list Call :=
  omap (λ e, match e with Asked c => Some c | _ => None end) h.

Fixpoint history {A} (others : gset Lock → St → St → Prop) (mine : gset Lock) (p : prog A) (s : St)
    (h : list Event) (a : A) (s' : St) : Prop :=
  match p with
  | Ret b => a = b ∧ s' = s ∧ h = []
  | Atomic f m => ∃ s1, others mine s s1 ∧ history others mine (m s1) (f s1) h a s'
  | Acquire l m => ∃ s1 rest, others mine s s1 ∧ h = Took l s1 :: rest ∧ history others ({[l]} ∪ mine) m s1 rest a s'
  | Release l m => ∃ s1 rest, others mine s s1 ∧ h = Gave l s1 :: rest ∧ history others (mine ∖ {[l]}) m s1 rest a s'
  | Await q m =>
      ∃ s1 x rest, others mine s s1 ∧ h = Asked (existT q x) :: rest ∧ history others mine (m x) s1 rest a s'
  end.

(** The mutexes that a program leaves alone. *)
Fixpoint spares {A} (l : Lock) (p : prog A) : Prop :=
  match p with
  | Ret _ => True
  | Atomic _ m => ∀ s, spares l (m s)
  | Acquire i m | Release i m => i ≠ l ∧ spares l m
  | Await _ m => ∀ a, spares l (m a)
  end.

(** While it holds a mutex, a run is one among those moves only that the mutex allows. *)
Lemma history_held (l : Lock) (R : St → St → Prop) others {A B} (p : prog A) (m : A → prog B) mine s h b s' :
  (∀ mine s s', l ∈ mine → others mine s s' → R s s') → l ∈ mine → spares l p →
  history others mine (bind p m) s h b s' →
  ∃ a s1 h1 h2 mine', outcome R p s (asked h1) a s1 ∧ l ∈ mine' ∧ h = h1 ++ h2 ∧ history others mine' (m a) s1 h2 b s' ∧
    ∀ s, Took l s ∉ h1 ∧ Gave l s ∉ h1.
Proof.
  intros HR. revert mine s h. induction p as [a|f n IH|i n IH|i n IH|q n IH]; cbn; intros mine s h Hl Hp Hh.
  - exists a, s, [], h, mine. split_and!; [done..|]. intros s0. split; apply not_elem_of_nil.
  - destruct Hh as (s1 & H1 & Hh). destruct (IH _ _ _ _ Hl (Hp s1) Hh) as (a & s2 & h1 & h2 & mine' & Ho & ?).
    exists a, s2, h1, h2, mine'. split; [|done]. exists s1. split; [exact (HR _ _ _ Hl H1)|done].
  - destruct Hp as [Hi Hp]. destruct Hh as (s1 & rest & H1 & -> & Hh). assert (l ∈ {[i]} ∪ mine) as Hl' by set_solver.
    destruct (IH _ _ _ Hl' Hp Hh) as (a & s2 & h1 & h2 & mine' & Ho & Hm & -> & ? & Hno).
    exists a, s2, (Took i s1 :: h1), h2, mine'. split_and!; [|done..|].
    + exists s1. split; [exact (HR _ _ _ Hl H1)|done].
    + intros s0. destruct (Hno s0). split; rewrite elem_of_cons; intros [Heq|?]; congruence.
  - destruct Hp as [Hi Hp]. destruct Hh as (s1 & rest & H1 & -> & Hh). assert (l ∈ mine ∖ {[i]}) as Hl' by set_solver.
    destruct (IH _ _ _ Hl' Hp Hh) as (a & s2 & h1 & h2 & mine' & Ho & Hm & -> & ? & Hno).
    exists a, s2, (Gave i s1 :: h1), h2, mine'. split_and!; [|done..|].
    + exists s1. split; [exact (HR _ _ _ Hl H1)|done].
    + intros s0. destruct (Hno s0). split; rewrite elem_of_cons; intros [Heq|?]; congruence.
  - destruct Hh as (s1 & x & rest & H1 & -> & Hh).
    destruct (IH _ _ _ _ Hl (Hp x) Hh) as (a & s2 & h1 & h2 & mine' & Ho & Hm & -> & ? & Hno).
    exists a, s2, (Asked (existT q x) :: h1), h2, mine'. split_and!; [|done..|].
    + exists s1, x, (asked h1). split_and!; [exact (HR _ _ _ Hl H1)|done..].
    + intros s0. destruct (Hno s0). split; rewrite elem_of_cons; intros [Heq|?]; [discriminate Heq|done|discriminate Heq|done].
Qed.

(** A run among moves that no mutex hinders. *)
Lemma outcome_history (R : St → St → Prop) others {A} (p : prog A) mine s log a s' :
  (∀ mine s s', R s s' → others mine s s') → outcome R p s log a s' →
  ∃ h, history others mine p s h a s' ∧ asked h = log.
Proof.
  intros HR. revert mine s log. induction p as [b|f n IH|l n IH|l n IH|q n IH]; cbn; intros mine s log Ho.
  - destruct Ho as (-> & -> & ->). by exists [].
  - destruct Ho as (s1 & H1 & (h & ? & ?)%(IH _ mine)). exists h. split; [|done]. exists s1. eauto.
  - destruct Ho as (s1 & H1 & (h & ? & ?)%(IH ({[l]} ∪ mine))). exists (Took l s1 :: h). split; [|done]. exists s1, h. eauto.
  - destruct Ho as (s1 & H1 & (h & ? & ?)%(IH (mine ∖ {[l]}))). exists (Gave l s1 :: h). split; [|done]. exists s1, h. eauto.
  - destruct Ho as (s1 & x & rest & H1 & -> & (h & ? & <-)%(IH _ mine)).
    exists (Asked (existT q x) :: h). split; [|done]. exists s1, x, h. eauto.
Qed.

(** ** The pool *)

(** A held mutex records its owner, and the shared state when it was acquired (a
    history variable: no step of a program depends on it). *)
Record Config := mkConfig {
  shared : St;
  held : gmap Lock (nat * St);
}.

Definition update (f : St → St) (c : Config) : Config := mkConfig (f (shared c)) (held c).
Definition acquire (l : Lock) (k : nat) (c : Config) : Config :=
  mkConfig (shared c) (<[l := (k, shared c)]> (held c)).
Definition release (l : Lock) (c : Config) : Config := mkConfig (shared c) (delete l (held c)).

(** A future that is dropped drops its guards. *)
Definition release_all (k : nat) (c : Config) : Config :=
  mkConfig (shared c) (filter (λ lo, lo.2.1 ≠ k) (held c)).

Context {Op Out : Type} (code : Op → prog Out) (cancellable : Op → Prop).
(** What the tasks outside the pool do to the state, and what they may answer. *)
Context (outside : St → St → Prop) (answer_ok : ∀ q, Answer q → Prop).

(** [None] is a future that was dropped. *)
Record Pool := mkPool {
  config : Config;
  tasks : list (Op * option (prog Out));
}.

Inductive head_step (k : nat) : Config → prog Out → Config → prog Out → Prop :=
| head_atomic c f m : head_step k c (Atomic f m) (update f c) (m (shared c))
| head_acquire c l m : held c !! l = None → head_step k c (Acquire l m) (acquire l k c) m
| head_release c l m : head_step k c (Release l m) (release l c) m
| head_await c q m a : answer_ok q a → head_step k c (Await q m) c (m a).

Inductive pool_step : Pool → Pool → Prop :=
| pool_task c c' ts k op p p' :
    ts !! k = Some (op, Some p) → head_step k c p c' p' →
    pool_step (mkPool c ts) (mkPool c' (<[k := (op, Some p')]> ts))
| pool_spawn c ts op : pool_step (mkPool c ts) (mkPool c (ts ++ [(op, Some (code op))]))
| pool_cancel c ts k op p :
    ts !! k = Some (op, Some p) → cancellable op →
    pool_step (mkPool c ts) (mkPool (release_all k c) (<[k := (op, None)]> ts))
| pool_outside c ts s' :
    outside (shared c) s' → pool_step (mkPool c ts) (mkPool (mkConfig s' (held c)) ts).

(** Running one task until it returns, if nothing it needs is held. *)
Fixpoint run_task (k : nat) (answers : ∀ q, Answer q) (p : prog Out) (c : Config) : option (Config * Out) :=
  match p with
  | Ret a => Some (c, a)
  | Atomic f m => run_task k answers (m (shared c)) (update f c)
  | Acquire l m => match held c !! l with None => run_task k answers m (acquire l k c) | Some _ => None end
  | Release l m => run_task k answers m (release l c)
  | Await q m => run_task k answers (m (answers q)) c
  end.

Lemma run_task_steps k answers p c c' a op ts :
  (∀ q, answer_ok q (answers q)) → ts !! k = Some (op, Some p) → run_task k answers p c = Some (c', a) →
  rtc pool_step (mkPool c ts) (mkPool c' (<[k := (op, Some (Ret a))]> ts)).
Proof.
  intros Hok. revert c ts. induction p as [b|f n IH|l n IH|l n IH|q n IH]; cbn; intros c ts Ht Hr.
  - injection Hr as <- <-. by rewrite list_insert_id.
  - eapply rtc_l; [eapply pool_task; [exact Ht|by constructor]|].
    rewrite <- (list_insert_insert_eq ts k (op, Some (Ret a)) (op, Some (n (shared c)))).
    apply (IH (shared c)); [|done]. apply list_lookup_insert_eq. by eapply lookup_lt_Some.
  - destruct (held c !! l) eqn:Hl; [done|]. eapply rtc_l; [eapply pool_task; [exact Ht|by constructor]|].
    rewrite <- (list_insert_insert_eq ts k (op, Some (Ret a)) (op, Some n)).
    apply IH; [|done]. apply list_lookup_insert_eq. by eapply lookup_lt_Some.
  - eapply rtc_l; [eapply pool_task; [exact Ht|by constructor]|].
    rewrite <- (list_insert_insert_eq ts k (op, Some (Ret a)) (op, Some n)).
    apply IH; [|done]. apply list_lookup_insert_eq. by eapply lookup_lt_Some.
  - eapply rtc_l; [eapply pool_task; [exact Ht|by apply (head_await k c q n (answers q))]|].
    rewrite <- (list_insert_insert_eq ts k (op, Some (Ret a)) (op, Some (n (answers q)))).
    apply (IH (answers q)); [|done]. apply list_lookup_insert_eq. by eapply lookup_lt_Some.
Qed.

(** Starting a task and running it until it returns. *)
Lemma spawn_run answers op c c' a ts :
  (∀ q, answer_ok q (answers q)) → run_task (length ts) answers (code op) c = Some (c', a) →
  rtc pool_step (mkPool c ts) (mkPool c' (ts ++ [(op, Some (Ret a))])).
Proof.
  intros Hok Hr. eapply rtc_l; [apply (pool_spawn c ts op)|].
  replace (ts ++ [(op, Some (Ret a))]) with (<[length ts := (op, Some (Ret a))]> (ts ++ [(op, Some (code op))])).
  - eapply run_task_steps; [done| |done]. by rewrite list_lookup_middle.
  - rewrite insert_app_r_alt by done. by rewrite Nat.sub_diag.
Qed.

(** Running one task for some steps only. *)
Fixpoint run_steps (n : nat) (k : nat) (answers : ∀ q, Answer q) (p : prog Out) (c : Config)
    : option (Config * prog Out) :=
  match n with
  | O => Some (c, p)
  | S n =>
      match p with
      | Ret _ => None
      | Atomic f m => run_steps n k answers (m (shared c)) (update f c)
      | Acquire l m =>
          match held c !! l with None => run_steps n k answers m (acquire l k c) | Some _ => None end
      | Release l m => run_steps n k answers m (release l c)
      | Await q m => run_steps n k answers (m (answers q)) c
      end
  end.

Lemma run_steps_pool n k answers p c c' p' op ts :
  (∀ q, answer_ok q (answers q)) → ts !! k = Some (op, Some p) → run_steps n k answers p c = Some (c', p') →
  rtc pool_step (mkPool c ts) (mkPool c' (<[k := (op, Some p')]> ts)).
Proof.
  intros Hok. revert p c ts. induction n as [|n IH]; cbn; intros p c ts Ht Hr.
  { injection Hr as <- <-. by rewrite list_insert_id. }
  assert (∀ c1 p1, head_step k c p c1 p1 → run_steps n k answers p1 c1 = Some (c', p') →
            rtc pool_step (mkPool c ts) (mkPool c' (<[k := (op, Some p')]> ts))) as Hgo.
  { intros c1 p1 Hs H1. eapply rtc_l; [by eapply pool_task|].
    rewrite <- (list_insert_insert_eq ts k (op, Some p') (op, Some p1)).
    apply (IH p1); [|done]. apply list_lookup_insert_eq. by eapply lookup_lt_Some. }
  destruct p as [a|f m|l m|l m|q m]; [done| | | |].
  - eapply Hgo; [by constructor|done].
  - destruct (held c !! l) eqn:Hl; [done|]. eapply Hgo; [by constructor|done].
  - eapply Hgo; [by constructor|done].
  - eapply Hgo; [by apply (head_await k c q m (answers q))|done].
Qed.

(** Starting a task and running it for some steps. *)
Lemma spawn_steps n answers op c c' p' ts :
  (∀ q, answer_ok q (answers q)) → run_steps n (length ts) answers (code op) c = Some (c', p') →
  rtc pool_step (mkPool c ts) (mkPool c' (ts ++ [(op, Some p')])).
Proof.
  intros Hok Hr. eapply rtc_l; [apply (pool_spawn c ts op)|].
  replace (ts ++ [(op, Some p')]) with (<[length ts := (op, Some p')]> (ts ++ [(op, Some (code op))])).
  - eapply run_steps_pool; [done| |done]. by rewrite list_lookup_middle.
  - rewrite insert_app_r_alt by done. by rewrite Nat.sub_diag.
Qed.

(** The task that was started last is dropped. *)
Lemma drop_last op p c ts :
  cancellable op → pool_step (mkPool c (ts ++ [(op, Some p)])) (mkPool (release_all (length ts) c) (ts ++ [(op, None)])).
Proof.
  intros Hc. replace (ts ++ [(op, None)]) with (<[length ts := (op, @None (prog Out))]> (ts ++ [(op, Some p)])).
  - eapply pool_cancel; [by rewrite list_lookup_middle|done].
  - rewrite insert_app_r_alt by done. by rewrite Nat.sub_diag.
Qed.

(** ** Rely-guarantee: [rely k] are the moves that task [k] allows the others. *)

Context (rely : nat → Config → Config → Prop).

Definition guarantee (k : nat) (c c' : Config) : Prop := ∀ j, j ≠ k → rely j c c'.

(** The program may run as task [k] from every configuration the others can reach from
    [c], taking only the mutexes that it [can], keeping its guarantee at each step and
    ending in [post]. *)
Fixpoint wp {A} (can : Lock → Prop) (k : nat) (p : prog A) (post : A → Config → Prop) (c : Config) : Prop :=
  ∀ c', rely k c c' →
  match p with
  | Ret a => post a c'
  | Atomic f m => guarantee k c' (update f c') ∧ wp can k (m (shared c')) post (update f c')
  | Acquire l m =>
      can l ∧
      (held c' !! l = None → guarantee k c' (acquire l k c') ∧ wp can k m post (acquire l k c'))
  | Release l m => guarantee k c' (release l c') ∧ wp can k m post (release l c')
  | Await q m => ∀ a, answer_ok q a → wp can k (m a) post c'
  end.

(** What the others may do includes nothing and composes. *)
Class Rely := rely_preorder k :: PreOrder (rely k).
Context `{Rely}.

Lemma wp_rely {A} can k (p : prog A) post c c' : rely k c c' → wp can k p post c → wp can k p post c'.
Proof.
  intros Hr Hp. destruct p; intros c'' Hr'; apply Hp; by trans c'.
Qed.

Lemma wp_mono {A} (can can' : Lock → Prop) k (p : prog A) (post post' : A → Config → Prop) c :
  (∀ l, can l → can' l) → (∀ a c, post a c → post' a c) → wp can k p post c → wp can' k p post' c.
Proof.
  intros Hcan Himp. revert c.
  induction p as [a|f m IH|l m IH|l m IH|q m IH]; intros c Hp c' Hr; specialize (Hp c' Hr).
  - by apply Himp.
  - destruct Hp as [Hg Hp]. split; [done|]. by apply IH.
  - destruct Hp as [Hl Hp]. split; [by apply Hcan|]. intros Hfree. destruct (Hp Hfree) as [Hg Hp'].
    split; [done|]. by apply IH.
  - destruct Hp as [Hg Hp]. split; [done|]. by apply IH.
  - intros a Ha. apply IH, Hp, Ha.
Qed.

Lemma wp_bind {A B} can k (p : prog A) (m : A → prog B) post c :
  wp can k p (λ a c, wp can k (m a) post c) c → wp can k (bind p m) post c.
Proof.
  revert c. induction p as [a|f n IH|l n IH|l n IH|q n IH]; intros c Hp; cbn.
  - by apply Hp.
  - intros c' Hr. destruct (Hp c' Hr) as [Hg Hp']. split; [done|]. by apply IH.
  - intros c' Hr. destruct (Hp c' Hr) as [Hl Hp']. split; [done|]. intros Hfree.
    destruct (Hp' Hfree) as [Hg Hp'']. split; [done|]. by apply IH.
  - intros c' Hr. destruct (Hp c' Hr) as [Hg Hp']. split; [done|]. by apply IH.
  - intros c' Hr a Ha. apply IH, Hp; done.
Qed.

(** ** From programs to pools *)

Context (post : Op → Out → Config → Prop) (holdable : Op → Lock → Prop) (inv : Config → Prop).

Definition owns_nothing (k : nat) (c : Config) : Prop :=
  ∀ l o s, held c !! l = Some (o, s) → o ≠ k.

Record pool_ok (w : Pool) : Prop := {
  pool_tasks k op p : tasks w !! k = Some (op, Some p) → wp (holdable op) k p (post op) (config w);
  pool_inv : inv (config w);
  pool_owners l o s :
    held (config w) !! l = Some (o, s) → ∃ op p, tasks w !! o = Some (op, p) ∧ holdable op l;
}.

(** What the code of the pool has to satisfy. *)
Record Verified := {
  verified_inv k c c' : rely k c c' → inv c → inv c';
  verified_code k op c : owns_nothing k c → inv c → wp (holdable op) k (code op) (post op) c;
  verified_cancel k op c :
    cancellable op → (∀ l s, held c !! l = Some (k, s) → holdable op l) → guarantee k c (release_all k c);
  verified_outside k c s' : outside (shared c) s' → rely k c (mkConfig s' (held c));
}.
Context (V : Verified).

Lemma head_step_ok can k c p c' p' Φ :
  head_step k c p c' p' → wp can k p Φ c → guarantee k c c' ∧ wp can k p' Φ c'.
Proof.
  intros Hstep Hp. destruct Hstep as [c0 f m|c0 l m Hfree|c0 l m|c0 q m a Ha];
    cbn in Hp; specialize (Hp c0 (reflexivity c0)); [exact Hp|exact (proj2 Hp Hfree)|exact Hp|].
  split; [by intros j _|exact (Hp a Ha)].
Qed.

Lemma head_step_owners can k c p c' p' Φ l o s :
  head_step k c p c' p' → wp can k p Φ c → held c' !! l = Some (o, s) →
  (o = k ∧ can l) ∨ held c !! l = Some (o, s).
Proof.
  intros Hstep Hp. destruct Hstep as [c0 f m|c0 i m Hfree|c0 i m|c0 q m a Ha]; cbn; [by right| | |by right].
  - rewrite lookup_insert_Some. intros [[<- Ho]|[_ Hl]]; [left|by right].
    injection Ho as -> _. split; [done|]. exact (proj1 (Hp c0 (reflexivity c0))).
  - rewrite lookup_delete_Some. intros [_ Hl]. by right.
Qed.

Lemma pool_ok_init s : inv (mkConfig s ∅) → pool_ok (mkPool (mkConfig s ∅) []).
Proof. intros Hi. split; [done|done|]. intros l o s'. cbn. by rewrite lookup_empty. Qed.

Lemma guarantee_inv k c c' : guarantee k c c' → inv c → inv c'.
Proof. intros Hg. apply (V.(verified_inv) (S k)), Hg. lia. Qed.

(** The other tasks after a step of task [k]. *)
Lemma others_ok k c c' ts j op p :
  pool_ok (mkPool c ts) → guarantee k c c' → j ≠ k → ts !! j = Some (op, Some p) →
  wp (holdable op) j p (post op) c'.
Proof. intros Hw Hg Hj Ht. eapply wp_rely; [by apply Hg|]. exact (pool_tasks _ Hw j op p Ht). Qed.

Lemma owners_insert (ts : list (Op * option (prog Out))) (k : nat) op (p p' : option (prog Out)) (l : Lock) (o : nat) :
  ts !! k = Some (op, p) → (∃ op p, ts !! o = Some (op, p) ∧ holdable op l) →
  ∃ op' q, <[k := (op, p')]> ts !! o = Some (op', q) ∧ holdable op' l.
Proof.
  intros Hk (op' & q & Ho & Hh). destruct (decide (o = k)) as [->|Hne].
  - rewrite Hk in Ho. injection Ho as -> ->. eexists _, _.
    by rewrite list_lookup_insert_eq by (by eapply lookup_lt_Some).
  - exists op', q. by rewrite list_lookup_insert_ne.
Qed.

Lemma pool_task_ok c c' ts k op p p' :
  ts !! k = Some (op, Some p) → head_step k c p c' p' → pool_ok (mkPool c ts) →
  pool_ok (mkPool c' (<[k := (op, Some p')]> ts)).
Proof.
  intros Ht Hstep Hw. pose proof (pool_tasks _ Hw k op p Ht) as Hwp. cbn in Hwp.
  destruct (head_step_ok _ _ _ _ _ _ _ Hstep Hwp) as [Hg Hp]. split; cbn.
  - intros j op' q Hj. destruct (decide (j = k)) as [->|Hne].
    + rewrite list_lookup_insert_eq in Hj by (by eapply lookup_lt_Some). by injection Hj as <- <-.
    + rewrite list_lookup_insert_ne in Hj by done. by eapply others_ok.
  - eapply guarantee_inv; [done|exact (pool_inv _ Hw)].
  - intros l o s Hl. eapply owners_insert; [done|].
    destruct (head_step_owners _ _ _ _ _ _ _ _ _ _ Hstep Hwp Hl) as [[-> Hcan]|Hl']; [by eexists _, _|].
    exact (pool_owners _ Hw l o s Hl').
Qed.

Lemma pool_spawn_ok c ts op : pool_ok (mkPool c ts) → pool_ok (mkPool c (ts ++ [(op, Some (code op))])).
Proof.
  intros Hw. split; cbn.
  - intros j op' q [Hj|[Hlen Hj]]%lookup_app_Some; [exact (pool_tasks _ Hw j op' q Hj)|].
    apply list_lookup_singleton_Some in Hj as [_ [= <- <-]]. apply V.(verified_code); [|exact (pool_inv _ Hw)].
    intros l o s Hl ->. destruct (pool_owners _ Hw l j s Hl) as (op' & p & Ho & _).
    apply lookup_lt_Some in Ho. cbn in Ho. lia.
  - exact (pool_inv _ Hw).
  - intros l o s Hl. destruct (pool_owners _ Hw l o s Hl) as (op' & p & Ho & Hh).
    exists op', p. split; [by apply lookup_app_l_Some|done].
Qed.

Lemma pool_cancel_ok c ts k op p :
  ts !! k = Some (op, Some p) → cancellable op → pool_ok (mkPool c ts) →
  pool_ok (mkPool (release_all k c) (<[k := (op, None)]> ts)).
Proof.
  intros Ht Hc Hw. assert (guarantee k c (release_all k c)) as Hg.
  { apply (V.(verified_cancel) k op); [done|]. intros l s Hl.
    destruct (pool_owners _ Hw l k s Hl) as (op' & q & Ho & Hh). cbn in Ho. rewrite Ht in Ho.
    by injection Ho as <- _. }
  split; cbn.
  - intros j op' q Hj. destruct (decide (j = k)) as [->|Hne].
    + rewrite list_lookup_insert_eq in Hj by (by eapply lookup_lt_Some). done.
    + rewrite list_lookup_insert_ne in Hj by done. by eapply others_ok.
  - eapply guarantee_inv; [done|exact (pool_inv _ Hw)].
  - intros l o s Hl. eapply owners_insert; [done|]. apply map_lookup_filter_Some in Hl as [Hl _].
    exact (pool_owners _ Hw l o s Hl).
Qed.

Lemma pool_step_ok w w' : pool_step w w' → pool_ok w → pool_ok w'.
Proof.
  intros Hstep Hw. destruct Hstep as [c c' ts k op p p' Ht Hstep|c ts op|c ts k op p Ht Hc|c ts s' Ho].
  - by eapply pool_task_ok.
  - by apply pool_spawn_ok.
  - by eapply pool_cancel_ok.
  - split; cbn; [|eapply (V.(verified_inv) 0%nat); [by apply V.(verified_outside)|exact (pool_inv _ Hw)]|exact (pool_owners _ Hw)].
    intros j op' q Hj. eapply wp_rely; [by apply V.(verified_outside)|exact (pool_tasks _ Hw j op' q Hj)].
Qed.

Lemma pool_reachable w w' : pool_ok w → rtc pool_step w w' → pool_ok w'.
Proof. intros Hw Hsteps. induction Hsteps; eauto using pool_step_ok. Qed.

(** A task of a reachable pool that has returned satisfies its postcondition. *)
Lemma pool_safe w w' k op r :
  pool_ok w → rtc pool_step w w' → tasks w' !! k = Some (op, Some (Ret r)) → post op r (config w').
Proof.
  intros Hw Hsteps Ht. pose proof (pool_reachable _ _ Hw Hsteps) as Hw'.
  exact (pool_tasks _ Hw' k op _ Ht (config w') (reflexivity _)).
Qed.
End program.

Arguments Ret {St Lock Q Answer A} _.
Arguments Atomic {St Lock Q Answer A} _ _.
Arguments Acquire {St Lock Q Answer A} _ _.
Arguments Release {St Lock Q Answer A} _ _.
Arguments Await {St Lock Q Answer A} _ _.

Notation "'let>' x ':=' m 'in' k" := (bind m (λ x, k))
  (at level 10, x pattern at level 0, m at level 200, k at level 200,
   format "'[' 'let>'  x  ':='  m  'in'  '/' k ']'") : rust_scope.

Notation "'try>' x ':=' m 'in' k" := (try_bind m (λ x, k))
  (at level 10, x pattern at level 0, m at level 200, k at level 200,
   format "'[' 'try>'  x  ':='  m  'in'  '/' k ']'") : rust_scope.

(** Shows that a program leaves a part alone, piece by piece; [known] applies the lemmas
    on the programs that are not unfolded. *)
Ltac head_of t := lazymatch t with ?f _ => head_of f | _ => t end.
Ltac leave_alone_with known :=
  repeat first
    [ done
    | known
    | apply untouched_bind | apply untouched_try
    | progress intros
    | match goal with
      | |- _ ∧ _ => split
      | |- untouched _ (match ?x with _ => _ end) => destruct x
      | |- _ (match ?x with _ => _ end) = _ => destruct x
      | |- _ (if ?x then _ else _) = _ => destruct x
      | |- untouched _ ?p => let f := head_of p in unfold f
      end
    | progress cbn ].
