(* ===== verification/SdkVoice.v ===== *)
(** The shared state of the high-level client and its voice operations
    (crates/zephyrvox-sdk/src: client.rs, voice.rs, voice_api.rs).

    What the other crates do is called by name ([Query]): the HTTP accessors of
    HttpVoice and HttpMetadata, the UDP transport of VoiceWorker, the control connection
    of Connection. Their answers are any values of their result types. A [std] mutex
    protects a section without suspension, which is one atomic piece here. *)

From S2P Require Import Prelude Text Types Json Wire ClientModel VoiceTypes VoiceConfig VoiceCrypto VoiceCodec.
From S2P Require Import RealtimeTypes HttpTypes HttpVoice HttpAuth SdkTypes SdkProgram.

(** ** client.rs and voice.rs: the state *)

(** A [VoiceSession] handle. The UDP transport, the teardown mutex and the [left] flag
    that clones share are identified by [vs_transport]. *)
Record VoiceSession := mkVoiceSession {
  vs_transport : nat;
  vs_channel_id : Z;
  vs_codec : CodecCapability;
  vs_config : VoiceSessionConfig;
  vs_control : nat;
  vs_control_generation : Z;
}.

Definition vs_session_id (v : VoiceSession) : byte_list := cfg_session_id (vs_config v).
Definition vs_max_payload (v : VoiceSession) : Z := cfg_max_payload (vs_config v).
Definition vs_encrypted (v : VoiceSession) : bool := cfg_encrypted (vs_config v).
Definition vs_expires_at (v : VoiceSession) : Z := cfg_expires_at (vs_config v).

Record VoiceIntent := mkVoiceIntent {
  intent_channel_id : Z;
  intent_request : VoiceJoinRequest;
  intent_session_id : byte_list;
}.

(** What the handles of a control connection read of it. *)
Record ControlView := mkControlView {
  view_status : ConnectionStatus;
  view_id : option byte_list;
}.

Record ClientInner (V : Type) := mkClientInner {
  (** The events sent to the host. *)
  ci_events : list (SdkEvent V);
  ci_metadata : option Metadata;
  (** The state store, by the connection that owns it. *)
  ci_state : option nat;
  ci_control : option nat;
  ci_voice : option VoiceSession;
  ci_voice_intent : option VoiceIntent;
  ci_tasks : list nat;
  ci_stopped : bool;
  ci_generation : Z;
  ci_key_cache : SessionKeyCache;
  (** Behind the handles: the connections made so far, the number of transports
      started, those that have been closed, and those whose session has left. *)
  ci_connections : list ControlView;
  ci_transports : nat;
  ci_closed : gset nat;
  ci_left : gset nat;
}.
Arguments mkClientInner {V} _ _ _ _ _ _ _ _ _ _ _ _ _ _.
Arguments ci_events {V} _.
Arguments ci_metadata {V} _.
Arguments ci_state {V} _.
Arguments ci_control {V} _.
Arguments ci_voice {V} _.
Arguments ci_voice_intent {V} _.
Arguments ci_tasks {V} _.
Arguments ci_stopped {V} _.
Arguments ci_generation {V} _.
Arguments ci_key_cache {V} _.
Arguments ci_connections {V} _.
Arguments ci_transports {V} _.
Arguments ci_closed {V} _.
Arguments ci_left {V} _.

(** The asynchronous mutexes; every session has its own teardown lock. *)
Inductive Gate :=
| VoiceGate
| ControlLock
| VoiceLock
| TasksLock
| ShutdownGate
| TeardownLock (transport : nat).

#[global] Instance Gate_eq_dec : EqDecision Gate.
Proof. solve_decision. Defined.

#[global] Instance Gate_countable : Countable Gate.
Proof.
  refine (inj_countable' (λ g, match g with
            | VoiceGate => 0 | ControlLock => 1 | VoiceLock => 2 | TasksLock => 3 | ShutdownGate => 4
            | TeardownLock t => 5 + t end)%nat
          (λ n, match n with
            | 0 => VoiceGate | 1 => ControlLock | 2 => VoiceLock | 3 => TasksLock | 4 => ShutdownGate
            | S (S (S (S (S t)))) => TeardownLock t end)%nat _).
  by intros [].
Defined.

(** ** Calls to the other crates *)

Inductive Query :=
| QMetadata
| QLogin (request : LoginRequest)
| QJoin (channel_id : Z) (request : VoiceJoinRequest) (control_id : byte_list)
| QLeave (session_id control_id : byte_list)
| QBindSocket (endpoint : VoiceEndpoint)
| QStartWorker (config : VoiceSessionConfig)
| QCloseTransport (transport : nat)
| QSendFrame (transport : nat) (stream_type : Z) (payload : byte_list)
| QRecvFrame (transport : nat)
| QWaitStopped (transport : nat)
| QConnect (own_connector : bool)
| QCloseControl (connection : nat)
| QSetPresence (connection : nat) (presence : Presence)
| QSpawnRelay (connection : nat) (generation : Z)
| QRecvEvent (connection : nat)
| QUpgrade
| QAbort (task : nat).

(** [RecvError] or the event. *)
Inductive RelayItem (V : Type) :=
| RelayEvent (e : ClientEvent V)
| RelayLagged (missed : Z)
| RelayClosed.
Arguments RelayEvent {V} _.
Arguments RelayLagged {V} _.
Arguments RelayClosed {V}.

(** [QStartWorker] answers what [started_rx] yields: [None] when the worker dropped its
    sender. *)
Definition Answer (V : Type) (q : Query) : Type :=
  match q with
  | QMetadata => result HttpError Metadata
  | QLogin _ => result HttpError LoginResult
  | QJoin _ _ _ => result HttpError VoiceJoinResponse
  | QLeave _ _ => result HttpError unit
  | QBindSocket _ => result VoiceError unit
  | QStartWorker _ => option (result VoiceError unit)
  | QCloseTransport _ | QSendFrame _ _ _ => result VoiceError unit
  | QRecvFrame _ => result VoiceError InboundMedia
  | QWaitStopped _ => unit
  | QConnect _ => result RealtimeError ControlView
  | QCloseControl _ => result RealtimeError unit
  | QSetPresence _ _ => result RealtimeError CommandAck
  | QSpawnRelay _ _ => nat
  | QRecvEvent _ => RelayItem V
  | QUpgrade => bool
  | QAbort _ => unit
  end.

Section state.
Context {V : Type}.
Implicit Types s : ClientInner V.

Definition emit (e : SdkEvent V) s : ClientInner V :=
  mkClientInner (ci_events s ++ [e]) (ci_metadata s) (ci_state s) (ci_control s) (ci_voice s)
    (ci_voice_intent s) (ci_tasks s) (ci_stopped s) (ci_generation s) (ci_key_cache s)
    (ci_connections s) (ci_transports s) (ci_closed s) (ci_left s).
Definition set_metadata m s : ClientInner V :=
  mkClientInner (ci_events s) m (ci_state s) (ci_control s) (ci_voice s) (ci_voice_intent s)
    (ci_tasks s) (ci_stopped s) (ci_generation s) (ci_key_cache s) (ci_connections s)
    (ci_transports s) (ci_closed s) (ci_left s).
Definition set_state c s : ClientInner V :=
  mkClientInner (ci_events s) (ci_metadata s) c (ci_control s) (ci_voice s) (ci_voice_intent s)
    (ci_tasks s) (ci_stopped s) (ci_generation s) (ci_key_cache s) (ci_connections s)
    (ci_transports s) (ci_closed s) (ci_left s).
Definition set_control c s : ClientInner V :=
  mkClientInner (ci_events s) (ci_metadata s) (ci_state s) c (ci_voice s) (ci_voice_intent s)
    (ci_tasks s) (ci_stopped s) (ci_generation s) (ci_key_cache s) (ci_connections s)
    (ci_transports s) (ci_closed s) (ci_left s).
Definition set_voice v s : ClientInner V :=
  mkClientInner (ci_events s) (ci_metadata s) (ci_state s) (ci_control s) v (ci_voice_intent s)
    (ci_tasks s) (ci_stopped s) (ci_generation s) (ci_key_cache s) (ci_connections s)
    (ci_transports s) (ci_closed s) (ci_left s).
Definition set_intent i s : ClientInner V :=
  mkClientInner (ci_events s) (ci_metadata s) (ci_state s) (ci_control s) (ci_voice s) i
    (ci_tasks s) (ci_stopped s) (ci_generation s) (ci_key_cache s) (ci_connections s)
    (ci_transports s) (ci_closed s) (ci_left s).
Definition set_tasks t s : ClientInner V :=
  mkClientInner (ci_events s) (ci_metadata s) (ci_state s) (ci_control s) (ci_voice s)
    (ci_voice_intent s) t (ci_stopped s) (ci_generation s) (ci_key_cache s) (ci_connections s)
    (ci_transports s) (ci_closed s) (ci_left s).
Definition set_stopped b s : ClientInner V :=
  mkClientInner (ci_events s) (ci_metadata s) (ci_state s) (ci_control s) (ci_voice s)
    (ci_voice_intent s) (ci_tasks s) b (ci_generation s) (ci_key_cache s) (ci_connections s)
    (ci_transports s) (ci_closed s) (ci_left s).
Definition set_generation g s : ClientInner V :=
  mkClientInner (ci_events s) (ci_metadata s) (ci_state s) (ci_control s) (ci_voice s)
    (ci_voice_intent s) (ci_tasks s) (ci_stopped s) g (ci_key_cache s) (ci_connections s)
    (ci_transports s) (ci_closed s) (ci_left s).
Definition set_keys k s : ClientInner V :=
  mkClientInner (ci_events s) (ci_metadata s) (ci_state s) (ci_control s) (ci_voice s)
    (ci_voice_intent s) (ci_tasks s) (ci_stopped s) (ci_generation s) k (ci_connections s)
    (ci_transports s) (ci_closed s) (ci_left s).
Definition set_connections c s : ClientInner V :=
  mkClientInner (ci_events s) (ci_metadata s) (ci_state s) (ci_control s) (ci_voice s)
    (ci_voice_intent s) (ci_tasks s) (ci_stopped s) (ci_generation s) (ci_key_cache s) c
    (ci_transports s) (ci_closed s) (ci_left s).
Definition set_transports n s : ClientInner V :=
  mkClientInner (ci_events s) (ci_metadata s) (ci_state s) (ci_control s) (ci_voice s)
    (ci_voice_intent s) (ci_tasks s) (ci_stopped s) (ci_generation s) (ci_key_cache s)
    (ci_connections s) n (ci_closed s) (ci_left s).
Definition set_left l s : ClientInner V :=
  mkClientInner (ci_events s) (ci_metadata s) (ci_state s) (ci_control s) (ci_voice s)
    (ci_voice_intent s) (ci_tasks s) (ci_stopped s) (ci_generation s) (ci_key_cache s)
    (ci_connections s) (ci_transports s) (ci_closed s) l.
Definition set_closed k s : ClientInner V :=
  mkClientInner (ci_events s) (ci_metadata s) (ci_state s) (ci_control s) (ci_voice s)
    (ci_voice_intent s) (ci_tasks s) (ci_stopped s) (ci_generation s) (ci_key_cache s)
    (ci_connections s) (ci_transports s) k (ci_left s).

(** [control.status()] and [control.id()]. *)
Definition control_status (c : nat) s : option ConnectionStatus := view_status <$> ci_connections s !! c.
Definition control_id (c : nat) s : option byte_list := ci_connections s !! c ≫= view_id.

Definition remove_key (sid : byte_list) s : ClientInner V :=
  set_keys (KeyCache.remove (ci_key_cache s) sid).2 s.
End state.

(** ** Operations *)

Section voice.
Context {V : Type} `{Base64Lib}.

(** The configured preference, fixed for the life of a client. *)
Context (auto_rejoin_voice : bool).

Abbreviation act A := (prog (St:=ClientInner V) (Lock:=Gate) (Q:=Query) (Answer:=Answer V) A).

Definition map_error {E F A} (f : E → F) (m : act (result E A)) : act (result F A) :=
  let> r := m in
  Ret (map_err f r).

Definition raise {A} (e : SdkError) : act (result SdkError A) := Ret (Err e).

(** lifecycle.rs. *)
Definition ensure_open : act (result SdkError unit) :=
  read (λ s, if ci_stopped s then Err SdkClosed else Ok tt).

(** client.rs. *)
Definition discover : act (result SdkError Metadata) :=
  try> _ := ensure_open in
  let> cached := read ci_metadata in
  match cached with
  | Some m => Ret (Ok m)
  | None =>
      try> m := map_error SdkHttp (call QMetadata) in
      let> _ := modify (set_metadata (Some m)) in
      Ret (Ok m)
  end.

Definition current_control : act (result SdkError nat) :=
  try> _ := ensure_open in
  let> control := with_lock ControlLock (read ci_control) in
  match control with
  | Some c =>
      let> status := read (control_status c) in
      if bool_decide (status = Some SClosed) then raise NotConnected else Ret (Ok c)
  | None => raise NotConnected
  end.

(** *** The UDP transport *)

(** What [PacketCodec::from_config] does with the key cache. *)
Definition admit_key (config : VoiceSessionConfig) (keys : SessionKeyCache)
    : result VoiceError unit * SessionKeyCache :=
  let cache := cache_inline_key config (Some keys) in
  (result_map (λ _, tt) (resolve_key config cache), default keys cache).

#[global] Arguments admit_key : simpl never.

(** [connect_with_key_cache]; the result is the new transport. A worker whose first
    heartbeat fails has run its [finish], which removes the cached key. *)
Definition connect_with_key_cache (config : VoiceSessionConfig) : act (result VoiceError nat) :=
  try> _ := call (QBindSocket (cfg_endpoint config)) in
  try> _ := atomically (λ s, let '(r, keys) := admit_key config (ci_key_cache s) in (r, set_keys keys s)) in
  let> started := call (QStartWorker config) in
  match started with
  | Some (Ok _) => atomically (λ s, (Ok (ci_transports s), set_transports (S (ci_transports s)) s))
  | Some (Err e) =>
      let> _ := modify (remove_key (cfg_session_id config)) in
      Ret (Err e)
  | None => Ret (Err Closed)
  end.

(** [transport.close()]: the worker has stopped when it returns, its key is gone. *)
Definition close_worker (transport : nat) (sid : byte_list) : act (result VoiceError unit) :=
  let> r := call (QCloseTransport transport) in
  let> _ := modify (λ s, remove_key sid (set_closed ({[transport]} ∪ ci_closed s) s)) in
  Ret r.

(** *** voice.rs *)

Definition session_send (v : VoiceSession) (stream_type : Z) (payload : byte_list) : act (result SdkError unit) :=
  map_error SdkVoice (call (QSendFrame (vs_transport v) stream_type payload)).

Definition session_recv (v : VoiceSession) : act (result SdkError InboundMedia) :=
  map_error SdkVoice (call (QRecvFrame (vs_transport v))).

Definition session_wait_until_stopped (v : VoiceSession) : act unit := call (QWaitStopped (vs_transport v)).

(** The intent of this session, by its identifier. *)
Definition session_clear_intent (v : VoiceSession) : act unit :=
  modify (λ s, match ci_voice_intent s with
               | Some i => if bool_decide (intent_session_id i = vs_session_id v) then set_intent None s else s
               | None => s
               end).

Definition stop_transport (v : VoiceSession) : act (result SdkError unit) :=
  with_lock (TeardownLock (vs_transport v)) (
    let> r := close_worker (vs_transport v) (vs_session_id v) in
    let> _ := modify (remove_key (vs_session_id v)) in
    Ret (map_err SdkVoice r)).

Definition session_close (v : VoiceSession) : act (result SdkError unit) :=
  let> _ := session_clear_intent v in
  stop_transport v.

Definition session_close_transport (v : VoiceSession) : act (result SdkError unit) := stop_transport v.

(** The body of [leave] under the teardown lock. *)
Definition leave_locked (v : VoiceSession) : act (result SdkError unit) :=
  let> gone := read (λ s, bool_decide (vs_transport v ∈ ci_left s)) in
  if gone : bool then Ret (Ok tt)
  else
    let> close_result := close_worker (vs_transport v) (vs_session_id v) in
    let> _ := modify (remove_key (vs_session_id v)) in
    let> id := read (control_id (vs_control v)) in
    let> leave_result :=
      match id with
      | Some id => map_error SdkHttp (call (QLeave (vs_session_id v) id))
      | None => raise VoiceControlUnavailable
      end in
    try> _ := Ret (map_err SdkVoice close_result) in
    try> _ := Ret leave_result in
    let> _ := modify (λ s, set_left ({[vs_transport v]} ∪ ci_left s) s) in
    Ret (Ok tt).

Definition session_leave (v : VoiceSession) : act (result SdkError unit) :=
  let> _ := session_clear_intent v in
  with_lock (TeardownLock (vs_transport v)) (leave_locked v).

(** *** voice_api.rs *)

Definition decode_session_key (encrypted created : bool) (key : option string)
    : result SdkError (option byte_list) :=
  match encrypted, created, key with
  | false, _, None => Ok None
  | false, _, Some _ =>
      Err (VoiceNegotiationError "plaintext voice negotiation included a session key")
  | true, true, Some key =>
      let? bytes := ok_or (VoiceNegotiationError "voice session key is not valid base64") (decode_standard key) in
      let? key := map_err SdkVoice (SessionKey.from_slice bytes) in
      Ok (Some key)
  | true, true, None =>
      Err (VoiceNegotiationError "new encrypted voice negotiation omitted its session key")
  | true, false, None => Ok None
  | true, false, Some _ =>
      Err (VoiceNegotiationError "reused encrypted voice negotiation included a session key")
  end.

(** The configuration that the metadata and the negotiation describe. *)
Definition negotiated_config (m : Metadata) (n : VoiceNegotiation) : result SdkError VoiceSessionConfig :=
  let? key := decode_session_key (vn_encrypted n) (vn_created n) (vn_key n) in
  map_err SdkVoice (
    let? config := new_with_protocol_version (voice_endpoint m) (vn_session_id n) (vn_protocol_version n)
                     (vn_encrypted n) (vn_max_payload n) (vn_expires_at n) key in
    with_stream_types config (VoiceStreamType_id <$> voice_stream_types m)).

(** The key of a session that is joined again without one. *)
Definition cached_reuse_key (n : VoiceNegotiation) (keys : SessionKeyCache) : option byte_list :=
  if vn_encrypted n && negb (vn_created n) && bool_decide (vn_key n = None)
  then KeyCache.get keys (vn_session_id n) else None.

Definition is_live (c : nat) (s : ClientInner V) : bool := bool_decide (control_status c s = Some SLive).

(** What [join_voice] does with a started transport: it becomes the current session. *)
Definition install_session (session : VoiceSession) (request : VoiceJoinRequest) (reuse : option byte_list)
    : act (result SdkError VoiceSession) :=
  let> previous := with_lock VoiceLock (atomically (λ s, (ci_voice s, set_voice (Some session) s))) in
  let> _ := match previous with
            | Some previous => let> _ := session_close_transport previous in Ret tt
            | None => Ret tt
            end in
  let> _ := match reuse with
            | Some key => modify (λ s, set_keys (KeyCache.insert (ci_key_cache s) (vs_session_id session) key) s)
            | None => Ret tt
            end in
  let> _ := modify (set_intent (if auto_rejoin_voice
              then Some (mkVoiceIntent (vs_channel_id session) request (vs_session_id session)) else None)) in
  let> _ := modify (emit (SdkVoiceEvent (VoiceJoined (vs_channel_id session) (vs_session_id session)))) in
  Ret (Ok session).

(** The part of [join_voice] that follows the response. *)
Definition start_session (channel_id : Z) (request : VoiceJoinRequest) (control : nat) (id : byte_list)
    (generation : Z) (m : Metadata) (codec : CodecCapability) (response : VoiceJoinResponse)
    : act (result SdkError VoiceSession) :=
  if negb (Channel_id (join_channel response) =? channel_id) then raise (channel_mismatch channel_id)
  else
    let negotiated := join_voice_negotiation response in
    try> _ := Ret (decode_session_key (vn_encrypted negotiated) (vn_created negotiated) (vn_key negotiated)) in
    let> reuse := read (λ s, cached_reuse_key negotiated (ci_key_cache s)) in
    try> config := Ret (negotiated_config m negotiated) in
    try> transport := map_error SdkVoice (connect_with_key_cache config) in
    let> stopped := read ci_stopped in
    let> replaced := read (λ s, negb (ci_generation s =? generation)) in
    let> renewed := read (λ s, negb (bool_decide (control_id control s = Some id))) in
    if stopped || replaced || renewed then
      let> _ := close_worker transport (cfg_session_id config) in
      let> stopped := read ci_stopped in
      raise (if stopped : bool then SdkClosed else VoiceControlUnavailable)
    else
      install_session (mkVoiceSession transport channel_id codec config control generation) request reuse.

(** [join_voice] under the voice gate. *)
Definition join_locked (channel_id : Z) (request : VoiceJoinRequest) : act (result SdkError VoiceSession) :=
  try> control := current_control in
  let> live := read (is_live control) in
  if negb live then raise ControlNotLive
  else
    try> m := discover in
    try> codec := Ret (ok_or CodecUnavailable (head (codecs m))) in
    let> live := read (is_live control) in
    if negb live then raise ControlNotLive
    else
      let> id := read (control_id control) in
      try> id := Ret (ok_or VoiceControlUnavailable id) in
      let> generation := read ci_generation in
      try> response := map_error SdkHttp (call (QJoin channel_id request id)) in
      start_session channel_id request control id generation m codec response.

Definition join_voice (channel_id : Z) (request : VoiceJoinRequest) : act (result SdkError VoiceSession) :=
  try> _ := ensure_open in
  with_lock VoiceGate (join_locked channel_id request).

Definition clear_voice_intent : act unit := modify (set_intent None).

(** [leave_voice] under the voice gate: a session that could not leave is kept. *)
Definition leave_current : act (result SdkError unit) :=
  let> session := with_lock VoiceLock (atomically (λ s, (ci_voice s, set_voice None s))) in
  match session with
  | Some session =>
      let> result := session_leave session in
      let> _ := (if negb (is_ok result) then with_lock VoiceLock (modify (set_voice (Some session))) else Ret tt) in
      Ret result
  | None => Ret (Ok tt)
  end.

Definition leave_voice : act (result SdkError unit) :=
  try> _ := ensure_open in
  let> _ := clear_voice_intent in
  with_lock VoiceGate leave_current.

Definition rejoin_voice_if_configured : act (result SdkError unit) :=
  if negb auto_rejoin_voice then Ret (Ok tt)
  else
    let> intent := read ci_voice_intent in
    match intent with
    | None => Ret (Ok tt)
    | Some intent =>
        let> joined := join_voice (intent_channel_id intent) (intent_request intent) in
        match joined with
        | Err e => let> _ := clear_voice_intent in Ret (Err e)
        | Ok _ => Ret (Ok tt)
        end
    end.
End voice.
