(* ===== verification/VoiceReuse.v ===== *)
(** Joining a voice session again with its cached key
    (crates/zephyrvox-sdk/src/voice_api.rs over crates/zephyrvox-voice/src): the second
    worker seals and opens with the keys of the first, and numbers from the start. *)

From S2P Require Import Prelude Text Types Wire VoiceTypes VoiceConfig VoiceCrypto VoiceCodec Replay VoiceWorker.
From S2P Require Import HttpVoice HttpDiscovery SdkTypes SdkVoice.

(** The server's answer to a join of a session that exists: no new one, no key. *)
Definition joined_again (n : VoiceNegotiation) : VoiceNegotiation :=
  mkVoiceNegotiation false (vn_session_id n) None (vn_encrypted n) (vn_warning n) (vn_max_payload n)
    (vn_protocol_version n) (vn_expires_at n).

Definition without_key (c : VoiceSessionConfig) : VoiceSessionConfig :=
  mkVoiceSessionConfig (cfg_endpoint c) (cfg_session_id c) (cfg_protocol_version c) (cfg_encrypted c)
    (cfg_max_payload c) (cfg_expires_at c) None (cfg_allowed_stream_types c).

(** ** The configurations and the codecs *)

Section negotiation.
Context `{Base64Lib}.

Lemma keyed_config m n config :
  0 ≤ vn_max_payload n → vn_encrypted n = true → vn_created n = true → negotiated_config m n = Ok config →
  config_ok config ∧ cfg_session_id config = vn_session_id n ∧ cfg_encrypted config = true ∧
  is_Some (cfg_session_key config) ∧ cfg_max_payload config = vn_max_payload n ∧
  (∃ ts, cfg_allowed_stream_types config = Some ts ∧ ∀ t, t ∈ ts ↔ t ∈ VoiceStreamType_id <$> voice_stream_types m) ∧
  negotiated_config m (joined_again n) = Ok (without_key config).
Proof.
  intros Hmp He Hc Hn. unfold negotiated_config in *. rewrite He, Hc in Hn. cbn [joined_again vn_encrypted vn_created vn_key].
  rewrite He. cbn [decode_session_key result_bind]. apply result_bind_ok in Hn as (key & Hk & Hn).
  assert (is_Some key) as [k ->].
  { unfold decode_session_key in Hk. destruct (vn_key n) as [text|]; [|done].
    apply result_bind_ok in Hk as (bytes & _ & Hk). apply result_bind_ok in Hk as (k & _ & [= <-]). by eexists. }
  apply map_err_ok in Hn. apply result_bind_ok in Hn as (c & Hnew & Hw).
  destruct (new_with_protocol_version_ok _ _ _ _ _ _ _ _ Hmp Hnew) as (Hok & Hsid & Henc & Hkey & _).
  destruct (with_stream_types_ok _ _ _ Hok Hw) as [Hok' Hts].
  assert (new_with_protocol_version (voice_endpoint m) (vn_session_id n) (vn_protocol_version n) true
            (vn_max_payload n) (vn_expires_at n) None = Ok (without_key c)) as Hnew'.
  { unfold new_with_protocol_version in *. destruct (validate_endpoint _); cbn in *; [|done].
    repeat match goal with |- (if ?b then _ else _) = _ => destruct b; [done|] end. by simplify_eq. }
  unfold with_stream_types in *. destruct (_ || _) eqn:Hv in Hw; [done|]. simplify_eq. cbn in *.
  split_and!; [done..|by rewrite Hkey; eexists| | |].
  - unfold new_with_protocol_version in Hnew. destruct (validate_endpoint _); cbn in Hnew; [|done].
    repeat match type of Hnew with (if ?b then _ else _) = _ => destruct b; [done|] end. by simplify_eq.
  - eexists. split; [done|]. intros t. rewrite <- Hts. naive_solver.
  - rewrite Hnew'. cbn. by rewrite Hv.
Qed.
End negotiation.

(** ** The workers *)

Section workers.
Context `{Laws : CryptoLaws}.
Implicit Types (config : VoiceSessionConfig) (codec : PacketCodec L).

(** Starting with the key, and then without it from the cache that this left, gives the
    same shared state and the same codec. *)
Lemma started_again config keys k :
  config_ok config → FixedId.ok (cfg_session_id config) →
  (∀ ts, cfg_allowed_stream_types config = Some ts → Forall (λ t, 0 ≤ t < 256) ts) →
  cfg_encrypted config = true → cfg_session_key config = Some k →
  ∃ i codec, start config (Some keys) = Some (Ok (i, codec)) ∧
    key_cache i = Some (<[cfg_session_id config := k]> keys) ∧
    start (without_key config) (key_cache i) = Some (Ok (i, codec)) ∧ fresh i ∧
    codec_ok codec ∧ codec_encrypted codec = true ∧ codec_session_id codec = cfg_session_id config ∧
    codec_max_payload codec = cfg_max_payload config ∧
    codec_allowed codec = allowed_table (cfg_allowed_stream_types config).
Proof.
  intros Hok Hsid Hts He Hk. destruct (derive_direction_keys_total (cfg_session_id config) k) as [ks Hks].
  set (codec := mkPacketCodec (cfg_session_id config) (cfg_encrypted config) (cfg_max_payload config) (Some ks)
                  (allowed_table (cfg_allowed_stream_types config))).
  assert (from_config config (Some keys) = Some (Ok codec, Some (<[cfg_session_id config := k]> keys))) as Hfrom.
  { unfold from_config, cache_inline_key, resolve_key, KeyCache.insert. rewrite Hk, He. cbn. by rewrite Hks, <- He. }
  assert (from_config (without_key config) (Some (<[cfg_session_id config := k]> keys))
          = Some (Ok codec, Some (<[cfg_session_id config := k]> keys))) as Hagain.
  { unfold from_config, cache_inline_key, resolve_key, KeyCache.get, without_key. cbn. rewrite He. cbn.
    rewrite lookup_insert_eq. cbn. by rewrite Hks, <- He. }
  destruct (from_config_ok config (Some keys) codec _ Hok Hsid Hts Hfrom) as (Hcodec & _ & _).
  exists (mkInner (cfg_session_id config) (cfg_max_payload config) (codec_allowed codec) Joining true []
            (Some (<[cfg_session_id config := k]> keys))), codec.
  unfold start. cbn [key_cache]. rewrite Hfrom, Hagain. by split_and!.
Qed.

(** The first media packet of an encrypted session. *)
Lemma first_packet codec i t payload now :
  codec_ok codec → codec_encrypted codec = true →
  t ≠ 0 → allowed_at (codec_allowed codec) t = true → len payload ≤ codec_max_payload codec →
  ∃ keys w packet, codec_keys codec = Some keys ∧
    run i codec None now [Command t payload (Written None) now] = (Some (true, publish_status i Active, w), Ok tt) ∧
    at_packet <$> (attempted w !! 1%nat) = Some (outer_header (codec_session_id codec) 2 ++ packet) ∧
    aead_encrypt (c2s keys) (nonce_for 2) (channel_body t 0 0 payload) (outer_header (codec_session_id codec) 2)
      = Some packet.
Proof.
  intros Hok He Ht Hal Hlen. destruct (codec_keys codec) as [keys|] eqn:Hkeys; [|by destruct (codec_keyed _ Hok He)].
  destruct (encode_body_total codec 1 0 0 0 [] true Hok ltac:(done)) as (heartbeat & Hhb & _).
  { destruct (codec_limit _ Hok). unfold len. cbn. lia. }
  destruct (encode_body_total codec 2 t 0 0 payload true Hok ltac:(done) Hlen) as (d & Hd & _).
  assert (encode_heartbeat codec 1 = Ok heartbeat) as Hheart by exact Hhb.
  assert (validate_media codec t (len payload) = Ok tt) as Hv by (by apply validate_media_ok).
  assert (encode_media codec 2 0 t payload = Ok d) as Hmedia by (unfold encode_media; by rewrite Hv).
  apply encode_body_ok in Hd as (_ & packet & Hs & _ & ->).
  unfold sealed in Hs. rewrite He, Hkeys in Hs. cbn [ok_or result_bind direction_key] in Hs. unfold seal in Hs.
  change (2 =? 0) with false in Hs. apply ok_or_ok in Hs.
  unfold run, send_heartbeat, se_bind, se_lift, se_modify, reserve_transport_sequence.
  cbn [initial_locals transport_sequence]. change (1 =? u64_max) with false. cbn iota. rewrite Hheart. cbn.
  unfold send_media, se_bind, se_lift, se_modify, channel_entry, reserve_transport_sequence. rewrite Hv. cbn.
  change (1 + 1 =? u64_max) with false. change (1 + 1) with 2.
  rewrite lookup_empty, lookup_insert_eq. cbn -[nonce_for]. rewrite Hmedia. cbn -[nonce_for].
  by do 3 eexists.
Qed.
End workers.

(** ** Properties *)

(** C4: a voice session that is joined again repeats its nonces. A client joins with a new
    encrypted session and joins again while that session exists: the server answers
    without a key, the client keeps the cached key for it and starts a second worker.
    That worker starts in the very state of the first, with an empty replay window: the
    first media packets of both are sealed by the same cipher under the same nonce and
    header, whatever their payloads are. *)
Theorem joining_again_repeats_nonces `{Base64Lib} `{Laws : CryptoLaws} (m : Metadata) (n : VoiceNegotiation)
    (config : VoiceSessionConfig) (keys : gmap (list Z) (list Z)) :
  0 ≤ vn_max_payload n → FixedId.ok (vn_session_id n) →
  Forall (λ t, 0 ≤ t < 256) (VoiceStreamType_id <$> voice_stream_types m) →
  vn_encrypted n = true → vn_created n = true → negotiated_config m n = Ok config →
  ∃ config' i codec cipher,
    start config (Some keys) = Some (Ok (i, codec)) ∧
    negotiated_config m (joined_again n) = Ok config' ∧
    is_Some (cached_reuse_key (joined_again n) (default ∅ (key_cache i))) ∧
    start config' (key_cache i) = Some (Ok (i, codec)) ∧ fresh i ∧
    ∀ t payload now, t ∈ VoiceStreamType_id <$> voice_stream_types m → len payload ≤ vn_max_payload n →
      ∃ w packet,
        run i codec None now [Command t payload (Written None) now] = (Some (true, publish_status i Active, w), Ok tt) ∧
        at_packet <$> (attempted w !! 1%nat) = Some (outer_header (vn_session_id n) 2 ++ packet) ∧
        aead_encrypt cipher (nonce_for 2) (channel_body t 0 0 payload) (outer_header (vn_session_id n) 2) = Some packet.
Proof.
  intros Hmp Hsid Hts He Hc Hn.
  pose proof (keyed_config m n config Hmp He Hc Hn) as (Hok & Hid & Henc & [k Hk] & Hmax & (ts & Hal & Hin) & Hagain).
  assert (Forall (λ t, 0 ≤ t < 256) ts) as Hbytes.
  { apply Forall_forall. intros t Ht%Hin. rewrite Forall_forall in Hts. by apply Hts. }
  destruct (started_again config keys k Hok ltac:(by rewrite Hid) ltac:(by rewrite Hal; intros ? [= <-]) Henc Hk)
    as (i & codec & Hs & Hcache & Hs' & Hf & Hcodec & Hce & Hcs & Hcm & Hca).
  destruct (codec_keys codec) as [ks|] eqn:Hks; [|by destruct (codec_keyed _ Hcodec Hce)].
  exists (without_key config), i, codec, (c2s ks). split_and!; [done|done| |done|done|].
  - unfold cached_reuse_key, KeyCache.get. cbn. rewrite He, Hcache. cbn. rewrite Hid, lookup_insert_eq. by eexists.
  - intros t payload now Ht Hlen. apply Hin in Ht.
    assert (0 ∉ ts) as Hz by (by apply (config_streams _ Hok ts Hal)).
    assert (t ≠ 0 ∧ 0 ≤ t < 256) as [Hne Hrange].
    { split; [by intros ->|]. rewrite Forall_forall in Hbytes. by apply Hbytes. }
    destruct (first_packet codec i t payload now Hcodec Hce Hne) as (ks' & w & packet & Hks' & Hrun & Hpacket & Hct);
      [|by rewrite Hcm, Hmax|].
    { rewrite Hca, Hal. destruct (allowed_table_spec (Some ts) t) as [_ ->]; [by intros ? [= <-]|done|].
      by apply bool_decide_eq_true_2. }
    rewrite Hks in Hks'. injection Hks' as <-. rewrite Hcs, Hid in *. by exists w, packet.
Qed.

#[local] Existing Instance ToyVoice.base64.

Definition toy_negotiation : VoiceNegotiation := join_voice_negotiation ToyVoice.response.
Definition toy_config : VoiceSessionConfig :=
  match negotiated_config toy_metadata toy_negotiation with
  | Ok config => config
  | Err _ => mkVoiceSessionConfig (mkVoiceEndpoint "" 0) [] 0 false 0 0 None None
  end.

Lemma joining_again_repeats_nonces_witness :
  ∃ i codec (cipher : Cipher (CryptoLib:=Toy.lib)) w1 w2 packet1 packet2,
    (run (L:=Toy.lib) i codec None 0 [Command 1 [7] (Written None) 0]).1 = Some (true, publish_status i Active, w1) ∧
    (run (L:=Toy.lib) i codec None 0 [Command 1 [8] (Written None) 0]).1 = Some (true, publish_status i Active, w2) ∧
    aead_encrypt cipher (nonce_for 2) (channel_body 1 0 0 [7]) (outer_header (replicate 16 1) 2) = Some packet1 ∧
    aead_encrypt cipher (nonce_for 2) (channel_body 1 0 0 [8]) (outer_header (replicate 16 1) 2) = Some packet2.
Proof.
  destruct (joining_again_repeats_nonces (L:=Toy.lib) (Laws:=Toy.laws) toy_metadata toy_negotiation toy_config ∅) as (c & i & codec & cipher & _ & _ & _ & _ & _ & Hsend).
  - vm_compute. discriminate.
  - split; [reflexivity|]. split; [|by vm_compute]. apply Forall_forall. intros x Hx. vm_compute in Hx.
    repeat (apply elem_of_cons in Hx as [->|Hx]; [lia|]). by apply elem_of_nil in Hx.
  - apply Forall_singleton. vm_compute. split; [discriminate|reflexivity].
  - reflexivity.
  - reflexivity.
  - vm_compute. reflexivity.
  - destruct (Hsend 1 [7] 0) as (w1 & p1 & Hr1 & _ & H1); [apply list_elem_of_here|vm_compute; discriminate|].
    destruct (Hsend 1 [8] 0) as (w2 & p2 & Hr2 & _ & H2); [apply list_elem_of_here|vm_compute; discriminate|].
    exists i, codec, cipher, w1, w2, p1, p2. rewrite Hr1, Hr2. split_and!; [reflexivity|reflexivity|exact H1|exact H2].
Defined.
