(* ===== verification/SdkClient.v ===== *)
(** The high-level client (crates/zephyrvox-sdk/src: client.rs, lifecycle.rs and the relay
    of events.rs): connecting, relaying the events of the control connection, and shutting
    down. *)

From S2P Require Import Prelude Text Types Json Wire ClientModel VoiceTypes VoiceConfig RealtimeTypes RealtimeTransport.
From S2P Require Import HttpTypes HttpDiscovery HttpVoice HttpAuth SdkTypes SdkProgram SdkVoice.

(** ** Construction *)

(** [EventStream::capacity]. *)
Definition capacity : Z := 256.

(** [from_api]. *)
Definition from_api {V} : ClientInner V :=
  mkClientInner [] None None None None None [] false 0 KeyCache.new [] 0 ∅ ∅.

#[global] Instance ServerCard_eq_dec : EqDecision ServerCard.
Proof. solve_decision. Defined.

(** [Client::with_api_client]: the card of the HTTP client must be the configured one. *)
Definition with_api_client {V} (config : ClientConfig) (api_card : ServerCard)
    : result SdkError (ClientInner V) :=
  let? _ := ClientConfig.validate config in
  if bool_decide (api_card ≠ server_card config) then
    Err (SdkConfiguration "facade and HTTP client use different server cards")
  else Ok from_api.

Section client.
Context {V : Type} `{Base64Lib}.
Context (auto_rejoin_voice : bool).

Abbreviation act A := (prog (St:=ClientInner V) (Lock:=Gate) (Q:=Query) (Answer:=Answer V) A).

Definition sdk_login (request : LoginRequest) : act (result SdkError LoginResult) :=
  try> _ := ensure_open in
  map_error SdkHttp (call (QLogin request)).

Definition voice_session : act (option VoiceSession) := with_lock VoiceLock (read ci_voice).

Definition control_connection : act (option nat) := with_lock ControlLock (read ci_control).

(** [state], by the connection whose store it is. *)
Definition client_state : act (option nat) := read ci_state.

(** [events]: a cursor after the events sent so far. *)
Definition client_events : act nat := read (λ s, length (ci_events s)).

Definition sdk_set_presence (presence : Presence) : act (result SdkError CommandAck) :=
  try> control := current_control in
  let> live := read (is_live control) in
  if negb live then raise ControlNotLive
  else map_error SdkRealtime (call (QSetPresence control presence)).

(** ** Connecting *)

(** [connection_generation.fetch_add(1).saturating_add(1)]. *)
Definition next_generation (s : ClientInner V) : Z * ClientInner V :=
  (Z.min u64_max (ci_generation s + 1), set_generation (wrapping_add_u64 (ci_generation s) 1) s).

Definition spawn_event_relay (connection : nat) (generation : Z) : act unit :=
  let> task := call (QSpawnRelay connection generation) in
  with_lock TasksLock (modify (λ s, set_tasks (ci_tasks s ++ [task]) s)).

(** A connection that has just been made gets the next handle. *)
Definition register (view : ControlView) (s : ClientInner V) : nat * ClientInner V :=
  (length (ci_connections s), set_connections (ci_connections s ++ [view]) s).

(** What [connect_with_optional_connector] does with a new connection. *)
Definition install_connection (connection : nat) : act (result SdkError nat) :=
  let> stopped := read ci_stopped in
  if stopped : bool then
    let> _ := call (QCloseControl connection) in
    raise SdkClosed
  else
    let> generation := atomically next_generation in
    let> _ := modify (set_state (Some connection)) in
    let> _ := spawn_event_relay connection generation in
    let> _ := modify (set_control (Some connection)) in
    Ret (Ok connection).

(** [connect_with_optional_connector] under the control lock. *)
Definition connect_locked (own_connector : bool) : act (result SdkError nat) :=
  let> current := read (λ s, c ← ci_control s;
                             if bool_decide (control_status c s = Some SClosed) then None else Some c) in
  match current with
  | Some control => Ret (Ok control)
  | None =>
      let> _ := modify (set_control None) in
      try> view := map_error SdkRealtime (call (QConnect own_connector)) in
      let> connection := atomically (register view) in
      install_connection connection
  end.

Definition connect (own_connector : bool) : act (result SdkError nat) :=
  try> _ := ensure_open in
  with_lock ControlLock (connect_locked own_connector).

(** ** Losing authority *)

(** The session that [stop_voice_transport_for] takes. *)
Definition take_session (expected : option Z) (s : ClientInner V) : option VoiceSession * ClientInner V :=
  match ci_voice s with
  | Some session =>
      if match expected with
         | Some generation => vs_control_generation session =? generation
         | None => true
         end
      then (Some session, set_voice None s) else (None, s)
  | None => (None, s)
  end.

Definition stop_voice_transport_for (expected : option Z) : act (result SdkError unit) :=
  with_lock VoiceGate (
    let> session := with_lock VoiceLock (atomically (take_session expected)) in
    match session with
    | Some session => session_close_transport session
    | None => Ret (Ok tt)
    end).

(** ** The event relay *)

Definition stops_voice (e : ClientEvent V) : bool :=
  match e with
  | EventVoiceLost _ | EventDisconnected _ | StatusChanged SReconnecting | StatusChanged SClosed => true
  | _ => false
  end.

Definition clears_intent (e : ClientEvent V) : bool :=
  match e with
  | EventVoiceLost _ | StatusChanged SClosed => true
  | _ => false
  end.

Definition rejoins_voice (e : ClientEvent V) : bool :=
  match e with StatusChanged SLive => true | _ => false end.

Definition report (r : result SdkError unit) : act unit :=
  match r with
  | Err e => modify (emit (SdkDiagnostic (display_sdk_error e)))
  | Ok _ => Ret tt
  end.

(** The reaction to an event of the current generation. *)
Definition react (generation : Z) (e : ClientEvent V) : act unit :=
  let> _ := (if clears_intent e then clear_voice_intent else Ret tt) in
  let> _ := (if stops_voice e then
               let> r := stop_voice_transport_for (Some generation) in report r
             else Ret tt) in
  if rejoins_voice e then
    let> r := rejoin_voice_if_configured auto_rejoin_voice in report r
  else Ret tt.

(** One turn of the loop of [relay_realtime_events]: whether it goes on. *)
Definition relay_turn (connection : nat) (generation : Z) : act bool :=
  let> alive := call QUpgrade in
  if negb alive then Ret false
  else
    let> current := read ci_generation in
    if negb (current =? generation) then Ret false
    else
      let> item := call (QRecvEvent connection) in
      match item with
      | RelayLagged missed =>
          let> _ := modify (emit (SdkDiagnostic
                      ("realtime event relay lagged by " +:+ display_u64 missed +:+ " events"))) in
          Ret true
      | RelayClosed => Ret false
      | RelayEvent e =>
          let> _ := modify (emit (event_from e)) in
          let> alive := call QUpgrade in
          if negb alive then Ret false
          else
            let> current := read ci_generation in
            if negb (current =? generation) then Ret true
            else
              let> _ := react generation e in
              Ret true
      end.

(** The relay's task, for as many turns of its loop as [turns] allows: a [break] ends it. *)
Fixpoint relay_realtime_events (turns connection : nat) (generation : Z) : act unit :=
  match turns with
  | O => Ret tt
  | S turns =>
      let> again := relay_turn connection generation in
      if again : bool then relay_realtime_events turns connection generation else Ret tt
  end.

(** ** lifecycle.rs *)

(** The two teardown sections; each reports its own error. *)
Definition shutdown_voice : act (option SdkError) :=
  with_lock VoiceGate (with_lock VoiceLock (
    let> session := atomically (λ s, (ci_voice s, set_voice None s)) in
    match session with
    | Some session =>
        let> r := session_close_transport session in
        Ret (match r with Err e => Some e | Ok _ => None end)
    | None => Ret None
    end)).

Definition shutdown_control (first_error : option SdkError) : act (option SdkError) :=
  with_lock ControlLock (
    let> control := atomically (λ s, (ci_control s, set_control None s)) in
    match control with
    | Some control =>
        let> r := map_error SdkRealtime (call (QCloseControl control)) in
        Ret (match r, first_error with Err e, None => Some e | _, _ => first_error end)
    | None => Ret first_error
    end).

(** [task.abort()] is a call to the executor without an effect of its own: an aborted relay is
    dropped some time later, as the pool may drop any relay at any suspension point, or it
    goes on. *)
Fixpoint abort_tasks (tasks : list nat) : act unit :=
  match tasks with
  | [] => Ret tt
  | task :: rest => let> _ := call (QAbort task) in abort_tasks rest
  end.

(** [shutdown] once it is the one that stops the client. *)
Definition teardown : act (result SdkError unit) :=
  let> first_error := shutdown_voice in
  let> first_error := shutdown_control first_error in
  let> _ := modify (λ s, set_keys (KeyCache.clear (ci_key_cache s)) s) in
  let> _ := modify (set_intent None) in
  let> _ := modify (set_state None) in
  let> tasks := with_lock TasksLock (atomically (λ s, (ci_tasks s, set_tasks [] s))) in
  let> _ := abort_tasks tasks in
  Ret (match first_error with None => Ok tt | Some e => Err e end).

Definition shutdown : act (result SdkError unit) :=
  with_lock ShutdownGate (
    let> stopped := atomically (λ s, (ci_stopped s, set_stopped true s)) in
    if stopped : bool then Ret (Ok tt) else teardown).
End client.

(** ** A small world: a server that answers every call, for concrete runs *)

Module ToySdk.
#[local] Existing Instance ToyVoice.base64.

Definition request : VoiceJoinRequest := mkVoiceJoinRequest None false None.
Definition control_id : byte_list := replicate 16 7.

Definition answers (q : Query) : Answer unit q :=
  match q with
  | QMetadata => Ok toy_metadata
  | QLogin _ => Err HttpClosed
  | QJoin _ _ _ => Ok ToyVoice.response
  | QLeave _ _ => Ok tt
  | QBindSocket _ => Ok tt
  | QStartWorker _ => Some (Ok tt)
  | QCloseTransport _ => Ok tt
  | QSendFrame _ _ _ => Ok tt
  | QRecvFrame _ => Err Closed
  | QWaitStopped _ => tt
  | QConnect _ => Ok (mkControlView SLive (Some control_id))
  | QCloseControl _ => Ok tt
  | QSetPresence _ _ => Err NotLive
  | QSpawnRelay _ _ => 3%nat
  | QRecvEvent _ => RelayEvent (StatusChanged SLive)
  | QUpgrade => true
  | QAbort _ => tt
  end.

(** Connected, then joined with automatic rejoining. *)
Definition connected : ClientInner unit := (exec answers (connect true) from_api).2.
Definition joined : ClientInner unit := (exec answers (join_voice true 5 request) connected).2.
End ToySdk.
