(* ===== verification/SdkPool.v ===== *)
(** The operations of the high-level client running together (crates/zephyrvox-sdk/src):
    any number of host calls and relay tasks, interleaved at every suspension point, with
    any call dropped at any time. The rely-guarantee proofs are about runs in which no
    [shutdown] is dropped ([cancellable]); [undropped_run] reduces to them every run whose
    shutdowns are all still there. What a dropped [shutdown] leaves is in SdkDrops.v. *)

From S2P Require Import Prelude Text Types Json Wire ClientModel VoiceTypes VoiceConfig RealtimeTypes.
From S2P Require Import HttpTypes HttpVoice HttpAuth SdkTypes SdkProgram SdkVoice SdkClient.

(** ** The calls a host or a relay makes *)

Inductive Op :=
| OpLogin (request : LoginRequest)
| OpDiscover
| OpPresence (presence : Presence)
| OpConnect (own_connector : bool)
| OpJoin (channel_id : Z) (request : VoiceJoinRequest)
| OpLeave
| OpSend (session : VoiceSession) (stream_type : Z) (payload : byte_list)
| OpSessionLeave (session : VoiceSession)
| OpSessionClose (session : VoiceSession)
| OpRelay (turns connection : nat) (generation : Z)
| OpShutdown.

Inductive Out :=
| OutLogin (r : result SdkError LoginResult)
| OutMetadata (r : result SdkError Metadata)
| OutAck (r : result SdkError CommandAck)
| OutControl (r : result SdkError nat)
| OutSession (r : result SdkError VoiceSession)
| OutUnit (r : result SdkError unit)
| OutRelay.

Section pool.
Context {V : Type} `{Base64Lib}.
Context (auto_rejoin_voice : bool).

Abbreviation act A := (prog (St:=ClientInner V) (Lock:=Gate) (Q:=Query) (Answer:=Answer V) A).
Abbreviation St := (ClientInner V).
Abbreviation Config := (SdkProgram.Config (St:=St) (Lock:=Gate)).

Definition yield {A} (out : A → Out) (m : act A) : act Out :=
  let> r := m in
  Ret (out r).

Definition code (op : Op) : act Out :=
  match op with
  | OpLogin request => yield OutLogin (sdk_login request)
  | OpDiscover => yield OutMetadata discover
  | OpPresence presence => yield OutAck (sdk_set_presence presence)
  | OpConnect own => yield OutControl (connect own)
  | OpJoin channel_id request => yield OutSession (join_voice auto_rejoin_voice channel_id request)
  | OpLeave => yield OutUnit leave_voice
  | OpSend session stream_type payload => yield OutUnit (session_send session stream_type payload)
  | OpSessionLeave session => yield OutUnit (session_leave session)
  | OpSessionClose session => yield OutUnit (session_close session)
  | OpRelay turns connection generation =>
      yield (λ _, OutRelay) (relay_realtime_events auto_rejoin_voice turns connection generation)
  | OpShutdown => yield OutUnit shutdown
  end.

Definition cancellable (op : Op) : Prop := op ≠ OpShutdown.
Definition holdable (op : Op) (l : Gate) : Prop := op = OpShutdown ∨ l ≠ ShutdownGate.

(** Outside the facade the engines move their connections and the voice workers drop
    their keys when they end. *)
Inductive outside : St → St → Prop :=
| outside_engine s connections : outside s (set_connections connections s)
| outside_worker s sid : outside s (remove_key sid s).

Definition answer_any (q : Query) (a : Answer V q) : Prop := True.

(** Any call may be dropped. A future that was dropped stays so: a run at whose end no
    shutdown is dropped has dropped none. *)
Definition any_op (op : Op) : Prop := True.
Definition no_shutdown_dropped (w : Pool (St:=St) (Lock:=Gate) (Q:=Query) (Answer:=Answer V) (Op:=Op) (Out:=Out)) : Prop :=
  ∀ j, tasks w !! j ≠ Some (OpShutdown, None).

Lemma undropped_run w w' :
  rtc (pool_step code any_op outside answer_any) w w' → no_shutdown_dropped w' →
  rtc (pool_step code cancellable outside answer_any) w w'.
Proof.
  revert w'. refine (rtc_ind_r _ _ _ _); [done|]. intros w1 w2 Hsteps Hstep IH Hno.
  assert (no_shutdown_dropped w1) as Hno1.
  { intros j Hj. apply (Hno j). destruct Hstep as [c c' ts k op p p' Ht _|c ts op|c ts k op p Ht _|c ts s' _]; cbn in *;
      [|by apply lookup_app_l_Some| |done];
      (rewrite list_lookup_insert_ne; [done|]; intros ->; by rewrite Ht in Hj). }
  eapply rtc_r; [by apply IH|]. destruct Hstep as [c c' ts k op p p' Ht Hs|c ts op|c ts k op p Ht _|c ts s' Ho].
  - by econstructor.
  - constructor.
  - eapply pool_cancel; [done|]. intros ->. apply (Hno k). cbn. apply list_lookup_insert_eq. by eapply lookup_lt_Some.
  - by constructor.
Qed.

(** ** What a finished shutdown has established *)

(** Voice is closed for good: whoever holds the voice gate took it when the client was
    stopped and without a session. *)
Definition voice_sealed (c : Config) : Prop :=
  ci_stopped (shared c) = true ∧ ci_voice (shared c) = None ∧
  ∀ j s, held c !! VoiceGate = Some (j, s) → ci_stopped s = true ∧ ci_voice s = None.

Definition control_sealed (c : Config) : Prop :=
  ci_stopped (shared c) = true ∧ ci_control (shared c) = None ∧
  ∀ j s, held c !! ControlLock = Some (j, s) → ci_stopped s = true.

Inductive Fact := VoiceSealed | ControlSealed | KeysCleared | IntentCleared | StateCleared | TasksCleared.

Definition fact (f : Fact) (c : Config) : Prop :=
  match f with
  | VoiceSealed => voice_sealed c
  | ControlSealed => control_sealed c
  | KeysCleared => voice_sealed c ∧ ci_key_cache (shared c) = ∅
  | IntentCleared => voice_sealed c ∧ ci_voice_intent (shared c) = None
  | StateCleared => control_sealed c ∧ ci_state (shared c) = None
  | TasksCleared => control_sealed c ∧ ci_tasks (shared c) = []
  end.

Definition torn_down (c : Config) : Prop := ∀ f, fact f c.

(** A stopped client is torn down, or the shutdown that stopped it is at work. *)
Definition stop_ok (c : Config) : Prop :=
  ci_stopped (shared c) = true →
  torn_down c ∨ ∃ j s, held c !! ShutdownGate = Some (j, s) ∧ ci_stopped s = false.

(** ** The rely of every task *)

Record rely (k : nat) (c c' : Config) : Prop := {
  rely_mine l s : held c !! l = Some (k, s) ↔ held c' !! l = Some (k, s);
  rely_stopped : ci_stopped (shared c) = true → ci_stopped (shared c') = true;
  rely_voice s : held c !! VoiceGate = Some (k, s) → ci_voice (shared c') = ci_voice (shared c);
  rely_control s : held c !! ControlLock = Some (k, s) → ci_control (shared c') = ci_control (shared c);
  rely_shutdown s : held c !! ShutdownGate = Some (k, s) → ci_stopped (shared c') = ci_stopped (shared c);
  rely_fact f : fact f c → fact f c';
  rely_stop : stop_ok c → stop_ok c';
}.

#[export] Instance rely_order : Rely rely.
Proof.
  intros k. split.
  - intros c. by split.
  - intros c1 c2 c3 H12 H23. split.
    + intros l s. by rewrite (rely_mine _ _ _ H12), (rely_mine _ _ _ H23).
    + intros Hs. by apply (rely_stopped _ _ _ H23), (rely_stopped _ _ _ H12).
    + intros s Hl. rewrite (rely_voice _ _ _ H23 s) by (by apply (rely_mine _ _ _ H12)).
      by apply (rely_voice _ _ _ H12 s).
    + intros s Hl. rewrite (rely_control _ _ _ H23 s) by (by apply (rely_mine _ _ _ H12)).
      by apply (rely_control _ _ _ H12 s).
    + intros s Hl. rewrite (rely_shutdown _ _ _ H23 s) by (by apply (rely_mine _ _ _ H12)).
      by apply (rely_shutdown _ _ _ H12 s).
    + intros f Hf. by apply (rely_fact _ _ _ H23), (rely_fact _ _ _ H12).
    + intros Hf. by apply (rely_stop _ _ _ H23), (rely_stop _ _ _ H12).
Qed.

Abbreviation guarantee := (SdkProgram.guarantee (St:=St) (Lock:=Gate) rely).
Abbreviation wp := (SdkProgram.wp (St:=St) (Lock:=Gate) (Q:=Query) (Answer:=Answer V) answer_any rely).

Lemma torn_down_rely k c c' : rely k c c' → torn_down c → torn_down c'.
Proof. intros Hr Ht f. by apply (rely_fact _ _ _ Hr). Qed.

(** ** Guarantees of the pieces *)

(** A piece that leaves alone what a shutdown establishes. *)
Record harmless (f : St → St) : Prop := {
  harmless_stopped s : ci_stopped (f s) = ci_stopped s;
  harmless_voice s : ci_voice (f s) = ci_voice s;
  harmless_control s : ci_control (f s) = ci_control s;
  harmless_keys s : ci_key_cache s = ∅ → ci_key_cache (f s) = ∅;
  harmless_intent s : ci_voice_intent s = None → ci_voice_intent (f s) = None;
  harmless_state s : ci_state s = None → ci_state (f s) = None;
  harmless_tasks s : ci_tasks s = [] → ci_tasks (f s) = [];
}.

(** Moving the state alone keeps a guarantee when it keeps the cells under locks of
    others and the facts. *)
Lemma update_guarantee k f c :
  (ci_stopped (f (shared c)) = ci_stopped (shared c)) →
  (ci_voice (f (shared c)) = ci_voice (shared c) ∨ ∃ s, held c !! VoiceGate = Some (k, s)) →
  (ci_control (f (shared c)) = ci_control (shared c) ∨ ∃ s, held c !! ControlLock = Some (k, s)) →
  (∀ t, fact t c → fact t (update f c)) →
  guarantee k c (update f c).
Proof.
  intros Hs Hv Hc Hf j Hj. split; cbn; [done|by rewrite Hs|..].
  - intros s Hl. destruct Hv as [Hv|[s' Hl']]; [done|]. rewrite Hl in Hl'. by injection Hl' as ->.
  - intros s Hl. destruct Hc as [Hc|[s' Hl']]; [done|]. rewrite Hl in Hl'. by injection Hl' as ->.
  - by intros s _.
  - intros t. apply Hf.
  - intros Hok Hstop. cbn in Hstop. rewrite Hs in Hstop. destruct (Hok Hstop) as [Ht|He]; [left|by right].
    intros t. apply Hf, Ht.
Qed.

Lemma harmless_facts f c t : harmless f → fact t c → fact t (update f c).
Proof.
  intros Hh. destruct t; cbn; unfold voice_sealed, control_sealed; cbn;
    rewrite ?(harmless_stopped _ Hh), ?(harmless_voice _ Hh), ?(harmless_control _ Hh); [done|done|..];
    intros [? ?]; (split; [done|]).
  - by apply (harmless_keys _ Hh).
  - by apply (harmless_intent _ Hh).
  - by apply (harmless_state _ Hh).
  - by apply (harmless_tasks _ Hh).
Qed.

Lemma harmless_rely j f c : harmless f → rely j c (update f c).
Proof.
  intros Hh. split; cbn; [done|by rewrite (harmless_stopped _ Hh)|..].
  - intros s _. apply (harmless_voice _ Hh).
  - intros s _. apply (harmless_control _ Hh).
  - intros s _. apply (harmless_stopped _ Hh).
  - intros t. by apply harmless_facts.
  - intros Hok Hstop. cbn in Hstop. rewrite (harmless_stopped _ Hh) in Hstop.
    destruct (Hok Hstop) as [Ht|He]; [left|by right]. intros t. by apply harmless_facts.
Qed.

Lemma acquire_facts k l c t : held c !! l = None → fact t c → fact t (acquire l k c).
Proof.
  intros Hfree.
  assert (voice_sealed c → voice_sealed (acquire l k c)).
  { intros (Hs & Hv & Hh). split_and!; [done..|]. intros j s. cbn. rewrite lookup_insert_Some.
    intros [[_ Ho]|[_ Hl]]; [by injection Ho as _ <-|by eapply Hh]. }
  assert (control_sealed c → control_sealed (acquire l k c)).
  { intros (Hs & Hv & Hh). split_and!; [done..|]. intros j s. cbn. rewrite lookup_insert_Some.
    intros [[_ Ho]|[_ Hl]]; [by injection Ho as _ <-|by eapply Hh]. }
  destruct t; cbn; tauto.
Qed.

Lemma acquire_guarantee k l c : held c !! l = None → guarantee k c (acquire l k c).
Proof.
  intros Hfree j Hj. split; cbn; [|done..| |].
  - intros i s. rewrite lookup_insert_Some. split; [|by intros [[_ [= -> _]]|[_ ?]]].
    intros Hi. right. split; [by intros ->; rewrite Hfree in Hi|done].
  - intros t. by apply acquire_facts.
  - intros Hok Hstop. destruct (Hok Hstop) as [Ht|(i & s & Hl & Hs)].
    + left. intros t. by apply acquire_facts.
    + right. exists i, s. split; [|done]. cbn. rewrite lookup_insert_ne; [done|].
      intros ->. by rewrite Hfree in Hl.
Qed.

(** Fewer locks held: [c'] has the state of [c] and only some of its locks. *)
Lemma fewer_facts c c' t :
  shared c' = shared c → (∀ l o s, held c' !! l = Some (o, s) → held c !! l = Some (o, s)) →
  fact t c → fact t c'.
Proof.
  intros Hs Hl. destruct t; cbn; unfold voice_sealed, control_sealed; rewrite Hs; naive_solver.
Qed.

Lemma release_guarantee k l s0 c :
  held c !! l = Some (k, s0) → (l = ShutdownGate → torn_down c) → guarantee k c (release l c).
Proof.
  intros Hl Hd j Hj.
  assert (∀ t, fact t c → fact t (release l c)) as Hf.
  { intros t. apply fewer_facts; [done|]. cbn. intros i o s [_ ?]%lookup_delete_Some. done. }
  split; cbn; [|done..|exact Hf|].
  - intros i s. rewrite lookup_delete_Some. split; [|by intros [_ ?]]. intros Hi. split; [|done].
    intros ->. rewrite Hl in Hi. injection Hi as -> _. done.
  - intros Hok Hstop. destruct (Hok Hstop) as [Ht|(i & s & Hi & Hs)]; [left; intros t; apply Hf, Ht|].
    destruct (decide (l = ShutdownGate)) as [->|Hne]; [left; intros t; by apply Hf, Hd|].
    right. exists i, s. split; [|done]. cbn. by rewrite lookup_delete_ne.
Qed.

Lemma release_all_guarantee k op c :
  cancellable op → (∀ l s, held c !! l = Some (k, s) → holdable op l) → guarantee k c (release_all k c).
Proof.
  intros Hc Hh j Hj.
  assert (∀ t, fact t c → fact t (release_all k c)) as Hf.
  { intros t. apply fewer_facts; [done|]. cbn. intros i o s [? _]%map_lookup_filter_Some. done. }
  split; cbn; [|done..|exact Hf|].
  - intros i s. rewrite map_lookup_filter_Some. cbn. naive_solver.
  - intros Hok Hstop. destruct (Hok Hstop) as [Ht|(i & s & Hi & Hs)]; [left; intros t; apply Hf, Ht|].
    right. exists i, s. split; [|done]. cbn. apply map_lookup_filter_Some. split; [done|]. cbn.
    intros ->. destruct (Hh _ _ Hi); congruence.
Qed.

(** ** Programs by the pieces they use *)

(** Every piece of [p] is of a kind in [ok]; [p] releases the mutexes that it has
    acquired, last first, and starts and ends with those of [mine] and [back]. *)
Fixpoint runs {A} (ok : (St → St) → Prop) (mine : list Gate) (p : act A) (back : list Gate) : Prop :=
  match p with
  | Ret _ => mine = back
  | Atomic f m => ok f ∧ ∀ s, runs ok mine (m s) back
  | Acquire l m => l ≠ ShutdownGate ∧ runs ok (l :: mine) m back
  | Release l m => ∃ rest, mine = l :: rest ∧ runs ok rest m back
  | Await _ m => ∀ a, runs ok mine (m a) back
  end.

Lemma runs_bind {A B} ok mine middle back (p : act A) (m : A → act B) :
  runs ok mine p middle → (∀ a, runs ok middle (m a) back) → runs ok mine (bind p m) back.
Proof.
  intros Hp Hm. revert mine Hp. induction p as [a|f n IH|l n IH|l n IH|q n IH]; intros mine; cbn.
  - by intros ->.
  - intros [Hf Hn]. split; [done|]. intros s. by apply IH.
  - intros [Hl Hn]. split; [done|]. by apply IH.
  - intros (rest & -> & Hn). exists rest. split; [done|]. by apply IH.
  - intros Hn a. by apply IH.
Qed.

(** Task [k] holds the mutexes of [base], with the snapshots recorded. *)
Definition holds (k : nat) (base : list (Gate * St)) (c : Config) : Prop :=
  ∀ l s, (l, s) ∈ base → held c !! l = Some (k, s).

Lemma holds_rely k base c c' : rely k c c' → holds k base c → holds k base c'.
Proof. intros Hr Hh l s Hl. by apply (rely_mine _ _ _ Hr), Hh. Qed.

(** While [base] is held, [J] is kept by the other tasks, by the pieces of the kind and
    by taking and releasing other mutexes. *)
Record kept (k : nat) (base : list (Gate * St)) (J : Config → Prop) (ok : (St → St) → Prop) : Prop := {
  kept_rely c c' : rely k c c' → holds k base c → J c → J c';
  kept_ok f c : ok f → holds k base c → J c → guarantee k c (update f c) ∧ J (update f c);
  kept_acquire l c : held c !! l = None → holds k base c → J c → J (acquire l k c);
  kept_release l c : holds k base c → J c → J (release l c);
}.

Lemma wp_runs {A} (can : Gate → Prop) k base J ok (p : act A) c :
  kept k base J ok → (∀ l, l ≠ ShutdownGate → can l) → runs ok [] p [] → holds k base c → J c →
  wp can k p (λ _ c, holds k base c ∧ J c) c.
Proof.
  intros Hk Hcan.
  enough (∀ mine, runs ok mine p [] →
    (∀ l, l ∈ mine → l ≠ ShutdownGate ∧ (∃ s, held c !! l = Some (k, s)) ∧ l ∉ base.*1) →
    NoDup mine → holds k base c → J c → wp can k p (λ _ c, holds k base c ∧ J c) c) as Hall.
  { intros Hp. apply (Hall []); [done|by intros l ?%elem_of_nil|constructor]. }
  revert c. induction p as [a|f n IH|l n IH|l n IH|q n IH]; intros c mine Hp Hmine Hnd Hb HJ c' Hr;
    pose proof (holds_rely _ _ _ _ Hr Hb) as Hb'; pose proof (kept_rely _ _ _ _ Hk _ _ Hr Hb HJ) as HJ';
    assert (∀ l, l ∈ mine → l ≠ ShutdownGate ∧ (∃ s, held c' !! l = Some (k, s)) ∧ l ∉ base.*1) as Hmine'
      by (intros i Hi; destruct (Hmine i Hi) as (? & [s Hs] & ?); split_and!; [done| |done];
          exists s; by apply (rely_mine _ _ _ Hr)).
  - done.
  - destruct Hp as [Hf Hn]. destruct (kept_ok _ _ _ _ Hk f c' Hf Hb' HJ') as [Hg HJ''].
    split; [done|]. by apply (IH _ _ mine).
  - destruct Hp as [Hl Hn]. split; [by apply Hcan|]. intros Hfree. split; [by apply acquire_guarantee|].
    assert (l ∉ base.*1) as Hnb.
    { intros ([i s] & -> & Hi)%list_elem_of_fmap. cbn in Hfree. by rewrite (Hb' i s Hi) in Hfree. }
    apply (IH _ (l :: mine)); [done| | | |by apply (kept_acquire _ _ _ _ Hk)].
    + intros i [->|Hi]%elem_of_cons.
      * split_and!; [done| |done]. exists (shared c'). cbn. by rewrite lookup_insert_eq.
      * destruct (Hmine' i Hi) as (? & [s Hs] & ?). split_and!; [done| |done]. exists s. cbn.
        rewrite lookup_insert_ne; [done|]. intros ->. by rewrite Hfree in Hs.
    + constructor; [|done]. intros Hi. destruct (Hmine' l Hi) as (_ & [s Hs] & _). by rewrite Hfree in Hs.
    + intros i s Hi. cbn. rewrite lookup_insert_ne; [by apply Hb'|]. intros ->. apply Hnb.
      apply list_elem_of_fmap. by exists (i, s).
  - destruct Hp as (rest & -> & Hn). apply NoDup_cons in Hnd as [Hnl Hnd].
    destruct (Hmine' l (list_elem_of_here _ _)) as (Hl & [s Hs] & Hnb).
    split; [by eapply release_guarantee|]. apply (IH _ rest); [done| |done| |by apply (kept_release _ _ _ _ Hk)].
    + intros i Hi. destruct (Hmine' i (list_elem_of_further _ _ _ Hi)) as (? & [t Ht] & ?).
      split_and!; [done| |done]. exists t. cbn. rewrite lookup_delete_ne; [done|]. by intros ->.
    + intros i t Hi. cbn. rewrite lookup_delete_ne; [by apply Hb'|]. intros ->. apply Hnb.
      apply list_elem_of_fmap. by exists (i, t).
  - intros a _. by apply (IH a _ mine).
Qed.
End pool.
