(* ===== verification/SdkProgress.v ===== *)
(** Progress of programs that share mutexes: when every program takes its mutexes in one
    order and gives them back, last first, every wait for a mutex ends at a task that can
    move or that waits for an answer from outside; and when no program waits for traffic
    with a mutex in hand, that answer is to a request of its own. Applied to the
    operations of the high-level client (crates/zephyrvox-sdk/src). *)

From S2P Require Import Prelude Text Types Json Wire ClientModel VoiceTypes VoiceConfig RealtimeTypes.
From S2P Require Import HttpTypes HttpVoice HttpAuth SdkTypes SdkProgram SdkVoice SdkClient SdkPool.

(** ** Ordered programs *)

Section ordered.
Context {St Lock Q : Type} `{Countable Lock} {Answer : Q → Type}.
Context (rank : Lock → nat) (prompt : Q → Prop).
Abbreviation prog A := (SdkProgram.prog (St:=St) (Lock:=Lock) (Q:=Q) (Answer:=Answer) A).
Implicit Types (mine : list Lock) (l : Lock).

(** The mutexes of [mine] rank below [n]. *)
Definition below (n : nat) mine : Prop := Forall (λ i, (rank i < n)%nat) mine.

(** Started with [mine], the program takes only mutexes that rank above all it holds,
    releases the last taken first, and ends with [back]; while it holds any, it makes
    only [prompt] calls. *)
Fixpoint ordered {A} mine (p : prog A) (back : list Lock) : Prop :=
  match p with
  | Ret _ => mine = back
  | Atomic _ m => ∀ s, ordered mine (m s) back
  | Acquire l m => below (rank l) mine ∧ ordered (l :: mine) m back
  | Release l m => ∃ rest, mine = l :: rest ∧ ordered rest m back
  | Await q m => (mine = [] ∨ prompt q) ∧ ∀ a, ordered mine (m a) back
  end.

(** The program runs under any mutexes that rank below [n]. *)
Definition within {A} (n : nat) (p : prog A) : Prop := ∀ mine, below n mine → ordered mine p mine.

Lemma ordered_bind {A B} mine middle back (p : prog A) (m : A → prog B) :
  ordered mine p middle → (∀ a, ordered middle (m a) back) → ordered mine (bind p m) back.
Proof.
  intros Hp Hm. revert mine Hp. induction p as [a|f n IH|l n IH|l n IH|q n IH]; intros mine; cbn.
  - by intros ->.
  - intros Hn s. by apply IH.
  - intros [Hl Hn]. split; [done|]. by apply IH.
  - intros (rest & -> & Hn). exists rest. split; [done|]. by apply IH.
  - intros [Hq Hn]. split; [done|]. intros a. by apply IH.
Qed.

Lemma within_bind {A B} n (p : prog A) (m : A → prog B) :
  within n p → (∀ a, within n (m a)) → within n (bind p m).
Proof. intros Hp Hm mine Hb. eapply ordered_bind; [by apply Hp|]. intros a. by apply Hm. Qed.

Lemma within_try {A E B} n (p : prog (result E A)) (m : A → prog (result E B)) :
  within n p → (∀ a, within n (m a)) → within n (try_bind p m).
Proof. intros Hp Hm. apply within_bind; [done|]. intros [a|e]; [apply Hm|done]. Qed.

Lemma within_lock {A} n l (p : prog A) :
  (n ≤ rank l)%nat → within (S (rank l)) p → within n (with_lock l p).
Proof.
  intros Hn Hp mine Hb. cbn. split; [eapply Forall_impl; [exact Hb|cbn; lia]|].
  eapply ordered_bind; [|intros a; by exists mine]. apply Hp. constructor; [lia|].
  eapply Forall_impl; [exact Hb|cbn; lia].
Qed.

Lemma within_mono {A} m n (p : prog A) : (m ≤ n)%nat → within n p → within m p.
Proof. intros Hmn Hp mine Hb. apply Hp. eapply Forall_impl; [exact Hb|cbn; lia]. Qed.

Lemma within_alone {A} n (p : prog A) : within n p → ordered [] p [].
Proof. intros Hp. apply Hp. constructor. Qed.

Lemma within_ret {A} n (a : A) : within n (Ret a).
Proof. by intros mine _. Qed.
Lemma within_read {A} n (f : St → A) : within n (read f).
Proof. by intros mine _. Qed.
Lemma within_modify n (f : St → St) : within n (modify f).
Proof. by intros mine _. Qed.
Lemma within_atomically {A} n (f : St → A * St) : within n (atomically f).
Proof. by intros mine _. Qed.
Lemma within_call n q : prompt q ∨ n = 0%nat → within n (call q).
Proof.
  intros Hq mine Hb. split; [|done]. destruct Hq as [Hq| ->]; [by right|left].
  destruct mine as [|l mine]; [done|]. apply Forall_inv in Hb. lia.
Qed.
End ordered.

(** ** Pools of ordered programs *)

Section progress.
Context {St Lock Q : Type} `{Countable Lock} {Answer : Q → Type}.
Context (rank : Lock → nat) (highest : nat) (rank_highest : ∀ l, (rank l ≤ highest)%nat).
Context {Op Out : Type} (code : Op → prog (St:=St) (Lock:=Lock) (Q:=Q) (Answer:=Answer) Out).
Context (cancellable : Op → Prop) (outside : St → St → Prop) (answer_ok : ∀ q, Answer q → Prop).
Context (prompt : Q → Prop).
Context (code_ordered : ∀ op, ordered rank prompt [] (code op) []).
Context (answered : ∀ q, ∃ a, answer_ok q a).

Abbreviation Prog := (SdkProgram.prog (St:=St) (Lock:=Lock) (Q:=Q) (Answer:=Answer) Out).
Abbreviation Pool := (SdkProgram.Pool (St:=St) (Lock:=Lock) (Op:=Op) (Out:=Out) (Q:=Q) (Answer:=Answer)).
Abbreviation pool_step := (SdkProgram.pool_step code cancellable outside answer_ok).
Implicit Types (w : Pool) (ts : list (Op * option Prog)).

(** A task of the pool takes a step. *)
Inductive task_step : Pool → Pool → Prop :=
| task_runs c c' ts k op p p' :
    ts !! k = Some (op, Some p) → head_step answer_ok k c p c' p' →
    task_step (mkPool c ts) (mkPool c' (<[k := (op, Some p')]> ts)).

(** Dropped, or returned. *)
Definition finished (t : Op * option Prog) : Prop :=
  match t.2 with None | Some (Ret _) => True | _ => False end.

#[local] Instance finished_dec t : Decision (finished t).
Proof. destruct t as [op [[]|]]; cbn; apply _. Defined.

(** A task holds exactly the mutexes that its program still has to release. *)
Record locks_ok w : Prop := {
  locks_tasks k op p : tasks w !! k = Some (op, Some p) →
    ∃ mine, NoDup mine ∧ ordered rank prompt mine p [] ∧ ∀ l, l ∈ mine ↔ ∃ s, held (config w) !! l = Some (k, s);
  locks_owned l o s : held (config w) !! l = Some (o, s) → ∃ op p, tasks w !! o = Some (op, Some p);
}.

Lemma locks_init s : locks_ok (mkPool (mkConfig s ∅) []).
Proof. split; cbn; [done|]. intros l o s'. by rewrite lookup_empty. Qed.

(** The tasks other than the one that moves. *)
Lemma locks_others w c' k t' (mine' : list Lock) :
  locks_ok w → (k < length (tasks w))%nat →
  (∀ l o s, o ≠ k → held c' !! l = Some (o, s) ↔ held (config w) !! l = Some (o, s)) →
  (∀ op p, t' = (op, Some p) → NoDup mine' ∧ ordered rank prompt mine' p []) →
  (∀ l, l ∈ mine' ↔ ∃ s, held c' !! l = Some (k, s)) →
  (∀ op, t' = (op, None) → mine' = []) →
  locks_ok (mkPool c' (<[k := t']> (tasks w))).
Proof.
  intros [Ht Ho] Hk Hheld Hp Hmine Hnone. split; cbn.
  - intros j op p Hj. destruct (decide (j = k)) as [->|Hne].
    + rewrite list_lookup_insert_eq in Hj by done. injection Hj as ->. exists mine'.
      destruct (Hp op p eq_refl) as [Hnd Hord]. by split_and!.
    + rewrite list_lookup_insert_ne in Hj by done. destruct (Ht j op p Hj) as (mine & Hnd & Hord & Hin).
      exists mine. split_and!; [done|done|]. intros l. rewrite Hin. by setoid_rewrite Hheld.
  - intros l o s Hl. destruct (decide (o = k)) as [->|Hne].
    + rewrite list_lookup_insert_eq by done. destruct t' as [op [p|]]; [by eexists _, _|].
      assert (l ∈ mine') as Hin by (apply Hmine; by exists s). rewrite (Hnone op eq_refl) in Hin.
      by apply elem_of_nil in Hin.
    + rewrite list_lookup_insert_ne by done. apply Hheld in Hl; [|done]. by eapply Ho.
Qed.

Lemma head_locks w k op p c' p' :
  locks_ok w → tasks w !! k = Some (op, Some p) → head_step answer_ok k (config w) p c' p' →
  locks_ok (mkPool c' (<[k := (op, Some p')]> (tasks w))).
Proof.
  intros Hw Hk Hstep. destruct (locks_tasks _ Hw k op p Hk) as (mine & Hnd & Hord & Hin).
  pose proof (lookup_lt_Some _ _ _ Hk) as Hlt.
  assert (∀ mine' c', (∀ l o s, o ≠ k → held c' !! l = Some (o, s) ↔ held (config w) !! l = Some (o, s)) →
    NoDup mine' → ordered rank prompt mine' p' [] → (∀ l, l ∈ mine' ↔ ∃ s, held c' !! l = Some (k, s)) →
    locks_ok (mkPool c' (<[k := (op, Some p')]> (tasks w)))) as Hgo.
  { intros mine' c0 Hheld Hnd' Hord' Hin'. eapply (locks_others w c0 k _ mine'); [done|done|done| |done|done].
    by intros op0 p0 [= <- <-]. }
  remember (config w) as c0 eqn:Hc0.
  destruct Hstep as [c f m|c l m Hfree|c l m|c q m a Ha]; cbn in Hord.
  - by apply (Hgo mine).
  - destruct Hord as [Hb Hord]. apply (Hgo (l :: mine)); [| |done|]; cbn.
    + intros i o s Hne. rewrite lookup_insert_Some. split; [|by intros Hi; right; split; [congruence|]].
      by intros [[_ [= <- _]]|[_ ?]].
    + constructor; [|done]. intros [s Hl]%Hin. congruence.
    + intros i. rewrite elem_of_cons, Hin. setoid_rewrite lookup_insert_Some. split.
      * intros [->|[s Hi]]; [by eexists; left|]. exists s. right. split; [congruence|done].
      * intros [s [[-> _]|[_ Hi]]]; [by left|right; by exists s].
  - destruct Hord as (rest & -> & Hord). apply NoDup_cons in Hnd as [Hnl Hnd].
    assert (∃ s, held c !! l = Some (k, s)) as [s0 Hl] by (apply Hin; by constructor).
    apply (Hgo rest); [|done|done|]; cbn.
    + intros i o s Hne. rewrite lookup_delete_Some. split; [by intros []|]. split; [congruence|done].
    + intros i. setoid_rewrite lookup_delete_Some. split.
      * intros Hi. assert (∃ s, held c !! i = Some (k, s)) as [s Hs] by (apply Hin; by constructor).
        exists s. split; [|done]. by intros ->.
      * intros (s & Hne & Hi). assert (i ∈ l :: rest) as Hi' by (apply Hin; by exists s).
        by apply elem_of_cons in Hi' as [->|?].
  - destruct Hord as [_ Hord]. by apply (Hgo mine).
Qed.

Lemma pool_step_locks w w' : pool_step w w' → locks_ok w → locks_ok w'.
Proof.
  intros Hstep Hw. destruct Hstep as [c c' ts k op p p' Ht Hstep|c ts op|c ts k op p Ht Hc|c ts s' Ho].
  - by apply (head_locks (mkPool c ts) k op p).
  - split; cbn.
    + intros j op' q [Hj|[Hlen Hj]]%lookup_app_Some; [by apply (locks_tasks _ Hw j op')|].
      apply list_lookup_singleton_Some in Hj as [Hj [= <- <-]]. exists []. split_and!; [constructor|done|].
      intros l. split; [by intros ?%elem_of_nil|]. intros [s Hl].
      destruct (locks_owned _ Hw l j s Hl) as (op' & p & Hp). apply lookup_lt_Some in Hp. cbn in Hp. lia.
    + intros l o s Hl. destruct (locks_owned _ Hw l o s Hl) as (op' & p & Hp). exists op', p.
      by apply lookup_app_l_Some.
  - pose proof (lookup_lt_Some _ _ _ Ht). apply (locks_others (mkPool c ts) _ k _ []); [done|done| |done| |done]; cbn.
    + intros l o s Hne. rewrite map_lookup_filter_Some. cbn. naive_solver.
    + intros l. split; [by intros ?%elem_of_nil|]. intros (s & [_ Hl]%map_lookup_filter_Some). by cbn in Hl.
  - split; [exact (locks_tasks _ Hw)|exact (locks_owned _ Hw)].
Qed.

Lemma task_pool_step w w' : task_step w w' → pool_step w w'.
Proof. intros []. by eapply pool_task. Qed.

Lemma locks_rtc w w' : rtc pool_step w w' → locks_ok w → locks_ok w'.
Proof. induction 1; eauto using pool_step_locks. Qed.

(** *** No deadlock *)

(** Task [k] waits for a mutex that task [j] holds. *)
Definition waits_for w (k j : nat) : Prop :=
  ∃ op l m s, tasks w !! k = Some (op, Some (Acquire l m)) ∧ held (config w) !! l = Some (j, s).

(** Task [k] has a step that needs no answer. *)
Definition moves_alone w (k : nat) : Prop :=
  ∃ op p c' p', tasks w !! k = Some (op, Some p) ∧ head_step (λ _ _, False) k (config w) p c' p'.

Definition awaits w (k : nat) (q : Q) : Prop := ∃ op m, tasks w !! k = Some (op, Some (Await q m)).

Definition holds_any w (k : nat) : Prop := ∃ l s, held (config w) !! l = Some (k, s).

(** What a wait for mutexes ends at. *)
Definition wakes w (j : nat) : Prop :=
  moves_alone w j ∨ ∃ q, awaits w j q ∧ (holds_any w j → prompt q).

(** A task that waits for a mutex waits, through owners that wait for higher mutexes,
    for one that does not wait for a mutex. *)
Lemma waits_end w k op p n :
  locks_ok w → tasks w !! k = Some (op, Some p) →
  match p with
  | Ret _ => False
  | Acquire l _ => (highest - rank l < n)%nat
  | _ => True
  end → ∃ j, rtc (waits_for w) k j ∧ wakes w j.
Proof.
  intros Hw. revert k op p. induction n as [|n IH]; intros k op p Hk Hp;
    (destruct p as [a|f m|l m|l m|q m]; [done| | | |]);
    try (exists k; split; [done|left; eexists _, _, _, _; split; [done|by constructor]]); try lia.
  1,3: (destruct (locks_tasks _ Hw k op _ Hk) as (mine & _ & [Hq _] & Hin); exists k; split; [done|]; right;
    exists q; split; [by eexists _, _|]; intros (l & s & Hl); destruct Hq as [->|Hq]; [|done];
    exfalso; eapply elem_of_nil, Hin; by exists s).
  destruct (held (config w) !! l) as [[o s]|] eqn:Hl.
  2:{ exists k. split; [done|]. left. eexists _, _, _, _. split; [done|by constructor]. }
  destruct (locks_owned _ Hw l o s Hl) as (op' & p' & Ho).
  destruct (locks_tasks _ Hw o op' p' Ho) as (mine & _ & Hord & Hin).
  assert (l ∈ mine) as Hl' by (apply Hin; by exists s).
  destruct (IH o op' p' Ho) as (j & Hj & Hwake).
  - destruct p' as [b|?|l' m'|?|?]; try done.
    + cbn in Hord. subst mine. by apply elem_of_nil in Hl'.
    + destruct Hord as [Hb _]. apply (proj1 (Forall_forall _ _) Hb) in Hl'. cbn in Hl'.
      pose proof (rank_highest l'). lia.
  - exists j. split; [|done]. eapply rtc_l; [|exact Hj]. by exists op, l, m, s.
Qed.

Lemma never_deadlocked w k op p :
  locks_ok w → tasks w !! k = Some (op, Some p) → (∀ out, p ≠ Ret out) →
  ∃ j, rtc (waits_for w) k j ∧ wakes w j.
Proof.
  intros Hw Hk Hp. apply (waits_end w k op p (S highest)); [done|done|].
  destruct p; try done; [by eapply Hp|lia].
Qed.

Lemma head_answered k c (p p' : Prog) c' :
  head_step (λ q (_ : Answer q), False) k c p c' p' → head_step answer_ok k c p c' p'.
Proof. intros []; by constructor. Qed.

Lemma wakes_red w j : wakes w j → red task_step w.
Proof.
  intros [(op & p & c' & p' & Hj & Hs)|(q & (op & m & Hj) & _)]; destruct w as [c ts]; cbn in *.
  - eexists. eapply task_runs; [done|]. by eapply head_answered.
  - destruct (answered q) as [a Ha]. eexists. eapply task_runs; [done|by apply (head_await _ _ _ _ _ a)].
Qed.

Lemma stuck_finished w : locks_ok w → nf task_step w → Forall finished (tasks w).
Proof.
  intros Hw Hnf. apply Forall_lookup_2. intros k [op [p|]] Hk; [|done].
  destruct p as [a|f m|l m|l m|q m]; [done| | | |];
    (exfalso; destruct (never_deadlocked w k op _ Hw Hk) as (j & _ & Hj); [done|]; by apply Hnf, (wakes_red w j)).
Qed.

(** *** The tasks in flight can be finished *)

(** A program after a step of its own. *)
Definition continues (p' p : Prog) : Prop :=
  match p with
  | Ret _ => False
  | Atomic _ m => ∃ s, p' = m s
  | Acquire _ m | Release _ m => p' = m
  | Await q m => ∃ a, p' = m a
  end.

Lemma continues_wf : well_founded continues.
Proof.
  intros p. induction p as [a|f m IH|l m IH|l m IH|q m IH]; constructor; intros p'; cbn.
  - done.
  - by intros [s ->].
  - by intros ->.
  - by intros ->.
  - by intros [a ->].
Qed.

Lemma head_continues k c p c' p' : head_step answer_ok k c p c' p' → continues p' p.
Proof. intros []; cbn; eauto. Qed.

(** One task of the list moves. *)
Inductive moves : list (Op * option Prog) → list (Op * option Prog) → Prop :=
| moves_here op p p' ts : continues p' p → moves ((op, Some p') :: ts) ((op, Some p) :: ts)
| moves_later t ts ts' : moves ts' ts → moves (t :: ts') (t :: ts).

Lemma moves_wf : well_founded moves.
Proof.
  intros ts. induction ts as [|[op o] ts IH]; [by constructor; intros ts' Hm; inversion Hm|].
  revert o. assert (∀ o, (∀ p, o = Some p → Acc continues p) → Acc moves ((op, o) :: ts)) as Hgo.
  2:{ intros o. apply Hgo. intros p _. apply continues_wf. }
  induction IH as [ts _ IHts]. intros o. destruct o as [p|].
  - intros Hp. specialize (Hp p eq_refl). induction Hp as [p Hacc IHp]. constructor. intros ts' Hm.
    inversion Hm as [op' p1 p' ts1 Hc|t ts1 ts2 Hm']; subst; [by apply IHp|].
    apply IHts; [done|]. intros p' [= <-]. by constructor.
  - intros _. constructor. intros ts' Hm. inversion Hm; subst. by apply IHts.
Qed.

Lemma moves_insert ts k op p p' :
  ts !! k = Some (op, Some p) → continues p' p → moves (<[k := (op, Some p')]> ts) ts.
Proof.
  revert k. induction ts as [|t ts IH]; intros [|k] Hk Hc; cbn in *; [done|done| |].
  - injection Hk as ->. by constructor.
  - constructor. by apply IH.
Qed.

Lemma task_step_sn w : sn task_step w.
Proof.
  destruct w as [c ts]. revert c. induction (moves_wf ts) as [ts _ IH]. intros c. constructor.
  intros w' Hstep. inversion Hstep as [c0 c' ts0 k op p p' Hk Hh]; simplify_eq.
  apply IH. eapply moves_insert; [done|]. by eapply head_continues.
Qed.

(** From wherever the tasks in flight have got to, some of their steps finish them all. *)
Lemma can_finish w w' :
  locks_ok w → rtc task_step w w' → ∃ w'', rtc task_step w' w'' ∧ Forall finished (tasks w'').
Proof.
  intros Hw Hrun. assert (locks_ok w') as Hw'.
  { apply (locks_rtc w); [|done]. clear -Hrun. induction Hrun; [done|]. eapply rtc_l; [by apply task_pool_step|done]. }
  clear w Hw Hrun. revert Hw'. induction (task_step_sn w') as [w _ IH]. intros Hw.
  destruct (decide (Forall finished (tasks w))) as [Hf|Hf]; [by exists w|].
  assert (red task_step w) as [w1 Hs].
  { apply not_Forall_Exists in Hf; [|by apply _]. apply Exists_exists in Hf as ([op o] & [k Hk]%list_elem_of_lookup & Hp).
    destruct o as [p|]; [|by destruct (Hp I)].
    destruct (never_deadlocked w k op p Hw Hk) as (j & _ & Hj); [intros out ->; by destruct (Hp I)|by apply (wakes_red w j)]. }
  destruct (IH w1 Hs (pool_step_locks _ _ (task_pool_step _ _ Hs) Hw)) as (w2 & Hw2 & Hf2).
  exists w2. split; [by eapply rtc_l|done].
Qed.
End progress.

(** ** The mutexes of the client *)

(** The order in which the client takes its mutexes. *)
Definition gate_rank (l : Gate) : nat :=
  match l with
  | ShutdownGate => 0
  | VoiceGate => 1
  | ControlLock => 2
  | VoiceLock => 3
  | TeardownLock _ => 4
  | TasksLock => 5
  end.

(** Calls that wait for the traffic of a session or of a connection: for an event or
    media to come in, for room to send, for a worker to end. All other calls are
    requests to the server, or open or close something. *)
Definition waits_for_traffic (q : Query) : bool :=
  match q with
  | QRecvEvent _ | QRecvFrame _ | QWaitStopped _ | QSendFrame _ _ _ | QSetPresence _ _ => true
  | _ => false
  end.

Definition prompt (q : Query) : Prop := waits_for_traffic q = false.

#[local] Opaque within.

Create HintDb ordered.
#[local] Hint Resolve within_ret within_read within_modify within_atomically : ordered.
#[local] Hint Extern 1 (within ?rank ?prompt ?n (call ?q)) =>
  (refine (within_call rank prompt n q _); first [left; exact eq_refl|right; lia]) : ordered.
#[local] Hint Resolve within_bind within_try | 2 : ordered.
#[local] Hint Extern 1 (within _ _ _ (with_lock _ _)) => (apply within_lock; [cbn; lia|cbn [gate_rank]]) : ordered.
#[local] Hint Extern 3 (within _ _ _ (match ?x with _ => _ end)) => (destruct x) : ordered.
#[local] Hint Extern 3 (within _ _ _ (let _ := _ in _)) => (cbv zeta) : ordered.

Section client.
Context {V : Type} `{Base64Lib}.
Context (auto_rejoin_voice : bool).
Abbreviation act A := (prog (St:=ClientInner V) (Lock:=Gate) (Q:=Query) (Answer:=Answer V) A).
Abbreviation takes_from n p := (within (St:=ClientInner V) (Answer:=Answer V) gate_rank prompt n p).

Lemma ensure_open_order n : takes_from n ensure_open.
Proof. unfold ensure_open. auto with ordered. Qed.

Lemma raise_order {A} n e : takes_from n (raise (A:=A) e).
Proof. unfold raise. auto with ordered. Qed.

Lemma map_error_order {E F A} n (f : E → F) (p : act (result E A)) :
  takes_from n p → takes_from n (map_error f p).
Proof. unfold map_error. auto with ordered. Qed.
#[local] Hint Resolve ensure_open_order raise_order map_error_order : ordered.

Lemma close_worker_order n t sid : takes_from n (close_worker t sid).
Proof. unfold close_worker. auto with ordered. Qed.
#[local] Hint Resolve close_worker_order : ordered.

Lemma stop_order n v : (n ≤ 4)%nat → takes_from n (stop_transport v).
Proof. intros Hn. unfold stop_transport. auto 20 with ordered. Qed.
#[local] Hint Extern 1 (within _ _ _ (stop_transport _)) => (apply stop_order; cbn; lia) : ordered.

Lemma session_close_order n v : (n ≤ 4)%nat → takes_from n (session_close v).
Proof. intros Hn. unfold session_close, session_clear_intent. auto 20 with ordered. Qed.

Lemma session_leave_order n v : (n ≤ 4)%nat → takes_from n (session_leave v).
Proof. intros Hn. unfold session_leave, leave_locked, session_clear_intent. auto 30 with ordered. Qed.

Lemma discover_order n : takes_from n discover.
Proof. unfold discover. auto 20 with ordered. Qed.

Lemma current_control_order n : (n ≤ 2)%nat → takes_from n current_control.
Proof. intros Hn. unfold current_control. auto 20 with ordered. Qed.

Lemma connect_cache_order n config : takes_from n (connect_with_key_cache config).
Proof. unfold connect_with_key_cache. auto 20 with ordered. Qed.
#[local] Hint Resolve discover_order connect_cache_order : ordered.
#[local] Hint Extern 1 (within _ _ _ current_control) => (apply current_control_order; cbn; lia) : ordered.
#[local] Hint Extern 1 (within _ _ _ (session_leave _)) => (apply session_leave_order; cbn; lia) : ordered.

Lemma install_order n session request reuse :
  (n ≤ 3)%nat → takes_from n (install_session auto_rejoin_voice session request reuse).
Proof. intros Hn. unfold install_session, session_close_transport. auto 30 with ordered. Qed.
#[local] Hint Extern 1 (within _ _ _ (install_session _ _ _ _)) => (apply install_order; cbn; lia) : ordered.

Lemma start_order n channel_id request control id generation m codec response :
  (n ≤ 3)%nat →
  takes_from n (start_session auto_rejoin_voice channel_id request control id generation m codec response).
Proof. intros Hn. unfold start_session. auto 40 with ordered. Qed.
#[local] Hint Extern 1 (within _ _ _ (start_session _ _ _ _ _ _ _ _ _)) => (apply start_order; cbn; lia) : ordered.

Lemma join_order n channel_id request : (n ≤ 1)%nat → takes_from n (join_voice auto_rejoin_voice channel_id request).
Proof. intros Hn. unfold join_voice, join_locked. auto 40 with ordered. Qed.

Lemma leave_order n : (n ≤ 1)%nat → takes_from n leave_voice.
Proof. intros Hn. unfold leave_voice, leave_current, clear_voice_intent. auto 40 with ordered. Qed.

Lemma rejoin_order n : (n ≤ 1)%nat → takes_from n (rejoin_voice_if_configured auto_rejoin_voice).
Proof.
  intros Hn. unfold rejoin_voice_if_configured, clear_voice_intent.
  pose proof (join_order n). auto 30 with ordered.
Qed.

Lemma spawn_order n connection generation : (n ≤ 5)%nat → takes_from n (spawn_event_relay connection generation).
Proof. intros Hn. unfold spawn_event_relay. auto 20 with ordered. Qed.
#[local] Hint Extern 1 (within _ _ _ (spawn_event_relay _ _)) => (apply spawn_order; cbn; lia) : ordered.

Lemma connect_order n own : (n ≤ 2)%nat → takes_from n (connect own).
Proof. intros Hn. unfold connect, connect_locked, install_connection. auto 40 with ordered. Qed.

Lemma stop_voice_order n expected : (n ≤ 1)%nat → takes_from n (stop_voice_transport_for expected).
Proof. intros Hn. unfold stop_voice_transport_for, session_close_transport. auto 30 with ordered. Qed.

Lemma relay_order n turns connection generation :
  (n ≤ 0)%nat → takes_from n (relay_realtime_events auto_rejoin_voice turns connection generation).
Proof.
  intros Hn. pose proof (stop_voice_order n). pose proof (rejoin_order n).
  induction turns as [|turns IH]; cbn [relay_realtime_events]; [auto with ordered|].
  unfold relay_turn, react, report, clear_voice_intent. auto 40 with ordered.
Qed.

Lemma abort_order n l : takes_from n (abort_tasks l).
Proof. induction l; cbn [abort_tasks]; auto with ordered. Qed.
#[local] Hint Resolve abort_order : ordered.

Lemma shutdown_order n : (n ≤ 0)%nat → takes_from n shutdown.
Proof.
  intros Hn. unfold shutdown, teardown, shutdown_voice, shutdown_control, session_close_transport.
  auto 60 with ordered.
Qed.

Lemma code_order op : takes_from 0 (code auto_rejoin_voice op).
Proof.
  destruct op; cbn [code]; unfold yield, sdk_login, sdk_set_presence, session_send;
    auto 20 using join_order, leave_order, connect_order, relay_order, shutdown_order, session_close_order with ordered.
Qed.
End client.

Lemma gate_rank_highest l : (gate_rank l ≤ 5)%nat.
Proof. destruct l; cbn; lia. Qed.

(** A call can always be answered. *)
Lemma always_answered {V} (q : Query) : ∃ a : Answer V q, answer_any q a.
Proof.
  destruct q; try (by exists (Err HttpClosed)); try (by exists (Err Closed)); try (by exists (Err ConnectionClosed)).
  - by exists None.
  - by exists tt.
  - by exists 0%nat.
  - by exists RelayClosed.
  - by exists true.
  - by exists tt.
Qed.

(** C27: the client never deadlocks. Let any number of logins, connects, joins, leaves, sends,
    relay tasks (for any number of turns of their loop) and shutdowns be in flight on a
    client, interleaved in any way, some of them dropped at any suspension point. A task
    that has not returned can move, or awaits an answer, or waits for a mutex; and then
    the owners of the mutexes lead to a task that can move, or that awaits an answer,
    which with a mutex in hand is never one that waits for traffic: no event, no media
    and no room to send is waited for with a mutex held. So wherever the tasks have got
    to, there are answers and an order with which all of them return. (Whether a
    server, an engine or a worker answers is not the client's to say.) *)
Theorem client_never_deadlocks {V} `{Base64Lib} (auto_rejoin_voice : bool) (can_drop : Op → Prop) w :
  rtc (pool_step (code (V:=V) auto_rejoin_voice) can_drop outside answer_any) (mkPool (mkConfig from_api ∅) []) w →
  (∀ k op p, tasks w !! k = Some (op, Some p) → (∀ out, p ≠ Ret out) →
     ∃ j, rtc (waits_for w) k j ∧
       (moves_alone w j ∨ ∃ q, awaits w j q ∧ (holds_any w j → prompt q))) ∧
  (∀ w', rtc (task_step answer_any) w w' →
     ∃ w'', rtc (task_step answer_any) w' w'' ∧ Forall finished (tasks w'')).
Proof.
  intros Hw. assert (∀ op, ordered gate_rank prompt [] (code (V:=V) auto_rejoin_voice op) []) as Hcode
    by (intros op; apply (within_alone gate_rank prompt 0), code_order).
  assert (locks_ok gate_rank prompt w) as Hl.
  { eapply locks_rtc; [exact Hcode|exact Hw|]. apply locks_init. }
  split.
  - intros k op p. apply (never_deadlocked gate_rank 5 gate_rank_highest); done.
  - intros w'. by apply (can_finish gate_rank 5 gate_rank_highest _ can_drop outside answer_any prompt Hcode always_answered).
Qed.

#[local] Existing Instance ToyVoice.base64.

(** A connect, a join and a shutdown in flight together. *)
Definition toy_ops : list Op := [OpConnect true; OpJoin 5 ToySdk.request; OpShutdown].
Definition toy_flight :
    Pool (St:=ClientInner unit) (Lock:=Gate) (Op:=Op) (Out:=Out) (Q:=Query) (Answer:=Answer unit) :=
  mkPool (mkConfig (from_api (V:=unit)) ∅) ((λ op, (op, Some (code true op))) <$> toy_ops).

Lemma client_never_deadlocks_witness :
  ¬ Forall finished (tasks toy_flight) ∧
  ∃ w, rtc (task_step answer_any) toy_flight w ∧ Forall finished (tasks w).
Proof.
  split; [intros Hf; apply (Forall_inv Hf)|].
  refine (proj2 (client_never_deadlocks true cancellable toy_flight _) toy_flight (rtc_refl _ _)).
  eapply rtc_l; [apply (pool_spawn _ _ _ _ _ _ (OpConnect true))|].
  eapply rtc_l; [apply (pool_spawn _ _ _ _ _ _ (OpJoin 5 ToySdk.request))|].
  eapply rtc_l; [apply (pool_spawn _ _ _ _ _ _ OpShutdown)|]. apply rtc_refl.
Defined.
