(* ===== verification/SdkShutdown.v ===== *)
(** Every operation of the high-level client keeps the rely of SdkPool, and a shutdown that
    returns leaves the client torn down for good (crates/zephyrvox-sdk/src). *)

From S2P Require Import Prelude Text Types Json Wire ClientModel VoiceTypes VoiceConfig RealtimeTypes.
From S2P Require Import HttpTypes HttpVoice HttpAuth SdkTypes SdkProgram SdkVoice SdkClient SdkPool.

Create HintDb runs.

Section ops.
Context {V : Type} `{Base64Lib}.
Context (auto_rejoin_voice : bool).

Abbreviation act A := (prog (St:=ClientInner V) (Lock:=Gate) (Q:=Query) (Answer:=Answer V) A).
Abbreviation St := (ClientInner V).
Abbreviation Config := (SdkProgram.Config (St:=St) (Lock:=Gate)).
Abbreviation guarantee := (SdkProgram.guarantee (St:=St) (Lock:=Gate) rely).
Abbreviation wp := (SdkProgram.wp (St:=St) (Lock:=Gate) (Q:=Query) (Answer:=Answer V) answer_any rely).
Implicit Types ok : (St → St) → Prop.

(** ** Kinds of pieces *)

(** Under the voice gate only the session, the keys and the intent move. *)
Record voice_side (f : St → St) : Prop := {
  voice_side_stopped s : ci_stopped (f s) = ci_stopped s;
  voice_side_control s : ci_control (f s) = ci_control s;
  voice_side_state s : ci_state s = None → ci_state (f s) = None;
  voice_side_tasks s : ci_tasks s = [] → ci_tasks (f s) = [];
}.

(** Under the control lock the session, the keys and the intent stay. *)
Record control_side (f : St → St) : Prop := {
  control_side_stopped s : ci_stopped (f s) = ci_stopped s;
  control_side_voice s : ci_voice (f s) = ci_voice s;
  control_side_keys s : ci_key_cache s = ∅ → ci_key_cache (f s) = ∅;
  control_side_intent s : ci_voice_intent s = None → ci_voice_intent (f s) = None;
}.

Lemma kept_plain k base : kept k base (λ _, True) (harmless (V:=V)).
Proof.
  split; [done| |done|done]. intros f c Hf _ _. split; [|done]. intros j _. by apply harmless_rely.
Qed.

(** Whoever took the voice gate with the client open, or with a session in place, may
    write under it: voice cannot be sealed. *)
Lemma kept_voice k s0 :
  ci_stopped s0 = false ∨ is_Some (ci_voice s0) →
  kept k [(VoiceGate, s0)] (λ _, True) voice_side.
Proof.
  intros Hopen. split; [done| |done|done]. intros f c Hf Hb _. split; [|done].
  assert (held c !! VoiceGate = Some (k, s0)) as Hg by (apply Hb; by constructor).
  assert (¬ voice_sealed c) as Hns.
  { intros (_ & _ & Hh). destruct (Hh _ _ Hg) as [Hs Hv].
    destruct Hopen as [Hopen|[v Hopen]]; [by rewrite Hs in Hopen|by rewrite Hv in Hopen]. }
  apply update_guarantee; [apply Hf|right; by exists s0|left; apply Hf|].
  intros t. destruct t; cbn; unfold control_sealed; cbn;
    rewrite ?(voice_side_stopped _ Hf), ?(voice_side_control _ Hf); [done|done|by intros []|by intros []|..];
    intros [? ?]; (split; [done|]).
  - by apply (voice_side_state _ Hf).
  - by apply (voice_side_tasks _ Hf).
Qed.

Lemma kept_control k s0 :
  ci_stopped s0 = false → kept k [(ControlLock, s0)] (λ _, True) control_side.
Proof.
  intros Hopen. split; [done| |done|done]. intros f c Hf Hb _. split; [|done].
  assert (held c !! ControlLock = Some (k, s0)) as Hg by (apply Hb; by constructor).
  assert (¬ control_sealed c) as Hns.
  { intros (_ & _ & Hh). pose proof (Hh _ _ Hg) as Hs. by rewrite Hs in Hopen. }
  apply update_guarantee; [apply Hf|left; apply Hf|right; by exists s0|].
  intros t. destruct t; cbn; unfold voice_sealed; cbn;
    rewrite ?(control_side_stopped _ Hf), ?(control_side_voice _ Hf); [done|done| | |by intros []|by intros []];
    intros [? ?]; (split; [done|]).
  - by apply (control_side_keys _ Hf).
  - by apply (control_side_intent _ Hf).
Qed.

Lemma harmless_voice_side (f : St → St) : harmless f → voice_side f.
Proof. intros Hf. split; apply Hf. Qed.

Lemma harmless_control_side (f : St → St) : harmless f → control_side f.
Proof. intros Hf. split; apply Hf. Qed.

(** ** The combinators *)

Lemma runs_mono {A} ok ok' mine (p : act A) back :
  (∀ f, ok f → ok' f) → runs ok mine p back → runs ok' mine p back.
Proof.
  intros Ho. revert mine. induction p as [a|f n IH|l n IH|l n IH|q n IH]; intros mine; cbn; [done|naive_solver..].
Qed.

Lemma runs_read {A} ok mine (f : St → A) : ok id → runs ok mine (read f) mine.
Proof. done. Qed.
Lemma runs_modify ok mine (f : St → St) : ok f → runs ok mine (modify f) mine.
Proof. done. Qed.
Lemma runs_atomically {A} ok mine (f : St → A * St) : ok (λ s, (f s).2) → runs ok mine (atomically f) mine.
Proof. done. Qed.
Lemma runs_call ok mine q : runs (V:=V) ok mine (call q) mine.
Proof. done. Qed.
Lemma runs_ret {A} ok mine (a : A) : runs (V:=V) ok mine (Ret a) mine.
Proof. done. Qed.
Lemma runs_raise {A} ok mine (e : SdkError) : runs (V:=V) ok mine (raise (A:=A) e) mine.
Proof. done. Qed.

Lemma runs_try {A E B} ok mine (p : act (result E A)) (m : A → act (result E B)) :
  runs ok mine p mine → (∀ a, runs ok mine (m a) mine) → runs ok mine (try_bind p m) mine.
Proof. intros Hp Hm. eapply runs_bind; [done|]. by intros [a|e]. Qed.

Lemma runs_then {A B} ok mine (p : act A) (m : A → act B) :
  runs ok mine p mine → (∀ a, runs ok mine (m a) mine) → runs ok mine (bind p m) mine.
Proof. apply runs_bind. Qed.

Lemma runs_map_error {E F A} ok mine (f : E → F) (p : act (result E A)) :
  runs ok mine p mine → runs ok mine (map_error f p) mine.
Proof. intros Hp. by eapply runs_bind. Qed.

Lemma runs_with_lock {A} ok mine l (p : act A) :
  l ≠ ShutdownGate → (∀ mine, runs ok mine p mine) → runs ok mine (with_lock l p) mine.
Proof. intros Hl Hp. cbn. split; [done|]. eapply runs_bind; [apply Hp|]. intros a. by exists mine. Qed.
End ops.

#[export] Hint Resolve runs_read runs_modify runs_atomically runs_ret runs_raise runs_with_lock : runs.
#[export] Hint Extern 1 (runs _ _ (call _) _) => (apply runs_call) : runs.
#[export] Hint Extern 1 (runs _ _ (map_error _ _) _) => (apply runs_map_error) : runs.
#[export] Hint Resolve runs_try runs_then | 2 : runs.
#[export] Hint Extern 1 (harmless _) => (by split) : runs.
#[export] Hint Extern 1 (voice_side _) => (by split) : runs.
#[export] Hint Extern 1 (control_side _) => (by split) : runs.
#[export] Hint Extern 1 (_ ≠ ShutdownGate) => discriminate : runs.
#[export] Hint Extern 3 (runs _ _ (match ?x with _ => _ end) _) => (destruct x) : runs.
#[export] Hint Extern 3 (runs _ _ (let _ := _ in _) _) => (cbv zeta) : runs.

Section plain.
Context {V : Type} `{Base64Lib}.
Abbreviation act A := (prog (St:=ClientInner V) (Lock:=Gate) (Q:=Query) (Answer:=Answer V) A).
Abbreviation tame p := (∀ mine, runs (V:=V) harmless mine p mine).

Lemma harmless_remove_key sid : harmless (V:=V) (remove_key sid).
Proof.
  split; try done. intros s Hs. unfold remove_key, KeyCache.remove, set_keys. cbn. rewrite Hs.
  apply delete_empty.
Qed.

Lemma harmless_clear_own v :
  harmless (λ s : ClientInner V, match ci_voice_intent s with
    | Some i => if bool_decide (intent_session_id i = vs_session_id v) then set_intent None s else s
    | None => s
    end).
Proof.
  assert (∀ s : ClientInner V, harmless (set_intent (V:=V) None)) as Hn by (by split).
  split; intros s; destruct (ci_voice_intent s) as [i|] eqn:Hi; cbn; try done; by case_bool_decide.
Qed.
Lemma harmless_closed t sid :
  harmless (λ s : ClientInner V, remove_key sid (set_closed ({[t]} ∪ ci_closed s) s)).
Proof.
  split; try done. intros s Hs. apply (harmless_keys _ (harmless_remove_key sid)). exact Hs.
Qed.
#[local] Hint Resolve harmless_remove_key harmless_closed harmless_clear_own : runs.

Lemma close_worker_tame t sid : tame (close_worker t sid).
Proof. intros mine. unfold close_worker. auto 20 with runs. Qed.
#[local] Hint Resolve close_worker_tame : runs.

Lemma stop_transport_tame v : tame (stop_transport v).
Proof. intros mine. unfold stop_transport. auto 20 with runs. Qed.
#[local] Hint Resolve stop_transport_tame : runs.

Lemma session_close_tame v : tame (session_close v).
Proof. intros mine. unfold session_close, session_clear_intent. auto 20 with runs. Qed.

Lemma session_leave_tame v : tame (session_leave v).
Proof. intros mine. unfold session_leave, session_clear_intent, leave_locked. auto 30 with runs. Qed.

Lemma ensure_open_tame : tame ensure_open.
Proof. intros mine. unfold ensure_open. auto with runs. Qed.
#[local] Hint Resolve ensure_open_tame session_leave_tame : runs.

Lemma discover_tame : tame discover.
Proof. intros mine. unfold discover. auto 20 with runs. Qed.

Lemma current_control_tame : tame current_control.
Proof. intros mine. unfold current_control. auto 20 with runs. Qed.
#[local] Hint Resolve discover_tame current_control_tame : runs.

Lemma login_tame request : tame (sdk_login request).
Proof. intros mine. unfold sdk_login. auto 20 with runs. Qed.

Lemma presence_tame presence : tame (sdk_set_presence presence).
Proof. intros mine. unfold sdk_set_presence. auto 20 with runs. Qed.

Lemma send_tame v stream payload : tame (session_send v stream payload).
Proof. intros mine. unfold session_send. auto with runs. Qed.

Lemma report_tame r : tame (report r).
Proof. intros mine. unfold report. auto with runs. Qed.

Lemma abort_tame l : tame (abort_tasks l).
Proof. intros mine. induction l; cbn [abort_tasks]; auto with runs. Qed.
End plain.

#[export] Hint Resolve harmless_remove_key close_worker_tame stop_transport_tame session_close_tame
  session_leave_tame ensure_open_tame discover_tame current_control_tame login_tame presence_tame
  send_tame report_tame abort_tame : runs.

Section joining.
Context {V : Type} `{Base64Lib}.
Context (auto_rejoin_voice : bool).
Abbreviation act A := (prog (St:=ClientInner V) (Lock:=Gate) (Q:=Query) (Answer:=Answer V) A).
Abbreviation gated p := (∀ mine, runs (V:=V) voice_side mine p mine).

Lemma tame_gated {A} (p : act A) : (∀ mine, runs harmless mine p mine) → gated p.
Proof. intros Hp mine. eapply runs_mono; [|apply Hp]. apply harmless_voice_side. Qed.

Lemma close_worker_gated t sid : gated (close_worker t sid).
Proof. apply tame_gated, close_worker_tame. Qed.
Lemma stop_transport_gated v : gated (stop_transport v).
Proof. apply tame_gated, stop_transport_tame. Qed.
Lemma discover_gated : gated discover.
Proof. apply tame_gated, discover_tame. Qed.
#[local] Hint Resolve close_worker_gated stop_transport_gated discover_gated : runs.

Lemma connect_cache_gated config : gated (connect_with_key_cache config).
Proof.
  intros mine. unfold connect_with_key_cache.
  assert (voice_side (V:=V) (λ s, (let '(r, keys) := admit_key config (ci_key_cache s) in (r, set_keys keys s)).2)).
  { by split; intros s; destruct (admit_key config (ci_key_cache s)). }
  auto 20 with runs.
Qed.
#[local] Hint Resolve connect_cache_gated : runs.

Lemma install_gated session request reuse : gated (install_session auto_rejoin_voice session request reuse).
Proof. intros mine. unfold install_session, session_close_transport. auto 30 with runs. Qed.
#[local] Hint Resolve install_gated : runs.

Lemma start_gated channel_id request control id generation m codec response :
  gated (start_session auto_rejoin_voice channel_id request control id generation m codec response).
Proof. intros mine. unfold start_session. auto 40 with runs. Qed.
#[local] Hint Resolve start_gated : runs.

(** What [join_voice] does once it has its control connection. *)
Definition join_rest (channel_id : Z) (request : VoiceJoinRequest) (control : nat) : act (result SdkError VoiceSession) :=
  let> live := read (is_live control) in
  if negb live then raise ControlNotLive
  else
    try> m := discover in
    try> codec := Ret (ok_or CodecUnavailable (head (codecs m))) in
    let> live := read (is_live control) in
    if negb live then raise ControlNotLive
    else
      let> id := read (control_id control) in
      try> id := Ret (ok_or VoiceControlUnavailable id) in
      let> generation := read ci_generation in
      try> response := map_error SdkHttp (call (QJoin channel_id request id)) in
      start_session auto_rejoin_voice channel_id request control id generation m codec response.

Lemma join_rest_gated channel_id request control : gated (join_rest channel_id request control).
Proof. intros mine. unfold join_rest. auto 40 with runs. Qed.
End joining.

(** ** Operations under rely *)

Section verified.
Context {V : Type} `{Base64Lib}.
Context (auto_rejoin_voice : bool).
Abbreviation act A := (prog (St:=ClientInner V) (Lock:=Gate) (Q:=Query) (Answer:=Answer V) A).
Abbreviation St := (ClientInner V).
Abbreviation Config := (SdkProgram.Config (St:=St) (Lock:=Gate)).
Abbreviation guarantee := (SdkProgram.guarantee (St:=St) (Lock:=Gate) rely).
Abbreviation wp := (SdkProgram.wp (St:=St) (Lock:=Gate) (Q:=Query) (Answer:=Answer V) answer_any rely).
Implicit Types (c : Config) (can : Gate → Prop).

(** The mutexes that any call may take. *)
Definition ordinary can : Prop := ∀ l, l ≠ ShutdownGate → can l.

Definition done_any {A} : A → Config → Prop := λ _ _, True.

Lemma wp_ret {A} can k (a : A) (post : A → Config → Prop) c :
  (∀ c', rely k c c' → post a c') → wp can k (Ret a) post c.
Proof. done. Qed.

Lemma wp_tame {A} can k base (p : act A) c :
  ordinary can → (∀ mine, runs harmless mine p mine) → holds k base c →
  wp can k p (λ _ c, holds k base c) c.
Proof.
  intros Hcan Hp Hb. eapply wp_mono;
    [done| |exact (wp_runs can k base (λ _, True) harmless p c (kept_plain k base) Hcan (Hp []) Hb I)].
  by intros a c' [].
Qed.

Lemma wp_anything {A} can k (p : act A) c :
  ordinary can → (∀ mine, runs harmless mine p mine) → wp can k p done_any c.
Proof.
  intros Hcan Hp. eapply wp_mono; [done| |apply (wp_tame can k []); [done|done|]]; [done|].
  by intros l s ?%elem_of_nil.
Qed.

Lemma wp_seq {A B} can k (p : act A) (m : A → act B) post c :
  wp can k p (λ a c, wp can k (m a) post c) c → wp can k (bind p m) post c.
Proof. exact (wp_bind answer_any rely can k p m post c). Qed.

Lemma wp_read {A B} can k (f : St → A) (m : A → act B) post c :
  (∀ c', rely k c c' → wp can k (m (f (shared c'))) post c') → wp can k (bind (read f) m) post c.
Proof.
  intros Hm c' Hr. split; [intros j _; by apply harmless_rely; split|]. destruct c' as [s h]. exact (Hm _ Hr).
Qed.

Lemma wp_modify {B} can k (f : St → St) (m : unit → act B) post c :
  (∀ c', rely k c c' → guarantee k c' (update f c') ∧ wp can k (m tt) post (update f c')) →
  wp can k (bind (modify f) m) post c.
Proof. done. Qed.

(** A section: what [m] leaves, and the other tasks make of it while [l] is held, must
    give [post] once [l] is free. *)
Lemma wp_locked {A} can k l (m : act A) post c :
  l ≠ ShutdownGate → can l →
  (∀ c', rely k c c' → held c' !! l = None →
     wp can k m (λ a c, (∃ s, held c !! l = Some (k, s)) ∧
                        ∀ c2 c3, rely k c c2 → rely k (release l c2) c3 → post a c3)
       (acquire l k c')) →
  wp can k (with_lock l m) post c.
Proof.
  intros Hl Hcan Hm c' Hr. split; [done|]. intros Hfree. split; [by apply acquire_guarantee|].
  change (wp can k (bind m (λ a, Release l (Ret a))) post (acquire l k c')).
  apply wp_seq. refine (wp_mono _ _ can can k m _ _ _ (λ _ H, H) _ (Hm c' Hr Hfree)).
  intros a c1 [[s Hs] Hpost] c2 Hr2.
  assert (held c2 !! l = Some (k, s)) as Hs2 by (by apply (rely_mine _ _ _ Hr2)).
  split; [by eapply release_guarantee|]. intros c3 Hr3. by eapply Hpost.
Qed.

Lemma wp_try {A E B} can k (p : act (result E A)) (m : A → act (result E B)) c :
  wp can k p done_any c → (∀ a c', wp can k (m a) done_any c') → wp can k (try_bind p m) done_any c.
Proof.
  intros Hp Hm. apply wp_seq. eapply wp_mono; [done| |done]. intros [a|e] c' _; [apply Hm|done].
Qed.

Lemma wp_done_bind {A B} can k (p : act A) (m : A → act B) c :
  wp can k p done_any c → (∀ a c', wp can k (m a) done_any c') → wp can k (bind p m) done_any c.
Proof. intros Hp Hm. apply wp_seq. eapply wp_mono; [done| |done]. intros a c' _. apply Hm. Qed.

(** A section whose result does not matter, entered with the state that [l] was taken in. *)
Lemma wp_section {A} can k l (m : act A) c :
  l ≠ ShutdownGate → ordinary can →
  (∀ c', holds k [(l, shared c')] c' →
     wp can k m (λ _ c, holds k [(l, shared c')] c) c') →
  wp can k (with_lock l m) done_any c.
Proof.
  intros Hl Hcan Hm. apply wp_locked; [done|by apply Hcan|]. intros c' Hr Hfree.
  assert (holds k [(l, shared (acquire l k c'))] (acquire l k c')) as Hh.
  { intros i s Hi%list_elem_of_singleton. injection Hi as -> ->. cbn. by rewrite lookup_insert_eq. }
  eapply wp_mono; [done| |by apply Hm]. intros a c1 Hh1. split; [|done].
  eexists. apply Hh1. by constructor.
Qed.

(** *** Joining *)

Lemma wp_gated {A} can k s0 (p : act A) c :
  ordinary can → ci_stopped s0 = false ∨ is_Some (ci_voice s0) →
  (∀ mine, runs voice_side mine p mine) → holds k [(VoiceGate, s0)] c →
  wp can k p (λ _ c, holds k [(VoiceGate, s0)] c) c.
Proof.
  intros Hcan Hopen Hp Hb.
  eapply wp_mono; [done| |exact (wp_runs can k _ (λ _, True) voice_side p c (kept_voice k s0 Hopen) Hcan (Hp []) Hb I)].
  by intros a c' [].
Qed.

(** [ensure_open] lets on only a client that was open whenever it was looked at before. *)
Lemma wp_ensure_open {B} can k (m : unit → act (result SdkError B)) post c :
  (∀ c', rely k c c' → ci_stopped (shared c') = false → wp can k (m tt) post c') →
  (∀ c' e, rely k c c' → post (Err e) c') →
  wp can k (try_bind ensure_open m) post c.
Proof.
  intros Hm Hpost. apply wp_read. intros c' Hr. destruct (ci_stopped (shared c')) eqn:Hs; [|by apply Hm].
  intros c2 Hr2. apply Hpost. by trans c'.
Qed.

Lemma join_voice_ok can k channel_id request c :
  ordinary can → wp can k (join_voice auto_rejoin_voice channel_id request) done_any c.
Proof.
  intros Hcan. apply wp_try; [apply wp_anything; [done|apply ensure_open_tame]|]. intros _ c'.
  apply wp_section; [done|done|]. clear c c'. intros c Hh.
  apply wp_seq, wp_ensure_open.
  - intros c' Hr Hopen.
    assert (ci_stopped (shared c) = false) as Hopen0.
    { apply not_true_is_false. intros Hs. apply (rely_stopped _ _ _ Hr) in Hs. congruence. }
    eapply wp_mono; [done| |apply (wp_tame can k [(VoiceGate, shared c)]); [done| |by eapply holds_rely]].
    + intros [control|e] c1 Hh1; [|intros c2 Hr2; by eapply holds_rely].
      apply (wp_gated can k (shared c) (join_rest auto_rejoin_voice channel_id request control));
        [done|by left|apply join_rest_gated|done].
    + intros mine. auto 20 with runs.
  - intros c' e Hr c2 Hr2. eapply holds_rely; [|exact Hh]. by trans c'.
Qed.

(** *** Taking the session *)

Lemma clear_voice_facts t c : fact t c → fact t (update (set_voice None) c).
Proof. destruct t; cbn; unfold voice_sealed, control_sealed; cbn; naive_solver. Qed.

Lemma clear_voice_guarantee k s0 c :
  held c !! VoiceGate = Some (k, s0) → guarantee k c (update (set_voice None) c).
Proof.
  intros Hg. apply update_guarantee; [done|right; by exists s0|by left|]. intros t. apply clear_voice_facts.
Qed.

(** A piece that may take the session out. *)
Definition takes (f : St → option VoiceSession * St) : Prop :=
  ∀ s, ((f s).2 = set_voice None s ∨ f s = (None, s)) ∧ ((f s).1 = None ∨ (f s).1 = ci_voice s).

Lemma takes_guarantee k s0 f c :
  takes f → held c !! VoiceGate = Some (k, s0) → guarantee k c (update (λ s, (f s).2) c).
Proof.
  intros Hf Hg. destruct (Hf (shared c)) as [[He|He] _].
  - unfold update. rewrite He. exact (clear_voice_guarantee k s0 c Hg).
  - unfold update. rewrite He. destruct c as [s h]. intros j _. reflexivity.
Qed.

(** The session taken was there when the voice gate was taken. *)
Lemma wp_take can k s0 f c :
  ordinary can → takes f → holds k [(VoiceGate, s0)] c → ci_voice (shared c) = ci_voice s0 →
  wp can k (with_lock VoiceLock (atomically f))
    (λ r c, holds k [(VoiceGate, s0)] c ∧ (is_Some r → is_Some (ci_voice s0))) c.
Proof.
  intros Hcan Hf Hh Hv. apply wp_locked; [done|by apply Hcan|]. intros c1 Hr1 Hfree.
  set (c2 := acquire VoiceLock k c1).
  assert (holds k [(VoiceGate, s0)] c1) as Hh1 by (by eapply holds_rely).
  assert (held c1 !! VoiceGate = Some (k, s0)) as Hg1 by (apply Hh1; by constructor).
  assert (ci_voice (shared c1) = ci_voice s0) as Hv1.
  { rewrite <- Hv. apply (rely_voice _ _ _ Hr1 s0), Hh. by constructor. }
  assert (held c2 !! VoiceGate = Some (k, s0)) as Hg2 by (cbn; by rewrite lookup_insert_ne).
  intros c3 Hr3. assert (held c3 !! VoiceGate = Some (k, s0)) as Hg3 by (by apply (rely_mine _ _ _ Hr3)).
  assert (held c3 !! VoiceLock = Some (k, shared c1)) as Hl3.
  { apply (rely_mine _ _ _ Hr3). cbn. by rewrite lookup_insert_eq. }
  split; [by eapply takes_guarantee|]. intros c4 Hr4. split.
  { exists (shared c1). by apply (rely_mine _ _ _ Hr4). }
  intros c5 c6 Hr5 Hr6. split.
  - intros l s [= -> ->]%list_elem_of_singleton. apply (rely_mine _ _ _ Hr6). cbn.
    rewrite lookup_delete_ne by done. by apply (rely_mine _ _ _ Hr5), (rely_mine _ _ _ Hr4).
  - assert (ci_voice (shared c3) = ci_voice s0) as <- by (rewrite (rely_voice _ _ _ Hr3 s0 Hg2); exact Hv1).
    destruct (Hf (shared c3)) as [_ [-> | ->]]; [by intros []|done].
Qed.

Lemma take_current_takes : takes (λ s, (ci_voice s, set_voice None s)).
Proof. intros s. split; [by left|by right]. Qed.

Lemma take_session_takes expected : takes (take_session expected).
Proof.
  intros s. unfold take_session. destruct (ci_voice s) as [v|]; [|split; [by right|by left]].
  destruct (match expected with Some g => _ | None => true end); split; [by left|by right|by right|by left].
Qed.

Lemma leave_voice_ok can k c : ordinary can → wp can k leave_voice done_any c.
Proof.
  intros Hcan. apply wp_try; [apply wp_anything; [done|apply ensure_open_tame]|]. intros _ c1.
  apply wp_done_bind; [apply wp_anything; [done|intros mine; apply runs_modify; by split]|]. intros _ c2.
  apply wp_section; [done|done|]. clear c c1 c2. intros c Hh. apply wp_seq.
  eapply wp_mono; [done| |apply (wp_take can k (shared c) _ c Hcan take_current_takes Hh eq_refl)].
  intros session c1 [Hh1 Hs]. destruct session as [session|]; [|intros c2 Hr2; by eapply holds_rely].
  apply wp_gated; [done|right; by apply Hs| |done].
  intros mine. apply runs_then; [apply tame_gated, session_leave_tame|]. intros r. auto 20 with runs.
Qed.

Lemma stop_voice_ok can k expected c : ordinary can → wp can k (stop_voice_transport_for expected) done_any c.
Proof.
  intros Hcan. apply wp_section; [done|done|]. clear c. intros c Hh. apply wp_seq.
  eapply wp_mono; [done| |apply (wp_take can k (shared c) _ c Hcan (take_session_takes expected) Hh eq_refl)].
  intros session c1 [Hh1 _]. apply wp_tame; [done| |done].
  intros mine. destruct session; [apply stop_transport_tame|by apply runs_ret].
Qed.

(** *** The relay *)

Lemma clear_intent_tame mine : runs (V:=V) harmless mine clear_voice_intent mine.
Proof. apply runs_modify. by split. Qed.

Lemma rejoin_ok can k c : ordinary can → wp can k (rejoin_voice_if_configured auto_rejoin_voice) done_any c.
Proof.
  intros Hcan. unfold rejoin_voice_if_configured. destruct auto_rejoin_voice eqn:Ha; [|done]. cbn [negb].
  apply wp_read. intros c1 _. destruct (ci_voice_intent (shared c1)) as [intent|]; [|done].
  apply wp_done_bind; [rewrite <- Ha; by apply join_voice_ok|]. intros [v|e] c2; [done|].
  apply wp_anything; [done|]. intros mine. apply runs_then; [apply clear_intent_tame|done].
Qed.

Lemma react_ok can k generation e c : ordinary can → wp can k (react auto_rejoin_voice generation e) done_any c.
Proof.
  intros Hcan. unfold react. apply wp_done_bind.
  { apply wp_anything; [done|]. intros mine. case_match; [apply clear_intent_tame|done]. }
  intros _ c1. apply wp_done_bind.
  { case_match; [|done]. apply wp_done_bind; [by apply stop_voice_ok|]. intros r c2.
    apply wp_anything; [done|apply report_tame]. }
  intros _ c2. case_match; [|done]. apply wp_done_bind; [by apply rejoin_ok|]. intros r c3.
  apply wp_anything; [done|apply report_tame].
Qed.

Lemma emit_tame e mine : runs (V:=V) harmless mine (modify (emit e)) mine.
Proof. apply runs_modify. by split. Qed.

Lemma turn_ok can k connection generation c :
  ordinary can → wp can k (relay_turn auto_rejoin_voice connection generation) done_any c.
Proof.
  intros Hcan. unfold relay_turn. apply wp_done_bind; [by apply wp_anything|]. intros [] c1; [|done].
  apply wp_read. intros c2 _. case_match; [done|].
  apply wp_done_bind; [by apply wp_anything|]. intros [e|missed|] c3; [| |done].
  - apply wp_done_bind; [apply wp_anything; [done|apply emit_tame]|]. intros _ c4.
    apply wp_done_bind; [by apply wp_anything|]. intros [] c5; [|done].
    apply wp_read. intros c6 _. case_match; [done|]. apply wp_done_bind; [by apply react_ok|done].
  - apply wp_done_bind; [apply wp_anything; [done|apply emit_tame]|done].
Qed.

Lemma relay_ok can k turns connection generation c :
  ordinary can → wp can k (relay_realtime_events auto_rejoin_voice turns connection generation) done_any c.
Proof.
  intros Hcan. revert c. induction turns as [|turns IH]; intros c; [done|].
  apply wp_done_bind; [by apply turn_ok|]. intros [] c1; [apply IH|done].
Qed.

(** *** Connecting *)

Lemma clear_control_facts t c : fact t c → fact t (update (set_control None) c).
Proof. destruct t; cbn; unfold voice_sealed, control_sealed; cbn; naive_solver. Qed.

Lemma clear_control_guarantee k s0 c :
  held c !! ControlLock = Some (k, s0) → guarantee k c (update (set_control None) c).
Proof.
  intros Hg. apply update_guarantee; [done|by left|right; by exists s0|]. intros t. apply clear_control_facts.
Qed.

(** A client that was stopped when the lock was taken still is. *)
Definition still_stopped (s0 : St) c : Prop := ci_stopped s0 = true → ci_stopped (shared c) = true.

Lemma kept_stopped k base s0 : kept k base (still_stopped s0) (harmless (V:=V)).
Proof.
  split; [|intros f c Hf _ Hs|done|done].
  - intros c c' Hr _ Hs H0. by apply (rely_stopped _ _ _ Hr), Hs.
  - split; [intros j _; by apply harmless_rely|]. intros H0. cbn. rewrite (harmless_stopped _ Hf). by apply Hs.
Qed.

Lemma wp_controlled {A} can k s0 (p : act A) c :
  ordinary can → ci_stopped s0 = false → (∀ mine, runs control_side mine p mine) →
  holds k [(ControlLock, s0)] c → wp can k p (λ _ c, holds k [(ControlLock, s0)] c) c.
Proof.
  intros Hcan Hopen Hp Hb.
  eapply wp_mono; [done| |exact (wp_runs can k _ (λ _, True) control_side p c (kept_control k s0 Hopen) Hcan (Hp []) Hb I)].
  by intros a c' [].
Qed.

Lemma install_ok can k s0 connection c :
  ordinary can → holds k [(ControlLock, s0)] c → still_stopped s0 c →
  wp can k (install_connection connection) (λ _ c, holds k [(ControlLock, s0)] c) c.
Proof.
  intros Hcan Hh Hs. apply wp_read. intros c1 Hr1.
  assert (holds k [(ControlLock, s0)] c1) as Hh1 by (by eapply holds_rely).
  destruct (ci_stopped (shared c1)) eqn:H1.
  - apply wp_tame; [done| |done]. intros mine. auto 20 with runs.
  - apply (wp_controlled can k s0); [done| | |done].
    + apply not_true_is_false. intros H0. pose proof (rely_stopped _ _ _ Hr1 (Hs H0)). congruence.
    + intros mine. unfold spawn_event_relay.
      assert (control_side (V:=V) (λ s, (next_generation s).2)) by (by split).
      auto 30 with runs.
Qed.

Lemma connect_locked_ok can k own c :
  ordinary can → holds k [(ControlLock, shared c)] c →
  wp can k (connect_locked own) (λ _ c', holds k [(ControlLock, shared c)] c') c.
Proof.
  intros Hcan Hh. set (s0 := shared c) in *. apply wp_read. intros c1 Hr1.
  assert (holds k [(ControlLock, s0)] c1) as Hh1 by (by eapply holds_rely).
  assert (still_stopped s0 c1) as Hs1 by exact (rely_stopped _ _ _ Hr1).
  destruct (ci_control (shared c1) ≫= _); [intros c2 Hr2; by eapply holds_rely|].
  apply wp_modify. intros c2 Hr2.
  pose proof (holds_rely _ _ _ _ Hr2 Hh1) as Hh2.
  assert (still_stopped s0 c2) as Hs2 by (intros H0; by apply (rely_stopped _ _ _ Hr2), Hs1).
  split; [apply (clear_control_guarantee k s0), Hh2; by constructor|].
  apply wp_seq. eapply wp_mono; [done| |
    apply (wp_runs can k [(ControlLock, s0)] (still_stopped s0) harmless
             (map_error SdkRealtime (call (QConnect own))) (update (set_control None) c2)
             (kept_stopped _ _ _) Hcan); [|exact Hh2|exact Hs2]; by apply (runs_map_error (V:=V)), runs_call].
  intros [view|e] c3 [Hh3 Hs3]; [|intros c4 Hr4; by eapply holds_rely].
  apply wp_seq. eapply wp_mono; [done| |
    apply (wp_runs can k [(ControlLock, s0)] (still_stopped s0) harmless
             (atomically (register view)) c3 (kept_stopped _ _ _) Hcan); [|exact Hh3|exact Hs3];
    apply runs_atomically; by split].
  intros connection c4 [Hh4 Hs4]. by apply install_ok.
Qed.

Lemma connect_ok can k own c : ordinary can → wp can k (connect own) done_any c.
Proof.
  intros Hcan. apply wp_try; [apply wp_anything; [done|apply ensure_open_tame]|]. intros _ c1.
  apply wp_section; [done|done|]. intros c2 Hh. by apply connect_locked_ok.
Qed.

(** *** Shutting down *)

Definition facts (F : list Fact) c : Prop := ∀ t, t ∈ F → fact t c.

(** Facts are kept by everybody; so is an empty cell whose lock is held. *)
Definition sealing (F : list Fact) (cell : St → Prop) c : Prop :=
  facts F c ∧ ci_stopped (shared c) = true ∧ cell (shared c).

Definition guarded (g : Gate) (cell : St → Prop) : Prop :=
  (∀ k c c' s, rely k c c' → held c !! g = Some (k, s) → cell (shared c) → cell (shared c')) ∧
  (∀ f s, harmless f → cell s → cell (f s)).

Lemma kept_sealing k base g s F cell :
  (g, s) ∈ base → guarded g cell → kept k base (sealing F cell) (harmless (V:=V)).
Proof.
  intros Hg [Hrely Hf]. split.
  - intros c c' Hr Hb (HF & Hs & Hc). split_and!.
    + intros t Ht. by apply (rely_fact _ _ _ Hr), HF.
    + by apply (rely_stopped _ _ _ Hr).
    + eapply Hrely; [done|by apply Hb|done].
  - intros f c Hh _ (HF & Hs & Hc). split; [intros j _; by apply harmless_rely|]. split_and!.
    + intros t Ht. by apply harmless_facts, HF.
    + cbn. by rewrite (harmless_stopped _ Hh).
    + by apply Hf.
  - intros l c Hfree _ (HF & Hs & Hc). split_and!; [|done|done]. intros t Ht. by apply acquire_facts, HF.
  - intros l c _ (HF & Hs & Hc). split_and!; [|done|done]. intros t Ht.
    refine (fewer_facts c (release l c) t eq_refl _ (HF t Ht)). cbn.
    by intros i o s' [_ ?]%lookup_delete_Some.
Qed.

Lemma guarded_voice : guarded VoiceGate (λ s, ci_voice s = None).
Proof.
  split; [|intros f s Hf; by rewrite (harmless_voice _ Hf)].
  intros k c c' s Hr Hg <-. exact (rely_voice _ _ _ Hr s Hg).
Qed.

Lemma guarded_control : guarded ControlLock (λ s, ci_control s = None).
Proof.
  split; [|intros f s Hf; by rewrite (harmless_control _ Hf)].
  intros k c c' s Hr Hg <-. exact (rely_control _ _ _ Hr s Hg).
Qed.

Lemma holds_app k base g s c : holds k (base ++ [(g, s)]) c ↔ holds k base c ∧ held c !! g = Some (k, s).
Proof.
  split.
  - intros Hh. split; [intros l t Hl; apply Hh, elem_of_app; by left|].
    apply Hh, elem_of_app. right. by constructor.
  - intros [Hb Hg] l t [Hl|[= -> ->]%list_elem_of_singleton]%elem_of_app; [by apply Hb|done].
Qed.

Lemma holds_acquire k base g c :
  held c !! g = None → holds k base c → holds k (base ++ [(g, shared c)]) (acquire g k c).
Proof.
  intros Hfree Hb. apply holds_app. split; [|cbn; by rewrite lookup_insert_eq].
  intros l s Hl. cbn. rewrite lookup_insert_ne; [by apply Hb|]. intros ->.
  by rewrite (Hb _ _ Hl) in Hfree.
Qed.

Lemma holds_release k base g c : g ∉ base.*1 → holds k base c → holds k base (release g c).
Proof.
  intros Hg Hb l s Hl. cbn. rewrite lookup_delete_ne; [by apply Hb|]. intros ->. apply Hg.
  apply list_elem_of_fmap. by exists (l, s).
Qed.

Lemma free_not_held k base g c : held c !! g = None → holds k base c → g ∉ base.*1.
Proof. intros Hfree Hb ([l s] & -> & Hl)%list_elem_of_fmap. cbn in Hfree. by rewrite (Hb _ _ Hl) in Hfree. Qed.

(** A section that empties the cell of its lock. *)
Lemma wp_seal {A} can k base g F cell t (m : act A) c :
  (∀ l, can l) → g ≠ ShutdownGate → guarded g cell →
  (∀ c, sealing F cell c → held c !! g = None → fact t c) →
  (∀ c', rely k c c' → holds k (base ++ [(g, shared c')]) (acquire g k c') →
     facts F (acquire g k c') → ci_stopped (shared c') = true →
     wp can k m (λ _ c, holds k (base ++ [(g, shared c')]) c ∧ sealing F cell c) (acquire g k c')) →
  holds k base c → facts F c → ci_stopped (shared c) = true →
  wp can k (with_lock g m) (λ _ c, holds k base c ∧ facts (t :: F) c) c.
Proof.
  intros Hcan Hg Hcell Ht Hm Hb HF Hs. apply wp_locked; [done|done|]. intros c1 Hr1 Hfree.
  pose proof (free_not_held _ _ _ _ Hfree (holds_rely _ _ _ _ Hr1 Hb)) as Hgb.
  assert (holds k (base ++ [(g, shared c1)]) (acquire g k c1)) as Hb1.
  { apply holds_acquire; [done|]. by eapply holds_rely. }
  assert (facts F (acquire g k c1)) as HF1.
  { intros t' Ht'. apply acquire_facts; [done|]. by apply (rely_fact _ _ _ Hr1), HF. }
  refine (wp_mono _ _ can can k m _ _ _ (λ _ H, H) _ (Hm c1 Hr1 Hb1 HF1 (rely_stopped _ _ _ Hr1 Hs))).
  intros _ c2 [Hb2 Hs2]. split; [eexists; by apply holds_app in Hb2 as [_ ?]|]. intros c3 c4 Hr3 Hr4.
  assert ((g, shared c1) ∈ base ++ [(g, shared c1)]) as Hin by (apply elem_of_app; right; by constructor).
  pose proof (kept_sealing k _ g (shared c1) F cell Hin Hcell) as Hk.
  pose proof (kept_rely _ _ _ _ Hk _ _ Hr3 Hb2 Hs2) as Hs3.
  pose proof (holds_rely _ _ _ _ Hr3 Hb2) as Hb3.
  pose proof (kept_release _ _ _ _ Hk g _ Hb3 Hs3) as Hs3'.
  split.
  - eapply holds_rely; [done|]. apply holds_release; [done|]. by apply holds_app in Hb3 as [? _].
  - intros t' [->|Ht']%elem_of_cons; apply (rely_fact _ _ _ Hr4).
    + apply Ht; [done|]. cbn. by rewrite lookup_delete_eq.
    + by apply Hs3'.
Qed.

Lemma wp_tame_sealing {A} can k base g s F cell (p : act A) c :
  (∀ l, can l) → (g, s) ∈ base → guarded g cell → (∀ mine, runs harmless mine p mine) →
  holds k base c → sealing F cell c → wp can k p (λ _ c, holds k base c ∧ sealing F cell c) c.
Proof.
  intros Hcan Hg Hcell Hp Hb Hs.
  by apply (wp_runs can k base (sealing F cell) harmless p c (kept_sealing k base g s F cell Hg Hcell)).
Qed.

(** Emptying the cell, then working on with it empty. *)
Lemma wp_clear {A B} can k base g s F cell (f : St → A * St) (m : A → act B) c :
  (∀ l, can l) → (g, s) ∈ base → guarded g cell → (∀ a mine, runs harmless mine (m a) mine) →
  (∀ c, held c !! g = Some (k, s) →
     guarantee k c (update (λ s, (f s).2) c) ∧ ci_stopped ((f (shared c)).2) = ci_stopped (shared c) ∧
     cell ((f (shared c)).2) ∧ ∀ t, fact t c → fact t (update (λ s, (f s).2) c)) →
  holds k base c → facts F c → ci_stopped (shared c) = true →
  wp can k (bind (atomically f) m) (λ _ c, holds k base c ∧ sealing F cell c) c.
Proof.
  intros Hcan Hg Hcell Hm Hf Hb HF Hs c1 Hr1.
  pose proof (holds_rely _ _ _ _ Hr1 Hb) as Hb1. destruct (Hf c1 (Hb1 _ _ Hg)) as (Hg1 & Hs1 & Hc1 & Ht1).
  split; [done|]. apply (wp_tame_sealing can k base g s); [done|done|done|intros mine; apply Hm|exact Hb1|].
  split_and!; [|cbn; rewrite Hs1; by apply (rely_stopped _ _ _ Hr1)|done].
  intros t Ht. by apply Ht1, (rely_fact _ _ _ Hr1), HF.
Qed.

Lemma elem_of_last {A} (x : A) l : x ∈ l ++ [x].
Proof. apply elem_of_app. right. by constructor. Qed.

(** The voice section takes the session under both locks. *)
Lemma shutdown_voice_ok can k base c :
  (∀ l, can l) → holds k base c → ci_stopped (shared c) = true →
  wp can k shutdown_voice (λ _ c, holds k base c ∧ facts [VoiceSealed] c) c.
Proof.
  intros Hcan Hb Hs.
  apply (wp_seal can k base VoiceGate [] (λ s, ci_voice s = None)); [done|done|apply guarded_voice| | |done| |done].
  { intros c1 (_ & H1 & H2) Hfree. split_and!; [done|done|]. intros j s. by rewrite Hfree. }
  2:{ by intros t ?%elem_of_nil. }
  intros c1 _ Hb1 HF Hs1. clear c Hb Hs. set (base2 := base ++ [(VoiceGate, shared c1)]) in *.
  apply wp_locked; [done|done|]. intros c2 Hr2 Hfree.
  pose proof (holds_rely _ _ _ _ Hr2 Hb1) as Hb2. pose proof (free_not_held _ _ _ _ Hfree Hb2) as Hn.
  set (base3 := base2 ++ [(VoiceLock, shared c2)]).
  assert (holds k base3 (acquire VoiceLock k c2)) as Hb3 by (by apply holds_acquire).
  assert ((VoiceGate, shared c1) ∈ base2) as Hin2 by apply elem_of_last.
  assert ((VoiceGate, shared c1) ∈ base3) as Hin by (apply elem_of_app; by left).
  refine (wp_mono _ _ can can k _ _ _ _ (λ _ H, H) _
    (wp_clear can k base3 VoiceGate (shared c1) [] (λ s, ci_voice s = None) _ _ _ Hcan Hin guarded_voice _ _ Hb3 _ _)).
  - intros r c3 [Hb4 Hs4]. pose proof (proj1 (holds_app _ _ _ _ _) Hb4) as [Hb4' Hl4].
    split; [by eexists|]. intros c4 c5 Hr4 Hr5.
    pose proof (kept_sealing k base2 VoiceGate (shared c1) [] _ Hin2 guarded_voice) as Hk.
    pose proof (kept_rely _ _ _ _ Hk _ _ Hr4 Hb4' Hs4) as Hs5.
    pose proof (holds_rely _ _ _ _ Hr4 Hb4') as Hb5.
    pose proof (holds_release _ _ _ _ Hn Hb5) as Hb6. split; [by eapply holds_rely|].
    exact (kept_rely _ _ _ _ Hk _ _ Hr5 Hb6 (kept_release _ _ _ _ Hk VoiceLock _ Hb5 Hs5)).
  - intros [session|] mine; [|apply runs_ret]. apply runs_then; [apply stop_transport_tame|]. intros r. apply runs_ret.
  - intros c3 Hg. split_and!; [by eapply clear_voice_guarantee|done|done|]. intros t. apply clear_voice_facts.
  - by intros t ?%elem_of_nil.
  - exact (rely_stopped _ _ _ Hr2 Hs1).
Qed.

Lemma shutdown_control_ok can k base first_error c :
  (∀ l, can l) → holds k base c → facts [VoiceSealed] c →
  wp can k (shutdown_control first_error) (λ _ c, holds k base c ∧ facts [ControlSealed; VoiceSealed] c) c.
Proof.
  intros Hcan Hb HF. assert (ci_stopped (shared c) = true) as Hs.
  { destruct (HF VoiceSealed) as (? & _ & _); [by constructor|done]. }
  apply (wp_seal can k base ControlLock _ (λ s, ci_control s = None)); [done|done|apply guarded_control| | |done|done|done].
  { intros c1 (_ & H1 & H2) Hfree. split_and!; [done|done|]. intros j s. by rewrite Hfree. }
  intros c1 _ Hb1 HF1 Hs1.
  apply (wp_clear can k _ ControlLock (shared c1)); [done|apply elem_of_last|apply guarded_control| | |done|done|done].
  - intros [control|] mine; [|apply runs_ret]. apply runs_then; [by apply runs_map_error, runs_call|].
    intros r. apply runs_ret.
  - intros c3 Hg. split_and!; [by eapply clear_control_guarantee|done|done|]. intros t. apply clear_control_facts.
Qed.

(** A piece that establishes one more fact. *)
Lemma wp_establish {A} can k base F t (f : St → St) (m : unit → act A) post c :
  harmless f → (∀ c, facts F c → fact t (update f c)) → holds k base c → facts F c →
  (∀ c, holds k base c → facts (t :: F) c → wp can k (m tt) post c) →
  wp can k (bind (modify f) m) post c.
Proof.
  intros Hf Ht Hb HF Hm. apply wp_modify. intros c1 Hr1.
  assert (facts F c1) as HF1 by (intros t' Ht'; by apply (rely_fact _ _ _ Hr1), HF).
  split; [intros j _; by apply harmless_rely|]. apply Hm; [exact (holds_rely _ _ _ _ Hr1 Hb)|].
  intros t' [->|Ht']%elem_of_cons; [by apply Ht|by apply harmless_facts, HF1].
Qed.

(** Programs of harmless pieces keep the facts. *)
Lemma kept_facts k base F : kept k base (facts F) (harmless (V:=V)).
Proof.
  split.
  - intros c c' Hr _ HF t Ht. by apply (rely_fact _ _ _ Hr), HF.
  - intros f c Hf _ HF. split; [intros j _; by apply harmless_rely|]. intros t Ht. by apply harmless_facts, HF.
  - intros l c Hfree _ HF t Ht. by apply acquire_facts, HF.
  - intros l c _ HF t Ht. refine (fewer_facts c (release l c) t eq_refl _ (HF t Ht)). cbn.
    by intros i o s [_ ?]%lookup_delete_Some.
Qed.

Lemma clear_tasks_ok can k base F c :
  (∀ l, can l) → ControlSealed ∈ F → holds k base c → facts F c →
  wp can k (with_lock TasksLock (atomically (λ s, (ci_tasks s, set_tasks [] s))))
    (λ _ c, holds k base c ∧ facts (TasksCleared :: F) c) c.
Proof.
  intros Hcan Hin Hb HF. apply wp_locked; [done|done|]. intros c1 Hr1 Hfree.
  pose proof (kept_facts k base F) as Hk. pose proof (holds_rely _ _ _ _ Hr1 Hb) as Hb1.
  pose proof (kept_acquire _ _ _ _ Hk _ _ Hfree Hb1 (kept_rely _ _ _ _ Hk _ _ Hr1 Hb HF)) as HF1.
  pose proof (free_not_held _ _ _ _ Hfree Hb1) as Hn.
  pose proof (proj1 (holds_app _ _ _ _ _) (holds_acquire _ _ _ _ Hfree Hb1)) as [Hb2 Hl2].
  intros c2 Hr2. assert (harmless (V:=V) (set_tasks [])) as Hh by (by split).
  pose proof (kept_rely _ _ _ _ Hk _ _ Hr2 Hb2 HF1) as HF2.
  split; [intros j _; by apply harmless_rely|]. intros c3 Hr3. split.
  { eexists. apply (rely_mine _ _ _ Hr3). cbn. apply (rely_mine _ _ _ Hr2). exact Hl2. }
  intros c4 c5 Hr4 Hr5.
  assert (facts (TasksCleared :: F) (update (set_tasks []) c2)) as HF3.
  { intros t [->|Ht]%elem_of_cons; [|by apply harmless_facts, HF2]. split; [|done].
    exact (harmless_facts _ c2 ControlSealed Hh (HF2 _ Hin)). }
  pose proof (kept_facts k base (TasksCleared :: F)) as Hk'.
  assert (holds k base c4) as Hb4.
  { eapply holds_rely; [exact Hr4|]. eapply holds_rely; [exact Hr3|].
    intros l s Hl. exact (holds_rely _ _ _ _ Hr2 Hb2 l s Hl). }
  split; [eapply holds_rely; [exact Hr5|]; by apply holds_release|].
  apply (kept_rely _ _ _ _ Hk' _ _ Hr5 (holds_release _ _ _ _ Hn Hb4)).
  apply (kept_release _ _ _ _ Hk' _ _ Hb4).
  apply (kept_rely _ _ _ _ Hk' _ _ Hr4 (holds_rely _ _ _ _ Hr3 (holds_rely _ _ _ _ Hr2 Hb2))).
  by apply (kept_rely _ _ _ _ Hk' _ _ Hr3 (holds_rely _ _ _ _ Hr2 Hb2)).
Qed.

Lemma teardown_ok can k base c :
  (∀ l, can l) → holds k base c → ci_stopped (shared c) = true →
  wp can k teardown (λ _ c, holds k base c ∧ torn_down c) c.
Proof.
  intros Hcan Hb Hs. apply wp_seq.
  eapply wp_mono; [done| |by apply (shutdown_voice_ok can k base)]. intros e1 c1 [Hb1 HF1].
  apply wp_seq. eapply wp_mono; [done| |by apply (shutdown_control_ok can k base)]. clear c c1 Hb Hs Hb1 HF1.
  intros e2 c [Hb HF].
  eapply (wp_establish can k base _ KeysCleared); [by split| |exact Hb|exact HF|].
  { intros c1 HF1. split; [|done]. apply (harmless_facts _ c1 VoiceSealed); [by split|]. by apply HF1; set_solver. }
  clear c Hb HF. intros c Hb HF.
  eapply (wp_establish can k base _ IntentCleared); [by split| |exact Hb|exact HF|].
  { intros c1 HF1. split; [|done]. apply (harmless_facts _ c1 VoiceSealed); [by split|]. by apply HF1; set_solver. }
  clear c Hb HF. intros c Hb HF.
  eapply (wp_establish can k base _ StateCleared); [by split| |exact Hb|exact HF|].
  { intros c1 HF1. split; [|done]. apply (harmless_facts _ c1 ControlSealed); [by split|]. by apply HF1; set_solver. }
  clear c Hb HF. intros c Hb HF.
  apply wp_seq. eapply wp_mono; [done| |apply (clear_tasks_ok can k base [StateCleared; IntentCleared; KeysCleared; ControlSealed; VoiceSealed] c Hcan); [|exact Hb|exact HF]; set_solver].
  clear c Hb HF. intros tasks c [Hb HF].
  apply wp_seq. eapply wp_mono; [done| |
    apply (wp_runs can k base _ harmless (abort_tasks tasks) c
      (kept_facts k base [TasksCleared; StateCleared; IntentCleared; KeysCleared; ControlSealed; VoiceSealed])
      (λ l _, Hcan l));
    [apply abort_tame|exact Hb|exact HF]].
  clear c Hb HF. intros _ c [Hb HF] c1 Hr1. split; [by eapply holds_rely|].
  intros t. apply (rely_fact _ _ _ Hr1), HF. destruct t; set_solver.
Qed.

Lemma stop_facts t c : fact t c → fact t (update (set_stopped true) c).
Proof. destruct t; cbn; unfold voice_sealed, control_sealed; cbn; naive_solver. Qed.

Lemma swap_guarantee k s0 c :
  held c !! ShutdownGate = Some (k, s0) → (ci_stopped s0 = true → torn_down c) →
  guarantee k c (update (set_stopped true) c).
Proof.
  intros Hg Ht j Hj. split; cbn; [done..| | |].
  - intros s Hl. rewrite Hg in Hl. by injection Hl as [= -> _].
  - intros t. apply stop_facts.
  - intros _ _. destruct (ci_stopped s0) eqn:Hs; [left; intros t; by apply stop_facts, Ht|right; by exists k, s0].
Qed.

Lemma shutdown_ok can k c :
  (∀ l, can l) → stop_ok c → wp can k shutdown (λ _ c, torn_down c) c.
Proof.
  intros Hcan Hok c1 Hr1. split; [done|]. intros Hfree. split; [by apply acquire_guarantee|].
  apply (rely_stop _ _ _ Hr1) in Hok.
  assert (ci_stopped (shared c1) = true → torn_down (acquire ShutdownGate k c1)) as Htd.
  { intros Hs t. apply acquire_facts; [done|]. destruct (Hok Hs) as [Ht|(j & s & Hl & _)]; [apply Ht|].
    by rewrite Hfree in Hl. }
  set (c2 := acquire ShutdownGate k c1) in *.
  assert (holds k [(ShutdownGate, shared c1)] c2) as Hb.
  { intros l s [= -> ->]%list_elem_of_singleton. cbn. by rewrite lookup_insert_eq. }
  refine (wp_seq can k _ (λ a, Release ShutdownGate (Ret a)) (λ _ c, torn_down c) c2 _).
  enough (wp can k (let> stopped := atomically (λ s, (ci_stopped s, set_stopped true s)) in
                    if stopped : bool then Ret (Ok tt) else teardown)
            (λ _ c, holds k [(ShutdownGate, shared c1)] c ∧ torn_down c) c2) as Hbody.
  { refine (wp_mono _ _ can can k _ _ _ _ (λ _ H, H) _ Hbody). intros a c3 [Hb3 Ht3] c4 Hr4.
    pose proof (torn_down_rely _ _ _ Hr4 Ht3) as Ht4.
    pose proof (holds_rely _ _ _ _ Hr4 Hb3 _ _ (list_elem_of_here _ _)) as Hg4.
    split; [by eapply release_guarantee|]. intros c5 Hr5. apply (torn_down_rely _ _ _ Hr5). intros t.
    refine (fewer_facts c4 (release ShutdownGate c4) t eq_refl _ (Ht4 t)). cbn.
    by intros i o s [_ ?]%lookup_delete_Some. }
  intros c3 Hr3. pose proof (holds_rely _ _ _ _ Hr3 Hb) as Hb3.
  pose proof (Hb3 _ _ (list_elem_of_here _ _)) as Hg3.
  assert (ci_stopped (shared c3) = ci_stopped (shared c1)) as Hs3.
  { apply (rely_shutdown _ _ _ Hr3 (shared c1)), Hb. by constructor. }
  split.
  - apply (swap_guarantee k (shared c1)); [done|]. intros Hs. by apply (torn_down_rely _ _ _ Hr3), Htd.
  - cbn [fst]. destruct (ci_stopped (shared c3)) eqn:Hs.
    + intros c4 Hr4. split; [exact (holds_rely _ _ _ _ Hr4 Hb3)|]. apply (torn_down_rely _ _ _ Hr4). intros t.
      apply (stop_facts t c3), (torn_down_rely _ _ _ Hr3), Htd. by rewrite <- Hs3.
    + by apply teardown_ok.
Qed.

(** ** Every operation *)

Definition op_post (op : Op) (_ : Out) c : Prop := op = OpShutdown → torn_down c.

Lemma wp_yield {A} can k (out : A → Out) (m : act A) post c :
  wp can k m (λ _ c, ∀ c', rely k c c' → post c') c → wp can k (yield out m) (λ _ c, post c) c.
Proof. intros Hm. apply wp_seq. eapply wp_mono; [done| |exact Hm]. by intros a c' Hp c2 Hr2; apply Hp. Qed.

Lemma wp_yield_any {A} can k (out : A → Out) (m : act A) op c :
  op ≠ OpShutdown → wp can k m done_any c → wp can k (yield out m) (op_post op) c.
Proof.
  intros Hop Hm. eapply wp_mono; [done| |apply (wp_yield can k out m (λ _, True))].
  - by intros a c' _ Heq.
  - by eapply wp_mono; [done| |exact Hm].
Qed.

Lemma code_ok k op c :
  stop_ok c → wp (holdable op) k (code auto_rejoin_voice op) (op_post op) c.
Proof.
  intros Hok.
  assert (ordinary (holdable op)) as Hcan by (intros l Hl; by right).
  destruct op; cbn [code];
    try (apply wp_yield_any; [done|];
         first [by apply connect_ok|by apply join_voice_ok|by apply leave_voice_ok|by apply relay_ok
               |apply wp_anything; [done|auto with runs]]).
  refine (wp_mono _ _ _ _ k _ _ _ c (λ _ H, H) (λ _ _ H _, H) (wp_yield _ k OutUnit shutdown torn_down c _)).
  eapply wp_mono; [done| |apply shutdown_ok; [by left|done]].
  intros r c1 Ht c2 Hr2. by eapply torn_down_rely.
Qed.

Lemma outside_harmless (s s' : St) : outside s s' → ∃ f, harmless f ∧ s' = f s.
Proof.
  intros [t connections|t sid].
  - exists (set_connections connections). split; [by split|done].
  - exists (remove_key sid). split; [apply harmless_remove_key|done].
Qed.

Lemma operations_verified :
  Verified (code auto_rejoin_voice) cancellable outside answer_any rely op_post holdable stop_ok.
Proof.
  split.
  - intros k c c' Hr. apply (rely_stop _ _ _ Hr).
  - intros k op c _ Hok. by apply code_ok.
  - intros k op c Hc Hh. by eapply release_all_guarantee.
  - intros k c s' Ho. destruct (outside_harmless _ _ Ho) as (f & Hf & ->). by apply harmless_rely.
Qed.

(** A stopped client refuses to connect, to join and to leave without asking anybody. *)
Lemma stopped_refuses {A} (others : St → St → Prop) (m : unit → act (result SdkError A)) s log r s' :
  (∀ s s', others s s' → ci_stopped s = true → ci_stopped s' = true) → ci_stopped s = true →
  outcome others (try_bind ensure_open m) s log r s' → r = Err SdkClosed ∧ log = [].
Proof. intros Ho Hs (s1 & H1 & Hr). rewrite (Ho _ _ H1 Hs) in Hr. by destruct Hr as (-> & _ & ->). Qed.

(** C1: a shutdown is final. Start from a fresh client and let any number of logins, connects,
    joins, leaves, sends, relay tasks and shutdowns run, interleaved at every suspension
    point and dropped at any time, the servers and workers answering anything, except that
    no shutdown has been dropped (what then happens is
    [dropped_shutdown_is_never_finished]). As soon as one shutdown has returned, and ever
    after, the client is stopped, without session, connection, state, remembered intent,
    cached key or relay task; and a later connect, join or leave is refused without a
    request to anybody. *)
Theorem shutdown_is_final w k out :
  rtc (pool_step (code (V:=V) auto_rejoin_voice) any_op outside answer_any)
    (mkPool (mkConfig from_api ∅) []) w →
  no_shutdown_dropped w →
  tasks w !! k = Some (OpShutdown, Some (Ret out)) →
  let s := shared (config w) in
  ci_stopped s = true ∧ ci_voice s = None ∧ ci_control s = None ∧ ci_state s = None ∧
  ci_voice_intent s = None ∧ ci_key_cache s = ∅ ∧ ci_tasks s = [] ∧
  ∀ others : St → St → Prop, (∀ s s', others s s' → ci_stopped s = true → ci_stopped s' = true) →
    (∀ own log r s', outcome others (connect own) s log r s' → r = Err SdkClosed ∧ log = []) ∧
    (∀ channel_id request log r s',
       outcome others (join_voice auto_rejoin_voice channel_id request) s log r s' → r = Err SdkClosed ∧ log = []) ∧
    (∀ log r s', outcome others leave_voice s log r s' → r = Err SdkClosed ∧ log = []).
Proof.
  intros Hsteps Hno Ht. apply undropped_run in Hsteps; [|done]. assert (torn_down (config w)) as Hd.
  { refine (pool_safe _ _ _ _ _ _ _ _ operations_verified _ _ k _ _ _ Hsteps Ht eq_refl).
    by apply pool_ok_init. }
  destruct (Hd KeysCleared) as [(Hs & Hv & _) Hk]. destruct (Hd IntentCleared) as [_ Hi].
  destruct (Hd StateCleared) as [(_ & Hc & _) Hst]. destruct (Hd TasksCleared) as [_ Hta].
  split_and!; try done. intros others Ho. split_and!; intros *; by eapply stopped_refuses.
Qed.
End verified.

(** *** A run: connect, join, shut down. *)

#[local] Existing Instance ToyVoice.base64.

Definition toy_run (k : nat) (op : Op) (c : Config (St:=ClientInner unit) (Lock:=Gate))
    : Config (St:=ClientInner unit) (Lock:=Gate) * Out :=
  default (c, OutRelay) (run_task k ToySdk.answers (code true op) c).
Definition toy_fresh : Config (St:=ClientInner unit) (Lock:=Gate) := mkConfig from_api ∅.
Definition toy_connect := toy_run 0 (OpConnect true) toy_fresh.
Definition toy_join := toy_run 1 (OpJoin 5 ToySdk.request) toy_connect.1.
Definition toy_shutdown := toy_run 2 OpShutdown toy_join.1.

Lemma toy_pool :
  rtc (pool_step (code true) any_op outside answer_any) (mkPool toy_fresh [])
    (mkPool toy_shutdown.1
       [(OpConnect true, Some (Ret toy_connect.2)); (OpJoin 5 ToySdk.request, Some (Ret toy_join.2));
        (OpShutdown, Some (Ret toy_shutdown.2))]).
Proof.
  assert (∀ q, answer_any q (ToySdk.answers q)) as Hok by done.
  etrans; [apply (spawn_run (code true) any_op outside answer_any ToySdk.answers (OpConnect true) toy_fresh toy_connect.1 toy_connect.2 []);
           [done|vm_compute; reflexivity]|].
  etrans; [apply (spawn_run (code true) any_op outside answer_any ToySdk.answers (OpJoin 5 ToySdk.request) _ toy_join.1 toy_join.2);
           [done|vm_compute; reflexivity]|].
  apply (spawn_run (code true) any_op outside answer_any ToySdk.answers OpShutdown _ toy_shutdown.1 toy_shutdown.2);
    [done|vm_compute; reflexivity].
Qed.

Lemma shutdown_is_final_witness :
  ci_voice (shared toy_join.1) ≠ None ∧ ci_voice (shared toy_shutdown.1) = None ∧
  ci_key_cache (shared toy_join.1) ≠ ∅ ∧ ci_key_cache (shared toy_shutdown.1) = ∅.
Proof.
  pose proof (shutdown_is_final true _ 2 toy_shutdown.2 toy_pool ltac:(by intros [|[|[|j]]]) eq_refl) as (_ & Hv & _ & _ & _ & Hk & _).
  split_and!; [by vm_compute|exact Hv| |exact Hk].
  intros Hempty. apply (f_equal size) in Hempty. by vm_compute in Hempty.
Defined.
