(* ===== verification/SdkOutcomes.v ===== *)
(** What single operations of the high-level client achieve among other tasks
    (crates/zephyrvox-sdk/src: voice.rs, voice_api.rs, client.rs, events.rs). [others] are
    the moves of the rest of the client; a task under the voice gate may rely on the
    session staying in place, by [rely_voice] of SdkPool. *)

From stdpp Require Import sorting.
From S2P Require Import Prelude Text Types IpAddr Json Wire ClientModel VoiceTypes VoiceConfig RealtimeTypes.
From S2P Require Import Projection StateStore.
From S2P Require Import HttpTypes HttpDiscovery HttpVoice HttpAuth SdkTypes SdkProgram SdkVoice SdkClient.

(** ** The negotiation *)

Section negotiation.
Context `{Base64Lib}.

(** The stream types of validated metadata make an allowed set. *)
Lemma metadata_streams m config :
  validate_metadata m = Ok tt →
  ∃ config', with_stream_types config (VoiceStreamType_id <$> voice_stream_types m) = Ok config'.
Proof.
  intros Hm. apply validate_metadata_ok in Hm as (_ & _ & _ & _ & _ & Hne & Hs).
  apply streams_valid_spec in Hs as [Hs _].
  unfold with_stream_types.
  set (values := dedup_adjacent (merge_sort (≤) (VoiceStreamType_id <$> voice_stream_types m))).
  assert (∀ t, t ∈ values ↔ t ∈ VoiceStreamType_id <$> voice_stream_types m) as Hin.
  { intros t. unfold values. by rewrite elem_of_dedup_adjacent, merge_sort_Permutation. }
  assert (len values =? 0 = false) as ->.
  { apply Z.eqb_neq. intros H0. destruct (voice_stream_types m) as [|t l]; [done|].
    assert (VoiceStreamType_id t ∈ values) as Ht by (apply Hin; by constructor).
    unfold len in H0. destruct values; [by apply elem_of_nil in Ht|done]. }
  assert (existsb StreamTypeId.is_heartbeat values = false) as ->; [|by eexists].
  apply existsb_false, Forall_forall. intros t Ht. apply Hin in Ht as (s & -> & Hin')%list_elem_of_fmap.
  rewrite Forall_forall in Hs. destruct (Hs s Hin') as [Hv _]. unfold valid_stream in Hv.
  apply andb_true_iff in Hv as [[Hv _]%andb_true_iff _]. by apply negb_true_iff.
Qed.

Lemma metadata_endpoint m : validate_metadata m = Ok tt → validate_endpoint (voice_endpoint m) = Ok tt.
Proof.
  intros Hm. apply validate_metadata_ok in Hm as (Hh & Hp & _).
  apply valid_host_usable in Hh as [Hb Hi]. unfold validate_endpoint. rewrite Hb, Hi.
  by destruct (Z.eqb_spec (VoiceEndpoint_port (voice_endpoint m)) 0).
Qed.

Lemma agreed_key n :
  key_agreed n → ∃ key, decode_session_key (vn_encrypted n) (vn_created n) (vn_key n) = Ok key ∧
    (vn_encrypted n = false → key = None) ∧ (is_Some key ↔ vn_encrypted n && vn_created n = true).
Proof.
  unfold key_agreed, decode_session_key. intros Hk.
  destruct (vn_encrypted n), (vn_created n); cbn in Hk; try (rewrite Hk; exists None; split_and!; [done|done|by split; [intros []|]]).
  destruct Hk as (text & key & -> & Hd & Hl). rewrite Hd. cbn. unfold SessionKey.from_slice. rewrite Hl. cbn.
  exists (Some key). split_and!; [done|done|]. split; [done|by eexists].
Qed.

(** The crates agree on a negotiation. Metadata that passed discovery and a join response
    that passed validation always make a voice session configuration: the checks that
    the high-level client repeats cannot fail. The configuration is well formed, carries a
    key exactly when a new encrypted session was made, allows exactly the advertised
    streams, and is encrypted when the server card is TLS. *)
Theorem join_negotiation_total (m : Metadata) (channel_id : Z) (response : VoiceJoinResponse) (tls : bool) :
  let n := join_voice_negotiation response in
  0 ≤ vn_max_payload n → validate_metadata m = Ok tt →
  validate_voice_join channel_id response tls = Ok tt →
  ∃ config, negotiated_config m n = Ok config ∧ config_ok config ∧
    cfg_session_id config = vn_session_id n ∧ (tls = true → cfg_encrypted config = true) ∧
    (is_Some (cfg_session_key config) ↔ vn_encrypted n && vn_created n = true) ∧
    ∀ t, (∃ ts, cfg_allowed_stream_types config = Some ts ∧ t ∈ ts) ↔
         t ∈ VoiceStreamType_id <$> voice_stream_types m.
Proof.
  intros n Hmp Hm Hv. apply validate_voice_join_ok in Hv. fold n in Hv.
  destruct Hv as (_ & _ & Hver & Htls & Hne & Hle & Hexp & _ & Hkey).
  destruct (agreed_key n Hkey) as (key & Hd & Hplain & Hsome).
  assert (∃ c, new_with_protocol_version (voice_endpoint m) (vn_session_id n) (vn_protocol_version n)
                 (vn_encrypted n) (vn_max_payload n) (vn_expires_at n) key = Ok c) as [c Hc].
  { unfold new_with_protocol_version, max_payload_for. rewrite (metadata_endpoint m Hm). cbn.
    rewrite Hver, Z.eqb_refl. cbn [negb].
    rewrite (proj2 (Z.eqb_neq _ _) Hne), (proj2 (Z.ltb_ge _ _) Hle), (proj2 (Z.leb_gt _ _) Hexp). cbn [orb].
    destruct (vn_encrypted n); [by eexists|]. rewrite Hplain by done. by eexists. }
  destruct (metadata_streams m c Hm) as [config Hw].
  destruct (new_with_protocol_version_ok _ _ _ _ _ _ _ _ Hmp Hc) as (Hok & Hsid & Henc & Hk & _).
  destruct (with_stream_types_ok _ _ _ Hok Hw) as [Hok' Hts].
  assert (cfg_session_id config = cfg_session_id c ∧ cfg_encrypted config = cfg_encrypted c ∧
          cfg_session_key config = cfg_session_key c) as (Hs1 & Hs2 & Hs3).
  { unfold with_stream_types in Hw. destruct (_ || _) in Hw; [done|]. by injection Hw as <-. }
  exists config. split_and!; [|done|by rewrite Hs1|by rewrite Hs2, Henc|by rewrite Hs3, Hk|done].
  unfold negotiated_config. rewrite Hd. cbn. rewrite Hc. cbn. by rewrite Hw.
Qed.
End negotiation.

(** ** Joining and leaving *)

Section outcomes.
Context {V : Type} `{Base64Lib}.
Context (auto_rejoin_voice : bool).
Context (others : ClientInner V → ClientInner V → Prop).
Hypothesis others_voice : ∀ s s', others s s' → ci_voice s' = ci_voice s.

Abbreviation act A := (prog (St:=ClientInner V) (Lock:=Gate) (Q:=Query) (Answer:=Answer V) A).
Abbreviation Call := {q : Query & Answer V q}.
Abbreviation ends p s log r s' := (outcome (Answer:=Answer V) others p s log r s').
Implicit Types (s : ClientInner V) (log : list Call).

Definition is_join (c : Call) : bool := match projT1 c with QJoin _ _ _ => true | _ => false end.
Definition is_leave (c : Call) : bool := match projT1 c with QLeave _ _ => true | _ => false end.
Definition joins log : list Call := List.filter is_join log.
Definition leaves log : list Call := List.filter is_leave log.

(** A call that has started a worker. *)
Definition is_started (c : Call) : bool :=
  match c with
  | existT q x =>
      match q return Answer V q → bool with
      | QStartWorker _ => λ x, match x with Some (Ok _) => true | _ => false end
      | _ => λ _, false
      end x
  end.
Definition started log : bool := existsb is_started log.

(** The transport was told to close. *)
Definition closed (t : nat) log : Prop := ∃ x, existT (QCloseTransport t) x ∈ log.

(** A program that leaves the session alone and asks for no membership. *)
Fixpoint calm {A} (p : act A) : Prop :=
  match p with
  | Ret _ => True
  | Atomic f m => (∀ s, ci_voice (f s) = ci_voice s) ∧ ∀ s, calm (m s)
  | Acquire _ m | Release _ m => calm m
  | Await q m => match q with QJoin _ _ _ | QLeave _ _ | QStartWorker _ => False | _ => True end ∧ ∀ a, calm (m a)
  end.

Lemma calm_bind {A B} (p : act A) (m : A → act B) : calm p → (∀ a, calm (m a)) → calm (bind p m).
Proof. intros Hp Hm. induction p as [a|f n IH|l n IH|l n IH|q n IH]; cbn; naive_solver. Qed.

Lemma calm_locked {A} l (p : act A) : calm p → calm (with_lock l p).
Proof. intros Hp. cbn. by apply calm_bind. Qed.

Lemma calm_outcome {A} (p : act A) s log r s' :
  calm p → ends p s log r s' →
  ci_voice s' = ci_voice s ∧ joins log = [] ∧ leaves log = [] ∧ started log = false.
Proof.
  revert s log. induction p as [a|f n IH|l n IH|l n IH|q n IH]; cbn; intros s log Hp Ho.
  - destruct Ho as (-> & -> & ->). done.
  - destruct Ho as (s1 & Hs & Ho). destruct Hp as [Hf Hp].
    destruct (IH s1 _ _ (Hp s1) Ho) as (Hv & ?). split; [|done]. by rewrite Hv, Hf, (others_voice _ _ Hs).
  - destruct Ho as (s1 & Hs & Ho). destruct (IH s1 _ Hp Ho) as (Hv & ?). split; [|done].
    by rewrite Hv, (others_voice _ _ Hs).
  - destruct Ho as (s1 & Hs & Ho). destruct (IH s1 _ Hp Ho) as (Hv & ?). split; [|done].
    by rewrite Hv, (others_voice _ _ Hs).
  - destruct Ho as (s1 & x & rest & Hs & -> & Ho). destruct Hp as [Hq Hp].
    destruct (IH x s1 _ (Hp x) Ho) as (Hv & Hj & Hl & Hn).
    split_and!; [by rewrite Hv, (others_voice _ _ Hs)| | |]; cbn.
    + unfold is_join. cbn. by destruct q.
    + unfold is_leave. cbn. by destruct q.
    + fold (started rest). rewrite Hn, orb_false_r. by destruct q.
Qed.

Lemma calm_try {A E B} (p : act (result E A)) (m : A → act (result E B)) :
  calm p → (∀ a, calm (m a)) → calm (try_bind p m).
Proof. intros Hp Hm. apply calm_bind; [done|]. by intros [a|e]. Qed.

Lemma calm_ensure_open : calm ensure_open.
Proof. by cbn. Qed.

Lemma calm_control : calm current_control.
Proof.
  apply calm_try; [apply calm_ensure_open|]. intros _. apply calm_bind; [by apply calm_locked|].
  intros [c|]; [|done]. cbn. split; [done|]. intros s. by case_bool_decide.
Qed.

Lemma calm_discover : calm discover.
Proof.
  apply calm_try; [apply calm_ensure_open|]. intros _. cbn. split; [done|]. intros s.
  destruct (ci_metadata s); [done|]. cbn. split; [done|]. by intros [m|e].
Qed.

Lemma calm_stop v : calm (stop_transport v).
Proof. by apply calm_locked. Qed.

Lemma calm_close_worker t sid : calm (close_worker t sid).
Proof. by cbn. Qed.

(** Closing a transport asks it to close. *)
Lemma stop_outcome v s log r s' : ends (stop_transport v) s log r s' → closed (vs_transport v) log.
Proof.
  intros (s1 & _ & Ho). cbn in Ho. destruct Ho as (s2 & x & rest & _ & -> & _). exists x. by constructor.
Qed.

Lemma close_worker_outcome t sid s log r s' : ends (close_worker t sid) s log r s' → closed t log.
Proof. intros (s1 & x & rest & _ & -> & _). exists x. by constructor. Qed.

Lemma locked_outcome {A} l (p : act A) s log r s' :
  ends (with_lock l p) s log r s' → ∃ s1 s2, others s s1 ∧ ends p s1 log r s2 ∧ others s2 s'.
Proof.
  intros (s1 & H1 & Ho). apply outcome_bind in Ho as (a & s2 & l1 & l2 & Hp & (s3 & H3 & (-> & -> & ->)) & ->).
  exists s1, s2. by rewrite app_nil_r.
Qed.

Lemma read_outcome {A B} (f : ClientInner V → A) (m : A → act B) s log r s' :
  ends (bind (read f) m) s log r s' → ∃ s1, others s s1 ∧ ends (m (f s1)) s1 log r s'.
Proof. done. Qed.

Lemma try_ret_outcome {A B E} (x : result E A) (m : A → act (result E B)) s log r s' :
  ends (try_bind (Ret x) m) s log r s' →
  match x with Ok a => ends (m a) s log r s' | Err e => r = Err e ∧ s' = s ∧ log = [] end.
Proof. by destruct x. Qed.

Lemma joins_app l1 l2 : joins (l1 ++ l2) = joins l1 ++ joins l2.
Proof. apply List.filter_app. Qed.

Lemma leaves_app l1 l2 : leaves (l1 ++ l2) = leaves l1 ++ leaves l2.
Proof. apply List.filter_app. Qed.

Lemma closed_app_l t l1 l2 : closed t l1 → closed t (l1 ++ l2).
Proof. intros [x Hx]. exists x. apply elem_of_app. by left. Qed.

Lemma closed_app_r t l1 l2 : closed t l2 → closed t (l1 ++ l2).
Proof. intros [x Hx]. exists x. apply elem_of_app. by right. Qed.

Lemma started_app l1 l2 : started (l1 ++ l2) = started l1 || started l2.
Proof. apply existsb_app. Qed.

Lemma calm_clear_intent : calm clear_voice_intent.
Proof. by cbn. Qed.

(** Starting a transport. *)
Lemma connect_outcome config s log r s' :
  ends (connect_with_key_cache config) s log r s' →
  ci_voice s' = ci_voice s ∧ joins log = [] ∧ started log = is_ok r.
Proof.
  unfold connect_with_key_cache. cbn. intros (s1 & bound & rest & H1 & -> & Ho). apply others_voice in H1.
  destruct bound as [[]|e]; cbn in Ho; [|destruct Ho as (-> & -> & ->); done].
  destruct Ho as (s2 & H2 & Ho). apply others_voice in H2.
  destruct (admit_key config (ci_key_cache s2)) as [[[]|e] keys]; cbn in Ho;
    [|destruct Ho as (-> & -> & ->); cbn; split_and!; [congruence|done|done]].
  destruct Ho as (s3 & answer & rest2 & H3 & -> & Ho). apply others_voice in H3. cbn in H3.
  destruct answer as [[[]|e]|]; cbn in Ho.
  - destruct Ho as (s4 & H4 & -> & -> & ->). apply others_voice in H4. cbn. split_and!; [congruence|done|done].
  - destruct Ho as (s4 & H4 & -> & -> & ->). apply others_voice in H4. cbn. split_and!; [congruence|done|done].
  - destruct Ho as (-> & -> & ->). cbn. split_and!; [congruence|done|done].
Qed.

Lemma install_outcome session request reuse s log r s' :
  ends (install_session auto_rejoin_voice session request reuse) s log r s' →
  r = Ok session ∧ ci_voice s' = Some session ∧ joins log = [] ∧ started log = false ∧
  ∀ previous, ci_voice s = Some previous → closed (vs_transport previous) log.
Proof.
  intros Ho. apply outcome_bind in Ho as (previous & s1 & l1 & l2 & Hp & Ho & ->).
  apply locked_outcome in Hp as (s2 & s3 & H2 & (s4 & H4 & -> & -> & ->) & H1).
  apply others_voice in H1, H2, H4. cbn in H1, H2, H4.
  apply outcome_bind in Ho as ([] & s5 & l3 & l4 & Hc & Ho & ->).
  assert (ci_voice s5 = Some session ∧ joins l3 = [] ∧ started l3 = false ∧
          ∀ v, ci_voice s = Some v → closed (vs_transport v) l3) as (H5 & Hj & Hst & Hcl).
  { assert (ci_voice s4 = ci_voice s) as Hv by congruence. rewrite Hv in Hc.
    destruct (ci_voice s) as [v|].
    - apply outcome_bind in Hc as (x & s6 & l5 & l6 & Hs & (_ & -> & ->) & ->). rewrite app_nil_r.
      destruct (calm_outcome _ _ _ _ _ (calm_stop v) Hs) as (Hv6 & Hj & _ & Hst).
      split_and!; [congruence|done|done|]. intros w [= <-]. by eapply stop_outcome.
    - destruct Hc as (_ & -> & ->). by split_and!; [congruence|..]. }
  assert (r = Ok session ∧ ci_voice s' = ci_voice s5 ∧ l4 = []) as (-> & -> & ->).
  { destruct reuse as [key|]; cbn in Ho.
    - destruct Ho as (s6 & H6 & s7 & H7 & s8 & H8 & -> & -> & ->). apply others_voice in H6, H7, H8. cbn in *.
      by split_and!; [|congruence|].
    - destruct Ho as (s6 & H6 & s7 & H7 & -> & -> & ->). apply others_voice in H6, H7. cbn in *.
      by split_and!; [|congruence|]. }
  rewrite app_nil_r. by split_and!.
Qed.

Lemma start_outcome channel_id request control id generation m codec response s log r s' :
  ends (start_session auto_rejoin_voice channel_id request control id generation m codec response) s log r s' →
  joins log = [] ∧
  match r with
  | Ok v =>
      ci_voice s' = Some v ∧ Channel_id (join_channel response) = channel_id ∧ vs_channel_id v = channel_id ∧
      vs_control v = control ∧ vs_control_generation v = generation ∧
      negotiated_config m (join_voice_negotiation response) = Ok (vs_config v) ∧
      ∀ previous, ci_voice s = Some previous → closed (vs_transport previous) log
  | Err e => ci_voice s' = ci_voice s ∧ (started log = true → ∃ t, closed t log)
  end.
Proof.
  unfold start_session. destruct (Z.eqb_spec (Channel_id (join_channel response)) channel_id) as [Hch|]; cbn [negb];
    [|intros (-> & -> & ->); done].
  intros Ho%try_ret_outcome.
  destruct (decode_session_key _ _ _) as [key|e]; [|by destruct Ho as (-> & -> & ->)].
  apply read_outcome in Ho as (s1 & H1 & Ho). apply others_voice in H1. apply try_ret_outcome in Ho.
  destruct (negotiated_config m (join_voice_negotiation response)) as [config|e];
    [|destruct Ho as (-> & -> & ->); by split_and!].
  apply outcome_bind in Ho as (t & s2 & l1 & l2 & Hc & Ho & ->).
  apply outcome_bind in Hc as (x & s3 & l3 & l4 & Hc & (-> & -> & ->) & ->). rewrite app_nil_r.
  apply connect_outcome in Hc as (H2 & Hj & Hst). cbn in H2.
  rewrite joins_app, Hj. destruct x as [t|e]; [|destruct Ho as (-> & -> & ->)].
  2:{ split_and!; [done|congruence|]. rewrite started_app, Hst. done. }
  apply read_outcome in Ho as (s4 & H4 & Ho). apply read_outcome in Ho as (s5 & H5 & Ho).
  apply read_outcome in Ho as (s6 & H6 & Ho). apply others_voice in H4, H5, H6.
  destruct (_ || _).
  - apply outcome_bind in Ho as (x & s7 & l5 & l6 & Hc & (s8 & H8 & -> & -> & ->) & ->). apply others_voice in H8.
    destruct (calm_outcome _ _ _ _ _ (calm_close_worker _ _) Hc) as (H7 & Hj' & _ & _). cbn in H7, H8.
    apply close_worker_outcome in Hc. rewrite joins_app, Hj'.
    split_and!; [done|cbn; congruence|]. intros _. exists t. by apply closed_app_r, closed_app_l.
  - apply install_outcome in Ho as (-> & H7 & Hj' & _ & Hcl). rewrite Hj'. split_and!; try done.
    intros previous Hp. apply closed_app_r, Hcl. congruence.
Qed.

Lemma join_locked_outcome (channel_id : Z) (request : VoiceJoinRequest) s log r s' :
  ends (join_locked auto_rejoin_voice channel_id request) s log r s' →
  (length (joins log) ≤ 1)%nat ∧
  match r with
  | Ok v =>
      ci_voice s' = Some v ∧ vs_channel_id v = channel_id ∧
      (∃ id response m, joins log = [existT (QJoin channel_id request id) (Ok response)] ∧
         Channel_id (join_channel response) = channel_id ∧
         negotiated_config m (join_voice_negotiation response) = Ok (vs_config v)) ∧
      ∀ previous, ci_voice s = Some previous → closed (vs_transport previous) log
  | Err e => ci_voice s' = ci_voice s ∧ (started log = true → ∃ t, closed t log)
  end.
Proof.
  intros Ho. apply outcome_bind in Ho as (control & s1 & l1 & l2 & Hc & Ho & ->).
  destruct (calm_outcome _ _ _ _ _ calm_control Hc) as (H1 & Hj1 & _ & Hst1).
  rewrite joins_app, Hj1, started_app, Hst1. clear Hc.
  destruct control as [control|e]; [|destruct Ho as (-> & -> & ->); cbn; by split_and!; [lia|..]].
  apply read_outcome in Ho as (s2 & H2 & Ho). apply others_voice in H2.
  destruct (negb _); [destruct Ho as (-> & -> & ->); cbn; by split_and!; [lia|congruence|]|].
  apply outcome_bind in Ho as (m & s3 & l3 & l4 & Hd & Ho & ->).
  destruct (calm_outcome _ _ _ _ _ calm_discover Hd) as (H3 & Hj3 & _ & Hst3). clear Hd.
  rewrite joins_app, Hj3, started_app, Hst3.
  destruct m as [m|e]; [|destruct Ho as (-> & -> & ->); cbn; by split_and!; [lia|congruence|]].
  apply try_ret_outcome in Ho. destruct (ok_or _ _) as [codec|e];
    [|destruct Ho as (-> & -> & ->); cbn; by split_and!; [lia|congruence|]].
  apply read_outcome in Ho as (s4 & H4 & Ho). apply others_voice in H4.
  destruct (negb _); [destruct Ho as (-> & -> & ->); cbn; by split_and!; [lia|congruence|]|].
  apply read_outcome in Ho as (s5 & H5 & Ho). apply others_voice in H5.
  apply try_ret_outcome in Ho. destruct (ok_or _ _) as [id|e];
    [|destruct Ho as (-> & -> & ->); cbn; by split_and!; [lia|congruence|]].
  apply read_outcome in Ho as (s6 & H6 & Ho). apply others_voice in H6.
  destruct Ho as (s7 & x & rest & H7 & -> & Ho). apply others_voice in H7.
  destruct x as [response|e]; [|destruct Ho as (-> & -> & ->); cbn; by split_and!; [lia|congruence|]].
  apply start_outcome in Ho as [Hj Ho]. cbn. change (List.filter is_join rest) with (joins rest).
  rewrite Hj. split; [cbn; lia|]. assert (ci_voice s7 = ci_voice s) as Hv by congruence.
  destruct r as [v|e].
  - destruct Ho as (Hv' & Hch & Hvs & _ & _ & Hcfg & Hcl). split_and!; [done|done| |].
    + exists id, response, m. by split_and!.
    + intros previous Hp. apply closed_app_r, closed_app_r.
      assert (closed (vs_transport previous) rest) as [y Hy] by (apply Hcl; congruence).
      exists y. by constructor.
  - destruct Ho as [Hv' Hcl]. split; [congruence|]. intros Hst. destruct (Hcl Hst) as (t & y & Hy).
    exists t. apply closed_app_r, closed_app_r. exists y. by constructor.
Qed.

(** C28: what [join_voice] achieves under the voice gate. It asks for membership at most once.
    When it succeeds, that one request went to the server and was answered: the session
    is for the requested channel, configured as the answer says, bound to the control
    connection and its generation, in place as the current one, and the session it
    replaces was closed. When it fails the session in place has not been touched, and a
    transport that it started was closed again. *)
Theorem join_voice_outcomes (channel_id : Z) (request : VoiceJoinRequest) s log r s' :
  ends (join_locked auto_rejoin_voice channel_id request) s log r s' →
  (length (joins log) ≤ 1)%nat ∧
  match r with
  | Ok v =>
      ci_voice s' = Some v ∧ vs_channel_id v = channel_id ∧
      (∃ id response m, joins log = [existT (QJoin channel_id request id) (Ok response)] ∧
         Channel_id (join_channel response) = channel_id ∧
         negotiated_config m (join_voice_negotiation response) = Ok (vs_config v)) ∧
      ∀ previous, ci_voice s = Some previous → closed (vs_transport previous) log
  | Err e => ci_voice s' = ci_voice s ∧ (started log = true → ∃ t, closed t log)
  end.
Proof. apply join_locked_outcome. Qed.

(** *** Leaving *)

Section leaving.
(** The transports whose leave the server has confirmed to somebody else. Only a confirmed
    leave is recorded in [ci_left], and nothing takes it out. *)
Context (gone : nat → Prop).

Definition marks s s' : Prop :=
  ci_left s ⊆ ci_left s' ∧ ∀ t, t ∈ ci_left s' → t ∈ ci_left s ∨ gone t.

Hypothesis others_left : ∀ s s', others s s' → marks s s'.

#[local] Instance marks_preorder : PreOrder marks.
Proof.
  split; [by intros s; split; [|left]|]. intros s1 s2 s3 [H12 H12'] [H23 H23']. split; [set_solver|].
  intros t Ht. destruct (H23' t Ht) as [Ht2|]; [by apply H12'|by right].
Qed.

(** A program that leaves the record alone. *)
Lemma unmarked {A} (p : act A) s log r s' : untouched ci_left p → ends p s log r s' → marks s s'.
Proof.
  intros Hp. apply pieces_outcome; [apply _|exact others_left|]. revert Hp. apply untouched_pieces.
  intros f Hf s0. unfold marks. rewrite Hf. by split; [|left].
Qed.

Ltac leave_unmarked H := eapply unmarked; [|exact H]; leave_alone_with ltac:(fail).

(** The transport was closed and the server has confirmed the one leave it was asked for. *)
Definition confirmed v log : Prop :=
  closed (vs_transport v) log ∧ ∃ id, leaves log = [existT (QLeave (vs_session_id v) id) (Ok tt)].

(** What leaving [v] has achieved, given what was recorded before. *)
Definition left v s log (r : result SdkError unit) s' : Prop :=
  (∀ t, t ∈ ci_left s' → t ∈ ci_left s ∨ gone t ∨ t = vs_transport v ∧ confirmed v log) ∧
  match r with
  | Ok _ => vs_transport v ∈ ci_left s' ∧ (log = [] ∨ confirmed v log)
  | Err _ => closed (vs_transport v) log
  end.

Lemma leave_locked_outcome v s log r s' :
  ends (leave_locked v) s log r s' →
  ci_voice s' = ci_voice s ∧ (length (leaves log) ≤ 1)%nat ∧ left v s log r s'.
Proof.
  intros Ho. apply read_outcome in Ho as (s1 & H1 & Ho). pose proof (others_left _ _ H1) as Hm1. apply others_voice in H1.
  case_bool_decide as Hin.
  { destruct Ho as (-> & -> & ->). cbn. split_and!; [done|lia|]. split; [|by split; [|left]].
    intros t [?|?]%(proj2 Hm1); tauto. }
  apply outcome_bind in Ho as (x & s2 & l1 & l2 & Hc & Ho & ->).
  destruct (calm_outcome _ _ _ _ _ (calm_close_worker _ _) Hc) as (H2 & _ & Hl1 & _).
  assert (marks s s2) as Hm2 by (trans s1; [done|leave_unmarked Hc]).
  apply close_worker_outcome in Hc. rewrite leaves_app, Hl1. cbn [app].
  destruct Ho as (s3 & H3 & Ho). pose proof (transitivity Hm2 (others_left _ _ H3)) as Hm3. apply others_voice in H3.
  apply read_outcome in Ho as (s4 & H4 & Ho).
  assert (marks s s4) as Hm4 by exact (transitivity (z:=s4) Hm3 (others_left _ _ H4)).
  apply others_voice in H4. cbn in H4.
  assert (∀ s5 l e, marks s4 s5 → closed (vs_transport v) l → left v s l (Err e) s5) as Hfail.
  { intros s5 l e Hm Hl. split; [|done]. intros t [?|?]%(proj2 (transitivity Hm4 Hm)); tauto. }
  destruct (control_id (vs_control v) s4) as [id|].
  - destruct Ho as (s5 & answer & rest & H5 & -> & Ho). pose proof (others_left _ _ H5) as Hm5. apply others_voice in H5.
    apply try_ret_outcome in Ho. destruct x as [[]|e]; cbn [map_err] in Ho;
      [|destruct Ho as (-> & -> & ->); cbn; split_and!; [congruence|lia|by apply Hfail, closed_app_l]].
    apply try_ret_outcome in Ho. destruct answer as [[]|e]; cbn [map_err] in Ho;
      [|destruct Ho as (-> & -> & ->); cbn; split_and!; [congruence|lia|by apply Hfail, closed_app_l]].
    destruct Ho as (s6 & H6 & -> & -> & ->). pose proof (transitivity Hm5 (others_left _ _ H6)) as Hm6.
    apply others_voice in H6. cbn. split_and!; [congruence|lia|].
    assert (confirmed v (l1 ++ [existT (QLeave (vs_session_id v) id) (Ok tt)])) as Hcf.
    { split; [by apply closed_app_l|]. exists id. by rewrite leaves_app, Hl1. }
    split; cbn; [|split; [set_solver|by right]].
    intros t [->%elem_of_singleton|Ht]%elem_of_union; [by right; right|].
    destruct (proj2 (transitivity Hm4 Hm6) t Ht); tauto.
  - cbn in Ho. destruct x as [[]|e]; cbn in Ho; destruct Ho as (-> & -> & ->); cbn;
      (split_and!; [congruence|lia|by apply Hfail, closed_app_l]).
Qed.

Lemma clear_own_outcome v s log s' :
  ends (session_clear_intent v) s log tt s' → ci_voice s' = ci_voice s ∧ marks s s' ∧ log = [].
Proof.
  intros Ho. split_and!.
  - destruct Ho as (s1 & H1 & _ & -> & ->). apply others_voice in H1.
    destruct (ci_voice_intent s1); [|done]. by case_bool_decide.
  - eapply unmarked; [|exact Ho]. split; [|done]. intros s0. cbn. destruct (ci_voice_intent s0); [|done]. by case_bool_decide.
  - by destruct Ho as (s1 & _ & _ & _ & ->).
Qed.

Lemma left_after v s0 s log r s1 s' : marks s0 s → marks s1 s' → left v s log r s1 → left v s0 log r s'.
Proof.
  intros Hm Hm' [Hl Hr]. split.
  - intros t [Ht|?]%(proj2 Hm'); [|tauto]. destruct (Hl t Ht) as [[?|?]%(proj2 Hm)|?]; tauto.
  - destruct r; [|done]. split; [|tauto]. by apply (proj1 Hm'), Hr.
Qed.

Lemma leave_outcome v s log r s' :
  ends (session_leave v) s log r s' →
  ci_voice s' = ci_voice s ∧ (length (leaves log) ≤ 1)%nat ∧ left v s log r s'.
Proof.
  intros Ho. apply outcome_bind in Ho as ([] & s1 & l1 & l2 & (H1 & Hm1 & ->)%clear_own_outcome & Ho & ->).
  apply locked_outcome in Ho as (s2 & s3 & H2 & Ho & H3).
  pose proof (transitivity Hm1 (others_left _ _ H2)) as Hm2. pose proof (others_left _ _ H3) as Hm3.
  apply others_voice in H2, H3. apply leave_locked_outcome in Ho as (H4 & Hl & Hr). cbn.
  split_and!; [congruence|done|exact (left_after _ _ _ _ _ _ _ Hm2 Hm3 Hr)].
Qed.

Lemma leave_current_outcome s log r s' :
  ends leave_current s log r s' →
  (length (leaves log) ≤ 1)%nat ∧
  match ci_voice s with
  | Some v =>
      left v s log r s' ∧ ci_voice s' = match r with Ok _ => None | Err _ => Some v end
  | None => r = Ok tt ∧ ci_voice s' = None ∧ marks s s' ∧ log = []
  end.
Proof.
  intros Ho. apply outcome_bind in Ho as (session & s1 & l1 & l2 & Ht & Ho & ->).
  assert (marks s s1) as Hm1 by leave_unmarked Ht.
  apply locked_outcome in Ht as (s2 & s3 & H2 & (s4 & H4 & -> & -> & ->) & H1).
  apply others_voice in H1, H2, H4. cbn in H1, H2, H4. rewrite H4, H2 in Ho. cbn [app].
  destruct (ci_voice s) as [v|] eqn:Hv; [|destruct Ho as (-> & -> & ->); cbn; by split_and!; [lia|..]].
  apply outcome_bind in Ho as (x & s5 & l3 & l4 & Hl & Ho & ->).
  apply leave_outcome in Hl as (H5 & Hle & Hx). destruct x as [[]|e]; cbn [is_ok negb] in Ho.
  - destruct Ho as (-> & -> & ->). rewrite app_nil_r. split_and!; [done|exact (left_after _ _ _ _ _ _ _ Hm1 (reflexivity _) Hx)|congruence].
  - apply outcome_bind in Ho as ([] & s6 & l5 & l6 & Hr & (-> & -> & ->) & ->).
    assert (marks s5 s6) as Hm6 by leave_unmarked Hr.
    apply locked_outcome in Hr as (s7 & s8 & H7 & (s9 & H9 & _ & -> & ->) & H8). apply others_voice in H8. cbn in H8.
    cbn. rewrite app_nil_r. split_and!; [done|exact (left_after _ _ _ _ _ _ _ Hm1 Hm6 Hx)|congruence].
Qed.

(** C29: what [leave_voice] achieves under the voice gate, where the record of the sessions that
    have left holds only those whose leave the server has confirmed, before or meanwhile to
    another caller ([gone]). It asks the server at most once. When it succeeds no session is
    in place, and the one that was is recorded as left: either its transport was told to
    close and the one leave request for it was confirmed in this call, or its leave had been
    confirmed already and nobody is asked. When it fails the session is still in place, its
    transport told to close, so that the leave can be repeated; a client without a session
    does not fail and asks nobody. The record still holds confirmed leaves only. *)
Theorem leave_voice_outcomes s log r s' :
  (∀ t, t ∈ ci_left s → gone t) → ends leave_current s log r s' →
  (length (leaves log) ≤ 1)%nat ∧
  (∀ t, t ∈ ci_left s' → gone t ∨ ∃ v, ci_voice s = Some v ∧ t = vs_transport v ∧ confirmed v log) ∧
  match r with
  | Ok _ =>
      ci_voice s' = None ∧
      match ci_voice s with
      | Some v => vs_transport v ∈ ci_left s' ∧ (confirmed v log ∨ gone (vs_transport v) ∧ log = [])
      | None => log = []
      end
  | Err e => ∃ v, ci_voice s = Some v ∧ ci_voice s' = Some v ∧ closed (vs_transport v) log
  end.
Proof.
  intros Hg [Hle Ho]%leave_current_outcome. split; [done|]. destruct (ci_voice s) as [v|].
  - destruct Ho as [[Hl Hr] Hv']. split.
    + intros t [?|[?|?]]%Hl; [left; by apply Hg|by left|right; by exists v].
    + destruct r as [[]|e]; [|by exists v]. destruct Hr as [Hin Hr]. split_and!; [done..|].
      destruct Hr as [->|?]; [|by left]. right. split; [|done].
      destruct (Hl _ Hin) as [?|[?|[_ [[x Hx] _]]]]; [by apply Hg|done|by apply elem_of_nil in Hx].
  - destruct Ho as (-> & Hv' & Hm & ->). split; [|done]. intros t [?|?]%(proj2 Hm); left; [by apply Hg|done].
Qed.
End leaving.

(** ** Losing authority *)

(** The section of the voice gate in [stop_voice_transport_for]. *)
Definition stop_session (expected : option Z) : act (result SdkError unit) :=
  let> session := with_lock VoiceLock (atomically (take_session expected)) in
  match session with
  | Some session => session_close_transport session
  | None => Ret (Ok tt)
  end.

(** A session of the generation, if one was in place, has been taken and told to close. *)
Definition stopped_for (generation : Z) s log s' : Prop :=
  match ci_voice s with
  | Some v =>
      if vs_control_generation v =? generation then ci_voice s' = None ∧ closed (vs_transport v) log
      else ci_voice s' = Some v
  | None => ci_voice s' = None
  end.

Lemma stop_session_outcome (generation : Z) s log r s' :
  ends (stop_session (Some generation)) s log r s' → stopped_for generation s log s'.
Proof.
  intros Hs. apply outcome_bind in Hs as (session & s6 & l7 & l8 & Ht & Hs & ->).
  apply locked_outcome in Ht as (s7 & s8 & H7 & (s9 & H9 & -> & -> & ->) & H8).
  apply others_voice in H7, H8, H9. unfold take_session in Hs, H8. unfold stopped_for.
  assert (ci_voice s9 = ci_voice s) as Hv by congruence. rewrite Hv in Hs, H8.
  destruct (ci_voice s) as [v|] eqn:Hsv.
  2:{ destruct Hs as (_ & -> & _). cbn in H8. congruence. }
  destruct (vs_control_generation v =? generation); cbn in Hs, H8.
  - destruct (calm_outcome _ _ _ _ _ (calm_stop v) Hs) as (H6 & _). split; [congruence|].
    apply stop_outcome in Hs. by apply closed_app_r.
  - destruct Hs as (_ & -> & _). congruence.
Qed.

(** The reaction, if the session in place is left alone by the others all the time. *)
Lemma react_stops (generation : Z) (e : ClientEvent V) s log s' :
  stops_voice e = true → ends (react auto_rejoin_voice generation e) s log tt s' → stopped_for generation s log s'.
Proof.
  intros He Ho. apply outcome_bind in Ho as ([] & s1 & l1 & l2 & Hi & Ho & ->).
  assert (ci_voice s1 = ci_voice s) as H1.
  { destruct (clears_intent e); [|by destruct Hi as (_ & -> & _)].
    by destruct (calm_outcome _ _ _ _ _ calm_clear_intent Hi). }
  clear Hi. rewrite He in Ho.
  apply outcome_bind in Ho as ([] & s2 & l3 & l4 & Hs & Ho & ->).
  assert (rejoins_voice e = false) as Hre by (by destruct e as [[]| | | | | |]).
  rewrite Hre in Ho. destruct Ho as (_ & -> & ->). rewrite app_nil_r.
  apply outcome_bind in Hs as (x & s3 & l5 & l6 & Hs & Hr & ->).
  assert (ci_voice s2 = ci_voice s3) as H2.
  { assert (calm (report x)) as Hcalm by (by destruct x). by destruct (calm_outcome _ _ _ _ _ Hcalm Hr). }
  apply locked_outcome in Hs as (s4 & s5 & H4 & Hs & H5). apply others_voice in H4, H5.
  apply stop_session_outcome in Hs. unfold stopped_for in *. rewrite H2, H5, <- H1, <- H4.
  destruct (ci_voice s4) as [v|]; [|done]. destruct (_ =? _); [|done].
  destruct Hs as [? ?]. split; [done|]. by apply closed_app_r, closed_app_l.
Qed.
End outcomes.

(** *** The relay among tasks that respect the voice gate only *)

Section gated.
Context {V : Type} `{Base64Lib}.
Context (auto_rejoin_voice : bool).
Context (others : gset Gate → ClientInner V → ClientInner V → Prop).
(** Nobody changes the session while the relay holds the voice gate; while it does not,
    joins, leaves and shutdowns do to it what they like. *)
Hypothesis others_gated : ∀ mine s s', VoiceGate ∈ mine → others mine s s' → ci_voice s' = ci_voice s.
Abbreviation Event := (SdkProgram.Event (St:=ClientInner V) (Lock:=Gate) (Q:=Query) (Answer:=Answer V)).
Abbreviation Call := {q : Query & Answer V q}.

Lemma stop_session_spares expected : spares VoiceGate (stop_session (V:=V) expected).
Proof. cbn. split; [done|]. intros s. split; [done|]. by destruct (take_session expected s).1. Qed.

(** C30: a relayed loss of authority takes the session down, whatever joins, leaves and other
    calls do at the same time, so long as they change the session in place under the voice
    gate only. The relay that reacts to a lost authority, a disconnect, a reconnect or the
    end of a connection of its generation takes the gate once and gives it back once. If
    the session that it finds in place when it has got the gate is of that generation,
    none is in place when it gives the gate back, and the session has been told to close
    meanwhile; if it is of another generation, it is still in place. A session that
    was put in place while the relay waited for the gate is treated no differently. *)
Theorem relay_stops_voice (generation : Z) (e : ClientEvent V) s (h : list Event) s' :
  stops_voice e = true → history others ∅ (react auto_rejoin_voice generation e) s h tt s' →
  ∃ h1 h2 h3 taken given,
    h = h1 ++ Took VoiceGate taken :: h2 ++ Gave VoiceGate given :: h3 ∧
    (∀ s, Took VoiceGate s ∉ h1 ++ h2 ++ h3 ∧ Gave VoiceGate s ∉ h1 ++ h2 ++ h3) ∧
    match ci_voice taken with
    | Some v =>
        if vs_control_generation v =? generation
        then ci_voice given = None ∧ closed (vs_transport v) (asked h2)
        else ci_voice given = Some v
    | None => ci_voice given = None
    end.
Proof.
  intros He Ho.
  assert (∃ s0, history others ∅ (let> _ := (let> r := stop_voice_transport_for (Some generation) in report r) in Ret tt) s0 h tt s')
    as [s0 Hs].
  { assert (rejoins_voice e = false) as Hre by (by destruct e as [[]| | | | | |]).
    unfold react in Ho. rewrite He, Hre in Ho. destruct (clears_intent e); [|by exists s].
    destruct Ho as (s1 & _ & Ho). by eexists. }
  clear Ho. destruct Hs as (taken & rest & _ & -> & Hs). exists [].
  assert (history others ({[VoiceGate]} ∪ ∅)
            (let> r := stop_session (Some generation) in Release VoiceGate (let> _ := report r in Ret tt)) taken rest tt s') as Hs'.
  { revert Hs. cbn. intros (s1 & r1 & ? & ? & s2 & ? & s3 & r2 & ? & ? & Hs). exists s1, r1. split_and!; [done..|].
    exists s2. split; [done|]. exists s3, r2. split_and!; [done..|]. by destruct (take_session (Some generation) s2).1. }
  apply (history_held VoiceGate (λ s s', ci_voice s' = ci_voice s)) in Hs'
    as (r & s1 & h2 & rest' & mine & Hs1 & Hmine & -> & (given & h3 & Hg & -> & Hr) & Hno);
    [|done|set_solver|apply stop_session_spares].
  exists h2, h3, taken, given. split; [done|].
  assert (h3 = []) as ->. { destruct r as [[]|err]; [by destruct Hr as (_ & _ & ->)|]. by destruct Hr as (s2 & _ & _ & _ & ->). }
  split; [intros sl; rewrite app_nil_r; apply Hno|].
  apply (stop_session_outcome (λ s s', ci_voice s' = ci_voice s)) in Hs1; [|done].
  unfold stopped_for in Hs1. apply (others_gated _ _ _ Hmine) in Hg. by rewrite Hg.
Qed.
End gated.

(** ** The relay when nothing else happens *)

Section alone.
Context {V : Type} `{Base64Lib}.
Context (auto_rejoin_voice : bool).
Abbreviation act A := (prog (St:=ClientInner V) (Lock:=Gate) (Q:=Query) (Answer:=Answer V) A).
Abbreviation alone_ends p s log r s' :=
  (outcome (St:=ClientInner V) (Lock:=Gate) (Answer:=Answer V) (λ s s', s' = s) p s log r s').
Implicit Types s : ClientInner V.

(** A client whose connection is live, as [join_voice] wants it. *)
Record ready (control : nat) (id : byte_list) (m : Metadata) s : Prop := {
  ready_open : ci_stopped s = false;
  ready_control : ci_control s = Some control;
  ready_live : control_status control s = Some SLive;
  ready_id : control_id control s = Some id;
  ready_metadata : ci_metadata s = Some m;
  ready_codec : codecs m ≠ [];
}.

Lemma alone_voice s s' : s' = s → ci_voice s' = ci_voice s.
Proof. by intros ->. Qed.

(** The membership request of a ready client. *)
Lemma ready_joins control id m channel_id request s log r s' :
  ready control id m s → alone_ends (join_locked auto_rejoin_voice channel_id request) s log r s' →
  ∃ x, joins log = [existT (QJoin channel_id request id) x].
Proof.
  intros [Ho Hc Hl Hid Hm Hne] Hj. unfold join_locked in Hj.
  apply outcome_bind in Hj as (control' & s1 & l1 & l2 & Hcur & Hj & ->).
  assert (control' = Ok control ∧ s1 = s ∧ l1 = []) as (-> & -> & ->).
  { destruct Hcur as (s2 & -> & Hcur). rewrite Ho in Hcur. cbn in Hcur.
    destruct Hcur as (s3 & -> & s4 & -> & s5 & -> & Hcur). rewrite Hc in Hcur. cbn in Hcur.
    destruct Hcur as (s6 & -> & Hcur). rewrite Hl in Hcur. by destruct Hcur as (-> & -> & ->). }
  apply read_outcome in Hj as (s2 & -> & Hj). assert (is_live control s = true) as Hlive.
  { unfold is_live. by rewrite Hl. }
  rewrite Hlive in Hj. cbn [negb] in Hj.
  apply outcome_bind in Hj as (m' & s3 & l3 & l4 & Hd & Hj & ->).
  assert (m' = Ok m ∧ s3 = s ∧ l3 = []) as (-> & -> & ->).
  { destruct Hd as (s4 & -> & Hd). rewrite Ho in Hd. cbn in Hd. destruct Hd as (s5 & -> & Hd).
    rewrite Hm in Hd. by destruct Hd as (-> & -> & ->). }
  apply try_ret_outcome in Hj. destruct (codecs m) as [|codec rest]; [done|]. cbn [head ok_or] in Hj.
  apply read_outcome in Hj as (s4 & -> & Hj). rewrite Hlive in Hj. cbn [negb] in Hj.
  apply read_outcome in Hj as (s5 & -> & Hj). apply try_ret_outcome in Hj. rewrite Hid in Hj. cbn [ok_or] in Hj.
  apply read_outcome in Hj as (s6 & -> & Hj). destruct Hj as (s7 & x & l5 & -> & -> & Hj).
  exists x. cbn. f_equal. destruct x as [response|e]; [|by destruct Hj as (_ & _ & ->)].
  by apply (start_outcome _ _ alone_voice) in Hj as [Hj _].
Qed.

(** Every change to live rejoins. With automatic rejoining the relay answers a change of
    the connection to live, which also follows an in-place resynchronization, by joining the
    remembered channel again, although the session in place belongs to this very
    connection and has lost nothing; if the join succeeds, that session's transport is
    closed and another session takes its place. *)
Theorem live_status_rejoins control id m (generation : Z) (v : VoiceSession) (intent : VoiceIntent) s log s' :
  auto_rejoin_voice = true → ready control id m s → ci_voice_intent s = Some intent →
  ci_voice s = Some v → vs_control v = control → vs_control_generation v = generation →
  alone_ends (react auto_rejoin_voice generation (StatusChanged SLive)) s log tt s' →
  (∃ x, joins log = [existT (QJoin (intent_channel_id intent) (intent_request intent) id) x]) ∧
  (ci_voice s' = Some v ∧ ci_voice_intent s' = None ∨
   closed (vs_transport v) log ∧ ∃ v', ci_voice s' = Some v' ∧ vs_channel_id v' = intent_channel_id intent).
Proof.
  intros Hauto Hready Hintent Hv _ _ Ho. unfold react, rejoin_voice_if_configured in Ho. rewrite Hauto in Ho.
  cbn [clears_intent stops_voice rejoins_voice negb] in Ho.
  apply outcome_bind in Ho as (u1 & t1 & k1 & k2 & (_ & -> & ->) & Ho & ->).
  apply outcome_bind in Ho as (u2 & t2 & k3 & k4 & (_ & -> & ->) & Ho & ->). cbn [app].
  apply outcome_bind in Ho as (r & s1 & l1 & l2 & Hr & Hrep & ->).
  apply read_outcome in Hr as (s2 & -> & Hr). rewrite Hintent in Hr.
  apply outcome_bind in Hr as (joined & s3 & l3 & l4 & Hj & Hr & ->).
  destruct Hj as (s4 & -> & Hj). rewrite (ready_open _ _ _ _ Hready) in Hj.
  apply locked_outcome in Hj as (s6 & s7 & -> & Hj & ->). rewrite <- Hauto in Hj.
  destruct (ready_joins _ _ _ _ _ _ _ _ _ Hready Hj) as [x Hx].
  destruct (join_locked_outcome _ _ alone_voice _ _ _ _ _ _ Hj) as [_ Hout].
  assert (joins l4 = [] ∧ joins l2 = [] ∧ ci_voice s' = ci_voice s1 ∧ ci_voice_intent s' = ci_voice_intent s1)
    as (Hj4 & Hj2 & Hv' & Hi').
  { split_and!.
    - destruct joined as [v'|e]; [by destruct Hr as (_ & _ & ->)|]. by destruct Hr as (s8 & -> & _ & _ & ->).
    - destruct r as [[]|e]; [by destruct Hrep as (_ & _ & ->)|]. by destruct Hrep as (s8 & -> & _ & _ & ->).
    - destruct r as [[]|e]; [by destruct Hrep as (_ & -> & _)|]. by destruct Hrep as (s8 & -> & _ & -> & _).
    - destruct r as [[]|e]; [by destruct Hrep as (_ & -> & _)|]. by destruct Hrep as (s8 & -> & _ & -> & _). }
  split; [exists x; by rewrite !joins_app, Hx, Hj4, Hj2|]. rewrite Hv', Hi'.
  destruct joined as [v'|e].
  - destruct Hr as (-> & -> & ->). destruct Hout as (H7 & Hch & _ & Hcl). right. split; [|by exists v'].
    by apply closed_app_l, closed_app_l, Hcl.
  - destruct Hr as (s8 & -> & -> & -> & ->). destruct Hout as [H7 _]. left. cbn. by rewrite H7.
Qed.

(** A session can be stopped for the loss of its predecessor. A snapshot that replaces one
    voice authority by another reports the old one lost; the relay answers by closing
    whatever session of its generation is in place, also the one that the new snapshot
    authorizes. *)
Theorem stale_loss_stops_current_session {P} `{PayloadDecoders P, Broadcast (StateEvent P)}
    (store : StateStore P) (snapshot : StateSnapshot) (previous next : VoiceAuthority)
    (generation : Z) (v : VoiceSession) s log s' :
  Self_voice_authority (st_self_user (state store)) = Some previous →
  Self_voice_authority (st_self_user (from_snapshot snapshot)) = Some next → previous ≠ next →
  ci_voice s = Some v → vs_control_generation v = generation →
  vs_session_id v = Authority_voice_session_id next →
  alone_ends (react auto_rejoin_voice generation (EventVoiceLost previous)) s log tt s' →
  (replace_snapshot snapshot store).1 = Some previous ∧ ci_voice s' = None ∧ closed (vs_transport v) log.
Proof.
  intros Hp Hn Hne Hv Hg _ Ho. split.
  - unfold replace_snapshot. cbn [fst]. rewrite Hp, Hn. by rewrite decide_False.
  - pose proof (react_stops auto_rejoin_voice _ alone_voice generation (EventVoiceLost previous) _ _ _ eq_refl Ho)
      as Hstop. unfold stopped_for in Hstop. by rewrite Hv, Hg, Z.eqb_refl in Hstop.
Qed.

(** Reconnecting at once hides the end of a connection. When a host connects again after its
    connection has closed and before the relay has seen that, the new connection advances
    the generation and keeps the session and the remembered intent; the old relay then
    stops without receiving anything, so nobody closes the session or drops the intent. *)
Theorem reconnect_keeps_lost_session own (control connection old : nat) (generation : Z) s log s' :
  ci_control s = Some control → control_status control s = Some SClosed →
  ci_generation s = generation → 0 ≤ generation < u64_max →
  alone_ends (connect_locked own) s log (Ok connection) s' →
  ci_voice s' = ci_voice s ∧ ci_voice_intent s' = ci_voice_intent s ∧ ci_generation s' = generation + 1 ∧
  ∀ log' again s'', alone_ends (relay_turn auto_rejoin_voice old generation) s' log' again s'' →
    again = false ∧ s'' = s' ∧ ∃ x, log' = [existT QUpgrade x].
Proof.
  intros Hc Hst Hg Hrange Ho. apply read_outcome in Ho as (s1 & -> & Ho). rewrite Hc in Ho. cbn in Ho.
  rewrite Hst in Ho. cbn in Ho. destruct Ho as (s2 & -> & s3 & x & l1 & -> & -> & Ho).
  destruct x as [view|e]; cbn in Ho; [|by destruct Ho as (Heq & _)].
  destruct Ho as (s4 & -> & s5 & -> & Ho). cbn in Ho. destruct (ci_stopped s).
  { destruct Ho as (s6 & x & l2 & _ & _ & Ho). by destruct Ho as (Heq & _). }
  destruct Ho as (s6 & -> & s7 & -> & s8 & task & l2 & -> & -> & s9 & -> & s10 & -> & s11 & -> & s12 & -> & _ & -> & _).
  cbn. assert (wrapping_add_u64 (ci_generation s) 1 = generation + 1) as Hw.
  { unfold wrapping_add_u64, u64_max in *. rewrite Hg. apply Z.mod_small. lia. }
  split_and!; [done|done|done|]. intros log' again s'' (s13 & alive & l3 & -> & -> & Hr).
  destruct alive; cbn in Hr; [|destruct Hr as (-> & -> & ->); split_and!; [done|done|by eexists]].
  destruct Hr as (s14 & -> & Hr). cbn in Hr.
  destruct (Z.eqb_spec (wrapping_add_u64 (ci_generation s) 1) generation) as [Heq|_];
    [rewrite Hw in Heq; lia|]. cbn in Hr.
  destruct Hr as (-> & -> & ->). split_and!; [done|done|by eexists].
Qed.
End alone.

(** ** Runs in the small world of SdkClient *)

#[local] Existing Instance ToyVoice.base64.

Abbreviation toy_client := (ClientInner unit).
Abbreviation toy_act A := (prog (St:=ClientInner unit) (Lock:=Gate) (Q:=Query) (Answer:=Answer unit) A).

Definition toy_log {A} (p : toy_act A) (s : toy_client) : list {q : Query & Answer unit q} :=
  (exec ToySdk.answers p s).1.1.
Definition toy_result {A} (p : toy_act A) (s : toy_client) : A := (exec ToySdk.answers p s).1.2.
Definition toy_after {A} (p : toy_act A) (s : toy_client) : toy_client := (exec ToySdk.answers p s).2.

Lemma toy_runs {A} (p : toy_act A) (s : toy_client) :
  outcome (λ s s', s' = s) p s (toy_log p s) (toy_result p s) (toy_after p s).
Proof.
  assert (Reflexive (λ s s' : toy_client, s' = s)) by done.
  apply (exec_outcome (λ s s', s' = s) ToySdk.answers).
  unfold toy_log, toy_result, toy_after. by destruct (exec ToySdk.answers p s) as [[log a] s'].
Qed.

(** The session of the joined client. *)
Definition toy_session : VoiceSession :=
  match ci_voice ToySdk.joined with
  | Some v => v
  | None => mkVoiceSession 0 0 (mkCodecCapability "" 0 0 [])
              (mkVoiceSessionConfig (mkVoiceEndpoint "" 0) [] 0 false 0 0 None None) 0 0
  end.

Lemma toy_session_joined : ci_voice ToySdk.joined = Some toy_session.
Proof. by vm_compute. Qed.

Lemma join_negotiation_total_witness :
  ∃ config, negotiated_config toy_metadata (join_voice_negotiation ToyVoice.response) = Ok config ∧
    is_Some (cfg_session_key config).
Proof.
  destruct (join_negotiation_total toy_metadata 5 ToyVoice.response true)
    as (config & Hc & _ & _ & _ & Hk & _); [by vm_compute..|].
  exists config. split; [exact Hc|]. by apply Hk; vm_compute.
Defined.

Lemma join_voice_outcomes_witness :
  let p := join_locked true 5 ToySdk.request in
  is_ok (toy_result p ToySdk.joined) = true ∧
  ∃ v, ci_voice ToySdk.joined = Some v ∧ closed (vs_transport v) (toy_log p ToySdk.joined) ∧
    ci_voice (toy_after p ToySdk.joined) ≠ Some v.
Proof.
  intros p. pose proof (join_voice_outcomes true (λ s s', s' = s) alone_voice 5 ToySdk.request _ _ _ _
    (toy_runs p ToySdk.joined)) as [_ Hr].
  assert (is_ok (toy_result p ToySdk.joined) = true) as Hok by (vm_compute; reflexivity).
  split; [exact Hok|]. destruct (toy_result p ToySdk.joined) as [v|e]; [|discriminate Hok].
  destruct Hr as (_ & _ & _ & Hcl). exists toy_session. split; [exact toy_session_joined|].
  split; [exact (Hcl _ toy_session_joined)|]. vm_compute. intros [=].
Defined.

(** A leave that nobody has confirmed before: the server confirms it. *)
Lemma leave_voice_outcomes_witness :
  ci_voice (toy_after leave_current ToySdk.joined) = None ∧
  confirmed toy_session (toy_log leave_current ToySdk.joined) ∧
  (length (leaves (toy_log leave_current ToySdk.joined)) ≤ 1)%nat.
Proof.
  assert (∀ s s' : toy_client, s' = s → marks (λ _, False) s s') as Hmarks by (intros s s' ->; split; [done|by left]).
  assert (∀ t, t ∈ ci_left ToySdk.joined → False) as Hnone
    by (intros t; change (ci_left ToySdk.joined) with (∅ : gset nat); apply not_elem_of_empty).
  destruct (leave_voice_outcomes (λ s s', s' = s) alone_voice (λ _, False) Hmarks _ _ _ _ Hnone (toy_runs leave_current ToySdk.joined))
    as (Hle & _ & Hr).
  assert (toy_result leave_current ToySdk.joined = Ok tt) as Hok by (vm_compute; reflexivity).
  rewrite Hok, toy_session_joined in Hr. destruct Hr as (Hv & _ & [Hc|[[] _]]). split_and!; [exact Hv|exact Hc|exact Hle].
Defined.

Abbreviation toy_event := (Event (St:=toy_client) (Lock:=Gate) (Q:=Query) (Answer:=Answer unit)).

(** The session is joined while the relay waits for the voice gate. *)
Definition toy_waiting : toy_client := set_voice None ToySdk.joined.
Definition toy_others (mine : gset Gate) (s s' : toy_client) : Prop := VoiceGate ∈ mine → ci_voice s' = ci_voice s.

Lemma toy_late_join :
  let p := react true 1 (StatusChanged SReconnecting) in
  ∃ h, history toy_others ∅ p toy_waiting h tt (toy_after p ToySdk.joined) ∧
    ∃ rest, h = Took VoiceGate ToySdk.joined :: rest.
Proof.
  intros p. assert (toy_result p ToySdk.joined = tt) as Hp by by destruct (toy_result p ToySdk.joined).
  pose proof (toy_runs p ToySdk.joined) as Hr. rewrite Hp in Hr. destruct Hr as (s1 & -> & Hr).
  apply (outcome_history _ toy_others _ ({[VoiceGate]} ∪ ∅)) in Hr as (h & Hh & _); [|by intros mine s s' -> _].
  eexists. split; [|by eexists]. exists ToySdk.joined, h. split_and!; [by intros Hin%not_elem_of_empty|done|exact Hh].
Qed.

Lemma relay_stops_voice_witness :
  let p := react true 1 (StatusChanged SReconnecting) in
  ci_voice toy_waiting = None ∧ ∃ (h h2 : list toy_event) given,
    history toy_others ∅ p toy_waiting h tt (toy_after p ToySdk.joined) ∧
    Gave VoiceGate given ∈ h ∧ ci_voice given = None ∧ closed (vs_transport toy_session) (asked h2).
Proof.
  intros p. split; [done|]. destruct toy_late_join as (h & Hh & rest & Hrest).
  destruct (relay_stops_voice true toy_others (λ mine s s' Hin Ho, Ho Hin) 1 (StatusChanged SReconnecting) _ _ _ eq_refl Hh)
    as (h1 & h2 & h3 & taken & given & Heq & Hno & Hv).
  assert (taken = ToySdk.joined) as ->.
  { rewrite Hrest in Heq. destruct h1 as [|x h1]; [by injection Heq|]. injection Heq as <- _.
    destruct (Hno ToySdk.joined) as [Hn _]. destruct Hn. by constructor. }
  rewrite toy_session_joined in Hv. assert (vs_control_generation toy_session = 1) as Hg by (vm_compute; reflexivity).
  rewrite Hg in Hv. cbn beta iota in Hv. change (1 =? 1) with true in Hv. destruct Hv as [Hnone Hclosed].
  exists h, h2, given. split_and!; [exact Hh| |exact Hnone|exact Hclosed]. rewrite Heq, elem_of_app. right.
  apply list_elem_of_further, elem_of_app. right. by constructor.
Defined.

Lemma toy_joined_ready : ready 0 ToySdk.control_id toy_metadata ToySdk.joined.
Proof. split; by vm_compute. Qed.

Lemma live_status_rejoins_witness :
  let p := react true 1 (StatusChanged SLive) in
  length (joins (toy_log p ToySdk.joined)) = 1%nat.
Proof.
  intros p. assert (toy_result p ToySdk.joined = tt) as Hp by by destruct (toy_result p ToySdk.joined).
  pose proof (toy_runs p ToySdk.joined) as Hr. rewrite Hp in Hr.
  destruct (live_status_rejoins true 0 ToySdk.control_id toy_metadata 1 toy_session
    (mkVoiceIntent 5 ToySdk.request (replicate 16 1)) _ _ _ eq_refl toy_joined_ready
    ltac:(vm_compute; reflexivity) toy_session_joined ltac:(vm_compute; reflexivity) ltac:(vm_compute; reflexivity) Hr)
    as [[x Hx] _].
  by rewrite Hx.
Defined.

(** The authority moves to the session that has just been joined. *)
Definition toy_authority (session : byte_list) : VoiceAuthority :=
  mkVoiceAuthority 5 ToySdk.control_id session "g".
Definition toy_moved (session : byte_list) : StateSnapshot :=
  mkStateSnapshot "cursor" (replicate 16 1) 10 "1"
    (mkSnapshotState (mkServerState "s" "v")
       (mkSelfUserState (mkUser 1 "u" "n" None) [] [] (mkPresence "online" None) (Some (toy_authority session)))
       [] [] [] [] []).

Lemma stale_loss_stops_current_session_witness :
  let p := react true 1 (EventVoiceLost (toy_authority (replicate 16 9))) in
  ci_voice ToySdk.joined ≠ None ∧ ci_voice (toy_after p ToySdk.joined) = None.
Proof.
  intros p. assert (toy_result p ToySdk.joined = tt) as Hp by by destruct (toy_result p ToySdk.joined).
  pose proof (toy_runs p ToySdk.joined) as Hr. rewrite Hp in Hr.
  split; [by rewrite toy_session_joined|].
  exact (proj1 (proj2 (stale_loss_stops_current_session (P:=ToyPayload.value) true
    (store_from_snapshot (toy_moved (replicate 16 9))) (toy_moved (replicate 16 1))
    (toy_authority (replicate 16 9)) (toy_authority (replicate 16 1)) 1 toy_session _ _ _
    eq_refl eq_refl ltac:(by intros [=]) toy_session_joined ltac:(vm_compute; reflexivity)
    ltac:(vm_compute; reflexivity) Hr))).
Defined.

(** The connection of the joined client has closed, and the relay has not looked. *)
Definition toy_dropped : toy_client := set_connections [mkControlView SClosed None] ToySdk.joined.

Lemma reconnect_keeps_lost_session_witness :
  ci_voice (toy_after (connect_locked true) toy_dropped) = ci_voice ToySdk.joined ∧
  ci_generation (toy_after (connect_locked true) toy_dropped) = 2.
Proof.
  assert (toy_result (connect_locked true) toy_dropped = Ok 1%nat) as Hp by (vm_compute; reflexivity).
  pose proof (toy_runs (connect_locked true) toy_dropped) as Hr. rewrite Hp in Hr.
  destruct (reconnect_keeps_lost_session true true 0 1 0 1 toy_dropped _ _ ltac:(vm_compute; reflexivity)
    ltac:(vm_compute; reflexivity) ltac:(vm_compute; reflexivity) ltac:(by vm_compute) Hr) as (Hv & _ & Hg & _).
  split; [exact Hv|exact Hg].
Defined.
