(* ===== verification/SdkTransports.v ===== *)
(** The UDP transports of the high-level client (crates/zephyrvox-sdk/src: voice_api.rs,
    client.rs, events.rs, lifecycle.rs). A transport is started under the voice gate, and
    whoever gives the gate back has left every transport closed but that of the current
    session: the gate protects this invariant. It fails when a call that holds the gate is
    dropped. *)

From S2P Require Import Prelude Text Types Json Wire ClientModel VoiceTypes VoiceConfig RealtimeTypes.
From S2P Require Import HttpTypes HttpVoice HttpAuth SdkTypes SdkProgram SdkVoice SdkClient SdkPool SdkShutdown.

Create HintDb quiet.

Section transports.
Context {V : Type} `{Base64Lib}.
Context (auto_rejoin_voice : bool).
Abbreviation act A := (prog (St:=ClientInner V) (Lock:=Gate) (Q:=Query) (Answer:=Answer V) A).
Abbreviation St := (ClientInner V).
Abbreviation Config := (SdkProgram.Config (St:=St) (Lock:=Gate)).
Implicit Types (s : St) (c : Config).

(** ** The invariant of the voice gate *)

(** The transport of the session in place. *)
Definition current (t : nat) s : Prop := ∃ v, ci_voice s = Some v ∧ vs_transport v = t.

(** A session has left the server only after its transport was closed. *)
Definition left_closed s : Prop := ci_left s ⊆ ci_closed s.

(** Every transport has been closed, is the current one, or is excused. *)
Record accounted (excused : nat → Prop) s : Prop := {
  accounted_transports t : (t < ci_transports s)%nat → t ∈ ci_closed s ∨ current t s ∨ excused t;
  accounted_left : left_closed s;
}.

Definition tidy s : Prop := accounted (λ _, False) s.

(** What any task may do to the transports at any time. *)
Record env s s' : Prop := {
  env_closed : ci_closed s ⊆ ci_closed s';
  env_left : left_closed s → left_closed s';
}.

(** What the rest of the client may do while a task holds the gate. *)
Record gate_rely s s' : Prop := {
  gate_voice : ci_voice s' = ci_voice s;
  gate_transports : ci_transports s' = ci_transports s;
  gate_env :> env s s';
}.

#[export] Instance env_order : PreOrder env.
Proof. split; [by intros s|]. intros s1 s2 s3 [Hc1 Hl1] [Hc2 Hl2]. split; [by etrans|tauto]. Qed.

#[export] Instance gate_rely_order : PreOrder gate_rely.
Proof.
  split; [by intros s|]. intros s1 s2 s3 [Hv1 Ht1 He1] [Hv2 Ht2 He2]. split; [congruence|congruence|by trans s2].
Qed.

Lemma accounted_rely excused s s' : gate_rely s s' → accounted excused s → accounted excused s'.
Proof.
  intros [Hv Ht [Hc Hl]] [Ha Hleft]. split; [|by apply Hl]. intros t Hlt. rewrite Ht in Hlt. unfold current.
  rewrite Hv. destruct (Ha t Hlt) as [?|?]; [left; by apply Hc|by right].
Qed.

Lemma accounted_done excused s :
  accounted excused s → (∀ t, excused t → t ∈ ci_closed s ∨ current t s) → tidy s.
Proof.
  intros [Ha Hleft] He. split; [|done]. intros t Hlt.
  destruct (Ha t Hlt) as [?|[?|Ht]]; [by left|by right; left|]. specialize (He t Ht). tauto.
Qed.

(** Programs that neither touch the session nor start a transport, whatever the rest of
    the client does. *)
Fixpoint quiet_from {A} (p : act A) s : Prop :=
  match p with
  | Ret _ => True
  | Atomic f m => ∀ s', env s s' → gate_rely s' (f s') ∧ quiet_from (m s') (f s')
  | Acquire l m | Release l m => l ≠ VoiceGate ∧ ∀ s', env s s' → quiet_from m s'
  | Await _ m => ∀ a s', env s s' → quiet_from (m a) s'
  end.

(** Programs for a task that holds the gate. *)
Fixpoint gated_from {A} (p : act A) s : Prop :=
  match p with
  | Ret _ => True
  | Atomic f m => ∀ s', gate_rely s s' → env s' (f s') ∧ gated_from (m s') (f s')
  | Acquire l m | Release l m => l ≠ VoiceGate ∧ ∀ s', gate_rely s s' → gated_from m s'
  | Await _ m => ∀ a s', gate_rely s s' → gated_from (m a) s'
  end.

Definition quiet {A} (p : act A) : Prop := ∀ s, quiet_from p s.
Definition gated {A} (p : act A) : Prop := ∀ s, gated_from p s.

Abbreviation ends p s log r s' := (outcome (Answer:=Answer V) gate_rely p s log r s').

Lemma quiet_alt {A} (p : act A) : quiet p ↔ ∀ s, quiet_from p s.
Proof. done. Qed.

Lemma gated_alt {A} (p : act A) : gated p ↔ ∀ s, gated_from p s.
Proof. done. Qed.

Lemma quiet_gated {A} (p : act A) : quiet p → gated p.
Proof.
  intros Hp s. specialize (Hp s). revert s Hp.
  induction p as [a|f n IH|l n IH|l n IH|q n IH]; cbn; intros s Hp; [done| | | |].
  - intros s' Hs. destruct (Hp s' (gate_env _ _ Hs)) as [Hf Hn]. split; [apply Hf|]. by apply IH.
  - destruct Hp as [Hl Hn]. split; [done|]. intros s' Hs. by apply IH, Hn, Hs.
  - destruct Hp as [Hl Hn]. split; [done|]. intros s' Hs. by apply IH, Hn, Hs.
  - intros a s' Hs. by apply IH, Hp, Hs.
Qed.

Lemma quiet_outcome {A} (p : act A) s log r s' : quiet p → ends p s log r s' → gate_rely s s'.
Proof.
  intros Hp. specialize (Hp s). revert s log Hp.
  induction p as [a|f n IH|l n IH|l n IH|q n IH]; cbn; intros s log Hp Ho.
  - by destruct Ho as (_ & -> & _).
  - destruct Ho as (s1 & Hs & Ho). destruct (Hp s1 (gate_env _ _ Hs)) as [Hf Hn].
    trans s1; [done|]. trans (f s1); [done|]. by eapply IH.
  - destruct Ho as (s1 & Hs & Ho), Hp as [_ Hn]. trans s1; [done|]. eapply IH; [|done]. apply Hn, Hs.
  - destruct Ho as (s1 & Hs & Ho), Hp as [_ Hn]. trans s1; [done|]. eapply IH; [|done]. apply Hn, Hs.
  - destruct Ho as (s1 & x & rest & Hs & -> & Ho). trans s1; [done|]. eapply IH; [|done]. apply Hp, Hs.
Qed.

Lemma quiet_from_bind {A B} (p : act A) (m : A → act B) s :
  quiet_from p s → (∀ a, quiet (m a)) → quiet_from (bind p m) s.
Proof.
  intros Hp Hm. revert s Hp. induction p as [a|f n IH|l n IH|l n IH|q n IH]; cbn; intros s Hp.
  - apply Hm.
  - intros s' Hs. destruct (Hp s' Hs) as [Hf Hn]. split; [done|]. by apply IH.
  - destruct Hp as [Hl Hn]. split; [done|]. intros s' Hs. by apply IH, Hn.
  - destruct Hp as [Hl Hn]. split; [done|]. intros s' Hs. by apply IH, Hn.
  - intros a s' Hs. by apply IH, Hp.
Qed.

Lemma quiet_bind {A B} (p : act A) (m : A → act B) : quiet p → (∀ a, quiet (m a)) → quiet (bind p m).
Proof. intros Hp Hm s. by apply quiet_from_bind. Qed.

Lemma gated_bind {A B} (p : act A) (m : A → act B) : gated p → (∀ a, gated (m a)) → gated (bind p m).
Proof.
  intros Hp Hm s. specialize (Hp s). revert s Hp.
  induction p as [a|f n IH|l n IH|l n IH|q n IH]; cbn; intros s Hp.
  - apply Hm.
  - intros s' Hs. destruct (Hp s' Hs) as [Hf Hn]. split; [done|]. by apply IH.
  - destruct Hp as [Hl Hn]. split; [done|]. intros s' Hs. by apply IH, Hn.
  - destruct Hp as [Hl Hn]. split; [done|]. intros s' Hs. by apply IH, Hn.
  - intros a s' Hs. by apply IH, Hp.
Qed.

(** ** The combinators *)

Lemma quiet_ret {A} (a : A) : quiet (Ret a).
Proof. done. Qed.
Lemma quiet_raise {A} e : quiet (raise (A:=A) e).
Proof. done. Qed.
Lemma quiet_modify (f : St → St) : (∀ s, gate_rely s (f s)) → quiet (modify f).
Proof. intros Hf s s' _. by split. Qed.
Lemma quiet_read {A} (f : St → A) : quiet (read f).
Proof. intros s s' _. by split. Qed.
Lemma quiet_atomically {A} (f : St → A * St) : (∀ s, gate_rely s (f s).2) → quiet (atomically f).
Proof. intros Hf s s' _. by split. Qed.
Lemma quiet_call q : quiet (call q).
Proof. done. Qed.
Lemma quiet_map_error {E F A} (f : E → F) (p : act (result E A)) : quiet p → quiet (map_error f p).
Proof. intros Hp. by apply quiet_bind. Qed.
Lemma quiet_try {A E B} (p : act (result E A)) (m : A → act (result E B)) :
  quiet p → (∀ a, quiet (m a)) → quiet (try_bind p m).
Proof. intros Hp Hm. apply quiet_bind; [done|]. intros [a|e]; [apply Hm|apply quiet_ret]. Qed.
Lemma quiet_release {A} l (a : A) : l ≠ VoiceGate → quiet (Release l (Ret a)).
Proof. by intros Hl s. Qed.
Lemma quiet_lock {A} l (p : act A) : l ≠ VoiceGate → quiet p → quiet (with_lock l p).
Proof.
  intros Hl Hp s. split; [done|]. intros s' _. apply quiet_from_bind; [apply Hp|]. intros a. by apply quiet_release.
Qed.

Lemma gated_modify (f : St → St) : (∀ s, env s (f s)) → gated (modify f).
Proof. intros Hf s s' _. by split. Qed.
Lemma gated_atomically {A} (f : St → A * St) : (∀ s, env s (f s).2) → gated (atomically f).
Proof. intros Hf s s' _. by split. Qed.
Lemma gated_map_error {E F A} (f : E → F) (p : act (result E A)) : gated p → gated (map_error f p).
Proof. intros Hp. by apply gated_bind. Qed.
Lemma gated_try {A E B} (p : act (result E A)) (m : A → act (result E B)) :
  gated p → (∀ a, gated (m a)) → gated (try_bind p m).
Proof. intros Hp Hm. apply gated_bind; [done|]. intros [a|e]; [apply Hm|done]. Qed.
Lemma gated_lock {A} l (p : act A) : l ≠ VoiceGate → gated p → gated (with_lock l p).
Proof.
  intros Hl Hp s. split; [done|]. intros s' _. revert s'. apply gated_bind; [done|]. by intros a s'.
Qed.
End transports.

#[export] Hint Resolve quiet_ret quiet_raise quiet_read quiet_modify quiet_atomically quiet_map_error quiet_lock : quiet.
#[export] Hint Resolve quiet_bind quiet_try | 2 : quiet.
#[export] Hint Extern 1 (quiet (call ?q)) => (exact (quiet_call q)) : quiet.
#[export] Hint Extern 1 (gate_rely _ _) => (split; [done|done|by split]) : quiet.
#[export] Hint Extern 1 (env _ _) => (by split) : quiet.
#[export] Hint Extern 1 (_ ≠ VoiceGate) => discriminate : quiet.
#[export] Hint Extern 3 (quiet (match ?x with _ => _ end)) => (destruct x) : quiet.
#[export] Hint Extern 3 (quiet (let _ := _ in _)) => (cbv zeta) : quiet.
#[export] Hint Resolve gated_modify gated_atomically gated_map_error gated_lock : quiet.
#[export] Hint Resolve gated_bind gated_try | 2 : quiet.
#[export] Hint Resolve quiet_gated | 4 : quiet.
#[export] Hint Extern 3 (gated (match ?x with _ => _ end)) => (destruct x) : quiet.
#[export] Hint Extern 3 (gated (let _ := _ in _)) => (cbv zeta) : quiet.
#[global] Opaque quiet gated.

(** ** Quiet operations *)

Section quiet_ops.
Context {V : Type} `{Base64Lib}.
Abbreviation St := (ClientInner V).
Abbreviation quiet p := (quiet (V:=V) p).

Lemma close_gate t sid (s : St) : gate_rely s (remove_key sid (set_closed ({[t]} ∪ ci_closed s) s)).
Proof.
  split; [done|done|]. split; unfold left_closed; cbn; [set_solver|]. intros Hl. etrans; [exact Hl|set_solver].
Qed.

Lemma clear_own_gate v (s : St) :
  gate_rely s (match ci_voice_intent s with
    | Some i => if bool_decide (intent_session_id i = vs_session_id v) then set_intent None s else s
    | None => s
    end).
Proof. destruct (ci_voice_intent s); [case_bool_decide|]; auto with quiet. Qed.
#[local] Hint Resolve close_gate clear_own_gate : quiet.

Lemma close_worker_quiet t sid : quiet (close_worker t sid).
Proof. unfold close_worker. auto 20 with quiet. Qed.
#[local] Hint Resolve close_worker_quiet : quiet.

Lemma stop_quiet v : quiet (stop_transport v).
Proof. unfold stop_transport. auto 20 with quiet. Qed.

Lemma session_close_quiet v : quiet (session_close v).
Proof. unfold session_close, session_clear_intent. pose proof stop_quiet. auto 20 with quiet. Qed.

(** The mark that a session has left is set by the task that has closed its transport. *)
Lemma leave_locked_quiet v : quiet (leave_locked v).
Proof.
  apply quiet_alt. intros s. cbn. intros s1 H1. split; [done|]. case_bool_decide; [done|]. cbn.
  intros x s2 H2 s3 H3. split; [apply close_gate|].
  set (s4 := remove_key _ _). assert (vs_transport v ∈ ci_closed s4) as Ht by (unfold s4; cbn; set_solver).
  clearbody s4. intros s5 H5. split; [auto with quiet|].
  assert (vs_transport v ∈ ci_closed s5) as Ht5 by by apply (env_closed _ _ H5). clear H5 Ht.
  intros s6 H6. apply (env_closed _ _ H6) in Ht5. split; [done|].
  assert (∀ s : St, vs_transport v ∈ ci_closed s → ∀ s', env s s' →
            gate_rely s' (set_left ({[vs_transport v]} ∪ ci_left s') s')) as Hmark.
  { intros s0 Ht0 s' H'. apply (env_closed _ _ H') in Ht0. split; [done|done|]. split; [done|].
    unfold left_closed. cbn. set_solver. }
  destruct (control_id (vs_control v) s6); cbn; [|by destruct x].
  intros a s7 H7. apply (env_closed _ _ H7) in Ht5. destruct x as [[]|], a as [[]|]; cbn; try done.
  intros s8 H8. split; [|done]. by apply (Hmark s7).
Qed.
#[local] Hint Resolve leave_locked_quiet : quiet.

Lemma session_leave_quiet v : quiet (session_leave v).
Proof. unfold session_leave, session_clear_intent. auto 40 with quiet. Qed.

Lemma ensure_open_quiet : quiet ensure_open.
Proof. unfold ensure_open. auto with quiet. Qed.

Lemma clear_intent_quiet : quiet clear_voice_intent.
Proof. unfold clear_voice_intent. auto with quiet. Qed.

Lemma report_quiet r : quiet (report r).
Proof. unfold report. auto with quiet. Qed.

Lemma abort_quiet l : quiet (abort_tasks l).
Proof. induction l; cbn [abort_tasks]; auto with quiet. Qed.
End quiet_ops.

#[export] Hint Resolve close_worker_quiet stop_quiet session_close_quiet session_leave_quiet ensure_open_quiet
  clear_intent_quiet report_quiet abort_quiet : quiet.

Section quiet_more.
Context {V : Type} `{Base64Lib}.
Abbreviation quiet p := (quiet (V:=V) p).

Lemma discover_quiet : quiet discover.
Proof. unfold discover. auto 20 with quiet. Qed.

Lemma current_control_quiet : quiet current_control.
Proof. unfold current_control. auto 20 with quiet. Qed.
#[local] Hint Resolve current_control_quiet : quiet.

Lemma presence_quiet presence : quiet (sdk_set_presence presence).
Proof. unfold sdk_set_presence. auto 20 with quiet. Qed.

Lemma login_quiet request : quiet (sdk_login request).
Proof. unfold sdk_login. auto 20 with quiet. Qed.

Lemma send_quiet v stream payload : quiet (session_send v stream payload).
Proof. unfold session_send. auto with quiet. Qed.

Lemma spawn_quiet connection generation : quiet (spawn_event_relay connection generation).
Proof. unfold spawn_event_relay. auto 20 with quiet. Qed.
#[local] Hint Resolve spawn_quiet : quiet.

Lemma install_connection_quiet connection : quiet (install_connection connection).
Proof. unfold install_connection. auto 30 with quiet. Qed.
#[local] Hint Resolve install_connection_quiet : quiet.

Lemma connect_quiet own : quiet (connect own).
Proof. unfold connect, connect_locked. auto 40 with quiet. Qed.

Lemma shutdown_control_quiet e : quiet (shutdown_control e).
Proof. unfold shutdown_control. auto 30 with quiet. Qed.
End quiet_more.

#[export] Hint Resolve discover_quiet current_control_quiet presence_quiet login_quiet send_quiet connect_quiet
  shutdown_control_quiet : quiet.

(** ** Sections under the gate *)

Section gated.
Context {V : Type} `{Base64Lib}.
Context (auto_rejoin_voice : bool).
Abbreviation act A := (prog (St:=ClientInner V) (Lock:=Gate) (Q:=Query) (Answer:=Answer V) A).
Abbreviation St := (ClientInner V).
Abbreviation ends p s log r s' := (outcome (Answer:=Answer V) gate_rely p s log r s').
Implicit Types (s : St).

(** A section that leaves the transports accounted for if it finds them so. *)
Definition keeps_tidy {A} (p : act A) : Prop := ∀ s log r s', tidy s → ends p s log r s' → tidy s'.

Lemma tidy_quiet {A} (p : act A) : quiet p → keeps_tidy p.
Proof. intros Hp s log r s' Ht Ho. eapply accounted_rely; [|done]. by eapply quiet_outcome. Qed.

Lemma tidy_bind {A B} (p : act A) (m : A → act B) :
  keeps_tidy p → (∀ a, keeps_tidy (m a)) → keeps_tidy (bind p m).
Proof.
  intros Hp Hm s log r s' Ht Ho. apply outcome_bind in Ho as (a & s1 & l1 & l2 & Ho & Ho' & ->).
  eapply Hm; [|done]. by eapply Hp.
Qed.

Lemma tidy_try {A E B} (p : act (result E A)) (m : A → act (result E B)) :
  keeps_tidy p → (∀ a, keeps_tidy (m a)) → keeps_tidy (try_bind p m).
Proof. intros Hp Hm. apply tidy_bind; [done|]. intros [a|e]; [done|]. apply tidy_quiet, quiet_ret. Qed.

(** Starting a transport. *)
Lemma connect_transports config s log r s' :
  ends (connect_with_key_cache config) s log r s' →
  ci_voice s' = ci_voice s ∧ env s s' ∧
  match r with
  | Ok t => t = ci_transports s ∧ ci_transports s' = S (ci_transports s)
  | Err _ => ci_transports s' = ci_transports s
  end.
Proof.
  unfold connect_with_key_cache. cbn. intros (s1 & bound & rest & [Hv1 Ht1 He1] & -> & Ho).
  destruct bound as [[]|e]; cbn in Ho; [|by destruct Ho as (-> & -> & ->)].
  destruct Ho as (s2 & [Hv2 Ht2 He2] & Ho).
  destruct (admit_key config (ci_key_cache s2)) as [[[]|e] keys]; cbn in Ho;
    [|destruct Ho as (-> & -> & ->); cbn; split_and!; [congruence|by trans s1; [|trans s2]|congruence]].
  destruct Ho as (s3 & answer & rest2 & [Hv3 Ht3 He3] & -> & Ho). cbn in Hv3, Ht3.
  assert (env s s3) as He by (trans s1; [done|]; trans s2; [done|]; by trans (set_keys keys s2)).
  destruct answer as [[[]|e]|]; cbn in Ho.
  - destruct Ho as (s4 & [Hv4 Ht4 He4] & -> & -> & ->). cbn. split_and!; [congruence|by trans s3; [|by trans s4]|congruence..].
  - destruct Ho as (s4 & [Hv4 Ht4 He4] & -> & -> & ->). cbn. split_and!; [congruence|by trans s3; [|by trans s4]|congruence].
  - destruct Ho as (-> & -> & ->). split_and!; [congruence|done|congruence].
Qed.

Lemma close_worker_closes t sid s log r s' : ends (close_worker t sid) s log r s' → t ∈ ci_closed s'.
Proof. intros (s1 & x & rest & _ & -> & s2 & _ & -> & -> & ->). cbn. set_solver. Qed.

Lemma stop_closes v s log r s' : ends (stop_transport v) s log r s' → vs_transport v ∈ ci_closed s'.
Proof.
  intros Ho. destruct Ho as (s1 & _ & Ho).
  apply outcome_bind in Ho as (a & s2 & l1 & l2 & Ho & (s3 & [_ _ [Hc _]] & _ & -> & _) & ->). apply Hc.
  apply outcome_bind in Ho as (b & s4 & l3 & l4 & Hcl & Ho & ->). apply close_worker_closes in Hcl.
  destruct Ho as (s5 & [_ _ [Hc5 _]] & _ & -> & _). cbn. by apply Hc5.
Qed.

(** Replacing the session excuses the transport of the old one. *)
Lemma replace_accounted excused v s :
  accounted excused s →
  accounted (λ t, current t s ∨ excused t ∧ ∀ w, v = Some w → vs_transport w ≠ t) (set_voice v s).
Proof.
  intros [Ha Hleft]. split; [|done]. intros t Hlt. destruct (Ha t Hlt) as [?|[?|He]]; [by left|by right; right; left|].
  right. destruct v as [w|]; [|by right; right].
  destruct (decide (vs_transport w = t)) as [Heq|Hne]; [left; by exists w|]. right; right. split; [done|].
  by intros w' [= <-].
Qed.

(** Closing what was excused. *)
Lemma closed_accounted (excused : nat → Prop) s s' t :
  accounted excused s → gate_rely s s' → (∀ u, excused u → u = t) → t ∈ ci_closed s' → tidy s'.
Proof.
  intros Ha Hr He Ht. eapply accounted_done; [by eapply accounted_rely|]. intros u ->%He. by left.
Qed.

Lemma install_tidy session request reuse s log r s' :
  accounted (λ t, t = vs_transport session) s →
  ends (install_session auto_rejoin_voice session request reuse) s log r s' → tidy s'.
Proof.
  intros Ha Ho. apply outcome_bind in Ho as (previous & s1 & l1 & l2 & Hp & Ho & ->).
  assert (accounted (λ t, ∃ v, previous = Some v ∧ vs_transport v = t) s1) as Ha1.
  { destruct Hp as (s2 & H2 & s3 & H3 & s4 & H4 & -> & -> & _).
    eapply accounted_rely; [exact H4|].
    assert (accounted (λ t, t = vs_transport session) s3) as Ha3 by (eapply accounted_rely; [by trans s2|done]).
    destruct (replace_accounted _ (Some session) _ Ha3) as [Hr Hleft]. split; [|done]. intros t Hlt.
    destruct (Hr t Hlt) as [?|[?|[Hc|[-> Hne]]]];
      [by left|by right; left|by right; right|by destruct (Hne session eq_refl)]. }
  apply outcome_bind in Ho as ([] & s2 & l3 & l4 & Hc & Ho & ->).
  assert (tidy s2) as Ht2.
  { destruct previous as [v|].
    - apply outcome_bind in Hc as (x & s3 & l5 & l6 & Hs & (_ & -> & _) & _).
      apply (closed_accounted _ s1 _ (vs_transport v) Ha1);
        [by eapply quiet_outcome; [|exact Hs]; auto with quiet| |by eapply stop_closes].
      by intros u (w & [= <-] & <-).
    - destruct Hc as (_ & -> & _). eapply accounted_done; [done|]. by intros t (v & ? & _). }
  eapply accounted_rely; [|exact Ht2].
  eapply quiet_outcome; [|exact Ho]. destruct reuse; auto 20 with quiet.
Qed.

(** What [join_voice] does with a transport once it runs. *)
Lemma started_accounted s1 s2 t :
  tidy s1 → ci_voice s2 = ci_voice s1 → env s1 s2 → ci_transports s2 = S t → t = ci_transports s1 →
  accounted (λ u, u = t) s2.
Proof.
  intros [Ht Hleft] Hv He Hn Heq. split; [|by apply He]. intros u Hlt.
  destruct (decide (u = t)) as [->|Hne]; [by right; right|].
  destruct (Ht u) as [?|[?|[]]]; [lia|left; by apply He|]. right; left. unfold current. by rewrite Hv.
Qed.

Lemma unstarted_tidy s1 s2 :
  tidy s1 → ci_voice s2 = ci_voice s1 → env s1 s2 → ci_transports s2 = ci_transports s1 → tidy s2.
Proof. intros Ht Hv He Hn. eapply accounted_rely; [by split|done]. Qed.

(** The check after a transport has started, and its two ends. *)
Lemma finish_tidy t channel_id request control id generation codec config reuse s log r s' :
  accounted (λ u, u = t) s →
  ends (let> stopped := read ci_stopped in
        let> replaced := read (λ s, negb (ci_generation s =? generation)) in
        let> renewed := read (λ s, negb (bool_decide (control_id control s = Some id))) in
        if stopped || replaced || renewed then
          let> _ := close_worker t (cfg_session_id config) in
          let> stopped := read ci_stopped in
          raise (if stopped : bool then SdkClosed else VoiceControlUnavailable)
        else
          install_session auto_rejoin_voice (mkVoiceSession t channel_id codec config control generation) request reuse)
    s log r s' → tidy s'.
Proof.
  intros Ha (s3 & H3 & s4 & H4 & s5 & H5 & Ho). unfold Datatypes.id in H4, H5, Ho.
  assert (gate_rely s s5) as Hs by (trans s3; [done|]; by trans s4).
  match type of Ho with
  | outcome _ (bind (Ret ?b) _) _ _ _ _ => destruct (ci_stopped s3 || negb (ci_generation s4 =? generation) || b) eqn:Hb
  end; cbn [bind] in Ho; rewrite Hb in Ho.
  - destruct Ho as (s6 & x & rest & H6 & _ & s7 & H7 & s8 & H8 & _ & -> & _).
    eapply accounted_rely; [exact H8|]. apply (closed_accounted _ s _ t Ha); [|done|cbn; set_solver].
    trans s5; [done|]. trans s6; [done|]. trans s7; [done|]. apply close_gate.
  - eapply install_tidy; [|exact Ho]. by eapply accounted_rely.
Qed.

Lemma start_tidy channel_id request control id generation m codec response :
  keeps_tidy (start_session auto_rejoin_voice channel_id request control id generation m codec response).
Proof.
  unfold start_session. destruct (negb _); [apply tidy_quiet; auto with quiet|].
  apply tidy_try; [apply tidy_quiet; auto with quiet|]. intros key.
  apply tidy_bind; [apply tidy_quiet; auto with quiet|]. intros reuse.
  apply tidy_try; [apply tidy_quiet; auto with quiet|]. intros config s log r s' Ht Ho.
  apply outcome_bind in Ho as (x & s1 & l1 & l2 & Hc & Ho & ->).
  apply outcome_bind in Hc as (y & s2 & l3 & l4 & Hc & (-> & -> & ->) & _).
  apply connect_transports in Hc as (Hv & He & Hy). destruct y as [t|e]; cbn [map_err] in Ho.
  - destruct Hy as [Ht2 Hn]. apply (finish_tidy t) in Ho; [done|]. subst t. by eapply started_accounted.
  - destruct Ho as (_ & -> & _). by apply (unstarted_tidy s).
Qed.

Lemma join_tidy channel_id request : keeps_tidy (join_locked auto_rejoin_voice channel_id request).
Proof.
  unfold join_locked.
  apply tidy_try; [apply tidy_quiet; auto with quiet|]. intros control.
  apply tidy_bind; [apply tidy_quiet; auto with quiet|]. intros live.
  destruct (negb live); [apply tidy_quiet; auto with quiet|].
  apply tidy_try; [apply tidy_quiet; auto with quiet|]. intros m.
  apply tidy_try; [apply tidy_quiet; auto with quiet|]. intros codec.
  apply tidy_bind; [apply tidy_quiet; auto with quiet|]. intros live'.
  destruct (negb live'); [apply tidy_quiet; auto with quiet|].
  apply tidy_bind; [apply tidy_quiet; auto with quiet|]. intros id.
  apply tidy_try; [apply tidy_quiet; auto with quiet|]. intros id'.
  apply tidy_bind; [apply tidy_quiet; auto with quiet|]. intros generation.
  apply tidy_try; [apply tidy_quiet; auto with quiet|]. intros response. apply start_tidy.
Qed.

(** Sections that take the session out of its place. *)
Lemma taken_accounted s v : ci_voice s = Some v → tidy s → accounted (λ t, t = vs_transport v) (set_voice None s).
Proof.
  intros Hv Ht. destruct (replace_accounted _ None _ Ht) as [Hr Hleft]. split; [|done]. intros t Hlt.
  destruct (Hr t Hlt) as [?|[?|[(w & Hw & <-)|[[] _]]]]; [by left|by right; left|]. right; right. congruence.
Qed.

Lemma take_nothing_tidy s : ci_voice s = None → tidy s → tidy (set_voice None s).
Proof. intros Hv Ht. eapply accounted_rely; [|done]. by split. Qed.

(** A leave that succeeds has the transport closed, by itself or before. *)
Lemma leave_closes v s log s' :
  left_closed s → ends (session_leave v) s log (Ok tt) s' → vs_transport v ∈ ci_closed s'.
Proof.
  intros Hl Ho. apply outcome_bind in Ho as ([] & s1 & l1 & l2 & Hi & Ho & ->).
  assert (gate_rely s s1) as H1 by (eapply quiet_outcome; [|exact Hi]; apply quiet_modify; intros; apply clear_own_gate).
  apply (env_left _ _ H1) in Hl. clear Hi H1 s. destruct Ho as (s2 & H2 & Ho). apply (env_left _ _ H2) in Hl.
  apply outcome_bind in Ho as (r & s3 & l3 & l4 & Ho & (s4 & H4 & Hr & -> & _) & ->). subst r.
  apply (env_closed _ _ H4). clear H2 H4 s1.
  destruct Ho as (s1 & H1 & Ho). unfold Datatypes.id in Ho. apply (env_left _ _ H1) in Hl.
  cbn [bind] in Ho. case_bool_decide as Hgone.
  { destruct Ho as (_ & -> & _). by apply Hl. }
  apply outcome_bind in Ho as (x & s5 & l5 & l6 & Hc & Ho & ->). apply close_worker_closes in Hc.
  destruct Ho as (s6 & H6 & s7 & H7 & Ho). apply (env_closed _ _ H6) in Hc.
  assert (vs_transport v ∈ ci_closed s7) as Hc7 by by apply (env_closed _ _ H7). unfold Datatypes.id in Ho.
  cbn [bind] in Ho. destruct (control_id (vs_control v) s7) as [id|].
  - destruct Ho as (s8 & answer & rest & H8 & _ & Ho). apply (env_closed _ _ H8) in Hc7.
    destruct x as [[]|e]; cbn in Ho; [|by destruct Ho as (? & _)].
    destruct answer as [[]|e]; cbn in Ho; [|by destruct Ho as (? & _)].
    destruct Ho as (s9 & H9 & _ & -> & _). cbn. by apply (env_closed _ _ H9).
  - destruct x as [[]|e]; cbn in Ho; by destruct Ho as (? & _).
Qed.

(** Taking the session out of its place, under the session lock. *)
Lemma take_outcome (take : St → option VoiceSession * St) s log session s' :
  (∀ s, take s = (ci_voice s, set_voice None s) ∨ take s = (None, s)) →
  tidy s → ends (with_lock VoiceLock (atomically take)) s log session s' →
  accounted (λ t, ∃ v, session = Some v ∧ t = vs_transport v) s' ∧ (is_Some session → ci_voice s' = None).
Proof.
  intros Htake Ht (s1 & H1 & s2 & H2 & s3 & H3 & -> & -> & _).
  split; [|rewrite (gate_voice _ _ H3); destruct (Htake s2) as [Heq|Heq]; rewrite Heq; [done|by intros []]].
  eapply accounted_rely; [exact H3|].
  assert (tidy s2) as Ht2 by (eapply accounted_rely; [by trans s1|done]).
  destruct (Htake s2) as [Heq|Heq]; rewrite Heq; cbn.
  - destruct (ci_voice s2) as [v|] eqn:Hv.
    + destruct (taken_accounted _ _ Hv Ht2) as [Ha Hl]. split; [|done]. intros t Hlt.
      destruct (Ha t Hlt) as [?|[?| ->]]; [by left|by right; left|]. right; right. by exists v.
    + destruct (take_nothing_tidy _ Hv Ht2) as [Ha Hl]. split; [|done]. intros t Hlt.
      destruct (Ha t Hlt) as [?|[?|[]]]; [by left|by right; left].
  - destruct Ht2 as [Ha Hl]. split; [|done]. intros t Hlt.
    destruct (Ha t Hlt) as [?|[?|[]]]; [by left|by right; left].
Qed.

Lemma leave_tidy : keeps_tidy leave_current.
Proof.
  intros s log r s' Ht Ho. apply outcome_bind in Ho as (session & s1 & l1 & l2 & Htk & Ho & ->).
  apply take_outcome in Htk as [Ha Hnone]; [|intros s0; by left|done].
  destruct session as [v|].
  2:{ destruct Ho as (_ & -> & _). eapply accounted_done; [done|]. by intros t (v & ? & _). }
  apply outcome_bind in Ho as (x & s2 & l3 & l4 & Hl & Ho & ->).
  assert (gate_rely s1 s2) as H2 by (eapply quiet_outcome; [|exact Hl]; auto with quiet).
  destruct x as [[]|e]; cbn [is_ok negb] in Ho.
  - destruct Ho as (_ & -> & _). apply leave_closes in Hl; [|apply Ha].
    apply (closed_accounted _ s1 _ (vs_transport v) Ha); [done| |done]. by intros t (w & [= <-] & ->).
  - destruct Ho as (s3 & H3 & s4 & H4 & s5 & H5 & _ & -> & _). eapply accounted_rely; [exact H5|].
    assert (accounted (λ t, ∃ w, Some v = Some w ∧ t = vs_transport w) s4) as Ha4.
    { eapply accounted_rely; [|exact Ha]. trans s2; [done|]. by trans s3. }
    pose proof (replace_accounted _ (Some v) _ Ha4) as Hr. eapply accounted_done; [exact Hr|].
    intros t [(w & Hw & _)|[(w & [= <-] & ->) Hne]]; [|by destruct (Hne v eq_refl)].
    assert (gate_rely s1 s4) as H14 by (trans s2; [done|]; by trans s3).
    by rewrite (gate_voice _ _ H14), Hnone in Hw by done.
Qed.

(** Closing what was taken. *)
Lemma close_taken session s1 s2 s' :
  accounted (λ t, ∃ v, session = Some v ∧ t = vs_transport v) s1 → gate_rely s1 s2 → gate_rely s2 s' →
  (∀ v, session = Some v → vs_transport v ∈ ci_closed s2) → tidy s'.
Proof.
  intros Ha H12 H2 Hc. eapply accounted_rely; [exact H2|]. eapply accounted_done; [by eapply accounted_rely|].
  intros t (v & Hv & ->). left. by apply Hc.
Qed.

Lemma stop_for_tidy expected :
  keeps_tidy (let> session := with_lock VoiceLock (atomically (take_session expected)) in
              match session with
              | Some session => session_close_transport session
              | None => Ret (Ok tt)
              end).
Proof.
  intros s log r s' Ht Ho. apply outcome_bind in Ho as (session & s1 & l1 & l2 & Htk & Ho & ->).
  apply take_outcome in Htk as [Ha _]; [| |done].
  2:{ intros s0. unfold take_session. destruct (ci_voice s0) as [v|]; [|by right].
    destruct expected as [g|]; [destruct (_ =? g)|]; [by left|by right|by left]. }
  apply (close_taken session s1 s' s' Ha); [|done|].
  - eapply quiet_outcome; [|exact Ho]. destruct session; auto with quiet.
  - intros v ->. by eapply stop_closes.
Qed.

Lemma shutdown_voice_tidy :
  keeps_tidy (with_lock VoiceLock (
    let> session := atomically (λ s, (ci_voice s, set_voice None s)) in
    match session with
    | Some session =>
        let> r := session_close_transport session in
        Ret (match r with Err e => Some e | Ok _ => None end)
    | None => Ret None
    end)).
Proof.
  intros s log r s' Ht (s1 & H1 & Ho).
  apply outcome_bind in Ho as (a & s2 & l1 & l2 & (s3 & H3 & Ho) & (s4 & H4 & _ & -> & _) & _).
  cbn [bind] in Ho. assert (tidy s3) as Ht3 by (eapply accounted_rely; [by trans s1|done]).
  destruct (ci_voice s3) as [v|] eqn:Hv.
  - apply outcome_bind in Ho as (x & s5 & l3 & l4 & Hs & (_ & -> & _) & _).
    apply (closed_accounted _ (set_voice None s3) _ (vs_transport v) (taken_accounted _ _ Hv Ht3)).
    + trans s5; [|done]. eapply quiet_outcome; [|exact Hs]. auto with quiet.
    + by intros t ->.
    + apply (env_closed _ _ H4). by eapply stop_closes.
  - destruct Ho as (_ & -> & _). eapply accounted_rely; [exact H4|]. by apply take_nothing_tidy.
Qed.

(** *** These sections leave the gate alone *)

Abbreviation gated p := (gated (V:=V) p).

Lemma connect_gated config : gated (connect_with_key_cache config).
Proof.
  unfold connect_with_key_cache.
  assert (∀ s, env s (let '(r, keys) := admit_key config (ci_key_cache s) in (r, set_keys keys s)).2).
  { intros s. destruct (admit_key config (ci_key_cache s)). by split. }
  auto 20 with quiet.
Qed.
#[local] Hint Resolve connect_gated : quiet.

Lemma install_keeps_gate session request reuse : gated (install_session auto_rejoin_voice session request reuse).
Proof. unfold install_session. auto 30 with quiet. Qed.
#[local] Hint Resolve install_keeps_gate : quiet.

Lemma start_keeps_gate channel_id request control id generation m codec response :
  gated (start_session auto_rejoin_voice channel_id request control id generation m codec response).
Proof. unfold start_session. auto 40 with quiet. Qed.
#[local] Hint Resolve start_keeps_gate : quiet.

Lemma join_gated channel_id request : gated (join_locked auto_rejoin_voice channel_id request).
Proof. unfold join_locked. auto 40 with quiet. Qed.

Lemma leave_gated : gated leave_current.
Proof. unfold leave_current. auto 40 with quiet. Qed.

Lemma stop_for_gated expected :
  gated (let> session := with_lock VoiceLock (atomically (take_session expected)) in
         match session with
         | Some session => session_close_transport session
         | None => Ret (Ok tt)
         end).
Proof.
  assert (∀ s : St, env s (take_session expected s).2).
  { intros s. unfold take_session. destruct (ci_voice s) as [v|]; [|by split].
    destruct expected as [g|]; [destruct (_ =? g)|]; by split. }
  auto 40 with quiet.
Qed.

Lemma shutdown_voice_gated :
  gated (with_lock VoiceLock (
    let> session := atomically (λ s, (ci_voice s, set_voice None s)) in
    match session with
    | Some session =>
        let> r := session_close_transport session in
        Ret (match r with Err e => Some e | Ok _ => None end)
    | None => Ret None
    end)).
Proof. auto 40 with quiet. Qed.
End gated.

(** ** All operations together *)

(** The operations that take the gate; a relay turn may. *)
Definition takes_gate (op : Op) : bool :=
  match op with OpJoin _ _ | OpLeave | OpRelay _ _ _ | OpShutdown => true | _ => false end.
Definition droppable (op : Op) : Prop := takes_gate op = false.
Definition may_hold (op : Op) (l : Gate) : Prop := takes_gate op = true ∨ l ≠ VoiceGate.

Section pool.
Context {V : Type} `{Base64Lib}.
Context (auto_rejoin_voice : bool).
Abbreviation act A := (prog (St:=ClientInner V) (Lock:=Gate) (Q:=Query) (Answer:=Answer V) A).
Abbreviation St := (ClientInner V).
Abbreviation Config := (SdkProgram.Config (St:=St) (Lock:=Gate)).
Implicit Types (c : Config) (can : Gate → Prop).

(** The invariant of the pool. *)
Record free_tidy c : Prop := {
  free_left : left_closed (shared c);
  free_transports : held c !! VoiceGate = None → tidy (shared c);
}.

Record trely (k : nat) c c' : Prop := {
  trely_mine s : held c !! VoiceGate = Some (k, s) ↔ held c' !! VoiceGate = Some (k, s);
  trely_gate s : held c !! VoiceGate = Some (k, s) → gate_rely (shared c) (shared c');
  trely_env : env (shared c) (shared c');
  trely_tidy : free_tidy c → free_tidy c';
}.

#[export] Instance trely_order : Rely trely.
Proof.
  intros k. split.
  - intros c. by split.
  - intros c1 c2 c3 H12 H23. split.
    + intros s. by rewrite (trely_mine _ _ _ H12), (trely_mine _ _ _ H23).
    + intros s Hl. trans (shared c2); [by eapply trely_gate|]. eapply trely_gate; [exact H23|].
      by apply (trely_mine _ _ _ H12).
    + trans (shared c2); [apply (trely_env _ _ _ H12)|apply (trely_env _ _ _ H23)].
    + intros Ht. by apply (trely_tidy _ _ _ H23), (trely_tidy _ _ _ H12).
Qed.

Abbreviation guarantee := (SdkProgram.guarantee (St:=St) (Lock:=Gate) trely).
Abbreviation wp := (SdkProgram.wp (St:=St) (Lock:=Gate) (Q:=Query) (Answer:=Answer V) answer_any trely).

(** A step that moves the state quietly and leaves the gate alone. *)
Lemma quiet_rely j c c' :
  held c' !! VoiceGate = held c !! VoiceGate → gate_rely (shared c) (shared c') → trely j c c'.
Proof.
  intros Hh Hr. split; [by intros s; rewrite Hh|done|apply Hr|].
  intros [Hl Ht]. split; [by apply Hr|]. rewrite Hh. intros Hfree. eapply accounted_rely; [done|]. by apply Ht.
Qed.

(** A step of the task that holds the gate. *)
Lemma holder_guarantee k s0 c c' :
  held c !! VoiceGate = Some (k, s0) → held c' !! VoiceGate = Some (k, s0) → env (shared c) (shared c') →
  guarantee k c c'.
Proof.
  intros Hh Hh' He j Hj. split; [|by intros s Hl; rewrite Hh in Hl; injection Hl as ->|done|].
  - intros s. rewrite Hh, Hh'. split; intros Hl; injection Hl as -> _; done.
  - intros [Hl Ht]. split; [by apply He|]. by rewrite Hh'.
Qed.

Lemma acquire_other k c l : l ≠ VoiceGate → held (acquire l k c) !! VoiceGate = held c !! VoiceGate.
Proof. intros Hl. cbn. by rewrite lookup_insert_ne. Qed.

Lemma release_other c l : l ≠ VoiceGate → held (release l c) !! VoiceGate = held c !! VoiceGate.
Proof. intros Hl. cbn. by rewrite lookup_delete_ne. Qed.

(** Quiet programs run anywhere. *)
Lemma wp_quiet {A} can k (p : act A) c :
  (∀ l, l ≠ VoiceGate → can l) → quiet p → free_tidy c → wp can k p (λ _ c, free_tidy c) c.
Proof.
  intros Hcan Hq. apply quiet_alt with (s := shared c) in Hq. revert c Hq.
  induction p as [a|f n IH|l n IH|l n IH|q n IH]; intros c Hq Ht c' Hr; pose proof (trely_tidy _ _ _ Hr Ht) as Ht';
    pose proof (trely_env _ _ _ Hr) as He.
  - done.
  - destruct (Hq _ He) as [Hg Hn].
    assert (∀ j, trely j c' (update f c')) as Hup by (intros j; by apply quiet_rely).
    split; [by intros j _|]. apply IH; [done|]. by apply (trely_tidy _ _ _ (Hup 0%nat)).
  - destruct Hq as [Hl Hn]. split; [by apply Hcan|]. intros Hfree.
    assert (∀ j, trely j c' (acquire l k c')) as Hup by (intros j; apply quiet_rely; [by apply acquire_other|done]).
    split; [by intros j _|]. apply IH; [by apply Hn|]. by apply (trely_tidy _ _ _ (Hup 0%nat)).
  - destruct Hq as [Hl Hn].
    assert (∀ j, trely j c' (release l c')) as Hup by (intros j; apply quiet_rely; [by apply release_other|done]).
    split; [by intros j _|]. apply IH; [by apply Hn|]. by apply (trely_tidy _ _ _ (Hup 0%nat)).
  - intros a _. apply IH; [by apply Hq|done].
Qed.

(** A gated program, by what it achieves among the moves that the gate allows. *)
Lemma wp_keeps_gate {A} can k s0 (p : act A) (Q : St → Prop) c :
  (∀ l, can l) → gated_from p (shared c) → held c !! VoiceGate = Some (k, s0) → free_tidy c →
  (∀ log a s', outcome gate_rely p (shared c) log a s' → ∀ s'', gate_rely s' s'' → Q s'') →
  wp can k p (λ _ c, held c !! VoiceGate = Some (k, s0) ∧ free_tidy c ∧ Q (shared c)) c.
Proof.
  intros Hcan. revert c. induction p as [a|f n IH|l n IH|l n IH|q n IH]; intros c Hg Hh Ht Ho c' Hr;
    pose proof (proj1 (trely_mine _ _ _ Hr s0) Hh) as Hh'; pose proof (trely_gate _ _ _ Hr _ Hh) as Hs;
    pose proof (trely_tidy _ _ _ Hr Ht) as Ht'.
  - split_and!; [done|done|]. by eapply Ho.
  - destruct (Hg _ Hs) as [He Hn].
    split; [by eapply holder_guarantee|]. apply IH; [done|done| |].
    + split; [apply He, Ht'|]. cbn. by rewrite Hh'.
    + intros log a s' Hout. apply (Ho log a s'). by exists (shared c').
  - destruct Hg as [Hl Hn]. split; [apply Hcan|]. intros Hfree.
    split; [eapply holder_guarantee; [done|by rewrite acquire_other|done]|].
    apply IH; [by apply Hn|by rewrite acquire_other|split; [apply Ht'|rewrite acquire_other, Hh' by done; done]|].
    intros log a s' Hout. apply (Ho log a s'). by exists (shared c').
  - destruct Hg as [Hl Hn].
    split; [eapply holder_guarantee; [done|by rewrite release_other|done]|].
    apply IH; [by apply Hn|by rewrite release_other|split; [apply Ht'|rewrite release_other, Hh' by done; done]|].
    intros log a s' Hout. apply (Ho log a s'). by exists (shared c').
  - intros x _. apply IH; [by apply Hg|done|done|].
    intros log a s' Hout. apply (Ho (existT q x :: log) a s'). by exists (shared c'), x, log.
Qed.

(** *** Whole operations *)

Definition fine {A} (p : act A) : Prop :=
  ∀ k c, free_tidy c → wp (λ _, True) k p (λ _ c, free_tidy c) c.

Lemma fine_quiet {A} (p : act A) : quiet p → fine p.
Proof. intros Hp k c. by apply wp_quiet. Qed.

Lemma fine_bind {A B} (p : act A) (m : A → act B) : fine p → (∀ a, fine (m a)) → fine (bind p m).
Proof.
  intros Hp Hm k c Ht. apply (wp_bind answer_any trely).
  refine (wp_mono answer_any trely _ _ k p _ _ c (λ _ H, H) _ (Hp k c Ht)). intros a c'. apply Hm.
Qed.

Lemma fine_try {A E B} (p : act (result E A)) (m : A → act (result E B)) :
  fine p → (∀ a, fine (m a)) → fine (try_bind p m).
Proof. intros Hp Hm. apply fine_bind; [done|]. intros [a|e]; [apply Hm|]. apply fine_quiet, quiet_ret. Qed.

Lemma fine_lock {A} l (p : act A) : l ≠ VoiceGate → fine p → fine (with_lock l p).
Proof.
  intros Hl Hp k c Ht c' Hr. split; [done|]. intros Hfree.
  assert (∀ j, trely j c' (acquire l k c')) as Hup by (intros j; apply quiet_rely; [by apply acquire_other|done]).
  split; [by intros j _|].
  apply (fine_bind p (λ a, Release l (Ret a))); [done| |by apply (trely_tidy _ _ _ (Hup 0%nat)), (trely_tidy _ _ _ Hr)].
  intros a. by apply fine_quiet, quiet_release.
Qed.

Lemma wp_release_gate {A} k s0 (a : A) c :
  held c !! VoiceGate = Some (k, s0) → free_tidy c → tidy (shared c) →
  wp (λ _, True) k (Release VoiceGate (Ret a)) (λ _ c, free_tidy c) c.
Proof.
  intros Hh Ht Hd c' Hr. pose proof (proj1 (trely_mine _ _ _ Hr s0) Hh) as Hh'.
  pose proof (trely_gate _ _ _ Hr _ Hh) as Hs. pose proof (accounted_rely _ _ _ Hs Hd) as Hd'.
  assert (free_tidy (release VoiceGate c')) as Ht'.
  { split; [apply (free_left _ (trely_tidy _ _ _ Hr Ht))|]. by intros _. }
  split; [|intros c2 Hr2; by apply (trely_tidy _ _ _ Hr2)].
  intros j Hj. split; cbn.
  - intros s. rewrite lookup_delete_eq, Hh'. split; [|done]. intros Hl. injection Hl as -> _. done.
  - intros s Hl. rewrite Hh' in Hl. by injection Hl as ->.
  - done.
  - by intros _.
Qed.

Lemma fine_gate {A} (p : act A) : keeps_tidy p → gated p → fine (with_lock VoiceGate p).
Proof.
  intros Hk Hg k c Ht c' Hr. split; [done|]. intros Hfree. pose proof (trely_tidy _ _ _ Hr Ht) as Ht'.
  assert (free_tidy (acquire VoiceGate k c')) as Ha.
  { split; [apply Ht'|]. cbn. by rewrite lookup_insert_eq. }
  split.
  - intros j Hj. split; cbn; [|by intros s Hl; rewrite Hfree in Hl|done|done].
    intros s. rewrite lookup_insert_eq, Hfree. split; [done|]. intros Hl. by injection Hl as ->.
  - apply (wp_bind answer_any trely).
    refine (wp_mono answer_any trely _ _ k p _ _ _ (λ _ H, H) _
      (wp_keeps_gate (λ _, True) k (shared c') p tidy _ (λ _, I) _ _ Ha _)).
    + intros a c2 (Hh & Ht2 & Hd). by eapply wp_release_gate.
    + apply gated_alt, Hg.
    + cbn. by rewrite lookup_insert_eq.
    + intros log a s' Ho s'' Hs. eapply accounted_rely; [exact Hs|]. eapply Hk; [|exact Ho].
      by apply (free_transports _ Ht').
Qed.

Lemma join_fine channel_id request : fine (join_voice auto_rejoin_voice channel_id request).
Proof.
  unfold join_voice. apply fine_try; [apply fine_quiet; auto with quiet|]. intros [].
  apply fine_gate; [apply join_tidy|apply join_gated].
Qed.

Lemma leave_fine : fine leave_voice.
Proof.
  unfold leave_voice. apply fine_try; [apply fine_quiet; auto with quiet|]. intros [].
  apply fine_bind; [apply fine_quiet; auto with quiet|]. intros [].
  apply fine_gate; [apply leave_tidy|apply leave_gated].
Qed.

Lemma stop_for_fine expected : fine (stop_voice_transport_for expected).
Proof. apply fine_gate; [apply stop_for_tidy|apply stop_for_gated]. Qed.

Lemma rejoin_fine : fine (rejoin_voice_if_configured auto_rejoin_voice).
Proof.
  unfold rejoin_voice_if_configured. destruct (negb auto_rejoin_voice); [apply fine_quiet; auto with quiet|].
  apply fine_bind; [apply fine_quiet; auto with quiet|]. intros [i|]; [|apply fine_quiet; auto with quiet].
  apply fine_bind; [apply join_fine|]. intros x. apply fine_quiet. destruct x; auto with quiet.
Qed.

Lemma react_fine generation e : fine (react auto_rejoin_voice generation e).
Proof.
  unfold react. apply fine_bind; [apply fine_quiet; auto with quiet|]. intros [].
  apply fine_bind.
  - destruct (stops_voice e); [|apply fine_quiet; auto with quiet].
    apply fine_bind; [apply stop_for_fine|]. intros r. apply fine_quiet. auto with quiet.
  - intros []. destruct (rejoins_voice e); [|apply fine_quiet; auto with quiet].
    apply fine_bind; [apply rejoin_fine|]. intros r. apply fine_quiet. auto with quiet.
Qed.

Lemma turn_fine connection generation : fine (relay_turn auto_rejoin_voice connection generation).
Proof.
  unfold relay_turn. apply fine_bind; [apply fine_quiet; auto with quiet|]. intros alive.
  destruct (negb alive); [apply fine_quiet; auto with quiet|].
  apply fine_bind; [apply fine_quiet; auto with quiet|]. intros current.
  destruct (negb _); [apply fine_quiet; auto with quiet|].
  apply fine_bind; [apply fine_quiet; auto with quiet|]. intros [e|missed|]; [|apply fine_quiet; auto with quiet..].
  apply fine_bind; [apply fine_quiet; auto with quiet|]. intros [].
  apply fine_bind; [apply fine_quiet; auto with quiet|]. intros alive'.
  destruct (negb alive'); [apply fine_quiet; auto with quiet|].
  apply fine_bind; [apply fine_quiet; auto with quiet|]. intros current'.
  destruct (negb _); [apply fine_quiet; auto with quiet|].
  apply fine_bind; [apply react_fine|]. intros []. apply fine_quiet. auto with quiet.
Qed.

Lemma relay_fine turns connection generation :
  fine (relay_realtime_events auto_rejoin_voice turns connection generation).
Proof.
  induction turns as [|turns IH]; cbn [relay_realtime_events]; [apply fine_quiet; auto with quiet|].
  apply fine_bind; [apply turn_fine|]. intros []; [exact IH|apply fine_quiet; auto with quiet].
Qed.

Lemma shutdown_fine : fine shutdown.
Proof.
  unfold shutdown. apply fine_lock; [done|]. apply fine_bind; [apply fine_quiet; auto with quiet|].
  intros [|]; [apply fine_quiet; auto with quiet|]. unfold teardown.
  apply fine_bind; [apply fine_gate; [apply shutdown_voice_tidy|apply shutdown_voice_gated]|].
  intros e. apply fine_quiet. auto 40 with quiet.
Qed.

Lemma code_fine op k c :
  free_tidy c → wp (may_hold op) k (code auto_rejoin_voice op) (λ _ c, free_tidy c) c.
Proof.
  intros Ht. destruct (takes_gate op) eqn:Hop.
  - refine (wp_mono answer_any trely (λ _, True) _ k _ _ _ c (λ _ _, or_introl Hop) (λ _ _ H, H) _).
    assert (fine (code auto_rejoin_voice op)) as Hf; [|by apply Hf].
    destruct op; try done; cbn [code]; unfold yield;
      (apply fine_bind; [by first [apply join_fine|apply leave_fine|apply relay_fine|apply shutdown_fine]|]);
      intros r; apply fine_quiet, quiet_ret.
  - apply wp_quiet; [by right|destruct op; try done; cbn [code]; unfold yield; auto 20 with quiet|done].
Qed.

Lemma transports_verified :
  Verified (code auto_rejoin_voice) droppable outside answer_any trely (λ _ _ c, free_tidy c) may_hold free_tidy.
Proof.
  split.
  - intros k c c' Hr. apply (trely_tidy _ _ _ Hr).
  - intros k op c _. apply code_fine.
  - intros k op c Hd Hh j Hj. apply quiet_rely; [|done]. cbn.
    destruct (held c !! VoiceGate) as [[o s]|] eqn:Hg.
    + apply map_lookup_filter_Some. split; [done|]. cbn. intros ->.
      destruct (Hh _ _ Hg) as [Ht|]; [|done]. unfold droppable in Hd. congruence.
    + apply map_lookup_filter_None. by left.
  - intros k c s' Ho. apply quiet_rely; [done|]. destruct Ho; auto with quiet.
Qed.
End pool.

(** C2: no voice worker is leaked. Let any number of operations run on a fresh client,
    interleaved at every suspension point; those that never take the voice gate may be
    dropped at any time. Whenever the gate is free, every UDP transport that was ever
    started has been closed, except that of the session in place: at most one worker
    runs, none when no session is in place. *)
Theorem no_voice_worker_leaks {V} `{Base64Lib} (auto_rejoin_voice : bool) w :
  rtc (pool_step (code (V:=V) auto_rejoin_voice) droppable outside answer_any)
    (mkPool (mkConfig from_api ∅) []) w →
  held (config w) !! VoiceGate = None →
  let s := shared (config w) in
  ∀ t, (t < ci_transports s)%nat → t ∈ ci_closed s ∨ ∃ v, ci_voice s = Some v ∧ vs_transport v = t.
Proof.
  intros Hsteps Hfree s t Hlt.
  pose proof (transports_verified (V:=V) auto_rejoin_voice) as Hv.
  assert (free_tidy (config w)) as [_ Ht].
  { apply (pool_reachable _ _ _ _ _ _ _ _ Hv) in Hsteps; [by destruct Hsteps|].
    apply pool_ok_init. split; [done|]. intros _. split; [|done]. intros u Hu. cbn in Hu. lia. }
  destruct (accounted_transports _ _ (Ht Hfree) t Hlt) as [?|[?|[]]]; [by left|by right].
Qed.

(** *** A run: connect, then join. *)

#[local] Existing Instance ToyVoice.base64.

Abbreviation toy_prog := (prog (St:=ClientInner unit) (Lock:=Gate) (Q:=Query) (Answer:=Answer unit) Out).
Abbreviation toy_config := (Config (St:=ClientInner unit) (Lock:=Gate)).

Definition toy_start : Pool (St:=ClientInner unit) (Lock:=Gate) (Op:=Op) (Out:=Out) (Q:=Query) (Answer:=Answer unit) :=
  mkPool toy_fresh [].

Definition toy_tasks : list (Op * option toy_prog) :=
  [(OpConnect true, Some (Ret toy_connect.2)); (OpJoin 5 ToySdk.request, Some (Ret toy_join.2))].

Lemma toy_joined_pool can_drop :
  rtc (pool_step (code (V:=unit) true) can_drop outside answer_any) toy_start (mkPool toy_join.1 toy_tasks).
Proof.
  assert (∀ q, answer_any q (ToySdk.answers q)) as Hok by done.
  etrans; [apply (spawn_run (code true) can_drop outside answer_any ToySdk.answers (OpConnect true) toy_fresh toy_connect.1 toy_connect.2 []);
           [done|vm_compute; reflexivity]|].
  apply (spawn_run (code true) can_drop outside answer_any ToySdk.answers (OpJoin 5 ToySdk.request) _ toy_join.1 toy_join.2);
    [done|vm_compute; reflexivity].
Qed.

Lemma no_voice_worker_leaks_witness :
  ci_transports (shared toy_join.1) = 1%nat ∧ 0%nat ∉ ci_closed (shared toy_join.1) ∧
  ∃ v, ci_voice (shared toy_join.1) = Some v ∧ vs_transport v = 0%nat.
Proof.
  assert (0%nat ∉ ci_closed (shared toy_join.1)) as Hopen by (by vm_compute).
  split; [by vm_compute|]. split; [exact Hopen|].
  destruct (no_voice_worker_leaks true (mkPool toy_join.1 toy_tasks) (toy_joined_pool droppable)
    ltac:(by vm_compute) 0 ltac:(vm_compute; lia)) as [Hc|Hc]; [by destruct (Hopen Hc)|exact Hc].
Defined.
