(* ===== verification/SdkDrops.v ===== *)
(** What dropping a pending call of the high-level client leaves behind
    (crates/zephyrvox-sdk/src: voice_api.rs, lifecycle.rs). A future is dropped while it
    waits for an answer, as a time-out around it does. *)

From S2P Require Import Prelude Text Types Json Wire ClientModel VoiceTypes VoiceConfig RealtimeTypes.
From S2P Require Import HttpTypes HttpVoice HttpAuth SdkTypes SdkProgram SdkVoice SdkClient SdkPool.
From S2P Require Import SdkShutdown SdkTransports.

(** ** A shutdown that is dropped *)

Section dropping.
Context {V : Type} `{Base64Lib}.
Context (auto_rejoin_voice : bool).

Abbreviation St := (ClientInner V).
Abbreviation act A := (prog (St:=ClientInner V) (Lock:=Gate) (Q:=Query) (Answer:=Answer V) A).
Abbreviation call_code := (code (V:=V) auto_rejoin_voice).
Abbreviation any_step := (pool_step call_code any_op outside answer_any).
Abbreviation Pool := (SdkProgram.Pool (St:=St) (Lock:=Gate) (Q:=Query) (Answer:=Answer V) (Op:=Op) (Out:=Out)).
Implicit Types w : Pool.

(** The answer that a program waits for. *)
Definition waiting_for {A} (p : act A) : option Query :=
  match p with Await q _ => Some q | _ => None end.

(** A piece that does not start a stopped client again. *)
Definition stays (f : St → St) : Prop := ∀ s, ci_stopped s = true → ci_stopped (f s) = true.

Lemma untouched_stays {A} (p : act A) : untouched ci_stopped p → pieces stays p.
Proof. apply untouched_pieces. intros f Hf s Hs. by rewrite Hf. Qed.

Lemma abort_tasks_untouched tasks : untouched (ci_stopped (V:=V)) (abort_tasks tasks).
Proof. induction tasks as [|t tasks IH]; cbn; [done|by intros _]. Qed.

Lemma shutdown_stays : pieces stays (shutdown (V:=V)).
Proof.
  unfold shutdown, with_lock. cbn [pieces]. apply pieces_bind; [|done]. split; [done|]. intros s. cbn.
  destruct (ci_stopped s); [done|].
  apply untouched_stays. unfold teardown. leave_alone_with ltac:(apply abort_tasks_untouched).
Qed.

Lemma take_session_stopped expected (s : St) : ci_stopped (take_session expected s).2 = ci_stopped s.
Proof. unfold take_session. destruct (ci_voice s); [|done]. by destruct (match expected with Some _ => _ | None => _ end). Qed.

Lemma relay_untouched turns connection generation :
  untouched (ci_stopped (V:=V)) (relay_realtime_events auto_rejoin_voice turns connection generation).
Proof.
  induction turns as [|turns IH]; cbn [relay_realtime_events]; [done|].
  apply untouched_bind; [leave_alone_with ltac:(apply take_session_stopped)|]. by intros [].
Qed.

Lemma code_stays op : pieces stays (call_code op).
Proof.
  destruct op; cbn [code]; unfold yield; (apply pieces_bind; [|done]);
    first [apply shutdown_stays|apply untouched_stays, relay_untouched
      |apply untouched_stays; leave_alone_with ltac:(apply take_session_stopped)].
Qed.

(** The stages of a shutdown that finds the client stopped. *)
Definition idle (p : act Out) : Prop :=
  p = call_code OpShutdown ∨
  (∃ m, p = Atomic (set_stopped true) m ∧
     ∀ s, ci_stopped s = true → m s = Release ShutdownGate (Ret (OutUnit (Ok tt)))) ∨
  p = Release ShutdownGate (Ret (OutUnit (Ok tt))) ∨ p = Ret (OutUnit (Ok tt)).

Lemma idle_step k c p c' p' : ci_stopped (shared c) = true → idle p → head_step answer_any k c p c' p' → idle p'.
Proof.
  intros Hs Hp Hstep. destruct Hp as [->|[(m & -> & Hm)|[->| ->]]]; cbn in Hstep; inversion Hstep; subst.
  - right. left. eexists. split; [reflexivity|]. intros s Hst. cbn. by rewrite Hst.
  - right. right. left. by apply Hm.
  - by right; right; right.
Qed.

Lemma stopped_again (s : St) : ci_stopped s = true → set_stopped true s = s.
Proof. destruct s. cbn. by intros ->. Qed.

Lemma idle_shared k c p c' p' :
  ci_stopped (shared c) = true → idle p → head_step answer_any k c p c' p' → shared c' = shared c.
Proof.
  intros Hs Hp Hstep. destruct Hp as [->|[(m & -> & Hm)|[->| ->]]]; cbn in Hstep; inversion Hstep; subst; [done| |done].
  by apply stopped_again.
Qed.

(** The client is stopped for good, and the shutdowns from the [n]-th call on do nothing. *)
Record marked (n : nat) w : Prop := {
  marked_stopped : ci_stopped (shared (config w)) = true;
  marked_length : (n ≤ length (tasks w))%nat;
  marked_stays k op p : tasks w !! k = Some (op, Some p) → pieces stays p;
  marked_idle k p : (n ≤ k)%nat → tasks w !! k = Some (OpShutdown, Some p) → idle p;
}.

Lemma head_stays k (c c' : SdkProgram.Config (St:=St) (Lock:=Gate)) (p p' : act Out) :
  head_step answer_any k c p c' p' → pieces stays p →
  pieces stays p' ∧ (ci_stopped (shared c) = true → ci_stopped (shared c') = true).
Proof. intros [c0 f m|c0 l m|c0 l m|c0 q m a]; cbn; naive_solver. Qed.

Lemma tasks_stay w w' :
  any_step w w' → (∀ k op p, tasks w !! k = Some (op, Some p) → pieces stays p) →
  (∀ k op p, tasks w' !! k = Some (op, Some p) → pieces stays p) ∧
  (ci_stopped (shared (config w)) = true → ci_stopped (shared (config w')) = true).
Proof.
  intros [c c' ts k op p p' Ht Hs|c ts op|c ts k op p Ht _|c ts s' Ho] Hw; cbn in *.
  - destruct (head_stays _ _ _ _ _ Hs (Hw _ _ _ Ht)) as [Hp' Hst]. split; [|done]. intros j op' q.
    rewrite list_lookup_insert_Some. intros [(_ & [= <- <-] & _)|[_ Hj]]; [done|by eapply Hw].
  - split; [|done]. intros j op' q [Hj|[_ Hj]]%lookup_app_Some; [by eapply Hw|].
    apply list_lookup_singleton_Some in Hj as [_ [= <- <-]]. apply code_stays.
  - split; [|done]. intros j op' q. rewrite list_lookup_insert_Some. intros [(_ & [=] & _)|[_ Hj]]. by eapply Hw.
  - split; [done|]. by destruct Ho.
Qed.

Lemma marked_step n w w' : any_step w w' → marked n w → marked n w'.
Proof.
  intros Hstep [Hs Hn Hst Hi]. destruct (tasks_stay _ _ Hstep Hst) as [Hst' Hs'].
  split; [by apply Hs'| |done|]; clear Hst Hst' Hs'; destruct Hstep as [c c' ts k op p p' Ht Hs1|c ts op|c ts k op p Ht _|c ts s' Ho]; cbn in *;
    rewrite ?length_insert, ?length_app; try lia; try done; intros j q Hj.
  - rewrite list_lookup_insert_Some. intros [(-> & [= -> <-] & _)|[_ Hq]]; [|by eapply Hi].
    eapply idle_step; [done|by eapply Hi|done].
  - intros [Hq|[_ Hq]]%lookup_app_Some; [by eapply Hi|]. apply list_lookup_singleton_Some in Hq as [_ [= -> <-]]. by left.
  - rewrite list_lookup_insert_Some. intros [(_ & [=] & _)|[_ Hq]]. by eapply Hi.
Qed.

Lemma marked_run n w w' : rtc any_step w w' → marked n w → marked n w'.
Proof. induction 1; eauto using marked_step. Qed.

(** What dropping the [j]-th call leaves. *)
Definition dropped (j : nat) (op : Op) w : Pool :=
  mkPool (release_all j (config w)) (<[j := (op, None)]> (tasks w)).

(** The gate of the dropped call is free again. *)
Lemma dropped_frees j op w l s : held (config w) !! l = Some (j, s) → held (config (dropped j op w)) !! l = None.
Proof. intros Hl. cbn. apply map_lookup_filter_None. right. intros os Hos. rewrite Hl in Hos. injection Hos as <-. cbn. tauto. Qed.

Lemma idle_run k c answers :
  ci_stopped (shared c) = true → held c !! ShutdownGate = None →
  run_task k answers (call_code OpShutdown) c = Some (c, OutUnit (Ok tt)).
Proof.
  destruct c as [s h]. cbn. intros Hs Hh. rewrite Hh, Hs. cbn. unfold release, acquire, update. cbn.
  by rewrite stopped_again, delete_insert_id.
Qed.

(** C40: a shutdown that is dropped is never finished. Take any run of the client's calls,
    dropped at any time, and a [shutdown] in it that has stopped the client and holds the
    shutdown gate, wherever it has got to in its teardown. If it is dropped there, the
    state stays as it is. The next shutdown, run alone, reports success and leaves the
    whole configuration as it found it; and however the calls go on, no later shutdown ever
    waits for anybody, changes the state in one of its steps, or returns anything but
    success. So what the dropped one had not torn down no shutdown tears down any more. *)
Theorem dropped_shutdown_is_never_finished w j p s :
  rtc any_step (mkPool (mkConfig from_api ∅) []) w →
  tasks w !! j = Some (OpShutdown, Some p) → held (config w) !! ShutdownGate = Some (j, s) →
  ci_stopped (shared (config w)) = true →
  let w' := dropped j OpShutdown w in
  any_step w w' ∧ shared (config w') = shared (config w) ∧
  (∀ answers, run_task (length (tasks w')) answers (call_code OpShutdown) (config w') = Some (config w', OutUnit (Ok tt))) ∧
  ∀ w'' k q, rtc any_step w' w'' → (length (tasks w') ≤ k)%nat → tasks w'' !! k = Some (OpShutdown, Some q) →
    waiting_for q = None ∧
    (∀ c q', head_step answer_any k (config w'') q c q' → shared c = shared (config w'')) ∧
    ∀ out, q = Ret out → out = OutUnit (Ok tt).
Proof.
  intros Hsteps Hj Hg Hs w'. assert (any_step w w') as Hstep.
  { subst w'. destruct w as [c ts]. eapply pool_cancel; [exact Hj|exact I]. }
  split_and!; [done|done| |].
  - intros answers. apply idle_run; [done|by eapply dropped_frees].
  - assert (∀ k op q, tasks w !! k = Some (op, Some q) → pieces stays q) as Hst.
    { clear -Hsteps. revert w Hsteps. refine (rtc_ind_r _ _ _ _); [by intros [|k]|]. intros w1 w2 _ Hstep IH.
      by apply (tasks_stay _ _ Hstep). }
    assert (marked (length (tasks w')) w') as Hm.
    { destruct (tasks_stay _ _ Hstep Hst) as [Hst' Hs']. split; [by apply Hs'|done|done|].
      intros k q Hk Hq. apply lookup_lt_Some in Hq. lia. }
    intros w'' k q Hrun Hk Hq. pose proof (marked_run _ _ _ Hrun Hm) as Hm'.
    pose proof (marked_idle _ _ Hm' _ _ Hk Hq) as Hidle. pose proof (marked_stopped _ _ Hm') as Hs''. split_and!.
    + by destruct Hidle as [->|[(m & -> & _)|[->| ->]]].
    + intros c q' Hh. by eapply idle_shared.
    + intros out ->. by destruct Hidle as [?|[(m & ? & _)|[?|[= ->]]]].
Qed.
End dropping.

(** ** In the small world of SdkClient *)

#[local] Existing Instance ToyVoice.base64.

Abbreviation toy_step := (pool_step (code (V:=unit) true) any_op outside answer_any).
(** The client has joined; then a call runs for some steps and is dropped. *)
Definition toy_partly (n : nat) (op : Op) : toy_config * toy_prog :=
  default (toy_fresh, Ret (OutRelay)) (run_steps n 2 ToySdk.answers (code true op) toy_join.1).
Definition toy_dropped_at (n : nat) (op : Op) : toy_config := release_all 2 (toy_partly n op).1.
Definition toy_again (n : nat) (op : Op) : toy_config * Out := toy_run 3 op (toy_dropped_at n op).

(** The call is cut after [n] steps, dropped, and made again. *)
Lemma toy_cut n op :
  is_Some (run_steps n 2 ToySdk.answers (code true op) toy_join.1) →
  is_Some (run_task 3 ToySdk.answers (code true op) (toy_dropped_at n op)) →
  rtc toy_step toy_start (mkPool (toy_partly n op).1 (toy_tasks ++ [(op, Some (toy_partly n op).2)])) ∧
  rtc toy_step (mkPool (toy_partly n op).1 (toy_tasks ++ [(op, Some (toy_partly n op).2)]))
    (mkPool (toy_again n op).1 ((toy_tasks ++ [(op, None)]) ++ [(op, Some (Ret (toy_again n op).2))])).
Proof.
  intros [[c p] Hc] [[c' a] Ha]. assert (∀ q, answer_any q (ToySdk.answers q)) as Hok by done. split.
  - etrans; [apply toy_joined_pool|]. eapply spawn_steps; [exact Hok|]. unfold toy_partly. cbn [length toy_tasks].
    by rewrite Hc.
  - eapply rtc_l; [apply drop_last; exact I|].
    apply (spawn_run (code true) any_op outside answer_any ToySdk.answers); [exact Hok|].
    unfold toy_again, toy_run. cbn [length app toy_tasks]. change (length toy_tasks) with 2%nat.
    fold (toy_dropped_at n op). by rewrite Ha.
Qed.

(** A leave that is dropped is forgotten. A client has joined; its [leave_voice] is dropped
    while it waits for the server's answer to the leave. The session is no longer in
    place, so the next [leave_voice] succeeds without asking the server, although no
    session has left. *)
Theorem dropped_leave_is_forgotten :
  ∃ w1 w2 p v id,
    rtc toy_step toy_start w1 ∧ rtc toy_step w1 w2 ∧
    tasks w1 !! 1%nat = Some (OpJoin 5 ToySdk.request, Some (Ret (OutSession (Ok v)))) ∧
    tasks w1 !! 2%nat = Some (OpLeave, Some p) ∧ waiting_for p = Some (QLeave (vs_session_id v) id) ∧
    tasks w2 !! 2%nat = Some (OpLeave, None) ∧
    tasks w2 !! 3%nat = Some (OpLeave, Some (Ret (OutUnit (Ok tt)))) ∧
    ci_voice (shared (config w2)) = None ∧ ci_left (shared (config w2)) = ∅.
Proof.
  destruct (toy_cut 13 OpLeave) as [H1 H2]; [by vm_compute; eexists..|].
  assert (∃ v, toy_join.2 = OutSession (Ok v) ∧ vs_session_id v = replicate 16 1) as (v & Hv & Hid)
    by (eexists; split; vm_compute; reflexivity).
  eexists _, _, (toy_partly 13 OpLeave).2, v, ToySdk.control_id. split; [exact H1|]. split; [exact H2|].
  split_and!; [by rewrite <- Hv|done|rewrite Hid; by vm_compute|done|by vm_compute..].
Qed.

(** A client has joined; its [shutdown] is dropped while it waits for the voice worker to
    end. The control connection, its relay task and the session key are still there, and
    every later shutdown succeeds without touching them. *)
Lemma dropped_shutdown_is_never_finished_witness :
  let w := mkPool (toy_partly 6 OpShutdown).1 (toy_tasks ++ [(OpShutdown, Some (toy_partly 6 OpShutdown).2)]) in
  let w' := dropped 2 OpShutdown w in
  (∃ t, waiting_for (toy_partly 6 OpShutdown).2 = Some (QCloseTransport t)) ∧
  is_Some (ci_control (shared (config w'))) ∧ ci_tasks (shared (config w')) ≠ [] ∧
  ci_key_cache (shared (config w')) ≠ ∅ ∧
  run_task 3 ToySdk.answers (code true OpShutdown) (config w') = Some (config w', OutUnit (Ok tt)).
Proof.
  destruct (toy_cut 6 OpShutdown) as [Hrun _]; [by vm_compute; eexists..|].
  assert (∃ s, held (toy_partly 6 OpShutdown).1 !! ShutdownGate = Some (2%nat, s)) as [s Hs]
    by (eexists; vm_compute; reflexivity).
  destruct (dropped_shutdown_is_never_finished true _ 2 _ s Hrun eq_refl Hs ltac:(by vm_compute)) as (_ & Hsh & Hnext & _).
  split_and!; [by vm_compute; eexists|by rewrite Hsh; vm_compute; eexists|by rewrite Hsh; vm_compute| |exact (Hnext ToySdk.answers)].
  rewrite Hsh. intros Hempty. apply (f_equal size) in Hempty. by vm_compute in Hempty.
Defined.
