(* ===== verification/SdkStale.v ===== *)
(** What a voice handle still does once its session has been joined again
    (crates/zephyrvox-sdk/src: voice.rs, voice_api.rs). A join that the server answers with
    the session it already has gives a new handle with another transport and the same
    session identifier; by that identifier the old handle reaches the new session. *)

From S2P Require Import Prelude Text Types Json Wire ClientModel VoiceTypes VoiceConfig RealtimeTypes.
From S2P Require Import HttpTypes HttpDiscovery HttpVoice HttpAuth SdkTypes SdkProgram SdkVoice SdkClient SdkOutcomes.

Section stale.
Context {V : Type} `{Base64Lib}.
Abbreviation alone_ends p s log r s' :=
  (outcome (St:=ClientInner V) (Lock:=Gate) (Answer:=Answer V) (λ s s', s' = s) p s log r s').
Implicit Types s : ClientInner V.

(** Closing a handle takes the key of its session identifier out of the cache and tells only
    its own transport to close. *)
Lemma close_worker_alone t sid s log r s' :
  alone_ends (close_worker t sid) s log r s' →
  log = [existT (QCloseTransport t) r] ∧ s' = remove_key sid (set_closed ({[t]} ∪ ci_closed s) s).
Proof. intros (s1 & x & rest & -> & -> & s2 & -> & -> & -> & ->). done. Qed.

Lemma key_removed sid s : ci_key_cache (remove_key sid s) !! sid = None.
Proof. apply lookup_delete_eq. Qed.

(** An encrypted session cannot be joined again without its key. *)
Lemma key_missing (config : VoiceSessionConfig) (keys : SessionKeyCache) :
  cfg_encrypted config = true → cfg_session_key config = None → keys !! cfg_session_id config = None →
  admit_key config keys = (Err KeyUnavailable, keys).
Proof.
  intros He Hk Hm. unfold admit_key, cache_inline_key, resolve_key. rewrite He, Hk. cbn.
  unfold KeyCache.get. by rewrite Hm.
Qed.

(** A replaced handle ends the session that replaced it. When the current session has the
    identifier of an older handle, as after a join that the server answered with the
    existing session, then a successful [leave] of the older handle makes the server end
    the current session, drops the remembered intent and the key of that session, while
    the client keeps the session and its transport is never told to stop; the next
    automatic rejoin of an encrypted session is then refused for its missing key. *)
Theorem stale_leave_ends_current_session (old v : VoiceSession) s log s' :
  ci_voice s = Some v → vs_session_id old = vs_session_id v → vs_transport old ≠ vs_transport v →
  vs_transport old ∉ ci_left s → alone_ends (session_leave old) s log (Ok tt) s' →
  ci_voice s' = Some v ∧ (∃ id, existT (QLeave (vs_session_id v) id) (Ok tt) ∈ log) ∧
  ¬ closed (vs_transport v) log ∧
  (∀ intent, ci_voice_intent s = Some intent → intent_session_id intent = vs_session_id v → ci_voice_intent s' = None) ∧
  ∀ config : VoiceSessionConfig, cfg_session_id config = vs_session_id v → cfg_encrypted config = true → cfg_session_key config = None →
    (admit_key config (ci_key_cache s')).1 = Err KeyUnavailable.
Proof.
  intros Hv Hsid Ht Hleft Ho. apply outcome_bind in Ho as ([] & s1 & l1 & l2 & Hc & Ho & ->).
  destruct Hc as (s2 & -> & _ & Hs1 & ->). rewrite Hsid in Hs1.
  assert (ci_voice s1 = Some v ∧ ci_left s1 = ci_left s ∧
          (∀ intent, ci_voice_intent s = Some intent → intent_session_id intent = vs_session_id v → ci_voice_intent s1 = None))
    as (Hv1 & Hl1 & Hi1).
  { rewrite Hs1. destruct (ci_voice_intent s) as [i|]; [|by split_and!].
    case_bool_decide; (split_and!; [done|done|]); by intros intent [= <-] Heq. }
  clear Hs1. apply locked_outcome in Ho as (s3 & s4 & -> & Ho & ->). apply read_outcome in Ho as (s5 & -> & Ho).
  rewrite bool_decide_eq_false_2 in Ho by (by rewrite Hl1).
  apply outcome_bind in Ho as (x & s6 & l3 & l4 & [-> ->]%close_worker_alone & Ho & ->).
  destruct Ho as (s7 & -> & Ho). apply read_outcome in Ho as (s8 & -> & Ho).
  destruct (control_id (vs_control old) _) as [id|]; [|destruct x as [[]|e]; by destruct Ho as (? & _)].
  destruct Ho as (s9 & answer & rest & -> & -> & Ho). destruct x as [[]|e]; [|by destruct Ho as (? & _)].
  destruct answer as [[]|e]; [|by destruct Ho as (? & _)]. destruct Ho as (s10 & -> & _ & -> & ->).
  rewrite Hsid in *. split_and!; [done| | |done|].
  - exists id. set_solver.
  - intros [x Hx]. cbn in Hx. apply elem_of_cons in Hx as [Hx|Hx]; [|by apply list_elem_of_singleton in Hx].
    apply (f_equal (λ c : {q : Query & Answer V q}, match projT1 c with QCloseTransport t => t | _ => 0%nat end)) in Hx. by apply Ht.
  - intros config Hcid He Hk. rewrite key_missing; [done..|]. rewrite Hcid. apply key_removed.
Qed.
End stale.

(** ** In the small world of SdkClient *)

#[local] Existing Instance ToyVoice.base64.

(** The session was joined again: another transport under the same identifier. *)
Definition toy_again : VoiceSession :=
  mkVoiceSession 1 (vs_channel_id toy_session) (vs_codec toy_session) (vs_config toy_session) 0 1.

Example stale_leave_happens :
  let s := toy_after (session_leave toy_session) (set_voice (Some toy_again) ToySdk.joined) in
  toy_result (session_leave toy_session) (set_voice (Some toy_again) ToySdk.joined) = Ok tt ∧
  ci_voice s = Some toy_again ∧ ci_key_cache s !! vs_session_id toy_again = None.
Proof. vm_compute. split_and!; reflexivity. Qed.
