(* ===== verification/TestKit.v ===== *)
(** The test doubles of crates/zephyrvox-testkit: fixtures read below a root, a queue of
    HTTP responses, an in-memory WebSocket pair with its connector, a connected pair of UDP
    sockets, and a reconnect policy without jitter. Host crates test against them, so what
    they promise matters as much as what the client does. *)

From S2P Require Import Prelude Text Types Json Wire ClientModel RealtimeTypes RealtimeTransport.
From S2P Require Import HttpTypes HttpClient HttpApi HttpUsers HttpAuth HttpSession.

(** ** fixtures.rs *)

Module Fixtures.
(** A Unix path is its bytes. [Path::components]: repeated separators and inner [.] are
    left out. *)
Inductive Component :=
| RootDir
| CurDir
| ParentDir
| Normal (name : byte_list).

#[global] Instance Component_eq_dec : EqDecision Component.
Proof. solve_decision. Defined.

Definition slash : Z := 47.
Definition dot : byte_list := str_bytes ".".

Definition is_absolute (path : byte_list) : bool := starts_with [slash] path.

Definition inner_component (piece : byte_list) : option Component :=
  if bool_decide (piece = []) || bool_decide (piece = dot) then None
  else if bool_decide (piece = str_bytes "..") then Some ParentDir
  else Some (Normal piece).

Definition components (path : byte_list) : list Component :=
  let pieces := split_on slash path in
  (if is_absolute path then [RootDir]
   else if bool_decide (head pieces = Some dot) then [CurDir] else []) ++
  omap inner_component pieces.

(** [Path::join] with a relative path, and [Path::starts_with]. *)
Definition join (root name : byte_list) : byte_list :=
  match list.last root with
  | None => name
  | Some b => if b =? slash then root ++ name else root ++ [slash] ++ name
  end.

Definition path_starts_with (path base : byte_list) : bool :=
  bool_decide (components base `prefix_of` components path).

(** [fs::canonicalize] and [fs::read], with the texts of their errors. *)
Record FileSystem := mkFileSystem {
  canonicalize : byte_list → result string byte_list;
  fs_read : byte_list → result string byte_list;
}.

(** [String::from_utf8]: the well-formed sequences of the Unicode standard. *)
Definition continuation (b : Z) : bool := in_range 128 191 b.
Fixpoint utf8_valid (l : byte_list) : bool :=
  match l with
  | [] => true
  | a :: l =>
      if a <? 128 then utf8_valid l
      else
        match l with
        | b :: l =>
            if in_range 194 223 a then continuation b && utf8_valid l
            else
              match l with
              | c :: l =>
                  if (a =? 224) && in_range 160 191 b || (in_range 225 236 a || in_range 238 239 a) && continuation b
                     || (a =? 237) && in_range 128 159 b
                  then continuation c && utf8_valid l
                  else
                    match l with
                    | d :: l =>
                        ((a =? 240) && in_range 144 191 b || in_range 241 243 a && continuation b
                         || (a =? 244) && in_range 128 143 b) && continuation c && continuation d && utf8_valid l
                    | [] => false
                    end
              | [] => false
              end
        | [] => false
        end
  end.

(** [Utf8] carries the bytes, of which the text of the error is a function. *)
Inductive FixtureError :=
| InvalidName (name : byte_list)
| Io (error : string)
| Utf8 (bytes : byte_list)
| FixtureJson (error : string).

Record FixtureLoader := mkFixtureLoader { root : byte_list }.

Definition unsafe_component (c : Component) : bool := match c with Normal _ => false | _ => true end.

Section loader.
Context (fs : FileSystem).
Implicit Types (loader : FixtureLoader) (name : byte_list).

Definition resolve loader name : result FixtureError byte_list :=
  if bool_decide (name = []) || is_absolute name then Err (InvalidName name)
  else if existsb unsafe_component (components name) then Err (InvalidName name)
  else
    let? root := map_err Io (canonicalize fs (root loader)) in
    let? path := map_err Io (canonicalize fs (join root name)) in
    if negb (path_starts_with path root) then Err (InvalidName name) else Ok path.

Definition read_bytes loader name : result FixtureError byte_list :=
  let? path := resolve loader name in
  map_err Io (fs_read fs path).

Definition read_string loader name : result FixtureError byte_list :=
  let? bytes := read_bytes loader name in
  if utf8_valid bytes then Ok bytes else Err (Utf8 bytes).

(** [from_str] is [serde_json::from_str] at the type. *)
Definition read_json {T} (from_str : byte_list → result string T) loader name : result FixtureError T :=
  let? text := read_string loader name in
  map_err FixtureJson (from_str text).
End loader.
End Fixtures.

(** ** http.rs *)

Module FakeHttp.
Section fake.
Context `{UrlEdit}.

Record FakeHttpTransport := mkFakeHttpTransport {
  responses : list (result HttpError HttpResponse);
  requests : list HttpRequest;
}.

Definition new : FakeHttpTransport := mkFakeHttpTransport [] [].

Definition push_response (response : HttpResponse) (t : FakeHttpTransport) : FakeHttpTransport :=
  mkFakeHttpTransport (responses t ++ [Ok response]) (requests t).

Definition push_error (error : HttpError) (t : FakeHttpTransport) : FakeHttpTransport :=
  mkFakeHttpTransport (responses t ++ [Err error]) (requests t).

(** One [send], with no other between its two locks. *)
Definition send (request : HttpRequest) (t : FakeHttpTransport)
    : result HttpError HttpResponse * FakeHttpTransport :=
  let requests := requests t ++ [request] in
  match responses t with
  | response :: rest => (response, mkFakeHttpTransport rest requests)
  | [] => (Err (HttpTransport "fake HTTP response queue is empty"), mkFakeHttpTransport [] requests)
  end.

(** Sends one after the other. *)
Fixpoint send_all (rqs : list HttpRequest) (t : FakeHttpTransport)
    : list (result HttpError HttpResponse) * FakeHttpTransport :=
  match rqs with
  | [] => ([], t)
  | rq :: rqs =>
      let '(r, t) := send rq t in
      let '(rs, t) := send_all rqs t in
      (r :: rs, t)
  end.
End fake.

(** Every client verified against the interface of transports runs on the fake. *)
#[export] Instance transport `{UrlEdit} : Transport FakeHttpTransport := {| transport_send := send |}.

(** [None] is the panic of [expect]. The keys of a JSON object are in their order. *)
Definition json_response `{JsonWriter} (status : Z) (value : json) : option HttpResponse :=
  match write_json value with
  | Ok body => Some (response_new status [("content-type", "application/json")%string] body)
  | Err _ => None
  end.

Definition envelope `{JsonWriter} (data : json) : option HttpResponse :=
  json_response 200 (JObject [("code", JNumber 0); ("data", data); ("message", JString "")]%string).

Definition api_error `{JsonWriter} (status code : Z) (message : string) : option HttpResponse :=
  json_response status (JObject [("code", JNumber code); ("data", JNull); ("message", JString message)]%string).
End FakeHttp.

(** ** realtime.rs *)

(** One in-memory WebSocket: what is under way in each direction, the capacity of both
    channels, and whether either end has been dropped. *)
Record WebSocketPair := mkWebSocketPair {
  to_client : list WebSocketMessage;
  to_peer : list string;
  ws_capacity : nat;
  session_open : bool;
  peer_open : bool;
}.

Definition websocket_pair (capacity : nat) : WebSocketPair :=
  mkWebSocketPair [] [] (Nat.max capacity 1) true true.

Module FakeWebSocket.
Definition with_to_client (l : list WebSocketMessage) (p : WebSocketPair) : WebSocketPair :=
  mkWebSocketPair l (to_peer p) (ws_capacity p) (session_open p) (peer_open p).
Definition with_to_peer (l : list string) (p : WebSocketPair) : WebSocketPair :=
  mkWebSocketPair (to_client p) l (ws_capacity p) (session_open p) (peer_open p).

(** What dropping an end does to the channel whose receiver it holds. *)
Definition drop_session (p : WebSocketPair) : WebSocketPair :=
  mkWebSocketPair [] (to_peer p) (ws_capacity p) false (peer_open p).
Definition drop_peer (p : WebSocketPair) : WebSocketPair :=
  mkWebSocketPair (to_client p) [] (ws_capacity p) (session_open p) false.

(** [FakeWebSocketPeer]; [None]: the call waits. *)
Definition peer_send (message : WebSocketMessage) (p : WebSocketPair) : option (result RealtimeError unit * WebSocketPair) :=
  if negb (session_open p) then Some (Err ConnectionClosed, p)
  else if (length (to_client p) <? ws_capacity p)%nat
  then Some (Ok tt, with_to_client (to_client p ++ [message]) p)
  else None.

Definition peer_recv (p : WebSocketPair) : option (option string * WebSocketPair) :=
  match to_peer p with
  | text :: rest => Some (Some text, with_to_peer rest p)
  | [] => if session_open p then None else Some (None, p)
  end.

(** [FakeWebSocketSession]. *)
Definition send_text (text : string) (p : WebSocketPair) : option (result RealtimeError unit * WebSocketPair) :=
  if negb (peer_open p) then Some (Err ConnectionClosed, p)
  else if (length (to_peer p) <? ws_capacity p)%nat
  then Some (Ok tt, with_to_peer (to_peer p ++ [text]) p)
  else None.

Definition send_pong (payload : byte_list) (p : WebSocketPair) : option (result RealtimeError unit * WebSocketPair) :=
  Some (Ok tt, p).

Definition receive (p : WebSocketPair) : option (result RealtimeError (option WebSocketMessage) * WebSocketPair) :=
  match to_client p with
  | message :: rest => Some (Ok (Some message), with_to_client rest p)
  | [] => if peer_open p then None else Some (Ok None, p)
  end.

Definition close (p : WebSocketPair) : option (result RealtimeError unit * WebSocketPair) := Some (Ok tt, p).
End FakeWebSocket.

(** Sessions are named by the pairs that they are ends of. *)
Record FakeWebSocketConnector := mkFakeWebSocketConnector {
  sessions : list nat;
  attempts : Z;
}.

Module FakeConnector.
Definition new : FakeWebSocketConnector := mkFakeWebSocketConnector [] 0.

Definition push_session (session : nat) (c : FakeWebSocketConnector) : FakeWebSocketConnector :=
  mkFakeWebSocketConnector (sessions c ++ [session]) (attempts c).

(** [connect]: the count wraps, as [fetch_add] does. *)
Definition connect (c : FakeWebSocketConnector) : result RealtimeError nat * FakeWebSocketConnector :=
  let attempts := wrapping_add_u64 (attempts c) 1 in
  match sessions c with
  | session :: rest => (Ok session, mkFakeWebSocketConnector rest attempts)
  | [] => (Err ConnectionClosed, mkFakeWebSocketConnector [] attempts)
  end.
End FakeConnector.

(** ** udp.rs and policy.rs *)

(** Two bound sockets: their local addresses, and whom they are connected to. *)
Record UdpPair := mkUdpPair {
  client_addr : string;
  server_addr : string;
  client_peer : string;
  server_peer : string;
}.

(** [bind]: what the system answers to the two binds, to the two questions for the local
    address, and to the two connects. *)
Definition udp_bind (bind_client bind_server : result string unit) (client_local server_local : result string string)
    (connect_client connect_server : result string unit) : result string UdpPair :=
  let? _ := bind_client in
  let? _ := bind_server in
  let? client_addr := client_local in
  let? server_addr := server_local in
  let? _ := connect_client in
  let? _ := connect_server in
  Ok (mkUdpPair client_addr server_addr server_addr client_addr).

(** [None] is the panic of [expect]. *)
Definition deterministic_reconnect_policy (maximum_attempts : option Z) : option ReconnectPolicy :=
  match ReconnectPolicy.new (from_millis 1) (from_millis 1) 0 with
  | Ok policy => Some (ReconnectPolicy.with_maximum_attempts maximum_attempts policy)
  | Err _ => None
  end.

(** ** Lemmas: fixtures *)

Section fixtures.
Import Fixtures.

Lemma split_on_ne c l : split_on c l ≠ [].
Proof. destruct l as [|b l]; cbn; [done|]. destruct (b =? c); [done|]. by destruct (split_on c l). Qed.

Lemma split_on_app c l1 l2 : split_on c (l1 ++ c :: l2) = split_on c l1 ++ split_on c l2.
Proof.
  induction l1 as [|b l1 IH]; cbn; [by rewrite Z.eqb_refl|]. destruct (b =? c); rewrite IH; [done|].
  destruct (split_on c l1) eqn:Hs; [by apply split_on_ne in Hs|done].
Qed.

Lemma is_absolute_app l1 l2 : l1 ≠ [] → is_absolute (l1 ++ l2) = is_absolute l1.
Proof. destruct l1 as [|b l1]; [done|]. intros _. unfold is_absolute, starts_with. cbn [app strip_prefix]. by destruct (slash =? b). Qed.

(** A path is the components of what is before a separator and of what comes after. *)
Lemma components_slash l1 l2 : l1 ≠ [] →
  components (l1 ++ slash :: l2) = components l1 ++ omap inner_component (split_on slash l2).
Proof.
  intros Hne. unfold components. rewrite is_absolute_app, split_on_app, omap_app, app_assoc by done.
  by destruct (split_on slash l1) eqn:Hs; [apply split_on_ne in Hs|].
Qed.

(** A relative name that has no leading [.] adds its components to those of the root. *)
Lemma components_join root name :
  is_absolute name = false → head (split_on slash name) ≠ Some dot →
  components (join root name) = components root ++ components name.
Proof.
  intros Ha Hd. assert (components name = omap inner_component (split_on slash name)) as Hname.
  { unfold components. by rewrite Ha, bool_decide_eq_false_2. }
  unfold join. destruct root as [|b root] using rev_ind; [done|]. clear IHroot. rewrite last_snoc.
  destruct (Z.eqb_spec b slash) as [->|_].
  - rewrite <- app_assoc, Hname. destruct (decide (root = [])) as [->|Hne].
    + cbn [app]. unfold components. cbn. done.
    + cbn [app]. rewrite !components_slash by done. cbn. by rewrite app_nil_r.
  - rewrite Hname. cbn [app]. apply components_slash. by destruct root.
Qed.

Lemma resolve_found fs loader name path :
  resolve fs loader name = Ok path →
  name ≠ [] ∧ is_absolute name = false ∧ existsb unsafe_component (components name) = false ∧
  ∃ base, canonicalize fs (root loader) = Ok base ∧ canonicalize fs (join base name) = Ok path ∧
    path_starts_with path base = true.
Proof.
  unfold resolve. intros Hr. destruct (bool_decide (name = [])) eqn:Hn; [done|]. apply bool_decide_eq_false in Hn.
  cbn in Hr. destruct (is_absolute name) eqn:Ha; [done|]. destruct (existsb _ _) eqn:He; [done|].
  apply result_bind_ok in Hr as (base & Hb%map_err_ok & Hr). apply result_bind_ok in Hr as (p & Hp%map_err_ok & Hr).
  destruct (path_starts_with p base) eqn:Hs; [|done]. simplify_eq/=. split_and!; [done..|]. by exists base.
Qed.

Lemma safe_components l : existsb unsafe_component l = false ↔ ∃ names, l = Normal <$> names.
Proof.
  split.
  - induction l as [|c l IH]; cbn; [by exists []|]. intros [Hc Hl]%orb_false_iff.
    destruct (IH Hl) as [names ->], c as [| | |name]; try done. by exists (name :: names).
  - intros [names ->]. by induction names.
Qed.
End fixtures.

(** No fixture name leaves its root. An empty, an absolute or a climbing name is refused
    before the file system is asked. A file that is read has a name of plain components;
    its path is looked up as these components below the root, and what the lookup has
    resolved to lies below the resolved root. *)
Theorem fixtures_confined (fs : Fixtures.FileSystem) (loader : Fixtures.FixtureLoader) (name : byte_list) :
  (name = [] ∨ Fixtures.is_absolute name = true ∨ Fixtures.ParentDir ∈ Fixtures.components name →
   Fixtures.resolve fs loader name = Err (Fixtures.InvalidName name)) ∧
  (∀ bytes, Fixtures.read_bytes fs loader name = Ok bytes →
   ∃ names base path, Fixtures.components name = Fixtures.Normal <$> names ∧
     Fixtures.canonicalize fs (Fixtures.root loader) = Ok base ∧
     Fixtures.components (Fixtures.join base name) = Fixtures.components base ++ (Fixtures.Normal <$> names) ∧
     Fixtures.canonicalize fs (Fixtures.join base name) = Ok path ∧ Fixtures.fs_read fs path = Ok bytes ∧
     Fixtures.components base `prefix_of` Fixtures.components path).
Proof.
  split.
  - unfold Fixtures.resolve. intros [->|[Ha|Hp]]; [done|by rewrite Ha, orb_true_r|].
    destruct (_ || _); [done|]. rewrite (proj2 (existsb_exists _ _)); [done|].
    exists Fixtures.ParentDir. by rewrite <- list_elem_of_In.
  - intros bytes Hr. unfold Fixtures.read_bytes in Hr. apply result_bind_ok in Hr as (path & Hp & Hr%map_err_ok).
    apply resolve_found in Hp as (Hn & Ha & He & base & Hb & Hpath & Hs). unfold Fixtures.path_starts_with in Hs.
    apply bool_decide_eq_true in Hs. apply safe_components in He as [names Hnames].
    exists names, base, path. split_and!; try done. rewrite <- Hnames. apply components_join; [done|].
    intros Hd. unfold Fixtures.components in Hnames. rewrite Ha, bool_decide_eq_true_2 in Hnames by done.
    by destruct names.
Qed.

(** ** The fake transports *)

(** Requests are answered in the order of the queue and recorded in the order of sending;
    an exhausted queue answers with an error. *)
Lemma fake_http_fifo `{UrlEdit} rqs t rs t' :
  FakeHttp.send_all rqs t = (rs, t') →
  FakeHttp.requests t' = FakeHttp.requests t ++ rqs ∧
  FakeHttp.responses t' = drop (length rqs) (FakeHttp.responses t) ∧
  rs = take (length rqs) (FakeHttp.responses t) ++
       replicate (length rqs - length (FakeHttp.responses t)) (Err (HttpTransport "fake HTTP response queue is empty")).
Proof.
  revert t rs. induction rqs as [|rq rqs IH]; intros t rs; cbn.
  { intros [= <- <-]. by rewrite app_nil_r, drop_0, take_0. }
  destruct (FakeHttp.send rq t) as [r t1] eqn:Hs, (FakeHttp.send_all rqs t1) as [rs1 t2] eqn:Ha. intros [= <- <-].
  apply IH in Ha as (-> & -> & ->). unfold FakeHttp.send in Hs.
  destruct (FakeHttp.responses t) as [|response rest] eqn:Hr; injection Hs as <- <-; cbn.
  - rewrite <- app_assoc, !drop_nil, !take_nil, Nat.sub_0_r. done.
  - by rewrite <- app_assoc.
Qed.

(** What went through a pair: what each end has handed over, and what the other has
    received. *)
Record WebSocketHistory := mkWebSocketHistory {
  wh_pair : WebSocketPair;
  from_peer : list WebSocketMessage;
  at_client : list WebSocketMessage;
  from_client : list string;
  at_peer : list string;
}.

Inductive ws_step : WebSocketHistory → WebSocketHistory → Prop :=
| ws_peer_send p p' fp ac fc ap m :
    FakeWebSocket.peer_send m p = Some (Ok tt, p') →
    ws_step (mkWebSocketHistory p fp ac fc ap) (mkWebSocketHistory p' (fp ++ [m]) ac fc ap)
| ws_receive p p' fp ac fc ap m :
    FakeWebSocket.receive p = Some (Ok (Some m), p') →
    ws_step (mkWebSocketHistory p fp ac fc ap) (mkWebSocketHistory p' fp (ac ++ [m]) fc ap)
| ws_send_text p p' fp ac fc ap text :
    FakeWebSocket.send_text text p = Some (Ok tt, p') →
    ws_step (mkWebSocketHistory p fp ac fc ap) (mkWebSocketHistory p' fp ac (fc ++ [text]) ap)
| ws_peer_recv p p' fp ac fc ap text :
    FakeWebSocket.peer_recv p = Some (Some text, p') →
    ws_step (mkWebSocketHistory p fp ac fc ap) (mkWebSocketHistory p' fp ac fc (ap ++ [text]))
| ws_drop_session p fp ac fc ap :
    ws_step (mkWebSocketHistory p fp ac fc ap) (mkWebSocketHistory (FakeWebSocket.drop_session p) fp ac fc ap)
| ws_drop_peer p fp ac fc ap :
    ws_step (mkWebSocketHistory p fp ac fc ap) (mkWebSocketHistory (FakeWebSocket.drop_peer p) fp ac fc ap).

(** In order, nothing twice, nothing lost but with the end that was to receive it, and
    never more under way than the capacity. *)
Record ws_ok (h : WebSocketHistory) : Prop := {
  ws_to_client : at_client h ++ to_client (wh_pair h) `prefix_of` from_peer h;
  ws_to_client_all : session_open (wh_pair h) = true → from_peer h = at_client h ++ to_client (wh_pair h);
  ws_to_peer : at_peer h ++ to_peer (wh_pair h) `prefix_of` from_client h;
  ws_to_peer_all : peer_open (wh_pair h) = true → from_client h = at_peer h ++ to_peer (wh_pair h);
  ws_bounded : (length (to_client (wh_pair h)) ≤ ws_capacity (wh_pair h) ∧
                length (to_peer (wh_pair h)) ≤ ws_capacity (wh_pair h))%nat;
}.

Lemma ws_step_ok h h' : ws_ok h → ws_step h h' → ws_ok h'.
Proof.
  intros [H1 H2 H3 H4 [H5 H6]] Hstep.
  destruct Hstep as [p p' fp ac fc ap m Hs|p p' fp ac fc ap m Hs|p p' fp ac fc ap m Hs|p p' fp ac fc ap m Hs| |]; cbn in *.
  - unfold FakeWebSocket.peer_send in Hs. destruct (session_open p) eqn:Ho; [|done]. cbn [negb] in Hs.
    destruct (Nat.ltb_spec (length (to_client p)) (ws_capacity p)); [|done]. simplify_eq. rewrite H2 by done.
    split; cbn; rewrite ?length_app; cbn; try done; [by rewrite <- app_assoc|by rewrite <- app_assoc|lia].
  - unfold FakeWebSocket.receive in Hs. destruct (to_client p) as [|m' rest] eqn:Hq; [by destruct (peer_open p)|].
    simplify_eq. split; cbn in *; rewrite <- ?app_assoc; try done; lia.
  - unfold FakeWebSocket.send_text in Hs. destruct (peer_open p) eqn:Ho; [|done]. cbn [negb] in Hs.
    destruct (Nat.ltb_spec (length (to_peer p)) (ws_capacity p)); [|done]. simplify_eq. rewrite H4 by done.
    split; cbn; rewrite ?length_app; cbn; try done; [by rewrite <- app_assoc|by rewrite <- app_assoc|lia].
  - unfold FakeWebSocket.peer_recv in Hs. destruct (to_peer p) as [|m' rest] eqn:Hq; [by destruct (session_open p)|].
    simplify_eq. split; cbn in *; rewrite <- ?app_assoc; try done; lia.
  - split; cbn; try done; [|lia]. rewrite app_nil_r. etrans; [by apply prefix_app_r|exact H1].
  - split; cbn; try done; [|lia]. rewrite app_nil_r. etrans; [by apply prefix_app_r|exact H3].
Qed.

Lemma websocket_pair_fifo capacity h :
  rtc ws_step (mkWebSocketHistory (websocket_pair capacity) [] [] [] []) h → ws_ok h.
Proof.
  intros Hrun. eapply (rtc_invariant ws_step ws_ok); [intros a b; apply ws_step_ok|exact Hrun|].
  split; cbn; try done; lia.
Qed.

(** A pair moves: a queue is never so small that its first send waits. *)
Lemma websocket_pair_admits capacity m :
  ∃ p, FakeWebSocket.peer_send m (websocket_pair capacity) = Some (Ok tt, p) ∧ to_client p = [m].
Proof.
  unfold FakeWebSocket.peer_send, websocket_pair. cbn [session_open negb to_client length ws_capacity].
  destruct (Nat.ltb_spec 0 (Nat.max capacity 1)); [by eexists|lia].
Qed.

(** The policy exists, and waits one millisecond before every attempt. *)
Lemma deterministic_policy_delay maximum_attempts :
  ∃ policy, deterministic_reconnect_policy maximum_attempts = Some policy ∧ ReconnectPolicy.ok policy ∧
    ∀ sample attempt, 0 ≤ attempt → ReconnectPolicy.delay policy sample attempt = from_millis 1.
Proof.
  eexists. split; [reflexivity|]. split; [by split; vm_compute|].
  intros sample attempt Ha. unfold ReconnectPolicy.delay. cbn.
  assert (1 ≤ Z.shiftl 1 (Z.min attempt 31)) by (rewrite Z.shiftl_1_l; pose proof (Z.pow_pos_nonneg 2 (Z.min attempt 31)); lia).
  unfold from_millis, u128_max, u64_max in *. lia.
Qed.

(** The sockets of a pair are connected to each other. *)
Lemma udp_pair_connected bc bs cl sl cc cs p :
  udp_bind bc bs cl sl cc cs = Ok p → client_peer p = server_addr p ∧ server_peer p = client_addr p.
Proof.
  unfold udp_bind. intros (_ & _ & Hp)%result_bind_ok. repeat (apply result_bind_ok in Hp as (? & _ & Hp)). by simplify_eq.
Qed.
