(* ===== verification/Redaction.v ===== *)
(** What printing shows (the [Debug] implementations of all crates): each type that holds
    a secret prints the same whatever the secret is. [conceal] blots out the secrets of a
    value; the law of the class says that printing cannot tell. *)

From S2P Require Import Prelude Text Types ClientModel Wire VoiceTypes VoiceConfig VoiceCrypto VoiceCodec.
From S2P Require Import RealtimeTransport HttpTypes HttpClient HttpApi HttpUsers HttpAdmin HttpVoice HttpAuth SdkTypes SdkVoice.

Class Redacted (A : Type) := {
  debug : A → dbg;
  conceal : A → A;
  debug_conceal a : debug (conceal a) = debug a;
}.

(** ** Derived parts *)

Definition debug_option {A : Type} (f : A → dbg) (o : option A) : dbg := DOption (f <$> o).

Definition debug_endpoint (e : VoiceEndpoint) : dbg :=
  DStruct "VoiceEndpoint" [("host"%string, DText (VoiceEndpoint_host e)); ("port"%string, DNumber (VoiceEndpoint_port e))].

Definition debug_codec (c : CodecCapability) : dbg :=
  DStruct "CodecCapability"
    [("name"%string, DText (CodecCapability_name c)); ("clock_rate"%string, DNumber (clock_rate c));
     ("channels"%string, DNumber (channels c)); ("ptime"%string, DList (DNumber <$> ptime c))].

Definition debug_user (u : User) : dbg :=
  DStruct "User"
    [("id"%string, DNumber (User_id u)); ("username"%string, DText (User_username u));
     ("nickname"%string, DText (User_nickname u)); ("avatar"%string, debug_option DText (User_avatar u))].

Definition debug_scheme (s : TransportScheme) : dbg := DText match s with Plain => "Plain" | Tls => "Tls" end.

Definition debug_policy (p : ReconnectPolicy) : dbg :=
  DStruct "ReconnectPolicy"
    [("enabled"%string, DBool (enabled p)); ("minimum_delay"%string, DNumber (minimum_delay p));
     ("maximum_delay"%string, DNumber (maximum_delay p)); ("jitter"%string, DNumber (jitter p));
     ("maximum_attempts"%string, debug_option DNumber (maximum_attempts p))].

(** ** Tokens (credentials.rs, token.rs) *)

Definition debug_access_token (token : string) : dbg := DText "<redacted-access-token>".
Definition debug_refresh_token (token : string) : dbg := DText "<redacted-refresh-token>".

Definition debug_token_pair (t : TokenPair) : dbg :=
  DStruct "TokenPair"
    [("access_token"%string, debug_access_token (access_token t));
     ("refresh_token"%string, debug_refresh_token (refresh_token t)); ("expires_in"%string, DNumber (expires_in t))].

#[export, refine] Instance redacted_token_pair : Redacted TokenPair := {|
  debug := debug_token_pair;
  conceal t := mkTokenPair "" "" (expires_in t);
|}.
Proof. done. Defined.

(** The access token of the realtime crate (token.rs). *)
Definition debug_realtime_token (token : string) : dbg := DText "<redacted-access-token>".

(** ** Requests and results (auth_types.rs, users.rs, admin.rs, channels/voice.rs) *)

#[export, refine] Instance redacted_login : Redacted LoginRequest := {|
  debug := debug_login;
  conceal r := mkLoginRequest (login_username r) "" (login_device_id r);
|}.
Proof. done. Defined.

#[export, refine] Instance redacted_register : Redacted RegisterRequest := {|
  debug := debug_register;
  conceal r := mkRegisterRequest (register_username r) "" (register_nickname r) ((λ _, ""%string) <$> register_invite r);
|}.
Proof. by intros [? ? ? []]. Defined.

#[export, refine] Instance redacted_activate : Redacted ActivateRequest := {|
  debug := debug_activate;
  conceal r := mkActivateRequest "" (activate_username r) "" (activate_nickname r);
|}.
Proof. done. Defined.

Definition debug_login_result (r : LoginResult) : dbg :=
  DStruct "LoginResult" [("tokens"%string, debug (login_tokens r)); ("user"%string, debug_user (login_user r))].

#[export, refine] Instance redacted_login_result : Redacted LoginResult := {|
  debug := debug_login_result;
  conceal r := mkLoginResult (conceal (login_tokens r)) (login_user r);
|}.
Proof. done. Defined.

#[export, refine] Instance redacted_reset_password : Redacted ResetPasswordRequest := {|
  debug := debug_reset_password;
  conceal _ := mkResetPasswordRequest "";
|}.
Proof. done. Defined.

#[export, refine] Instance redacted_change_password : Redacted ChangePasswordRequest := {|
  debug := debug_change_password;
  conceal _ := mkChangePasswordRequest "" "";
|}.
Proof. done. Defined.

#[export, refine] Instance redacted_create_invite : Redacted CreateInviteResponse := {|
  debug := debug_create_invite_response;
  conceal r := mkCreateInviteResponse "" (created_invite r);
|}.
Proof. done. Defined.

#[export, refine] Instance redacted_negotiation : Redacted VoiceNegotiation := {|
  debug := debug_negotiation;
  conceal n := mkVoiceNegotiation (vn_created n) (vn_session_id n) ((λ _, ""%string) <$> vn_key n) (vn_encrypted n)
                 (vn_warning n) (vn_max_payload n) (vn_protocol_version n) (vn_expires_at n);
|}.
Proof. by intros [? ? []]. Defined.

(** ** Voice (voice/src/config.rs, codec.rs) *)

Definition debug_session_key (key : byte_list) : dbg := DText "<redacted-voice-session-key>".

Definition debug_key_cache (keys : SessionKeyCache) : dbg :=
  DStruct "SessionKeyCache" [("entries"%string, DNumber (KeyCache.cache_len keys))].

#[export, refine] Instance redacted_key_cache : Redacted SessionKeyCache := {|
  debug := debug_key_cache;
  conceal keys := (λ _, []) <$> keys;
|}.
Proof. intros keys. unfold debug_key_cache, KeyCache.cache_len. by rewrite map_size_fmap. Defined.

Definition debug_session_config (c : VoiceSessionConfig) : dbg :=
  DStruct "VoiceSessionConfig"
    [("endpoint"%string, debug_endpoint (cfg_endpoint c)); ("session_id"%string, DBytes (cfg_session_id c));
     ("protocol_version"%string, DNumber (cfg_protocol_version c)); ("encrypted"%string, DBool (cfg_encrypted c));
     ("max_payload"%string, DNumber (cfg_max_payload c)); ("expires_at"%string, DNumber (cfg_expires_at c));
     ("session_key"%string, debug_option (λ _, redacted) (cfg_session_key c));
     ("allowed_stream_types"%string, debug_option (λ ts, DList (DNumber <$> ts)) (cfg_allowed_stream_types c))].

#[export, refine] Instance redacted_session_config : Redacted VoiceSessionConfig := {|
  debug := debug_session_config;
  conceal c := mkVoiceSessionConfig (cfg_endpoint c) (cfg_session_id c) (cfg_protocol_version c) (cfg_encrypted c)
                 (cfg_max_payload c) (cfg_expires_at c) ((λ _, []) <$> cfg_session_key c) (cfg_allowed_stream_types c);
|}.
Proof. by intros [? ? ? ? ? ? []]. Defined.

Section codec.
Context `{L : CryptoLib}.

Definition debug_packet_codec (c : PacketCodec L) : dbg :=
  DOpen "PacketCodec"
    [("session_id"%string, DBytes (codec_session_id c)); ("encrypted"%string, DBool (codec_encrypted c));
     ("max_payload"%string, DNumber (codec_max_payload c))].

#[export, refine] Instance redacted_packet_codec : Redacted (PacketCodec L) := {|
  debug := debug_packet_codec;
  conceal c := mkPacketCodec (codec_session_id c) (codec_encrypted c) (codec_max_payload c) None (codec_allowed c);
|}.
Proof. done. Defined.
End codec.

(** ** Cards and the client (server_card.rs, sdk/src: config.rs, voice.rs) *)

Definition debug_card (c : ServerCard) : dbg :=
  DStruct "ServerCard"
    [("scheme"%string, debug_scheme (scheme c)); ("host"%string, DText (host c)); ("port"%string, DNumber (port c));
     ("fingerprint"%string, debug_option DBytes (fingerprint c)); ("invite"%string, debug_option (λ _, redacted) (invite c));
     ("protocol_version"%string, DNumber (ServerCard_protocol_version c))].

#[export, refine] Instance redacted_card : Redacted ServerCard := {|
  debug := debug_card;
  conceal c := mkServerCard (scheme c) (host c) (port c) (fingerprint c) ((λ _, ""%string) <$> invite c) (ServerCard_protocol_version c);
|}.
Proof. by intros [? ? ? ? []]. Defined.

Definition debug_client_config (c : ClientConfig) : dbg :=
  DStruct "ClientConfig"
    [("server_card"%string, debug (server_card c)); ("request_timeout"%string, DNumber (request_timeout c));
     ("reconnect"%string, debug_policy (config_reconnect c)); ("credential_store"%string, DText "<custom-store>");
     ("auto_rejoin_voice"%string, DBool (config_auto_rejoin_voice c))].

#[export, refine] Instance redacted_client_config : Redacted ClientConfig := {|
  debug := debug_client_config;
  conceal c := mkClientConfig (conceal (server_card c)) (request_timeout c) (config_reconnect c) (config_auto_rejoin_voice c);
|}.
Proof. intros c. unfold debug_client_config. cbn -[debug conceal]. by rewrite debug_conceal. Defined.

(** [status] is what the transport says at that moment. *)
Definition debug_voice_session (status : dbg) (v : VoiceSession) : dbg :=
  DStruct "VoiceSession"
    [("channel_id"%string, DNumber (vs_channel_id v)); ("session_id"%string, DBytes (vs_session_id v));
     ("codec"%string, debug_codec (vs_codec v)); ("status"%string, status)].

(** ** Properties *)

(** Printing is non-interferent: two values of one of these types that differ only in
    their secrets print alike, also inside a request or a client that holds them. *)
Theorem debug_noninterference `{Redacted A} (a b : A) : conceal a = conceal b → debug a = debug b.
Proof. intros Heq. by rewrite <- (debug_conceal a), <- (debug_conceal b), Heq. Qed.
