(* ===== verification/Hosts.v ===== *)
(** The example hosts (crates/zephyrvox-sdk/examples: interoperability.rs, headless.rs):
    programs over the public operations of one or two clients, and over what else a host
    asks for: the environment, HTTP accessors called directly, the handles of the control
    connection, a timer. The progress lines that a host prints are left out, but for the
    verdict and the diagnostics. *)

From S2P Require Import Prelude Text Types Json Wire ClientModel VoiceTypes VoiceConfig RealtimeTypes RealtimeTransport.
From S2P Require Import HttpTypes HttpClient HttpDiscovery HttpVoice HttpAuth HttpChannels SdkTypes SdkProgram SdkVoice SdkClient.

(** ** A process with two clients *)

(** headless.rs has the owner only. *)
Inductive Side := Owner | Peer.

#[global] Instance Side_eq_dec : EqDecision Side.
Proof. solve_decision. Defined.

#[global] Instance Side_countable : Countable Side.
Proof.
  refine (inj_countable' (λ s, match s with Owner => true | Peer => false end)
            (λ b : bool, if b then Owner else Peer) _).
  by intros [].
Defined.

#[global] Instance CodecCapability_eq_dec : EqDecision CodecCapability.
Proof. solve_decision. Defined.

Record Hosts (V : Type) := mkHosts {
  owner : ClientInner V;
  peer : ClientInner V;
  (** What was printed. *)
  printed : list string;
}.
Arguments mkHosts {V} _ _ _.
Arguments owner {V} _.
Arguments peer {V} _.
Arguments printed {V} _.

Definition client_of {V} (side : Side) (h : Hosts V) : ClientInner V :=
  match side with Owner => owner h | Peer => peer h end.

Definition set_client {V} (side : Side) (s : ClientInner V) (h : Hosts V) : Hosts V :=
  match side with Owner => mkHosts s (peer h) (printed h) | Peer => mkHosts (owner h) s (printed h) end.

(** The errors that are boxed. *)
Inductive HostError :=
| HostSdk (e : SdkError)
| HostHttp (e : HttpError)
| HostRealtime (e : RealtimeError)
| HostCard (e : ServerCardError)
| HostId (e : IdError)
| HostVar (name : string)
| HostInvalidInput (text : string)
| HostOther (text : string)
| HostElapsed
| HostStateClosed.

(** What a host asks for besides the calls of its clients. *)
Inductive HostQuery :=
| OnClient (side : Side) (q : Query)
| QVar (name : string)
| QBuildApi (side : Side) (card : ServerCard) (timeout : Z)
| QRegister (side : Side) (request : RegisterRequest)
| QCreateChannel (side : Side) (request : CreateChannelRequest)
| QWaitUntilLive (side : Side) (connection : nat)
| QBorrow (side : Side) (connection : nat)
| QChanged (side : Side) (connection : nat)
| QTimer (duration : Z)
| QYield
| QDrain (side : Side) (cursor : nat).

(** [QVar] is [None] when the variable is not set, or not Unicode; [QBuildApi] is what the
    construction of the HTTP client says; [QBorrow] the latest state, and [QChanged] whether there is a newer
    one rather than a dropped sender; [QTimer] whether the running time-out, of that
    duration, comes before the end of the call that follows; [QDrain] the events that
    [try_recv] gives after the cursor, before its first error. *)
Definition HostAnswer (V : Type) (q : HostQuery) : Type :=
  match q with
  | OnClient _ q => Answer V q
  | QVar _ => option string
  | QBuildApi _ _ _ => result HttpError unit
  | QRegister _ _ => result HttpError RegisterResult
  | QCreateChannel _ _ => result HttpError (ApiResponse Channel)
  | QWaitUntilLive _ _ => result RealtimeError unit
  | QBorrow _ _ => ClientState
  | QChanged _ _ => bool
  | QTimer _ => bool
  | QYield => unit
  | QDrain _ _ => list (SdkEvent V)
  end.

Section hosts.
Context {V : Type} `{Base64Lib, UrlLib}.

Abbreviation act A := (prog (St:=ClientInner V) (Lock:=Gate) (Q:=Query) (Answer:=Answer V) A).
Abbreviation host A := (prog (St:=Hosts V) (Lock:=Side * Gate) (Q:=HostQuery) (Answer:=HostAnswer V) A).
Abbreviation ask q := (call (Answer:=HostAnswer V) q).

(** A call on one of the clients. *)
Fixpoint on {A} (side : Side) (p : act A) : host A :=
  match p with
  | Ret a => Ret a
  | Atomic f m => Atomic (λ h, set_client side (f (client_of side h)) h) (λ h, on side (m (client_of side h)))
  | Acquire l m => Acquire (side, l) (on side m)
  | Release l m => Release (side, l) (on side m)
  | Await q m => Await (OnClient side q) (λ a, on side (m a))
  end.

Definition on_sdk {A} (side : Side) (p : act (result SdkError A)) : host (result HostError A) :=
  let> r := on side p in
  Ret (map_err HostSdk r).

Definition fallible {E A} (f : E → HostError) (m : host (result E A)) : host (result HostError A) :=
  let> r := m in
  Ret (map_err f r).

Definition other {A} (text : string) : host (result HostError A) := Ret (Err (HostOther text)).

Definition println (line : string) : host unit :=
  modify (λ h, mkHosts (owner h) (peer h) (printed h ++ [line])).

(** [io::Error::other] unless the host's expectation holds. *)
Definition ensure (expected : bool) (text : string) : host (result HostError unit) :=
  if expected then Ret (Ok tt) else other text.

(** One call under [tokio::time::timeout]. The calls used with it have no effect when their
    future is dropped. *)
Definition within {A} (duration : Z) (m : host A) : host (result HostError A) :=
  let> elapsed := ask (QTimer duration) in
  if elapsed : bool then Ret (Err HostElapsed)
  else
    let> a := m in
    Ret (Ok a).

(** [Client::new]. *)
Definition client_new (side : Side) (config : ClientConfig) : host (result SdkError unit) :=
  try> _ := Ret (ClientConfig.validate config) in
  let> built := ask (QBuildApi side (server_card config) (request_timeout config)) in
  try> _ := Ret (map_err SdkHttp built) in
  let> _ := modify (set_client side from_api) in
  Ret (Ok tt).

(** ** interoperability.rs *)

Definition WAIT_TIMEOUT : Z := from_secs 5.
Definition MEDIA_PAYLOAD : byte_list := str_bytes "rust-sdk-real-server-interop".

Definition required (name : string) : host (result HostError string) :=
  let> value := ask (QVar name) in
  Ret (ok_or (HostInvalidInput ("missing " +:+ name)) value).

Definition has_presence (user_id : Z) (expected_status : string) (state : ClientState) : bool :=
  existsb (λ u, (UserPresence_user_id u =? user_id)
                && bool_decide (presence_status (UserPresence_presence u) = expected_status)) (st_users state).

(** One time-out is running for the whole loop; the state changes at most [patience] times
    before it. *)
Fixpoint wait_for_user_presence (patience : nat) (side : Side) (state : nat) (user_id : Z) (expected_status : string)
    : host (result HostError unit) :=
  let> current := ask (QBorrow side state) in
  if has_presence user_id expected_status current then Ret (Ok tt)
  else
    match patience with
    | O => Ret (Err HostElapsed)
    | S patience =>
        try> newer := within WAIT_TIMEOUT (ask (QChanged side state)) in
        if newer : bool then wait_for_user_presence patience side state user_id expected_status
        else Ret (Err HostStateClosed)
    end.

Definition sync_diagnostic (label : string) (e : SdkEvent V) : option string :=
  match e with
  | SdkSyncRequired reason => Some (label +:+ " requested snapshot fallback: " +:+ reason)%string
  | SdkDiagnostic message => Some (label +:+ " facade diagnostic: " +:+ message)%string
  | _ => None
  end.

Fixpoint println_all (lines : list string) : host unit :=
  match lines with
  | [] => Ret tt
  | line :: rest => let> _ := println line in println_all rest
  end.

Definition print_sync_diagnostics (label : string) (side : Side) (cursor : nat) : host unit :=
  let> events := ask (QDrain side cursor) in
  println_all (omap (sync_diagnostic label) events).

Definition first_capabilities (m : Metadata) : result HostError (CodecCapability * Z) :=
  let? codec := ok_or (HostOther "server advertised no voice codec") (head (codecs m)) in
  let? stream := ok_or (HostOther "server advertised no voice stream type")
                   (head (VoiceStreamType_id <$> voice_stream_types m)) in
  Ok (codec, stream).

(** Both discover, log in (the peer may have to be registered first). *)
Definition log_in (owner_username owner_password peer_username peer_password : string)
    : host (result HostError (Z * User)) :=
  try> owner_metadata := on_sdk Owner discover in
  try> peer_metadata := on_sdk Peer discover in
  try> _ := ensure (protocol_version owner_metadata =? protocol_version peer_metadata)
              "clients received different protocol versions" in
  try> (_, stream_type) := Ret (first_capabilities owner_metadata) in
  try> owner_login := on_sdk Owner (sdk_login (mkLoginRequest owner_username owner_password "rust-sdk-interop-owner")) in
  let> register_peer := ask (QVar "ZEPHYRVOX_REGISTER_PEER") in
  try> _ := (if bool_decide (register_peer = Some "1"%string) then
               fallible HostHttp (let> r := ask (QRegister Owner (mkRegisterRequest peer_username peer_password
                                                    (Some "Rust SDK Interop Peer"%string) None)) in
                                  Ret (result_map (λ _, tt) r))
             else Ret (Ok tt)) in
  try> _ := on_sdk Peer (sdk_login (mkLoginRequest peer_username peer_password "rust-sdk-interop-peer")) in
  Ret (Ok (stream_type, login_user owner_login)).

(** The channel of the environment, or a temporary one. *)
Definition choose_channel : host (result HostError Z) :=
  let> value := ask (QVar "ZEPHYRVOX_CHANNEL_ID") in
  match value with
  | Some value => Ret (map_err HostId (Snowflake.from_str value))
  | None =>
      let> created := ask (QCreateChannel Owner
        (mkCreateChannelRequest None "rust-sdk-interop" "voice" true "public" (Some 8) 0 false)) in
      Ret (map_err HostHttp (result_map (λ r, Channel_id (resp_data r)) created))
  end.

(** Both connect, and the peer sees the owner's new presence. The result is the cursors of
    the two event streams. *)
Definition connect_live (patience : nat) (user : User) : host (result HostError (nat * nat)) :=
  try> owner_control := on_sdk Owner (connect false) in
  try> peer_control := on_sdk Peer (connect false) in
  try> _ := fallible HostRealtime (ask (QWaitUntilLive Owner owner_control)) in
  try> _ := fallible HostRealtime (ask (QWaitUntilLive Peer peer_control)) in
  let> owner_events := on Owner client_events in
  let> peer_events := on Peer client_events in
  let> peer_state := on Peer client_state in
  try> peer_state := Ret (ok_or (HostOther "peer state is unavailable after connect") peer_state) in
  try> _ := on_sdk Owner (sdk_set_presence (mkPresence "dnd" None)) in
  try> _ := wait_for_user_presence patience Peer peer_state (User_id user) "dnd" in
  Ret (Ok (owner_events, peer_events)).

(** What the two negotiations have to agree on. *)
Definition negotiations_agree (owner_voice peer_voice : VoiceSession) : bool :=
  bool_decide (vs_codec owner_voice = vs_codec peer_voice)
  && (vs_max_payload owner_voice =? vs_max_payload peer_voice)
  && Bool.eqb (vs_encrypted owner_voice) (vs_encrypted peer_voice).

Definition join_both (channel_id : Z) (cursors : nat * nat) : host (result HostError (VoiceSession * VoiceSession)) :=
  try> owner_voice := on_sdk Owner (join_voice false channel_id
                        (mkVoiceJoinRequest (Some "rust-sdk-interop-owner"%string) false None)) in
  try> peer_voice := on_sdk Peer (join_voice false channel_id
                        (mkVoiceJoinRequest (Some "rust-sdk-interop-peer"%string) false None)) in
  try> _ := ensure (negotiations_agree owner_voice peer_voice) "voice negotiations disagree" in
  let> _ := ask QYield in
  let> _ := print_sync_diagnostics "owner" Owner cursors.1 in
  let> _ := print_sync_diagnostics "peer" Peer cursors.2 in
  Ret (Ok (owner_voice, peer_voice)).

(** One frame from the owner to the peer. *)
Definition forward_frame (owner_voice peer_voice : VoiceSession) (stream : Z) (user : User) : host (result HostError unit) :=
  try> _ := on_sdk Owner (session_send owner_voice stream MEDIA_PAYLOAD) in
  try> received := within WAIT_TIMEOUT (on Peer (session_recv peer_voice)) in
  try> received := Ret (map_err HostSdk received) in
  try> _ := ensure (speaker_id received =? User_id user) "forwarded frame has the wrong speaker" in
  ensure ((Types.stream_type received =? stream) && bool_decide (payload received = MEDIA_PAYLOAD))
    "forwarded frame payload or stream type changed".

Definition leave_reported (label : string) (side : Side) : host (result HostError unit) :=
  let> answer := on side leave_voice in
  match answer with
  | Ok _ => Ret (Ok tt)
  | Err e =>
      let> _ := println (label +:+ " leave failed: " +:+ display_sdk_error e) in
      Ret (Err (HostSdk e))
  end.

Definition run_interoperability (patience : nat) (owner_username owner_password peer_username peer_password : string)
    : host (result HostError unit) :=
  try> (stream_type, user) := log_in owner_username owner_password peer_username peer_password in
  try> channel_id := choose_channel in
  try> cursors := connect_live patience user in
  try> (owner_voice, peer_voice) := join_both channel_id cursors in
  try> _ := forward_frame owner_voice peer_voice stream_type user in
  try> _ := leave_reported "peer" Peer in
  leave_reported "owner" Owner.

(** What [main] reads before it has a client. *)
Definition settings : host (result HostError (ServerCard * (string * string) * (string * string))) :=
  try> text := required "ZEPHYRVOX_SERVER_CARD" in
  try> card := Ret (map_err HostCard (Card.parse text)) in
  try> owner_username := required "ZEPHYRVOX_USERNAME" in
  try> owner_password := required "ZEPHYRVOX_PASSWORD" in
  try> peer_username := required "ZEPHYRVOX_PEER_USERNAME" in
  try> peer_password := required "ZEPHYRVOX_PEER_PASSWORD" in
  Ret (Ok (card, (owner_username, owner_password), (peer_username, peer_password))).

(** The check with its cleanup. *)
Definition check_and_shut_down (patience : nat) (owner_account peer_account : string * string) : host (result HostError unit) :=
  let> result := run_interoperability patience owner_account.1 owner_account.2 peer_account.1 peer_account.2 in
  let> peer_shutdown := on_sdk Peer shutdown in
  let> owner_shutdown := on_sdk Owner shutdown in
  try> _ := Ret result in
  try> _ := Ret peer_shutdown in
  try> _ := Ret owner_shutdown in
  let> _ := println "interoperability check passed" in
  Ret (Ok tt).

Definition interoperability (patience : nat) : host (result HostError unit) :=
  try> (card, owner_account, peer_account) := settings in
  try> _ := fallible HostSdk (client_new Owner (ClientConfig.new card)) in
  try> _ := fallible HostSdk (client_new Peer (ClientConfig.new card)) in
  check_and_shut_down patience owner_account peer_account.

(** ** headless.rs *)

Definition var (name : string) : host (result HostError string) :=
  let> value := ask (QVar name) in
  Ret (ok_or (HostVar name) value).

(** With credentials in the environment, log in and wait for a live connection. *)
Definition headless_session (username password : string) : host (result HostError unit) :=
  let> device_id := ask (QVar "ZEPHYRVOX_DEVICE_ID") in
  try> _ := on_sdk Owner (sdk_login (mkLoginRequest username password (default "headless"%string device_id))) in
  try> control := on_sdk Owner (connect false) in
  fallible HostRealtime (ask (QWaitUntilLive Owner control)).

Definition headless : host (result HostError unit) :=
  try> text := var "ZEPHYRVOX_SERVER_CARD" in
  try> card := Ret (map_err HostCard (Card.parse text)) in
  try> _ := fallible HostSdk (client_new Owner (ClientConfig.new card)) in
  try> _ := on_sdk Owner discover in
  let> username := ask (QVar "ZEPHYRVOX_USERNAME") in
  let> password := ask (QVar "ZEPHYRVOX_PASSWORD") in
  try> _ := (match username, password with
             | Some username, Some password => headless_session username password
             | _, _ => Ret (Ok tt)
             end) in
  on_sdk Owner shutdown.
End hosts.

(** ** A small world: a server that answers both clients *)

Module ToyHosts.
#[local] Existing Instance ToyVoice.base64.

Definition user (id : Z) : User := mkUser id "u" "n" None.
Definition login (id : Z) : LoginResult := mkLoginResult (mkTokenPair "access" "refresh" 900) (user id).

(** The peer's state once the owner does not want to be disturbed. *)
Definition state : ClientState :=
  mkClientState "cursor" (replicate 16 1) 10 "1" (mkServerState "s" "v")
    (mkSelfUserState (user 2) [] [] (mkPresence "online" None) None)
    [mkUserPresence 1 "n" None (mkPresence "dnd" None)] [] [] [] [].

Definition variables (name : string) : option string :=
  if bool_decide (name = "ZEPHYRVOX_SERVER_CARD"%string) then Some "zephyrvox://[2001:db8::1]:7788?v=1"%string
  else if bool_decide (name = "ZEPHYRVOX_CHANNEL_ID"%string) then Some "5"%string
  else Some "1"%string.

(** Admission to any channel, on the same terms. *)
Definition response (channel_id : Z) : VoiceJoinResponse :=
  mkVoiceJoinResponse (mkChannel channel_id None "talk" "voice" false "public" 0 0 false "1") []
    (join_voice_negotiation ToyVoice.response) "cursor" (mkCheckpoint (replicate 16 2) 7).

(** The owner is user 1; frames are forwarded under that name. *)
Definition client_answers (side : Side) (q : Query) : Answer unit q :=
  match q with
  | QLogin _ => Ok (login (match side with Owner => 1 | Peer => 2 end))
  | QSetPresence _ _ => Ok (mkCommandAck "r" "presence.set" None None)
  | QJoin channel_id _ _ => Ok (response channel_id)
  | QRecvFrame _ => Ok (mkInboundMedia 1 1 0 4 MEDIA_PAYLOAD)
  | q => ToySdk.answers q
  end.

Definition answers (q : HostQuery) : HostAnswer unit q :=
  match q with
  | OnClient side q => client_answers side q
  | QVar name => variables name
  | QBuildApi _ _ _ => Ok tt
  | QRegister _ _ => Ok (mkRegisterResult (user 2))
  | QCreateChannel _ _ =>
      Ok (mkApiResponse (join_channel (response 5)) 201 (mkResponseHeaders None None None None None None false))
  | QWaitUntilLive _ _ => Ok tt
  | QBorrow _ _ => state
  | QChanged _ _ => true
  | QTimer _ => false
  | QYield => tt
  | QDrain _ _ => [SdkSyncRequired "gap"]
  end.

Definition start : Hosts unit := mkHosts from_api from_api [].
End ToyHosts.
