(* ===== verification/HostRuns.v ===== *)
(** Runs of the example hosts (crates/zephyrvox-sdk/examples): how they end, and what a
    check that passes has asked for, for any moves of the clients' other tasks that keep
    to the conditions stated here. *)

From S2P Require Import Prelude Text Types Json Wire ClientModel VoiceTypes VoiceConfig RealtimeTypes RealtimeTransport.
From S2P Require Import HttpTypes HttpClient HttpDiscovery HttpVoice HttpAuth HttpChannels SdkTypes SdkProgram SdkVoice SdkClient.
From S2P Require Import SdkOutcomes Hosts.

(** A run of [?] that ends well. *)
Lemma ok_try {St Lock Q : Type} {Answer : Q → Type} (others : St → St → Prop) {E A B}
    (p : prog (St:=St) (Lock:=Lock) (Answer:=Answer) (result E A)) (m : A → prog (result E B)) s log b s' :
  outcome others (try_bind p m) s log (Ok b) s' →
  ∃ a s1 l1 l2, outcome others p s l1 (Ok a) s1 ∧ outcome others (m a) s1 l2 (Ok b) s' ∧ log = l1 ++ l2.
Proof.
  intros (x & s1 & l1 & l2 & Hp & -> & Hx)%outcome_try. destruct x as [a|e]; [by exists a, s1, l1, l2|].
  by destruct Hx as (? & _).
Qed.

(** ** Parts of the clients' state that a host's calls leave alone *)

Section views.
Context {V : Type} `{Base64Lib, UrlLib}.
Abbreviation act A := (prog (St:=ClientInner V) (Lock:=Gate) (Q:=Query) (Answer:=Answer V) A).

Definition both {X} (view : ClientInner V → X) (h : Hosts V) : X * X := (view (owner h), view (peer h)).

Lemma untouched_on {X A} (view : ClientInner V → X) side (p : act A) :
  untouched view p → untouched (both view) (on side p).
Proof.
  induction p as [b|f n IH|l n IH|l n IH|q n IH]; cbn; try naive_solver.
  intros [Hf Hp]. split; [|naive_solver]. intros h. unfold both. destruct side; cbn; by rewrite Hf.
Qed.

Lemma untouched_wait {X} (view : ClientInner V → X) patience side state user_id status :
  untouched (A:=result HostError unit) (both view) (wait_for_user_presence patience side state user_id status).
Proof.
  induction patience as [|patience IH]; cbn; intros current; destruct (has_presence _ _ _); try done.
  intros []; [done|]. cbn. by intros [].
Qed.

Lemma untouched_lines {X} (view : ClientInner V → X) lines : untouched (both view) (println_all lines).
Proof. induction lines as [|line lines IH]; cbn; [done|]. by split. Qed.

End views.

Ltac leave_alone :=
  leave_alone_with ltac:(first [apply untouched_wait | apply untouched_lines | apply untouched_on]).

(** The operations that a host uses, but for the shutdown, do not stop a client. *)
Lemma check_keeps_open {V} `{Base64Lib, UrlLib} patience a b c d :
  untouched (both ci_stopped) (run_interoperability (V:=V) patience a b c d).
Proof. leave_alone. Qed.

(** ** Calls of one client inside a host *)

Section hosts.
Context {V : Type} `{Base64Lib, UrlLib}.
(** What the other tasks of one client (its relay) do between two steps of the host. *)
Context (moves : ClientInner V → ClientInner V → Prop) `{!PreOrder moves}.

Abbreviation act A := (prog (St:=ClientInner V) (Lock:=Gate) (Q:=Query) (Answer:=Answer V) A).
Abbreviation host A := (prog (St:=Hosts V) (Lock:=Side * Gate) (Q:=HostQuery) (Answer:=HostAnswer V) A).
Abbreviation Call := {q : Query & Answer V q}.
Abbreviation HostCall := {q : HostQuery & HostAnswer V q}.

Definition others (h h' : Hosts V) : Prop := ∀ side, moves (client_of side h) (client_of side h').

Abbreviation ends p s log r s' := (outcome (Answer:=Answer V) moves p s log r s').
Abbreviation host_ends p h log r h' := (outcome (Answer:=HostAnswer V) others p h log r h').

Definition opposite (side : Side) : Side := match side with Owner => Peer | Peer => Owner end.

Definition on_call (side : Side) (c : Call) : HostCall := existT (OnClient side (projT1 c)) (projT2 c).

Lemma client_of_set side (s : ClientInner V) h : client_of side (set_client side s h) = s.
Proof. by destruct side. Qed.

Lemma client_of_set_opposite side (s : ClientInner V) h : client_of (opposite side) (set_client side s h) = client_of (opposite side) h.
Proof. by destruct side. Qed.

Lemma on_outcome {A} side (p : act A) h log r h' :
  host_ends (on side p) h log r h' →
  ∃ log', log = on_call side <$> log' ∧ ends p (client_of side h) log' r (client_of side h') ∧
    moves (client_of (opposite side) h) (client_of (opposite side) h').
Proof.
  revert h log. induction p as [b|f n IH|l n IH|l n IH|q n IH]; cbn; intros h log Ho.
  - destruct Ho as (-> & -> & ->). exists []. by split_and!.
  - destruct Ho as (h1 & H1 & (log' & -> & Ho & Hm)%IH). rewrite client_of_set in Ho.
    rewrite client_of_set_opposite in Hm. exists log'. split_and!; [done| |by etrans; [apply H1|]].
    by exists (client_of side h1).
  - destruct Ho as (h1 & H1 & (log' & -> & Ho & Hm)%IH). exists log'. split_and!; [done| |by etrans; [apply H1|]].
    by exists (client_of side h1).
  - destruct Ho as (h1 & H1 & (log' & -> & Ho & Hm)%IH). exists log'. split_and!; [done| |by etrans; [apply H1|]].
    by exists (client_of side h1).
  - destruct Ho as (h1 & x & rest & H1 & -> & (log' & -> & Ho & Hm)%IH). exists (existT q x :: log').
    split_and!; [done| |by etrans; [apply H1|]]. by exists (client_of side h1), x, log'.
Qed.

Lemma on_sdk_outcome {A} side (p : act (result SdkError A)) h log r h' :
  host_ends (on_sdk side p) h log r h' →
  ∃ log' x, log = on_call side <$> log' ∧ r = map_err HostSdk x ∧ ends p (client_of side h) log' x (client_of side h') ∧
    moves (client_of (opposite side) h) (client_of (opposite side) h').
Proof.
  intros (x & h1 & l1 & l2 & Ho & (-> & -> & ->) & ->)%outcome_bind. rewrite app_nil_r.
  apply on_outcome in Ho as (log' & -> & Ho & Hm). by exists log', x.
Qed.

Lemma on_sdk_ok {A} side (p : act (result SdkError A)) h log a h' :
  host_ends (on_sdk side p) h log (Ok a) h' →
  ∃ log', log = on_call side <$> log' ∧ ends p (client_of side h) log' (Ok a) (client_of side h') ∧
    moves (client_of (opposite side) h) (client_of (opposite side) h').
Proof.
  intros (log' & x & -> & Hx & Ho & Hm)%on_sdk_outcome. exists log'. destruct x as [b|e]; [|done].
  by injection Hx as <-.
Qed.

(** *** The way to the check *)

(** The calls before a client exists. *)
Definition preparing (q : HostQuery) : Prop := match q with QVar _ | QBuildApi _ _ _ => True | _ => False end.

Lemma others_refl h : others h h.
Proof. by intros side. Qed.

Lemma others_trans h1 h2 h3 : others h1 h2 → others h2 h3 → others h1 h3.
Proof. intros H12 H23 side. etrans; [apply H12|apply H23]. Qed.

(** A program that only asks, and only for these. *)
Fixpoint prepares {A} (p : host A) : Prop :=
  match p with
  | Ret _ => True
  | Await q m => preparing q ∧ ∀ a, prepares (m a)
  | _ => False
  end.

Lemma prepares_bind {A B} (p : host A) (m : A → host B) : prepares p → (∀ a, prepares (m a)) → prepares (bind p m).
Proof. intros Hp Hm. induction p as [a|f n IH|l n IH|l n IH|q n IH]; cbn in *; naive_solver. Qed.

Lemma prepares_try {E A B} (p : host (result E A)) (m : A → host (result E B)) :
  prepares p → (∀ a, prepares (m a)) → prepares (try_bind p m).
Proof. intros Hp Hm. apply prepares_bind; [done|]. by intros [a|e]. Qed.

Lemma prepares_outcome {A} (p : host A) h log r h' :
  prepares p → host_ends p h log r h' → others h h' ∧ Forall (λ c, preparing (projT1 c)) log.
Proof.
  revert h log. induction p as [b|f n IH|l n IH|l n IH|q n IH]; cbn; intros h log Hp Ho; try done.
  - destruct Ho as (_ & -> & ->). by split; [apply others_refl|].
  - destruct Ho as (h1 & x & rest & H1 & -> & Ho). destruct Hp as [Hq Hp]. destruct (IH _ _ _ (Hp x) Ho) as [H2 Hl].
    split; [by eapply others_trans|by constructor].
Qed.

Lemma settings_prepare : prepares (settings (V:=V)).
Proof.
  assert (∀ name, prepares (required (V:=V) name)) as Hr by by cbn.
  repeat first [apply prepares_try; [solve [apply Hr|done]|intros ?] | done].
Qed.

(** A client is new: its own tasks have not done anything to it yet. *)
Definition new_client (s : ClientInner V) : Prop := moves from_api s.

Lemma client_new_outcome side config h log r h' :
  host_ends (client_new side config) h log r h' →
  Forall (λ c, preparing (projT1 c)) log ∧
  (is_ok r = true → new_client (client_of side h') ∧ moves (client_of (opposite side) h) (client_of (opposite side) h')).
Proof.
  intros Ho. unfold client_new in Ho. destruct (ClientConfig.validate config); cbn in Ho;
    [|by destruct Ho as (-> & _ & ->)].
  destruct Ho as (h1 & x & rest & H1 & -> & Ho). destruct x as [[]|e]; cbn in Ho;
    [|destruct Ho as (-> & _ & ->); by split; [repeat constructor|]].
  destruct Ho as (h2 & H2 & -> & -> & ->). split; [by repeat constructor|]. intros _.
  unfold new_client. rewrite client_of_set, client_of_set_opposite. split; [done|]. by etrans; [apply H1|apply H2].
Qed.

(** What [main] comes to: it ends before anything is asked of a server, or it checks with two
    new clients. *)
Lemma interoperability_outcome patience h log r h' :
  host_ends (interoperability patience) h log r h' →
  (is_ok r = false ∧ Forall (λ c, preparing (projT1 c)) log) ∨
  ∃ owner_account peer_account h1 before after,
    (∀ side, new_client (client_of side h1)) ∧ log = before ++ after ∧
    Forall (λ c, preparing (projT1 c)) before ∧
    host_ends (check_and_shut_down patience owner_account peer_account) h1 after r h'.
Proof.
  intros (x & h1 & l1 & k1 & H1 & -> & Ho)%outcome_try. apply prepares_outcome in H1 as [_ P1]; [|apply settings_prepare].
  destruct x as [[[card owner_account] peer_account]|e]; [|destruct Ho as (-> & _ & ->); left; by rewrite app_nil_r].
  apply outcome_try in Ho as (x & h2 & l2 & k2 & H2 & -> & Ho).
  apply outcome_bind in H2 as (y & h3 & l3 & k3 & [P2 Hy]%client_new_outcome & (-> & -> & ->) & ->). rewrite app_nil_r in *.
  destruct y as [[]|e]; [|destruct Ho as (-> & _ & ->); left; rewrite app_nil_r; split; [done|by apply Forall_app]].
  destruct Hy as [Hnew _]; [done|].
  apply outcome_try in Ho as (x & h4 & l4 & k4 & H4 & -> & Ho).
  apply outcome_bind in H4 as (y & h5 & l5 & k5 & [P4 Hy]%client_new_outcome & (-> & -> & ->) & ->). rewrite app_nil_r in *.
  destruct y as [[]|e]; [|destruct Ho as (-> & _ & ->); left; rewrite app_nil_r; split; [done|by rewrite !Forall_app]].
  destruct Hy as [Hnew' Hm]; [done|]. cbn in Hm.
  right. exists owner_account, peer_account, h5, (l1 ++ l3 ++ l5), k4. split_and!; [|by rewrite <- !app_assoc|by rewrite !Forall_app|done].
  intros []; [|done]. unfold new_client in *. etrans; [exact Hnew|exact Hm].
Qed.

(** *** The end of a client *)

(** What a client holds while it works. *)
Inductive Cell := VoiceCell | ControlCell | StateCell | IntentCell | KeyCell | TaskCell.

Definition cleared (cell : Cell) (s : ClientInner V) : Prop :=
  match cell with
  | VoiceCell => ci_voice s = None
  | ControlCell => ci_control s = None
  | StateCell => ci_state s = None
  | IntentCell => ci_voice_intent s = None
  | KeyCell => ci_key_cache s = ∅
  | TaskCell => ci_tasks s = []
  end.

Definition shut_down (s : ClientInner V) : Prop := ci_stopped s = true ∧ ∀ cell, cleared cell s.

(** Nobody else stops a client, and nobody puts anything back into a stopped one. *)
Record attended : Prop := {
  attended_stopped s s' : moves s s' → ci_stopped s' = ci_stopped s;
  attended_cleared s s' cell : moves s s' → ci_stopped s = true → cleared cell s → cleared cell s';
}.

Section cleanup.
Hypothesis Hmoves : attended.

(** A program whose pieces only take things out of a stopped client. *)
Definition taking_out (f : ClientInner V → ClientInner V) : Prop :=
  ∀ s, ci_stopped (f s) = ci_stopped s ∧ ∀ cell, cleared cell s → cleared cell (f s).

Fixpoint clearing {A} (p : act A) : Prop :=
  match p with
  | Ret _ => True
  | Atomic f m => taking_out f ∧ ∀ s, clearing (m s)
  | Acquire _ m | Release _ m => clearing m
  | Await _ m => ∀ a, clearing (m a)
  end.

Definition still (s s' : ClientInner V) : Prop :=
  ci_stopped s = true → ci_stopped s' = true ∧ ∀ cell, cleared cell s → cleared cell s'.

Lemma still_moves s s' : moves s s' → still s s'.
Proof.
  intros Hm Hs. split; [by rewrite (attended_stopped Hmoves _ _ Hm)|]. intros cell.
  by apply (attended_cleared Hmoves).
Qed.

Lemma still_trans s1 s2 s3 : still s1 s2 → still s2 s3 → still s1 s3.
Proof. intros H12 H23 H1. destruct (H12 H1) as [H2 Hc]. destruct (H23 H2) as [H3 Hc']. split; auto. Qed.

Lemma still_piece f s s1 : taking_out f → moves s s1 → still s (f s1).
Proof.
  intros Hf Hm. eapply still_trans; [by apply still_moves|]. intros Hs. destruct (Hf s1) as [Hst Hc].
  by rewrite Hst.
Qed.

Lemma clearing_outcome {A} (p : act A) s log r s' : clearing p → ends p s log r s' → still s s'.
Proof.
  revert s log. induction p as [b|f n IH|l n IH|l n IH|q n IH]; cbn; intros s log Hp Ho.
  - destruct Ho as (_ & -> & _). by apply still_moves.
  - destruct Ho as (s1 & H1 & Ho). destruct Hp as [Hf Hp]. eapply still_trans; [by eapply still_piece|by eapply IH].
  - destruct Ho as (s1 & H1 & Ho). eapply still_trans; [by apply still_moves|by eapply IH].
  - destruct Ho as (s1 & H1 & Ho). eapply still_trans; [by apply still_moves|by eapply IH].
  - destruct Ho as (s1 & x & rest & H1 & _ & Ho). eapply still_trans; [by apply still_moves|by eapply IH].
Qed.

Lemma clearing_bind {A B} (p : act A) (m : A → act B) : clearing p → (∀ a, clearing (m a)) → clearing (bind p m).
Proof. intros Hp Hm. induction p as [a|f n IH|l n IH|l n IH|q n IH]; cbn in *; naive_solver. Qed.

(** A program that takes the content of a cell out, for good. *)
Definition settling {A} (cell : Cell) (p : act A) : Prop :=
  ∀ s log r s', ci_stopped s = true → ends p s log r s' → cleared cell s'.

Lemma settling_acquire {A} cell l (p : act A) : settling cell p → settling cell (Acquire l p).
Proof.
  intros Hp s log r s' Hs (s1 & H1 & Ho). eapply Hp; [|exact Ho]. by rewrite (attended_stopped Hmoves _ _ H1).
Qed.

Lemma settling_atomic {A} cell f (m : ClientInner V → act A) :
  taking_out f → (∀ s, cleared cell (f s)) → (∀ s, clearing (m s)) → settling cell (Atomic f m).
Proof.
  intros Hf Hcell Hm s log r s' Hs (s1 & H1 & Ho). apply clearing_outcome in Ho; [|done]. apply Ho; [|done].
  destruct (Hf s1) as [-> _]. by rewrite (attended_stopped Hmoves _ _ H1).
Qed.

Definition emptied (cells : list Cell) (s : ClientInner V) : Prop :=
  ci_stopped s = true ∧ Forall (λ cell, cleared cell s) cells.

Lemma emptied_after {A} cells cell (p : act A) s log r s' :
  settling cell p → clearing p → emptied cells s → ends p s log r s' → emptied (cell :: cells) s'.
Proof.
  intros Hp Hc [Hs Hcells] Ho. destruct (clearing_outcome _ _ _ _ _ Hc Ho Hs) as [Hs' Hkeep].
  split; [done|]. constructor; [by apply (Hp s log r)|]. eapply Forall_impl; [exact Hcells|]. intros c. apply Hkeep.
Qed.

Lemma taking_out_close t sid : taking_out (λ s, remove_key sid (set_closed ({[t]} ∪ ci_closed s) s)).
Proof. intros s. split; [done|]. intros []; cbn; try done. intros ->. apply delete_empty. Qed.

Lemma taking_out_key sid : taking_out (remove_key sid).
Proof. intros s. split; [done|]. intros []; cbn; try done. intros ->. apply delete_empty. Qed.

Lemma taking_out_cell f : (∀ s, ci_stopped (f s) = ci_stopped s) →
  (∀ s cell, cleared cell s → cleared cell (f s)) → taking_out f.
Proof. intros Hs Hc s. split; [done|]. intros cell. apply Hc. Qed.

Lemma clearing_stop v : clearing (session_close_transport v).
Proof.
  cbn. intros a. split; [apply taking_out_close|]. intros _. split; [apply taking_out_key|done].
Qed.

Lemma clearing_abort tasks : clearing (abort_tasks tasks).
Proof. induction tasks as [|t tasks IH]; cbn; [done|]. by intros _. Qed.

Ltac take_out := apply taking_out_cell; [done|intros ? []; cbn; done].

Lemma shutdown_voice_parts : clearing shutdown_voice ∧ settling VoiceCell shutdown_voice.
Proof.
  assert (∀ session, clearing (bind (bind (match session with
            | Some session => let> r := session_close_transport session in
                              Ret (match r with Err e => Some e | Ok _ => None end)
            | None => Ret None end) (λ a, Release VoiceLock (Ret a))) (λ a, Release VoiceGate (Ret a)))) as Hrest.
  { intros [session|]; [|done]. apply clearing_bind; [|done]. apply clearing_bind; [|done].
    apply clearing_bind; [apply clearing_stop|done]. }
  split; [cbn; split; [take_out|intros s; apply Hrest]|].
  apply settling_acquire, settling_acquire, settling_atomic; [take_out|done|intros s; apply Hrest].
Qed.

Lemma shutdown_control_parts e : clearing (shutdown_control e) ∧ settling ControlCell (shutdown_control e).
Proof.
  assert (∀ control, clearing (bind (match control with
            | Some control => let> r := map_error SdkRealtime (call (QCloseControl control)) in
                              Ret (match r, e with Err e, None => Some e | _, _ => e end)
            | None => Ret e end) (λ a, Release ControlLock (Ret a)))) as Hrest by (by intros [control|]).
  split; [cbn; split; [take_out|intros s; apply Hrest]|].
  apply settling_acquire, settling_atomic; [take_out|done|intros s; apply Hrest].
Qed.

Lemma settling_modify cell f : taking_out f → (∀ s, cleared cell (f s)) → settling cell (modify f : act unit).
Proof. intros Hf Hc. by apply settling_atomic. Qed.

Lemma teardown_outcome s log r s' : ci_stopped s = true → ends teardown s log r s' → shut_down s'.
Proof.
  intros Hs Ho. assert (emptied [] s) as Hnone by done.
  assert (∀ f cell cells t log t', taking_out f → (∀ s, cleared cell (f s)) → emptied cells t →
    ends (modify f : act unit) t log tt t' → emptied (cell :: cells) t') as Hmodify.
  { intros f cell cells t log' t' Hf Hc Ht Hm. eapply (emptied_after cells cell (modify f : act unit)); [by apply settling_modify| |done|done].
    by split. }
  apply outcome_bind in Ho as (e1 & s1 & l1 & k1 & H1 & Ho & ->).
  destruct shutdown_voice_parts as [Hc1 Hs1]. apply (emptied_after [] _ _ _ _ _ _ Hs1 Hc1 Hnone) in H1.
  apply outcome_bind in Ho as (e2 & s2 & l2 & k2 & H2 & Ho & ->).
  destruct (shutdown_control_parts e1) as [Hc2 Hs2]. apply (emptied_after _ _ _ _ _ _ _ Hs2 Hc2 H1) in H2.
  apply outcome_bind in Ho as ([] & s3 & l3 & k3 & H3 & Ho & ->). eapply (Hmodify _ KeyCell) in H3; [|take_out|done|eassumption].
  apply outcome_bind in Ho as ([] & s4 & l4 & k4 & H4 & Ho & ->). eapply (Hmodify _ IntentCell) in H4; [|take_out|done|eassumption].
  apply outcome_bind in Ho as ([] & s5 & l5 & k5 & H5 & Ho & ->). eapply (Hmodify _ StateCell) in H5; [|take_out|done|eassumption].
  apply outcome_bind in Ho as (tasks & s6 & l6 & k6 & H6 & Ho & ->).
  assert (emptied [TaskCell; StateCell; IntentCell; KeyCell; ControlCell; VoiceCell] s6) as H6'.
  { eapply emptied_after; [| |exact H5|exact H6].
    - apply settling_acquire, settling_atomic; [take_out|done|by intros].
    - cbn. split; [take_out|done]. }
  apply outcome_bind in Ho as ([] & s7 & l7 & k7 & H7 & (_ & -> & ->) & ->).
  destruct H6' as [Hst Hcells]. apply clearing_outcome in H7; [|apply clearing_abort]. destruct (H7 Hst) as [Hst' Hkeep].
  split; [done|]. rewrite Forall_forall in Hcells. intros cell. apply Hkeep, Hcells. destruct cell; set_solver.
Qed.

Lemma shut_down_moves s s' : moves s s' → shut_down s → shut_down s'.
Proof. intros Hm [Hs Hc]. destruct (still_moves _ _ Hm Hs) as [Hs' Hc']. split; auto. Qed.

Lemma shutdown_outcome s log r s' : ci_stopped s = false → ends shutdown s log r s' → shut_down s'.
Proof.
  intros Hs (s1 & s2 & H1 & (s3 & H3 & Ho) & H2)%locked_outcome. eapply shut_down_moves; [exact H2|].
  rewrite (attended_stopped Hmoves _ _ H3), (attended_stopped Hmoves _ _ H1), Hs in Ho. cbn in Ho.
  by eapply teardown_outcome; [|exact Ho].
Qed.

Lemma others_stopped h h' : others h h' → both ci_stopped h' = both ci_stopped h.
Proof.
  intros Ho. unfold both.
  by rewrite (attended_stopped Hmoves (owner h) (owner h') (Ho Owner)), (attended_stopped Hmoves (peer h) (peer h') (Ho Peer)).
Qed.

(** Whatever the check has come to, both clients are shut down after it. *)
Lemma check_shuts_down patience owner_account peer_account h log r h' :
  both ci_stopped h = (false, false) →
  host_ends (check_and_shut_down patience owner_account peer_account) h log r h' → ∀ side, shut_down (client_of side h').
Proof.
  intros Hopen Ho. apply outcome_bind in Ho as (x & h1 & l1 & k1 & H1 & Ho & ->).
  apply (untouched_outcome (both ci_stopped)) in H1; [|exact others_stopped|apply check_keeps_open]. rewrite Hopen in H1. injection H1 as Ho1 Hp1.
  apply outcome_bind in Ho as (px & h2 & l2 & k2 & H2 & Ho & ->).
  apply on_sdk_outcome in H2 as (l2' & y2 & -> & -> & H2 & Hm2). cbn in Hm2.
  apply shutdown_outcome in H2; [|done].
  apply outcome_bind in Ho as (ox & h3 & l3 & k3 & H3 & Ho & ->).
  apply on_sdk_outcome in H3 as (l3' & y3 & -> & -> & H3 & Hm3). cbn in Hm3.
  apply shutdown_outcome in H3; [|cbn; by rewrite (attended_stopped Hmoves _ _ Hm2)].
  assert (∀ side, moves (client_of side h3) (client_of side h')) as Hend.
  { destruct x as [[]|e]; [|by destruct Ho as (_ & -> & _)]. destruct y2 as [[]|e]; [|by destruct Ho as (_ & -> & _)].
    destruct y3 as [[]|e]; [|by destruct Ho as (_ & -> & _)]. destruct Ho as (h4 & H4 & _ & -> & _).
    intros side. etrans; [apply H4|]. by destruct side. }
  intros []; (eapply shut_down_moves; [apply Hend|]); [done|]. by eapply shut_down_moves.
Qed.

(** The headless host shuts its client down unless it reports an error. *)
Lemma headless_shuts_down h log h' : host_ends headless h log (Ok tt) h' → shut_down (owner h').
Proof.
  intros (text & h1 & l1 & k1 & _ & Ho & _)%ok_try. apply ok_try in Ho as (card & h2 & l2 & k2 & _ & Ho & _).
  apply ok_try in Ho as ([] & h3 & l3 & k3 & Hnew & Ho & _).
  apply outcome_bind in Hnew as (y & h4 & l4 & k4 & [_ Hy]%client_new_outcome & (Heq & -> & _) & _).
  destruct y as [[]|e]; [|done]. destruct Hy as [Hnew _]; [done|]. cbn in Hnew. apply (attended_stopped Hmoves) in Hnew.
  apply ok_try in Ho as (m & h5 & l5 & k5 & H5 & Ho & _).
  apply (untouched_outcome (both ci_stopped)) in H5; [|exact others_stopped|leave_alone].
  destruct Ho as (h6 & username & rest & H6 & _ & Ho). destruct Ho as (h7 & password & rest' & H7 & _ & Ho).
  apply others_stopped in H6, H7. apply ok_try in Ho as ([] & h8 & l8 & k8 & H8 & Ho & _).
  apply (untouched_outcome (both ci_stopped)) in H8; [|exact others_stopped|leave_alone].
  apply on_sdk_ok in Ho as (log' & _ & Ho & _). apply shutdown_outcome in Ho; [done|].
  assert (both ci_stopped h8 = both ci_stopped h4) as Hboth by congruence. injection Hboth as Ho8 _. cbn in Hnew |- *. congruence.
Qed.

(** It ends before anything but the environment and the construction of the clients was
    asked for, or both clients are shut down. *)
Lemma check_cleans_up patience h log r h' :
  host_ends (interoperability patience) h log r h' →
  (is_ok r = false ∧ Forall (λ c, preparing (projT1 c)) log) ∨ ∀ side, shut_down (client_of side h').
Proof.
  intros [[Hr Hlog]|(o & p & h1 & before & after & Hnew & -> & _ & Ho)]%interoperability_outcome; [by left|right].
  eapply check_shuts_down; [|exact Ho]. unfold both. cbn.
  by rewrite (attended_stopped Hmoves _ (owner h1) (Hnew Owner)), (attended_stopped Hmoves _ (peer h1) (Hnew Peer)).
Qed.

End cleanup.

(** *** What the calls of a passing check were *)

Section observing.
(** The other tasks of a client leave its cached metadata alone. *)
Hypothesis metadata_kept : ∀ s s', moves s s' → ci_metadata s' = ci_metadata s.

Lemma discover_asks s log m s' :
  ci_metadata s = None → ends discover s log (Ok m) s' → existT QMetadata (Ok m) ∈ log.
Proof.
  intros Hm Ho. unfold discover in Ho. destruct Ho as (s1 & H1 & Ho). destruct (ci_stopped s1); [by destruct Ho as (Heq & _)|].
  destruct Ho as (s2 & H2 & Ho). cbn in H2, Ho. unfold id in H2.
  rewrite (metadata_kept _ _ H2), (metadata_kept _ _ H1), Hm in Ho.
  destruct Ho as (s3 & x & rest & _ & -> & Ho). destruct x as [m'|e]; cbn in Ho; [|by destruct Ho as (Heq & _)].
  destruct Ho as (s4 & _ & Heq & _ & ->). injection Heq as <-. by left.
Qed.

Lemma login_asks request s log login s' :
  ends (sdk_login request) s log (Ok login) s' → existT (QLogin request) (Ok login) ∈ log.
Proof.
  intros (s1 & _ & Ho). destruct (ci_stopped s1); [by destruct Ho as (Heq & _)|].
  destruct Ho as (s2 & x & rest & _ & -> & Heq & _ & ->). destruct x; [|done]. injection Heq as <-. by left.
Qed.

Lemma start_asks auto channel_id request control id generation m codec response s log v s' :
  ends (start_session auto channel_id request control id generation m codec response) s log (Ok v) s' →
  Channel_id (join_channel response) = channel_id ∧ negotiated_config m (join_voice_negotiation response) = Ok (vs_config v).
Proof.
  unfold start_session. destruct (Z.eqb_spec (Channel_id (join_channel response)) channel_id) as [Hch|]; cbn [negb];
    [|by intros (? & _)].
  intros (key & s1 & l1 & k1 & _ & Ho & _)%ok_try. apply read_outcome in Ho as (s2 & _ & Ho).
  apply ok_try in Ho as (config & s3 & l3 & k3 & (Hcfg & _ & _) & Ho & _). apply ok_try in Ho as (t & s4 & l4 & k4 & _ & Ho & _).
  apply read_outcome in Ho as (s5 & _ & Ho). apply read_outcome in Ho as (s6 & _ & Ho). apply read_outcome in Ho as (s7 & _ & Ho).
  destruct (_ || _).
  - apply outcome_bind in Ho as (x & s8 & l8 & k8 & _ & Ho & _). apply read_outcome in Ho as (s9 & _ & ? & _). done.
  - split; [done|]. apply outcome_bind in Ho as (? & ? & ? & ? & _ & Ho & _). apply outcome_bind in Ho as (? & ? & ? & ? & _ & Ho & _).
    apply outcome_bind in Ho as (? & ? & ? & ? & _ & Ho & _). apply outcome_bind in Ho as (? & ? & ? & ? & _ & Ho & _).
    apply outcome_bind in Ho as (? & ? & ? & ? & _ & (Heq & _) & _). injection Heq as ->. by symmetry.
Qed.

(** The membership that a successful join was given. *)
Lemma join_asks auto channel_id request s log v s' :
  ends (join_voice auto channel_id request) s log (Ok v) s' →
  ∃ id response m, existT (QJoin channel_id request id) (Ok response) ∈ log ∧
    Channel_id (join_channel response) = channel_id ∧
    negotiated_config m (join_voice_negotiation response) = Ok (vs_config v).
Proof.
  intros (s1 & _ & Ho). destruct (ci_stopped s1); [by destruct Ho as (? & _)|]. cbn [try_bind bind] in Ho.
  apply locked_outcome in Ho as (s2 & s3 & _ & Ho & _). apply ok_try in Ho as (control & s4 & l1 & l2 & _ & Ho & ->).
  apply read_outcome in Ho as (s5 & _ & Ho). destruct (is_live control s5); cbn [negb] in Ho; [|by destruct Ho as (? & _)].
  apply ok_try in Ho as (m & s6 & l3 & l4 & _ & Ho & ->). apply ok_try in Ho as (codec & s7 & l5 & l6 & _ & Ho & ->).
  apply read_outcome in Ho as (s8 & _ & Ho). destruct (is_live control s8); cbn [negb] in Ho; [|by destruct Ho as (? & _)].
  apply read_outcome in Ho as (s9 & _ & Ho). apply ok_try in Ho as (id & s10 & l7 & l8 & _ & Ho & ->).
  apply read_outcome in Ho as (s11 & _ & Ho). apply ok_try in Ho as (response & s12 & l9 & l10 & Hj & Ho & ->).
  destruct Hj as (s13 & x & rest & _ & -> & Heq & _ & ->). destruct x as [response'|e]; [|done]. injection Heq as <-.
  apply start_asks in Ho as [Hch Hcfg]. exists id, response, m. split_and!; [|done|done].
  rewrite !elem_of_app. do 4 right. left. by left.
Qed.

Lemma asked side q (x : Answer V q) (log : list Call) :
  existT q x ∈ log → (existT (OnClient side q) x : HostCall) ∈ on_call side <$> log.
Proof. intros Hin. by apply (list_elem_of_fmap_2 (on_call side)) in Hin. Qed.

Lemma ensure_ok expected text h log h' : host_ends (ensure expected text) h log (Ok tt) h' → expected = true ∧ h' = h ∧ log = [].
Proof. destruct expected; [by intros (_ & -> & ->)|by intros (? & _)]. Qed.

Lemma log_in_asks a b c d h log stream user h' :
  ci_metadata (owner h) = None → host_ends (log_in a b c d) h log (Ok (stream, user)) h' →
  ∃ m request login, (existT (OnClient Owner QMetadata) (Ok m) : HostCall) ∈ log ∧
    head (VoiceStreamType_id <$> voice_stream_types m) = Some stream ∧
    (existT (OnClient Owner (QLogin request)) (Ok login) : HostCall) ∈ log ∧ user = login_user login.
Proof.
  intros Hm (m & h1 & l1 & k1 & (l1' & -> & H1 & _)%on_sdk_ok & Ho & ->)%ok_try. apply discover_asks in H1; [|done].
  apply ok_try in Ho as (m' & h2 & l2 & k2 & _ & Ho & ->). apply ok_try in Ho as ([] & h3 & l3 & k3 & _ & Ho & ->).
  apply ok_try in Ho as ([codec stream'] & h4 & l4 & k4 & (Hcap & -> & ->) & Ho & ->).
  apply ok_try in Ho as (login & h5 & l5 & k5 & (l5' & -> & H5 & _)%on_sdk_ok & Ho & ->). apply login_asks in H5.
  destruct Ho as (h6 & x & rest & _ & -> & Ho). apply ok_try in Ho as ([] & h7 & l7 & k7 & _ & Ho & ->).
  apply ok_try in Ho as (peer_login & h8 & l8 & k8 & _ & (Heq & -> & ->) & ->). injection Heq as -> ->.
  exists m, (mkLoginRequest a b "rust-sdk-interop-owner"), login. split_and!; [|..|done].
  - apply elem_of_app. left. by apply asked.
  - unfold first_capabilities in Hcap. destruct (head (codecs m)); [|done]. cbn in Hcap.
    destruct (head (VoiceStreamType_id <$> voice_stream_types m)); [|done]. cbn in Hcap. by injection Hcap as -> ->.
  - rewrite !elem_of_app. do 4 right. left. by apply asked.
Qed.

(** What a member of the channel has asked for, and been told. *)
Definition member (log : list HostCall) (side : Side) (channel_id : Z) (v : VoiceSession) : Prop :=
  ∃ request id response m, (existT (OnClient side (QJoin channel_id request id)) (Ok response) : HostCall) ∈ log ∧
    Channel_id (join_channel response) = channel_id ∧
    negotiated_config m (join_voice_negotiation response) = Ok (vs_config v).

Lemma join_both_runs channel_id cursors h log v1 v2 h' :
  host_ends (join_both channel_id cursors) h log (Ok (v1, v2)) h' →
  ∃ h1 h2 l1 l2 l3, host_ends (on_sdk Owner (join_voice false channel_id (mkVoiceJoinRequest (Some "rust-sdk-interop-owner"%string) false None))) h l1 (Ok v1) h1 ∧
    host_ends (on_sdk Peer (join_voice false channel_id (mkVoiceJoinRequest (Some "rust-sdk-interop-peer"%string) false None))) h1 l2 (Ok v2) h2 ∧
    host_ends (let> _ := call QYield in let> _ := print_sync_diagnostics "owner" Owner cursors.1 in
               let> _ := print_sync_diagnostics "peer" Peer cursors.2 in Ret (Ok (v1, v2) : result HostError _)) h2 l3 (Ok (v1, v2)) h' ∧
    log = l1 ++ l2 ++ l3 ∧ negotiations_agree v1 v2 = true.
Proof.
  intros (w1 & h1 & l1 & k1 & H1 & Ho & ->)%ok_try. apply ok_try in Ho as (w2 & h2 & l2 & k2 & H2 & Ho & ->).
  apply ok_try in Ho as ([] & h3 & l3 & k3 & (Hagree & -> & ->)%ensure_ok & Ho & ->).
  assert (v1 = w1 ∧ v2 = w2) as [-> ->].
  { apply outcome_bind in Ho as (? & ? & ? & ? & _ & Ho & _). apply outcome_bind in Ho as (? & ? & ? & ? & _ & Ho & _).
    apply outcome_bind in Ho as (? & ? & ? & ? & _ & (Heq & _) & _). by injection Heq as -> ->. }
  by exists h1, h2, l1, l2, k3.
Qed.

Lemma join_both_asks channel_id cursors h log v1 v2 h' :
  host_ends (join_both channel_id cursors) h log (Ok (v1, v2)) h' →
  member log Owner channel_id v1 ∧ member log Peer channel_id v2 ∧ negotiations_agree v1 v2 = true.
Proof.
  intros (h1 & h2 & l1 & l2 & l3 & (l1' & -> & H1 & _)%on_sdk_ok & (l2' & -> & H2 & _)%on_sdk_ok & _ & -> & Hagree)%join_both_runs.
  apply join_asks in H1 as (id1 & r1 & m1 & Hin1 & Hc1 & Hn1). apply join_asks in H2 as (id2 & r2 & m2 & Hin2 & Hc2 & Hn2).
  split_and!; [| |done].
  - eexists _, id1, r1, m1. split_and!; [|done|done]. apply elem_of_app. left. by apply asked.
  - eexists _, id2, r2, m2. split_and!; [|done|done]. rewrite !elem_of_app. right. left. by apply asked.
Qed.

Lemma forward_asks v1 v2 stream user h log h' :
  host_ends (forward_frame v1 v2 stream user) h log (Ok tt) h' →
  (existT (OnClient Owner (QSendFrame (vs_transport v1) stream MEDIA_PAYLOAD)) (Ok tt) : HostCall) ∈ log ∧
  ∃ frame, (existT (OnClient Peer (QRecvFrame (vs_transport v2))) (Ok frame) : HostCall) ∈ log ∧
    speaker_id frame = User_id user ∧ stream_type frame = stream ∧ payload frame = MEDIA_PAYLOAD.
Proof.
  intros ([] & h1 & l1 & k1 & (l1' & -> & H1 & _)%on_sdk_ok & Ho & ->)%ok_try.
  destruct H1 as (s1 & x & rest & _ & -> & Hx & _ & ->). destruct x as [[]|e]; [|done].
  apply ok_try in Ho as (received & h2 & l2 & k2 & H2 & Ho & ->).
  destruct H2 as (h3 & elapsed & rest & _ & -> & H2). destruct elapsed; [by destruct H2 as (? & _)|]. cbn [bind] in H2.
  apply outcome_bind in H2 as (y & h4 & l4 & k4 & (l4' & -> & H4 & _)%on_outcome & (Heq & -> & ->) & ->).
  injection Heq as ->. destruct H4 as (s4 & z & rest & _ & -> & -> & _ & ->).
  apply ok_try in Ho as (frame & h5 & l5 & k5 & (Hf & -> & ->) & Ho & ->). destruct z as [frame'|e]; [|done].
  injection Hf as <-. apply ok_try in Ho as ([] & h6 & l6 & k6 & (Hspeaker & -> & ->)%ensure_ok & Ho & ->).
  apply ensure_ok in Ho as ([Hstream%Z.eqb_eq Hpayload%bool_decide_eq_true]%andb_true_iff & -> & ->).
  split; [by left|]. exists frame. split_and!; [|by apply Z.eqb_eq|done|done]. cbn. do 2 right. by left.
Qed.

(** The owner has sent a frame on the first advertised stream, and the peer was given it,
    with the owner's name, in the same channel under the same terms. *)
Definition forwarded_between (log : list HostCall) (v1 v2 : VoiceSession) : Prop :=
  ∃ m request login channel_id stream frame,
    (existT (OnClient Owner QMetadata) (Ok m) : HostCall) ∈ log ∧
    head (VoiceStreamType_id <$> voice_stream_types m) = Some stream ∧
    (existT (OnClient Owner (QLogin request)) (Ok login) : HostCall) ∈ log ∧
    member log Owner channel_id v1 ∧ member log Peer channel_id v2 ∧ negotiations_agree v1 v2 = true ∧
    (existT (OnClient Owner (QSendFrame (vs_transport v1) stream MEDIA_PAYLOAD)) (Ok tt) : HostCall) ∈ log ∧
    (existT (OnClient Peer (QRecvFrame (vs_transport v2))) (Ok frame) : HostCall) ∈ log ∧
    speaker_id frame = User_id (login_user login) ∧ stream_type frame = stream ∧ payload frame = MEDIA_PAYLOAD.

Definition media_forwarded (log : list HostCall) : Prop := ∃ v1 v2, forwarded_between log v1 v2.

Lemma member_mono log log' side channel_id v : log ⊆ log' → member log side channel_id v → member log' side channel_id v.
Proof. intros Hsub (request & id & response & m & Hin & Hrest). exists request, id, response, m. split; [by apply Hsub|done]. Qed.

Lemma forwarded_mono log log' v1 v2 : log ⊆ log' → forwarded_between log v1 v2 → forwarded_between log' v1 v2.
Proof.
  intros Hsub (m & request & login & channel_id & stream & frame & Hm & Hs & Hl & Hm1 & Hm2 & Ha & Hsend & Hrecv & Hsp & Hst & Hpl).
  exists m, request, login, channel_id, stream, frame.
  split_and!; try done; try (by apply Hsub); try (by eapply member_mono).
Qed.

(** The stages of a run that passes. *)
Definition stages (patience : nat) (a b c d : string) (h : Hosts V) (log : list HostCall) (v1 v2 : VoiceSession)
    (h1 h2 h3 h4 h5 h6 h' : Hosts V) : Prop :=
  ∃ stream user channel_id cursors l1 l2 l3 l4 l5 l6 l7,
    host_ends (log_in a b c d) h l1 (Ok (stream, user)) h1 ∧ host_ends choose_channel h1 l2 (Ok channel_id) h2 ∧
    host_ends (connect_live patience user) h2 l3 (Ok cursors) h3 ∧
    host_ends (join_both channel_id cursors) h3 l4 (Ok (v1, v2)) h4 ∧
    host_ends (forward_frame v1 v2 stream user) h4 l5 (Ok tt) h5 ∧
    host_ends (leave_reported "peer" Peer) h5 l6 (Ok tt) h6 ∧ host_ends (leave_reported "owner" Owner) h6 l7 (Ok tt) h' ∧
    log = l1 ++ l2 ++ l3 ++ l4 ++ l5 ++ l6 ++ l7.

Lemma run_stages patience a b c d h log h' :
  host_ends (run_interoperability patience a b c d) h log (Ok tt) h' →
  ∃ v1 v2 h1 h2 h3 h4 h5 h6, stages patience a b c d h log v1 v2 h1 h2 h3 h4 h5 h6 h'.
Proof.
  intros ([stream user] & h1 & l1 & k1 & H1 & Ho & ->)%ok_try.
  apply ok_try in Ho as (channel_id & h2 & l2 & k2 & H2 & Ho & ->). apply ok_try in Ho as (cursors & h3 & l3 & k3 & H3 & Ho & ->).
  apply ok_try in Ho as ([v1 v2] & h4 & l4 & k4 & H4 & Ho & ->). apply ok_try in Ho as ([] & h5 & l5 & k5 & H5 & Ho & ->).
  apply ok_try in Ho as ([] & h6 & l6 & k6 & H6 & Ho & ->). exists v1, v2, h1, h2, h3, h4, h5, h6.
  by exists stream, user, channel_id, cursors, l1, l2, l3, l4, l5, l6, k6.
Qed.

Lemma stages_forward patience a b c d h log v1 v2 h1 h2 h3 h4 h5 h6 h' :
  ci_metadata (owner h) = None → stages patience a b c d h log v1 v2 h1 h2 h3 h4 h5 h6 h' → forwarded_between log v1 v2.
Proof.
  intros Hnone (stream & user & channel_id & cursors & l1 & l2 & l3 & l4 & l5 & l6 & l7 & H1 & _ & _ & H4 & H5 & _ & _ & ->).
  destruct (log_in_asks _ _ _ _ _ _ _ _ _ Hnone H1) as (m & request & login & Hm & Hstream & Hlogin & ->).
  apply join_both_asks in H4 as (Hm1 & Hm2 & Hagree). apply forward_asks in H5 as (Hsend & frame & Hrecv & Hspeaker & Hst & Hpl).
  exists m, request, login, channel_id, stream, frame.
  split_and!; try done; try (by rewrite !elem_of_app; tauto).
  - eapply member_mono; [|exact Hm1]. intros x Hx. rewrite !elem_of_app. tauto.
  - eapply member_mono; [|exact Hm2]. intros x Hx. rewrite !elem_of_app. tauto.
Qed.

Lemma check_runs patience owner_account peer_account h log h' :
  host_ends (check_and_shut_down patience owner_account peer_account) h log (Ok tt) h' →
  ∃ l1 l2 h1, host_ends (run_interoperability patience owner_account.1 owner_account.2 peer_account.1 peer_account.2) h l1 (Ok tt) h1 ∧
    log = l1 ++ l2.
Proof.
  intros (x & h1 & l1 & k1 & H1 & Ho & ->)%outcome_bind.
  apply outcome_bind in Ho as (y & h2 & l2 & k2 & _ & Ho & ->). apply outcome_bind in Ho as (z & h3 & l3 & k3 & _ & Ho & ->).
  destruct x as [[]|e]; [|by destruct Ho as (? & _)]. by exists l1, (l2 ++ l3 ++ k3), h1.
Qed.

(** The stages of a whole run that passes, and where its clients come from. *)
Lemma interoperability_stages patience h log h' :
  host_ends (interoperability patience) h log (Ok tt) h' →
  ∃ a b c d start during v1 v2 h1 h2 h3 h4 h5 h6 h7, (∀ side, new_client (client_of side start)) ∧ during ⊆ log ∧
    stages patience a b c d start during v1 v2 h1 h2 h3 h4 h5 h6 h7.
Proof.
  intros [[Hr _]|(o & p & start & before & after & Hnew & -> & _ & Ho)]%interoperability_outcome; [done|].
  apply check_runs in Ho as (l1 & l2 & h7 & Ho & ->). apply run_stages in Ho as (v1 & v2 & h1 & h2 & h3 & h4 & h5 & h6 & Ho).
  exists o.1, o.2, p.1, p.2, start, l1, v1, v2, h1, h2, h3, h4, h5, h6, h7. split_and!; [done| |done].
  intros x Hx. rewrite !elem_of_app. tauto.
Qed.

Lemma check_forwards patience h log h' :
  host_ends (interoperability patience) h log (Ok tt) h' → media_forwarded log.
Proof.
  intros (a & b & c & d & start & during & v1 & v2 & h1 & h2 & h3 & h4 & h5 & h6 & h7 & Hnew & Hsub & Hst)%interoperability_stages.
  exists v1, v2. eapply forwarded_mono; [exact Hsub|]. eapply stages_forward; [|exact Hst].
  exact (metadata_kept _ _ (Hnew Owner)).
Qed.
End observing.

(** *** Leaving, when nothing is lost *)

Section undisturbed.
(** The relays pass events on and nothing else: no authority is lost meanwhile. *)
Definition but_events (s : ClientInner V) : ClientInner V :=
  mkClientInner [] (ci_metadata s) (ci_state s) (ci_control s) (ci_voice s) (ci_voice_intent s) (ci_tasks s)
    (ci_stopped s) (ci_generation s) (ci_key_cache s) (ci_connections s) (ci_transports s) (ci_closed s) (ci_left s).

Hypothesis undisturbed : ∀ s s', moves s s' → but_events s' = but_events s.

(** Anything but the events. *)
Lemma view_kept {X} (view : ClientInner V → X) s s' :
  (∀ s, view (but_events s) = view s) → moves s s' → view s' = view s.
Proof. intros Hv Hm. rewrite <- (Hv s'), <- (Hv s). by rewrite (undisturbed _ _ Hm). Qed.

Lemma both_kept {X} (view : ClientInner V → X) h h' :
  (∀ s, view (but_events s) = view s) → others h h' → both view h' = both view h.
Proof.
  intros Hv Ho. unfold both.
  by rewrite (view_kept view (owner h) (owner h') Hv (Ho Owner)), (view_kept view (peer h) (peer h') Hv (Ho Peer)).
Qed.

Lemma voice_kept s s' : moves s s' → ci_voice s' = ci_voice s.
Proof. by apply view_kept. Qed.

Lemma join_installs auto channel_id request s log v s' :
  ends (join_voice auto channel_id request) s log (Ok v) s' → ci_voice s' = Some v.
Proof.
  intros (s1 & _ & Ho). destruct (ci_stopped s1); [by destruct Ho as (Heq & _)|].
  cbn [try_bind bind] in Ho. apply locked_outcome in Ho as (s2 & s3 & _ & Ho & H3).
  apply (join_locked_outcome auto moves voice_kept) in Ho as [_ (Hv & _)]. by rewrite (voice_kept _ _ H3).
Qed.

Lemma session_leave_asks v s log s' :
  ci_left s = ∅ → ends (session_leave v) s log (Ok tt) s' →
  ∃ id, existT (QLeave (vs_session_id v) id) (Ok tt) ∈ log.
Proof.
  intros Hl Ho. apply outcome_bind in Ho as ([] & s1 & l1 & l2 & Hc & Ho & ->).
  apply (untouched_outcome ci_left) in Hc; [|intros; by apply view_kept|leave_alone]. rewrite Hl in Hc.
  apply locked_outcome in Ho as (s2 & s3 & H2 & Ho & _). apply read_outcome in Ho as (s4 & H4 & Ho).
  apply (view_kept ci_left) in H2, H4; [|done..]. rewrite bool_decide_eq_false_2 in Ho by (rewrite H4, H2, Hc; set_solver).
  apply outcome_bind in Ho as (y & s5 & l3 & l4 & _ & Ho & ->). destruct Ho as (s6 & _ & Ho).
  apply read_outcome in Ho as (s7 & _ & Ho). destruct (control_id (vs_control v) s7) as [id|].
  - destruct Ho as (s8 & answer & rest & _ & -> & Ho). destruct y as [[]|e]; [|by destruct Ho as (Heq & _)].
    destruct answer as [[]|e]; [|by destruct Ho as (Heq & _)]. exists id. rewrite !elem_of_app. right. right. by left.
  - destruct y as [[]|e]; by destruct Ho as (Heq & _).
Qed.

(** A leave that succeeds while a session is in place has asked the server. *)
Lemma leave_asks v s log s' :
  ci_voice s = Some v → ci_left s = ∅ → ends leave_voice s log (Ok tt) s' →
  ∃ id, existT (QLeave (vs_session_id v) id) (Ok tt) ∈ log.
Proof.
  intros Hv Hl (s1 & H1 & Ho). destruct (ci_stopped s1); [by destruct Ho as (Heq & _)|]. cbn [try_bind bind] in Ho.
  destruct Ho as (s2 & H2 & Ho). apply locked_outcome in Ho as (s3 & s4 & H3 & Ho & _).
  apply (view_kept (λ s, (ci_voice s, ci_left s)) _ _ (λ _, eq_refl)) in H1, H2, H3.
  cbn in H1, H2, H3. unfold id in H2. rewrite H2, H1, Hv, Hl in H3. injection H3 as Hv3 Hl3. clear H1 H2.
  apply outcome_bind in Ho as (session & s5 & l1 & l2 & Ht & Ho & ->).
  apply locked_outcome in Ht as (s6 & s7 & H6 & (s8 & H8 & -> & -> & ->) & H5).
  apply (view_kept (λ s, (ci_voice s, ci_left s)) _ _ (λ _, eq_refl)) in H5, H6, H8.
  rewrite H6 in H8. injection H8 as Hv8 Hl8. injection H5 as _ Hl5. rewrite Hv8, Hv3 in Ho. cbn [fst snd app] in Ho.
  assert (ci_left s5 = ∅) as Hl5' by (cbn in *; congruence).
  apply outcome_bind in Ho as (x & s9 & l3 & l4 & Ho & Hend & ->).
  assert (x = Ok tt) as ->.
  { apply outcome_bind in Hend as (u & t & k1 & k2 & _ & (Heq & _) & _). by symmetry. }
  destruct (session_leave_asks v _ _ _ Hl5' Ho) as [id Hin]. exists id. set_solver.
Qed.

Lemma leave_reported_asks label side h log h' v :
  ci_voice (client_of side h) = Some v → ci_left (client_of side h) = ∅ →
  host_ends (leave_reported label side) h log (Ok tt) h' →
  (∃ id, (existT (OnClient side (QLeave (vs_session_id v) id)) (Ok tt) : HostCall) ∈ log) ∧
  moves (client_of (opposite side) h) (client_of (opposite side) h').
Proof.
  intros Hv Hl (x & h1 & l1 & k1 & (l1' & -> & H1 & Hm)%on_outcome & Ho & ->)%outcome_bind.
  destruct x as [[]|e]; [|by destruct Ho as (h2 & _ & ? & _)]. destruct Ho as (_ & -> & ->).
  split; [|done]. destruct (leave_asks v _ _ _ Hv Hl H1) as [id Hin]. exists id. apply elem_of_app. left. by apply asked.
Qed.

Definition left (log : list HostCall) (side : Side) (v : VoiceSession) : Prop :=
  ∃ id, (existT (OnClient side (QLeave (vs_session_id v) id)) (Ok tt) : HostCall) ∈ log.

Lemma join_both_installs channel_id cursors h log v1 v2 h' :
  host_ends (join_both channel_id cursors) h log (Ok (v1, v2)) h' → both ci_voice h' = (Some v1, Some v2).
Proof.
  intros (h1 & h2 & l1 & l2 & l3 & (l1' & -> & H1 & _)%on_sdk_ok & (l2' & -> & H2 & Hm)%on_sdk_ok & Ho & -> & _)%join_both_runs.
  apply join_installs in H1, H2. apply (untouched_outcome (both ci_voice)) in Ho; [|intros; by apply both_kept|leave_alone].
  rewrite Ho. unfold both. cbn in H1, H2, Hm. by rewrite H2, (voice_kept _ _ Hm), H1.
Qed.

Lemma stages_leave patience a b c d h log v1 v2 h1 h2 h3 h4 h5 h6 h' :
  both ci_left h = (∅, ∅) → stages patience a b c d h log v1 v2 h1 h2 h3 h4 h5 h6 h' → left log Owner v1 ∧ left log Peer v2.
Proof.
  intros Hl (stream & user & channel_id & cursors & l1 & l2 & l3 & l4 & l5 & l6 & l7 & H1 & H2 & H3 & H4 & H5 & H6 & H7 & ->).
  assert (both ci_left h5 = (∅, ∅)) as Hl5.
  { assert (∀ h h', others h h' → both ci_left h' = both ci_left h) as Hk by (intros; by apply both_kept).
    apply (untouched_outcome (both ci_left) others) in H1; [|done|leave_alone].
    apply (untouched_outcome (both ci_left) others) in H2; [|done|leave_alone].
    apply (untouched_outcome (both ci_left) others) in H3; [|done|leave_alone].
    apply (untouched_outcome (both ci_left) others) in H4; [|done|leave_alone].
    apply (untouched_outcome (both ci_left) others) in H5; [|done|leave_alone].
    by rewrite H5, H4, H3, H2, H1. }
  apply join_both_installs in H4.
  apply (untouched_outcome (both ci_voice)) in H5; [|intros; by apply both_kept|leave_alone]. rewrite H4 in H5.
  injection H5 as Hv1 Hv2. injection Hl5 as Hl1 Hl2.
  apply (leave_reported_asks _ _ _ _ _ v2) in H6 as [[id2 Hleave2] Hmv]; [|done..]. cbn in Hmv.
  apply (leave_reported_asks _ _ _ _ _ v1) in H7 as [[id1 Hleave1] _];
    [|cbn; by rewrite (voice_kept _ _ Hmv)|cbn; by rewrite (view_kept ci_left _ _ (λ _, eq_refl) Hmv)].
  split; [exists id1|exists id2]; rewrite !elem_of_app; tauto.
Qed.

(** If no authority is lost meanwhile, a passing check has left: the server has confirmed
    that both are gone. *)
Lemma undisturbed_check_leaves patience h log h' :
  host_ends (interoperability patience) h log (Ok tt) h' →
  ∃ v1 v2, forwarded_between log v1 v2 ∧ left log Owner v1 ∧ left log Peer v2.
Proof.
  intros (a & b & c & d & start & during & v1 & v2 & h1 & h2 & h3 & h4 & h5 & h6 & h7 & Hnew & Hsub & Hst)%interoperability_stages.
  exists v1, v2. split.
  - eapply forwarded_mono; [exact Hsub|]. eapply (stages_forward (λ s s', view_kept ci_metadata s s' (λ _, eq_refl))); [|exact Hst].
    exact (view_kept ci_metadata _ _ (λ _, eq_refl) (Hnew Owner)).
  - destruct (stages_leave _ _ _ _ _ _ _ _ _ _ _ _ _ _ _ _ (f_equal2 pair (view_kept ci_left _ _ (λ _, eq_refl) (Hnew Owner))
      (view_kept ci_left _ _ (λ _, eq_refl) (Hnew Peer))) Hst) as [[id1 Hleft1] [id2 Hleft2]].
    split; [exists id1; by apply Hsub|exists id2; by apply Hsub].
Qed.
End undisturbed.
End hosts.
