(* ===== verification/HostRelays.v ===== *)
(** What the example hosts establish while the relays of their clients run
    (crates/zephyrvox-sdk: examples/interoperability.rs with events.rs). *)

From S2P Require Import Prelude Text Types Json Wire ClientModel VoiceTypes VoiceConfig RealtimeTypes RealtimeTransport.
From S2P Require Import HttpTypes HttpClient HttpDiscovery HttpVoice HttpAuth HttpChannels SdkTypes SdkProgram SdkVoice SdkClient.
From S2P Require Import SdkPool SdkOutcomes Hosts HostRuns.

(** ** The relays *)

Section relays.
Context {V : Type} `{Base64Lib}.
Abbreviation act A := (prog (St:=ClientInner V) (Lock:=Gate) (Q:=Query) (Answer:=Answer V) A).

(** The atomic pieces that a program may come to, whatever it reads and is told. *)
Fixpoint piece_of {A} (f : ClientInner V → ClientInner V) (p : act A) : Prop :=
  match p with
  | Ret _ => False
  | Atomic g m => f = g ∨ ∃ s, piece_of f (m s)
  | Acquire _ m | Release _ m => piece_of f m
  | Await _ m => ∃ a, piece_of f (m a)
  end.

(** What goes on in a client beside its host: turns of any number of relays, whose pieces
    are interleaved at will, the engine and the voice workers. The hosts do not ask for
    automatic rejoining. *)
Inductive relay_step (s : ClientInner V) : ClientInner V → Prop :=
| relay_piece connection generation f : piece_of f (relay_turn false connection generation) → relay_step s (f s)
| relay_outside s' : outside s s' → relay_step s s'.

Definition relay_moves : ClientInner V → ClientInner V → Prop := rtc relay_step.

Lemma clearing_piece {A} (p : act A) f : clearing p → piece_of f p → taking_out f.
Proof. induction p as [a|g m IH|l m IH|l m IH|q m IH]; cbn; naive_solver. Qed.

Lemma untouched_piece {X A} (view : ClientInner V → X) (p : act A) f s :
  untouched view p → piece_of f p → view (f s) = view s.
Proof. induction p as [a|g m IH|l m IH|l m IH|q m IH]; cbn; naive_solver. Qed.

Lemma taking_out_emit (e : SdkEvent V) : taking_out (emit e).
Proof. apply taking_out_cell; [done|]. by intros s []. Qed.

Lemma clearing_locked {A} l (p : act A) : clearing p → clearing (with_lock l p).
Proof. intros Hp. by apply clearing_bind. Qed.

Lemma clearing_stop_voice expected : clearing (V:=V) (stop_voice_transport_for expected).
Proof.
  apply clearing_locked, clearing_bind.
  - apply clearing_locked. split; [|done]. intros s. unfold take_session. destruct (ci_voice s) as [v|] eqn:Hv; [|by split].
    destruct (match expected with Some generation => _ | None => _ end); [|by split]. split; [done|]. by intros [].
  - intros [v|]; [apply clearing_stop|done].
Qed.

Lemma clearing_react generation e : clearing (V:=V) (react false generation e).
Proof.
  apply clearing_bind; [|intros _; apply clearing_bind; [|by intros _; destruct (rejoins_voice e)]].
  - destruct (clears_intent e); [|done]. split; [|done]. apply taking_out_cell; [done|]. by intros s [].
  - destruct (stops_voice e); [|done]. apply clearing_bind; [apply clearing_stop_voice|].
    intros [[]|x]; [done|]. split; [apply taking_out_emit|done].
Qed.

Lemma taking_out_read : taking_out (V:=V) id.
Proof. by intros s. Qed.

Lemma clearing_relay connection generation : clearing (V:=V) (relay_turn false connection generation).
Proof.
  intros alive. destruct alive; [|done]. split; [apply taking_out_read|]. intros s. cbn.
  destruct (negb (ci_generation s =? generation)); [done|]. intros item.
  destruct item as [e|missed|]; cbn; [|by split; [apply taking_out_emit|]|done].
  split; [apply taking_out_emit|]. intros _ again. destruct again; [|done]. split; [apply taking_out_read|].
  intros s'. cbn. destruct (negb (ci_generation s' =? generation)); [done|].
  by apply clearing_bind; [apply clearing_react|].
Qed.

Lemma outside_attended (s s' : ClientInner V) :
  outside s s' → ci_stopped s' = ci_stopped s ∧ (∀ cell, cleared cell s → cleared cell s') ∧ ci_metadata s' = ci_metadata s.
Proof.
  intros [connections|sid]; (split; [done|]); split; try done; intros [] Hc; cbn in *; try done.
  rewrite Hc. apply delete_empty.
Qed.

(** The relays keep to what the hosts need. *)
Lemma relays_attended : attended relay_moves.
Proof.
  assert (∀ s s', relay_step s s' → ci_stopped s' = ci_stopped s ∧ ∀ cell, cleared cell s → cleared cell s') as Hstep.
  { intros s s' [connection generation f Hf|t Ho].
    - by destruct (clearing_piece _ _ (clearing_relay connection generation) Hf s).
    - by destruct (outside_attended _ _ Ho) as (? & ? & _). }
  split.
  - intros s s'. induction 1 as [|s s1 s' H1 _ IH]; [done|]. rewrite IH. by apply Hstep.
  - intros s s' cell Hm _. induction Hm as [|s s1 s' H1 _ IH]; [done|]. intros Hc.
    destruct (Hstep _ _ H1) as [_ Hk]. by apply IH, Hk.
Qed.

Lemma relays_keep_metadata s s' : relay_moves s s' → ci_metadata s' = ci_metadata s.
Proof.
  induction 1 as [|s s1 s' H1 _ IH]; [done|]. rewrite IH. destruct H1 as [connection generation f Hf|t Ho].
  - eapply (untouched_piece ci_metadata _ f s); [|exact Hf]. clear. leave_alone. unfold take_session.
    by repeat case_match.
  - by destruct (outside_attended _ _ Ho) as (_ & _ & ?).
Qed.

(** ** The check among the relays *)

Context `{UrlLib}.
Abbreviation host_ends p h log r h' := (outcome (Answer:=HostAnswer V) (others relay_moves) p h log r h').

(** C33: whatever a check comes to, it cleans up. On every outcome of the two-client check (an
    error of any step, a time-out, a failed expectation) and whatever the relays, engines
    and voice workers of the clients do meanwhile, either nothing but the environment and
    the construction of the clients was asked for, or both clients have been shut down: stopped,
    without session, connection, state, intent, key or task. *)
Theorem check_always_cleans_up patience h log r h' :
  host_ends (interoperability patience) h log r h' →
  (is_ok r = false ∧ Forall (λ c, preparing (projT1 c)) log) ∨ ∀ side, shut_down (client_of side h').
Proof. intros Ho. eapply (check_cleans_up relay_moves); [exact relays_attended|exact Ho]. Qed.

(** C32: what a passing check has shown. If the check reports success, the server has forwarded
    media, whatever the relays did meanwhile: both clients were admitted to one channel on
    agreeing terms, the owner's send of the test payload on the first advertised stream
    succeeded, and the peer was given a frame with that payload on that stream under the
    identity of the owner's login. *)
Theorem passed_check_forwarded_media patience h log h' :
  host_ends (interoperability patience) h log (Ok tt) h' → media_forwarded log.
Proof. intros Ho. eapply (check_forwards relay_moves); [exact relays_keep_metadata|exact Ho]. Qed.
End relays.

(** ** The check in the small world of Hosts *)

#[local] Existing Instance ToyVoice.base64.
#[local] Existing Instance toy_url_lib.

Definition toy_check : list {q : HostQuery & HostAnswer unit q} * result HostError unit * Hosts unit :=
  exec ToyHosts.answers (interoperability 3) ToyHosts.start.

Lemma toy_check_runs moves `{!Reflexive moves} :
  outcome (others moves) (interoperability 3) ToyHosts.start toy_check.1.1 toy_check.1.2 toy_check.2.
Proof.
  assert (Reflexive (others (V:=unit) moves)) by (by intros h side). apply (exec_outcome _ ToyHosts.answers). unfold toy_check.
  by destruct (exec ToyHosts.answers (interoperability 3) ToyHosts.start) as [[log r] h].
Qed.

Lemma check_always_cleans_up_witness :
  toy_check.1.2 = Ok tt ∧ ∀ side, shut_down (client_of side toy_check.2).
Proof.
  assert (toy_check.1.2 = Ok tt) as Hok by (vm_compute; reflexivity). split; [exact Hok|].
  destruct (check_always_cleans_up 3 _ _ _ _ (toy_check_runs relay_moves)) as [[Hr _]|Hend].
  - rewrite Hok in Hr. discriminate Hr.
  - exact Hend.
Defined.

Lemma passed_check_forwarded_media_witness : toy_check.1.2 = Ok tt ∧ media_forwarded toy_check.1.1.
Proof.
  assert (toy_check.1.2 = Ok tt) as Hok by (vm_compute; reflexivity). split; [exact Hok|].
  pose proof (toy_check_runs relay_moves) as Hrun. rewrite Hok in Hrun.
  exact (passed_check_forwarded_media 3 _ _ _ Hrun).
Defined.
