(* ===== verification/HostPasses.v ===== *)
(** When the two-client check passes (crates/zephyrvox-sdk/examples/interoperability.rs): if
    every call is answered as a healthy server, network and environment would, it reports
    success, unless the presence does not arrive in time. *)

From S2P Require Import Prelude Text Types Json Wire ClientModel VoiceTypes VoiceConfig RealtimeTypes RealtimeTransport.
From S2P Require Import HttpTypes HttpClient HttpDiscovery HttpVoice HttpAuth HttpChannels SdkTypes SdkProgram SdkVoice SdkClient.
From S2P Require Import SdkOutcomes Hosts HostRuns HostRelays.

(** ** Programs whose calls are answered well *)

Section answers.
Context {St Lock Q : Type} {Answer : Q → Type}.
Context (moves : St → St → Prop) (good : ∀ q, Answer q → Prop).
Abbreviation program A := (prog (St:=St) (Lock:=Lock) (Q:=Q) (Answer:=Answer) A).

(** Every run of the program with good answers ends in [post]. *)
Fixpoint good_run {A} (p : program A) (post : A → St → Prop) (s : St) : Prop :=
  match p with
  | Ret a => post a s
  | Atomic f n => ∀ s1, moves s s1 → good_run (n s1) post (f s1)
  | Acquire _ n | Release _ n => ∀ s1, moves s s1 → good_run n post s1
  | Await q n => ∀ s1 x, moves s s1 → good q x → good_run (n x) post s1
  end.

Lemma good_run_sound {A} (p : program A) post s log r s' :
  good_run p post s → Forall (λ c, good (projT1 c) (projT2 c)) log → outcome moves p s log r s' → post r s'.
Proof.
  revert s log. induction p as [b|f n IH|l n IH|l n IH|q n IH]; cbn; intros s log Hp Hlog Ho.
  - by destruct Ho as (-> & -> & _).
  - destruct Ho as (s1 & H1 & Ho). by eapply IH; [apply Hp| |].
  - destruct Ho as (s1 & H1 & Ho). by eapply IH; [apply Hp| |].
  - destruct Ho as (s1 & H1 & Ho). by eapply IH; [apply Hp| |].
  - destruct Ho as (s1 & x & rest & H1 & -> & Ho). apply Forall_cons in Hlog as [Hx Hrest].
    by eapply IH; [apply Hp| |].
Qed.

Lemma good_ret {A} (a : A) (post : A → St → Prop) s : post a s → good_run (Ret a) post s.
Proof. done. Qed.

Lemma good_bind {A B} (p : program A) (n : A → program B) post s :
  good_run p (λ a, good_run (n a) post) s → good_run (bind p n) post s.
Proof. revert s. induction p as [b|f k IH|l k IH|l k IH|q k IH]; cbn; intros s Hp; eauto. Qed.

Lemma good_mono {A} (p : program A) (post post' : A → St → Prop) s :
  (∀ a s', post a s' → post' a s') → good_run p post s → good_run p post' s.
Proof. intros Hpost. revert s. induction p as [b|f k IH|l k IH|l k IH|q k IH]; cbn; intros s Hp; eauto. Qed.

Lemma good_try {E A B} (p : program (result E A)) (n : A → program (result E B)) post s :
  good_run p (λ r s1, ∃ a, r = Ok a ∧ good_run (n a) post s1) s → good_run (try_bind p n) post s.
Proof. intros Hp. apply good_bind. eapply good_mono; [|exact Hp]. by intros r s1 (a & -> & Ha). Qed.
End answers.

Section passing.
Context {V : Type} `{Base64Lib, UrlLib}.
Context (moves : ClientInner V → ClientInner V → Prop) `{!PreOrder moves}.
Hypothesis undisturbed : ∀ s s', moves s s' → but_events s' = but_events s.

Abbreviation act A := (prog (St:=ClientInner V) (Lock:=Gate) (Q:=Query) (Answer:=Answer V) A).
Abbreviation host A := (prog (St:=Hosts V) (Lock:=Side * Gate) (Q:=HostQuery) (Answer:=HostAnswer V) A).
Abbreviation Call := {q : Query & Answer V q}.
Abbreviation HostCall := {q : HostQuery & HostAnswer V q}.
Abbreviation ends p s log r s' := (outcome (Answer:=Answer V) moves p s log r s').
Abbreviation host_ends p h log r h' := (outcome (Answer:=HostAnswer V) (others moves) p h log r h').

(** *** Healthy answers *)

(** The capabilities of the server, the terms on which it admits to a channel, and the
    owner's identity. *)
Context (m : Metadata) (tls encrypted : bool) (max : Z) (user : Z) (late : bool).

Definition admits (channel_id : Z) (response : VoiceJoinResponse) : Prop :=
  let n := join_voice_negotiation response in
  validate_voice_join channel_id response tls = Ok tt ∧ vn_created n = true ∧ vn_encrypted n = encrypted ∧
  vn_max_payload n = max.

Definition forwards (frame : InboundMedia) : Prop :=
  speaker_id frame = user ∧ head (VoiceStreamType_id <$> voice_stream_types m) = Some (stream_type frame) ∧
  payload frame = MEDIA_PAYLOAD.

Definition ok_and {E A} (P : A → Prop) (r : result E A) : Prop := match r with Ok a => P a | Err _ => False end.

Definition well_served (side : Side) (q : Query) : Answer V q → Prop :=
  match q with
  | QMetadata => ok_and (λ m', m' = m)
  | QLogin _ => ok_and (λ login, side = Owner → User_id (login_user login) = user)
  | QJoin channel_id _ _ => ok_and (admits channel_id)
  | QLeave _ _ | QCloseTransport _ | QSendFrame _ _ _ | QBindSocket _ => ok_and (λ _, True)
  | QStartWorker _ => λ started, started = Some (Ok tt)
  | QRecvFrame _ => ok_and forwards
  | QConnect _ => ok_and (λ view, view_status view = SLive ∧ is_Some (view_id view))
  | QCloseControl _ => ok_and (λ _, True)
  | QSetPresence _ _ => ok_and (λ _, True)
  | QWaitStopped _ | QSpawnRelay _ _ | QRecvEvent _ | QUpgrade | QAbort _ => λ _, True
  end.

(** The environment is complete, the clients can be built, no time-out fires by itself, and
    the peer's state is watched while it changes. Unless it is [late], the presence is in
    every state that is looked at. *)
Definition well_set (name : string) (value : option string) : Prop :=
  if bool_decide (name = "ZEPHYRVOX_SERVER_CARD"%string) then
    ∃ text card, value = Some text ∧ Card.parse text = Ok card
  else if bool_decide (name = "ZEPHYRVOX_CHANNEL_ID"%string) then
    ∀ text, value = Some text → is_ok (Snowflake.from_str text) = true
  else if bool_decide (name = "ZEPHYRVOX_REGISTER_PEER"%string) then True
  else is_Some value.

Definition well_answered (q : HostQuery) : HostAnswer V q → Prop :=
  match q with
  | OnClient side q => well_served side q
  | QVar name => well_set name
  | QBuildApi _ _ _ => ok_and (λ _, True)
  | QRegister _ _ => ok_and (λ _, True)
  | QCreateChannel _ _ => ok_and (λ _, True)
  | QWaitUntilLive _ _ => ok_and (λ _, True)
  | QBorrow _ _ => λ state, late = false → has_presence user "dnd" state = true
  | QChanged _ _ => λ newer, newer = true
  | QTimer _ => λ elapsed, elapsed = false
  | QYield | QDrain _ _ => λ _, True
  end.

Definition answered (c : HostCall) : Prop := well_answered (projT1 c) (projT2 c).

(** *** Running programs under healthy answers *)

Abbreviation wp side p post s := (good_run (Answer:=Answer V) moves (well_served side) p post s).
Abbreviation host_wp p post h := (good_run (Answer:=HostAnswer V) (others moves) well_answered p post h).

(** A condition that does not look at the events. *)
Definition stable (P : ClientInner V → Prop) : Prop := ∀ s, P (but_events s) ↔ P s.

Lemma stable_moves P s s' : stable P → moves s s' → P s → P s'.
Proof. intros HP Hm Hs. apply HP. rewrite (undisturbed _ _ Hm). by apply HP. Qed.

Lemma wp_atomic {A} side P (f : ClientInner V → ClientInner V) (n : ClientInner V → act A) post s :
  stable P → P s → (∀ s1, P s1 → wp side (n s1) post (f s1)) → wp side (Atomic f n) post s.
Proof. intros HP Hs Hn s1 Hm. apply Hn. by eapply stable_moves. Qed.

Lemma wp_acquire {A} side P l (n : act A) post s :
  stable P → P s → (∀ s1, P s1 → wp side n post s1) → wp side (Acquire l n) post s.
Proof. intros HP Hs Hn s1 Hm. apply Hn. by eapply stable_moves. Qed.

Lemma wp_release {A} side P l (n : act A) post s :
  stable P → P s → (∀ s1, P s1 → wp side n post s1) → wp side (Release l n) post s.
Proof. intros HP Hs Hn s1 Hm. apply Hn. by eapply stable_moves. Qed.

Lemma wp_await {A} side P q (n : Answer V q → act A) post s :
  stable P → P s → (∀ s1 x, P s1 → well_served side q x → wp side (n x) post s1) → wp side (Await q n) post s.
Proof. intros HP Hs Hn s1 x Hm. apply Hn. by eapply stable_moves. Qed.

(** *** The calls of the check *)

(** A client before and after it has connected. *)
Definition unused (s : ClientInner V) : Prop :=
  ci_stopped s = false ∧ ci_metadata s = None ∧ ci_control s = None.
Definition informed (s : ClientInner V) : Prop :=
  ci_stopped s = false ∧ ci_metadata s = Some m ∧ ci_control s = None.
Definition live (c : nat) (id : byte_list) (g : Z) (s : ClientInner V) : Prop :=
  ci_stopped s = false ∧ ci_metadata s = Some m ∧ ci_control s = Some c ∧ control_status c s = Some SLive ∧
  control_id c s = Some id ∧ ci_generation s = g.
Definition speaking (c : nat) (id : byte_list) (g : Z) (v : VoiceSession) (s : ClientInner V) : Prop :=
  live c id g s ∧ ci_voice s = Some v ∧ vs_control v = c.

Ltac unseen := by intros ?.
(** One step, under a condition that holds before it. *)
Ltac step P :=
  cbn [bind read modify call atomically with_lock map_error map_err raise try_bind];
  first [ apply (wp_atomic _ P) | apply (wp_acquire _ P) | apply (wp_release _ P) | apply (wp_await _ P) ];
  [unseen|first [done|unfold unused, informed, speaking, live in *; destruct_and?; by repeat split]|].

Lemma open_served side P s : stable P → (∀ s, P s → ci_stopped s = false) → P s → wp side ensure_open (λ r s1, r = Ok tt ∧ P s1) s.
Proof. intros HP Hopen Hs s1 Hm. cbn. pose proof (stable_moves _ _ _ HP Hm Hs) as H1. by rewrite (Hopen _ H1). Qed.

Lemma discover_served side s : unused s → wp side discover (λ r s1, r = Ok m ∧ informed s1) s.
Proof.
  intros Hs. apply good_try. eapply good_mono; [|apply (open_served side unused); [unseen|by intros ? []|done]].
  intros r s1 [-> H1]. exists tt. split; [done|]. step unused. clear Hs H1 s1 s. intros s1 (Ho & Hm & Hc).
  rewrite Hm. step unused. intros s2 [m'|e] H2 Hx; [|done]. cbn in Hx. subst m'. step unused.
  by intros s3 (Ho3 & _ & Hc3).
Qed.

(** With metadata in the cache. *)
Lemma cached_served side P s :
  stable P → (∀ s, P s → ci_stopped s = false ∧ ci_metadata s = Some m) → P s →
  wp side discover (λ r s1, r = Ok m ∧ P s1) s.
Proof.
  intros HP Hknown Hs. apply good_try. eapply good_mono; [|apply (open_served side P); [done|by intros ? [? _]%Hknown|done]].
  intros r s1 [-> H1]. exists tt. split; [done|]. apply (wp_atomic _ P); [done|done|]. intros s2 H2.
  destruct (Hknown _ H2) as [_ Hm]. by rewrite Hm.
Qed.

Lemma login_served side request s :
  informed s → wp side (sdk_login request)
    (λ r s1, ∃ login, r = Ok login ∧ (side = Owner → User_id (login_user login) = user) ∧ informed s1) s.
Proof.
  intros Hs. apply good_try. eapply good_mono; [|apply (open_served side informed); [unseen|by intros ? []|done]].
  intros r s1 [-> H1]. exists tt. split; [done|]. step informed. intros s2 [login|e] H2 Hx; [|done].
  by exists login.
Qed.

Lemma connect_served side own s :
  informed s → wp side (connect own) (λ r s1, ∃ c id g, r = Ok c ∧ live c id g s1 ∧ ci_state s1 = Some c) s.
Proof.
  intros Hs. apply good_try. eapply good_mono; [|apply (open_served side informed); [unseen|by intros ? []|done]].
  intros r s1 [-> H1]. exists tt. split; [done|]. apply (wp_acquire _ informed); [unseen|done|]. intros s2 H2.
  apply good_bind. unfold connect_locked. step informed. intros s3 (Ho & Hm & Hc). rewrite Hc. cbn [mbind option_bind].
  step informed. intros s4 H4. step informed. intros s5 [view|e] H5 Hx; [|done]. destruct Hx as [Hlive [id Hid]]. step informed. clear dependent s s1 s2 s3 s4 s5. intros s (Ho & Hm & Hc).
  set (c := length (ci_connections s)).
  set (made := λ s1 : ClientInner V, ci_stopped s1 = false ∧ ci_metadata s1 = Some m ∧ ci_connections s1 !! c = Some view).
  assert (made (register view s).2) as Hmade.
  { split_and!; [done|done|]. cbn. by rewrite lookup_app_r, Nat.sub_diag. }
  cbn [fst register]. step made. intros s1 H1. destruct (H1) as (Ho1 & _). rewrite Ho1. step made. intros s2 H2.
  step made. intros s3 H3.
  set (shown := λ s1 : ClientInner V, made s1 ∧ ci_state s1 = Some c).
  step shown. intros s4 task H4 _. step shown. intros s5 H5. step shown. intros s6 H6. step shown. intros s7 H7.
  apply (wp_atomic _ shown); [unseen|done|]. intros s8 [(Ho8 & Hm8 & Hv8) Hs8].
  apply (wp_release _ (λ s1, live c id (ci_generation s8) s1 ∧ ci_state s1 = Some c)); [unseen| |by intros s9 H9; exists c, id, (ci_generation s8)].
  split; [|done]. unfold live, control_status, control_id. cbn. rewrite Hv8. cbn. by rewrite Hlive, Hid.
Qed.

(** The current control connection of a connected client; [P] may say more of the client. *)
Lemma control_served side c id g P s :
  stable P → (∀ s, P s → live c id g s) → P s → wp side current_control (λ r s1, r = Ok c ∧ P s1) s.
Proof.
  intros HP Hlive Hs. apply good_try. eapply good_mono; [|apply (open_served side P); [done|by intros ? [? _]%Hlive|done]].
  intros r s1 [-> H1]. exists tt. split; [done|]. cbn [with_lock bind read].
  apply (wp_acquire _ P); [done|done|]. intros s2 H2. apply (wp_atomic _ P); [done|done|]. intros s3 H3.
  destruct (Hlive _ H3) as (_ & _ & Hc & _). rewrite Hc. apply (wp_release _ P); [done|done|]. intros s4 H4. cbn.
  apply (wp_atomic _ P); [done|done|]. intros s5 H5. destruct (Hlive _ H5) as (_ & _ & _ & Hst & _).
  by rewrite bool_decide_eq_false_2 by (rewrite Hst; by intros [=]).
Qed.

Lemma is_live_live c id g s : live c id g s → is_live c s = true.
Proof. intros (_ & _ & _ & Hst & _). unfold is_live. by rewrite Hst. Qed.

Lemma presence_served side c id g presence s :
  live c id g s → wp side (sdk_set_presence presence) (λ r s1, ∃ ack, r = Ok ack ∧ live c id g s1) s.
Proof.
  intros Hs. apply good_try. eapply good_mono; [|apply (control_served side c id g (live c id g)); [unseen|done|done]].
  intros r s1 [-> H1]. exists c. split; [done|]. step (live c id g). intros s2 H2.
  rewrite (is_live_live _ _ _ _ H2). cbn [negb]. step (live c id g). intros s3 [ack|e] H3 Hx; [|done]. by exists ack.
Qed.

(** The terms of the negotiation reach the configuration. *)
Lemma negotiated_terms n config :
  negotiated_config m n = Ok config → cfg_max_payload config = vn_max_payload n ∧ cfg_encrypted config = vn_encrypted n.
Proof.
  unfold negotiated_config, new_with_protocol_version, with_stream_types. intros Hc.
  apply result_bind_ok in Hc as (key & _ & Hc). destruct (result_bind _ _) as [c|e] eqn:Hr in Hc; [|done].
  injection Hc as <-. apply result_bind_ok in Hr as (config' & Hn & Hw).
  apply result_bind_ok in Hn as ([] & _ & Hn). repeat (case_match; [done|]). simplify_eq. done.
Qed.

(** A new session always has the key it needs. *)
Lemma key_admitted config keys :
  (cfg_encrypted config = true → is_Some (cfg_session_key config)) →
  ∃ keys', admit_key config keys = (Ok tt, keys').
Proof.
  intros Hkey. unfold admit_key, resolve_key. eexists. f_equal.
  destruct (cfg_encrypted config); [|done]. destruct Hkey as [key ->]; [done|]. done.
Qed.

(** Closing a transport keeps what does not look at keys and transports. *)
Definition unkeyed (P : ClientInner V → Prop) : Prop :=
  ∀ s sid closed, P s → P (remove_key sid s) ∧ P (set_closed closed s).

Lemma close_served side P t sid s :
  stable P → unkeyed P → P s → wp side (close_worker t sid) (λ r s1, r = Ok tt ∧ P s1) s.
Proof.
  intros HP Hkey Hs. apply (wp_await _ P); [done|done|]. intros s1 [[]|e] H1 Hx; [|done].
  apply (wp_atomic _ P); [done|done|]. intros s2 H2. split; [done|].
  destruct (Hkey s2 sid ({[t]} ∪ ci_closed s2) H2) as [_ Hc]. by destruct (Hkey _ sid ∅ Hc).
Qed.

Lemma stop_served side P v s :
  stable P → unkeyed P → P s → wp side (stop_transport v) (λ r s1, r = Ok tt ∧ P s1) s.
Proof.
  intros HP Hkey Hs. apply (wp_acquire _ P); [done|done|]. intros s1 H1. apply good_bind, good_bind.
  eapply good_mono; [|by apply (close_served _ P)]. intros r s2 [-> H2].
  apply (wp_atomic _ P); [done|done|]. intros s3 H3. cbn [bind]. apply (wp_release _ P); [done|by destruct (Hkey s3 (vs_session_id v) ∅ H3)|].
  by intros s4 H4.
Qed.

Lemma speaking_unkeyed c id g v : unkeyed (speaking c id g v).
Proof. by intros s sid closed Hs. Qed.

Lemma live_unkeyed c id g : unkeyed (live c id g).
Proof. by intros s sid closed Hs. Qed.

Lemma start_worker_served side c id g config s :
  (cfg_encrypted config = true → is_Some (cfg_session_key config)) → live c id g s →
  wp side (connect_with_key_cache config) (λ r s1, ∃ t, r = Ok t ∧ live c id g s1) s.
Proof.
  intros Hkey Hs. unfold connect_with_key_cache. step (live c id g). intros s1 [[]|e] H1 Hx; [|done].
  step (live c id g). intros s2 H2. destruct (key_admitted config (ci_key_cache s2) Hkey) as [keys ->]. cbn [fst snd].
  step (live c id g). intros s3 started H3 ->. step (live c id g). intros s4 H4. by exists (ci_transports s4).
Qed.

Lemma install_served side c id g session request s :
  live c id g s → vs_control session = c →
  wp side (install_session false session request None) (λ r s1, r = Ok session ∧ speaking c id g session s1) s.
Proof.
  intros Hs Hc. set (P := speaking c id g session). assert (stable P) as HP by unseen.
  apply good_bind. step (live c id g). intros s1 H1. step (live c id g). intros s2 H2.
  assert (P (set_voice (Some session) s2)) as H2' by done. clear Hs H1 s s1. cbn [fst snd].
  apply (wp_release _ P); [done|done|]. intros s3 H3. cbn [wp]. apply good_bind. clear H2 H2'.
  assert (∀ s, P s → wp side (modify (set_intent None) : act unit) (λ _ s1, P s1) s) as Hint.
  { intros s Hs. apply (wp_atomic _ P); [done|done|]. by intros s4 H4. }
  eapply (good_mono _ _ _ (λ _ s4, P s4)).
  - intros [] s4 H4. cbn [bind modify]. apply (wp_atomic _ P); [done|done|]. intros s5 H5.
    apply (wp_atomic _ P); [done|done|]. by intros s6 H6.
  - destruct (ci_voice s2) as [previous|]; [|done]. apply good_bind.
    eapply good_mono; [|apply (stop_served _ P); [done|apply speaking_unkeyed|done]]. by intros r s4 [_ H4].
Qed.

Hypothesis valid_metadata : validate_metadata m = Ok tt.
Hypothesis positive : 0 ≤ max.

(** What is agreed on when a server [admits] is always configurable. *)
Lemma admitted_config channel_id response :
  admits channel_id response →
  let n := join_voice_negotiation response in
  ∃ key config, decode_session_key (vn_encrypted n) (vn_created n) (vn_key n) = Ok key ∧
    negotiated_config m n = Ok config ∧ cfg_max_payload config = max ∧ cfg_encrypted config = encrypted ∧
    (cfg_encrypted config = true → is_Some (cfg_session_key config)) ∧ Channel_id (join_channel response) = channel_id.
Proof.
  intros (Hv & Hcreated & Henc & Hmax) n.
  assert (0 ≤ vn_max_payload n) as Hpos by (unfold n; rewrite Hmax; exact positive).
  destruct (join_negotiation_total m channel_id response tls Hpos valid_metadata Hv) as (config & Hc & _ & _ & _ & Hkey & _).
  pose proof (negotiated_terms _ _ Hc) as [Hmp He]. fold n in Hc, Hmp, He, Hkey, Hmax, Henc, Hcreated.
  assert (∃ key, decode_session_key (vn_encrypted n) (vn_created n) (vn_key n) = Ok key) as [key Hd].
  { unfold negotiated_config in Hc. destruct (decode_session_key _ _ _) as [key|e]; [by exists key|done]. }
  exists key, config. split_and!; [done|done|by rewrite Hmp|by rewrite He| |].
  - intros Hence. apply Hkey. by rewrite <- He, Hence, Hcreated.
  - by apply validate_voice_join_ok in Hv as [? _].
Qed.

Definition agreed (v : VoiceSession) : Prop :=
  head (codecs m) = Some (vs_codec v) ∧ vs_max_payload v = max ∧ vs_encrypted v = encrypted.

Lemma start_served side c id g channel_id request codec response s :
  head (codecs m) = Some codec → admits channel_id response → live c id g s →
  wp side (start_session false channel_id request c id g m codec response)
    (λ r s1, ∃ v, r = Ok v ∧ agreed v ∧ speaking c id g v s1) s.
Proof.
  intros Hcodec Hadm Hs.
  destruct (admitted_config _ _ Hadm) as (key & config & Hd & Hc & Hmax & Henc & Hkey & Hch). destruct Hadm as (_ & Hcreated & _).
  unfold start_session. rewrite Hch, Z.eqb_refl. cbn [negb]. rewrite Hd. cbn [try_bind bind read].
  step (live c id g). intros s1 H1. rewrite Hc. cbn [try_bind bind].
  assert (cached_reuse_key (join_voice_negotiation response) (ci_key_cache s1) = None) as ->.
  { unfold cached_reuse_key. rewrite Hcreated. by destruct (vn_encrypted _). }
  apply good_bind, good_bind. eapply good_mono; [|by apply (start_worker_served side c id g)]. intros r s2 (t & -> & H2).
  cbn [map_err bind]. apply good_ret. step (live c id g). intros s3 H3. step (live c id g). intros s4 H4. step (live c id g). intros s5 H5.
  destruct H3 as (Ho & _). destruct H4 as (_ & _ & _ & _ & _ & Hg). pose proof H5 as (_ & _ & _ & _ & Hid & _).
  rewrite Ho, Hg, Z.eqb_refl, Hid, bool_decide_eq_true_2 by done. cbn [orb negb].
  eapply good_mono; [|by apply (install_served side c id g)]. intros r s6 [-> H6].
  eexists. split; [done|]. by split_and!.
Qed.

Lemma join_served side c id g channel_id request s :
  live c id g s →
  wp side (join_voice false channel_id request) (λ r s1, ∃ v, r = Ok v ∧ agreed v ∧ speaking c id g v s1) s.
Proof.
  intros Hs. apply good_try. eapply good_mono; [|apply (open_served side (live c id g)); [unseen|by intros ? []|done]].
  intros r s1 [-> H1]. exists tt. split; [done|]. apply (wp_acquire _ (live c id g)); [unseen|done|]. intros s2 H2.
  apply good_bind. apply good_try.
  eapply good_mono; [|apply (control_served side c id g (live c id g)); [unseen|done|done]]. intros r s3 [-> H3].
  exists c. split; [done|]. step (live c id g). intros s4 H4. rewrite (is_live_live _ _ _ _ H4). cbn [negb].
  apply (good_try _ _ discover). eapply good_mono; [|apply (cached_served side (live c id g)); [unseen|by intros ? (? & ? & _)|done]].
  intros r s5 [-> H5]. exists m. split; [done|]. pose proof valid_metadata as (_ & _ & Hne & _)%validate_metadata_ok.
  destruct (codecs m) as [|codec rest] eqn:Hcodecs; [done|]. cbn [head ok_or try_bind bind].
  step (live c id g). intros s6 H6. rewrite (is_live_live _ _ _ _ H6). cbn [negb].
  step (live c id g). intros s7 H7. pose proof H7 as (_ & _ & _ & _ & -> & _). cbn [ok_or try_bind bind].
  step (live c id g). intros s8 H8. pose proof H8 as (_ & _ & _ & _ & _ & ->).
  step (live c id g). intros s9 [response|e] H9 Hx; [|done].
  eapply good_mono; [|apply (start_served side c id g); [by rewrite Hcodecs|done|done]].
  intros r s10 (v & -> & Hv & H10). apply (wp_release _ (speaking c id g v)); [unseen|done|]. intros s11 H11.
  by exists v.
Qed.

(** A session of the current connection can leave. *)
Lemma leave_served side c id g v s :
  speaking c id g v s → wp side leave_voice (λ r s1, r = Ok tt ∧ live c id g s1) s.
Proof.
  intros Hs. set (P := speaking c id g v). assert (stable P) as HP by unseen.
  apply good_try. eapply good_mono; [|apply (open_served side P); [done|by intros ? [[]]|done]].
  intros r s1 [-> H1]. exists tt. split; [done|]. step P. intros s2 H2. apply (wp_acquire _ P); [done|done|]. intros s3 H3.
  apply good_bind. unfold leave_current. step P. intros s4 H4. step P. intros s5 H5. clear dependent s s1 s2 s3 s4.
  destruct H5 as (H5 & -> & Hc). cbn [fst snd]. apply (wp_release _ (live c id g)); [unseen|done|]. intros s6 H6.
  unfold session_leave. cbn [bind]. apply good_bind.
  eapply (good_mono _ _ _ (λ r s7, r = Ok tt ∧ live c id g s7)).
  - intros r s7 [-> H7]. cbn [is_ok negb bind]. apply good_ret. step (live c id g). by intros s8 H8.
  - apply good_bind. apply (wp_atomic _ (live c id g)); [unseen|done|]. intros s7 H7.
    assert (∀ s, live c id g s → live c id g match ci_voice_intent s with
              | Some i => if bool_decide (intent_session_id i = vs_session_id v) then set_intent None s else s
              | None => s end) as Hint by (intros s Hs; destruct (ci_voice_intent s); [by case_bool_decide|done]).
    apply good_ret. apply (wp_acquire _ (live c id g)); [unseen|by apply Hint|]. intros s8 H8. clear H5 H6 H7 s5 s6 s7 Hint.
    apply good_bind. unfold leave_locked. step (live c id g). intros s H9. clear H8.
    eapply (good_mono _ _ _ (λ r s7, r = Ok tt ∧ live c id g s7)).
    { intros r s9 [-> H10]. apply (wp_release _ (live c id g)); [unseen|done|]. by intros s10 H11. }
    case_bool_decide; [done|]. apply good_bind.
    eapply good_mono; [|apply (close_served _ (live c id g)); [unseen|apply live_unkeyed|done]]. intros r s9 [-> H10].
    step (live c id g). intros s10 H11. step (live c id g). intros s11 H12. pose proof H12 as (_ & _ & _ & _ & Hid & _).
    rewrite Hc, Hid. step (live c id g). intros s12 [[]|e] H13 Hx; [|done]. step (live c id g). by intros s13 H14.
Qed.

Lemma abort_served side P tasks s : stable P → P s → wp side (abort_tasks tasks) (λ _ s1, P s1) s.
Proof.
  intros HP. revert s. induction tasks as [|t tasks IH]; intros s Hs; [done|]. apply (wp_await _ P); [done|done|].
  intros s1 [] H1 _. by apply IH.
Qed.

(** Nothing is known of the client. *)
Definition anything (_ : ClientInner V) : Prop := True.

Lemma shutdown_voice_served side s : wp side shutdown_voice (λ r _, r = None) s.
Proof.
  apply (wp_acquire _ anything); [unseen|done|]. intros s1 _. apply good_bind. apply (wp_acquire _ anything); [unseen|done|].
  intros s2 _. apply good_bind. step anything. intros s3 _. apply (good_mono _ _ _ (λ r _, r = None)).
  { intros r s4 ->. step anything. intros s5 _. apply good_ret. step anything. by intros s6 _. }
  cbn [fst]. destruct (ci_voice s3) as [v|]; [|done]. apply good_bind.
  eapply good_mono; [|by apply (stop_served _ anything); [unseen| |]]. by intros r s4 [-> _].
Qed.

Lemma shutdown_control_served side s : wp side (shutdown_control None) (λ r _, r = None) s.
Proof.
  apply (wp_acquire _ anything); [unseen|done|]. intros s1 _. apply good_bind. step anything. intros s2 _.
  apply (good_mono _ _ _ (λ r _, r = None)); [intros r s3 ->; step anything; by intros s4 _|].
  cbn [fst]. destruct (ci_control s2) as [c|]; [|done]. step anything. by intros s3 [[]|e] _ Hx.
Qed.

Lemma teardown_served side s : wp side teardown (λ r _, r = Ok tt) s.
Proof.
  apply good_bind. eapply good_mono; [|apply shutdown_voice_served]. intros r s1 ->.
  apply good_bind. eapply good_mono; [|apply shutdown_control_served]. intros r s2 ->.
  step anything. intros s3 _. step anything. intros s4 _. step anything. intros s5 _. step anything. intros s6 _.
  step anything. intros s7 _. step anything. intros s8 _. apply good_bind.
  eapply good_mono; [|by apply (abort_served _ anything); [unseen|]]. by intros [] s9 _.
Qed.

Lemma shutdown_served side s : wp side shutdown (λ r _, r = Ok tt) s.
Proof.
  apply (wp_acquire _ anything); [unseen|done|]. intros s1 _. apply good_bind. step anything. intros s2 _.
  apply (good_mono _ _ _ (λ r _, r = Ok tt)); [intros r s3 ->; step anything; by intros s4 _|].
  destruct (ci_stopped s2); [done|apply teardown_served].
Qed.

(** *** The host *)

Lemma host_wp_on {A} side (p : act A) post P h :
  stable P → wp side p post (client_of side h) → P (client_of (opposite side) h) →
  host_wp (on side p) (λ a h1, post a (client_of side h1) ∧ P (client_of (opposite side) h1)) h.
Proof.
  intros HP. revert h. induction p as [b|f n IH|l n IH|l n IH|q n IH]; cbn; intros h Hp Hopp; [done|..].
  - intros h1 H1. apply IH; rewrite ?client_of_set, ?client_of_set_opposite; [apply Hp, H1|].
    by eapply stable_moves; [|apply H1|].
  - intros h1 H1. apply IH; [apply Hp, H1|]. by eapply stable_moves; [|apply H1|].
  - intros h1 H1. apply IH; [apply Hp, H1|]. by eapply stable_moves; [|apply H1|].
  - intros h1 x H1 Hx. apply IH; [apply Hp; [apply H1|done]|]. by eapply stable_moves; [|apply H1|].
Qed.

Lemma host_wp_sdk {A} side (p : act (result SdkError A)) (R : A → ClientInner V → Prop) P h :
  stable P → wp side p (λ r s, ∃ a, r = Ok a ∧ R a s) (client_of side h) → P (client_of (opposite side) h) →
  host_wp (on_sdk side p) (λ r h1, ∃ a, r = Ok a ∧ R a (client_of side h1) ∧ P (client_of (opposite side) h1)) h.
Proof.
  intros HP Hp Hopp. apply good_bind. eapply good_mono; [|by apply (host_wp_on side p (λ r s, ∃ a, r = Ok a ∧ R a s) P)].
  intros r h1 [(a & -> & Ha) H1]. by exists a.
Qed.

(** What is known of both clients. *)
Definition both_are (P P' : ClientInner V → Prop) (h : Hosts V) : Prop := P (owner h) ∧ P' (peer h).

Lemma both_moves P P' h h1 : stable P → stable P' → others moves h h1 → both_are P P' h → both_are P P' h1.
Proof.
  intros HP HP' Hm [Ho Hp]. split; [by eapply (stable_moves P); [|apply (Hm Owner)|]|by eapply (stable_moves P'); [|apply (Hm Peer)|]].
Qed.

Lemma host_ask {A} P P' q (n : HostAnswer V q → host A) post h :
  stable P → stable P' → both_are P P' h → (∀ x h1, well_answered q x → both_are P P' h1 → host_wp (n x) post h1) →
  host_wp (Await q n) post h.
Proof. intros HP HP' Hh Hn h1 x Hm Hx. apply Hn; [done|]. by eapply both_moves. Qed.

Lemma host_owner {A} (p : act (result SdkError A)) (R : A → ClientInner V → Prop) P P' h :
  stable P' → both_are P P' h → (∀ s, P s → wp Owner p (λ r s1, ∃ a, r = Ok a ∧ R a s1) s) →
  host_wp (on_sdk Owner p) (λ r h1, ∃ a, r = Ok a ∧ both_are (R a) P' h1) h.
Proof. intros HP [Ho Hp] Hrun. by apply (host_wp_sdk Owner p R P' h); [|apply Hrun|]. Qed.

Lemma host_peer {A} (p : act (result SdkError A)) (R : A → ClientInner V → Prop) P P' h :
  stable P → both_are P P' h → (∀ s, P' s → wp Peer p (λ r s1, ∃ a, r = Ok a ∧ R a s1) s) →
  host_wp (on_sdk Peer p) (λ r h1, ∃ a, r = Ok a ∧ both_are P (R a) h1) h.
Proof.
  intros HP [Ho Hp] Hrun. eapply good_mono; [|apply (host_wp_sdk Peer p R P h); [done|by apply Hrun|done]].
  intros r h1 (a & -> & Ha & H1). exists a. by split; [|split].
Qed.

Lemma log_in_passes a b c d h :
  both_are unused unused h →
  host_wp (log_in a b c d) (λ r h1, ∃ stream u, r = Ok (stream, u) ∧ User_id u = user ∧
    head (VoiceStreamType_id <$> voice_stream_types m) = Some stream ∧ both_are informed informed h1) h.
Proof.
  intros Hh. apply good_try.
  eapply good_mono; [|apply (host_owner discover (λ m' s, m' = m ∧ informed s) unused unused); [unseen|done|]].
  2:{ intros s Hs. eapply good_mono; [|by apply discover_served]. intros r s1 [-> H1]. by exists m. }
  intros r h1 (m1 & -> & [-> Ho1] & Hp1). exists m. split; [done|]. apply good_try.
  eapply good_mono; [|apply (host_peer discover (λ m' s, m' = m ∧ informed s) informed unused); [unseen|done|]].
  2:{ intros s Hs. eapply good_mono; [|by apply discover_served]. intros r s1 [-> H2]. by exists m. }
  intros r h2 (m2 & -> & Ho2 & -> & Hp2). exists m. split; [done|]. rewrite Z.eqb_refl. apply good_try, good_ret. exists tt.
  split; [done|]. pose proof valid_metadata as (_ & _ & Hne & _ & _ & Hns & _)%validate_metadata_ok.
  unfold first_capabilities. destruct (codecs m) as [|codec rest]; [done|].
  destruct (voice_stream_types m) as [|stream streams]; [done|]. cbn [head ok_or result_bind fmap list_fmap].
  apply good_try, good_ret. exists (codec, VoiceStreamType_id stream). split; [done|]. apply good_try.
  assert (∀ side request s, informed s → wp side (sdk_login request) (λ r s1, ∃ login, r = Ok login ∧
            (side = Owner → User_id (login_user login) = user) ∧ informed s1) s) as Hlogin by apply login_served.
  eapply good_mono; [|apply (host_owner _ (λ login s, (Owner = Owner → User_id (login_user login) = user) ∧ informed s) informed informed);
    [unseen|done|by apply Hlogin]].
  intros r h3 (login & -> & [Hu Ho3] & Hp3). exists login. split; [done|].
  apply (host_ask informed informed); [unseen|unseen|done|]. intros register h4 _ H4. apply good_try.
  eapply (good_mono _ _ _ (λ r h5, r = Ok tt ∧ both_are informed informed h5)).
  2:{ case_bool_decide; [|done]. apply (host_ask informed informed); [unseen|unseen|done|]. by intros [x|e] h5 Hx H5. }
  intros r h5 [-> H5]. exists tt. split; [done|]. apply good_try.
  eapply good_mono; [|apply (host_peer _ (λ login s, informed s) informed informed); [unseen|done|]].
  2:{ intros s Hs. eapply good_mono; [|by apply Hlogin]. intros r s1 (l & -> & _ & H6). by exists l. }
  intros r h6 (peer_login & -> & H6). exists peer_login. split; [done|]. apply good_ret.
  eexists _, _. split; [done|]. split; [by apply Hu|]. by split.
Qed.

(** A step of the check passes, or the presence was late. *)
Definition passes {A} (Q : A → Hosts V → Prop) (r : result HostError A) (h : Hosts V) : Prop :=
  (∃ a, r = Ok a ∧ Q a h) ∨ late = true ∧ r = Err HostElapsed.

Lemma try_passes {A B} (p : host (result HostError A)) (n : A → host (result HostError B)) Q post h :
  host_wp p (passes Q) h → (∀ a h1, Q a h1 → host_wp (n a) (passes post) h1) →
  host_wp (try_bind p n) (passes post) h.
Proof.
  intros Hp Hn. apply good_bind. eapply good_mono; [|exact Hp].
  intros r h1 [(a & -> & Ha)|[Hl ->]]; [by apply Hn|apply good_ret; by right].
Qed.

Lemma try_succeeds {A B} (p : host (result HostError A)) (n : A → host (result HostError B)) Q post h :
  host_wp p (λ r h1, ∃ a, r = Ok a ∧ Q a h1) h → (∀ a h1, Q a h1 → host_wp (n a) (passes post) h1) →
  host_wp (try_bind p n) (passes post) h.
Proof. intros Hp Hn. eapply (try_passes p n Q); [|done]. eapply good_mono; [|exact Hp]. intros r h1 Hr. by left. Qed.

Lemma choose_passes P P' h :
  stable P → stable P' → both_are P P' h →
  host_wp choose_channel (λ r h1, ∃ channel_id, r = Ok channel_id ∧ both_are P P' h1) h.
Proof.
  intros HP HP' Hh. apply (host_ask P P'); [done..|]. intros value h1 Hvalue H1. unfold well_answered, well_set in Hvalue.
  cbn in Hvalue. destruct value as [text|].
  - specialize (Hvalue text eq_refl). destruct (Snowflake.from_str text) as [channel_id|e]; [|done]. by exists channel_id.
  - apply (host_ask P P'); [done..|]. intros [created|e] h2 Hx H2; [|done]. by eexists.
Qed.

Lemma wait_passes patience P P' c h :
  stable P → stable P' → both_are P P' h →
  host_wp (wait_for_user_presence patience Peer c user "dnd") (passes (λ _, both_are P P')) h.
Proof.
  intros HP HP'. revert h. induction patience as [|patience IH]; intros h Hh; cbn [wait_for_user_presence bind call];
    (apply (host_ask P P'); [done..|]; intros current h1 Hcurrent H1; cbn in Hcurrent);
    (destruct (has_presence user "dnd" current); [by left; exists tt|]);
    (assert (late = true) as Hlate by (destruct late; [done|by specialize (Hcurrent eq_refl)])); [by right|].
  apply (try_succeeds _ _ (λ newer h2, newer = true ∧ both_are P P' h2)).
  - apply (host_ask P P'); [done..|]. intros elapsed h2 -> H2. apply (host_ask P P'); [done..|].
    intros newer h3 -> H3. by exists true.
  - intros newer h2 [-> H2]. by apply IH.
Qed.

Definition connected_clients (h : Hosts V) : Prop :=
  ∃ c id g c' id' g', both_are (live c id g) (live c' id' g') h.

Lemma read_host {A X} side (f : ClientInner V → X) (n : X → host A) P P' post h :
  stable P → stable P' → both_are P P' h →
  (∀ h1, both_are P P' h1 → host_wp (n (f (client_of side h1))) post h1) →
  host_wp (bind (on side (read f)) n) post h.
Proof.
  intros HP HP' Hh Hn h1 Hm. cbn.
  assert (set_client side (client_of side h1) h1 = h1) as -> by (by destruct side, h1).
  apply Hn. by eapply both_moves.
Qed.

Lemma connect_passes patience u h :
  User_id u = user → both_are informed informed h →
  host_wp (connect_live patience u) (passes (λ _, connected_clients)) h.
Proof.
  intros Hu Hh.
  eapply (try_succeeds _ _ (λ c h1, ∃ id g, both_are (λ s, live c id g s ∧ ci_state s = Some c) informed h1)).
  { eapply good_mono; [|apply (host_owner _ (λ c s, ∃ id g, live c id g s ∧ ci_state s = Some c) informed informed); [unseen|done|]].
    - intros r h1 (c & -> & (id & g & Ho) & Hp). exists c. split; [done|]. by exists id, g.
    - intros s Hs. eapply good_mono; [|by apply connect_served]. intros r s1 (c & id & g & -> & H1). exists c. split; [done|]. by exists id, g. }
  intros c h1 (id & g & H1). set (P := λ s, live c id g s ∧ ci_state s = Some c) in H1.
  assert (stable P) as HP by unseen.
  eapply (try_succeeds _ _ (λ c' h2, ∃ id' g', both_are P (λ s, live c' id' g' s ∧ ci_state s = Some c') h2)).
  { eapply good_mono; [|apply (host_peer _ (λ c' s, ∃ id' g', live c' id' g' s ∧ ci_state s = Some c') P informed); [done|done|]].
    - intros r h2 (c' & -> & Ho & id' & g' & Hp). exists c'. split; [done|]. by exists id', g'.
    - intros s Hs. eapply good_mono; [|by apply connect_served]. intros r s1 (c' & id' & g' & -> & H2). exists c'. split; [done|]. by exists id', g'. }
  intros c' h2 (id' & g' & H2). set (P' := λ s, live c' id' g' s ∧ ci_state s = Some c') in H2.
  assert (stable P') as HP' by unseen.
  eapply (try_succeeds _ _ (λ _, both_are P P')).
  { apply (host_ask P P'); [done..|]. intros [[]|e] h3 Hx H3; [|done]. by exists tt. }
  intros [] h3 H3. eapply (try_succeeds _ _ (λ _, both_are P P')).
  { apply (host_ask P P'); [done..|]. intros [[]|e] h4 Hx H4; [|done]. by exists tt. }
  intros [] h4 H4. apply (read_host _ _ _ P P'); [done..|]. intros h5 H5. apply (read_host _ _ _ P P'); [done..|]. intros h6 H6.
  apply (read_host _ _ _ P P'); [done..|]. intros h7 H7. pose proof H7 as [_ [_ Hstate]]. cbn [client_of]. rewrite Hstate.
  eapply (try_succeeds _ _ (λ state h8, state = c' ∧ both_are P P' h8)).
  { apply good_ret. by exists c'. }
  intros state h8 [-> H8]. eapply (try_succeeds _ _ (λ _, both_are (live c id g) P')).
  { apply (host_owner _ (λ _, live c id g) P P'); [done|done|]. intros s [Hs _].
    eapply good_mono; [|by apply presence_served]. by intros r s1 (ack & -> & H9); exists ack. }
  intros ack h9 H9. rewrite Hu. eapply (try_passes _ _ (λ _, both_are (live c id g) P')).
  { apply wait_passes; [unseen|done|done]. }
  intros [] h10 [Ho10 [Hp10 _]]. apply good_ret. left. eexists. split; [done|]. by exists c, id, g, c', id', g'.
Qed.

Lemma lines_pass P P' lines h :
  stable P → stable P' → both_are P P' h → host_wp (println_all lines) (λ _, both_are P P') h.
Proof.
  intros HP HP'. revert h. induction lines as [|line lines IH]; intros h Hh; [done|].
  intros h1 Hm. apply IH. by eapply (both_moves P P') in Hm.
Qed.

Lemma diagnostics_pass P P' label side cursor h :
  stable P → stable P' → both_are P P' h → host_wp (print_sync_diagnostics label side cursor) (λ _, both_are P P') h.
Proof. intros HP HP' Hh. apply (host_ask P P'); [done..|]. intros events h1 _ H1. by apply lines_pass. Qed.

Lemma agreed_agree v v' : agreed v → agreed v' → negotiations_agree v v' = true.
Proof.
  intros (Hc & Hmp & He) (Hc' & Hmp' & He'). unfold negotiations_agree. rewrite Hmp, Hmp', He, He', Z.eqb_refl.
  rewrite bool_decide_eq_true_2 by congruence. by destruct encrypted.
Qed.

Definition speaking_clients (v v' : VoiceSession) (h : Hosts V) : Prop :=
  ∃ c id g c' id' g', both_are (speaking c id g v) (speaking c' id' g' v') h.

Lemma joins_pass channel_id cursors h :
  connected_clients h →
  host_wp (join_both channel_id cursors) (passes (λ vs, speaking_clients vs.1 vs.2)) h.
Proof.
  intros (c & id & g & c' & id' & g' & Hh).
  eapply (try_succeeds _ _ (λ v h1, agreed v ∧ both_are (speaking c id g v) (live c' id' g') h1)).
  { eapply good_mono; [|apply (host_owner _ (λ v s, agreed v ∧ speaking c id g v s) (live c id g) (live c' id' g')); [unseen|done|]].
    - intros r h1 (v & -> & [Hv Ho] & Hp). by exists v.
    - intros s Hs. eapply good_mono; [|by apply (join_served _ c id g)]. intros r s1 (v & -> & Hv & H1). by exists v. }
  intros v h1 [Hv H1]. set (P := speaking c id g v) in H1. assert (stable P) as HP by unseen.
  eapply (try_succeeds _ _ (λ v' h2, agreed v' ∧ both_are P (speaking c' id' g' v') h2)).
  { eapply good_mono; [|apply (host_peer _ (λ v' s, agreed v' ∧ speaking c' id' g' v' s) P (live c' id' g')); [done|done|]].
    - intros r h2 (v' & -> & Ho & Hv' & Hp). by exists v'.
    - intros s Hs. eapply good_mono; [|by apply (join_served _ c' id' g')]. intros r s1 (v' & -> & Hv' & H2). by exists v'. }
  intros v' h2 [Hv' H2]. set (P' := speaking c' id' g' v') in H2. assert (stable P') as HP' by unseen.
  rewrite (agreed_agree v v') by done. eapply (try_succeeds _ _ (λ _, both_are P P')); [by apply good_ret; exists tt|].
  intros [] h3 H3. apply (host_ask P P'); [done..|]. intros [] h4 _ H4. apply good_bind.
  eapply good_mono; [|by apply (diagnostics_pass P P')]. intros [] h5 H5. apply good_bind.
  eapply good_mono; [|by apply (diagnostics_pass P P')]. intros [] h6 H6. apply good_ret. left. eexists. split; [done|].
  by exists c, id, g, c', id', g'.
Qed.

Lemma forward_passes v v' stream u h :
  User_id u = user → head (VoiceStreamType_id <$> voice_stream_types m) = Some stream → speaking_clients v v' h →
  host_wp (forward_frame v v' stream u) (passes (λ _, speaking_clients v v')) h.
Proof.
  intros Hu Hstream (c & id & g & c' & id' & g' & Hh). set (P := speaking c id g v) in Hh. set (P' := speaking c' id' g' v') in Hh.
  assert (stable P) as HP by unseen. assert (stable P') as HP' by unseen.
  eapply (try_succeeds _ _ (λ _, both_are P P')).
  { apply (host_owner _ (λ _, P) P P'); [done|done|]. intros s Hs. apply (wp_await _ P); [done..|].
    intros s1 [[]|e] H1 Hx; [|done]. by exists tt. }
  intros [] h1 H1.
  eapply (try_succeeds _ _ (λ received h2, ok_and forwards received ∧ both_are P P' h2)).
  { apply (host_ask P P'); [done..|]. intros elapsed h2 -> H2. apply (host_ask P P'); [done..|].
    intros [frame|e] h3 Hx H3; [|done]. by exists (Ok frame). }
  intros [frame|e] h2 [Hframe H2]; [|done]. destruct Hframe as (Hspeaker & Hhead & Hpayload).
  eapply (try_succeeds _ _ (λ received h3, received = frame ∧ both_are P P' h3)); [by apply good_ret; exists frame|].
  intros received h3 [-> H3]. rewrite Hspeaker, Hu, Z.eqb_refl.
  eapply (try_succeeds _ _ (λ _, both_are P P')); [by apply good_ret; exists tt|]. intros [] h4 H4.
  rewrite Hstream in Hhead. injection Hhead as ->. rewrite Z.eqb_refl, bool_decide_eq_true_2 by done.
  apply good_ret. left. exists tt. split; [done|]. by exists c, id, g, c', id', g'.
Qed.

Lemma leave_passes label side c id g v h :
  speaking c id g v (client_of side h) →
  host_wp (leave_reported label side) (λ r h1, r = Ok tt) h.
Proof.
  intros Hh. apply good_bind. eapply good_mono.
  2:{ eapply (host_wp_on side _ (λ r s, r = Ok tt ∧ live c id g s) anything); [unseen|by eapply leave_served|done]. }
  by intros r h1 [[-> _] _].
Qed.

Lemma peer_leaves label c id g v c' id' g' v' h :
  both_are (speaking c id g v) (speaking c' id' g' v') h →
  host_wp (leave_reported label Peer) (passes (λ _ h1, speaking c id g v (owner h1))) h.
Proof.
  intros [Ho Hp]. apply good_bind. eapply good_mono.
  2:{ eapply (host_wp_on Peer _ (λ r s, r = Ok tt ∧ live c' id' g' s) (speaking c id g v)); [unseen|by eapply leave_served|done]. }
  intros r h1 [[-> _] H1]. apply good_ret. left. by exists tt.
Qed.

Lemma run_passes patience a b c d h :
  both_are unused unused h → host_wp (run_interoperability patience a b c d) (passes (λ _ _, True)) h.
Proof.
  intros Hh.
  eapply (try_succeeds _ _ (λ su h1, User_id su.2 = user ∧ head (VoiceStreamType_id <$> voice_stream_types m) = Some su.1 ∧
                                     both_are informed informed h1)).
  { eapply good_mono; [|by apply log_in_passes]. intros r h1 (stream & u & -> & Hu & Hs & H1). by exists (stream, u). }
  intros [stream u] h1 (Hu & Hs & H1). cbn [fst snd] in Hu, Hs.
  eapply (try_succeeds _ _ (λ _, both_are informed informed)); [apply choose_passes; [unseen|unseen|done]|].
  intros channel_id h2 H2. eapply try_passes; [by apply connect_passes|]. intros cursors h3 H3.
  eapply try_passes; [by apply joins_pass|]. intros [v v'] h4 H4.
  eapply try_passes; [by apply forward_passes|]. intros [] h5 (k & id & g & k' & id' & g' & H5).
  eapply try_passes; [by eapply peer_leaves|]. intros [] h6 H6.
  eapply good_mono; [|by eapply (leave_passes _ Owner)]. intros r h7 ->. left. by exists tt.
Qed.

Lemma client_shutdown_passes side h : host_wp (on_sdk side shutdown) (λ r _, r = Ok tt) h.
Proof.
  eapply good_mono; [|apply (host_wp_sdk side shutdown (λ _ _, True) anything); [unseen| |done]].
  - by intros r h1 ([] & -> & _).
  - eapply good_mono; [|apply shutdown_served]. intros r s ->. by exists tt.
Qed.

Lemma check_passes_then patience owner_account peer_account h :
  both_are unused unused h →
  host_wp (check_and_shut_down patience owner_account peer_account) (passes (λ _ _, True)) h.
Proof.
  intros Hh. apply good_bind. eapply good_mono; [|by apply run_passes]. intros r h1 Hr.
  apply good_bind. eapply good_mono; [|apply client_shutdown_passes]. intros x h2 ->.
  apply good_bind. eapply good_mono; [|apply client_shutdown_passes]. intros x h3 ->.
  destruct Hr as [([] & -> & _)|[Hl ->]]; [|by right]. intros h4 _. left. by exists tt.
Qed.

Lemma required_set name h :
  name ≠ "ZEPHYRVOX_SERVER_CARD"%string → name ≠ "ZEPHYRVOX_CHANNEL_ID"%string → name ≠ "ZEPHYRVOX_REGISTER_PEER"%string →
  host_wp (required name) (λ r _, ∃ value, r = Ok value ∧ True) h.
Proof.
  intros H1 H2 H3 h1 x _ Hx. cbn in Hx. unfold well_set in Hx. rewrite !bool_decide_eq_false_2 in Hx by done.
  destruct Hx as [value ->]. by exists value.
Qed.

Lemma settings_pass h : host_wp settings (passes (λ _ _, True)) h.
Proof.
  eapply (try_succeeds _ _ (λ text _, ∃ card, Card.parse text = Ok card)).
  { intros h1 x _ (text & card & -> & Hc). exists text. split; [done|]. by exists card. }
  intros text h1 [card Hc]. rewrite Hc. eapply (try_succeeds _ _ (λ _ _, True)); [by apply good_ret; exists card|].
  intros card' h2 _. repeat (eapply (try_succeeds _ _ (λ _ _, True)); [by apply required_set|]; intros ? ? _).
  left. by eexists.
Qed.

Lemma client_new_passes side card P h :
  stable P → P (client_of (opposite side) h) →
  host_wp (fallible HostSdk (client_new side (ClientConfig.new card)))
    (λ r h1, ∃ a, r = Ok a ∧ unused (client_of side h1) ∧ P (client_of (opposite side) h1)) h.
Proof.
  intros HP Hopp h1 [[]|e] H1 Hx; [|done]. intros h2 H2. exists tt. split; [done|].
  rewrite client_of_set, client_of_set_opposite. split; [done|].
  by eapply (stable_moves P); [|apply H2|]; [|eapply (stable_moves P); [|apply H1|]].
Qed.

Lemma main_passes patience h : host_wp (interoperability patience) (passes (λ _ _, True)) h.
Proof.
  eapply try_passes; [apply settings_pass|]. intros [[card owner_account] peer_account] h1 _.
  eapply (try_succeeds _ _ (λ _ h2, unused (owner h2))).
  { eapply good_mono; [|by apply (client_new_passes Owner card anything); [unseen|]]. intros r h2 (a & -> & H2 & _). by exists a. }
  intros [] h2 H2. eapply (try_succeeds _ _ (λ _ h3, both_are unused unused h3)).
  { eapply good_mono; [|by apply (client_new_passes Peer card unused); [unseen|]]. intros r h3 (a & -> & H3 & H3'). by exists a. }
  intros [] h3 H3. by apply check_passes_then.
Qed.

(** C31: a healthy server passes the check. If the environment is complete and every call is
    answered as a healthy server, network and clock answer, with valid metadata and
    admissions that satisfy the validation of zephyrvox-http, the check reports success,
    or the presence was late and it reports the time-out of that wait: no other step, and no check
    that the SDK makes on the way, can fail. *)
Theorem healthy_server_passes patience h log r h' :
  Forall answered log → host_ends (interoperability patience) h log r h' →
  r = Ok tt ∨ late = true ∧ r = Err HostElapsed.
Proof.
  intros Hlog Ho. eapply good_run_sound in Ho; [|apply main_passes|exact Hlog].
  destruct Ho as [([] & -> & _)|Hlate]; [by left|by right].
Qed.
End passing.

(** ** The check in the small world of Hosts *)

Lemma exec_good {St Lock Q : Type} {Answer : Q → Type} (good : ∀ q, Answer q → Prop) (answers : ∀ q, Answer q) {A}
    (p : prog (St:=St) (Lock:=Lock) (Answer:=Answer) A) s :
  (∀ q, good q (answers q)) → Forall (λ c, good (projT1 c) (projT2 c)) (exec answers p s).1.1.
Proof.
  intros Hgood. revert s. induction p as [b|f n IH|l n IH|l n IH|q n IH]; cbn; intros s; try done.
  specialize (IH (answers q) s). destruct (exec answers (n (answers q)) s) as [[log a] s1]. by constructor.
Qed.

#[local] Existing Instance ToyVoice.base64.
#[local] Existing Instance toy_url_lib.

Lemma toy_answers_well q : well_answered toy_metadata true true 1000 1 false q (ToyHosts.answers q).
Proof.
  destruct q as [side q|name|side card timeout|side request|side request|side c|side c|side c|d| |side cursor]; try done.
  - destruct q; try done; cbn.
    + by destruct side.
    + split_and!; try done. apply validate_voice_join_ok. cbn. split_and!; try done. by eexists _, _.
  - cbn. unfold well_set, ToyHosts.variables. case_bool_decide; [by eexists _, _|].
    case_bool_decide; [by intros text [= <-]|]. case_bool_decide; [done|by eexists].
Qed.

Lemma toy_log_good : Forall (answered toy_metadata true true 1000 1 false) toy_check.1.1.
Proof. apply (exec_good (well_answered toy_metadata true true 1000 1 false)), toy_answers_well. Qed.

(** Relays that only pass events on disturb nobody. *)
Definition relaying : ClientInner unit → ClientInner unit → Prop := rtc (λ s s', ∃ e, s' = emit e s).

Lemma relaying_undisturbed s s' : relaying s s' → but_events s' = but_events s.
Proof. by induction 1 as [|s s1 s' [e ->] _ IH]; [|rewrite IH]. Qed.

Lemma healthy_server_passes_witness : toy_check.1.2 = Ok tt.
Proof.
  destruct (healthy_server_passes relaying relaying_undisturbed toy_metadata true true 1000 1 false ltac:(vm_compute; reflexivity)
    ltac:(lia) 3 _ _ _ _ toy_log_good (toy_check_runs relaying)) as [Hok|[Hlate _]]; [exact Hok|discriminate Hlate].
Defined.
